(* ===== verification/_CoqProject ===== *)
-Q . S2P
Prelude.v
IndexSet.v
Proto.v
HyParView.v
HyParViewFacts.v
HyParViewProps.v
TimeCache.v
TimeCacheProps.v
Plumtree.v
PlumtreeFacts.v
PlumtreeProps.v
Topic.v
TopicFacts.v
TopicProps.v
GossipState.v
GossipStateFacts.v
GossipStateProps.v
Bytes.v
IdTypes.v
ExampleWire.v
Ranger.v
RangerFacts.v
RangerSync.v
RangerProps.v
Records.v
DocsBounds.v
DocsStore.v
DocsStoreFacts.v
DocsStoreProps.v
DocsQuery.v
DocsQueryFacts.v
DocsQuerySpec.v
DocsQueryProps.v
DocsHeads.v
DocsReplica.v
DocsReplicaSafety.v
DocsReplicaProps.v
DocsTx.v
DocsDb.v
DocsDbFacts.v
DocsDbProps.v
Merkle.v
MerkleFacts.v
MerkleConsistency.v
MerkleSets.v
MerkleProps.v
SortedVec.v
IdKeys.v
IdPolicy.v
IdPolicyProps.v
IdProviders.v
IdFacts.v
IdApprovals.v
IdGuardians.v
IdGuardiansProps.v
IdCapability.v
IdCapVerifier.v
IdCapabilityProps.v
IdDevices.v
IdEvidence.v
IdMigration.v
IdRecovery.v
IdEvents.v
IdAccount.v
IdAccountOps.v
IdVerifier.v
IdAccountFacts.v
IdAccountSteps.v
IdAccountPhases.v
IdAccountExample.v
IdAccountHistory.v
IdVerifierProps.v
IdRecoveryProps.v
IdForks.v
IdForksHistory.v
IdForksProps.v
IdCheckpoint.v
IdCheckpointProps.v
