(* ===== verification/Prelude.v ===== *)
(** * Verification of the Krikos protocols

    The development models the deterministic cores of three protocol crates of the
    repository: the gossip protocol (src/protocols/krikos-gossip), the documents
    (src/protocols/krikos-docs) and the identity protocol
    (src/protocols/krikos-identity): its verifiable data structures, its policies and
    the accounts they govern. Each of these is written
    in the repository as synchronous code behind an asynchronous driver; the model
    is of the synchronous code. A definition has the name of the function or type it
    translates wherever that is free, and the comment before it names the source
    where the names differ.

    ** Conventions

    A method with [&mut self] and an event sink is a computation of type [M]
    (below): from a state to a value, the next state and the events, or a panic.
    [wp] is its weakest precondition and [respects] says that a relation between
    the states holds on every path; the tactics [wp_steps] and [respects_solve] are
    the automation of the invariant proofs. A fallible function returns [result],
    with the error of the source; the operator [?] is the bind. Unsigned integers
    are numbers of type [N], with the wrap-around, the saturation or the check of
    the source written out; an addition that the source leaves unchecked wraps, as
    it does in a build without overflow checks. Readings of the clock are arguments.

    Third-party code is a class of operations, with a class of laws where a theorem
    relies on documented behaviour, and every theorem with such a hypothesis has an
    example in which concrete functions keep the laws: [IndexMapSet] (indexmap),
    [Rng] (rand), [HashIter] (the order of a hash map), [Blake3], [Blake3Hash],
    [Postcard], [WireFormat] (postcard), [Table], [TableMore], [Multimap] and
    [Database] (redb), [Ed25519] and [Curve] (dalek), [Channels] (the channels of
    subscribers). [ExampleWire] and DocsStoreFacts hold instances for examples. Where a
    theorem relies on a hash, its conclusion has a collision as the alternative, or
    it asks that the fingerprints of the entries at hand do not collide.

    ** Gossip (src/protocols/krikos-gossip/src)

    - IndexSet, Proto, TimeCache: proto/util.rs, proto.rs, limits.rs. The random
      index sets, the timer queue and the expiring cache. TimeCacheProps: the timer
      queue refines one first-in first-out list per instant; entries expire when
      they are due.
    - HyParView: proto/hyparview.rs, the membership protocol, a definition per
      handler. HyParViewFacts holds the invariant and the bounds
      of what is sent; HyParViewProps: the views stay disjoint and within their
      capacity, neighbour events mirror the active view, random walks end.
    - Plumtree: proto/plumtree.rs, the broadcast trees. PlumtreeFacts
      and PlumtreeProps: the state is bounded and a message is
      delivered at most once while its identifier is remembered.
    - Topic: proto/topic.rs, the composition of the two for one topic, with the
      validation of the configuration; TopicFacts, TopicProps: the events a topic
      reports mirror its neighbours.
    - GossipState: proto/state.rs, all topics and their connections;
      GossipStateFacts, GossipStateProps: every reachable state keeps the
      invariants of all topics, an event of a topic is the step of that topic alone,
      and when a connection that topics share is closed.

    ** Documents (src/protocols/krikos-docs/src)

    - Bytes, Records: byte strings and their orders; identifiers, records and
      signed entries (sync.rs).
    - Ranger: ranger.rs, range-based set reconciliation over the interface [Store].
      RangerFacts states the contract of a store and the semantics of an insertion,
      and that the ranges announced are a partition, RangerSync the session
      of two peers; RangerProps: insertions commute and, for at most 1024 keys,
      sessions end with both peers holding the same keys and equivalent values.
    - DocsBounds, DocsStore: store/fs/bounds.rs and the store of one document of
      store/fs.rs, an implementation of [Store] on tables all documents share.
      DocsStoreFacts, DocsStoreProps: it refines the reconciliation
      store except for the entries named there, and never reads another document.
    - DocsQuery: store.rs, store/util.rs, store/fs/query.rs, store/fs/ranges.rs.
      DocsQueryFacts, DocsQuerySpec, DocsQueryProps: what a query
      returns, and in which order.
    - DocsHeads: heads.rs, with the encoding under a size limit and what it keeps.
    - DocsReplica: replicas, capabilities and validation (sync.rs, keys.rs).
      DocsReplicaSafety, DocsReplicaProps: every stored entry
      carries valid signatures of its document and author, whatever peers send.
    - DocsTx: the batched transactions of store/fs.rs; batching is not
      visible to callers, and what is committed is a prefix of the writes.
    - DocsDb: the other tables of store/fs.rs; DocsDbFacts, DocsDbProps: imported
      capabilities only grow, useful peers are bounded, what removal leaves behind.

    ** Identity (src/protocols/krikos-identity/src)

    - IdTypes: error.rs, types.rs, codec.rs. Digests, domain-separated hashes and
      the codec that accepts one encoding per value.
    - Merkle: merkle.rs, the append-only log and the sorted set with proofs of
      inclusion, consistency and absence. MerkleFacts, MerkleConsistency,
      MerkleSets, MerkleProps: proofs that verify are true of the committed data,
      and the operations build a proof that verifies for every question.
    - SortedVec, IdKeys: vectors in ascending order; operation kinds, extensions,
      keys and descriptors (types.rs, schema.rs, extension.rs, keys.rs).
    - IdPolicy: policy.rs. IdPolicyProps: exactly the well-formed
      control policies have a serialised form, a policy answers with the rule it was
      given for an operation, and a policy is accepted for a set of controllers
      exactly when every rule can be satisfied by them.

    - IdFacts: lemmas that the files below share. IdProviders: the logs of
      transparency providers (checkpoint.rs, verifier.rs); what a
      receipt attests stays in every head the log progresses to.
    - IdApprovals: sets of signed approvals (event.rs); merging two
      is the union of their signatures. IdGuardians: the authority of guardians
      (recovery.rs); IdGuardiansProps: what a verified authority stands for.
    - IdCapability, IdCapVerifier: capability.rs and capability_verifier.rs, grants,
      delegations and the decision on a request; IdCapabilityProps: what an allowed
      request was granted.
    - IdDevices (device.rs), IdEvidence (the evidence of event.rs), IdMigration
      (crypto_migration.rs), IdRecovery (recovery.rs) and IdEvents (event.rs,
      genesis.rs): the payloads of events, as their constructors check them.
    - IdAccount, IdAccountOps: state.rs, the projection of an account and a
      definition per operation on devices, controllers, policies, recovery, migration
      and retirement. IdVerifier: verifier.rs, the validation of an event, and the
      projection after it. IdAccountFacts states the invariant [account_ok],
      IdAccountSteps and IdAccountPhases that every operation keeps it,
      IdAccountExample holds the history of an account that the examples share.
      IdAccountHistory: the invariant holds at every point of a
      history, revocations are permanent, events advance the account, and no
      controller is without keys. IdVerifierProps: an event is accepted with the
      signatures that its policy asks for only. IdRecoveryProps: so is a recovery,
      after the delay of its policy.
    - IdForks: the rest of state.rs. The state with its lineage, replays, forks and
      their resolution; the states in it are one inductive type, since a lineage
      retains the states its events were validated against, and an event leads from
      a state to a state and an outcome. IdForksHistory, IdForksProps:
      the invariant holds for every state a history retains, replicas that see two
      conflicting events in different orders hold the same fork, a fork leaves the
      authority where it was until all heads are resolved, replays change nothing.
    - IdCheckpoint: the checkpoints of checkpoint.rs and freshness.rs, with what
      state.rs gives to commit. IdCheckpointProps: the identifier of a checkpoint
      determines the authority of the account, a proof against its roots says what
      the status of a device is, and a checkpoint is trusted only after a history of
      the account, with the approvals and the recent receipts that are asked for.

    ** Bounds and fuel

    Loops that are not structural carry fuel, and each has a lemma that the fuel
    given is enough: the number of leaves or of bits of the size of a Merkle tree
    ([tree_hash_go_fuel]), the length of the heap of a cache, of a list cut into
    chunks, and of the rest of a query's range. A reconciliation session is shown to
    end, with a bound on the number of messages.

    ** Not modelled

    The asynchronous drivers, actors and network code of the three crates, which
    move messages between these state machines and sockets; the migrations of
    database files of earlier releases; the textual forms of keys. Of the identity
    protocol: the service of a transparency provider, pairing of devices, private
    addressing and the stores, which keep what is modelled here in a database. The
    crates krikos-blobs, krikos, krikos-base, krikos-dns, krikos-relay,
    krikos-resolver, krikos-runtime and krikos-sim, which are sockets, timers and
    wrappers of third-party code for the most part. *)
From stdpp Require Import base tactics list gmap sets sorting.
From Stdlib Require Import ZArith Lia.

(** ** Machine integers

    [usize], [u64] and [u16] values are natural numbers of type [N]; where the
    source adds, the wrap-around or the saturation is written out. *)

Definition usize_max : N := 2 ^ 64 - 1.
Definition u16_max : N := 2 ^ 16 - 1.

(** [x + y] on [usize] and [u64] in a build without overflow checks (the
    release profile of the workspace). *)
Definition wrapping_add64 (x y : N) : N := (x + y) mod 2 ^ 64.

(** [x - y] likewise, for operands within the width. *)
Definition wrapping_sub64 (x y : N) : N := (x + 2 ^ 64 - y) mod 2 ^ 64.

Lemma wrapping_sub64_small (x y : N) :
  (y <= x)%N → (x < 2 ^ 64)%N → wrapping_sub64 x y = (x - y)%N.
Proof.
  intros Hy Hx. unfold wrapping_sub64.
  replace (x + 2 ^ 64 - y)%N with (x - y + 1 * 2 ^ 64)%N by lia.
  rewrite N.Div0.mod_add. apply N.mod_small. lia.
Qed.

(** [usize::saturating_add] and [usize::saturating_mul]. *)
Definition saturating_add64 (x y : N) : N := (x + y) `min` usize_max.
Definition saturating_mul64 (x y : N) : N := (x * y) `min` usize_max.

(** [u16::saturating_add] and [u16::saturating_sub]; subtraction on [N] is
    already truncated at zero. *)
Definition saturating_add16 (x y : N) : N := (x + y) `min` u16_max.
Definition saturating_sub16 (x y : N) : N := x - y.

(** [x.clamp(lo, hi)], for [lo <= hi]. *)
Definition clamp (lo hi x : N) : N := (x `max` lo) `min` hi.

(** Numbers are totally ordered. *)
#[global] Instance N_le_TotalOrder : TotalOrder N.le.
Proof.
  split; [split; [split|]|].
  - intros x. lia.
  - intros x y z. lia.
  - intros x y. lia.
  - intros x y. unfold strict. lia.
Qed.

(** The length of a vector and the size of a set or map, as a [usize]. *)
Definition len {A} (l : list A) : N := N.of_nat (length l).
Definition ssize `{Size C} (s : C) : N := N.of_nat (size s).

Lemma ssize_delete_le `{Countable K} {A} (m : gmap K A) i : (ssize (delete i m) <= ssize m)%N.
Proof. unfold ssize. rewrite map_size_delete. destruct (m !! i); unfold id; lia. Qed.

Lemma ssize_insert_le `{Countable K} {A} (m : gmap K A) i x :
  (ssize (<[i := x]> m) <= ssize m + 1)%N.
Proof. unfold ssize. rewrite map_size_insert. destruct (m !! i); unfold id; lia. Qed.

Lemma ssize_filter_compl `{Countable K} {A} (P : K * A → Prop) `{!∀ x, Decision (P x)}
    (m : gmap K A) :
  ssize (filter P m) = (ssize m - ssize (filter (λ x, ¬ P x) m))%N.
Proof.
  unfold ssize. rewrite <-(map_filter_union_complement P m) at 2.
  rewrite map_size_disj_union by apply map_disjoint_filter_complement. lia.
Qed.

Lemma StronglySorted_filter {A} (R : relation A) (P : A → Prop) `{!∀ x, Decision (P x)} l :
  StronglySorted R l → StronglySorted R (filter P l).
Proof.
  induction 1 as [|a l Hl IH Ha]; [constructor|]. rewrite filter_cons. case_decide; [|done].
  constructor; [done|]. apply Forall_forall. intros x [_ Hx]%list_elem_of_filter.
  by eapply Forall_forall.
Qed.

Lemma StronglySorted_lookup {A} (R : relation A) l i j a b :
  StronglySorted R l → i < j → l !! i = Some a → l !! j = Some b → R a b.
Proof.
  intros Hl Hij Ha Hb. rewrite <-(take_drop_middle l i a Ha) in Hl.
  apply StronglySorted_app_1_r, StronglySorted_cons in Hl as [Hl _].
  eapply Forall_forall; [done|]. apply list_elem_of_lookup. exists (j - S i).
  rewrite lookup_drop. by replace (S i + (j - S i)) with j by lia.
Qed.

Lemma filter_ext_in {A} (P Q : A → Prop) `{!∀ x, Decision (P x), !∀ x, Decision (Q x)} (l : list A) :
  (∀ x, x ∈ l → P x ↔ Q x) → filter P l = filter Q l.
Proof.
  intros HPQ. induction l as [|a l IH]; [done|]. rewrite !filter_cons.
  rewrite (decide_ext (P a) (Q a)) by (apply HPQ; by left).
  rewrite IH by (intros x ?; apply HPQ; by right). done.
Qed.

Lemma filter_none {A} (P : A → Prop) `{!∀ x, Decision (P x)} (l : list A) :
  (∀ x, x ∈ l → ¬ P x) → filter P l = [].
Proof.
  intros Hn. destruct (filter P l) as [|x k] eqn:Hf; [done|]. exfalso.
  assert (Hx : x ∈ filter P l) by (rewrite Hf; by left).
  apply list_elem_of_filter in Hx as [??]. by eapply Hn.
Qed.

(** The elements with one property, then those with another one that is never
    before it. *)
Lemma filter_app_sorted {A} (R : relation A) `{!Reflexive R} (P Q : A → Prop)
    `{!∀ x, Decision (P x), !∀ x, Decision (Q x)} (l : list A) :
  StronglySorted R l → (∀ x y, x ∈ l → y ∈ l → P x → Q y → ¬ R y x) →
  filter P l ++ filter Q l = filter (λ x, P x ∨ Q x) l.
Proof.
  intros Hs HPQ. induction Hs as [|a l Hs IH Ha]; [done|].
  specialize (IH ltac:(intros; apply HPQ; auto using list_elem_of_further)).
  pose proof (list_elem_of_here a l). rewrite !filter_cons. destruct (decide (Q a)) as [HQ|HQ].
  - rewrite Forall_forall in Ha.
    rewrite (decide_False (P:=P a)) by (intros HP; by eapply HPQ).
    rewrite (decide_True (P:=P a ∨ Q a)) by auto. rewrite <-IH, (filter_none P l); [done|].
    intros x Hx HP. by eapply (HPQ x a); [right|..|apply Ha].
  - destruct (decide (P a)) as [HP|HP].
    + rewrite (decide_True (P:=P a ∨ Q a)) by auto. simpl. by rewrite IH.
    + rewrite (decide_False (P:=P a ∨ Q a)) by tauto. done.
Qed.

(** [Vec::truncate] and [Iterator::take]. *)
Definition truncate {A} (n : N) (l : list A) : list A := take (N.to_nat n) l.

(** Instants and durations, in nanoseconds since an arbitrary origin. *)
Abbreviation Instant := Z (only parsing).
Abbreviation Duration := Z (only parsing).

(** [Result<A, E>]; the [?] operator is the bind of the monad. *)
Inductive result (E A : Type) : Type :=
| Ok (a : A)
| Err (e : E).
Arguments Ok {E A} _.
Arguments Err {E A} _.

#[global] Instance result_ret {E} : MRet (result E) := λ A a, Ok a.
#[global] Instance result_bind {E} : MBind (result E) := λ A B f r,
  match r with Ok a => f a | Err e => Err e end.
#[global] Instance result_fmap {E} : FMap (result E) := λ A B f r,
  match r with Ok a => Ok (f a) | Err e => Err e end.

(** [iter.collect::<Result<Vec<_>, _>>()]: the values, or the first error. *)
Fixpoint collect {E A} (rs : list (result E A)) : result E (list A) :=
  match rs with
  | [] => Ok []
  | Ok a :: rs => cons a <$> collect rs
  | Err e :: _ => Err e
  end.

Lemma collect_Ok {E A} (l : list A) : collect (E:=E) (Ok <$> l) = Ok l.
Proof.
  induction l as [|a l IH]; [done|].
  change (cons a <$> collect (E:=E) (Ok <$> l) = Ok (a :: l)). by rewrite IH.
Qed.

Lemma collect_fmap_Ok {E A B} (f : A → result E B) l bs :
  collect (f <$> l) = Ok bs ↔ Forall2 (λ a b, f a = Ok b) l bs.
Proof.
  revert bs. induction l as [|a l IH]; intros bs; cbn.
  - split; [by intros [= <-]|]. by inversion 1.
  - destruct (f a) as [b|e] eqn:Hf.
    + change (cons b <$> collect (f <$> l) = Ok bs ↔ Forall2 (λ a b, f a = Ok b) (a :: l) bs).
      destruct (collect (f <$> l)) as [bs'|e] eqn:Hc; cbn.
      * split; [intros [= <-]; constructor; [done|by apply IH]|].
        inversion 1 as [|? b2 ? bs2 Hb Hbs]; subst. apply IH in Hbs. congruence.
      * split; [done|]. inversion 1 as [|? b' ? bs' Hb Hbs]; subst. apply IH in Hbs. done.
    + split; [done|]. inversion 1; congruence.
Qed.

(** What it takes for a sequence of checks to succeed. *)

Lemma bind_Ok {E A B} (m : result E A) (f : A → result E B) b :
  (m ≫= f) = Ok b ↔ ∃ a, m = Ok a ∧ f a = Ok b.
Proof.
  destruct m as [a|e]; cbn; split; [by exists a| |done|by intros (? & ? & _)].
  by intros (a' & [= <-] & H).
Qed.

Lemma unit_bind_Ok {E B} (m : result E ()) (r : result E B) b :
  (m ≫= λ _, r) = Ok b ↔ m = Ok () ∧ r = Ok b.
Proof. rewrite bind_Ok. split; [by intros ([] & ? & ?)|intros [??]; by exists ()]. Qed.

Lemma guard_Ok {E A} (c : bool) (e : E) (r : result E A) a :
  (if c then Err e else r) = Ok a ↔ c = false ∧ r = Ok a.
Proof. destruct c; naive_solver. Qed.

Lemma Ok_inj_iff {E A} (a b : A) : (Ok a : result E A) = Ok b ↔ a = b.
Proof. split; [by intros [= ->]|by intros ->]. Qed.

(** ** Computations

    A handler of the source takes [&mut self] and an event sink, may panic, and
    returns a value. It becomes a function from the state to an outcome: the
    value, the state after the call and the events it pushed, or a panic. *)

Inductive outcome (S E A : Type) : Type :=
| Done (a : A) (s : S) (es : list E)
| Panicked.
Arguments Done {S E A} _ _ _.
Arguments Panicked {S E A}.

Definition M (S E A : Type) : Type := S → outcome S E A.

Section Monad.
  Context {S E : Type}.

#[global] Instance M_ret : MRet (M S E) := λ A a s, Done a s [].

#[global] Instance M_bind : MBind (M S E) := λ A B f m s,
  match m s with
  | Done a s1 es1 =>
      match f a s1 with
      | Done b s2 es2 => Done b s2 (es1 ++ es2)
      | Panicked => Panicked
      end
  | Panicked => Panicked
  end.

(** Reading a component of the state. *)
Definition gets {A} (f : S → A) : M S E A := λ s, Done (f s) s [].

(** Assigning to a component of the state. *)
Definition modify (f : S → S) : M S E () := λ s, Done () (f s) [].

(** [io.push(event)]. *)
Definition emit (e : E) : M S E () := λ s, Done () s [e].

(** [panic!], [unreachable!], [unwrap] of a [None]. *)
Definition panic {A} : M S E A := λ _, Panicked.

(** [if b { m }]. *)
Definition when (b : bool) (m : M S E ()) : M S E () :=
  if b then m else mret ().

(** [for x in xs { f(x) }]. *)
Fixpoint for_each {A} (xs : list A) (f : A → M S E ()) : M S E () :=
  match xs with
  | [] => mret ()
  | x :: xs => f x ;; for_each xs f
  end.

(** A call that returns a [Result], followed by [?]: the continuation runs on the
    value, an error is returned to the caller. *)
Definition try_bind {Er A B} (m : M S E (result Er A)) (f : A → M S E (result Er B))
    : M S E (result Er B) :=
  r ← m; match r with Ok a => f a | Err e => mret (Err e) end.

(** [for x in xs { out.extend(f(x)?) }], which ends at the first error. *)
Fixpoint try_for {Er A B} (xs : list A) (f : A → M S E (result Er (list B)))
    : M S E (result Er (list B)) :=
  match xs with
  | [] => mret (Ok [])
  | x :: xs => try_bind (f x) (λ out, try_bind (try_for xs f) (λ outs, mret (Ok (out ++ outs))))
  end.

(** [for x in xs { f(x)? }]. *)
Fixpoint try_each {Er A} (xs : list A) (f : A → M S E (result Er ())) : M S E (result Er ()) :=
  match xs with
  | [] => mret (Ok ())
  | x :: xs => try_bind (f x) (λ _, try_each xs f)
  end.

(** An operation of the standard library or of another component that updates
    one field of the state and returns a value. *)
Definition zoom {A F} (get : S → F) (set : F → S → S) (op : F → A * F)
    : M S E A :=
  λ s, let '(a, x) := op (get s) in Done a (set x s) [].

Lemma gets_bind {A B} (f : S → A) (k : A → M S E B) s : (x ← gets f; k x) s = k (f s) s.
Proof. unfold gets, mbind, M_bind. by destruct (k (f s) s). Qed.

(** ** Weakest preconditions

    [wp pn m Q s] says that [m], started in [s], ends with a value, a state and
    events that satisfy [Q], where [pn] is what is required when it panics:
    [wp False] is total correctness (there is no panic), [wp True] is partial
    correctness. *)
Definition wp {A} (pn : Prop) (m : M S E A) (Q : A → S → list E → Prop) (s : S) : Prop :=
  match m s with Done a s' es => Q a s' es | Panicked => pn end.

Section Wp.
  Context (pn : Prop).

Lemma wp_mono {A} (m : M S E A) (Q Q' : A → S → list E → Prop) s :
  wp pn m Q s → (∀ a s' es, Q a s' es → Q' a s' es) → wp pn m Q' s.
Proof. unfold wp. destruct (m s); naive_solver. Qed.

Lemma wp_ret {A} (a : A) (Q : A → S → list E → Prop) s :
  Q a s [] → wp pn (mret a) Q s.
Proof. done. Qed.

Lemma wp_bind {A B} (m : M S E A) (f : A → M S E B) Q s :
  wp pn m (λ a s1 es1, wp pn (f a) (λ b s2 es2, Q b s2 (es1 ++ es2)) s1) s →
  wp pn (m ≫= f) Q s.
Proof.
  unfold wp, mbind, M_bind. destruct (m s) as [a s1 es1|]; [|done].
  by destruct (f a s1).
Qed.

Lemma wp_gets {A} (f : S → A) (Q : A → S → list E → Prop) s :
  Q (f s) s [] → wp pn (gets f) Q s.
Proof. done. Qed.

Lemma wp_modify (f : S → S) (Q : () → S → list E → Prop) s :
  Q () (f s) [] → wp pn (modify f) Q s.
Proof. done. Qed.

Lemma wp_emit (e : E) (Q : () → S → list E → Prop) s :
  Q () s [e] → wp pn (emit e) Q s.
Proof. done. Qed.

Lemma wp_when (b : bool) (m : M S E ()) (Q : () → S → list E → Prop) s :
  (b = true → wp pn m Q s) → (b = false → Q () s []) → wp pn (when b m) Q s.
Proof. destruct b; intros H1 H2; [by apply H1|by apply wp_ret, H2]. Qed.

Lemma wp_zoom {A F} (get : S → F) (set : F → S → S) (op : F → A * F)
    (Q : A → S → list E → Prop) s :
  (∀ a x, op (get s) = (a, x) → Q a (set x s) []) → wp pn (zoom get set op) Q s.
Proof. unfold wp, zoom. destruct (op (get s)). auto. Qed.

Lemma wp_Done {A} (m : M S E A) Q s a s' es :
  wp pn m Q s → m s = Done a s' es → Q a s' es.
Proof. unfold wp. intros H Hm. by rewrite Hm in H. Qed.

End Wp.

Lemma wp_total {A} (m : M S E A) Q s :
  wp False m Q s → ∃ a s' es, m s = Done a s' es ∧ Q a s' es.
Proof. unfold wp. destruct (m s); naive_solver. Qed.

Lemma wp_and_partial {A} pn (m : M S E A) (Q Q' : A → S → list E → Prop) s :
  wp pn m Q s → wp True m Q' s → wp pn m (λ a s' es, Q a s' es ∧ Q' a s' es) s.
Proof. unfold wp. destruct (m s); naive_solver. Qed.

(** Running a fallible call that succeeds, fails, or panics. *)
Lemma try_bind_Ok {Er A B} (m : M S E (result Er A)) (f : A → M S E (result Er B)) s a s1 :
  m s = Done (Ok a) s1 [] → try_bind m f s = f a s1.
Proof. intros Hm. unfold try_bind, mbind, M_bind. rewrite Hm. by destruct (f a s1). Qed.

Lemma try_bind_Done {Er A B} (m : M S E (result Er A)) (f : A → M S E (result Er B))
    s a s1 es1 b s2 es2 :
  m s = Done (Ok a) s1 es1 → f a s1 = Done b s2 es2 →
  try_bind m f s = Done b s2 (es1 ++ es2).
Proof. intros Hm Hf. unfold try_bind, mbind, M_bind. by rewrite Hm, Hf. Qed.

Lemma try_bind_Err {Er A B} (m : M S E (result Er A)) (f : A → M S E (result Er B)) s e s1 es :
  m s = Done (Err e) s1 es → try_bind m f s = Done (Err e) s1 es.
Proof. intros Hm. unfold try_bind, mbind, M_bind. rewrite Hm. simpl. by rewrite app_nil_r. Qed.

Lemma try_bind_Panicked {Er A B} (m : M S E (result Er A)) (f : A → M S E (result Er B)) s :
  m s = Panicked → try_bind m f s = Panicked.
Proof. intros Hm. unfold try_bind, mbind, M_bind. by rewrite Hm. Qed.

Lemma try_bind_ret {Er A B} (r : result Er A) (f : A → M S E (result Er B)) a s :
  r = Ok a → try_bind (mret r) f s = f a s.
Proof. intros ->. by apply try_bind_Ok. Qed.

Lemma try_for_cons {Er A B} (f : A → M S E (result Er (list B))) x xs s o s1 es1 os s2 es2 :
  f x s = Done (Ok o) s1 es1 → try_for xs f s1 = Done (Ok os) s2 es2 →
  try_for (x :: xs) f s = Done (Ok (o ++ os)) s2 (es1 ++ es2).
Proof.
  intros Hx Hxs. simpl. eapply try_bind_Done; [done|]. rewrite <-(app_nil_r es2).
  by eapply try_bind_Done.
Qed.

(** Loops that only emit, or only assign. *)
Lemma for_each_emit {A} (f : A → E) (xs : list A) s :
  for_each xs (λ x, emit (f x)) s = Done () s (f <$> xs).
Proof.
  induction xs as [|x xs IH]; simpl; [done|]. unfold mbind, M_bind. simpl. by rewrite IH.
Qed.

Lemma for_each_modify {A} (f : A → S → S) (xs : list A) s :
  for_each xs (λ x, modify (f x)) s = Done () (foldl (flip f) s xs) [].
Proof.
  revert s. induction xs as [|x xs IH]; intros s; simpl; [done|].
  unfold mbind, M_bind. simpl. by rewrite IH.
Qed.

(** ** Transition predicates

    A transition predicate relates the state before a computation to the state
    after it and to the events in between. When it is closed under
    composition it lifts from the primitive steps to whole handlers. *)
Class Composable (T : S → S → list E → Prop) : Prop := {
  comp_refl s : T s s [];
  comp_trans s1 s2 s3 es1 es2 :
    T s1 s2 es1 → T s2 s3 es2 → T s1 s3 (es1 ++ es2);
}.

(** From a state that satisfies the invariant [I], [m] makes a [T] transition to
    a state that satisfies [I]; with [pn] false it does not panic. *)
Definition respects {A} (pn : Prop) (I : S → Prop) (T : S → S → list E → Prop)
    (m : M S E A) : Prop :=
  ∀ s, I s → wp pn m (λ _ s' es, T s s' es ∧ I s') s.

Lemma respects_weaken {A} pn I (T T' : S → S → list E → Prop) (m : M S E A) :
  (∀ s s' es, T s s' es → T' s s' es) → respects pn I T m → respects pn I T' m.
Proof. intros HT Hm s Hs. eapply wp_mono; [by apply Hm|]. naive_solver. Qed.

Section Respects.
  Context (pn : Prop) (I : S → Prop) (T : S → S → list E → Prop) `{!Composable T}.

Lemma respects_ret {A} (a : A) : respects pn I T (mret a).
Proof. intros s Hs. apply wp_ret. split; [apply comp_refl|done]. Qed.

Lemma respects_gets {A} (f : S → A) : respects pn I T (gets f).
Proof. intros s Hs. apply wp_gets. split; [apply comp_refl|done]. Qed.

Lemma respects_emit (e : E) : (∀ s, I s → T s s [e]) → respects pn I T (emit e).
Proof. intros H s Hs. apply wp_emit. auto. Qed.

Lemma respects_modify f :
  (∀ s, I s → T s (f s) [] ∧ I (f s)) → respects pn I T (modify f).
Proof. intros H s Hs. by apply wp_modify, H. Qed.

(** The continuation of a [respects] computation, inside a [wp] goal. *)
Lemma wp_bind_respects {A B} (m : M S E A) (f : A → M S E B) Q s :
  I s → respects pn I T m →
  (∀ a s1 es1, T s s1 es1 → I s1 → wp pn (f a) (λ b s2 es2, Q b s2 (es1 ++ es2)) s1) →
  wp pn (m ≫= f) Q s.
Proof.
  intros Hs Hm Hf. apply wp_bind. eapply wp_mono; [by apply Hm|].
  intros a s1 es1 []. by apply Hf.
Qed.

Lemma respects_then {A B} (m : M S E A) (f : A → M S E B) s :
  I s → respects pn I T m →
  (∀ a s1 es1, T s s1 es1 → I s1 → wp pn (f a) (λ _ s2 es2, T s1 s2 es2 ∧ I s2) s1) →
  wp pn (m ≫= f) (λ _ s' es, T s s' es ∧ I s') s.
Proof.
  intros Hs Hm Hf. apply wp_bind. eapply wp_mono; [by apply Hm|].
  intros a s1 es1 [H1 HI1]. eapply wp_mono; [exact (Hf a s1 es1 H1 HI1)|].
  intros b s2 es2 [H2 HI2]. split; [|done]. exact (comp_trans _ _ _ _ _ H1 H2).
Qed.

Lemma respects_bind {A B} (m : M S E A) (f : A → M S E B) :
  respects pn I T m → (∀ a, respects pn I T (f a)) → respects pn I T (m ≫= f).
Proof. intros Hm Hf s Hs. apply respects_then; [done..|]. intros. by apply Hf. Qed.

Lemma respects_when b m : respects pn I T m → respects pn I T (when b m).
Proof. destruct b; [done|]. intros _. apply respects_ret. Qed.

Lemma respects_for_each {A} (xs : list A) f :
  (∀ x, x ∈ xs → respects pn I T (f x)) → respects pn I T (for_each xs f).
Proof.
  induction xs as [|x xs IH]; intros H; simpl; [apply respects_ret|].
  apply respects_bind; [apply H; set_solver|].
  intros _. apply IH. set_solver.
Qed.

Lemma respects_zoom {A F} (get : S → F) (set : F → S → S) (op : F → A * F) :
  (∀ s, I s → T s (set (op (get s)).2 s) [] ∧ I (set (op (get s)).2 s)) →
  respects pn I T (zoom get set op).
Proof.
  intros H s Hs. apply wp_zoom. intros a x Hop. specialize (H s Hs).
  by rewrite Hop in H.
Qed.

End Respects.

(** Every event satisfies [P], a condition that may depend on a quantity no
    transition changes. *)
Definition emitting {F} (f : S → F) (P : F → E → Prop) : S → S → list E → Prop :=
  λ s s' es, f s' = f s ∧ Forall (P (f s)) es.

#[global] Instance emitting_Composable {F} (f : S → F) P : Composable (emitting f P).
Proof.
  split; [by split; [|constructor]|]. intros s1 s2 s3 es1 es2 [H1 He1] [H2 He2].
  split; [congruence|]. apply Forall_app. by rewrite <-H1 at 2.
Qed.

End Monad.

Notation "x ←? m ; k" := (try_bind m (λ x, k))
  (at level 20, m at level 100, k at level 200, only parsing) : stdpp_scope.
Notation "' x ←? m ; k" := (try_bind m (λ x, k))
  (at level 20, x pattern, m at level 100, k at level 200, only parsing) : stdpp_scope.

(** Running a component inside a larger state: the inner state is [get s], its
    events are injected with [inj]. *)
Definition lift_m {S S' E E' A} (get : S → S') (set : S' → S → S) (inj : E' → E)
    (m : M S' E' A) : M S E A :=
  λ s, match m (get s) with
       | Done a s' es => Done a (set s' s) (inj <$> es)
       | Panicked => Panicked
       end.

Lemma wp_lift_m {S S' E E' A} pn (get : S → S') (set : S' → S → S) (inj : E' → E)
    (m : M S' E' A) (Q : A → S → list E → Prop) s :
  wp pn m (λ a s' es, Q a (set s' s) (inj <$> es)) (get s) →
  wp pn (lift_m get set inj m) Q s.
Proof. unfold wp, lift_m. by destruct (m (get s)). Qed.

(** ** Tactics *)

(** One symbolic step of a [wp] goal. *)
Ltac wp_step :=
  lazymatch goal with
  | |- wp _ (_ ≫= _) _ _ => apply wp_bind
  | |- wp _ (mret _) _ _ => apply wp_ret
  | |- wp _ (gets _) _ _ => apply wp_gets
  | |- wp _ (modify _) _ _ => apply wp_modify
  | |- wp _ (emit _) _ _ => apply wp_emit
  | |- wp _ (when _ _) _ _ => apply wp_when; intros ?
  | |- wp _ (zoom _ _ _) _ _ => apply wp_zoom; intros ???
  | |- wp _ (match ?x with _ => _ end) _ _ => destruct x eqn:?
  end; cbn beta; cbn [app].

Ltac wp_steps := repeat wp_step.

(** Using a specification of a called operation. *)
Tactic Notation "wp_apply" uconstr(H) := eapply wp_mono; [eapply H|].

(** Boolean conditions of the source, as propositions. *)
Ltac bool_hyps :=
  repeat match goal with
  | H : _ || _ = false |- _ => apply orb_false_iff in H as [??]
  | H : _ && _ = true |- _ => apply andb_true_iff in H as [??]
  | H : negb _ = true |- _ => apply negb_true_iff in H
  | H : negb _ = false |- _ => apply negb_false_iff in H
  | H : bool_decide _ = true |- _ => apply bool_decide_eq_true_1 in H
  | H : bool_decide _ = false |- _ => apply bool_decide_eq_false_1 in H
  | H : (_ <=? _)%N = true |- _ => apply N.leb_le in H
  | H : (_ <=? _)%N = false |- _ => apply N.leb_gt in H
  | H : (_ <? _)%N = true |- _ => apply N.ltb_lt in H
  | H : (_ <? _)%N = false |- _ => apply N.ltb_ge in H
  | H : (_ =? _)%N = true |- _ => apply N.eqb_eq in H
  | H : (_ =? _)%N = false |- _ => apply N.eqb_neq in H
  end.

Create HintDb respects discriminated.

#[export] Hint Constants Opaque : respects.

(** Decompose a [respects] goal along the structure of the program. *)
Ltac respects_step :=
  lazymatch goal with
  | |- respects _ _ _ (_ ≫= _) => apply respects_bind; [apply _| |intros ?]
  | |- respects _ _ _ (mret _) => apply respects_ret; apply _
  | |- respects _ _ _ (gets _) => apply respects_gets; apply _
  | |- respects _ _ _ (when _ _) => apply respects_when; [apply _|]
  | |- respects _ _ _ (for_each _ _) => apply respects_for_each; [apply _|intros ? ?]
  | |- respects _ _ _ (if ?b then _ else _) => destruct b eqn:?
  | |- respects _ _ _ (match ?x with _ => _ end) => destruct x eqn:?
  | |- respects _ _ _ _ => solve [auto 2 with respects]
  end.
Ltac respects_solve := repeat respects_step.
