(* ===== verification/IndexSet.v ===== *)
(** * Randomised index sets (protocols/krikos-gossip/src/proto/util.rs)

    The views of the membership protocol are [IndexSet]s: a wrapper around the
    crate indexmap with operations that pick or remove random elements. The
    random number generator (crate rand) and the underlying ordered set (crate
    indexmap) are interfaces here: a class of operations and a class with the
    documented laws of these operations. The wrapper's operations are
    definitions over the two interfaces. *)
From stdpp Require Import base tactics list gmap sets sorting.
From Stdlib Require Import ZArith Lia.
From S2P Require Import Prelude.

(** ** The random number generator *)

(** The operations of [rand] the protocol uses, as functions of the state of
    the generator. *)
Class Rng (R : Type) : Type := {
  random_range : N → R → N * R;                      (* random_range(0..n) *)
  choose : ∀ {A : Type}, list A → R → option A * R;  (* IteratorRandom::choose *)
  shuffle : ∀ {A : Type}, list A → R → list A * R;   (* SliceRandom::shuffle *)
  from_rng : R → R * R;                              (* SeedableRng::from_rng *)
}.

(** What their documentation promises. *)
Class RngLaws (R : Type) `{Rng R} : Prop := {
  random_range_lt n r : (0 < n → (random_range n r).1 < n)%N;
  choose_Some {A} (l : list A) r x : (choose l r).1 = Some x → x ∈ l;
  choose_None {A} (l : list A) r : (choose l r).1 = None → l = [];
  shuffle_perm {A} (l : list A) r : (shuffle l r).1 ≡ₚ l;
}.

(** ** The ordered hash set *)

(** [Vec::swap_remove] on the contents: the last element takes the place of the
    removed one. *)
Definition swap_remove {A} (i : nat) (l : list A) : list A :=
  match l !! i, last l with
  | Some _, Some z => take (length l - 1) (<[i:=z]> l)
  | _, _ => l
  end.

(** The methods of [indexmap::IndexSet] the protocol uses. *)
Class IndexMapSet (T C : Type) : Type := {
  is_new : C;
  is_iter : C → list T;
  is_insert : T → C → bool * C;
  is_contains : T → C → bool;
  is_get_index : N → C → option T;
  is_get_index_of : T → C → option N;
  is_shift_remove_index : N → C → option T * C;
  is_swap_remove_full : T → C → option (N * T) * C;
  is_swap_remove_index : N → C → option T * C;
}.

(** What their documentation promises, in terms of the iteration order. *)
Class IndexMapSetLaws (T C : Type) `{EqDecision T, IndexMapSet T C} : Prop := {
  is_iter_new : is_iter (is_new : C) = [];
  is_iter_NoDup (c : C) : NoDup (is_iter c);
  is_insert_fst x (c : C) : (is_insert x c).1 = bool_decide (x ∉ is_iter c);
  is_insert_snd x (c : C) :
    is_iter (is_insert x c).2 =
      if bool_decide (x ∈ is_iter c) then is_iter c else is_iter c ++ [x];
  is_contains_iter x (c : C) : is_contains x c = bool_decide (x ∈ is_iter c);
  is_get_index_iter i (c : C) : is_get_index i c = is_iter c !! N.to_nat i;
  is_get_index_of_Some x (c : C) i :
    is_get_index_of x c = Some i → is_iter c !! N.to_nat i = Some x;
  is_get_index_of_None x (c : C) : is_get_index_of x c = None → x ∉ is_iter c;
  is_shift_remove_index_fst i (c : C) :
    (is_shift_remove_index i c).1 = is_iter c !! N.to_nat i;
  is_shift_remove_index_snd i (c : C) :
    is_iter (is_shift_remove_index i c).2 = delete (N.to_nat i) (is_iter c);
  is_swap_remove_index_fst i (c : C) :
    (is_swap_remove_index i c).1 = is_iter c !! N.to_nat i;
  is_swap_remove_index_snd i (c : C) :
    is_iter (is_swap_remove_index i c).2 = swap_remove (N.to_nat i) (is_iter c);
  is_swap_remove_full_fst x (c : C) :
    (is_swap_remove_full x c).1 = (λ i, (i, x)) <$> is_get_index_of x c;
  is_swap_remove_full_snd x (c : C) :
    is_iter (is_swap_remove_full x c).2 =
      match is_get_index_of x c with
      | Some i => swap_remove (N.to_nat i) (is_iter c)
      | None => is_iter c
      end;
}.

(** ** The wrapper [IndexSet] *)

Section IndexSet.
  Context {T C R : Type} `{EqDecision T, IndexMapSet T C, Rng R}.
  Implicit Types (c : C) (r : R).

(** The derived [Deref] gives [len], [is_empty], [contains] and [iter]. *)
Definition is_len (c : C) : N := len (is_iter c).
Definition is_empty (c : C) : bool := (is_len c =? 0)%N.

(** [!without.contains(x)]. *)
Definition not_in (without : list T) (x : T) : Prop := x ∉ without.

(** Pick a random index for an element in the set. *)
Definition pick_random_index (c : C) (r : R) : option N * R :=
  if is_empty c then (None, r)
  else let '(i, r) := random_range (is_len c) r in (Some i, r).

(** Remove a random element from the set. *)
Definition remove_random (c : C) (r : R) : option T * C * R :=
  match pick_random_index c r with
  | (Some idx, r) => let '(x, c) := is_shift_remove_index idx c in (x, c, r)
  | (None, r) => (None, c, r)
  end.

(** Pick a random element from the set. *)
Definition pick_random (c : C) (r : R) : option T * R :=
  let '(idx, r) := pick_random_index c r in
  (i ← idx; is_get_index i c, r).

(** Pick a random element from the set, but not any of those in [without]. *)
Definition pick_random_without (without : list T) (c : C) (r : R) : option T * R :=
  choose (filter (not_in without) (is_iter c)) r.

(** Remove an element from the set, by value and by index. *)
Definition remove (x : T) (c : C) : option T * C :=
  let '(o, c) := is_swap_remove_full x c in (snd <$> o, c).
Definition remove_index (i : N) (c : C) : option T * C := is_swap_remove_index i c.

(** Iterate over the set in its order, skipping one element. *)
Definition iter_without (x : T) (c : C) : list T := filter (.≠ x) (is_iter c).

(** All elements in random order, possibly without some, possibly capped. *)
Definition shuffled (c : C) (r : R) : list T * R := shuffle (is_iter c) r.

Definition shuffled_and_capped (n : N) (c : C) (r : R) : list T * R :=
  let '(items, r) := shuffled c r in (truncate n items, r).

Definition shuffled_without (without : list T) (c : C) (r : R) : list T * R :=
  shuffle (filter (not_in without) (is_iter c)) r.

Definition shuffled_without_and_capped (without : list T) (n : N) (c : C) (r : R)
    : list T * R :=
  let '(items, r) := shuffled_without without c r in (truncate n items, r).

End IndexSet.

(** ** Laws of the wrapper *)

Lemma swap_remove_Permutation {A} (l : list A) i x :
  l !! i = Some x → l ≡ₚ x :: swap_remove i l.
Proof.
  intros Hi. unfold swap_remove. rewrite Hi.
  destruct l as [|z l _] using rev_ind; [done|].
  rewrite last_snoc, length_app; simpl.
  replace (length l + 1 - 1) with (length l) by lia.
  apply lookup_snoc_Some in Hi as [[Hlt Hi]|[-> ->]].
  - rewrite insert_app_l by done.
    rewrite take_app_le by (rewrite length_insert; lia).
    rewrite take_ge by (rewrite length_insert; lia).
    rewrite <-(take_drop_middle l i x Hi) at 1.
    rewrite insert_take_drop by done. solve_Permutation.
  - rewrite insert_app_r_alt by lia. rewrite Nat.sub_diag; simpl.
    rewrite take_app_length. solve_Permutation.
Qed.

Section IndexSetLaws.
  Context {T C R : Type} `{!EqDecision T, !Countable T, !IndexMapSet T C,
    !IndexMapSetLaws T C, !Rng R, !RngLaws R}.
  Implicit Types (c : C) (r : R) (x y : T).

(** The contents of an index set, as a set. *)
Definition elems (c : C) : gset T := list_to_set (is_iter c).

Lemma elem_of_elems x c : x ∈ elems c ↔ x ∈ is_iter c.
Proof. apply elem_of_list_to_set. Qed.

Lemma is_contains_elems x c : is_contains x c = bool_decide (x ∈ elems c).
Proof. rewrite is_contains_iter. apply bool_decide_ext. by rewrite elem_of_elems. Qed.

Lemma ssize_elems c : ssize (elems c) = is_len c.
Proof.
  unfold ssize, is_len, len, elems. f_equal.
  rewrite size_list_to_set; [done|apply is_iter_NoDup].
Qed.

Lemma elems_new : elems is_new = ∅.
Proof. unfold elems. by rewrite is_iter_new. Qed.

Lemma elems_insert x c : elems (is_insert x c).2 = {[x]} ∪ elems c.
Proof.
  unfold elems. rewrite is_insert_snd. apply set_eq; intros y.
  case_bool_decide; rewrite ?list_to_set_app_L; set_solver.
Qed.

Lemma is_insert_new x c : (is_insert x c).1 = bool_decide (x ∉ elems c).
Proof. rewrite is_insert_fst. apply bool_decide_ext. by rewrite elem_of_elems. Qed.

(** Removing the element at an index, whatever the order that leaves. *)
Lemma elems_removed_at x c c' i :
  is_iter c !! i = Some x → is_iter c ≡ₚ x :: is_iter c' →
  elems c' = elems c ∖ {[x]} ∧ x ∈ elems c.
Proof.
  intros Hi Hp. pose proof (is_iter_NoDup c) as Hnd. rewrite Hp in Hnd.
  apply NoDup_cons in Hnd as [Hx _].
  split; [|apply elem_of_elems; rewrite Hp; set_solver].
  apply set_eq; intros y. rewrite elem_of_difference, !elem_of_elems, Hp. set_solver.
Qed.

Lemma remove_index_spec i c o c' :
  remove_index i c = (o, c') →
  match o with
  | Some x => elems c' = elems c ∖ {[x]} ∧ x ∈ elems c ∧ is_iter c !! N.to_nat i = Some x
  | None => is_len c <= i ∧ elems c' = elems c
  end%N.
Proof.
  unfold remove_index. intros Heq.
  pose proof (is_swap_remove_index_fst i c) as H1.
  pose proof (is_swap_remove_index_snd i c) as H2. rewrite Heq in H1, H2. simpl in *.
  destruct o as [x|].
  - destruct (elems_removed_at x c c' (N.to_nat i)) as [? ?]; [done| |done].
    rewrite H2. by apply swap_remove_Permutation.
  - symmetry in H1. split; [apply lookup_ge_None in H1; unfold is_len, len; lia|].
    unfold elems. rewrite H2. unfold swap_remove. by rewrite H1.
Qed.

Lemma elems_remove x c : elems (remove x c).2 = elems c ∖ {[x]}.
Proof.
  unfold remove. destruct (is_swap_remove_full x c) as [o c'] eqn:Heq. simpl.
  pose proof (is_swap_remove_full_snd x c) as H2. rewrite Heq in H2. simpl in H2.
  destruct (is_get_index_of x c) as [i|] eqn:Hi.
  - apply is_get_index_of_Some in Hi as Hx.
    apply (elems_removed_at x c c' (N.to_nat i)); [done|].
    rewrite H2. by apply swap_remove_Permutation.
  - apply is_get_index_of_None in Hi. rewrite <-elem_of_elems in Hi.
    unfold elems at 1. rewrite H2. fold (elems c). set_solver.
Qed.

Lemma is_empty_true c : is_empty c = true ↔ elems c = ∅.
Proof.
  unfold is_empty. rewrite N.eqb_eq, <-ssize_elems. unfold ssize.
  rewrite <-leibniz_equiv_iff, <-size_empty_iff. lia.
Qed.

Lemma pick_random_index_spec c r :
  match (pick_random_index c r).1 with
  | Some i => (i < is_len c)%N
  | None => elems c = ∅
  end.
Proof.
  unfold pick_random_index. destruct (is_empty c) eqn:He; simpl.
  - by apply is_empty_true.
  - unfold is_empty in He. apply N.eqb_neq in He.
    pose proof (random_range_lt (is_len c) r) as H.
    destruct (random_range _ r). simpl in *. lia.
Qed.

Lemma remove_random_spec c r o c' r' :
  remove_random c r = (o, c', r') →
  match o with
  | Some x => elems c' = elems c ∖ {[x]} ∧ x ∈ elems c
  | None => elems c = ∅ ∧ elems c' = ∅
  end.
Proof.
  unfold remove_random. pose proof (pick_random_index_spec c r) as Hp.
  destruct (pick_random_index c r) as [[i|] r1]; simpl in Hp; [|naive_solver].
  destruct (is_shift_remove_index i c) as [o1 c1] eqn:Hr. intros [= <- <- <-].
  pose proof (is_shift_remove_index_fst i c) as H1.
  pose proof (is_shift_remove_index_snd i c) as H2. rewrite Hr in H1, H2. simpl in *.
  destruct (lookup_lt_is_Some_2 (is_iter c) (N.to_nat i)) as [x Hx];
    [unfold is_len, len in Hp; lia|].
  rewrite Hx in H1. subst o1. apply (elems_removed_at x c c1 (N.to_nat i)); [done|].
  rewrite H2. by apply delete_Permutation.
Qed.

Lemma pick_random_spec c r :
  match (pick_random c r).1 with
  | Some x => x ∈ elems c
  | None => elems c = ∅
  end.
Proof.
  unfold pick_random. pose proof (pick_random_index_spec c r) as Hp.
  destruct (pick_random_index c r) as [[i|] r1]; simpl in *; [|done].
  rewrite is_get_index_iter.
  destruct (lookup_lt_is_Some_2 (is_iter c) (N.to_nat i)) as [x Hx];
    [unfold is_len, len in Hp; lia|].
  rewrite Hx. apply elem_of_elems. by eapply list_elem_of_lookup_2.
Qed.

Lemma pick_random_without_spec wo c r :
  match (pick_random_without wo c r).1 with
  | Some x => x ∈ elems c ∧ x ∉ wo
  | None => ∀ x, x ∈ elems c → x ∈ wo
  end.
Proof.
  unfold pick_random_without. destruct (choose _ r) as [[x|] r'] eqn:Hc; simpl.
  - assert (Hx : (choose (filter (not_in wo) (is_iter c)) r).1 = Some x) by by rewrite Hc.
    apply choose_Some, list_elem_of_filter in Hx as [? ?]. by rewrite elem_of_elems.
  - intros x. rewrite elem_of_elems. intros Hx. destruct (decide (x ∈ wo)); [done|].
    assert (Hn : (choose (filter (not_in wo) (is_iter c)) r).1 = None) by by rewrite Hc.
    apply choose_None in Hn. exfalso. eapply not_elem_of_nil. rewrite <-Hn.
    apply list_elem_of_filter. by split.
Qed.

Lemma shuffled_and_capped_spec n c r l r' :
  shuffled_and_capped n c r = (l, r') →
  (len l <= n)%N ∧ ∀ x, x ∈ l → x ∈ elems c.
Proof.
  unfold shuffled_and_capped, shuffled. pose proof (shuffle_perm (is_iter c) r) as Hp.
  destruct (shuffle _ r) as [l0 r0]; simpl in *. intros [= <- <-]. unfold truncate, len. split.
  - rewrite length_take. lia.
  - intros x Hx. apply elem_of_elems. rewrite <-Hp.
    eapply elem_of_take in Hx as (i & Hi & _). by eapply list_elem_of_lookup_2.
Qed.

Lemma shuffled_without_and_capped_spec wo n c r l r' :
  shuffled_without_and_capped wo n c r = (l, r') →
  (len l <= n)%N ∧ ∀ x, x ∈ l → x ∈ elems c ∧ x ∉ wo.
Proof.
  unfold shuffled_without_and_capped, shuffled_without.
  pose proof (shuffle_perm (filter (not_in wo) (is_iter c)) r) as Hp.
  destruct (shuffle _ r) as [l0 r0]; simpl in *. intros [= <- <-]. unfold truncate, len. split.
  - rewrite length_take. lia.
  - intros x Hx. eapply elem_of_take in Hx as (i & Hi & _).
    apply list_elem_of_lookup_2 in Hi. rewrite Hp in Hi.
    apply list_elem_of_filter in Hi as [? ?]. by rewrite elem_of_elems.
Qed.

End IndexSetLaws.

(** ** A model of each interface

    A duplicate-free list is an ordered set, and a counter is a (predictable)
    generator: the laws above can be met, and the operations of the wrapper can
    be run. *)

Lemma remove_dups_NoDup {A} `{!EqDecision A} (l : list A) :
  NoDup l → remove_dups l = l.
Proof.
  induction 1 as [|x l Hx Hl IH]; simpl; [done|].
  destruct (decide_rel elem_of x l); [done|by rewrite IH].
Qed.

Section ListSet.
  Context {T : Type} `{!EqDecision T}.

(** The index of the first occurrence of an element. *)
Definition index_of (x : T) (l : list T) : option N :=
  (λ p, N.of_nat p.1) <$> list_find (eq x) l.

#[global] Instance list_IndexMapSet : IndexMapSet T (list T) := {|
  is_new := [];
  is_iter c := remove_dups c;
  is_insert x c :=
    if bool_decide (x ∈ remove_dups c) then (false, c)
    else (true, remove_dups c ++ [x]);
  is_contains x c := bool_decide (x ∈ remove_dups c);
  is_get_index i c := remove_dups c !! N.to_nat i;
  is_get_index_of x c := index_of x (remove_dups c);
  is_shift_remove_index i c :=
    (remove_dups c !! N.to_nat i, delete (N.to_nat i) (remove_dups c));
  is_swap_remove_full x c :=
    ((λ i, (i, x)) <$> index_of x (remove_dups c),
     from_option (λ i, swap_remove (N.to_nat i) (remove_dups c)) c
       (index_of x (remove_dups c)));
  is_swap_remove_index i c :=
    (remove_dups c !! N.to_nat i, swap_remove (N.to_nat i) (remove_dups c));
|}.

Lemma index_of_Some x (l : list T) i :
  index_of x l = Some i → l !! N.to_nat i = Some x.
Proof.
  unfold index_of. intros ([j y] & Hp & ->)%fmap_Some_1.
  apply list_find_Some in Hp as (? & <- & _). simpl. by rewrite Nat2N.id.
Qed.

Lemma index_of_None x (l : list T) : index_of x l = None → x ∉ l.
Proof.
  unfold index_of. rewrite fmap_None, list_find_None, Forall_forall. intros H Hx.
  by eapply H.
Qed.

Lemma NoDup_swap_remove i (l : list T) : NoDup l → NoDup (swap_remove i l).
Proof.
  intros Hl. destruct (l !! i) as [x|] eqn:Hx.
  - rewrite (swap_remove_Permutation l i x Hx) in Hl. by apply NoDup_cons in Hl as [_ ?].
  - unfold swap_remove. by rewrite Hx.
Qed.

#[global] Instance list_IndexMapSetLaws : IndexMapSetLaws T (list T).
Proof.
  split; simpl; try done; intros.
  - apply NoDup_remove_dups.
  - repeat case_bool_decide; done.
  - case_bool_decide as Hx; simpl; [done|]. apply remove_dups_NoDup.
    apply NoDup_app. split; [apply NoDup_remove_dups|]. split; [|apply NoDup_singleton].
    set_solver.
  - by apply index_of_Some.
  - by apply index_of_None.
  - destruct (remove_dups c !! N.to_nat i) as [x|] eqn:Hx.
    + apply remove_dups_NoDup. pose proof (NoDup_remove_dups c) as Hn.
      rewrite (delete_Permutation _ _ _ Hx) in Hn. by apply NoDup_cons in Hn as [_ ?].
    + apply lookup_ge_None in Hx. rewrite delete_take_drop, take_ge, drop_ge, app_nil_r by lia.
      apply remove_dups_NoDup, NoDup_remove_dups.
  - apply remove_dups_NoDup, NoDup_swap_remove, NoDup_remove_dups.
  - destruct (index_of x (remove_dups c)); simpl; [|done].
    apply remove_dups_NoDup, NoDup_swap_remove, NoDup_remove_dups.
Qed.

End ListSet.

(** The generator that counts. *)
#[global] Instance counter_Rng : Rng N := {|
  random_range n r := (r mod n, r + 1);
  choose A l r := (l !! N.to_nat (r mod len l), r + 1);
  shuffle A l r := (drop (N.to_nat (r mod len l)) l ++ take (N.to_nat (r mod len l)) l, r + 1);
  from_rng r := (r + 1, r + 2);
|}%N.

#[global] Instance counter_RngLaws : RngLaws N.
Proof.
  split; simpl.
  - intros n r Hn. apply N.mod_lt. lia.
  - intros A l r x Hx. by eapply list_elem_of_lookup_2.
  - intros A l r Hn%lookup_ge_None. destruct l as [|y l]; [done|]. exfalso.
    unfold len in Hn. pose proof (N.mod_lt r (N.of_nat (length (y :: l)))).
    simpl length in *. lia.
  - intros A l r. rewrite Permutation_app_comm, take_drop. done.
Qed.
