(* ===== verification/Proto.v ===== *)
(** * Shared data of the gossip protocol
      (protocols/krikos-gossip/src/proto.rs and src/limits.rs)

    The identity of a peer, the opaque peer data, and the resource limits the
    protocol enforces. *)
From stdpp Require Import base tactics list gmap sets sorting orders.
From Stdlib Require Import ZArith Lia.
From S2P Require Import Prelude.

Local Open Scope N_scope.

(** ** Resource limits (limits.rs) *)

Definition MAX_MESSAGE_SIZE : N := 1024 * 1024.
Definition MAX_ACTIVE_VIEW_CAPACITY : N := 64.
Definition MAX_PASSIVE_VIEW_CAPACITY : N := 1024.
Definition MAX_SHUFFLE_PEERS : N := 128.
Definition MAX_TOPICS : N := 1024.
Definition MAX_PENDING_MESSAGES : N := 8192.
Definition MAX_GRAFT_RETRIES : N := 8.
Definition MAX_IHAVE_ENTRIES : N := 1024.
Definition MAX_DUPLICATE_CACHE_ENTRIES : N := 16384.
Definition MAX_CACHED_MESSAGES : N := 4096.
Definition MAX_LAZY_QUEUE_PER_PEER : N := 1024.

(** The sizes of the message envelope (proto.rs). *)
Definition DEFAULT_MAX_MESSAGE_SIZE : N := 4096.
Definition MIN_MAX_MESSAGE_SIZE : N := 512.

(** ** Peers (proto.rs) *)

(** The trait [PeerIdentity]: identifiers are compared, hashed and ordered. *)
Class PeerIdentity (PI : Type) : Type := {
  pi_eq_dec :: EqDecision PI;
  pi_countable :: Countable PI;
  pi_le : relation PI;
  pi_le_dec :: RelDecision pi_le;
  pi_le_total :: TotalOrder pi_le;
}.

(** Opaque binary data that introduces a peer; the payload is a byte string. *)
Definition PeerData : Type := list N.

(** [data.0.is_empty()]. *)
Definition peer_data_is_empty (d : PeerData) : bool := (len d =? 0).

Record PeerInfo (PI : Type) : Type := mkPeerInfo {
  pi_id : PI;
  pi_data : option PeerData;
}.
Arguments mkPeerInfo {PI} _ _.
Arguments pi_id {PI} _.
Arguments pi_data {PI} _.

(** ** Sets and maps of the standard library *)

Section HashSet.
  Context {K : Type} `{Countable K}.

(** [HashSet::insert], which says whether the element is new. *)
Definition hs_insert (x : K) (X : gset K) : bool * gset K :=
  (bool_decide (x ∉ X), {[x]} ∪ X).

(** [HashSet::remove], which says whether the element was there. *)
Definition hs_remove (x : K) (X : gset K) : bool * gset K :=
  (bool_decide (x ∈ X), X ∖ {[x]}).

End HashSet.

(** A [BTreeSet] is iterated in the order of its elements. *)
Definition btree_iter {PI} `{PeerIdentity PI} (X : gset PI) : list PI :=
  merge_sort pi_le (elements X).

Lemma elem_of_btree_iter {PI} `{PeerIdentity PI} (X : gset PI) x :
  x ∈ btree_iter X ↔ x ∈ X.
Proof. unfold btree_iter. by rewrite merge_sort_Permutation, elem_of_elements. Qed.

Lemma NoDup_btree_iter {PI} `{PeerIdentity PI} (X : gset PI) :
  NoDup (btree_iter X).
Proof. unfold btree_iter. rewrite merge_sort_Permutation. apply NoDup_elements. Qed.

Lemma btree_iter_sorted {PI} `{PeerIdentity PI} (X : gset PI) :
  StronglySorted pi_le (btree_iter X).
Proof. apply StronglySorted_merge_sort; apply _. Qed.

(** Removing the least element leaves the rest of the iteration. *)
Lemma btree_iter_tail {PI} `{PeerIdentity PI} (X : gset PI) k l :
  btree_iter X = k :: l → btree_iter (X ∖ {[k]}) = l.
Proof.
  intros Hk. apply (StronglySorted_unique pi_le).
  - apply btree_iter_sorted.
  - pose proof (btree_iter_sorted X) as Hs. rewrite Hk in Hs. by apply StronglySorted_inv in Hs as [? _].
  - pose proof (NoDup_btree_iter X) as Hnd. rewrite Hk in Hnd. inversion_clear Hnd as [|?? Hkl Hnd0].
    apply NoDup_Permutation; [apply NoDup_btree_iter|done|]. intros x.
    rewrite elem_of_btree_iter, elem_of_difference, <-elem_of_btree_iter, Hk. set_solver.
Qed.

(** Natural numbers as identities, as in the tests of the source. *)
#[global] Instance N_PeerIdentity : PeerIdentity N := {| pi_le := N.le |}.
