(* ===== verification/HyParView.v ===== *)
(** * The HyParView membership protocol
      (protocols/krikos-gossip/src/proto/hyparview.rs)

    The state machine that keeps the active and the passive view of one topic.
    One definition per method of [State]; [&mut self] and [io] are the state
    and the events of the computation type [M] of the prelude. *)
From stdpp Require Import base tactics list gmap sets sorting.
From Stdlib Require Import ZArith Lia.
From S2P Require Import Prelude IndexSet Proto.

Local Open Scope N_scope.

(** ** Messages, events and timers *)

(** [Ttl] is a [u16]. *)
Abbreviation Ttl := N (only parsing).
Definition ttl_expired (t : Ttl) : bool := t =? 0.
Definition ttl_next (t : Ttl) : Ttl := saturating_sub16 t 1.

Inductive Priority : Type := High | Low.

Section Data.
  Context {PI : Type}.

Inductive Timer : Type :=
| DoShuffle
| PendingNeighborRequest (peer : PI).

Inductive Message : Type :=
| Join (data : option PeerData)
| ForwardJoin (peer : PeerInfo PI) (ttl : Ttl)
| Shuffle (origin : PI) (nodes : list (PeerInfo PI)) (ttl : Ttl)
| ShuffleReply (nodes : list (PeerInfo PI))
| Neighbor (priority : Priority) (data : option PeerData)
| Disconnect (alive : bool) (respond : bool).

Inductive Event : Type :=
| NeighborUp (peer : PI)
| NeighborDown (peer : PI).

Inductive InEvent : Type :=
| RecvMessage (from : PI) (message : Message)
| TimerExpired (timer : Timer)
| PeerDisconnected (peer : PI)
| RequestJoin (peer : PI)
| UpdatePeerData (data : PeerData)
| Quit.

Inductive OutEvent : Type :=
| SendMessage (to : PI) (message : Message)
| ScheduleTimer (delay : Duration) (timer : Timer)
| DisconnectPeer (peer : PI)
| EmitEvent (event : Event)
| OutPeerData (peer : PI) (data : PeerData).

End Data.
Arguments Timer : clear implicits.
Arguments Message : clear implicits.
Arguments Event : clear implicits.
Arguments InEvent : clear implicits.
Arguments OutEvent : clear implicits.

(** [matches!(message, Message::Disconnect(_))]. *)
Definition is_disconnect {PI} (m : Message PI) : bool :=
  match m with Disconnect _ _ => true | _ => false end.

(** Why a peer leaves the active view. *)
Inductive RemovalReason : Type :=
| ConnectionClosed
| DisconnectReceived (is_alive : bool)
| Random.

(** ** Configuration and state *)

Record Config : Type := mkConfig {
  active_view_capacity : N;
  passive_view_capacity : N;
  active_random_walk_length : Ttl;
  passive_random_walk_length : Ttl;
  shuffle_random_walk_length : Ttl;
  shuffle_active_view_count : N;
  shuffle_passive_view_count : N;
  shuffle_interval : Duration;
  neighbor_request_timeout : Duration;
}.

Definition Config_default : Config := {|
  active_view_capacity := 5;
  passive_view_capacity := 30;
  active_random_walk_length := 6;
  passive_random_walk_length := 3;
  shuffle_random_walk_length := 6;
  shuffle_active_view_count := 3;
  shuffle_passive_view_count := 4;
  shuffle_interval := 60 * 1000000000;
  neighbor_request_timeout := 500 * 1000000;
|}.

(** [Stats::total_connections]. *)
Record Stats : Type := mkStats { total_connections : N }.
Definition Stats_default : Stats := mkStats 0.

Record State (PI C R : Type) `{PeerIdentity PI} : Type := mkState {
  me : PI;
  me_data : option PeerData;
  active_view : C;
  passive_view : C;
  config : Config;
  shuffle_scheduled : bool;
  rng : R;
  stats : Stats;
  pending_neighbor_requests : gset PI;
  peer_data : gmap PI PeerData;
  alive_disconnect_peers : gset PI;
}.
Arguments mkState {PI C R _} _ _ _ _ _ _ _ _ _ _ _.
Arguments me {PI C R _} _.
Arguments me_data {PI C R _} _.
Arguments active_view {PI C R _} _.
Arguments passive_view {PI C R _} _.
Arguments config {PI C R _} _.
Arguments shuffle_scheduled {PI C R _} _.
Arguments rng {PI C R _} _.
Arguments stats {PI C R _} _.
Arguments pending_neighbor_requests {PI C R _} _.
Arguments peer_data {PI C R _} _.
Arguments alive_disconnect_peers {PI C R _} _.

Section HyParView.
  Context {PI C R : Type} `{PeerIdentity PI, IndexMapSet PI C, Rng R}.

Abbreviation St := (State PI C R).
Abbreviation Ev := (OutEvent PI).
Abbreviation HM := (M St Ev).

(** Field assignments. *)
Definition set_me_data x (s : St) : St :=
  mkState (me s) x (active_view s) (passive_view s) (config s)
    (shuffle_scheduled s) (rng s) (stats s) (pending_neighbor_requests s)
    (peer_data s) (alive_disconnect_peers s).
Definition set_active_view x (s : St) : St :=
  mkState (me s) (me_data s) x (passive_view s) (config s)
    (shuffle_scheduled s) (rng s) (stats s) (pending_neighbor_requests s)
    (peer_data s) (alive_disconnect_peers s).
Definition set_passive_view x (s : St) : St :=
  mkState (me s) (me_data s) (active_view s) x (config s)
    (shuffle_scheduled s) (rng s) (stats s) (pending_neighbor_requests s)
    (peer_data s) (alive_disconnect_peers s).
Definition set_shuffle_scheduled x (s : St) : St :=
  mkState (me s) (me_data s) (active_view s) (passive_view s) (config s)
    x (rng s) (stats s) (pending_neighbor_requests s)
    (peer_data s) (alive_disconnect_peers s).
Definition set_rng x (s : St) : St :=
  mkState (me s) (me_data s) (active_view s) (passive_view s) (config s)
    (shuffle_scheduled s) x (stats s) (pending_neighbor_requests s)
    (peer_data s) (alive_disconnect_peers s).
Definition set_stats x (s : St) : St :=
  mkState (me s) (me_data s) (active_view s) (passive_view s) (config s)
    (shuffle_scheduled s) (rng s) x (pending_neighbor_requests s)
    (peer_data s) (alive_disconnect_peers s).
Definition set_pending x (s : St) : St :=
  mkState (me s) (me_data s) (active_view s) (passive_view s) (config s)
    (shuffle_scheduled s) (rng s) (stats s) x
    (peer_data s) (alive_disconnect_peers s).
Definition set_peer_data x (s : St) : St :=
  mkState (me s) (me_data s) (active_view s) (passive_view s) (config s)
    (shuffle_scheduled s) (rng s) (stats s) (pending_neighbor_requests s)
    x (alive_disconnect_peers s).
Definition set_alive_disconnect x (s : St) : St :=
  mkState (me s) (me_data s) (active_view s) (passive_view s) (config s)
    (shuffle_scheduled s) (rng s) (stats s) (pending_neighbor_requests s)
    (peer_data s) x.

(** [State::new]. *)
Definition new (me : PI) (me_data : option PeerData) (config : Config) (rng : R) : St :=
  mkState me me_data is_new is_new config false rng Stats_default ∅ ∅ ∅.

(** A call that uses the generator, and a call that updates one set. *)
Definition with_rng {A} (op : R → A * R) : HM A := zoom rng set_rng op.
Definition on_active {A} (op : C → A * C) : HM A := zoom active_view set_active_view op.
Definition on_passive {A} (op : C → A * C) : HM A := zoom passive_view set_passive_view op.
Definition on_pending {A} (op : gset PI → A * gset PI) : HM A :=
  zoom pending_neighbor_requests set_pending op.
Definition on_alive_disconnect {A} (op : gset PI → A * gset PI) : HM A :=
  zoom alive_disconnect_peers set_alive_disconnect op.

(** [self.peer_data.remove(&peer)]. *)
Definition remove_peer_data (peer : PI) : HM (option PeerData) :=
  zoom peer_data set_peer_data (λ m, (m !! peer, delete peer m)).

(** [self.passive_view.remove_random(&mut self.rng)]. *)
Definition passive_remove_random : HM () := λ s,
  let '(_, c, r) := remove_random (passive_view s) (rng s) in
  Done () (set_rng r (set_passive_view c s)) [].

(** ** Helpers of the handlers *)

Definition peer_info (s : St) (id : PI) : PeerInfo PI :=
  mkPeerInfo id (peer_data s !! id).

Definition insert_peer_info (info : PeerInfo PI) : HM () :=
  match pi_data info with
  | Some data =>
      old ← remove_peer_data (pi_id info);
      let same := bool_decide (old = Some data) in
      when (negb same && negb (peer_data_is_empty data))
        (emit (OutPeerData (pi_id info) data)) ;;
      modify (λ s, set_peer_data (<[pi_id info := data]> (peer_data s)) s)
  | None => mret ()
  end.

Definition passive_is_full (s : St) : bool :=
  passive_view_capacity (config s) <=? is_len (passive_view s).

Definition active_is_full (s : St) : bool :=
  active_view_capacity (config s) <=? is_len (active_view s).

Definition add_passive (peer : PI) (data : option PeerData) : HM () :=
  insert_peer_info (mkPeerInfo peer data) ;;
  skip ← gets (λ s, is_contains peer (active_view s)
                    || is_contains peer (passive_view s)
                    || bool_decide (peer = me s));
  if (skip : bool) then mret () else
  full ← gets passive_is_full;
  when full passive_remove_random ;;
  on_passive (is_insert peer) ;;
  mret ().

Definition send_neighbor (peer : PI) (priority : Priority) : HM () :=
  inserted ← on_pending (hs_insert peer);
  when inserted
    (data ← gets me_data;
     emit (SendMessage peer (Neighbor priority data))).

Definition send_shuffle_reply (to : PI) (n : N) : HM () :=
  passive ← gets passive_view;
  nodes ← with_rng (shuffled_and_capped n passive);
  active ← gets active_view;
  nodes ← (if len nodes <? n
           then more ← with_rng (shuffled_and_capped (n - len nodes) active);
                mret (nodes ++ more)
           else mret nodes);
  infos ← gets (λ s, peer_info s <$> nodes);
  emit (SendMessage to (ShuffleReply infos)).

Definition send_disconnect (peer : PI) (alive : bool) : HM () :=
  cfg ← gets config;
  send_shuffle_reply peer
    (wrapping_add64 (shuffle_active_view_count cfg) (shuffle_passive_view_count cfg)) ;;
  emit (SendMessage peer (Disconnect alive false)) ;;
  emit (DisconnectPeer peer).

Definition refill_active_from_passive (skip_peers : list PI) : HM () :=
  enough ← gets (λ s, active_view_capacity (config s) <=?
                      is_len (active_view s) + ssize (pending_neighbor_requests s));
  if (enough : bool) then mret () else
  skip_peers ← gets (λ s, skip_peers ++ elements (pending_neighbor_requests s));
  passive ← gets passive_view;
  node ← with_rng (pick_random_without skip_peers passive);
  match node with
  | Some node =>
      none ← gets (λ s, is_empty (active_view s));
      send_neighbor node (if (none : bool) then High else Low) ;;
      timeout ← gets (λ s, neighbor_request_timeout (config s));
      emit (ScheduleTimer timeout (PendingNeighborRequest node))
  | None => mret ()
  end.

(** [self.active_view.remove_index(peer_index)] and what follows it. *)
Definition remove_active_by_index (peer_index : N) (reason : RemovalReason)
    : HM (option PI) :=
  removed ← on_active (remove_index peer_index);
  match removed with
  | Some peer =>
      emit (EmitEvent (NeighborDown peer)) ;;
      match reason with
      | Random => send_disconnect peer true
      | DisconnectReceived _ => emit (DisconnectPeer peer)
      | ConnectionClosed => emit (DisconnectPeer peer)
      end ;;
      keep_as_passive ← match reason with
                        | ConnectionClosed => on_alive_disconnect (hs_remove peer)
                        | DisconnectReceived is_alive => mret is_alive
                        | Random => mret true
                        end;
      when keep_as_passive
        (data ← remove_peer_data peer;
         add_passive peer data ;;
         when (match reason with ConnectionClosed => false | _ => true end)
           (on_alive_disconnect (hs_insert peer) ;; mret ())) ;;
      mret (Some peer)
  | None => mret None
  end.

Definition remove_active (peer : PI) (reason : RemovalReason) : HM () :=
  idx ← gets (λ s, is_get_index_of peer (active_view s));
  match idx with
  | Some idx =>
      removed ← remove_active_by_index idx reason;
      match removed with
      | Some removed_peer => refill_active_from_passive [removed_peer]
      | None => panic
      end
  | None => mret ()
  end.

Definition free_random_slot_in_active_view : HM () :=
  active ← gets active_view;
  index ← with_rng (pick_random_index active);
  match index with
  | Some index => remove_active_by_index index Random ;; mret ()
  | None => mret ()
  end.

Definition add_active_unchecked (peer : PI) (priority : Priority) (reply : bool) : HM () :=
  on_passive (IndexSet.remove peer) ;;
  inserted ← on_active (is_insert peer);
  when inserted
    (emit (EmitEvent (NeighborUp peer)) ;;
     when reply (send_neighbor peer priority)).

Definition add_active (peer : PI) (data : option PeerData) (priority : Priority)
    (reply : bool) : HM bool :=
  self ← gets (λ s, bool_decide (peer = me s));
  if (self : bool) then mret false else
  insert_peer_info (mkPeerInfo peer data) ;;
  known ← gets (λ s, is_contains peer (active_view s));
  if (known : bool) then when reply (send_neighbor peer priority) ;; mret true else
  full ← gets active_is_full;
  match priority, full with
  | High, is_full =>
      when is_full free_random_slot_in_active_view ;;
      add_active_unchecked peer High reply ;;
      mret true
  | Low, false => add_active_unchecked peer Low reply ;; mret true
  | Low, true => mret false
  end.

(** ** Message handlers *)

Definition on_disconnect (peer : PI) (alive : bool) : HM () :=
  on_pending (hs_remove peer) ;;
  active ← gets (λ s, is_contains peer (active_view s));
  passive ← gets (λ s, is_contains peer (passive_view s));
  if (active : bool) then remove_active peer (DisconnectReceived alive)
  else when (alive && passive) (on_alive_disconnect (hs_insert peer) ;; mret ()).

Definition on_join (peer : PI) (data : option PeerData) : HM () :=
  add_active peer data High true ;;
  ttl ← gets (λ s, active_random_walk_length (config s));
  others ← gets (λ s, iter_without peer (active_view s));
  for_each others (λ node,
    emit (SendMessage node (ForwardJoin (mkPeerInfo peer data) ttl))).

Definition on_forward_join (sender : PI) (peer : PeerInfo PI) (ttl : Ttl) : HM () :=
  let peer_id := pi_id peer in
  known ← gets (λ s, is_contains peer_id (active_view s));
  few ← gets (λ s, is_len (active_view s) <=? 1);
  if (known : bool) then
    insert_peer_info peer ;; send_neighbor peer_id High
  else if ttl_expired ttl || few then
    insert_peer_info peer ;; send_neighbor peer_id High
  else
    prwl ← gets (λ s, passive_random_walk_length (config s));
    when (ttl =? prwl) (add_passive peer_id (pi_data peer)) ;;
    forward ← gets (λ s, negb (is_contains peer_id (active_view s)) &&
                         bool_decide (peer_id ∉ pending_neighbor_requests s));
    when forward
      (active ← gets active_view;
       next ← with_rng (pick_random_without [sender] active);
       match next with
       | None => panic
       | Some next => emit (SendMessage next (ForwardJoin peer (ttl_next ttl)))
       end).

Definition on_neighbor (from : PI) (priority : Priority) (data : option PeerData) : HM () :=
  is_reply ← on_pending (hs_remove from);
  let do_reply := negb is_reply in
  accepted ← add_active from data priority do_reply;
  when (negb accepted) (send_disconnect from true).

Definition on_shuffle (from origin : PI) (nodes : list (PeerInfo PI)) (ttl : Ttl) : HM () :=
  let nodes := truncate MAX_SHUFFLE_PEERS nodes in
  few ← gets (λ s, is_len (active_view s) <=? 1);
  if ttl_expired ttl || few then
    for_each nodes (λ node, add_passive (pi_id node) (pi_data node)) ;;
    send_shuffle_reply origin (len nodes)
  else
    active ← gets active_view;
    node ← with_rng (pick_random_without [origin; from] active);
    match node with
    | Some node => emit (SendMessage node (Shuffle origin nodes (ttl_next ttl)))
    | None => mret ()
    end.

Definition on_shuffle_reply (nodes : list (PeerInfo PI)) : HM () :=
  for_each (truncate MAX_SHUFFLE_PEERS nodes)
    (λ node, add_passive (pi_id node) (pi_data node)) ;;
  refill_active_from_passive [].

Definition handle_message (from : PI) (message : Message PI) : HM () :=
  let disconnect := is_disconnect message in
  active ← gets (λ s, is_contains from (active_view s));
  when (negb disconnect && negb active)
    (modify (λ s, set_stats
       (mkStats (wrapping_add64 (total_connections (stats s)) 1)) s)) ;;
  match message with
  | Join data => on_join from data
  | ForwardJoin peer ttl => on_forward_join from peer ttl
  | Shuffle origin nodes ttl => on_shuffle from origin nodes ttl
  | ShuffleReply nodes => on_shuffle_reply nodes
  | Neighbor priority data => on_neighbor from priority data
  | Disconnect alive _ => on_disconnect from alive
  end ;;
  active ← gets (λ s, is_contains from (active_view s));
  when (negb disconnect && negb active) (emit (DisconnectPeer from)).

(** ** Timers, commands and the entry point *)

Definition handle_join (peer : PI) : HM () :=
  data ← gets me_data;
  emit (SendMessage peer (Join data)).

Definition handle_connection_closed (peer : PI) : HM () :=
  on_pending (hs_remove peer) ;;
  active ← gets (λ s, is_contains peer (active_view s));
  if (active : bool) then remove_active peer ConnectionClosed
  else
    kept ← on_alive_disconnect (hs_remove peer);
    when (negb kept)
      (on_passive (IndexSet.remove peer) ;; remove_peer_data peer ;; mret ()).

Definition handle_quit : HM () :=
  peers ← gets (λ s, is_iter (active_view s));
  for_each peers (λ peer,
    on_active (IndexSet.remove peer) ;;
    send_disconnect peer false).

Definition handle_shuffle_timer : HM () :=
  active ← gets active_view;
  passive ← gets passive_view;
  cfg ← gets config;
  node ← with_rng (pick_random active);
  match node with
  | Some node =>
      active ← with_rng (shuffled_without_and_capped [node] (shuffle_active_view_count cfg) active);
      passive ← with_rng (shuffled_without_and_capped [node] (shuffle_passive_view_count cfg) passive);
      infos ← gets (λ s, peer_info s <$> (active ++ passive));
      self ← gets (λ s, mkPeerInfo (me s) (me_data s));
      emit (SendMessage node
        (Shuffle (pi_id self) (infos ++ [self]) (shuffle_random_walk_length cfg)))
  | None => mret ()
  end ;;
  emit (ScheduleTimer (shuffle_interval cfg) DoShuffle).

Definition handle_pending_neighbor_timer (peer : PI) : HM () :=
  removed ← on_pending (hs_remove peer);
  when removed
    (on_passive (IndexSet.remove peer) ;; refill_active_from_passive []).

(** The dispatch of an event, before the first-call epilogue. *)
Definition handle_event (event : InEvent PI) : HM () :=
  match event with
  | RecvMessage from message => handle_message from message
  | TimerExpired DoShuffle => handle_shuffle_timer
  | TimerExpired (PendingNeighborRequest peer) => handle_pending_neighbor_timer peer
  | PeerDisconnected peer => handle_connection_closed peer
  | RequestJoin peer => handle_join peer
  | UpdatePeerData data => modify (set_me_data (Some data))
  | Quit => handle_quit
  end.

Definition handle (event : InEvent PI) : HM () :=
  handle_event event ;;
  scheduled ← gets shuffle_scheduled;
  when (negb scheduled)
    (interval ← gets (λ s, shuffle_interval (config s));
     emit (ScheduleTimer interval DoShuffle) ;;
     modify (set_shuffle_scheduled true)).

End HyParView.
