(* ===== verification/HyParViewFacts.v ===== *)
(** * Properties of the HyParView membership protocol *)
From stdpp Require Import base tactics list gmap sets sorting.
From Stdlib Require Import ZArith Lia.
From S2P Require Import Prelude IndexSet Proto HyParView.

Local Open Scope N_scope.

(** ** Specifications *)

Section Spec.
  Context {PI C R : Type} `{PeerIdentity PI, IndexMapSet PI C, Rng R}.
  Implicit Types (s : State PI C R) (e : OutEvent PI) (es : list (OutEvent PI)).

(** The two views as sets. *)
Definition active s : gset PI := elems (active_view s).
Definition passive s : gset PI := elems (passive_view s).

(** The well-formedness of the views: we are in neither of them, they are
    disjoint, and each respects its configured capacity (a capacity of zero
    still admits one peer). *)
Record views_ok s : Prop := {
  vo_me_active : me s ∉ active s;
  vo_me_passive : me s ∉ passive s;
  vo_disjoint : active s ## passive s;
  vo_active_cap : ssize (active s) <= 1 `max` active_view_capacity (config s);
  vo_passive_cap : ssize (passive s) <= 1 `max` passive_view_capacity (config s);
}.

(** What an application that only sees the events knows of the neighbours: a
    peer comes up that was not up, and goes down only if it was up. *)
Definition track (v : gset PI) e : option (gset PI) :=
  match e with
  | EmitEvent (NeighborUp p) => if decide (p ∈ v) then None else Some ({[p]} ∪ v)
  | EmitEvent (NeighborDown p) => if decide (p ∈ v) then Some (v ∖ {[p]}) else None
  | _ => Some v
  end.

Fixpoint replay (v : gset PI) es : option (gset PI) :=
  match es with
  | [] => Some v
  | e :: es => track v e ≫= λ v, replay v es
  end.

(** Events that say nothing about neighbours. *)
Definition quiet e : Prop :=
  match e with EmitEvent _ => False | _ => True end.

(** A step that leaves the active view alone. *)
Record steady s s' es : Prop := {
  st_me : me s' = me s;
  st_config : config s' = config s;
  st_active : active_view s' = active_view s;
  st_quiet : Forall quiet es;
}.

(** A step whose neighbour events account for the change of the active view. *)
Record mirrored s s' es : Prop := {
  mi_me : me s' = me s;
  mi_config : config s' = config s;
  mi_replay : replay (active s) es = Some (active s');
}.

End Spec.

Section Facts.
  Context {PI C R : Type} `{HPI : PeerIdentity PI, HC : !IndexMapSet PI C,
    HCL : !IndexMapSetLaws PI C, HR : !Rng R, HRL : !RngLaws R}.
  Implicit Types (s : State PI C R) (e : OutEvent PI) (es : list (OutEvent PI)).

Abbreviation SteadyM := (respects (S:=State PI C R) False views_ok steady).
Abbreviation MirroredM := (respects (S:=State PI C R) False views_ok mirrored).

(** ** Composition *)

Lemma replay_app v es1 es2 :
  replay v (es1 ++ es2) = replay (PI:=PI) v es1 ≫= λ v, replay v es2.
Proof.
  revert v. induction es1 as [|e es IH]; intros v; simpl; [done|].
  destruct (track v e); simpl; [apply IH|done].
Qed.

Lemma replay_quiet v es : Forall quiet es → replay (PI:=PI) v es = Some v.
Proof. induction 1 as [|[| | |[]|] es He _ IH]; naive_solver. Qed.

#[global] Instance steady_Composable : Composable (steady (PI:=PI) (C:=C) (R:=R)).
Proof.
  split; [by split|]. intros s1 s2 s3 es1 es2 [] [].
  split; [congruence..|by apply Forall_app].
Qed.

#[global] Instance mirrored_Composable : Composable (mirrored (PI:=PI) (C:=C) (R:=R)).
Proof.
  split; [by split|]. intros s1 s2 s3 es1 es2 [?? H1] [?? H2].
  split; [congruence..|]. by rewrite replay_app, H1.
Qed.

Lemma steady_mirrored s s' es : steady s s' es → mirrored s s' es.
Proof.
  intros [?? Ha ?]. split; [done..|]. unfold active. rewrite Ha.
  by apply replay_quiet.
Qed.

(** ** Steps that leave the active view alone *)

(** A pure update that adds nothing to the passive view. *)
Lemma steady_pure s s' :
  views_ok s →
  me s' = me s → config s' = config s → active_view s' = active_view s →
  passive s' ⊆ passive s → steady s s' [] ∧ views_ok s'.
Proof.
  intros [] Hm Hc Ha Hp. split; [by split; [..|constructor]|].
  assert (ssize (passive s') <= ssize (passive s)).
  { unfold ssize. apply subseteq_size in Hp. lia. }
  split; unfold active in *; rewrite ?Hm, ?Hc, ?Ha; try done; [set_solver..|lia].
Qed.

Lemma steady_emit e : quiet e → SteadyM (emit e).
Proof. intros He. apply respects_emit. intros s. split; [done..|by constructor]. Qed.

Lemma steady_modify f :
  (∀ s, me (f s) = me s ∧ config (f s) = config s ∧ active_view (f s) = active_view s ∧
        passive_view (f s) = passive_view s) →
  SteadyM (modify f).
Proof.
  intros Hf. apply respects_modify. intros s Hs. destruct (Hf s) as (?&?&?&Hp).
  apply steady_pure; try done. unfold passive. by rewrite Hp.
Qed.

Lemma steady_zoom {A F} (get : State PI C R → F) set (op : F → A * F) :
  (∀ x s, me (set x s) = me s ∧ config (set x s) = config s ∧
          active_view (set x s) = active_view s ∧ passive_view (set x s) = passive_view s) →
  SteadyM (zoom get set op).
Proof.
  intros Hf. apply respects_zoom. intros s Hs.
  destruct (Hf (op (get s)).2 s) as (?&?&?&Hp).
  apply steady_pure; try done. unfold passive. by rewrite Hp.
Qed.

Lemma steady_with_rng {A} (op : R → A * R) : SteadyM (with_rng op).
Proof. by apply steady_zoom. Qed.

Lemma steady_on_pending {A} (op : gset PI → A * gset PI) : SteadyM (on_pending op).
Proof. by apply steady_zoom. Qed.

Lemma steady_on_alive_disconnect {A} (op : gset PI → A * gset PI) :
  SteadyM (on_alive_disconnect op).
Proof. by apply steady_zoom. Qed.

Lemma steady_remove_peer_data p : SteadyM (remove_peer_data p).
Proof. by apply steady_zoom. Qed.

Lemma steady_passive_remove p : SteadyM (on_passive (IndexSet.remove p)).
Proof.
  apply respects_zoom. intros s Hs. apply steady_pure; [done..|].
  unfold passive. simpl. rewrite elems_remove. set_solver.
Qed.

Hint Resolve steady_with_rng steady_on_pending
  steady_on_alive_disconnect steady_remove_peer_data steady_passive_remove : respects.
Hint Extern 1 (respects _ _ steady (emit _)) => apply steady_emit; exact I : respects.
Hint Extern 1 (respects _ _ steady (modify _)) => by apply steady_modify : respects.

Lemma steady_insert_peer_info i : SteadyM (insert_peer_info i).
Proof. unfold insert_peer_info. respects_solve. Qed.
Hint Resolve steady_insert_peer_info : respects.

(** Adding to a passive view with a free slot a peer that is in neither view. *)
Lemma steady_passive_insert s p :
  views_ok s → p ∉ active s → p ∉ passive s → p ≠ me s →
  ssize (passive s) < 1 `max` passive_view_capacity (config s) →
  wp False (on_passive (is_insert p)) (λ _ s' es, steady s s' es ∧ views_ok s') s.
Proof.
  intros [] Ha Hp Hme Hlt. apply wp_zoom. intros a x Hop.
  assert (Hx : elems x = {[p]} ∪ passive s).
  { unfold passive. by rewrite <-elems_insert, Hop. }
  split; [by split; [..|constructor]|].
  split; unfold passive; simpl; rewrite ?Hx; unfold active in *; simpl; try done.
  - set_solver.
  - set_solver.
  - unfold ssize in *. rewrite size_union by set_solver. rewrite size_singleton. lia.
Qed.

(** After the random eviction there is a free slot. *)
Lemma passive_evict_spec s :
  views_ok s →
  wp False (when (passive_is_full s) passive_remove_random)
    (λ _ s' es, steady s s' es ∧ views_ok s' ∧ passive s' ⊆ passive s ∧
                ssize (passive s') < 1 `max` passive_view_capacity (config s')) s.
Proof.
  intros Hok. unfold passive_is_full. apply wp_when.
  - intros Hfull%N.leb_le. rewrite <-ssize_elems in Hfull.
    unfold wp, passive_remove_random.
    destruct (remove_random _ _) as [[o c] r] eqn:Hr. apply remove_random_spec in Hr.
    assert (Hsub : elems c ⊆ passive s) by (unfold passive; destruct o; set_solver).
    destruct (steady_pure s (set_rng r (set_passive_view c s))) as [Hst Hok']; try done.
    split; [done|]. split; [done|]. split; [done|]. destruct Hok.
    unfold passive, ssize in *. simpl in *. destruct o as [x|].
    + destruct Hr as [-> Hx]. rewrite size_difference by set_solver.
      assert (size (elems (passive_view s)) ≠ 0%nat) by (apply size_non_empty_iff; set_solver).
      rewrite size_singleton. lia.
    + destruct Hr as [Hr ->]. rewrite size_empty. lia.
  - intros Hfull%N.leb_gt. rewrite <-ssize_elems in Hfull.
    split; [apply comp_refl|]. split; [done|]. split; [done|]. unfold passive. lia.
Qed.

Lemma steady_add_passive p d : SteadyM (add_passive p d).
Proof.
  intros s Hs. unfold add_passive.
  eapply respects_then; [apply _|done|apply steady_insert_peer_info|].
  intros _ s1 es1 _ Hs1. do 3 wp_step.
  { by apply respects_ret; [apply _|]. }
  rewrite !is_contains_elems in *. bool_hyps.
  do 3 wp_step. eapply wp_mono; [by apply passive_evict_spec|].
  intros _ s2 es2 ([] & Hs2 & Hsub & Hlt). wp_step.
  eapply wp_mono; [apply steady_passive_insert; try done|].
  - unfold active. by rewrite st_active0.
  - unfold passive in *. set_solver.
  - congruence.
  - intros _ s3 es3 [Hst3 Hs3]. wp_step. rewrite app_nil_r. split; [|done].
    eapply comp_trans; [|exact Hst3]. by split.
Qed.
Hint Resolve steady_add_passive : respects.

Lemma steady_send_neighbor p pr : SteadyM (send_neighbor p pr).
Proof. unfold send_neighbor. respects_solve. Qed.
Hint Resolve steady_send_neighbor : respects.

Lemma steady_send_shuffle_reply p n : SteadyM (send_shuffle_reply p n).
Proof. unfold send_shuffle_reply. respects_solve. Qed.
Hint Resolve steady_send_shuffle_reply : respects.

Lemma steady_send_disconnect p b : SteadyM (send_disconnect p b).
Proof. unfold send_disconnect. respects_solve. Qed.
Hint Resolve steady_send_disconnect : respects.

Lemma steady_refill_active_from_passive l : SteadyM (refill_active_from_passive l).
Proof. unfold refill_active_from_passive. respects_solve. Qed.
Hint Resolve steady_refill_active_from_passive : respects.

Lemma steady_handle_shuffle_timer : SteadyM handle_shuffle_timer.
Proof. unfold handle_shuffle_timer. respects_solve. Qed.

Lemma steady_handle_pending_neighbor_timer p : SteadyM (handle_pending_neighbor_timer p).
Proof. unfold handle_pending_neighbor_timer. respects_solve. Qed.

Lemma steady_handle_join p : SteadyM (handle_join p).
Proof. unfold handle_join. respects_solve. Qed.

Lemma steady_on_shuffle p o ns t : SteadyM (on_shuffle p o ns t).
Proof. unfold on_shuffle. respects_solve. Qed.

Lemma steady_on_shuffle_reply ns : SteadyM (on_shuffle_reply ns).
Proof. unfold on_shuffle_reply. respects_solve. Qed.
Hint Resolve steady_handle_shuffle_timer steady_handle_pending_neighbor_timer
  steady_handle_join steady_on_shuffle steady_on_shuffle_reply : respects.

(** ** Steps that change the active view *)

Lemma mirrored_steady {A} (m : M (State PI C R) (OutEvent PI) A) :
  SteadyM m → MirroredM m.
Proof. apply respects_weaken, steady_mirrored. Qed.
Hint Extern 5 (respects _ _ mirrored _) => apply mirrored_steady : respects.

Lemma views_ok_active_remove s c p :
  views_ok s → elems c = active s ∖ {[p]} → views_ok (set_active_view c s).
Proof.
  intros [] Hc. assert (ssize (elems c) <= ssize (active s)).
  { unfold ssize. rewrite Hc. assert (active s ∖ {[p]} ⊆ active s) as Hs by set_solver.
    apply subseteq_size in Hs. lia. }
  split; unfold active, passive in *; simpl; try done; try (rewrite Hc; set_solver). lia.
Qed.

Lemma remove_active_by_index_spec i r s :
  views_ok s →
  wp False (remove_active_by_index i r) (λ o s' es, mirrored s s' es ∧ views_ok s' ∧
    match o with
    | Some p => active s' = active s ∖ {[p]} ∧ is_iter (active_view s) !! N.to_nat i = Some p
    | None => active s' = active s ∧ is_len (active_view s) <= i
    end) s.
Proof.
  intros Hs. unfold remove_active_by_index, on_active. do 2 wp_step.
  apply remove_index_spec in H. destruct a as [p|].
  - destruct H as (Hc & Hp & Hi). do 2 wp_step.
    assert (Hs1 := views_ok_active_remove s x p Hs Hc).
    eapply (wp_bind_respects False views_ok steady); [done|respects_solve|].
    intros _ s2 es2 Hst2 Hs2.
    eapply (wp_bind_respects False views_ok steady); [done|respects_solve|].
    intros keep s3 es3 Hst3 Hs3.
    eapply (wp_bind_respects False views_ok steady); [done|respects_solve|].
    intros _ s4 es4 Hst4 Hs4. wp_step. rewrite app_nil_r.
    pose proof (comp_trans _ _ _ _ _ Hst2 (comp_trans _ _ _ _ _ Hst3 Hst4)) as [Hm Hcf Ha Hq].
    assert (Hact : active s4 = active s ∖ {[p]}) by (unfold active; by rewrite Ha).
    split; [|done]. split; [done..|]. simpl. rewrite decide_True by done. simpl.
    by rewrite replay_quiet, Hact.
  - destruct H as [Hlen Hc]. wp_step. assert (Hv : active (set_active_view x s) = active s) by done.
    split; [split; [done..|by rewrite Hv]|]. split; [|done]. destruct Hs.
    split; unfold passive in *; by rewrite ?Hv.
Qed.

Lemma remove_active_spec p r s :
  views_ok s →
  wp False (remove_active p r) (λ _ s' es, mirrored s s' es ∧ views_ok s' ∧
    active s' = active s ∖ {[p]}) s.
Proof.
  intros Hs. unfold remove_active. do 2 wp_step.
  destruct (is_get_index_of p (active_view s)) as [i|] eqn:Hi.
  - apply is_get_index_of_Some in Hi. wp_step.
    eapply wp_mono; [by apply remove_active_by_index_spec|].
    intros [q|] s1 es1 (Hm1 & Hs1 & Hq); cbn beta.
    + destruct Hq as [Hact Hq]. rewrite Hi in Hq. injection Hq as <-.
      eapply wp_mono; [by apply steady_refill_active_from_passive|].
      intros _ s2 es2 [Hst Hs2]. split; [|split; [done|]].
      * eapply comp_trans; [done|by apply steady_mirrored].
      * unfold active in *. by rewrite (st_active _ _ _ Hst).
    + destruct Hq as [_ Hle]. apply lookup_lt_Some in Hi. unfold is_len, len in Hle. lia.
  - apply is_get_index_of_None in Hi. wp_step. split; [apply comp_refl|]. split; [done|].
    rewrite <-elem_of_elems in Hi. unfold active. set_solver.
Qed.

Lemma mirrored_remove_active p r : MirroredM (remove_active p r).
Proof.
  intros s Hs. eapply wp_mono; [by apply remove_active_spec|]. naive_solver.
Qed.

Lemma free_random_slot_spec s :
  views_ok s →
  wp False free_random_slot_in_active_view (λ _ s' es, mirrored s s' es ∧ views_ok s' ∧
    (active s = ∅ ∧ active s' = ∅ ∨ ∃ q, q ∈ active s ∧ active s' = active s ∖ {[q]})) s.
Proof.
  intros Hs. unfold free_random_slot_in_active_view, with_rng. do 4 wp_step.
  pose proof (pick_random_index_spec (active_view s) (rng s)) as Hp. rewrite H in Hp.
  simpl in Hp. destruct (steady_pure s (set_rng x s)) as [Hst Hs1]; try done.
  destruct a as [i|].
  - wp_step. eapply wp_mono; [by apply remove_active_by_index_spec|].
    intros [q|] s1 es1 (Hm1 & Hok1 & Hq); wp_step; rewrite app_nil_r; simpl in Hq; [|lia].
    destruct Hq as [Hact Hq]. split; [|split; [done|]].
    { exact (comp_trans _ _ _ _ _ (steady_mirrored _ _ _ Hst) Hm1). }
    right. exists q. split; [|done].
    apply list_elem_of_lookup_2, elem_of_elems in Hq. exact Hq.
  - wp_step. split; [by apply steady_mirrored|]. split; [done|]. left. by split.
Qed.

Lemma add_active_unchecked_spec p pr b s :
  views_ok s → p ∉ active s → p ≠ me s →
  ssize (active s) < 1 `max` active_view_capacity (config s) →
  wp False (add_active_unchecked p pr b) (λ _ s' es, mirrored s s' es ∧ views_ok s' ∧
    active s' = {[p]} ∪ active s) s.
Proof.
  intros Hs Hp Hme Hlt. unfold add_active_unchecked, on_passive, on_active.
  do 4 wp_step.
  assert (Hx : elems x = passive s ∖ {[p]}).
  { unfold passive. by rewrite <-elems_remove, H. }
  assert (Hx0 : elems x0 = {[p]} ∪ active s).
  { unfold active. rewrite <-elems_insert. change (active_view s) with
      (active_view (set_passive_view x s)). by rewrite H0. }
  assert (Hs1 : views_ok (set_active_view x0 (set_passive_view x s))).
  { destruct Hs. split; unfold active, passive, ssize in *; simpl in *; rewrite ?Hx0, ?Hx.
    - set_solver.
    - set_solver.
    - set_solver.
    - rewrite size_union by set_solver. rewrite size_singleton. lia.
    - assert (elems (passive_view s) ∖ {[p]} ⊆ elems (passive_view s)) as Hsub by set_solver.
      apply subseteq_size in Hsub. lia. }
  wp_step.
  - do 2 wp_step. eapply wp_mono;
      [by apply (respects_when False views_ok steady b _ (steady_send_neighbor p pr))|].
    intros _ s2 es2 [[Hm Hcf Ha Hq] Hs2].
    assert (Hact : active s2 = {[p]} ∪ active s) by (unfold active; by rewrite Ha).
    split; [|done]. split; [done..|]. simpl. rewrite decide_False by done. simpl.
    by rewrite replay_quiet, Hact.
  - exfalso. pose proof (is_insert_new p (active_view s)) as Hn.
    change (active_view s) with (active_view (set_passive_view x s)) in Hn.
    rewrite H0, bool_decide_eq_true_2 in Hn by done. simpl in Hn. congruence.
Qed.

(** The effect of making room for a new peer: nothing when there is a free slot,
    otherwise one member leaves. *)
Definition made_room s s' : Prop :=
  active s' = active s ∨
  active_view_capacity (config s) <= ssize (active s) ∧
  ∃ q, q ∈ active s ∧ active s' = active s ∖ {[q]}.

Lemma make_room_spec s :
  views_ok s →
  wp False (when (active_is_full s) free_random_slot_in_active_view)
    (λ _ s' es, mirrored s s' es ∧ views_ok s' ∧ made_room s s' ∧
                ssize (active s') < 1 `max` active_view_capacity (config s')) s.
Proof.
  intros Hs. unfold active_is_full. apply wp_when; intros Hf; bool_hyps;
    rewrite <-ssize_elems in Hf.
  - eapply wp_mono; [by apply free_random_slot_spec|].
    intros _ s' es (Hm & Hs' & Hq). do 2 (split; [done|]). rewrite (mi_config _ _ _ Hm).
    destruct Hq as [[He Ha]|(q & Hq & Ha)].
    + split; [left; congruence|]. rewrite Ha. unfold ssize. rewrite size_empty. lia.
    + split; [right; eauto|]. rewrite Ha. destruct Hs. unfold ssize in *.
      rewrite size_difference by set_solver. rewrite size_singleton.
      assert (size (active s) ≠ 0%nat) by (apply size_non_empty_iff; set_solver). lia.
  - split; [apply comp_refl|]. split; [done|]. split; [by left|]. unfold active. lia.
Qed.

(** What [add_active] promises. It accepts every peer but ourselves, except for
    a low-priority request to a full view; when it accepts a new peer at high
    priority and the view is full, exactly one member makes room. *)
Definition add_active_post p pr s (b : bool) s' : Prop :=
  if b then
    p ≠ me s ∧ p ∈ active s' ∧
    (active s' = {[p]} ∪ active s ∨
     pr = High ∧ p ∉ active s ∧ active_view_capacity (config s) <= ssize (active s) ∧
     ∃ q, q ∈ active s ∧ active s' = {[p]} ∪ active s ∖ {[q]})
  else
    active s' = active s ∧
    (p = me s ∨ pr = Low ∧ p ∉ active s ∧
                active_view_capacity (config s) <= ssize (active s)).

(** The accepting tail of [add_active], from a state with a free slot. *)
Lemma add_active_accept p pr pr' r s0 s es :
  mirrored s0 s es → views_ok s → made_room s0 s → p ∉ active s0 → p ≠ me s →
  (pr' = High ∨ active s = active s0) →
  ssize (active s) < 1 `max` active_view_capacity (config s) →
  wp False (add_active_unchecked p pr r ≫= λ _, mret true)
    (λ b s' es', mirrored s0 s' (es ++ es') ∧ views_ok s' ∧
                 add_active_post p pr' s0 b s') s.
Proof.
  intros Hm Hs Hroom Hp Hme Hpr Hlt. wp_step.
  assert (p ∉ active s) by (destruct Hroom as [->|(_ & q & _ & ->)]; set_solver).
  eapply wp_mono; [by apply add_active_unchecked_spec|].
  intros _ s1 es1 (Hm1 & Hs1 & Ha1). wp_step. rewrite app_nil_r.
  split; [exact (comp_trans _ _ _ _ _ Hm Hm1)|]. split; [done|]. unfold add_active_post.
  rewrite Ha1, <-(mi_me _ _ _ Hm). split; [done|]. split; [set_solver|].
  destruct Hroom as [->|(? & q & ? & Hq)]; [by left|].
  destruct Hpr as [-> | ->]; [|by left]. right. rewrite Hq. eauto 10.
Qed.

Lemma add_active_spec p d pr r s :
  views_ok s →
  wp False (add_active p d pr r) (λ b s' es, mirrored s s' es ∧ views_ok s' ∧
    add_active_post p pr s b s') s.
Proof.
  intros Hs. unfold add_active. do 3 wp_step; bool_hyps.
  { subst. wp_step. split; [apply comp_refl|]. split; [done|]. unfold add_active_post. auto. }
  eapply (wp_bind_respects False views_ok steady); [done|respects_solve|].
  intros _ s1 es1 Hst1 Hs1. assert (Hact1 : active s1 = active s).
  { unfold active. by rewrite (st_active _ _ _ Hst1). }
  pose proof (st_me _ _ _ Hst1) as Hme1. pose proof (st_config _ _ _ Hst1) as Hcf1.
  do 3 wp_step; rewrite is_contains_elems in *; bool_hyps.
  - eapply (wp_bind_respects False views_ok steady); [done|respects_solve|].
    intros _ s2 es2 Hst2 Hs2. wp_step. rewrite app_nil_r.
    pose proof (comp_trans _ _ _ _ _ Hst1 Hst2) as Hst.
    assert (Hact : active s2 = active s) by (unfold active; by rewrite (st_active _ _ _ Hst)).
    change (p ∈ active s1) in Heqb0. rewrite Hact1 in Heqb0.
    split; [by apply steady_mirrored|]. split; [done|]. unfold add_active_post.
    rewrite Hact. split; [done|]. split; [done|]. left. set_solver.
  - apply steady_mirrored in Hst1. change (p ∉ active s1) in Heqb0. do 2 wp_step.
    destruct pr; [|destruct (active_is_full s1) eqn:Hf].
    + wp_step. eapply wp_mono; [by apply make_room_spec|].
      intros _ s2 es2 (Hm2 & Hs2 & Hroom & Hlt).
      eapply wp_mono; [eapply add_active_accept;
        [exact (comp_trans _ _ _ _ _ Hst1 Hm2)|done| | | |by left|done]|].
      * unfold made_room in *. by rewrite <-Hact1, <-Hcf1.
      * by rewrite <-Hact1.
      * by rewrite (mi_me _ _ _ Hm2), Hme1.
      * intros b s3 es3. cbn beta. by rewrite <-app_assoc.
    + unfold active_is_full in Hf. bool_hyps. wp_step. rewrite app_nil_r.
      split; [done|]. split; [done|]. split; [done|]. right. unfold active in *.
      by rewrite <-Hact1, ssize_elems, <-Hcf1.
    + unfold active_is_full in Hf. bool_hyps. rewrite <-ssize_elems in Hf.
      apply add_active_accept; try done; [by left|by rewrite <-Hact1|congruence|by right|].
      unfold active. lia.
Qed.

Lemma mirrored_add_active p d pr r : MirroredM (add_active p d pr r).
Proof. intros s Hs. eapply wp_mono; [by apply add_active_spec|]. naive_solver. Qed.
Hint Resolve mirrored_remove_active mirrored_add_active : respects.

(** ** The handlers *)

Lemma mirrored_on_disconnect p b : MirroredM (on_disconnect p b).
Proof. unfold on_disconnect. respects_solve. Qed.

Lemma mirrored_on_join p d : MirroredM (on_join p d).
Proof. unfold on_join. respects_solve. Qed.

Lemma mirrored_on_neighbor p pr d : MirroredM (on_neighbor p pr d).
Proof. unfold on_neighbor. respects_solve. Qed.

Lemma mirrored_handle_connection_closed p : MirroredM (handle_connection_closed p).
Proof. unfold handle_connection_closed. respects_solve. Qed.
Hint Resolve mirrored_on_disconnect mirrored_on_join mirrored_on_neighbor
  mirrored_handle_connection_closed : respects.

(** The branch of the source marked unreachable: with at least two active peers,
    one of them is not the sender. *)
Lemma forward_target_exists s sender r :
  1 < is_len (active_view s) →
  (pick_random_without [sender] (active_view s) r).1 ≠ None.
Proof.
  intros Hlen Hn. pose proof (pick_random_without_spec [sender] (active_view s) r) as Hp.
  rewrite Hn in Hp. rewrite <-ssize_elems in Hlen.
  assert (elems (active_view s) ⊆ {[sender]}) as Hsub by set_solver.
  apply subseteq_size in Hsub. rewrite size_singleton in Hsub. unfold ssize in Hlen. lia.
Qed.

(** Renewing or requesting a neighbour relationship. *)
Lemma steady_renew i p :
  SteadyM (insert_peer_info i ;; send_neighbor p High).
Proof. respects_solve. Qed.

Lemma steady_on_forward_join p i t : SteadyM (on_forward_join p i t).
Proof.
  intros s Hs. unfold on_forward_join. do 4 wp_step.
  destruct (is_contains _ _); [|destruct (ttl_expired t || _) eqn:Hfew].
  1,2: by apply steady_renew.
  apply orb_false_iff in Hfew as [_ Hfew]. bool_hyps. do 2 wp_step.
  eapply respects_then; [apply _|done|respects_solve|]. intros _ s1 es1 Hst Hs1.
  do 2 wp_step. apply wp_when; intros Hf; [|split; [apply comp_refl|done]].
  unfold with_rng. do 4 wp_step.
  destruct (steady_pure s1 (set_rng x s1)) as [Hst2 Hs2]; try done.
  destruct a as [q|].
  - wp_step. split; [|done]. eapply (comp_trans _ _ _ [] _ Hst2). by split; repeat constructor.
  - exfalso. eapply (forward_target_exists s1 p (rng s1)).
    + by rewrite (st_active _ _ _ Hst).
    + by rewrite H.
Qed.
Hint Resolve steady_on_forward_join : respects.

Lemma mirrored_handle_message p m : MirroredM (handle_message p m).
Proof. unfold handle_message. respects_solve. Qed.
Hint Resolve mirrored_handle_message : respects.

(** Quitting empties the active view without neighbour events. *)
Lemma quit_loop_spec l s :
  views_ok s →
  wp False (for_each l (λ peer, on_active (IndexSet.remove peer) ;; send_disconnect peer false))
    (λ _ s' es, me s' = me s ∧ config s' = config s ∧ views_ok s' ∧ Forall quiet es ∧
                active s' = active s ∖ list_to_set l) s.
Proof.
  revert s. induction l as [|p l IH]; intros s Hs; cbn [for_each].
  { wp_step. do 3 (split; [done|]). split; [constructor|]. set_solver. }
  do 2 wp_step. apply wp_zoom. intros a x H.
  assert (Hx : elems x = active s ∖ {[p]}) by (unfold active; by rewrite <-elems_remove, H).
  assert (Hs1 := views_ok_active_remove s x p Hs Hx).
  eapply wp_mono; [by apply steady_send_disconnect|]. intros _ s2 es2 [[Hm Hc Ha Hq] Hs2].
  eapply wp_mono; [by apply IH|]. intros _ s3 es3 (-> & -> & Hs3 & Hq3 & Ha3).
  split; [done|]. split; [done|]. split; [done|].
  split; [by apply Forall_app|]. rewrite Ha3. unfold active. rewrite Ha. simpl.
  rewrite Hx. unfold active. set_solver.
Qed.

Lemma handle_quit_spec s :
  views_ok s →
  wp False handle_quit (λ _ s' es, me s' = me s ∧ config s' = config s ∧ views_ok s' ∧
                             Forall quiet es ∧ active s' = ∅) s.
Proof.
  intros Hs. unfold handle_quit. do 2 wp_step.
  eapply wp_mono; [by apply quit_loop_spec|]. intros _ s' es (?&?&?&?&Ha).
  repeat (split; [done|]). rewrite Ha. unfold active, elems. set_solver.
Qed.

(** The epilogue of [handle]. *)
Lemma steady_epilogue :
  SteadyM (scheduled ← gets shuffle_scheduled;
    when (negb scheduled)
      (interval ← gets (λ s, shuffle_interval (config s));
       emit (ScheduleTimer interval DoShuffle) ;;
       modify (set_shuffle_scheduled true))).
Proof. respects_solve. Qed.

Lemma mirrored_handle ev : ev ≠ Quit → MirroredM (handle ev).
Proof.
  intros He. unfold handle. apply respects_bind; [apply _| |intros _; apply mirrored_steady, steady_epilogue].
  destruct ev as [| [] | | | |]; simpl; try done; respects_solve.
Qed.

Lemma handle_Quit_spec s :
  views_ok s →
  wp False (handle Quit) (λ _ s' es, me s' = me s ∧ config s' = config s ∧ views_ok s' ∧
                               Forall quiet es ∧ active s' = ∅) s.
Proof.
  intros Hs. unfold handle. wp_step. eapply wp_mono; [by apply handle_quit_spec|].
  intros _ s1 es1 (?&?&?&?&Ha). eapply wp_mono; [by apply steady_epilogue|].
  intros _ s2 es2 [[-> -> Ha2 Hq] Hs2]. repeat (split; [done|]).
  split; [by apply Forall_app|]. unfold active in *. by rewrite Ha2.
Qed.

(** A closed connection removes the peer from the active view. *)
Lemma connection_closed_spec p s :
  views_ok s →
  wp False (handle_connection_closed p) (λ _ s' es, mirrored s s' es ∧ views_ok s' ∧
    p ∉ active s') s.
Proof.
  intros Hs. unfold handle_connection_closed.
  eapply (wp_bind_respects False views_ok steady); [done|respects_solve|].
  intros _ s1 es1 Hst1 Hs1. pose proof (steady_mirrored _ _ _ Hst1) as Hm1. do 2 wp_step.
  destruct (is_contains p (active_view s1)) eqn:Hp.
  - eapply wp_mono; [by apply remove_active_spec|]. intros _ s2 es2 (Hm2 & Hs2 & Ha).
    split; [exact (comp_trans _ _ _ _ _ Hm1 Hm2)|]. split; [done|]. rewrite Ha. set_solver.
  - rewrite is_contains_elems in Hp. bool_hyps.
    match goal with |- wp _ ?m _ _ => assert (SteadyM m) as Hm by respects_solve end.
    eapply wp_mono; [by apply Hm|]. intros _ s2 es2 [Hst2 Hs2].
    pose proof (steady_mirrored _ _ _ Hst2) as Hm2.
    split; [exact (comp_trans _ _ _ _ _ Hm1 Hm2)|]. split; [done|].
    unfold active in *. by rewrite (st_active _ _ _ Hst2).
Qed.

Lemma handle_PeerDisconnected_spec p s :
  views_ok s →
  wp False (handle (PeerDisconnected p)) (λ _ s' es, mirrored s s' es ∧ views_ok s' ∧
    p ∉ active s') s.
Proof.
  intros Hs. unfold handle. wp_step. eapply wp_mono; [by apply connection_closed_spec|].
  intros _ s1 es1 (Hm1 & Hs1 & Hp). eapply wp_mono; [by apply steady_epilogue|].
  intros _ s2 es2 [Hst2 Hs2]. pose proof (steady_mirrored _ _ _ Hst2) as Hm2.
  split; [exact (comp_trans _ _ _ _ _ Hm1 Hm2)|]. split; [done|].
  unfold active in *. by rewrite (st_active _ _ _ Hst2).
Qed.

End Facts.

(** * The traffic of the HyParView protocol

    What the handlers may send, for any state: the time-to-live of forwarded
    random walks decreases, and the node lists of shuffle messages are
    bounded. *)

(** Events other than the messages that carry node lists or walk the overlay. *)
Definition plain {PI} (e : OutEvent PI) : Prop :=
  match e with
  | SendMessage _ (ForwardJoin _ _ | Shuffle _ _ _ | ShuffleReply _) => False
  | _ => True
  end.

(** ** Conditions on all emitted events *)

Section Emits.
  Context {PI C R : Type} `{HPI : PeerIdentity PI, HC : !IndexMapSet PI C,
    HCL : !IndexMapSetLaws PI C, HR : !Rng R, HRL : !RngLaws R}.
  Implicit Types (s : State PI C R).

(** A condition that holds of plain events and of replies with at most [bound]
    nodes, where [bound] admits the reply that goes with a disconnect. *)
  Context (P : Config → OutEvent PI → Prop) (bound : Config → N).
  Context (P_plain : ∀ cfg e, plain e → P cfg e).
  Context (P_reply : ∀ cfg to nodes, len nodes <= bound cfg →
                     P cfg (SendMessage to (ShuffleReply nodes))).
  Context (bound_ok : ∀ cfg, wrapping_add64 (shuffle_active_view_count cfg)
                                (shuffle_passive_view_count cfg) <= bound cfg).

Abbreviation Emits m :=
  (respects (S:=State PI C R) True (λ _, True) (emitting config P) m).

Lemma emits_emit e : (∀ cfg, P cfg e) → Emits (emit e).
Proof. intros He. apply respects_emit. intros s _. split; [done|]. by constructor. Qed.

Lemma emits_modify f : (∀ s, config (f s) = config s) → Emits (modify f).
Proof. intros Hf. apply respects_modify. intros s _. split; [|done]. split; [done|constructor]. Qed.

Lemma emits_zoom {A F} (get : State PI C R → F) set (op : F → A * F) :
  (∀ x s, config (set x s) = config s) → Emits (zoom get set op).
Proof. intros Hf. apply respects_zoom. intros s _. split; [|done]. split; [done|constructor]. Qed.

Lemma emits_passive_remove_random : Emits passive_remove_random.
Proof.
  intros s _. unfold wp, passive_remove_random.
  destruct (remove_random _ _) as [[o c] r]. split; [|done]. split; [done|constructor].
Qed.

Hint Extern 1 (respects _ _ (emitting _ _) (emit _)) =>
  apply emits_emit; intros ?; apply P_plain; exact Logic.I : respects.
Hint Extern 1 (respects _ _ (emitting _ _) (modify _)) => by apply emits_modify : respects.
Hint Extern 1 (respects _ _ (emitting _ _) (with_rng _)) => by apply emits_zoom : respects.
Hint Extern 1 (respects _ _ (emitting _ _) (on_active _)) => by apply emits_zoom : respects.
Hint Extern 1 (respects _ _ (emitting _ _) (on_passive _)) => by apply emits_zoom : respects.
Hint Extern 1 (respects _ _ (emitting _ _) (on_pending _)) => by apply emits_zoom : respects.
Hint Extern 1 (respects _ _ (emitting _ _) (on_alive_disconnect _)) => by apply emits_zoom : respects.
Hint Extern 1 (respects _ _ (emitting _ _) (remove_peer_data _)) => by apply emits_zoom : respects.
Hint Extern 1 (respects _ _ (emitting _ _) panic) => by intros ?? : respects.
Hint Resolve emits_passive_remove_random : respects.

Lemma emits_insert_peer_info i : Emits (insert_peer_info i).
Proof. unfold insert_peer_info. respects_solve. Qed.
Hint Resolve emits_insert_peer_info : respects.

Lemma emits_add_passive p d : Emits (add_passive p d).
Proof. unfold add_passive. respects_solve. Qed.

Lemma emits_send_neighbor p pr : Emits (send_neighbor p pr).
Proof. unfold send_neighbor. respects_solve. Qed.
Hint Resolve emits_add_passive emits_send_neighbor : respects.

Lemma emits_refill l : Emits (refill_active_from_passive l).
Proof. unfold refill_active_from_passive. respects_solve. Qed.
Hint Resolve emits_refill : respects.

(** A shuffle reply has at most the requested number of nodes, from both views. *)
Lemma send_shuffle_reply_spec to n s :
  wp True (send_shuffle_reply to n) (λ _ s' es, config s' = config s ∧
    ∃ nodes, es = [SendMessage to (ShuffleReply nodes)] ∧ len nodes <= n) s.
Proof.
  unfold send_shuffle_reply, with_rng. do 4 wp_step.
  apply shuffled_and_capped_spec in H as [Hl _].
  do 3 wp_step. destruct (len a <? n) eqn:Hlt; bool_hyps.
  - do 2 wp_step. apply shuffled_and_capped_spec in H as [Hl2 _].
    do 4 wp_step. split; [done|]. eexists; split; [done|].
    unfold len in *. rewrite length_fmap, length_app. lia.
  - do 4 wp_step. split; [done|]. eexists; split; [done|].
    unfold len in *. rewrite length_fmap. lia.
Qed.

Lemma emits_send_shuffle_reply_le to n s :
  n <= bound (config s) →
  wp True (send_shuffle_reply to n) (λ _ s' es, emitting config P s s' es ∧ True) s.
Proof.
  intros Hn. eapply wp_mono; [apply send_shuffle_reply_spec|].
  intros _ s' es (Hc & nodes & -> & Hle). split; [|done]. split; [done|].
  constructor; [|constructor]. apply P_reply. lia.
Qed.

Lemma emits_disconnect_tail p b :
  Emits (emit (SendMessage p (Disconnect b false)) ;; emit (DisconnectPeer p)).
Proof. respects_solve. Qed.

Lemma emits_send_disconnect p b : Emits (send_disconnect p b).
Proof.
  intros s _. unfold send_disconnect. do 3 wp_step.
  eapply wp_mono; [apply emits_send_shuffle_reply_le, bound_ok|].
  intros _ s1 es1 [H1 _]. eapply wp_mono; [by apply emits_disconnect_tail|].
  intros _ s2 es2 [H2 _]. split; [|done]. exact (comp_trans _ _ _ _ _ H1 H2).
Qed.
Hint Resolve emits_send_disconnect : respects.

Lemma emits_remove_active_by_index i r : Emits (remove_active_by_index i r).
Proof. unfold remove_active_by_index. respects_solve. Qed.
Hint Resolve emits_remove_active_by_index : respects.

Lemma emits_remove_active p r : Emits (remove_active p r).
Proof. unfold remove_active. respects_solve. Qed.

Lemma emits_free_random_slot : Emits free_random_slot_in_active_view.
Proof. unfold free_random_slot_in_active_view. respects_solve. Qed.

Lemma emits_add_active_unchecked p pr r : Emits (add_active_unchecked p pr r).
Proof. unfold add_active_unchecked. respects_solve. Qed.
Hint Resolve emits_remove_active emits_free_random_slot emits_add_active_unchecked : respects.

Lemma emits_add_active p d pr r : Emits (add_active p d pr r).
Proof. unfold add_active. respects_solve. Qed.
Hint Resolve emits_add_active : respects.

Lemma emits_on_disconnect p b : Emits (on_disconnect p b).
Proof. unfold on_disconnect. respects_solve. Qed.

Lemma emits_on_neighbor p pr d : Emits (on_neighbor p pr d).
Proof. unfold on_neighbor. respects_solve. Qed.

Lemma emits_on_shuffle_reply ns : Emits (on_shuffle_reply ns).
Proof. unfold on_shuffle_reply. respects_solve. Qed.

Lemma emits_handle_connection_closed p : Emits (handle_connection_closed p).
Proof. unfold handle_connection_closed. respects_solve. Qed.

Lemma emits_handle_pending_neighbor_timer p : Emits (handle_pending_neighbor_timer p).
Proof. unfold handle_pending_neighbor_timer. respects_solve. Qed.

Lemma emits_handle_quit : Emits handle_quit.
Proof. unfold handle_quit. respects_solve. Qed.

Lemma emits_handle_join p : Emits (handle_join p).
Proof. unfold handle_join. respects_solve. Qed.

(** The handlers that start or forward a walk, given that the condition admits
    what they forward. *)
Lemma emits_on_join p d :
  (∀ cfg to i t, P cfg (SendMessage to (ForwardJoin i t))) → Emits (on_join p d).
Proof. intros HP. unfold on_join. respects_solve. by apply emits_emit. Qed.

Lemma emits_on_forward_join p i t :
  (∀ cfg to, ttl_expired t = false → P cfg (SendMessage to (ForwardJoin i (ttl_next t)))) →
  Emits (on_forward_join p i t).
Proof.
  intros HP. unfold on_forward_join. respects_solve.
  by apply emits_emit; intros cfg; apply HP; bool_hyps.
Qed.

Lemma emits_on_shuffle p o ns t :
  (∀ cfg, len (truncate MAX_SHUFFLE_PEERS ns) <= bound cfg) →
  (∀ cfg to, ttl_expired t = false →
     P cfg (SendMessage to (Shuffle o (truncate MAX_SHUFFLE_PEERS ns) (ttl_next t)))) →
  Emits (on_shuffle p o ns t).
Proof.
  intros Hb HP. unfold on_shuffle. respects_solve.
  - intros s _. by apply emits_send_shuffle_reply_le.
  - by apply emits_emit; intros cfg; apply HP; bool_hyps.
Qed.

Lemma emits_handle_shuffle_timer :
  (∀ cfg to o ns t,
     len ns <= shuffle_active_view_count cfg + shuffle_passive_view_count cfg + 1 →
     P cfg (SendMessage to (Shuffle o ns t))) →
  Emits handle_shuffle_timer.
Proof.
  intros HP s _. unfold handle_shuffle_timer, with_rng. do 9 wp_step.
  destruct a as [node|]; cycle 1.
  { do 2 wp_step. split; [|done]. split; [done|]. constructor; [by apply P_plain|constructor]. }
  do 2 wp_step. apply shuffled_without_and_capped_spec in H0 as [Ha _].
  do 2 wp_step. apply shuffled_without_and_capped_spec in H0 as [Hp _].
  do 6 wp_step. split; [|done]. split; [done|]. simpl.
  constructor; [|constructor; [by apply P_plain|constructor]].
  apply HP. unfold len in *. rewrite length_app, length_fmap, length_app. simpl. lia.
Qed.

(** The handler of a message is its branch, between bookkeeping steps. *)
Lemma emits_handle_message from m :
  Emits (match m with
         | Join data => on_join from data
         | ForwardJoin peer ttl => on_forward_join from peer ttl
         | Shuffle origin nodes ttl => on_shuffle from origin nodes ttl
         | ShuffleReply nodes => on_shuffle_reply nodes
         | Neighbor priority data => on_neighbor from priority data
         | Disconnect alive _ => on_disconnect from alive
         end) →
  Emits (handle_message from m).
Proof.
  intros Hm. unfold handle_message.
  apply respects_bind; [apply _|respects_solve|intros ?].
  apply respects_bind; [apply _|respects_solve|intros ?].
  apply respects_bind; [apply _|exact Hm|intros ?]. respects_solve.
Qed.

Lemma emits_handle ev : Emits (handle_event ev) → Emits (handle ev).
Proof.
  intros Hev. unfold handle. apply respects_bind; [apply _|exact Hev|intros ?].
  respects_solve.
Qed.

End Emits.

(** What a disconnect sends. *)
Lemma send_disconnect_events {PI C R : Type} `{HPI : PeerIdentity PI, HC : !IndexMapSet PI C,
    HCL : !IndexMapSetLaws PI C, HR : !Rng R, HRL : !RngLaws R} p b (s : State PI C R) :
  wp True (send_disconnect p b) (λ _ _ es, ∃ nodes,
    es = [SendMessage p (ShuffleReply nodes); SendMessage p (Disconnect b false);
          DisconnectPeer p]) s.
Proof.
  unfold send_disconnect. do 3 wp_step. eapply wp_mono; [apply send_shuffle_reply_spec|].
  intros _ s1 es1 (_ & nodes & -> & _). do 3 wp_step. by exists nodes.
Qed.

(** ** Shuffle messages are bounded *)

Section Bounds.
  Context {PI C R : Type} `{HPI : PeerIdentity PI, HC : !IndexMapSet PI C,
    HCL : !IndexMapSetLaws PI C, HR : !Rng R, HRL : !RngLaws R}.

(** The number of shuffled peers the configuration asks for. *)
Definition fanout (cfg : Config) : N :=
  shuffle_active_view_count cfg + shuffle_passive_view_count cfg.

(** A shuffle carries our own information on top of the configured peers; a
    reply does not. *)
Definition node_list_bounded (cfg : Config) (e : OutEvent PI) : Prop :=
  match e with
  | SendMessage _ (Shuffle _ nodes _) => len nodes <= MAX_SHUFFLE_PEERS `max` (fanout cfg + 1)
  | SendMessage _ (ShuffleReply nodes) => len nodes <= MAX_SHUFFLE_PEERS `max` fanout cfg
  | _ => True
  end.

Lemma emits_handle_event_bounded ev :
  respects (S:=State PI C R) True (λ _, True) (emitting config node_list_bounded)
    (handle_event ev).
Proof.
  set (bd := λ cfg, MAX_SHUFFLE_PEERS `max` fanout cfg).
  assert (Hplain : ∀ cfg e, plain e → node_list_bounded cfg e).
  { by intros cfg [? []| | | |]. }
  assert (Hreply : ∀ cfg to nodes, len nodes <= bd cfg →
    node_list_bounded cfg (SendMessage to (ShuffleReply nodes))) by done.
  assert (Hbd : ∀ cfg, wrapping_add64 (shuffle_active_view_count cfg)
                         (shuffle_passive_view_count cfg) <= bd cfg).
  { intros cfg. unfold wrapping_add64, bd, fanout.
    pose proof (N.Div0.mod_le (shuffle_active_view_count cfg + shuffle_passive_view_count cfg)
      (2 ^ 64)). lia. }
  assert (Htr : ∀ ns : list (PeerInfo PI), len (truncate MAX_SHUFFLE_PEERS ns) <= MAX_SHUFFLE_PEERS).
  { intros ns. unfold len, truncate. rewrite length_take. lia. }
  destruct ev as [from m|[]|p|p|d|]; simpl.
  - eapply emits_handle_message; [done..|]. destruct m.
    + by eapply emits_on_join.
    + by eapply emits_on_forward_join.
    + eapply emits_on_shuffle; try done; intros cfg; unfold bd; specialize (Htr nodes); simpl; lia.
    + by eapply emits_on_shuffle_reply.
    + by eapply emits_on_neighbor.
    + by eapply emits_on_disconnect.
  - eapply emits_handle_shuffle_timer; try done. intros cfg to o ns t Hl. simpl. unfold fanout. lia.
  - by eapply emits_handle_pending_neighbor_timer.
  - by eapply emits_handle_connection_closed.
  - by eapply emits_handle_join.
  - by apply emits_modify.
  - by eapply emits_handle_quit.
Qed.

Lemma emits_handle_bounded ev :
  respects (S:=State PI C R) True (λ _, True) (emitting config node_list_bounded) (handle ev).
Proof.
  apply emits_handle; [|apply emits_handle_event_bounded]. by intros cfg [? []| | | |].
Qed.

End Bounds.
