(* ===== verification/HyParViewProps.v ===== *)
(** * Correctness of the HyParView membership protocol

    The theorems about whole runs of the state machine, with a concrete run for
    each. *)
From stdpp Require Import base tactics list gmap sets sorting relations.
From Stdlib Require Import ZArith Lia.
From S2P Require Import Prelude IndexSet Proto HyParView HyParViewFacts.

Local Open Scope N_scope.

Section Runs.
  Context {PI C R : Type} `{HPI : PeerIdentity PI, HC : !IndexMapSet PI C, HR : !Rng R}.

(** Feeding a sequence of input events to a state. *)
Definition run (evs : list (InEvent PI)) : M (State PI C R) (OutEvent PI) () :=
  for_each evs handle.

(** The time-to-live of a message that walks the overlay. *)
Definition walk_ttl (m : Message PI) : option N :=
  match m with
  | ForwardJoin _ ttl => Some ttl
  | Shuffle _ _ ttl => Some ttl
  | _ => None
  end.

(** Some node, in some state, sends [m'] while it handles [m]; both are steps of
    a random walk. *)
Definition walks (m m' : Message PI) : Prop :=
  is_Some (walk_ttl m) ∧ is_Some (walk_ttl m') ∧
  ∃ (s s' : State PI C R) from to es,
    handle_message from m s = Done () s' es ∧ SendMessage to m' ∈ es.

End Runs.

Section Props.
  Context {PI C R : Type} `{HPI : PeerIdentity PI, HC : !IndexMapSet PI C,
    HCL : !IndexMapSetLaws PI C, HR : !Rng R, HRL : !RngLaws R}.
  Implicit Types (s : State PI C R) (evs : list (InEvent PI)).

Lemma new_views_ok (m : PI) d cfg (r : R) : views_ok (C:=C) (new m d cfg r).
Proof.
  assert (Hs : ssize (∅ : gset PI) = 0) by done.
  split; unfold active, passive; simpl; rewrite ?elems_new, ?Hs; set_solver by lia.
Qed.

(** One event keeps the views well formed, our identity and the configuration. *)
Lemma handle_keeps_views ev :
  respects (S:=State PI C R) False views_ok
    (λ s s' _, me s' = me s ∧ config s' = config s) (handle ev).
Proof.
  intros s Hs. assert (ev = Quit ∨ ev ≠ Quit) as [->|Hev] by (destruct ev; naive_solver).
  - eapply wp_mono; [by apply handle_Quit_spec|]. naive_solver.
  - eapply wp_mono; [by apply mirrored_handle|]. intros _ s' es [[] ?]. done.
Qed.

#[local] Instance frame_Composable :
  Composable (E:=OutEvent PI) (λ s s' _, me s' = me s ∧ config s' = config s).
Proof. split; [done|]. intros s1 s2 s3 _ _ [] []. split; congruence. Qed.

(** The state after a run. *)
Definition after evs s : State PI C R :=
  match run evs s with Done _ s' _ => s' | Panicked => s end.

Lemma run_keeps_views evs :
  respects (S:=State PI C R) False views_ok
    (λ s s' _, me s' = me s ∧ config s' = config s) (run evs).
Proof. apply respects_for_each; [apply _|]. intros ev _. apply handle_keeps_views. Qed.

Lemma after_views_ok evs s : views_ok s → views_ok (after evs s).
Proof.
  intros Hs. unfold after.
  by destruct (wp_total _ _ _ (run_keeps_views evs s Hs)) as ([] & s' & es & -> & ? & ?).
Qed.

(** C2. Every sequence of input events, from a fresh state, is handled without a
    panic (in particular the branch of [on_forward_join] marked unreachable and
    the [unwrap] of [remove_active] are never taken), and leaves well-formed
    views: the local peer in neither view, the two views disjoint, and each
    view within its configured capacity. *)
Theorem reachable_views_ok (m : PI) d cfg (r : R) evs :
  ∃ s es, run (C:=C) evs (new m d cfg r) = Done () s es ∧
          views_ok s ∧ me s = m ∧ config s = cfg.
Proof.
  destruct (wp_total _ _ _ (run_keeps_views evs _ (new_views_ok m d cfg r)))
    as ([] & s & es & Hs & ? & ?).
  exists s, es. naive_solver.
Qed.

(** C11. The application can follow the active view from the neighbour events
    alone: in any run without [Quit], replaying the emitted [NeighborUp] and
    [NeighborDown] events from the empty set never finds a peer that comes up
    twice or goes down without being up, and ends in the active view. *)
Theorem neighbor_events_mirror_active_view (m : PI) d cfg (r : R) evs :
  Forall (λ ev, ev ≠ Quit) evs →
  ∃ s es, run (C:=C) evs (new m d cfg r) = Done () s es ∧
          replay ∅ es = Some (active s).
Proof.
  intros Hq. rewrite Forall_forall in Hq.
  assert (Hrun : respects (S:=State PI C R) False views_ok mirrored (run evs)).
  { apply respects_for_each; [apply _|]. intros ev Hev. by apply mirrored_handle, Hq. }
  destruct (wp_total _ _ _ (Hrun _ (new_views_ok m d cfg r))) as ([] & s & es & Hs & [Hm _]).
  exists s, es. split; [done|]. apply mi_replay in Hm. unfold active in Hm at 1.
  simpl in Hm. by rewrite elems_new in Hm.
Qed.

(** Handling a [Join] from another peer makes it active, and ends by sending
    every other active peer exactly one [ForwardJoin] for it, whose
    time-to-live is the configured length of the active random walk. *)
Theorem join_introduces_peer p d s :
  views_ok s → p ≠ me s →
  ∃ s' es,
    on_join p d s = Done () s'
      (es ++ ((λ q, SendMessage q
                 (ForwardJoin (mkPeerInfo p d) (active_random_walk_length (config s)))) <$>
              iter_without p (active_view s'))) ∧
    p ∈ active s' ∧ views_ok s'.
Proof.
  intros Hs Hp. unfold on_join.
  destruct (wp_total _ _ _ (add_active_spec p d High true s Hs))
    as (b & s1 & es1 & Hadd & Hm & Hs1 & Hpost).
  assert (Hb : p ∈ active s1).
  { destruct b; simpl in Hpost; naive_solver. }
  exists s1, es1. split; [|done]. unfold mbind, M_bind. rewrite Hadd. simpl.
  rewrite (mi_config _ _ _ Hm).
  by rewrite for_each_emit.
Qed.

(** The admission policy for [Neighbor] requests. A request of another peer
    is accepted, except a low-priority one of a new peer when the active view is
    full; nobody is dropped for it unless a high-priority request meets a full
    view, and then exactly one member is. A refusal leaves the active view
    alone and answers with a shuffle reply, a [Disconnect] that says we are
    alive, and the disconnection. *)
Theorem neighbor_admission p pr d s :
  views_ok s →
  ∃ s' es, on_neighbor p pr d s = Done () s' es ∧ views_ok s' ∧
    (add_active_post p pr s true s' ∨
     add_active_post p pr s false s' ∧
     ∃ es1 nodes, es = es1 ++ [SendMessage p (ShuffleReply nodes);
                               SendMessage p (Disconnect true false); DisconnectPeer p]).
Proof.
  intros Hs. unfold on_neighbor, on_pending.
  match goal with |- ∃ s' es, ?m s = _ ∧ @?Q s' es =>
    enough (wp False m (λ _ s' es, Q s' es) s) as Hwp end.
  { destruct (wp_total _ _ _ Hwp) as ([] & s' & es & ? & ?). eauto 10. }
  do 3 wp_step. destruct (steady_pure s (set_pending x s)) as [Hst Hs1]; try done.
  eapply wp_mono; [by apply add_active_spec|]. intros [] s2 es2 (Hm & Hs2 & Hpost).
  { apply wp_when; [done|]. by auto. }
  eapply wp_mono.
  { apply wp_and_partial; [by apply steady_send_disconnect|apply send_disconnect_events]. }
  intros _ s3 es3 [[[Hme Hcf Ha Hq] Hs3] [nodes ->]]. split; [done|]. right.
  split; [|by eauto]. unfold add_active_post, active in *. by rewrite Ha.
Qed.

(** C37. Random walks end: along a chain of messages in which each one is sent by
    a node that handles the one before, the time-to-live of [ForwardJoin] and
    [Shuffle] strictly decreases, so the chain has at most as many steps as the
    time-to-live of its first message. *)
Theorem random_walks_terminate k m m' ttl :
  nsteps (walks (C:=C) (R:=R)) k m m' → walk_ttl (PI:=PI) m = Some ttl → N.of_nat k <= ttl.
Proof.
  intros Hk. revert ttl. induction Hk as [m|k m m1 m' (_ & [t1 Ht1] & Hstep) _ IH]; intros ttl Ht.
  { lia. }
  specialize (IH t1 Ht1). enough (t1 < ttl) by lia.
  destruct Hstep as (s & s' & from & to & es & Hh & Hin).
  set (P (_ : Config) (e : OutEvent PI) := match e with
    | SendMessage _ m => ∀ t, walk_ttl m = Some t → t < ttl | _ => True end).
  enough (respects (S:=State PI C R) True (λ _, True) (emitting config P)
            (handle_message from m)) as Hr.
  { pose proof (wp_Done _ _ _ _ _ _ _ (Hr s Logic.I) Hh) as [[_ Hes] _].
    rewrite Forall_forall in Hes. exact (Hes _ Hin t1 Ht1). }
  assert (Hplain : ∀ cfg e, plain e → P cfg e) by by intros cfg [? []| | | |].
  assert (Hnext : ∀ t, ttl_expired t = false → ttl_next t < t).
  { intros t ?. unfold ttl_expired, ttl_next, saturating_sub16 in *. bool_hyps. lia. }
  apply (emits_handle_message P Hplain). destruct m; try done; simpl in Ht; injection Ht as ->.
  - apply emits_on_forward_join; [done|]. intros cfg q He t [= <-]. auto.
  - eapply (emits_on_shuffle P (λ _, len (truncate MAX_SHUFFLE_PEERS nodes))); try done.
    intros cfg q He t [= <-]. auto.
Qed.

(** The node lists we send are bounded for every input: a [Shuffle] carries
    at most the configured fan-out plus our own information, or
    [MAX_SHUFFLE_PEERS] forwarded nodes; a [ShuffleReply] at most the fan-out or
    [MAX_SHUFFLE_PEERS]. *)
Theorem shuffle_traffic_bounded ev s s' es :
  handle ev s = Done () s' es → Forall (node_list_bounded (config s)) es.
Proof.
  intros Hh.
  by pose proof (wp_Done _ _ _ _ _ _ _ (emits_handle_bounded ev s Logic.I) Hh) as [[_ Hes] _].
Qed.

End Props.

(** ** Concrete runs

    Peers are numbers, views are lists, the generator counts. *)

Abbreviation ex_State := (State N (list N) N).

Definition ex_events : list (InEvent N) :=
  [RecvMessage 1 (Join None); RecvMessage 2 (Join (Some [7])); RecvMessage 3 (Neighbor Low None);
   RecvMessage 1 (ShuffleReply [mkPeerInfo 4 None; mkPeerInfo 5 None]);
   RecvMessage 2 (ForwardJoin (mkPeerInfo 6 None) 3); TimerExpired DoShuffle;
   RecvMessage 1 (Disconnect true false); PeerDisconnected 2].

(** A node with room for one active peer, which peer 1 has taken. *)
Definition ex_config : Config :=
  mkConfig 1 2 6 3 6 3 4 60 500.
Definition ex_full : ex_State :=
  after [RecvMessage 1 (Join None)] (new 0 None ex_config 0).

(** A node with two neighbours. *)
Definition ex_two : ex_State :=
  after [RecvMessage 1 (Join None); RecvMessage 2 (Join None)] (new 0 None Config_default 0).

Lemma reachable_views_ok_witness :
  ∃ (s : ex_State) es, run ex_events (new 0 None Config_default 0) = Done () s es ∧
    views_ok s ∧ me s = 0 ∧ config s = Config_default.
Proof. exact (reachable_views_ok 0 None Config_default 0 ex_events). Defined.

Lemma neighbor_events_mirror_witness :
  ∃ (s : ex_State) es, run ex_events (new 0 None Config_default 0) = Done () s es ∧
    replay ∅ es = Some (active s) ∧ active s = {[3]}.
Proof.
  destruct (neighbor_events_mirror_active_view (C:=list N) 0 None Config_default 0 ex_events)
    as (s & es & Hr & Hm); [repeat constructor; discriminate|].
  exists s, es. split; [exact Hr|]. split; [exact Hm|].
  vm_compute in Hr. injection Hr as <- _. vm_compute. reflexivity.
Defined.

Lemma join_introduces_peer_witness :
  ∃ (s' : ex_State) es,
    on_join 3 None ex_two = Done () s'
      (es ++ ((λ q, SendMessage q (ForwardJoin (mkPeerInfo 3 None) 6)) <$>
              iter_without 3 (active_view s'))) ∧ 3 ∈ active s' ∧ views_ok s'.
Proof.
  apply (join_introduces_peer 3 None ex_two).
  - apply after_views_ok, new_views_ok.
  - vm_compute. discriminate.
Defined.

Lemma neighbor_admission_witness :
  ∃ (s' : ex_State) es, on_neighbor 2 Low None ex_full = Done () s' es ∧ views_ok s' ∧
    (add_active_post 2 Low ex_full true s' ∨
     add_active_post 2 Low ex_full false s' ∧
     ∃ es1 nodes, es = es1 ++ [SendMessage 2 (ShuffleReply nodes);
                               SendMessage 2 (Disconnect true false); DisconnectPeer 2]).
Proof. apply (neighbor_admission 2 Low None ex_full), after_views_ok, new_views_ok. Defined.

Lemma random_walks_terminate_witness :
  walks (C:=list N) (R:=N) (ForwardJoin (mkPeerInfo 9 None) 4) (ForwardJoin (mkPeerInfo 9 None) 3) ∧
  N.of_nat 1 <= 4.
Proof.
  assert (Hw : walks (C:=list N) (R:=N) (ForwardJoin (mkPeerInfo 9 None) 4)
                 (ForwardJoin (mkPeerInfo 9 None) 3)).
  { split; [by eexists|]. split; [by eexists|].
    exists ex_two, (after [RecvMessage 1 (ForwardJoin (mkPeerInfo 9 None) 4)] ex_two), 1, 2.
    eexists. vm_compute. split; [reflexivity|]. by repeat constructor. }
  split; [exact Hw|].
  exact (random_walks_terminate (C:=list N) (R:=N) 1 _ _ 4 (nsteps_once _ _ Hw) eq_refl).
Defined.

Lemma shuffle_traffic_bounded_witness :
  ∃ (s' : ex_State) es, handle (TimerExpired DoShuffle) ex_two = Done () s' es ∧
    Forall (node_list_bounded Config_default) es.
Proof.
  destruct (handle (TimerExpired DoShuffle) ex_two) as [[] s' es|] eqn:Hh;
    [|vm_compute in Hh; discriminate].
  exists s', es. split; [reflexivity|].
  exact (shuffle_traffic_bounded (TimerExpired DoShuffle) ex_two s' es Hh).
Defined.
