(* ===== verification/TimeCache.v ===== *)
(** * Timers and expiring caches (protocols/krikos-gossip/src/proto/util.rs)

    [TimerMap], a priority queue of items by instant, and [TimeBoundCache], a
    hash map of bounded size whose entries expire. *)
From stdpp Require Import base tactics list gmap sets sorting.
From Stdlib Require Import ZArith Lia.
From S2P Require Import Prelude Proto.

(** ** [TimerMap] *)

Record TimerMapEntry (T : Type) : Type := mkEntry {
  te_time : Instant;
  te_seq : N;
  te_item : T;
}.
Arguments mkEntry {T} _ _ _.
Arguments te_time {T} _.
Arguments te_seq {T} _.
Arguments te_item {T} _.

(** [Ord for TimerMapEntry]: reversed, so that the greatest entry is the
    earliest one, and among simultaneous ones the first inserted. *)
Definition entry_cmp {T} (a b : TimerMapEntry T) : comparison :=
  match CompOpp (te_time a ?= te_time b)%Z with
  | Eq => CompOpp (te_seq a ?= te_seq b)%N
  | c => c
  end.

(** A [BinaryHeap] as the list of its elements from the greatest to the least. *)
Fixpoint heap_push {T} (e : TimerMapEntry T) (h : list (TimerMapEntry T)) :=
  match h with
  | [] => [e]
  | x :: h' =>
      match entry_cmp x e with
      | Lt => e :: h
      | _ => x :: heap_push e h'
      end
  end.

Record TimerMap (T : Type) : Type := mkTimerMap {
  tm_heap : list (TimerMapEntry T);
  tm_seq : N;
}.
Arguments mkTimerMap {T} _ _.
Arguments tm_heap {T} _.
Arguments tm_seq {T} _.

Definition tm_new {T} : TimerMap T := mkTimerMap [] 0.

Definition tm_insert {T} (instant : Instant) (item : T) (m : TimerMap T) : TimerMap T :=
  mkTimerMap (heap_push (mkEntry instant (tm_seq m) item) (tm_heap m))
    (wrapping_add64 (tm_seq m) 1).

Definition tm_pop_first {T} (m : TimerMap T) : option (Instant * T) * TimerMap T :=
  match tm_heap m with
  | [] => (None, m)
  | e :: h => (Some (te_time e, te_item e), mkTimerMap h (tm_seq m))
  end.

Definition tm_pop_before {T} (limit : Instant) (m : TimerMap T)
    : option (Instant * T) * TimerMap T :=
  match tm_heap m with
  | e :: _ => if (te_time e <=? limit)%Z then tm_pop_first m else (None, m)
  | [] => (None, m)
  end.

(** The iterator [drain_until], run to its end: the loop pops one entry at a
    time, so the number of entries bounds its iterations. *)
Fixpoint tm_drain_loop {T} (fuel : nat) (from : Instant) (m : TimerMap T)
    : list (Instant * T) * TimerMap T :=
  match fuel with
  | O => ([], m)
  | S fuel =>
      match tm_pop_before from m with
      | (Some x, m) => let '(xs, m) := tm_drain_loop fuel from m in (x :: xs, m)
      | (None, m) => ([], m)
      end
  end.
Definition tm_drain_until {T} (from : Instant) (m : TimerMap T) :=
  tm_drain_loop (length (tm_heap m)) from m.

Definition tm_len {T} (m : TimerMap T) : N := len (tm_heap m).
Definition tm_first {T} (m : TimerMap T) : option Instant := te_time <$> head (tm_heap m).

(** ** [TimeBoundCache] *)

(** The iteration order of a [HashMap] is not specified. *)
Class HashIter (K V : Type) `{Countable K} : Type := hash_iter : gmap K V → list (K * V).
Class HashIterLaws (K V : Type) `{HashIter K V} : Prop :=
  hash_iter_perm (m : gmap K V) : hash_iter m ≡ₚ map_to_list m.

Record TimeBoundCache (K V : Type) `{Countable K} : Type := mkCache {
  tc_map : gmap K (Instant * V);
  tc_expiry : TimerMap K;
  tc_capacity : N;
}.
Arguments mkCache {K V _ _} _ _ _.
Arguments tc_map {K V _ _} _.
Arguments tc_expiry {K V _ _} _.
Arguments tc_capacity {K V _ _} _.

Section Cache.
  Context {K V : Type} `{Countable K, HI : !HashIter K (Instant * V)}.
  Implicit Types (c : TimeBoundCache K V) (m : gmap K (Instant * V)).

Definition tc_default : TimeBoundCache K V :=
  mkCache ∅ tm_new MAX_DUPLICATE_CACHE_ENTRIES.

Definition tc_with_capacity (capacity : N) : TimeBoundCache K V :=
  mkCache ∅ tm_new (clamp 1 MAX_DUPLICATE_CACHE_ENTRIES capacity).

(** [self.map.get(&key).is_some_and(|entry| entry.0 == time)]. *)
Definition matches_time (m : gmap K (Instant * V)) (time : Instant) (key : K) : bool :=
  match m !! key with Some (t, _) => bool_decide (t = time) | None => false end.

(** The eviction loop of [insert]: while the map is full, pop the entry that
    expires first and drop its key, unless the key has a newer expiry. *)
Fixpoint evict_loop (fuel : nat) (c : TimeBoundCache K V) : TimeBoundCache K V :=
  match fuel with
  | O => c
  | S fuel =>
      if (tc_capacity c <=? ssize (tc_map c))%N then
        match tm_pop_first (tc_expiry c) with
        | (None, _) => c
        | (Some (time, key), expiry) =>
            let m := if matches_time (tc_map c) time key
                     then delete key (tc_map c) else tc_map c in
            evict_loop fuel (mkCache m expiry (tc_capacity c))
        end
      else c
  end.

Definition compact_expiry_if_needed (c : TimeBoundCache K V) : TimeBoundCache K V :=
  if (tm_len (tc_expiry c) <=? saturating_mul64 (tc_capacity c) 2)%N then c
  else mkCache (tc_map c)
         (foldl (λ ex p, tm_insert p.2.1 p.1 ex) tm_new (hash_iter (tc_map c)))
         (tc_capacity c).

Definition tc_put (key : K) (value : V) (expires : Instant) (c : TimeBoundCache K V)
    : TimeBoundCache K V :=
  compact_expiry_if_needed
    (mkCache (<[key := (expires, value)]> (tc_map c))
       (tm_insert expires key (tc_expiry c)) (tc_capacity c)).

(** [insert]; the loop runs at most once per queued entry, and once more to see
    the queue empty. *)
Definition tc_insert (key : K) (value : V) (expires : Instant) (c : TimeBoundCache K V)
    : TimeBoundCache K V :=
  match tc_map c !! key with
  | Some _ => tc_put key value expires c
  | None =>
      tc_put key value expires (evict_loop (S (length (tm_heap (tc_expiry c)))) c)
  end.

Definition tc_contains_key (key : K) (c : TimeBoundCache K V) : bool :=
  match tc_map c !! key with Some _ => true | None => false end.
Definition tc_len (c : TimeBoundCache K V) : N := ssize (tc_map c).
Definition tc_is_empty (c : TimeBoundCache K V) : bool := (tc_len c =? 0)%N.
Definition tc_get (key : K) (c : TimeBoundCache K V) : option V := snd <$> tc_map c !! key.
Definition tc_expires (key : K) (c : TimeBoundCache K V) : option Instant :=
  fst <$> tc_map c !! key.

(** The body of the loop of [expire_until]. *)
Definition expire_entry (p : gmap K (Instant * V) * N) (e : Instant * K)
    : gmap K (Instant * V) * N :=
  if matches_time p.1 e.1 e.2 then (delete e.2 p.1, (p.2 + 1)%N) else p.

(** Remove all entries with an expiry instant lower or equal to [instant]; also
    returns how many were removed. *)
Definition tc_expire_until (instant : Instant) (c : TimeBoundCache K V)
    : N * TimeBoundCache K V :=
  let '(drained, expiry) := tm_drain_until instant (tc_expiry c) in
  let '(m, count) := foldl expire_entry (tc_map c, 0%N) drained in
  (count, mkCache m expiry (tc_capacity c)).

End Cache.

(** ** The priority queue *)

Definition by_time {T} (h : list (TimerMapEntry T)) : Prop :=
  StronglySorted (λ a b, te_time a ≤ te_time b)%Z h.

Lemma heap_push_perm {T} (e : TimerMapEntry T) h : heap_push e h ≡ₚ e :: h.
Proof.
  induction h as [|x h IH]; simpl; [done|]. destruct (entry_cmp x e); [|done|];
    rewrite IH; solve_Permutation.
Qed.

Lemma entry_cmp_time {T} (a b : TimerMapEntry T) :
  match entry_cmp a b with
  | Lt => te_time b ≤ te_time a
  | _ => te_time a ≤ te_time b
  end%Z.
Proof.
  unfold entry_cmp. destruct (Z.compare_spec (te_time a) (te_time b)); simpl; [|lia..].
  destruct (te_seq a ?= te_seq b)%N; simpl; lia.
Qed.

Lemma heap_push_by_time {T} (e : TimerMapEntry T) h : by_time h → by_time (heap_push e h).
Proof.
  unfold by_time. induction 1 as [|x h Hh IH Hx]; simpl; [by repeat constructor|].
  pose proof (entry_cmp_time x e) as Hc. destruct (entry_cmp x e).
  1,3: constructor; [done|]; rewrite heap_push_perm; by constructor.
  constructor; [by constructor|]. constructor; [done|].
  eapply Forall_impl; [exact Hx|]. simpl. intros y ?. lia.
Qed.

Lemma tm_drain_until_spec {T} from (m : TimerMap T) xs m' :
  by_time (tm_heap m) → tm_drain_until from m = (xs, m') →
  ∃ h, tm_heap m = h ++ tm_heap m' ∧ xs = (λ e, (te_time e, te_item e)) <$> h ∧
       Forall (λ e, te_time e ≤ from)%Z h ∧ Forall (λ e, from < te_time e)%Z (tm_heap m') ∧
       by_time (tm_heap m').
Proof.
  unfold tm_drain_until. destruct m as [h seq]. simpl.
  revert seq xs m'. induction h as [|e h IH]; intros seq xs m' Hs; simpl.
  { intros [= <- <-]. exists []. simpl. by repeat constructor. }
  unfold tm_pop_before, tm_pop_first. simpl. apply StronglySorted_inv in Hs as [Hs He].
  destruct (Z.leb_spec (te_time e) from) as [Hle|Hgt].
  - destruct (tm_drain_loop _ _ _) as [ys m1] eqn:Hd. intros [= <- <-].
    destruct (IH seq ys m1 Hs Hd) as (h1 & Hh & -> & H1 & H2 & H3).
    exists (e :: h1). split; [simpl; congruence|]. split; [done|]. by split; [constructor|].
  - intros [= <- <-]. exists []. split; [done|]. split; [done|]. split; [done|]. simpl.
    split; [|by constructor]. constructor; [done|].
    eapply Forall_impl; [exact He|]. simpl. intros y ?. lia.
Qed.

(** ** The invariant of the cache *)

Section CacheFacts.
  Context {K V : Type} `{Countable K, HI : !HashIter K (Instant * V), HIL : !HashIterLaws K (Instant * V)}.
  Implicit Types (c : TimeBoundCache K V) (m : gmap K (Instant * V)).
  Implicit Types (h : list (TimerMapEntry K)).

(** Every entry of the map is announced in the queue at its own instant. *)
Definition covered m h : Prop :=
  ∀ k t v, m !! k = Some (t, v) → ∃ e, e ∈ h ∧ te_time e = t ∧ te_item e = k.

Record cache_wf c : Prop := {
  cw_sorted : by_time (tm_heap (tc_expiry c));
  cw_covered : covered (tc_map c) (tm_heap (tc_expiry c));
  cw_size : (ssize (tc_map c) <= tc_capacity c)%N;
  cw_capacity : (1 <= tc_capacity c <= MAX_DUPLICATE_CACHE_ENTRIES)%N;
  cw_queue : (tm_len (tc_expiry c) <= 2 * tc_capacity c)%N;
}.

Lemma matches_time_true m t k : matches_time m t k = true ↔ ∃ v, m !! k = Some (t, v).
Proof.
  unfold matches_time. destruct (m !! k) as [[t' v]|] eqn:Hk.
  - rewrite bool_decide_eq_true. naive_solver.
  - naive_solver.
Qed.

Lemma covered_perm m h h' : h ≡ₚ h' → covered m h → covered m h'.
Proof. intros Hp Hc k t v Hk. destruct (Hc k t v Hk) as (e & He & ?). exists e. by rewrite <-Hp. Qed.

(** Dropping an announcement together with its entry, if it still stands. *)
Lemma covered_pop m e h :
  covered m (e :: h) →
  covered (if matches_time m (te_time e) (te_item e) then delete (te_item e) m else m) h.
Proof.
  intros Hc. destruct (matches_time m _ _) eqn:Hm.
  - intros k t v [Hne Hk]%lookup_delete_Some. destruct (Hc k t v Hk) as (e' & He & <- & <-).
    exists e'. split; [|done]. set_solver.
  - intros k t v Hk. destruct (Hc k t v Hk) as (e' & He & <- & <-). exists e'. split; [|done].
    apply elem_of_cons in He as [->|]; [|done]. exfalso.
    assert (matches_time m (te_time e) (te_item e) = true); [|congruence].
    apply matches_time_true. eauto.
Qed.

Lemma covered_put m h k t v e :
  covered m h → te_time e = t → te_item e = k → covered (<[k := (t, v)]> m) (heap_push e h).
Proof.
  intros Hc <- <- k' t' v' Hk. destruct (decide (te_item e = k')) as [<-|Hne].
  - rewrite lookup_insert_eq in Hk. injection Hk as <- _.
    exists e. rewrite heap_push_perm. set_solver.
  - rewrite lookup_insert_ne in Hk by done. destruct (Hc k' t' v' Hk) as (e' & ? & ?).
    exists e'. rewrite heap_push_perm. set_solver.
Qed.

(** ** Eviction *)

(** The loop stops below the capacity, or at once when it starts there; what it
    removes expires no later than what it keeps. *)
Lemma evict_loop_spec fuel c :
  (length (tm_heap (tc_expiry c)) < fuel)%nat →
  by_time (tm_heap (tc_expiry c)) → covered (tc_map c) (tm_heap (tc_expiry c)) →
  (1 <= tc_capacity c)%N →
  ∃ m h seq, evict_loop fuel c = mkCache m (mkTimerMap h seq) (tc_capacity c) ∧
    by_time h ∧ covered m h ∧ suffix h (tm_heap (tc_expiry c)) ∧
    (ssize m < tc_capacity c)%N ∧ m ⊆ tc_map c ∧
    ((ssize (tc_map c) <= tc_capacity c)%N → (tc_capacity c <= ssize m + 1)%N ∨ m = tc_map c) ∧
    (∀ k t v k' t' v', tc_map c !! k = Some (t, v) → m !! k = None →
                       m !! k' = Some (t', v') → t ≤ t')%Z.
Proof.
  revert c. induction fuel as [|fuel IH]; intros [m [h seq] cap] Hf Hs Hc Hcap; simpl in *; [lia|].
  destruct (N.leb_spec cap (ssize m)) as [Hfull|Hfree]; cycle 1.
  { exists m, h, seq. repeat (split; [done|]). split; [by right|]. intros. congruence. }
  destruct h as [|e h].
  - exfalso. assert (m = ∅) as ->.
    { apply map_empty. intros k. destruct (m !! k) as [[t v]|] eqn:Hk; [|done].
      destruct (Hc k t v Hk) as (? & ?%elem_of_nil & _). done. }
    unfold ssize in Hfull. rewrite map_size_empty in Hfull. lia.
  - unfold tm_pop_first. simpl. apply covered_pop in Hc. apply StronglySorted_inv in Hs as [Hs He].
    destruct (IH (mkCache (if matches_time m (te_time e) (te_item e)
      then delete (te_item e) m else m) (mkTimerMap h seq) cap))
      as (m' & h' & seq' & Heq & Hs' & Hc' & Hsuf & Hlt & Hsub & Hone & Hord); simpl in *; try done; [lia|].
    exists m', h', seq'. do 3 (split; [done|]). split; [by apply suffix_cons_r|]. split; [done|].
    assert (Hmin : ∀ k' t' v', m' !! k' = Some (t', v') → (te_time e ≤ t')%Z).
    { intros k' t' v' (e' & He' & <- & _)%Hc'. rewrite Forall_forall in He. apply He.
      by apply (elem_of_suffix h'). }
    destruct (matches_time m (te_time e) (te_item e)) eqn:Hm; [|done].
    apply matches_time_true in Hm as [v0 Hv0].
    split; [etrans; [exact Hsub|apply delete_subseteq]|]. split.
    + intros Hle. left. assert (Hsz : ssize m = (ssize (delete (te_item e) m) + 1)%N).
      { unfold ssize. rewrite map_size_delete, Hv0. simpl.
        assert (size m ≠ 0%nat); [|lia]. intros ?%map_size_empty_inv. simplify_map_eq. }
      destruct Hone as [?| ->]; lia.
    + intros k t v k' t' v' Hk Hk0 Hk'. destruct (decide (te_item e = k)) as [<-|Hne].
      * simplify_eq. eauto.
      * eapply Hord; [|done|done]. by rewrite lookup_delete_ne.
Qed.

(** ** Compaction *)

Lemma rebuild_spec (l : list (K * (Instant * V))) (ex : TimerMap K) :
  by_time (tm_heap ex) →
  let ex' := foldl (λ ex p, tm_insert p.2.1 p.1 ex) ex l in
  by_time (tm_heap ex') ∧
  tm_len ex' = (tm_len ex + len l)%N ∧
  (∀ k t v, (k, (t, v)) ∈ l → ∃ e, e ∈ tm_heap ex' ∧ te_time e = t ∧ te_item e = k) ∧
  (∀ e, e ∈ tm_heap ex → e ∈ tm_heap ex').
Proof.
  revert ex. induction l as [|[k0 [t0 v0]] l IH]; intros ex Hs; simpl.
  { split; [done|]. split; [unfold len; simpl; lia|]. split; [|done].
    intros ??? ?%elem_of_nil. done. }
  destruct (IH (tm_insert t0 k0 ex)) as (H1 & H2 & H3 & H4); [by apply heap_push_by_time|].
  split; [done|]. split.
  { rewrite H2. unfold tm_len, len. simpl. rewrite heap_push_perm. simpl. lia. }
  split.
  - intros k t v [[= -> -> ->]|?]%elem_of_cons; [|eauto].
    eexists. split; [apply H4; simpl; rewrite heap_push_perm; apply list_elem_of_here|done].
  - intros e He. apply H4. simpl. rewrite heap_push_perm. set_solver.
Qed.

(** Compaction rebuilds the queue, so it keeps the invariant and restores the
    bound on the queue. *)
Lemma compact_spec c :
  by_time (tm_heap (tc_expiry c)) → covered (tc_map c) (tm_heap (tc_expiry c)) →
  (ssize (tc_map c) <= tc_capacity c)%N → (1 <= tc_capacity c <= MAX_DUPLICATE_CACHE_ENTRIES)%N →
  cache_wf (compact_expiry_if_needed c) ∧
  tc_map (compact_expiry_if_needed c) = tc_map c ∧
  tc_capacity (compact_expiry_if_needed c) = tc_capacity c.
Proof.
  intros Hs Hc Hsz Hcap. unfold compact_expiry_if_needed.
  assert (Hsat : saturating_mul64 (tc_capacity c) 2 = (2 * tc_capacity c)%N).
  { unfold saturating_mul64, usize_max, MAX_DUPLICATE_CACHE_ENTRIES in *. lia. }
  rewrite Hsat. destruct (N.leb_spec (tm_len (tc_expiry c)) (2 * tc_capacity c)) as [Hle|Hgt].
  { split; [by split|done]. }
  destruct (rebuild_spec (hash_iter (tc_map c)) tm_new) as (H1 & H2 & H3 & _); [constructor|].
  split; [|done]. split; simpl; try done.
  - intros k t v Hk. apply H3 with v. rewrite hash_iter_perm. by apply elem_of_map_to_list.
  - rewrite H2. unfold tm_len, len. simpl. rewrite (Permutation_length (hash_iter_perm _)).
    rewrite length_map_to_list. unfold ssize in *. lia.
Qed.

(** ** Operations *)

Lemma tc_with_capacity_wf n : cache_wf (tc_with_capacity (K:=K) (V:=V) n).
Proof.
  split; simpl.
  - constructor.
  - intros k t v Hk. simplify_map_eq.
  - unfold ssize. rewrite map_size_empty. lia.
  - unfold clamp, MAX_DUPLICATE_CACHE_ENTRIES. lia.
  - unfold tm_len, len. simpl. lia.
Qed.

Lemma tc_put_spec k v t c :
  by_time (tm_heap (tc_expiry c)) → covered (tc_map c) (tm_heap (tc_expiry c)) →
  (ssize (<[k := (t, v)]> (tc_map c)) <= tc_capacity c)%N →
  (1 <= tc_capacity c <= MAX_DUPLICATE_CACHE_ENTRIES)%N →
  cache_wf (tc_put k v t c) ∧ tc_map (tc_put k v t c) = <[k := (t, v)]> (tc_map c) ∧
  tc_capacity (tc_put k v t c) = tc_capacity c.
Proof.
  intros Hs Hc Hsz Hcap. unfold tc_put. set (c' := mkCache _ _ _).
  destruct (compact_spec c') as (Hwf & -> & ->); simpl; try done.
  - by apply heap_push_by_time.
  - by apply covered_put.
Qed.

(** Updating a key, or adding one while there is room. *)
Lemma tc_insert_room k v t c :
  cache_wf c → is_Some (tc_map c !! k) ∨ (ssize (tc_map c) < tc_capacity c)%N →
  cache_wf (tc_insert k v t c) ∧
  tc_map (tc_insert k v t c) = <[k := (t, v)]> (tc_map c) ∧
  tc_capacity (tc_insert k v t c) = tc_capacity c.
Proof.
  intros [] Hroom. unfold tc_insert. destruct (tc_map c !! k) as [x|] eqn:Hk.
  - apply tc_put_spec; try done. unfold ssize in *.
    by rewrite map_size_insert_Some by (by rewrite Hk).
  - destruct Hroom as [[? ?]|Hlt]; [done|]. simpl.
    rewrite (proj2 (N.leb_gt _ _) Hlt).
    apply tc_put_spec; try done. unfold ssize in *.
    rewrite map_size_insert_None by done. lia.
Qed.

(** Adding a key to a full cache. *)
Lemma tc_insert_full k v t c :
  cache_wf c → tc_map c !! k = None → ssize (tc_map c) = tc_capacity c →
  ∃ m, cache_wf (tc_insert k v t c) ∧ tc_map (tc_insert k v t c) = <[k := (t, v)]> m ∧
    tc_capacity (tc_insert k v t c) = tc_capacity c ∧
    m ⊆ tc_map c ∧ (ssize m + 1 = tc_capacity c)%N ∧
    (∀ k1 t1 v1 k2 t2 v2, tc_map c !! k1 = Some (t1, v1) → m !! k1 = None →
                          m !! k2 = Some (t2, v2) → t1 ≤ t2)%Z.
Proof.
  intros [] Hk Hfull. unfold tc_insert. rewrite Hk.
  destruct (evict_loop_spec (S (length (tm_heap (tc_expiry c)))) c)
    as (m & h & seq & Heq & Hs & Hc & _ & Hlt & Hsub & Hone & Hord); [lia|done|done|lia|].
  rewrite Heq. exists m. assert (Hmk : m !! k = None) by by eapply lookup_weaken_None.
  assert (ssize m + 1 = tc_capacity c)%N as Hm.
  { destruct Hone as [? | ->]; lia. }
  destruct (tc_put_spec k v t (mkCache m (mkTimerMap h seq) (tc_capacity c))) as (?&?&?);
    simpl; try done.
  unfold ssize in *. rewrite map_size_insert_None by done. lia.
Qed.

Lemma tc_insert_wf k v t c : cache_wf c → cache_wf (tc_insert k v t c).
Proof.
  intros Hc. destruct (tc_map c !! k) as [x|] eqn:Hk; [by apply tc_insert_room; [|left; eauto]|].
  destruct (N.lt_ge_cases (ssize (tc_map c)) (tc_capacity c)) as [Hlt|Hge].
  - by apply tc_insert_room; [|right].
  - destruct (tc_insert_full k v t c Hc Hk) as (m & ? & _); [|done].
    pose proof (cw_size c Hc). lia.
Qed.

Lemma tc_insert_get k v t c : cache_wf c → tc_map (tc_insert k v t c) !! k = Some (t, v).
Proof.
  intros Hc. destruct (tc_map c !! k) as [x|] eqn:Hk.
  { destruct (tc_insert_room k v t c) as (_ & -> & _); [done|left; eauto|]. apply lookup_insert_eq. }
  destruct (N.lt_ge_cases (ssize (tc_map c)) (tc_capacity c)) as [Hlt|Hge].
  - destruct (tc_insert_room k v t c) as (_ & -> & _); [done|by right|]. apply lookup_insert_eq.
  - destruct (tc_insert_full k v t c Hc Hk) as (m & _ & -> & _); [|apply lookup_insert_eq].
    pose proof (cw_size c Hc). lia.
Qed.

(** What [insert] leaves of the other entries. *)
Lemma tc_insert_other k v t c k' x :
  cache_wf c → k' ≠ k → tc_map (tc_insert k v t c) !! k' = Some x → tc_map c !! k' = Some x.
Proof.
  intros Hc Hne. destruct (tc_map c !! k) as [y|] eqn:Hk.
  { destruct (tc_insert_room k v t c) as (_ & -> & _); [done|left; eauto|].
    by rewrite lookup_insert_ne. }
  destruct (N.lt_ge_cases (ssize (tc_map c)) (tc_capacity c)) as [Hlt|Hge].
  - destruct (tc_insert_room k v t c) as (_ & -> & _); [done|by right|]. by rewrite lookup_insert_ne.
  - destruct (tc_insert_full k v t c Hc Hk) as (m & _ & -> & _ & Hsub & _).
    { pose proof (cw_size c Hc). lia. }
    rewrite lookup_insert_ne by done. intros Hx. by eapply lookup_weaken.
Qed.

Lemma tc_insert_capacity k v t c : cache_wf c → tc_capacity (tc_insert k v t c) = tc_capacity c.
Proof.
  intros Hc. destruct (tc_map c !! k) as [y|] eqn:Hk.
  { by destruct (tc_insert_room k v t c) as (_ & _ & ->); [|left; eauto|]. }
  destruct (N.lt_ge_cases (ssize (tc_map c)) (tc_capacity c)) as [Hlt|Hge].
  - by destruct (tc_insert_room k v t c) as (_ & _ & ->); [|right|].
  - destruct (tc_insert_full k v t c Hc Hk) as (m & _ & _ & -> & _); [|done].
    pose proof (cw_size c Hc). lia.
Qed.

(** ** Expiry *)

Lemma expire_fold_spec (l : list (Instant * K)) m n :
  ∃ m' n', foldl expire_entry (m, n) l = (m', n') ∧ m' ⊆ m ∧
    (n' + ssize m' = n + ssize m)%N ∧
    (∀ k t v, m !! k = Some (t, v) → m' !! k = None ↔ (t, k) ∈ l).
Proof.
  revert m n. induction l as [|[t0 k0] l IH]; intros m n; simpl.
  { exists m, n. split; [done|]. split; [done|]. split; [done|].
    intros k t v Hk. rewrite Hk. split; [done|]. by intros ?%elem_of_nil. }
  unfold expire_entry at 2. simpl. destruct (matches_time m t0 k0) eqn:Hm.
  - apply matches_time_true in Hm as [v0 Hv0].
    destruct (IH (delete k0 m) (n + 1)%N) as (m' & n' & Heq & Hsub & Hn & Hk).
    exists m', n'. split; [done|]. split; [etrans; [exact Hsub|apply delete_subseteq]|]. split.
    { unfold ssize in *. rewrite map_size_delete, Hv0 in Hn. simpl in Hn.
      assert (size m ≠ 0%nat); [|lia]. intros ?%map_size_empty_inv. simplify_map_eq. }
    intros k t v Hkt. rewrite elem_of_cons. destruct (decide (k = k0)) as [->|Hne].
    + simplify_eq. split; [by left|]. intros _. eapply lookup_weaken_None; [|exact Hsub].
      apply lookup_delete_eq.
    + rewrite (Hk k t v); [naive_solver|]. by rewrite lookup_delete_ne.
  - destruct (IH m n) as (m' & n' & Heq & Hsub & Hn & Hk). exists m', n'. do 3 (split; [done|]).
    intros k t v Hkt. rewrite elem_of_cons, (Hk k t v Hkt).
    split; [by right|]. intros [[= -> ->]|?]; [|done].
    assert (matches_time m t0 k0 = true); [|congruence]. apply matches_time_true. eauto.
Qed.

(** [expire_until] keeps exactly the entries that expire later, and counts the
    others. *)
Lemma tc_expire_until_spec now c n c' :
  cache_wf c → tc_expire_until now c = (n, c') →
  cache_wf c' ∧ tc_capacity c' = tc_capacity c ∧
  (∀ k, tc_map c' !! k = (x ← tc_map c !! k; if bool_decide (now < x.1)%Z then Some x else None)) ∧
  (n + ssize (tc_map c') = ssize (tc_map c))%N.
Proof.
  intros [Hs Hc Hsz Hcap Hq]. unfold tc_expire_until.
  destruct (tm_drain_until now (tc_expiry c)) as [xs ex'] eqn:Hd.
  apply tm_drain_until_spec in Hd as (h & Hh & -> & Hle & Hgt & Hs'); [|done].
  destruct (expire_fold_spec ((λ e, (te_time e, te_item e)) <$> h) (tc_map c) 0)
    as (m' & n' & -> & Hsub & Hn & Hk). intros [= <- <-]. simpl.
  assert (Hlook : ∀ k, m' !! k =
    (x ← tc_map c !! k; if bool_decide (now < x.1)%Z then Some x else None)).
  { intros k. destruct (tc_map c !! k) as [[t v]|] eqn:Hkt; simpl; [|by eapply lookup_weaken_None].
    specialize (Hk k t v Hkt). case_bool_decide as Hnow.
    - destruct (m' !! k) as [x|] eqn:Hx.
      + f_equal. apply (lookup_weaken _ _ _ _ Hx) in Hsub. congruence.
      + exfalso. apply proj1 in Hk. specialize (Hk eq_refl).
        apply list_elem_of_fmap in Hk as (e & [= -> ->] & He).
        rewrite Forall_forall in Hle. specialize (Hle e He). simpl in *. lia.
    - apply Hk, list_elem_of_fmap. destruct (Hc k t v Hkt) as (e & He & <- & <-).
      exists e. split; [done|]. rewrite Hh in He. apply elem_of_app in He as [?|He]; [done|].
      rewrite Forall_forall in Hgt. specialize (Hgt e He). simpl in *. lia. }
  split; [|by split; [|split; [|lia]]]. split; simpl; try done.
  - intros k t v Hkt. destruct (Hc k t v) as (e & He & <- & <-); [by eapply lookup_weaken|].
    exists e. split; [|done]. rewrite Hh in He. apply elem_of_app in He as [He|?]; [|done].
    rewrite Hlook in Hkt. destruct (tc_map c !! te_item e) as [[t1 v1]|] eqn:Hx; simpl in Hkt; [|done].
    case_bool_decide; [|done]. simplify_eq. rewrite Forall_forall in Hle. specialize (Hle e He).
    simpl in *. lia.
  - unfold ssize in *. apply map_subseteq_size in Hsub. lia.
  - unfold tm_len, len in *. rewrite Hh, length_app in Hq. lia.
Qed.

End CacheFacts.

(** An iteration order, for concrete runs. *)
Definition map_to_list_HashIter {K V : Type} `{Countable K} : HashIter K V := map_to_list.

Lemma map_to_list_HashIterLaws {K V : Type} `{Countable K} :
  HashIterLaws K V (H0:=map_to_list_HashIter).
Proof. intros m. done. Qed.
