(* ===== verification/TimeCacheProps.v ===== *)
(** * Correctness of the timer queue and of the expiring cache

    The queue refines one first-in first-out list per instant; the cache evicts
    and expires the right entries. *)
From stdpp Require Import base tactics list gmap sets sorting.
From Stdlib Require Import ZArith Lia.
From S2P Require Import Prelude Proto TimeCache.

(** ** The timer queue *)

Section Queue.
  Context {T : Type}.
  Implicit Types (m : TimerMap T) (e : TimerMapEntry T).

(** The items that are due at one instant, in the order of the queue. *)
Definition due_at (t : Instant) (h : list (TimerMapEntry T)) : list T :=
  te_item <$> filter (λ e, te_time e = t) h.

(** The order of the heap: by instant, then by sequence number. *)
Definition before e e' : Prop :=
  (te_time e < te_time e')%Z ∨ te_time e = te_time e' ∧ (te_seq e < te_seq e')%N.

Record timers_wf m : Prop := {
  tw_sorted : StronglySorted before (tm_heap m);
  tw_seq : Forall (λ e, te_seq e < tm_seq m)%N (tm_heap m);
}.

(** A sequence of insertions and of drains. *)
Inductive timer_op : Type :=
| TInsert (instant : Instant) (item : T)
| TDrain (from : Instant).

Definition timer_step (op : timer_op) m : list (Instant * T) * TimerMap T :=
  match op with
  | TInsert t x => ([], tm_insert t x m)
  | TDrain from => tm_drain_until from m
  end.

Fixpoint timer_run (ops : list timer_op) m : list (Instant * T) * TimerMap T :=
  match ops with
  | [] => ([], m)
  | op :: ops =>
      let '(xs, m) := timer_step op m in
      let '(ys, m) := timer_run ops m in (xs ++ ys, m)
  end.

(** The specification: a first-in first-out list of pending items for each
    instant. *)
Definition pending_step (op : timer_op) (p : Instant → list T) (t : Instant) : list T :=
  match op with
  | TInsert t' x => if bool_decide (t = t') then p t ++ [x] else p t
  | TDrain from => if bool_decide (t ≤ from)%Z then [] else p t
  end.

Lemma before_time h : StronglySorted before h → by_time h.
Proof.
  unfold by_time. induction 1 as [|e h _ IH He]; constructor; [done|].
  eapply Forall_impl; [exact He|]. unfold before. lia.
Qed.

Lemma due_at_app t h1 h2 : due_at t (h1 ++ h2) = due_at t h1 ++ due_at t h2.
Proof. unfold due_at. by rewrite filter_app, fmap_app. Qed.

Lemma due_at_none t h : Forall (λ e, te_time e ≠ t) h → due_at t h = [].
Proof.
  unfold due_at. induction 1 as [|e h He _ IH]; [done|].
  by rewrite filter_cons_False.
Qed.

(** Pushing an entry with a fresh sequence number puts it behind the entries of
    its instant. *)
Lemma heap_push_fresh e h :
  StronglySorted before h → Forall (λ e', te_seq e' < te_seq e)%N h →
  StronglySorted before (heap_push e h) ∧
  ∀ t, due_at t (heap_push e h) =
       if bool_decide (t = te_time e) then due_at t h ++ [te_item e] else due_at t h.
Proof.
  induction 1 as [|x h Hh IH Hx]; intros Hseq; simpl.
  { split; [by repeat constructor|]. intros t. unfold due_at.
    case_bool_decide; by rewrite ?filter_cons_True, ?filter_cons_False by done. }
  apply Forall_cons in Hseq as [Hxe Hseq]. destruct (IH Hseq) as [Hs Hdue].
  destruct (entry_cmp x e) eqn:Hc.
  all: unfold entry_cmp in Hc;
    destruct (Z.compare_spec (te_time x) (te_time e)) as [Heq|Hlt|Hgt]; simpl in Hc; try done.
  1,2: destruct (N.compare_spec (te_seq x) (te_seq e)); simpl in Hc; (done || lia).
  - split.
    + constructor; [by constructor|]. constructor; [by left|].
      eapply Forall_impl; [exact Hx|]. unfold before. lia.
    + intros t. case_bool_decide as Ht.
      * subst t. assert (Hnone : due_at (te_time e) (x :: h) = []).
        { apply due_at_none. constructor; [lia|].
          eapply Forall_impl; [exact Hx|]. unfold before. lia. }
        rewrite Hnone. change (e :: x :: h) with ([e] ++ (x :: h)). rewrite due_at_app, Hnone.
        unfold due_at. by rewrite filter_cons_True by done.
      * unfold due_at. by rewrite filter_cons_False by done.
  - split.
    + constructor; [done|]. rewrite heap_push_perm. constructor; [|done]. right. lia.
    + intros t. change (x :: ?l) with ([x] ++ l). rewrite !due_at_app, Hdue.
      case_bool_decide; [by rewrite (assoc_L (++))|done].
  - split.
    + constructor; [done|]. rewrite heap_push_perm. constructor; [|done]. left. lia.
    + intros t. change (x :: ?l) with ([x] ++ l). rewrite !due_at_app, Hdue.
      case_bool_decide; [by rewrite (assoc_L (++))|done].
Qed.

(** What a drain returns and leaves. *)
Lemma drain_due from m xs m' :
  timers_wf m → tm_drain_until from m = (xs, m') →
  timers_wf m' ∧ tm_seq m' = tm_seq m ∧
  StronglySorted (λ a b, a.1 ≤ b.1)%Z xs ∧
  (∀ t, snd <$> filter (λ x, x.1 = t) xs =
        if bool_decide (t ≤ from)%Z then due_at t (tm_heap m) else []) ∧
  (∀ t, due_at t (tm_heap m') =
        if bool_decide (t ≤ from)%Z then [] else due_at t (tm_heap m)).
Proof.
  intros [Hs Hseq] Hd. assert (Hsq : tm_seq m' = tm_seq m).
  { unfold tm_drain_until in Hd. revert m Hs Hseq xs m' Hd.
    assert (∀ n m xs m', tm_drain_loop n from m = (xs, m') → tm_seq m' = tm_seq m) as Hloop; [|eauto].
    induction n as [|n IH]; intros m xs m'; simpl; [by intros [= <- <-]|].
    unfold tm_pop_before, tm_pop_first. destruct (tm_heap m) as [|e h]; [by intros [= <- <-]|].
    destruct (te_time e <=? from)%Z; [|by intros [= <- <-]].
    destruct (tm_drain_loop _ _ _) as [ys m1] eqn:Hl. intros [= <- <-]. by apply IH in Hl. }
  pose proof (before_time _ Hs) as Hbt.
  apply tm_drain_until_spec in Hd as (h & Hh & -> & Hle & Hgt & _); [|done].
  rewrite Hh in *. apply StronglySorted_app in Hs as (_ & Hs1 & Hs2).
  apply Forall_app in Hseq as [_ Hseq]. rewrite Forall_forall in Hle, Hgt.
  split; [split; [done|by rewrite Hsq]|]. split; [done|].
  split; [|split].
  - apply StronglySorted_app in Hbt as (_ & Hbt & _). clear -Hbt.
    induction Hbt as [|e h _ IH He]; simpl; constructor; [done|]. by apply Forall_fmap.
  - intros t. rewrite due_at_app. case_bool_decide as Ht.
    + rewrite (due_at_none t (tm_heap m')), (right_id_L [] (++)).
      2:{ apply Forall_forall. intros e He. specialize (Hgt e He). simpl in *. lia. }
      unfold due_at. clear. induction h as [|e h IH]; [done|].
      rewrite fmap_cons, !filter_cons. cbn [fst].
      destruct (decide (te_time e = t)); rewrite ?fmap_cons; cbn [snd]; by rewrite IH.
    + clear -Hle Ht. induction h as [|e h IH]; [done|]. simpl. rewrite filter_cons_False.
      * apply IH. intros x Hx. apply Hle. by right.
      * simpl. specialize (Hle e (list_elem_of_here _ _)). simpl in *. lia.
  - intros t. rewrite due_at_app. case_bool_decide as Ht.
    + apply due_at_none, Forall_forall. intros e He. specialize (Hgt e He). simpl in *. lia.
    + rewrite (due_at_none t h); [done|]. apply Forall_forall. intros e He.
      specialize (Hle e He). simpl in *. lia.
Qed.

(** One step keeps the invariant, consumes at most one sequence number, and acts
    on the pending items as specified. *)
Lemma timer_step_spec op m p xs m' :
  timers_wf m → (tm_seq m + 1 < 2 ^ 64)%N → (∀ t, due_at t (tm_heap m) = p t) →
  timer_step op m = (xs, m') →
  timers_wf m' ∧ (tm_seq m' <= tm_seq m + 1)%N ∧
  (∀ t, due_at t (tm_heap m') = pending_step op p t).
Proof.
  intros Hwf Hmax Hp. destruct op as [t0 x|from]; simpl.
  - intros [= <- <-]. destruct Hwf as [Hs Hseq]. simpl.
    destruct (heap_push_fresh (mkEntry t0 (tm_seq m) x) (tm_heap m) Hs Hseq) as [Hs' Hdue].
    assert (Hw : wrapping_add64 (tm_seq m) 1 = (tm_seq m + 1)%N) by by apply N.mod_small.
    unfold tm_insert. rewrite Hw. simpl. split; [split; simpl; [done|]|split].
    + rewrite heap_push_perm.
      constructor; simpl; [lia|]. eapply Forall_impl; [exact Hseq|]. simpl. lia.
    + lia.
    + intros t. simpl. rewrite Hdue. simpl. by rewrite Hp.
  - intros Hd. destruct (drain_due _ _ _ _ Hwf Hd) as (? & Hsq & _ & _ & Hdue).
    split; [done|]. split; [lia|]. intros t. by rewrite Hdue, Hp.
Qed.

Lemma timer_run_spec ops m p xs m' :
  timers_wf m → (tm_seq m + len ops < 2 ^ 64)%N → (∀ t, due_at t (tm_heap m) = p t) →
  timer_run ops m = (xs, m') →
  timers_wf m' ∧ (∀ t, due_at t (tm_heap m') = foldl (flip pending_step) p ops t).
Proof.
  revert m p xs m'. induction ops as [|op ops IH]; intros m p xs m' Hwf Hmax Hp; simpl.
  { intros [= <- <-]. done. }
  destruct (timer_step op m) as [xs1 m1] eqn:H1. destruct (timer_run ops m1) as [ys m2] eqn:H2.
  intros [= <- <-]. unfold len in *. simpl in Hmax.
  destruct (timer_step_spec op m p xs1 m1) as (Hwf1 & Hs1 & Hp1); [done|lia|done|done|].
  apply (IH m1 (pending_step op p) ys); try done. lia.
Qed.

Lemma timers_wf_new : timers_wf tm_new.
Proof. split; constructor. Qed.

(** C36. The timer queue refines one first-in first-out list of items per instant:
    after any sequence of insertions and drains, a drain up to [from] returns
    the pending items of every instant up to [from], no others, ordered by
    instant and, for one instant, in the order of insertion; the items of later
    instants stay queued in their order. *)
Theorem timer_queue_refines_fifo ops from xs m' :
  (len ops < 2 ^ 64)%N →
  tm_drain_until from (timer_run ops (tm_new (T:=T))).2 = (xs, m') →
  let p := foldl (flip pending_step) (λ _, []) ops in
  StronglySorted (λ a b, a.1 ≤ b.1)%Z xs ∧
  (∀ t, snd <$> filter (λ x, x.1 = t) xs = if bool_decide (t ≤ from)%Z then p t else []) ∧
  (∀ t, due_at t (tm_heap m') = pending_step (TDrain from) p t).
Proof.
  intros Hlen Hd p. destruct (timer_run ops tm_new) as [ys m] eqn:Hr.
  destruct (timer_run_spec ops tm_new (λ _, []) ys m timers_wf_new) as [Hwf Hp]; [done..|].
  destruct (drain_due from m xs m' Hwf Hd) as (_ & _ & Hs & Hx & Hm).
  split; [done|]. split; intros t; [rewrite Hx|rewrite Hm]; by rewrite Hp.
Qed.

End Queue.

(** ** The cache *)

Section CacheProps.
  Context {K V : Type} `{Countable K, HI : !HashIter K (Instant * V),
    HIL : !HashIterLaws K (Instant * V)}.
  Implicit Types (c : TimeBoundCache K V).

(** Operations on a cache. *)
Inductive cache_op : Type :=
| CInsert (key : K) (value : V) (expires : Instant)
| CExpire (instant : Instant).

Definition cache_step (op : cache_op) c : TimeBoundCache K V :=
  match op with
  | CInsert k v t => tc_insert k v t c
  | CExpire now => (tc_expire_until now c).2
  end.

Lemma cache_step_wf op c :
  cache_wf c → cache_wf (cache_step op c) ∧ tc_capacity (cache_step op c) = tc_capacity c.
Proof.
  intros Hc. destruct op as [k v t|now]; simpl.
  - split; [by apply tc_insert_wf|by apply tc_insert_capacity].
  - destruct (tc_expire_until now c) as [n c'] eqn:He.
    by apply tc_expire_until_spec in He as (? & ? & _).
Qed.

(** The cache is bounded for every sequence of insertions and expirations:
    the map never holds more entries than the capacity, which is between one and
    [MAX_DUPLICATE_CACHE_ENTRIES] whatever was asked for, and the expiry queue,
    which keeps a stale announcement for every overwritten entry, never holds
    more than twice the capacity; every entry of the map is announced in it. *)
Theorem cache_bounded cap ops :
  let c := foldl (flip cache_step) (tc_with_capacity (K:=K) (V:=V) cap) ops in
  cache_wf c ∧ tc_capacity c = clamp 1 MAX_DUPLICATE_CACHE_ENTRIES cap.
Proof.
  simpl. set (c0 := tc_with_capacity cap).
  assert (Hwf : cache_wf c0 ∧ tc_capacity c0 = clamp 1 MAX_DUPLICATE_CACHE_ENTRIES cap)
    by (split; [apply tc_with_capacity_wf|done]).
  revert Hwf. generalize c0. clear c0. induction ops as [|op ops IH]; intros c [Hwf Hcap]; [done|].
  simpl. destruct (cache_step_wf op c Hwf). apply IH. split; [done|congruence].
Qed.

(** Inserting a new key into a full cache drops exactly one entry, one that
    expires no later than any entry that stays; the new key is found with its
    value and expiry, and the other entries are untouched. *)
Theorem cache_evicts_earliest k v t c :
  cache_wf c → tc_map c !! k = None → ssize (tc_map c) = tc_capacity c →
  ∃ k0 t0 v0, tc_map c !! k0 = Some (t0, v0) ∧
    tc_map (tc_insert k v t c) = <[k := (t, v)]> (delete k0 (tc_map c)) ∧
    ∀ k1 t1 v1, tc_map c !! k1 = Some (t1, v1) → (t0 ≤ t1)%Z.
Proof.
  intros Hc Hk Hfull.
  destruct (tc_insert_full k v t c Hc Hk Hfull) as (m & _ & -> & _ & Hsub & Hsz & Hord).
  assert (Hd : size (dom (tc_map c) ∖ dom m) = 1%nat).
  { rewrite size_difference by by apply subseteq_dom. rewrite !size_dom. unfold ssize in *. lia. }
  apply size_1_elem_of in Hd as [k0 Hd]. assert (k0 ∈ dom (tc_map c) ∖ dom m) as Hk0 by set_solver.
  apply elem_of_difference in Hk0 as [[[t0 v0] Hk0]%elem_of_dom Hm0%not_elem_of_dom].
  exists k0, t0, v0. assert (m = delete k0 (tc_map c)) as Hm.
  { apply map_eq. intros i. destruct (decide (i = k0)) as [->|Hne].
    { by rewrite lookup_delete_eq. }
    rewrite lookup_delete_ne by done. destruct (m !! i) as [x|] eqn:Hi.
    - symmetry. by eapply lookup_weaken.
    - destruct (tc_map c !! i) as [x|] eqn:Hci; [|done]. exfalso.
      apply elem_of_dom_2 in Hci. apply not_elem_of_dom in Hi. set_solver. }
  split; [done|]. split; [by rewrite Hm|]. intros k1 t1 v1 Hk1.
  destruct (m !! k1) as [[t1' v1']|] eqn:Hmk1.
  - pose proof (lookup_weaken _ _ _ _ Hmk1 Hsub). simplify_eq. by eapply Hord.
  - assert (k1 = k0) as ->; [|simplify_eq; lia].
    destruct (decide (k1 = k0)); [done|]. rewrite Hm, lookup_delete_ne in Hmk1 by done. congruence.
Qed.

(** [expire_until] keeps exactly the entries that expire later than the given
    instant, untouched, and returns how many it removed. *)
Theorem cache_expires_exactly now c n c' :
  cache_wf c → tc_expire_until now c = (n, c') →
  (∀ k, tc_map c' !! k =
        (x ← tc_map c !! k; if bool_decide (now < x.1)%Z then Some x else None)) ∧
  (n + tc_len c' = tc_len c)%N.
Proof. intros Hc He. by destruct (tc_expire_until_spec now c n c' Hc He) as (_ & _ & ? & ?). Qed.

End CacheProps.

(** ** Concrete runs *)

#[local] Existing Instance map_to_list_HashIter.
#[local] Existing Instance map_to_list_HashIterLaws.

Lemma timer_queue_refines_fifo_witness :
  let ops := [TInsert 5 1; TInsert 3 2; TInsert 5 3; TDrain 2; TInsert 3 4; TInsert 9 5]%Z in
  let p := foldl (flip pending_step) (λ _, []) ops in
  tm_drain_until 5 (timer_run ops tm_new).2 =
    ([(3, 2); (3, 4); (5, 1); (5, 3)]%Z, mkTimerMap [mkEntry 9 4 5]%Z 5) ∧
  ∀ t, due_at t [mkEntry 9 4 5]%Z = pending_step (TDrain 5) p t.
Proof.
  intros ops p. split; [reflexivity|].
  exact (proj2 (proj2 (timer_queue_refines_fifo ops 5 _ (mkTimerMap [mkEntry 9 4 5]%Z 5)
    eq_refl eq_refl))).
Defined.

(** A cache of two entries. *)
Definition ex_cache : TimeBoundCache N N :=
  foldl (flip cache_step) (tc_with_capacity 2) [CInsert 1 10 50; CInsert 2 20 40]%N.

Lemma ex_cache_wf : cache_wf ex_cache.
Proof. unfold ex_cache. simpl. by apply tc_insert_wf, tc_insert_wf, tc_with_capacity_wf. Qed.

Lemma cache_bounded_witness :
  let c := foldl (flip cache_step) (tc_with_capacity (K:=N) (V:=N) 0)
             [CInsert 1 10 50; CInsert 2 20 40; CExpire 45]%N in
  cache_wf c ∧ tc_capacity c = 1%N.
Proof. exact (cache_bounded 0 [CInsert 1 10 50; CInsert 2 20 40; CExpire 45]%N). Defined.

Lemma cache_evicts_earliest_witness :
  ∃ k0 t0 v0, tc_map ex_cache !! k0 = Some (t0, v0) ∧
    tc_map (tc_insert 3 30 60 ex_cache)%N = <[3 := (60%Z, 30)]>%N (delete k0 (tc_map ex_cache)) ∧
    ∀ k1 t1 v1, tc_map ex_cache !! k1 = Some (t1, v1) → (t0 ≤ t1)%Z.
Proof.
  apply (cache_evicts_earliest 3%N 30%N 60%Z ex_cache); [exact ex_cache_wf|vm_compute; reflexivity..].
Defined.

Lemma cache_expires_exactly_witness :
  ∃ n c', tc_expire_until 45 ex_cache = (n, c') ∧ n = 1%N ∧
    ∀ k, tc_map c' !! k =
         (x ← tc_map ex_cache !! k; if bool_decide (45 < x.1)%Z then Some x else None).
Proof.
  destruct (tc_expire_until 45 ex_cache) as [n c'] eqn:He. exists n, c'.
  split; [reflexivity|]. split; [vm_compute in He; by injection He as <- _|].
  exact (proj1 (cache_expires_exactly 45 ex_cache n c' ex_cache_wf He)).
Defined.
