(* ===== verification/Plumtree.v ===== *)
(** * The Plumtree broadcast trees
      (protocols/krikos-gossip/src/proto/plumtree.rs)

    The state machine that spreads the messages of one topic: full payloads go
    to the eager peers, announcements to the lazy ones, and a missing payload is
    requested from the peers that announced it. One definition per method. *)
From stdpp Require Import base tactics list gmap sets sorting.
From Stdlib Require Import ZArith Lia.
From S2P Require Import Prelude Proto TimeCache.

Local Open Scope N_scope.

(** ** Third-party code *)

(** [Bytes]: a string of bytes. *)
Abbreviation Bytes := (list N) (only parsing).

(** [MessageId], an array of 32 bytes; only its equality is used. *)
Definition MessageId : Type := list N.

#[global] Instance MessageId_EqDecision : EqDecision MessageId := _.
#[global] Instance MessageId_Countable : Countable MessageId := _.

(** [blake3::hash]. *)
Class Blake3 : Type := blake3_hash : Bytes → MessageId.

(** Sizes the serializer gives: [IHave::POSTCARD_MAX_SIZE], which it derives, and
    the encoded size of an envelope around a [Prune] message. *)
Class Postcard : Type := {
  ihave_max_size : N;
  prune_serialized_size : N;
}.
(** The derived bound of a structure is the sum over its fields, here 32 bytes of
    the identifier and three of a 16-bit number of variable length; the
    envelope has the 32 bytes of the topic and two discriminants of one byte. *)
Class PostcardLaws `{Postcard} : Prop := {
  ihave_max_size_eq : ihave_max_size = 35;
  prune_serialized_size_eq : prune_serialized_size = 34;
}.

(** ** Messages, events and timers *)

(** [Round] is a [u16]. *)
Abbreviation Round := N (only parsing).
Definition round_next (r : Round) : Round := saturating_add16 r 1.

Inductive DeliveryScope : Type :=
| SwarmRound (round : Round)
| DeliveryNeighbors.

Inductive Scope : Type :=
| Swarm
| Neighbors.

Definition is_direct (sc : DeliveryScope) : bool :=
  match sc with
  | DeliveryNeighbors => true
  | SwarmRound r => r =? 0
  end.

Record Gossip : Type := mkGossip {
  g_id : MessageId;
  g_content : Bytes;
  g_scope : DeliveryScope;
}.

Definition gossip_round (g : Gossip) : option Round :=
  match g_scope g with
  | SwarmRound round => Some round
  | DeliveryNeighbors => None
  end.

Definition next_round (g : Gossip) : option Gossip :=
  match g_scope g with
  | DeliveryNeighbors => None
  | SwarmRound round =>
      Some (mkGossip (g_id g) (g_content g) (SwarmRound (round_next round)))
  end.

Section Hash.
  Context `{Blake3}.

Definition from_content (message : Bytes) : MessageId := blake3_hash message.

Definition gossip_validate (g : Gossip) : bool :=
  bool_decide (from_content (g_content g) = g_id g).

End Hash.

Record IHave : Type := mkIHave {
  ih_id : MessageId;
  ih_round : Round;
}.

Record Graft : Type := mkGraft {
  gr_id : option MessageId;
  gr_round : Round;
}.

Inductive Message : Type :=
| MGossip (gossip : Gossip)
| MPrune
| MGraft (graft : Graft)
| MIHave (ihaves : list IHave).

Inductive Timer : Type :=
| SendGraft (id : MessageId)
| DispatchLazyPush
| EvictCache.

Section Events.
  Context {PI : Type}.

Record GossipEvent : Type := mkGossipEvent {
  ge_content : Bytes;
  ge_delivered_from : PI;
  ge_scope : DeliveryScope;
}.

Definition from_message (message : Gossip) (from : PI) : GossipEvent :=
  mkGossipEvent (g_content message) from (g_scope message).

Inductive Event : Type :=
| Received (event : GossipEvent).

Inductive InEvent : Type :=
| RecvMessage (from : PI) (message : Message)
| Broadcast (content : Bytes) (scope : Scope)
| TimerExpired (timer : Timer)
| NeighborUp (peer : PI)
| NeighborDown (peer : PI).

Inductive OutEvent : Type :=
| SendMessage (to : PI) (message : Message)
| ScheduleTimer (delay : Duration) (timer : Timer)
| EmitEvent (event : Event).

End Events.
Arguments GossipEvent : clear implicits.
Arguments Event : clear implicits.
Arguments InEvent : clear implicits.
Arguments OutEvent : clear implicits.

(** ** Configuration and state *)

Record Config : Type := mkConfig {
  graft_timeout_1 : Duration;
  graft_timeout_2 : Duration;
  dispatch_timeout : Duration;
  optimization_threshold : Round;
  message_cache_retention : Duration;
  message_id_retention : Duration;
  cache_evict_interval : Duration;
}.

Definition Config_default : Config := {|
  graft_timeout_1 := 80 * 1000000;
  graft_timeout_2 := 40 * 1000000;
  dispatch_timeout := 5 * 1000000;
  optimization_threshold := 7;
  message_cache_retention := 30 * 1000000000;
  message_id_retention := 90 * 1000000000;
  cache_evict_interval := 1 * 1000000000;
|}.

Record Stats : Type := mkStats {
  payload_messages_received : N;
  control_messages_received : N;
  max_last_delivery_hop : N;
}.
Definition Stats_default : Stats := mkStats 0 0 0.

Record State (PI : Type) `{PeerIdentity PI} : Type := mkState {
  me : PI;
  config : Config;
  eager_push_peers : gset PI;
  lazy_push_peers : gset PI;
  lazy_push_queue : gmap PI (list IHave);
  missing_messages : gmap MessageId (list (PI * Round));
  received_messages : TimeBoundCache MessageId ();
  cache : TimeBoundCache MessageId Gossip;
  graft_timer_scheduled : gset MessageId;
  dispatch_timer_scheduled : bool;
  init : bool;
  stats : Stats;
  max_message_size : N;
}.
Arguments mkState {PI _} _ _ _ _ _ _ _ _ _ _ _ _ _.
Arguments me {PI _} _.
Arguments config {PI _} _.
Arguments eager_push_peers {PI _} _.
Arguments lazy_push_peers {PI _} _.
Arguments lazy_push_queue {PI _} _.
Arguments missing_messages {PI _} _.
Arguments received_messages {PI _} _.
Arguments cache {PI _} _.
Arguments graft_timer_scheduled {PI _} _.
Arguments dispatch_timer_scheduled {PI _} _.
Arguments init {PI _} _.
Arguments stats {PI _} _.
Arguments max_message_size {PI _} _.

(** [iter().min_by(...)] on the rounds: the first of the least elements. *)
Definition min_by_round {PI} (l : list (PI * Round)) : option (PI * Round) :=
  match l with
  | [] => None
  | x :: l => Some (foldl (λ best y, if y.2 <? best.2 then y else best) x l)
  end.

(** [slice.chunks(n)], for [n] other than zero: pieces of [n] elements, the last
    one of what is left. The length bounds the number of pieces. *)
Fixpoint chunks_loop {A} (fuel n : nat) (l : list A) : list (list A) :=
  match fuel, l with
  | O, _ | _, [] => []
  | S fuel, _ => take n l :: chunks_loop fuel n (drop n l)
  end.
Definition chunks {A} (n : N) (l : list A) : list (list A) :=
  chunks_loop (length l) (N.to_nat n) l.

Section Plumtree.
  Context {PI : Type} `{HPI : PeerIdentity PI, HB : Blake3, HP : Postcard,
    HI1 : !HashIter MessageId (Instant * ()), HI2 : !HashIter MessageId (Instant * Gossip)}.

Abbreviation St := (State PI).
Abbreviation Ev := (OutEvent PI).
Abbreviation PM := (M St Ev).

(** Field assignments. *)
Definition set_eager x (s : St) : St :=
  mkState (me s) (config s) x (lazy_push_peers s) (lazy_push_queue s)
    (missing_messages s) (received_messages s) (cache s) (graft_timer_scheduled s)
    (dispatch_timer_scheduled s) (init s) (stats s) (max_message_size s).
Definition set_lazy x (s : St) : St :=
  mkState (me s) (config s) (eager_push_peers s) x (lazy_push_queue s)
    (missing_messages s) (received_messages s) (cache s) (graft_timer_scheduled s)
    (dispatch_timer_scheduled s) (init s) (stats s) (max_message_size s).
Definition set_queue x (s : St) : St :=
  mkState (me s) (config s) (eager_push_peers s) (lazy_push_peers s) x
    (missing_messages s) (received_messages s) (cache s) (graft_timer_scheduled s)
    (dispatch_timer_scheduled s) (init s) (stats s) (max_message_size s).
Definition set_missing x (s : St) : St :=
  mkState (me s) (config s) (eager_push_peers s) (lazy_push_peers s) (lazy_push_queue s)
    x (received_messages s) (cache s) (graft_timer_scheduled s)
    (dispatch_timer_scheduled s) (init s) (stats s) (max_message_size s).
Definition set_received x (s : St) : St :=
  mkState (me s) (config s) (eager_push_peers s) (lazy_push_peers s) (lazy_push_queue s)
    (missing_messages s) x (cache s) (graft_timer_scheduled s)
    (dispatch_timer_scheduled s) (init s) (stats s) (max_message_size s).
Definition set_cache x (s : St) : St :=
  mkState (me s) (config s) (eager_push_peers s) (lazy_push_peers s) (lazy_push_queue s)
    (missing_messages s) (received_messages s) x (graft_timer_scheduled s)
    (dispatch_timer_scheduled s) (init s) (stats s) (max_message_size s).
Definition set_graft_timers x (s : St) : St :=
  mkState (me s) (config s) (eager_push_peers s) (lazy_push_peers s) (lazy_push_queue s)
    (missing_messages s) (received_messages s) (cache s) x
    (dispatch_timer_scheduled s) (init s) (stats s) (max_message_size s).
Definition set_dispatch x (s : St) : St :=
  mkState (me s) (config s) (eager_push_peers s) (lazy_push_peers s) (lazy_push_queue s)
    (missing_messages s) (received_messages s) (cache s) (graft_timer_scheduled s)
    x (init s) (stats s) (max_message_size s).
Definition set_init x (s : St) : St :=
  mkState (me s) (config s) (eager_push_peers s) (lazy_push_peers s) (lazy_push_queue s)
    (missing_messages s) (received_messages s) (cache s) (graft_timer_scheduled s)
    (dispatch_timer_scheduled s) x (stats s) (max_message_size s).
Definition set_stats x (s : St) : St :=
  mkState (me s) (config s) (eager_push_peers s) (lazy_push_peers s) (lazy_push_queue s)
    (missing_messages s) (received_messages s) (cache s) (graft_timer_scheduled s)
    (dispatch_timer_scheduled s) (init s) x (max_message_size s).

(** [State::new]. *)
Definition new (me : PI) (config : Config) (max_message_size : N) : St :=
  mkState me config ∅ ∅ ∅ ∅ (tc_with_capacity MAX_DUPLICATE_CACHE_ENTRIES)
    (tc_with_capacity MAX_CACHED_MESSAGES) ∅ false false Stats_default max_message_size.

(** ** The two sets of peers *)

Definition add_eager (peer : PI) : PM () :=
  modify (λ s, set_lazy (lazy_push_peers s ∖ {[peer]}) s) ;;
  modify (λ s, set_eager ({[peer]} ∪ eager_push_peers s) s).

Definition add_lazy (peer : PI) : PM () :=
  modify (λ s, set_eager (eager_push_peers s ∖ {[peer]}) s) ;;
  modify (λ s, set_lazy ({[peer]} ∪ lazy_push_peers s) s).

(** ** Pushing *)

Definition eager_push (gossip : Gossip) (sender : PI) : PM () :=
  peers ← gets (λ s, filter (λ peer, peer ≠ me s ∧ peer ≠ sender)
                       (btree_iter (eager_push_peers s)));
  for_each peers (λ peer, emit (SendMessage peer (MGossip gossip))).

(** The queue of one peer takes an announcement while it is not full. *)
Definition queue_push (ihave : IHave) (peer : PI) (s : St) : St :=
  let queue := default [] (lazy_push_queue s !! peer) in
  set_queue (<[peer := if len queue <? MAX_LAZY_QUEUE_PER_PEER
                       then queue ++ [ihave] else queue]> (lazy_push_queue s)) s.

Definition lazy_push (gossip : Gossip) (sender : PI) : PM () :=
  match gossip_round gossip with
  | None => mret ()
  | Some round =>
      peers ← gets (λ s, filter (.≠ sender) (btree_iter (lazy_push_peers s)));
      for_each peers (λ peer, modify (queue_push (mkIHave (g_id gossip) round) peer)) ;;
      scheduled ← gets dispatch_timer_scheduled;
      when (negb scheduled)
        (delay ← gets (λ s, dispatch_timeout (config s));
         emit (ScheduleTimer delay DispatchLazyPush) ;;
         modify (set_dispatch true))
  end.

(** ** Handlers *)

Definition on_evict_cache_timer (now : Instant) : PM () :=
  modify (λ s, set_cache (tc_expire_until now (cache s)).2 s) ;;
  modify (λ s, set_received (tc_expire_until now (received_messages s)).2 s) ;;
  delay ← gets (λ s, cache_evict_interval (config s));
  emit (ScheduleTimer delay EvictCache).

(** [pop_first] of a [BTreeMap]: the entry of the least key. *)
Definition btree_pop_first {V} (m : gmap PI V) : option (PI * V * gmap PI V) :=
  match btree_iter (dom m) with
  | [] => None
  | k :: _ => v ← m !! k; Some (k, v, delete k m)
  end.

(** The loop of [on_dispatch_timer] removes an entry at a time; [chunks] panics
    on a chunk length of zero. *)
Fixpoint dispatch_loop (fuel : nat) (chunk_len : N) : PM () :=
  match fuel with
  | O => mret ()
  | S fuel =>
      queue ← gets lazy_push_queue;
      match btree_pop_first queue with
      | None => mret ()
      | Some (peer, list, queue) =>
          modify (set_queue queue) ;;
          if chunk_len =? 0 then panic else
          for_each (chunks chunk_len list) (λ chunk, emit (SendMessage peer (MIHave chunk))) ;;
          dispatch_loop fuel chunk_len
      end
  end.

Definition on_dispatch_timer : PM () :=
  chunk_size ← gets (λ s, wrapping_sub64 (wrapping_sub64 (max_message_size s) 1) 2);
  let chunk_len := chunk_size / ihave_max_size in
  fuel ← gets (λ s, size (lazy_push_queue s));
  dispatch_loop fuel chunk_len ;;
  modify (set_dispatch false).

Definition broadcast (content : Bytes) (scope : Scope) (now : Instant) : PM () :=
  let id := from_content content in
  let scope := match scope with
               | Neighbors => DeliveryNeighbors
               | Swarm => SwarmRound 0
               end in
  let message := mkGossip id content scope in
  me ← gets me;
  match scope with
  | SwarmRound _ =>
      modify (λ s, set_received (tc_insert id ()
                     (now + message_id_retention (config s))%Z (received_messages s)) s) ;;
      modify (λ s, set_cache (tc_insert id message
                     (now + message_cache_retention (config s))%Z (cache s)) s) ;;
      lazy_push message me
  | DeliveryNeighbors => mret ()
  end ;;
  eager_push message me.

Definition optimize_tree (gossip_sender : PI) (message : Gossip)
    (previous_ihaves : list (PI * Round)) : PM () :=
  match gossip_round message with
  | None => panic
  | Some round =>
      match min_by_round previous_ihaves with
      | None => mret ()
      | Some (ihave_peer, ihave_round) =>
          threshold ← gets (λ s, optimization_threshold (config s));
          when ((ihave_round <? round) && (threshold <=? round - ihave_round))
            (eager ← gets eager_push_peers;
             when (negb (bool_decide (ihave_peer ∈ eager)))
               (add_eager ihave_peer ;;
                emit (SendMessage ihave_peer (MGraft (mkGraft None ihave_round)))) ;;
             add_lazy gossip_sender ;;
             emit (SendMessage gossip_sender MPrune))
      end
  end.

(** [if let DeliveryScope::Swarm(prev_round) = message.scope { ... }], the part of
    [on_gossip] for a new message of the swarm. *)
Definition on_new_swarm_gossip (sender : PI) (message : Gossip) (prev_round : Round)
    (now : Instant) : PM () :=
  modify (λ s, set_received (tc_insert (g_id message) ()
                 (now + message_id_retention (config s))%Z (received_messages s)) s) ;;
  match next_round message with
  | None => panic
  | Some message =>
      modify (λ s, set_cache (tc_insert (g_id message) message
                     (now + message_cache_retention (config s))%Z (cache s)) s) ;;
      eager_push message sender ;;
      lazy_push message sender ;;
      modify (λ s, set_graft_timers (graft_timer_scheduled s ∖ {[g_id message]}) s) ;;
      previous_ihaves ← zoom missing_messages set_missing
                          (λ m, (m !! g_id message, delete (g_id message) m));
      match previous_ihaves with
      | Some previous_ihaves => optimize_tree sender message previous_ihaves
      | None => mret ()
      end
  end ;;
  modify (λ s, set_stats (mkStats (payload_messages_received (stats s))
                            (control_messages_received (stats s))
                            (max_last_delivery_hop (stats s) `max` prev_round)) s).

Definition on_gossip (sender : PI) (message : Gossip) (now : Instant) : PM () :=
  if negb (gossip_validate message) then mret () else
  known ← gets (λ s, tc_contains_key (g_id message) (received_messages s));
  if (known : bool) then
    add_lazy sender ;;
    emit (SendMessage sender MPrune)
  else
    match g_scope message with
    | SwarmRound prev_round => on_new_swarm_gossip sender message prev_round now
    | DeliveryNeighbors => mret ()
    end ;;
    emit (EmitEvent (Received (from_message message sender))).

Definition on_prune (sender : PI) : PM () := add_lazy sender.

(** The body of the loop of [on_ihave]. *)
Definition on_ihave_entry (sender : PI) (ihave : IHave) : PM () :=
  received ← gets (λ s, tc_contains_key (ih_id ihave) (received_messages s));
  if (received : bool) then mret () else
  may_track ← gets (λ s, bool_decide (is_Some (missing_messages s !! ih_id ihave))
                         || (ssize (missing_messages s) <? MAX_PENDING_MESSAGES));
  if negb may_track then mret () else
  candidates ← gets (λ s, default [] (missing_messages s !! ih_id ihave));
  modify (λ s, set_missing (<[ih_id ihave := candidates]> (missing_messages s)) s) ;;
  if (MAX_GRAFT_RETRIES <=? len candidates)
     || bool_decide (sender ∈ candidates.*1) then mret () else
  modify (λ s, set_missing (<[ih_id ihave := candidates ++ [(sender, ih_round ihave)]]>
                              (missing_messages s)) s) ;;
  scheduled ← gets (λ s, bool_decide (ih_id ihave ∈ graft_timer_scheduled s));
  when (negb scheduled)
    (modify (λ s, set_graft_timers ({[ih_id ihave]} ∪ graft_timer_scheduled s) s) ;;
     delay ← gets (λ s, graft_timeout_1 (config s));
     emit (ScheduleTimer delay (SendGraft (ih_id ihave)))).

Definition on_ihave (sender : PI) (ihaves : list IHave) : PM () :=
  for_each (truncate MAX_IHAVE_ENTRIES ihaves) (on_ihave_entry sender).

(** [missing_messages.get_mut(&id).and_then(|entries| entries.pop_front())]. *)
Definition pop_candidate (id : MessageId) (m : gmap MessageId (list (PI * Round)))
    : option (PI * Round) * gmap MessageId (list (PI * Round)) :=
  match m !! id with
  | Some (x :: entries) => (Some x, <[id := entries]> m)
  | _ => (None, m)
  end.

Definition on_send_graft_timer (id : MessageId) : PM () :=
  modify (λ s, set_graft_timers (graft_timer_scheduled s ∖ {[id]}) s) ;;
  received ← gets (λ s, tc_contains_key id (received_messages s));
  if (received : bool) then mret () else
  entry ← zoom missing_messages set_missing (pop_candidate id);
  match entry with
  | None => mret ()
  | Some (peer, round) =>
      add_eager peer ;;
      emit (SendMessage peer (MGraft (mkGraft (Some id) round))) ;;
      delay ← gets (λ s, graft_timeout_2 (config s));
      emit (ScheduleTimer delay (SendGraft id))
  end.

Definition on_graft (sender : PI) (details : Graft) : PM () :=
  add_eager sender ;;
  match gr_id details with
  | None => mret ()
  | Some id =>
      message ← gets (λ s, tc_get id (cache s));
      match message with
      | Some message => emit (SendMessage sender (MGossip message))
      | None => mret ()
      end
  end.

Definition on_neighbor_up (peer : PI) : PM () := add_eager peer.

(** The announcements of a peer that left are dropped, and with them the messages
    nobody else announced. *)
Definition forget_peer (peer : PI) (m : gmap MessageId (list (PI * Round)))
    : gmap MessageId (list (PI * Round)) :=
  omap (λ ihaves,
    let ihaves := filter (λ x, x.1 ≠ peer) ihaves in
    if len ihaves =? 0 then None else Some ihaves) m.

Definition on_neighbor_down (peer : PI) : PM () :=
  modify (λ s, set_missing (forget_peer peer (missing_messages s)) s) ;;
  modify (λ s, set_eager (eager_push_peers s ∖ {[peer]}) s) ;;
  modify (λ s, set_lazy (lazy_push_peers s ∖ {[peer]}) s).

(** [matches!(message, Message::Gossip(_))] decides which counter grows. *)
Definition count_message (message : Message) (st : Stats) : Stats :=
  match message with
  | MGossip _ => mkStats (wrapping_add64 (payload_messages_received st) 1)
                   (control_messages_received st) (max_last_delivery_hop st)
  | _ => mkStats (payload_messages_received st)
           (wrapping_add64 (control_messages_received st) 1) (max_last_delivery_hop st)
  end.

Definition handle_message (sender : PI) (message : Message) (now : Instant) : PM () :=
  modify (λ s, set_stats (count_message message (stats s)) s) ;;
  match message with
  | MGossip details => on_gossip sender details now
  | MPrune => on_prune sender
  | MIHave details => on_ihave sender details
  | MGraft details => on_graft sender details
  end.

(** The [match event] of [handle]. *)
Definition handle_event (event : InEvent PI) (now : Instant) : PM () :=
  match event with
  | RecvMessage from message => handle_message from message now
  | Broadcast data scope => broadcast data scope now
  | NeighborUp peer => on_neighbor_up peer
  | NeighborDown peer => on_neighbor_down peer
  | TimerExpired DispatchLazyPush => on_dispatch_timer
  | TimerExpired (SendGraft id) => on_send_graft_timer id
  | TimerExpired EvictCache => on_evict_cache_timer now
  end.

Definition handle (event : InEvent PI) (now : Instant) : PM () :=
  started ← gets init;
  when (negb started) (modify (set_init true) ;; on_evict_cache_timer now) ;;
  handle_event event now.

End Plumtree.
