(* ===== verification/PlumtreeFacts.v ===== *)
(** * The invariant of the Plumtree state machine

    What every state satisfies and every handler preserves, and what every
    message that leaves the node satisfies. *)
From stdpp Require Import base tactics list gmap sets sorting.
From Stdlib Require Import ZArith Lia.
From S2P Require Import Prelude Proto TimeCache Plumtree.

Local Open Scope N_scope.

(** ** Chunks *)

Lemma chunks_loop_spec {A} fuel n (l : list A) :
  (length l <= fuel)%nat → (0 < n)%nat →
  mjoin (chunks_loop fuel n l) = l ∧
  Forall (λ c, 0 < length c <= n)%nat (chunks_loop fuel n l).
Proof.
  revert l. induction fuel as [|fuel IH]; intros l Hf Hn; destruct l as [|x l]; simpl in Hf; try lia.
  1,2: split; [done|constructor].
  destruct (IH (drop n (x :: l))) as [IH1 IH2]; [rewrite length_drop; simpl; lia|done|].
  cbn [chunks_loop]. split.
  - transitivity (take n (x :: l) ++ mjoin (chunks_loop fuel n (drop n (x :: l)))); [done|].
    rewrite IH1. apply take_drop.
  - constructor; [|done]. rewrite length_take. simpl. lia.
Qed.

(** Chunks partition the list into pieces of at most [n] elements. *)
Lemma chunks_spec {A} n (l : list A) :
  n ≠ 0 → mjoin (chunks n l) = l ∧ Forall (λ c, 0 < len c <= n) (chunks n l).
Proof.
  intros Hn. destruct (chunks_loop_spec (length l) (N.to_nat n) l) as [H1 H2]; [lia|lia|].
  split; [done|]. eapply Forall_impl; [exact H2|]. unfold len. simpl. intros c ?. lia.
Qed.

Lemma len_join_elem {A} (ls : list (list A)) c : c ∈ ls → len c <= len (mjoin ls).
Proof.
  unfold len. induction 1 as [c ls|c l ls _ IH].
  - change (mjoin (c :: ls)) with (c ++ mjoin ls). rewrite length_app. lia.
  - change (mjoin (l :: ls)) with (l ++ mjoin ls). rewrite length_app. lia.
Qed.

Section Facts.
  Context {PI : Type} `{HPI : PeerIdentity PI, HB : Blake3, HP : Postcard, HPL : !PostcardLaws,
    HI1 : !HashIter MessageId (Instant * ()), HIL1 : !HashIterLaws MessageId (Instant * ()),
    HI2 : !HashIter MessageId (Instant * Gossip), HIL2 : !HashIterLaws MessageId (Instant * Gossip)}.
  Implicit Types (s : State PI).

(** A payload we may answer a graft with. *)
Definition payload_ok (id : MessageId) (g : Gossip) : Prop :=
  g_id g = id ∧ gossip_validate g = true ∧ is_Some (gossip_round g).

Definition candidates_ok (l : list (PI * Round)) : Prop :=
  len l <= MAX_GRAFT_RETRIES ∧ NoDup l.*1.

Definition queue_ok (l : list IHave) : Prop := 0 < len l <= MAX_LAZY_QUEUE_PER_PEER.

Record plumtree_ok s : Prop := {
  ok_disjoint : eager_push_peers s ## lazy_push_peers s;
  ok_queue : map_Forall (λ _, queue_ok) (lazy_push_queue s);
  ok_dispatch : lazy_push_queue s ≠ ∅ → dispatch_timer_scheduled s = true;
  ok_missing : ssize (missing_messages s) <= MAX_PENDING_MESSAGES;
  ok_candidates : map_Forall (λ _, candidates_ok) (missing_messages s);
  ok_received : cache_wf (received_messages s);
  ok_received_cap : tc_capacity (received_messages s) = MAX_DUPLICATE_CACHE_ENTRIES;
  ok_cache : cache_wf (cache s);
  ok_cache_cap : tc_capacity (cache s) = MAX_CACHED_MESSAGES;
  ok_payload : map_Forall (λ id x, payload_ok id x.2) (tc_map (cache s));
  ok_size : 38 <= max_message_size s < 2 ^ 64;
}.

(** What no handler changes. *)
Definition frame s : PI * Config * N := (me s, config s, max_message_size s).

(** What we send: payloads whose identifier is the hash of their content, and
    announcements that fit a message and that a receiver reads in full. *)
Definition sent_ok (f : PI * Config * N) (e : OutEvent PI) : Prop :=
  match e with
  | SendMessage _ (MGossip g) => gossip_validate g = true
  | SendMessage _ (MIHave l) =>
      0 < len l <= MAX_IHAVE_ENTRIES ∧ 1 + 2 + ihave_max_size * len l <= f.2
  | _ => True
  end.

Abbreviation Keeps m := (respects False plumtree_ok (emitting frame sent_ok) m).

Lemma keeps_emit e : (∀ f, sent_ok f e) → Keeps (emit e).
Proof. intros He. apply respects_emit. intros s _. split; [done|]. by constructor. Qed.

Lemma keeps_modify f :
  (∀ s, frame (f s) = frame s) → (∀ s, plumtree_ok s → plumtree_ok (f s)) → Keeps (modify f).
Proof.
  intros Hf Hok. apply respects_modify. intros s Hs. split; [|by apply Hok].
  split; [done|constructor].
Qed.

Hint Extern 2 (respects _ _ (emitting _ _) (emit _)) =>
  apply keeps_emit; intros ?; (done || exact Logic.I) : respects.

(** ** Pure updates *)

Lemma ok_set_graft_timers x s : plumtree_ok s → plumtree_ok (set_graft_timers x s).
Proof. by intros []. Qed.
Lemma ok_set_init x s : plumtree_ok s → plumtree_ok (set_init x s).
Proof. by intros []. Qed.
Lemma ok_set_stats x s : plumtree_ok s → plumtree_ok (set_stats x s).
Proof. by intros []. Qed.

Lemma ok_add_lazy p s :
  plumtree_ok s → plumtree_ok (set_lazy ({[p]} ∪ lazy_push_peers s)
    (set_eager (eager_push_peers s ∖ {[p]}) s)).
Proof. intros []. split; simpl; try done. set_solver. Qed.

Lemma ok_add_eager p s :
  plumtree_ok s → plumtree_ok (set_eager ({[p]} ∪ eager_push_peers s)
    (set_lazy (lazy_push_peers s ∖ {[p]}) s)).
Proof. intros []. split; simpl; try done. set_solver. Qed.

Lemma ok_received_insert id t s :
  plumtree_ok s → plumtree_ok (set_received (tc_insert id () t (received_messages s)) s).
Proof.
  intros []. split; simpl; try done; [by apply tc_insert_wf|]. by rewrite tc_insert_capacity.
Qed.

Lemma ok_cache_insert id g t s :
  payload_ok id g → plumtree_ok s → plumtree_ok (set_cache (tc_insert id g t (cache s)) s).
Proof.
  intros Hg []. split; simpl; try done; [by apply tc_insert_wf|by rewrite tc_insert_capacity|].
  intros k x Hk. destruct (decide (k = id)) as [->|Hne].
  - rewrite tc_insert_get in Hk by done. by injection Hk as <-.
  - apply tc_insert_other in Hk; [|done..]. by eapply ok_payload0.
Qed.

Lemma ok_expire_cache now s :
  plumtree_ok s → plumtree_ok (set_cache (tc_expire_until now (cache s)).2 s).
Proof.
  intros []. destruct (tc_expire_until now (cache s)) as [n c'] eqn:He.
  destruct (tc_expire_until_spec now (cache s) n c') as (? & ? & Hlook & _); [done..|].
  split; simpl; try done; [congruence|]. intros k x Hk. rewrite Hlook in Hk.
  destruct (tc_map (cache s) !! k) as [y|] eqn:Hy; simpl in Hk; [|done].
  case_bool_decide; [|done]. simplify_eq. by eapply ok_payload0.
Qed.

Lemma ok_expire_received now s :
  plumtree_ok s → plumtree_ok (set_received (tc_expire_until now (received_messages s)).2 s).
Proof.
  intros []. destruct (tc_expire_until now (received_messages s)) as [n c'] eqn:He.
  destruct (tc_expire_until_spec now (received_messages s) n c') as (? & ? & _); [done..|].
  split; simpl; try done. congruence.
Qed.

(** Removing entries of the table of missing messages, or shortening them. *)
Lemma ok_missing_shrink m s :
  plumtree_ok s → ssize m <= ssize (missing_messages s) → map_Forall (λ _, candidates_ok) m →
  plumtree_ok (set_missing m s).
Proof. intros [] Hsz Hm. split; simpl; try done. lia. Qed.

(** ** Handlers *)

Lemma keeps_add_lazy p : Keeps (add_lazy p).
Proof.
  intros s Hs. unfold add_lazy. wp_steps. split; [|exact (ok_add_lazy p s Hs)]. by split; [|constructor].
Qed.

Lemma keeps_add_eager p : Keeps (add_eager p).
Proof.
  intros s Hs. unfold add_eager. wp_steps. split; [|exact (ok_add_eager p s Hs)]. by split; [|constructor].
Qed.
Hint Resolve keeps_add_lazy keeps_add_eager : respects.

Lemma keeps_on_evict_cache_timer now : Keeps (on_evict_cache_timer now).
Proof.
  unfold on_evict_cache_timer. apply respects_bind; [apply _| |intros _].
  { apply keeps_modify; [done|]. intros s. apply ok_expire_cache. }
  apply respects_bind; [apply _| |intros _].
  { apply keeps_modify; [done|]. intros s. apply ok_expire_received. }
  respects_solve.
Qed.

(** [eager_push] sends the payload to each eager peer but us and the sender. *)
Definition eager_targets s (sender : PI) : list PI :=
  filter (λ peer, peer ≠ me s ∧ peer ≠ sender) (btree_iter (eager_push_peers s)).

Lemma eager_push_eq g p s :
  eager_push g p s = Done () s ((λ q, SendMessage q (MGossip g)) <$> eager_targets s p).
Proof. unfold eager_push, mbind, M_bind. simpl. by rewrite for_each_emit. Qed.

Lemma keeps_eager_push g p : gossip_validate g = true → Keeps (eager_push g p).
Proof. intros Hg. unfold eager_push. respects_solve. Qed.

(** [lazy_push] queues an announcement for each lazy peer but the sender, and
    makes sure that the dispatch timer is running. *)
Definition lazy_targets s (sender : PI) : list PI :=
  filter (.≠ sender) (btree_iter (lazy_push_peers s)).

Definition announce (ihave : IHave) (peers : list PI) s : State PI :=
  foldl (flip (queue_push ihave)) s peers.

Lemma announce_frame ih peers s : announce ih peers s = set_queue (lazy_push_queue (announce ih peers s)) s.
Proof.
  unfold announce. revert s. induction peers as [|p peers IH]; intros s; simpl; [by destruct s|].
  rewrite IH at 1. done.
Qed.

Lemma lazy_push_eq g p r s :
  gossip_round g = Some r →
  lazy_push g p s =
    Done () (set_dispatch true (announce (mkIHave (g_id g) r) (lazy_targets s p) s))
      (if dispatch_timer_scheduled s then []
       else [ScheduleTimer (dispatch_timeout (config s)) DispatchLazyPush]).
Proof.
  intros Hr. unfold lazy_push. rewrite Hr. unfold mbind, M_bind. simpl.
  rewrite for_each_modify. simpl. unfold lazy_targets.
  change (foldl _ s ?l) with (announce (mkIHave (g_id g) r) l s).
  set (l := filter _ _). rewrite (announce_frame _ l s). simpl.
  destruct (dispatch_timer_scheduled s) eqn:Hd; simpl; [|done].
  unfold set_dispatch, set_queue. simpl. by rewrite Hd.
Qed.

Lemma lazy_push_none g p s : gossip_round g = None → lazy_push g p s = Done () s [].
Proof. intros Hr. unfold lazy_push. by rewrite Hr. Qed.

(** An announcement at the end of a queue that is not full. *)
Definition enqueue (ih : IHave) (q : option (list IHave)) : list IHave :=
  if len (default [] q) <? MAX_LAZY_QUEUE_PER_PEER then default [] q ++ [ih] else default [] q.

Lemma announce_lookup ih peers s q :
  NoDup peers →
  lazy_push_queue (announce ih peers s) !! q =
    if bool_decide (q ∈ peers) then Some (enqueue ih (lazy_push_queue s !! q))
    else lazy_push_queue s !! q.
Proof.
  unfold announce. intros Hnd. revert s. induction Hnd as [|p peers Hp Hnd IH]; intros s.
  { by rewrite bool_decide_false by by intros ?%elem_of_nil. }
  cbn [foldl]. rewrite IH. unfold flip, queue_push. cbn [set_queue lazy_push_queue].
  destruct (decide (q = p)) as [->|Hne].
  - rewrite (bool_decide_false (p ∈ peers)), (bool_decide_true (p ∈ p :: peers)) by set_solver.
    by rewrite lookup_insert_eq.
  - rewrite lookup_insert_ne by done. repeat case_bool_decide; set_solver.
Qed.

Lemma lazy_targets_spec s p q :
  q ∈ lazy_targets s p ↔ q ∈ lazy_push_peers s ∧ q ≠ p.
Proof. unfold lazy_targets. rewrite list_elem_of_filter, elem_of_btree_iter. naive_solver. Qed.

Lemma eager_targets_spec s p q :
  q ∈ eager_targets s p ↔ q ∈ eager_push_peers s ∧ q ≠ me s ∧ q ≠ p.
Proof. unfold eager_targets. rewrite list_elem_of_filter, elem_of_btree_iter. naive_solver. Qed.

(** What a push leaves in the queues, when [s'] had the queues and lazy peers of
    [s]. *)
Lemma announce_targets_lookup ih s s' p q :
  lazy_push_queue s' = lazy_push_queue s → lazy_push_peers s' = lazy_push_peers s →
  lazy_push_queue (announce ih (lazy_targets s' p) s') !! q =
    if bool_decide (q ∈ lazy_push_peers s ∧ q ≠ p) then Some (enqueue ih (lazy_push_queue s !! q))
    else lazy_push_queue s !! q.
Proof.
  intros Hq Hl. rewrite announce_lookup, Hq.
  - pose proof (lazy_targets_spec s' p q) as Ht. rewrite Hl in Ht.
    repeat case_bool_decide; tauto.
  - apply NoDup_filter, NoDup_btree_iter.
Qed.

Lemma announce_queue_ok ih peers s :
  map_Forall (λ _, queue_ok) (lazy_push_queue s) →
  map_Forall (λ _, queue_ok) (lazy_push_queue (announce ih peers s)).
Proof.
  unfold announce. revert s. induction peers as [|p peers IH]; intros s Hs; simpl; [done|].
  apply IH. simpl. apply map_Forall_insert_2; [|done].
  assert (Hp : len (default [] (lazy_push_queue s !! p)) <= MAX_LAZY_QUEUE_PER_PEER).
  { destruct (lazy_push_queue s !! p) as [l|] eqn:Hl; simpl; [|done]. by apply (Hs p l). }
  unfold queue_ok in *. destruct (len _ <? MAX_LAZY_QUEUE_PER_PEER) eqn:Hlt; bool_hyps.
  - unfold len in *. rewrite length_app. simpl. lia.
  - unfold MAX_LAZY_QUEUE_PER_PEER in *. lia.
Qed.

Lemma keeps_lazy_push g p : Keeps (lazy_push g p).
Proof.
  intros s Hs. unfold wp. destruct (gossip_round g) as [r|] eqn:Hr.
  - rewrite (lazy_push_eq g p r s Hr), announce_frame.
    pose proof (announce_queue_ok (mkIHave (g_id g) r) (lazy_targets s p) s (ok_queue s Hs)).
    split; [split; [done|]|].
    + destruct (dispatch_timer_scheduled s); repeat constructor.
    + destruct Hs. split; simpl; done.
  - rewrite lazy_push_none by done. split; [|done]. split; [done|constructor].
Qed.

(** ** Dispatching the announcements *)

(** The messages that empty the queue: for each peer in order, its announcements
    in chunks. *)
Definition dispatched (n : N) (q : gmap PI (list IHave)) : list (OutEvent PI) :=
  mjoin ((λ p, (λ c, SendMessage p (MIHave c)) <$> chunks n (default [] (q !! p)))
         <$> btree_iter (dom q)).

Lemma dispatch_loop_eq fuel n s :
  n ≠ 0 → size (lazy_push_queue s) = fuel →
  dispatch_loop fuel n s = Done () (set_queue ∅ s) (dispatched n (lazy_push_queue s)).
Proof.
  intros Hn. unfold dispatched. revert s. induction fuel as [|fuel IH]; intros s Hsz; simpl.
  { apply map_size_empty_iff in Hsz. rewrite Hsz, dom_empty_L. destruct s; simpl in *. by subst. }
  unfold mbind, M_bind, gets, btree_pop_first.
  destruct (btree_iter (dom (lazy_push_queue s))) as [|k l] eqn:Hit.
  { exfalso. assert (dom (lazy_push_queue s) = ∅) as He.
    { apply set_eq. intros x. rewrite <-elem_of_btree_iter, Hit. set_solver. }
    apply dom_empty_inv_L in He. by rewrite He in Hsz. }
  assert (k ∈ dom (lazy_push_queue s)) as [v Hv]%elem_of_dom.
  { rewrite <-elem_of_btree_iter, Hit. apply list_elem_of_here. }
  rewrite Hv. simpl. apply N.eqb_neq in Hn as Hn'. rewrite Hn'.
  rewrite for_each_emit, IH; simpl.
  2:{ rewrite map_size_delete, Hv. lia. }
  rewrite dom_delete_L, (btree_iter_tail _ _ _ Hit). simpl. rewrite Hv. simpl. do 2 f_equal.
  f_equal. apply list_fmap_ext. intros i p Hp.
  rewrite lookup_delete_ne; [done|]. intros ->.
  pose proof (NoDup_btree_iter (dom (lazy_push_queue s))) as Hnd. rewrite Hit in Hnd.
  inversion_clear Hnd as [|?? Hkl _]. by apply list_elem_of_lookup_2 in Hp.
Qed.

(** The number of announcements per message. *)
Definition chunk_len s : N :=
  wrapping_sub64 (wrapping_sub64 (max_message_size s) 1) 2 / ihave_max_size.

Lemma chunk_len_bounds s :
  38 <= max_message_size s < 2 ^ 64 →
  chunk_len s ≠ 0 ∧ 1 + 2 + ihave_max_size * chunk_len s <= max_message_size s.
Proof.
  intros Hsz. unfold chunk_len. rewrite ihave_max_size_eq.
  rewrite (wrapping_sub64_small _ 1), (wrapping_sub64_small _ 2) by lia.
  pose proof (N.Div0.mul_div_le (max_message_size s - 1 - 2) 35).
  pose proof (N.Div0.div_le_mono 35 (max_message_size s - 1 - 2) 35).
  change (35 / 35) with 1 in *. lia.
Qed.

Lemma on_dispatch_timer_eq s :
  38 <= max_message_size s < 2 ^ 64 →
  on_dispatch_timer s =
    Done () (set_dispatch false (set_queue ∅ s)) (dispatched (chunk_len s) (lazy_push_queue s)).
Proof.
  intros Hsz. unfold on_dispatch_timer. unfold mbind, M_bind, gets. simpl.
  change (_ / ihave_max_size) with (chunk_len s).
  rewrite dispatch_loop_eq; [|by apply chunk_len_bounds|done]. simpl. by rewrite (right_id_L [] (++)).
Qed.

Lemma dispatched_sent_ok s :
  plumtree_ok s → Forall (sent_ok (frame s)) (dispatched (chunk_len s) (lazy_push_queue s)).
Proof.
  intros Hs. destruct (chunk_len_bounds s (ok_size s Hs)) as [Hn Hle].
  unfold dispatched. apply Forall_join, Forall_fmap, Forall_forall. intros p Hp. simpl.
  rewrite elem_of_btree_iter in Hp. apply elem_of_dom in Hp as [q Hq]. rewrite Hq. simpl.
  destruct (chunks_spec (chunk_len s) q Hn) as [Hj Hc].
  apply Forall_fmap, Forall_forall. intros c Hin. rewrite Forall_forall in Hc.
  specialize (Hc c Hin). simpl. pose proof (len_join_elem _ _ Hin) as Hcq. rewrite Hj in Hcq.
  pose proof (ok_queue s Hs p q Hq) as [_ Hmax]. simpl in Hmax.
  unfold MAX_LAZY_QUEUE_PER_PEER, MAX_IHAVE_ENTRIES in *. split; [lia|].
  etrans; [|exact Hle]. apply N.add_le_mono_l, N.mul_le_mono_l. lia.
Qed.

Lemma keeps_on_dispatch_timer : Keeps on_dispatch_timer.
Proof.
  intros s Hs. unfold wp. rewrite on_dispatch_timer_eq by by destruct Hs.
  split; [split; [done|by apply dispatched_sent_ok]|]. destruct Hs. split; simpl; done.
Qed.

(** ** Payloads *)

Lemma keeps_broadcast content scope now : Keeps (broadcast content scope now).
Proof.
  assert (Hv : ∀ sc, gossip_validate (mkGossip (from_content content) content sc) = true).
  { intros sc. by apply bool_decide_eq_true. }
  unfold broadcast. apply respects_bind; [apply _|apply respects_gets; apply _|intros me0].
  apply respects_bind; [apply _| |intros _; by apply keeps_eager_push].
  destruct scope; [|apply respects_ret; apply _].
  apply respects_bind; [apply _| |intros _].
  { apply keeps_modify; [done|]. intros s. apply ok_received_insert. }
  apply respects_bind; [apply _| |intros _; apply keeps_lazy_push].
  apply keeps_modify; [done|]. intros s. apply ok_cache_insert.
  split; [done|]. split; [apply Hv|by eexists].
Qed.

Lemma keeps_optimize_tree p g l : is_Some (gossip_round g) → Keeps (optimize_tree p g l).
Proof.
  intros [r Hr]. unfold optimize_tree. rewrite Hr. respects_solve.
Qed.

Lemma next_round_spec g r :
  g_scope g = SwarmRound r →
  next_round g = Some (mkGossip (g_id g) (g_content g) (SwarmRound (round_next r))).
Proof. intros Hr. unfold next_round. by rewrite Hr. Qed.

Lemma ok_delete_missing id s :
  plumtree_ok s → plumtree_ok (set_missing (delete id (missing_messages s)) s).
Proof.
  intros Hs. apply ok_missing_shrink; [done| |].
  - apply ssize_delete_le.
  - apply map_Forall_delete, Hs.
Qed.

Lemma keeps_on_new_swarm_gossip p g r now :
  gossip_validate g = true → g_scope g = SwarmRound r → Keeps (on_new_swarm_gossip p g r now).
Proof.
  intros Hv Hr. unfold on_new_swarm_gossip. rewrite (next_round_spec g r Hr).
  set (g' := mkGossip _ _ _). assert (Hv' : gossip_validate g' = true) by done.
  apply respects_bind; [apply _| |intros _].
  { apply keeps_modify; [done|]. intros s. apply ok_received_insert. }
  apply respects_bind; [apply _| |intros _].
  2:{ apply keeps_modify; [done|]. intros s. apply ok_set_stats. }
  apply respects_bind; [apply _| |intros _].
  { apply keeps_modify; [done|]. intros s. apply ok_cache_insert. by split; [|split; [|eexists]]. }
  apply respects_bind; [apply _|by apply keeps_eager_push|intros _].
  apply respects_bind; [apply _|apply keeps_lazy_push|intros _].
  apply respects_bind; [apply _| |intros _].
  { apply keeps_modify; [done|]. intros s. apply ok_set_graft_timers. }
  apply respects_bind; [apply _| |intros [l|]].
  - apply respects_zoom. intros s Hs. split; [|by apply ok_delete_missing].
    split; [done|constructor].
  - apply keeps_optimize_tree. by eexists.
  - apply respects_ret, _.
Qed.

Lemma keeps_on_gossip p g now : Keeps (on_gossip p g now).
Proof.
  unfold on_gossip. destruct (gossip_validate g) eqn:Hv; simpl; [|apply respects_ret, _].
  apply respects_bind; [apply _|apply respects_gets; apply _|intros [|]].
  { respects_solve. }
  apply respects_bind; [apply _| |intros _; respects_solve].
  destruct (g_scope g) as [r|] eqn:Hr; [by apply keeps_on_new_swarm_gossip|apply respects_ret, _].
Qed.

(** ** Announcements *)

Lemma ok_missing_set id l s :
  candidates_ok l →
  is_Some (missing_messages s !! id) ∨ ssize (missing_messages s) < MAX_PENDING_MESSAGES →
  plumtree_ok s → plumtree_ok (set_missing (<[id := l]> (missing_messages s)) s).
Proof.
  intros Hl Hroom []. split; simpl; try done; [|by apply map_Forall_insert_2].
  unfold ssize in *. rewrite map_size_insert. destruct Hroom as [[x ->]|?]; [done|].
  destruct (_ !! _); unfold Datatypes.id; lia.
Qed.

Lemma keeps_on_ihave_entry p ih : Keeps (on_ihave_entry p ih).
Proof.
  intros s Hs. unfold on_ihave_entry. do 2 wp_step.
  destruct (tc_contains_key _ _). { wp_step. split; [|done]. by split; [|constructor]. }
  do 2 wp_step. destruct (negb _) eqn:Hroom. { wp_step. split; [|done]. by split; [|constructor]. }
  apply negb_false_iff, orb_true_iff in Hroom. rewrite bool_decide_eq_true, N.ltb_lt in Hroom.
  do 2 wp_step. set (l := default [] (missing_messages s !! ih_id ih)).
  assert (Hl : candidates_ok l).
  { subst l. destruct (missing_messages s !! ih_id ih) as [l|] eqn:Hl; simpl.
    - exact (ok_candidates s Hs _ _ Hl).
    - split; [done|constructor]. }
  do 2 wp_step. pose proof (ok_missing_set (ih_id ih) l s Hl Hroom Hs) as Hs1.
  destruct (_ || _) eqn:Hc. { wp_step. split; [|done]. by split; [|constructor]. }
  bool_hyps. assert (Hl2 : candidates_ok (l ++ [(p, ih_round ih)])).
  { destruct Hl as [_ Hnd]. split; [unfold len in *; rewrite length_app; simpl; unfold MAX_GRAFT_RETRIES in *; lia|].
    rewrite fmap_app. apply NoDup_app. split; [done|]. split; [|apply NoDup_singleton].
    intros x Hx ->%list_elem_of_singleton. done. }
  do 2 wp_step. set (s1 := set_missing _ s) in *.
  assert (plumtree_ok (set_missing (<[ih_id ih := l ++ [(p, ih_round ih)]]>
            (missing_messages s1)) s1)) as Hs2.
  { apply ok_missing_set; [done| |done]. left. simpl. rewrite lookup_insert_eq. by eexists. }
  match goal with |- wp _ ?m _ _ => assert (Keeps m) as Hm end.
  { respects_step; [respects_step|]. respects_step. respects_step; [|respects_solve].
    apply keeps_modify; [done|]. intros s'. apply ok_set_graft_timers. }
  exact (Hm _ Hs2).
Qed.

Lemma keeps_on_ihave p l : Keeps (on_ihave p l).
Proof. apply respects_for_each; [apply _|]. intros. apply keeps_on_ihave_entry. Qed.

Lemma candidates_ok_tail x l : candidates_ok (x :: l) → candidates_ok l.
Proof.
  intros [Hl Hnd]. inversion_clear Hnd. split; [|done]. unfold len in *. simpl in Hl. lia.
Qed.

Lemma ok_pop_candidate id s :
  plumtree_ok s → plumtree_ok (set_missing (pop_candidate id (missing_messages s)).2 s).
Proof.
  intros Hs. unfold pop_candidate. destruct (missing_messages s !! id) as [[|x l]|] eqn:Hl;
    simpl; [by destruct s| |by destruct s].
  apply ok_missing_set; [|by left; rewrite Hl|done].
  exact (candidates_ok_tail x l (ok_candidates s Hs _ _ Hl)).
Qed.

Lemma keeps_on_send_graft_timer id : Keeps (on_send_graft_timer id).
Proof.
  unfold on_send_graft_timer. respects_step.
  { apply keeps_modify; [done|]. intros s. apply ok_set_graft_timers. }
  respects_step; [respects_step|]. respects_step; [respects_step|].
  respects_step; [|respects_solve].
  apply respects_zoom. intros s Hs. split; [|by apply ok_pop_candidate].
  split; [done|constructor].
Qed.

Lemma keeps_on_graft p d : Keeps (on_graft p d).
Proof.
  unfold on_graft. apply respects_bind; [apply _|apply keeps_add_eager|intros _].
  destruct (gr_id d) as [id|]; [|apply respects_ret, _].
  intros s Hs. do 2 wp_step. unfold tc_get. destruct (tc_map (cache s) !! id) as [[t g]|] eqn:Hg; simpl.
  - wp_step. split; [|done]. split; [done|]. constructor; [|constructor].
    by destruct (ok_payload s Hs _ _ Hg) as (_ & ? & _).
  - wp_step. split; [|done]. by split; [|constructor].
Qed.

Lemma candidates_ok_filter p l : candidates_ok l → candidates_ok (filter (λ x, x.1 ≠ p) l).
Proof.
  intros [Hl Hnd]. assert (Hsub : filter (λ x : PI * Round, x.1 ≠ p) l `sublist_of` l)
    by apply sublist_filter. split.
  - unfold len in *. apply sublist_length in Hsub. lia.
  - eapply sublist_NoDup; [exact Hnd|]. by apply fmap_sublist.
Qed.

Lemma ok_forget_peer p s :
  plumtree_ok s → plumtree_ok (set_missing (forget_peer p (missing_messages s)) s).
Proof.
  intros Hs. apply ok_missing_shrink; [done| |].
  - unfold ssize, forget_peer. rewrite <-!size_dom. rewrite <-N.compare_le_iff, <-Nat2N.inj_compare.
    apply Nat.compare_le_iff, subseteq_size, dom_omap_subseteq.
  - intros id l. unfold forget_peer. rewrite lookup_omap.
    destruct (missing_messages s !! id) as [l0|] eqn:Hl; simpl; [|done].
    destruct (_ =? 0); [done|]. intros [= <-]. apply candidates_ok_filter.
    exact (ok_candidates s Hs _ _ Hl).
Qed.

Lemma keeps_on_neighbor_down p : Keeps (on_neighbor_down p).
Proof.
  intros s Hs. unfold on_neighbor_down. wp_steps. split; [split; [done|constructor]|].
  apply (ok_forget_peer p) in Hs as []. split; simpl in *; try done. set_solver.
Qed.

(** ** Announcements sent to one peer *)

Definition sent_ihaves (p : PI) (es : list (OutEvent PI)) : list IHave :=
  mjoin (omap (λ e, match e with
                    | SendMessage q (MIHave l) => if decide (q = p) then Some l else None
                    | _ => None
                    end) es).

Lemma sent_ihaves_app p es1 es2 : sent_ihaves p (es1 ++ es2) = sent_ihaves p es1 ++ sent_ihaves p es2.
Proof. unfold sent_ihaves. by rewrite omap_app, join_app. Qed.

Lemma sent_ihaves_chunks p q (ls : list (list IHave)) :
  sent_ihaves p ((λ c, SendMessage q (MIHave c)) <$> ls) = if decide (q = p) then mjoin ls else [].
Proof.
  unfold sent_ihaves. induction ls as [|l ls IH]; simpl; [by destruct (decide _)|].
  destruct (decide (q = p)); [|done]. simpl. f_equal. exact IH.
Qed.

(** Every queued announcement is dispatched once, in order, to its peer. *)
Lemma sent_ihaves_dispatched p n q :
  n ≠ 0 → sent_ihaves p (dispatched n q) = default [] (q !! p).
Proof.
  intros Hn. unfold dispatched. assert (Hl : ∀ l, NoDup l →
    sent_ihaves p (mjoin ((λ p, (λ c, SendMessage p (MIHave c)) <$> chunks n (default [] (q !! p))) <$> l))
    = if bool_decide (p ∈ l) then default [] (q !! p) else []).
  { induction 1 as [|x l Hx _ IH].
    { by rewrite bool_decide_false by by intros ?%elem_of_nil. }
    rewrite fmap_cons. change (mjoin (?a :: ?b)) with (a ++ mjoin b).
    rewrite sent_ihaves_app, IH, sent_ihaves_chunks.
    destruct (decide (x = p)) as [->|Hne].
    - rewrite (bool_decide_false (p ∈ l)), (bool_decide_true (p ∈ p :: l)) by set_solver.
      rewrite (right_id_L [] (++)). by apply chunks_spec.
    - repeat case_bool_decide; set_solver. }
  rewrite Hl by apply NoDup_btree_iter. case_bool_decide as Hp; [done|].
  rewrite elem_of_btree_iter in Hp. apply not_elem_of_dom in Hp. by rewrite Hp.
Qed.

(** ** Trying the candidates *)

Lemma on_send_graft_timer_cons id p r l s :
  tc_contains_key id (received_messages s) = false → missing_messages s !! id = Some ((p, r) :: l) →
  ∃ s', on_send_graft_timer id s = Done () s'
      [SendMessage p (MGraft (mkGraft (Some id) r));
       ScheduleTimer (graft_timeout_2 (config s)) (SendGraft id)] ∧
    received_messages s' = received_messages s ∧ config s' = config s ∧
    missing_messages s' = <[id := l]> (missing_messages s) ∧
    eager_push_peers s' = {[p]} ∪ eager_push_peers s ∧
    graft_timer_scheduled s' = graft_timer_scheduled s ∖ {[id]}.
Proof.
  intros Hr Hm. unfold on_send_graft_timer, mbind, M_bind, modify, gets, zoom. simpl.
  rewrite Hr. unfold pop_candidate. simpl. rewrite Hm. simpl. by eexists.
Qed.

Lemma on_send_graft_timer_nil id s :
  tc_contains_key id (received_messages s) = false → missing_messages s !! id = Some [] →
  ∃ s', on_send_graft_timer id s = Done () s' [] ∧
    missing_messages s' = missing_messages s ∧ eager_push_peers s' = eager_push_peers s.
Proof.
  intros Hr Hm. unfold on_send_graft_timer, mbind, M_bind, modify, gets, zoom. simpl.
  rewrite Hr. unfold pop_candidate. simpl. rewrite Hm. simpl. by eexists.
Qed.

(** ** The best announcement *)

Lemma min_by_round_spec (l : list (PI * Round)) x :
  min_by_round l = Some x → x ∈ l ∧ ∀ y, y ∈ l → x.2 <= y.2.
Proof.
  destruct l as [|a l]; [done|]. simpl. intros [= <-]. revert a.
  induction l as [|b l IH]; intros a; simpl.
  { split; [apply list_elem_of_here|]. intros y ->%list_elem_of_singleton. done. }
  destruct (IH (if b.2 <? a.2 then b else a)) as [Hin Hle].
  set (x := foldl _ _ _) in *. split.
  - destruct (b.2 <? a.2); set_solver.
  - assert (x.2 <= (if b.2 <? a.2 then b else a).2) as Hx by (apply Hle, list_elem_of_here).
    destruct (b.2 <? a.2) eqn:Hba; bool_hyps; intros y [-> |[-> |Hy]%elem_of_cons]%elem_of_cons;
      try lia; apply Hle; by right.
Qed.

(** ** The whole state machine *)

Hint Resolve keeps_on_evict_cache_timer keeps_on_dispatch_timer keeps_on_gossip keeps_on_ihave
  keeps_on_send_graft_timer keeps_on_graft keeps_on_neighbor_down keeps_broadcast : respects.

Lemma keeps_handle_message p m now : Keeps (handle_message p m now).
Proof.
  unfold handle_message, on_prune. respects_step; [|respects_solve].
  apply keeps_modify; [done|]. intros s. apply ok_set_stats.
Qed.
Hint Resolve keeps_handle_message : respects.

Lemma keeps_handle ev now : Keeps (handle ev now).
Proof.
  unfold handle, handle_event, on_neighbor_up. respects_step; [respects_step|].
  respects_step; [|respects_solve]. respects_step. respects_step; [|respects_solve].
  apply keeps_modify; [done|]. intros s. apply ok_set_init.
Qed.

(** Feeding a sequence of events, each at its time. *)
Definition run (evs : list (InEvent PI * Instant)) : M (State PI) (OutEvent PI) () :=
  for_each evs (λ x, handle x.1 x.2).

Lemma keeps_run evs : Keeps (run evs).
Proof. apply respects_for_each; [apply _|]. intros. apply keeps_handle. Qed.

Lemma new_ok (m : PI) cfg sz : 38 <= sz < 2 ^ 64 → plumtree_ok (new m cfg sz).
Proof.
  intros Hsz. split; simpl; try done; try apply tc_with_capacity_wf.
Qed.

End Facts.
