(* ===== verification/PlumtreeProps.v ===== *)
(** * Delivery in the Plumtree protocol

    A message whose identifier is remembered is not delivered again: the parts
    of the handlers that leave the memory alone, and what the others do to it. *)
From stdpp Require Import base tactics list gmap sets sorting.
From Stdlib Require Import ZArith Lia.
From S2P Require Import Prelude Proto TimeCache Plumtree PlumtreeFacts.

Local Open Scope N_scope.

Section Delivery.
  Context {PI : Type} `{HPI : PeerIdentity PI, HB : Blake3, HP : Postcard, HPL : !PostcardLaws,
    HI1 : !HashIter MessageId (Instant * ()), HIL1 : !HashIterLaws MessageId (Instant * ()),
    HI2 : !HashIter MessageId (Instant * Gossip), HIL2 : !HashIterLaws MessageId (Instant * Gossip)}.
  Implicit Types (s : State PI).

(** A delivery of the message with a given identifier to the application. *)
Definition delivers (id : MessageId) (e : OutEvent PI) : Prop :=
  match e with
  | EmitEvent (Received ge) => from_content (ge_content ge) = id
  | _ => False
  end.

(** The memory of received identifiers holds [id] until [t], and [n] entries at
    most. *)
Record remembers (id : MessageId) (t : Instant) (n : N) (c : TimeBoundCache MessageId ()) : Prop := {
  rm_wf : cache_wf c;
  rm_capacity : tc_capacity c = MAX_DUPLICATE_CACHE_ENTRIES;
  rm_holds : ∃ t', tc_map c !! id = Some (t', ()) ∧ (t ≤ t')%Z;
  rm_size : tc_len c <= n;
}.

Lemma remembers_expire id t n now c :
  (now < t)%Z → remembers id t n c → remembers id t n (tc_expire_until now c).2.
Proof.
  intros Hnow [Hwf Hcap (t' & Ht & Hle) Hsz].
  destruct (tc_expire_until now c) as [k c'] eqn:He.
  apply tc_expire_until_spec in He as (? & ? & Hlook & Hn); [|done].
  split; simpl; [done|congruence| |unfold tc_len in *; lia].
  exists t'. split; [|done]. rewrite Hlook, Ht. simpl. rewrite bool_decide_true; [done|lia].
Qed.

Lemma remembers_insert id t n k t2 c :
  (t ≤ t2)%Z → n < MAX_DUPLICATE_CACHE_ENTRIES →
  remembers id t n c → remembers id t (n + 1) (tc_insert k () t2 c).
Proof.
  intros Ht2 Hn [Hwf Hcap (t' & Ht & Hle) Hsz].
  destruct (tc_insert_room k () t2 c Hwf) as (Hwf' & Hmap & Hcap').
  { right. unfold tc_len in *. lia. }
  split; [done|congruence| |].
  - rewrite Hmap. destruct (decide (k = id)) as [->|Hne].
    + exists t2. by rewrite lookup_insert_eq.
    + exists t'. by rewrite lookup_insert_ne.
  - unfold tc_len in *. rewrite Hmap. etrans; [apply ssize_insert_le|]. lia.
Qed.

Lemma remembers_mono id t n n' c : n <= n' → remembers id t n c → remembers id t n' c.
Proof. intros Hn []. split; try done. lia. Qed.

(** ** Computations that neither deliver nor touch the memory *)

Definition memory s : TimeBoundCache MessageId () * Config := (received_messages s, config s).

Abbreviation Calm m :=
  (respects (S:=State PI) True (λ _, True) (emitting memory (λ _ e, ∀ id, ¬ delivers id e)) m).

Lemma calm_emit e : (∀ id, ¬ delivers id e) → Calm (emit e).
Proof. intros He. apply respects_emit. intros s _. split; [done|]. by constructor. Qed.

Lemma calm_modify f : (∀ s, memory (f s) = memory s) → Calm (modify f).
Proof. intros Hf. apply respects_modify. intros s _. split; [|done]. split; [done|constructor]. Qed.

Lemma calm_zoom {A F} (get : State PI → F) set (op : F → A * F) :
  (∀ x s, memory (set x s) = memory s) → Calm (zoom get set op).
Proof. intros Hf. apply respects_zoom. intros s _. split; [|done]. split; [done|constructor]. Qed.

Hint Extern 1 (respects _ _ (emitting _ _) (emit _)) =>
  apply calm_emit; by intros ? [] : respects.
Hint Extern 1 (respects _ _ (emitting _ _) (modify _)) => by apply calm_modify : respects.
Hint Extern 1 (respects _ _ (emitting _ _) (zoom _ _ _)) => by apply calm_zoom : respects.
Hint Extern 1 (respects _ _ (emitting _ _) panic) => by intros ?? : respects.

Lemma calm_add_eager p : Calm (add_eager p).
Proof. unfold add_eager. respects_solve. Qed.
Lemma calm_add_lazy p : Calm (add_lazy p).
Proof. unfold add_lazy. respects_solve. Qed.
Lemma calm_eager_push g p : Calm (eager_push g p).
Proof. unfold eager_push. respects_solve. Qed.
Lemma calm_lazy_push g p : Calm (lazy_push g p).
Proof. unfold lazy_push. respects_solve. Qed.
Hint Resolve calm_add_eager calm_add_lazy calm_eager_push calm_lazy_push : respects.

Lemma calm_optimize_tree p g l : Calm (optimize_tree p g l).
Proof. unfold optimize_tree. respects_solve. Qed.
Hint Resolve calm_optimize_tree : respects.

Lemma calm_dispatch_loop fuel n : Calm (dispatch_loop fuel n).
Proof. induction fuel as [|fuel IH]; cbn [dispatch_loop]; respects_solve. Qed.
Hint Resolve calm_dispatch_loop : respects.

Lemma calm_on_dispatch_timer : Calm on_dispatch_timer.
Proof. unfold on_dispatch_timer. respects_solve. Qed.
Lemma calm_on_ihave p l : Calm (on_ihave p l).
Proof. unfold on_ihave, on_ihave_entry. respects_solve. Qed.
Lemma calm_on_send_graft_timer id : Calm (on_send_graft_timer id).
Proof. unfold on_send_graft_timer. respects_solve. Qed.
Lemma calm_on_graft p d : Calm (on_graft p d).
Proof. unfold on_graft. respects_solve. Qed.
Lemma calm_on_neighbor_down p : Calm (on_neighbor_down p).
Proof. unfold on_neighbor_down. respects_solve. Qed.
Hint Resolve calm_on_dispatch_timer calm_on_ihave calm_on_send_graft_timer calm_on_graft
  calm_on_neighbor_down : respects.

(** What follows the insertion of the identifier of a new message. *)
Lemma calm_after_insert p g r now :
  Calm (match next_round g with
        | None => panic
        | Some message =>
            modify (λ s, set_cache (tc_insert (g_id message) message
                           (now + message_cache_retention (config s))%Z (cache s)) s) ;;
            eager_push message p ;;
            lazy_push message p ;;
            modify (λ s, set_graft_timers (graft_timer_scheduled s ∖ {[g_id message]}) s) ;;
            previous_ihaves ← zoom missing_messages set_missing
                                (λ m, (m !! g_id message, delete (g_id message) m));
            match previous_ihaves with
            | Some previous_ihaves => optimize_tree p message previous_ihaves
            | None => mret ()
            end
        end ;;
        modify (λ s, set_stats (mkStats (payload_messages_received (stats s))
                                  (control_messages_received (stats s))
                                  (max_last_delivery_hop (stats s) `max` r)) s)).
Proof. respects_solve. Qed.

(** ** The handlers that use the memory *)

Section Remembering.
  Context (id : MessageId) (t : Instant).

(** [m] keeps [id] remembered until [t] and does not deliver it; the memory has
    [n] entries at most afterwards. *)
Definition silent (n : N) (m : M (State PI) (OutEvent PI) ()) s : Prop :=
  wp True m (λ _ s' es, remembers id t n (received_messages s') ∧ config s' = config s ∧
                        Forall (λ e, ¬ delivers id e) es) s.

Lemma silent_bind n n' (m m' : M (State PI) (OutEvent PI) ()) s :
  silent n m s →
  (∀ s1, remembers id t n (received_messages s1) → config s1 = config s → silent n' m' s1) →
  silent n' (m ;; m') s.
Proof.
  intros Hm Hm'. apply wp_bind. eapply wp_mono; [exact Hm|]. intros _ s1 es1 (H1 & Hc1 & He1).
  eapply wp_mono; [exact (Hm' s1 H1 Hc1)|]. intros _ s2 es2 (H2 & Hc2 & He2).
  split; [done|]. split; [congruence|]. by apply Forall_app.
Qed.

Lemma silent_calm n (m : M (State PI) (OutEvent PI) ()) s :
  Calm m → remembers id t n (received_messages s) → silent n m s.
Proof.
  intros Hm Hs. eapply wp_mono; [by apply Hm|]. intros _ s' es [[Hmem He] _].
  unfold memory in Hmem. injection Hmem as -> ->. split; [done|]. split; [done|].
  eapply Forall_impl; [exact He|]. auto.
Qed.

Ltac calm := by apply silent_calm; [respects_solve|].

Lemma silent_mono n n' (m : M (State PI) (OutEvent PI) ()) s :
  n <= n' → silent n m s → silent n' m s.
Proof.
  intros Hn Hm. eapply wp_mono; [exact Hm|]. intros _ s' es (? & ? & ?).
  split; [by eapply remembers_mono|done].
Qed.

Lemma silent_evict n now s :
  (now < t)%Z → remembers id t n (received_messages s) → silent n (on_evict_cache_timer now) s.
Proof.
  intros Hnow Hs. unfold on_evict_cache_timer.
  apply (silent_bind n); [calm|]. intros s1 Hs1 _.
  apply (silent_bind n).
  - split; simpl; [by apply remembers_expire|]. split; [done|constructor].
  - intros s2 Hs2 _. calm.
Qed.

Lemma silent_insert n k now s :
  (t ≤ now + message_id_retention (config s))%Z → n < MAX_DUPLICATE_CACHE_ENTRIES →
  remembers id t n (received_messages s) →
  silent (n + 1) (modify (λ s, set_received (tc_insert k ()
    (now + message_id_retention (config s))%Z (received_messages s)) s)) s.
Proof. intros. split; simpl; [by apply remembers_insert|]. split; [done|constructor]. Qed.

Lemma silent_broadcast n content scope now s :
  (t ≤ now + message_id_retention (config s))%Z → n < MAX_DUPLICATE_CACHE_ENTRIES →
  remembers id t n (received_messages s) → silent (n + 1) (broadcast content scope now) s.
Proof.
  intros Ht Hn Hs. unfold broadcast. apply wp_bind, wp_gets. cbn [app].
  apply (silent_bind (n + 1)); [|intros; calm].
  destruct scope; [|apply (silent_mono n); [lia|]; calm].
  apply (silent_bind (n + 1)); [by apply silent_insert|].
  intros s1 Hs1 _. calm.
Qed.

Lemma silent_on_gossip n p g now s :
  (t ≤ now + message_id_retention (config s))%Z → n < MAX_DUPLICATE_CACHE_ENTRIES →
  remembers id t n (received_messages s) → silent (n + 1) (on_gossip p g now) s.
Proof.
  intros Ht Hn Hs. assert (Hs' : remembers id t (n + 1) (received_messages s)).
  { eapply remembers_mono; [|done]. lia. }
  unfold on_gossip. destruct (gossip_validate g) eqn:Hv; simpl; cycle 1.
  { calm. }
  apply bool_decide_eq_true in Hv. apply wp_bind, wp_gets. cbn [app].
  unfold tc_contains_key. destruct (tc_map (received_messages s) !! g_id g) eqn:Hk.
  { calm. }
  assert (Hne : g_id g ≠ id).
  { intros <-. destruct Hs as [_ _ (t' & Ht' & _) _]. congruence. }
  apply (silent_bind (n + 1)); cycle 1.
  { intros s1 Hs1 Hc. split; [done|]. split; [done|]. constructor; [|constructor]. simpl. congruence. }
  destruct (g_scope g) as [r|]; [|calm].
  unfold on_new_swarm_gossip. apply (silent_bind (n + 1)); [by apply silent_insert|].
  intros s1 Hs1 _. apply silent_calm; [apply calm_after_insert|done].
Qed.

(** One event, at a time before [t] and not earlier than the retention allows. *)
Lemma silent_handle n ev now s :
  (t - message_id_retention (config s) ≤ now < t)%Z → n < MAX_DUPLICATE_CACHE_ENTRIES →
  remembers id t n (received_messages s) → silent (n + 1) (handle ev now) s.
Proof.
  intros Hnow Hn Hs. unfold handle. apply wp_bind, wp_gets. cbn [app].
  apply (silent_bind n).
  { destruct (init s); simpl; [calm|].
    apply (silent_bind n); [calm|].
    intros s1 Hs1 _. apply silent_evict; [lia|done]. }
  intros s1 Hs1 Hc. rewrite <-Hc in Hnow.
  assert (Hs1' : remembers id t (n + 1) (received_messages s1)).
  { eapply remembers_mono; [|done]. lia. }
  destruct ev as [p m|content scope|[]|p|p]; simpl; unfold handle_message, on_neighbor_up.
  - apply (silent_bind n); [calm|].
    intros s2 Hs2 Hc2. rewrite <-Hc2 in Hnow.
    destruct m; unfold on_prune.
    + apply silent_on_gossip; [lia|done..].
    + apply (silent_mono n); [lia|]. calm.
    + apply (silent_mono n); [lia|]. calm.
    + apply (silent_mono n); [lia|]. calm.
  - apply silent_broadcast; [lia|done..].
  - calm.
  - calm.
  - apply silent_evict; [lia|done].
  - calm.
  - calm.
Qed.

Lemma silent_run n evs s :
  Forall (λ x, t - message_id_retention (config s) ≤ x.2 < t)%Z evs →
  n + len evs <= MAX_DUPLICATE_CACHE_ENTRIES →
  remembers id t n (received_messages s) → silent (n + len evs) (run evs) s.
Proof.
  intros Hts. revert n s Hts. induction evs as [|[ev now] evs IH]; intros n s Hts Hn Hs.
  { apply silent_calm; [apply respects_ret, _|]. eapply remembers_mono; [|done]. lia. }
  apply Forall_cons in Hts as [Hnow Hts]. unfold len in Hn. simpl in Hn, Hnow.
  apply (silent_bind (n + 1)); [apply silent_handle; [done|lia|done]|].
  intros s1 Hs1 Hc. replace (n + len ((ev, now) :: evs)) with (n + 1 + len evs).
  - apply IH; [by rewrite Hc|unfold len; lia|done].
  - unfold len. simpl. lia.
Qed.

End Remembering.
End Delivery.

(** * Correctness of the Plumtree protocol

    The theorems about the broadcast trees, with a concrete run for each. *)

Section Props.
  Context {PI : Type} `{HPI : PeerIdentity PI, HB : Blake3, HP : Postcard, HPL : !PostcardLaws,
    HI1 : !HashIter MessageId (Instant * ()), HIL1 : !HashIterLaws MessageId (Instant * ()),
    HI2 : !HashIter MessageId (Instant * Gossip), HIL2 : !HashIterLaws MessageId (Instant * Gossip)}.
  Implicit Types (s : State PI) (evs : list (InEvent PI * Instant)).


(** Everything the node sends can be accepted: a payload carries the hash of
    its content, so it is never taken for a spoofed one, and a message of
    announcements is not empty, fits the message size, and has no more entries
    than a receiver reads. *)
Theorem plumtree_traffic_valid (m : PI) cfg sz evs s es :
  38 <= sz < 2 ^ 64 → run evs (new m cfg sz) = Done () s es → Forall (sent_ok (m, cfg, sz)) es.
Proof.
  intros Hsz Hr. by destruct (wp_Done _ _ _ _ _ _ _ (keeps_run evs _ (new_ok m cfg sz Hsz)) Hr)
    as [[_ He] _].
Qed.

(** C34. At most one delivery: once the identifier of a message is remembered until
    [t], no sequence of events before [t] delivers a message with that
    identifier again, as long as the memory has room for them. *)
Theorem gossip_delivered_at_most_once id t evs s s' es :
  plumtree_ok s →
  (∃ t', tc_map (received_messages s) !! id = Some (t', ()) ∧ (t ≤ t')%Z) →
  Forall (λ x, t - message_id_retention (config s) ≤ x.2 < t)%Z evs →
  tc_len (received_messages s) + len evs <= MAX_DUPLICATE_CACHE_ENTRIES →
  run evs s = Done () s' es →
  Forall (λ e, ¬ delivers id e) es.
Proof.
  intros Hs Hid Hts Hn Hr.
  assert (Hm : remembers id t (tc_len (received_messages s)) (received_messages s)).
  { destruct Hs. by split. }
  by destruct (wp_Done _ _ _ _ _ _ _ (silent_run id t _ evs s Hts Hn Hm) Hr) as (_ & _ & ?).
Qed.

(** A message that is spoofed or already known is not delivered. A payload
    whose identifier is not the hash of its content changes nothing and sends
    nothing; a payload that is already known only makes its sender a lazy peer
    and tells it so. *)
Theorem gossip_rejected p g now s :
  gossip_validate g = false ∨ tc_contains_key (g_id g) (received_messages s) = true →
  on_gossip p g now s =
    if gossip_validate g
    then Done () (set_lazy ({[p]} ∪ lazy_push_peers s) (set_eager (eager_push_peers s ∖ {[p]}) s))
           [SendMessage p MPrune]
    else Done () s [].
Proof.
  intros Hr. unfold on_gossip. destruct (gossip_validate g); simpl; [|done].
  destruct Hr as [?|Hk]; [done|]. unfold mbind, M_bind, gets. by rewrite Hk.
Qed.

(** The first receipt of a valid message of the swarm that nobody announced:
    the payload goes, with its round increased, to every eager peer but us and
    the sender; an announcement is queued for every lazy peer but the sender;
    the message is delivered; its identifier is remembered and its payload kept
    for the peers that will ask for it. *)
Theorem gossip_first_receipt p g r now s :
  plumtree_ok s → gossip_validate g = true → g_scope g = SwarmRound r →
  tc_contains_key (g_id g) (received_messages s) = false → missing_messages s !! g_id g = None →
  let g' := mkGossip (g_id g) (g_content g) (SwarmRound (round_next r)) in
  ∃ s', on_gossip p g now s = Done () s'
      (((λ q, SendMessage q (MGossip g')) <$> eager_targets s p) ++
       (if dispatch_timer_scheduled s then []
        else [ScheduleTimer (dispatch_timeout (config s)) DispatchLazyPush]) ++
       [EmitEvent (Received (from_message g p))]) ∧
    tc_map (received_messages s') !! g_id g = Some ((now + message_id_retention (config s))%Z, ()) ∧
    tc_get (g_id g) (cache s') = Some g' ∧
    (∀ q, lazy_push_queue s' !! q =
       if bool_decide (q ∈ lazy_push_peers s ∧ q ≠ p)
       then Some (enqueue (mkIHave (g_id g) (round_next r)) (lazy_push_queue s !! q))
       else lazy_push_queue s !! q) ∧
    eager_push_peers s' = eager_push_peers s ∧ lazy_push_peers s' = lazy_push_peers s.
Proof.
  intros Hs Hv Hr Hk Hm g'. unfold on_gossip. rewrite Hv. simpl. unfold mbind, M_bind, gets at 1.
  rewrite Hk, Hr. unfold on_new_swarm_gossip. rewrite (next_round_spec g r Hr). fold g'.
  unfold mbind, M_bind, modify. simpl. rewrite eager_push_eq, (lazy_push_eq g' p (round_next r)) by done.
  rewrite announce_frame. simpl.
  unfold zoom. simpl. rewrite Hm. simpl. eexists. split.
  { rewrite !(right_id_L [] (++)). f_equal. by rewrite <-(assoc_L (++)). }
  simpl. split; [by apply tc_insert_get, Hs|]. split.
  { unfold tc_get. by rewrite tc_insert_get by apply Hs. }
  split; [|done]. intros q. by apply announce_targets_lookup.
Qed.

(** When the dispatch timer fires, every queued announcement is sent to its
    peer exactly once and in order, and the queues and the timer flag are
    reset. *)
Theorem dispatch_sends_queue_once s :
  plumtree_ok s →
  ∃ s' es, on_dispatch_timer s = Done () s' es ∧
    lazy_push_queue s' = ∅ ∧ dispatch_timer_scheduled s' = false ∧
    ∀ p, sent_ihaves p es = default [] (lazy_push_queue s !! p).
Proof.
  intros Hs. eexists _, _. split; [by apply on_dispatch_timer_eq, Hs|].
  split; [done|]. split; [done|]. intros p. apply sent_ihaves_dispatched, chunk_len_bounds, Hs.
Qed.

(** A missing message is requested from the peers that announced it in turn:
    when the graft timer fires once for every candidate and once more, each
    candidate is asked once, in the order of the announcements, and becomes an
    eager peer; each request starts the timer of the next one, and the last
    firing does nothing. *)
Theorem graft_asks_candidates_in_turn id l s :
  tc_contains_key id (received_messages s) = false → missing_messages s !! id = Some l →
  ∃ s', for_each (seq 0 (S (length l))) (λ _, on_send_graft_timer id) s = Done () s'
      (mjoin ((λ x, [SendMessage x.1 (MGraft (mkGraft (Some id) x.2));
                     ScheduleTimer (graft_timeout_2 (config s)) (SendGraft id)]) <$> l)) ∧
    missing_messages s' !! id = Some [] ∧
    eager_push_peers s' = list_to_set l.*1 ∪ eager_push_peers s.
Proof.
  generalize 0%nat. revert s. induction l as [|[p r] l IH]; intros s k Hr Hm.
  - destruct (on_send_graft_timer_nil id s Hr Hm) as (s' & He & Hm' & Heg). exists s'. simpl.
    unfold mbind, M_bind. rewrite He. simpl. split; [done|]. split; [congruence|set_solver].
  - destruct (on_send_graft_timer_cons id p r l s Hr Hm) as (s1 & He & Hr1 & Hc1 & Hm1 & Heg1 & _).
    destruct (IH s1 (S k)) as (s' & He' & Hm' & Heg').
    { by rewrite Hr1. } { by rewrite Hm1, lookup_insert_eq. }
    exists s'. change (seq k (S (length ((p, r) :: l)))) with (k :: seq (S k) (S (length l))).
    cbn [for_each]. unfold mbind, M_bind. rewrite He.
    rewrite He', Hc1. split; [done|]. split; [done|].
    rewrite Heg', Heg1. set_solver.
Qed.

(** The timer that a request starts is not recorded: after a request, a graft
    timer for the message is running although its identifier is not among
    those with a scheduled timer, so that the next announcement of the same
    message starts another one. *)
Theorem graft_retry_timer_untracked id p r l s :
  tc_contains_key id (received_messages s) = false → missing_messages s !! id = Some ((p, r) :: l) →
  ∃ s' es, on_send_graft_timer id s = Done () s' es ∧
    ScheduleTimer (graft_timeout_2 (config s)) (SendGraft id) ∈ es ∧
    id ∉ graft_timer_scheduled s'.
Proof.
  intros Hr Hm.
  destruct (on_send_graft_timer_cons id p r l s Hr Hm) as (s1 & He & _ & _ & _ & _ & Hg).
  eexists s1, _. split; [exact He|]. split; [set_solver|]. rewrite Hg. set_solver.
Qed.

(** What we broadcast to the swarm can be fetched: the payload is pushed to
    every eager peer but us, and a graft for its hash is answered with the
    same content. *)
Theorem broadcast_can_be_grafted content now p r s :
  plumtree_ok s →
  let g := mkGossip (from_content content) content (SwarmRound 0) in
  ∃ s1 es1 s2, broadcast content Swarm now s = Done () s1 es1 ∧
    (∀ q, q ∈ eager_push_peers s → q ≠ me s → SendMessage q (MGossip g) ∈ es1) ∧
    on_graft p (mkGraft (Some (from_content content)) r) s1 =
      Done () s2 [SendMessage p (MGossip g)] ∧
    p ∈ eager_push_peers s2.
Proof.
  intros Hs g. unfold broadcast. fold g. unfold mbind, M_bind, modify, gets. simpl.
  rewrite (lazy_push_eq g (me s) 0) by done. simpl. rewrite eager_push_eq, announce_frame. simpl.
  eexists _, _, _. split; [done|]. split; [|split].
  - intros q Hq Hne. apply elem_of_app. right. apply list_elem_of_fmap. exists q. split; [done|].
    by apply eager_targets_spec.
  - unfold on_graft, add_eager, mbind, M_bind, modify, gets, tc_get. simpl.
    rewrite tc_insert_get by apply Hs. simpl. done.
  - simpl. set_solver.
Qed.

(** The tree is repaired towards shorter paths: when a payload comes from a
    peer although it had been announced with at least the threshold fewer hops,
    the closest announcer is grafted, unless it is eager already, and the sender
    is pruned; otherwise nothing changes. *)
Theorem optimize_tree_prefers_shorter p g r l s :
  gossip_round g = Some r →
  let better (x : PI * Round) := x.2 < r ∧ optimization_threshold (config s) <= r - x.2 in
  (Forall (λ x, ¬ better x) l → optimize_tree p g l s = Done () s []) ∧
  (Exists better l → ∃ q rq s', (q, rq) ∈ l ∧ Forall (λ x, rq <= x.2) l ∧
     optimize_tree p g l s = Done () s'
       ((if bool_decide (q ∈ eager_push_peers s) then []
         else [SendMessage q (MGraft (mkGraft None rq))]) ++ [SendMessage p MPrune]) ∧
     eager_push_peers s' = ({[q]} ∪ eager_push_peers s) ∖ {[p]} ∧ p ∈ lazy_push_peers s').
Proof.
  intros Hr better. unfold optimize_tree. rewrite Hr.
  destruct (min_by_round l) as [[q rq]|] eqn:Hb; cycle 1.
  { destruct l; [|done]. split; [done|]. by intros ?%Exists_nil. }
  apply min_by_round_spec in Hb as [Hin Hmin]. unfold mbind, M_bind, gets. simpl. split.
  - intros Hn. rewrite Forall_forall in Hn. specialize (Hn _ Hin). unfold better in Hn. simpl in Hn.
    destruct (rq <? r) eqn:H1, (_ <=? r - rq) eqn:H2; bool_hyps; try done. exfalso. by apply Hn.
  - intros (y & Hy & Hlt & Hth)%Exists_exists. specialize (Hmin y Hy) as Hle. simpl in Hle.
    assert (H1 : rq <? r = true) by (apply N.ltb_lt; lia).
    assert (H2 : optimization_threshold (config s) <=? r - rq = true) by (apply N.leb_le; lia).
    rewrite H1, H2. simpl. exists q, rq. unfold when.
    case_bool_decide as Hq; simpl; eexists; (split; [done|]);
      (split; [by apply Forall_forall; intros x Hx; apply (Hmin x)|]);
      (split; [done|]); simpl; set_solver.
Qed.

(** A peer that left is forgotten: it is neither an eager nor a lazy peer, no
    missing message has it as a candidate, and a missing message stays tracked
    only if another peer announced it. *)
Theorem neighbor_down_forgets_peer p s :
  ∃ s', on_neighbor_down p s = Done () s' [] ∧
    p ∉ eager_push_peers s' ∧ p ∉ lazy_push_peers s' ∧
    ∀ id l, missing_messages s' !! id = Some l →
      l ≠ [] ∧ p ∉ l.*1 ∧ ∃ l0, missing_messages s !! id = Some l0 ∧ l `sublist_of` l0.
Proof.
  eexists. split; [done|]. simpl. split; [set_solver|]. split; [set_solver|].
  intros id l. unfold forget_peer. rewrite lookup_omap.
  destruct (missing_messages s !! id) as [l0|] eqn:Hl0; simpl; [|done].
  destruct (_ =? 0) eqn:Hz; [done|]. intros [= <-]. bool_hyps. split; [|split].
  - intros He. by rewrite He in Hz.
  - intros (x & -> & [Hx _]%list_elem_of_filter)%list_elem_of_fmap. done.
  - exists l0. split; [done|]. apply sublist_filter.
Qed.

End Props.

(** ** Concrete runs

    Peers are numbers; the hash of a message is the message itself. *)

#[local] Instance ex_Blake3 : Blake3 := λ content, content.
#[local] Instance ex_Postcard : Postcard := {| ihave_max_size := 35; prune_serialized_size := 34 |}.
#[local] Instance ex_PostcardLaws : PostcardLaws := {| ihave_max_size_eq := eq_refl; prune_serialized_size_eq := eq_refl |}.
#[local] Existing Instance map_to_list_HashIter.
#[local] Existing Instance map_to_list_HashIterLaws.

Definition after (evs : list (InEvent N * Instant)) (s : State N) : State N :=
  match run evs s with Done _ s' _ => s' | Panicked => s end.

Lemma after_ok evs s : plumtree_ok s → plumtree_ok (after evs s).
Proof.
  intros Hs. unfold after.
  by destruct (wp_total _ _ _ (keeps_run evs s Hs)) as ([] & s' & es & -> & _ & ?).
Qed.

Definition ex_new : State N := new 0 Config_default 4096.
Lemma ex_new_ok : plumtree_ok ex_new.
Proof. by apply new_ok. Qed.

(** Two eager peers and a lazy one; the message [7;7] has been received. *)
Definition ex_gossip (c : list N) (r : N) : Gossip := mkGossip c c (SwarmRound r).
Definition ex_peers : list (InEvent N * Instant) :=
  [(NeighborUp 1, 0%Z); (NeighborUp 2, 0%Z); (NeighborUp 3, 0%Z); (RecvMessage 3 MPrune, 0%Z)].
Definition ex_evs : list (InEvent N * Instant) :=
  ex_peers ++ [(RecvMessage 1 (MGossip (ex_gossip [7; 7] 2)), 5%Z)].
Definition ex_ihaves : list (InEvent N * Instant) :=
  [(RecvMessage 1 (MIHave [mkIHave [9] 4]), 1%Z); (RecvMessage 2 (MIHave [mkIHave [9] 1]), 1%Z)].


Lemma plumtree_traffic_valid_witness :
  ∃ s es, run (ex_evs ++ [(TimerExpired DispatchLazyPush, 6%Z)]) ex_new = Done () s es ∧
    SendMessage 3 (MIHave [mkIHave [7; 7] 3]) ∈ es ∧ Forall (sent_ok (0, Config_default, 4096)) es.
Proof.
  destruct (run (ex_evs ++ [(TimerExpired DispatchLazyPush, 6%Z)]) ex_new) as [[] s es|] eqn:Hr;
    [|vm_compute in Hr; discriminate].
  exists s, es. split; [reflexivity|]. split; [vm_compute in Hr; injection Hr as _ <-; set_solver|].
  apply (plumtree_traffic_valid 0 Config_default 4096
    (ex_evs ++ [(TimerExpired DispatchLazyPush, 6%Z)]) s es); [lia|exact Hr].
Defined.

Lemma gossip_delivered_at_most_once_witness :
  ∃ s' es, run [(RecvMessage 2 (MGossip (ex_gossip [7; 7] 1)), 10%Z)] (after ex_evs ex_new) =
    Done () s' es ∧ es = [SendMessage 2 MPrune] ∧ Forall (λ e, ¬ delivers [7; 7] e) es.
Proof.
  destruct (run [(RecvMessage 2 (MGossip (ex_gossip [7; 7] 1)), 10%Z)] (after ex_evs ex_new))
    as [[] s' es|] eqn:Hr; [|vm_compute in Hr; discriminate].
  exists s', es. split; [reflexivity|]. split; [vm_compute in Hr; injection Hr as _ <-; reflexivity|].
  apply (gossip_delivered_at_most_once [7; 7] (5 + 90 * 1000000000)%Z
    [(RecvMessage 2 (MGossip (ex_gossip [7; 7] 1)), 10%Z)] (after ex_evs ex_new) s' es).
  - apply after_ok, ex_new_ok.
  - exists (5 + 90 * 1000000000)%Z. split; [vm_compute; reflexivity|lia].
  - constructor; [|constructor]. vm_compute. split; [discriminate|reflexivity].
  - vm_compute. discriminate.
  - exact Hr.
Defined.

Lemma gossip_rejected_witness :
  on_gossip 2 (mkGossip [8] [7] (SwarmRound 0)) 10 (after ex_evs ex_new) =
    Done () (after ex_evs ex_new) [].
Proof.
  rewrite (gossip_rejected 2 (mkGossip [8] [7] (SwarmRound 0)) 10 (after ex_evs ex_new));
    [reflexivity|left; reflexivity].
Defined.

Lemma gossip_first_receipt_witness :
  ∃ s', on_gossip 1 (ex_gossip [5] 0) 7 (after ex_peers ex_new) = Done () s'
      [SendMessage 2 (MGossip (ex_gossip [5] 1));
       ScheduleTimer (dispatch_timeout Config_default) DispatchLazyPush;
       EmitEvent (Received (from_message (ex_gossip [5] 0) 1))] ∧
    lazy_push_queue s' !! 3 = Some [mkIHave [5] 1].
Proof.
  destruct (gossip_first_receipt 1 (ex_gossip [5] 0) 0 7 (after ex_peers ex_new))
    as (s' & He & _ & _ & Hq & _).
  - apply after_ok, ex_new_ok.
  - reflexivity.
  - reflexivity.
  - reflexivity.
  - vm_compute. reflexivity.
  - exists s'. split; [rewrite He; reflexivity|]. rewrite (Hq 3). vm_compute. reflexivity.
Defined.

Lemma dispatch_sends_queue_once_witness :
  ∃ s' es, on_dispatch_timer (after ex_evs ex_new) = Done () s' es ∧
    lazy_push_queue s' = ∅ ∧ dispatch_timer_scheduled s' = false ∧
    ∀ p, sent_ihaves p es = default [] (lazy_push_queue (after ex_evs ex_new) !! p).
Proof. apply (dispatch_sends_queue_once (after ex_evs ex_new)), after_ok, ex_new_ok. Defined.

Lemma graft_asks_candidates_in_turn_witness :
  ∃ s', for_each (seq 0 3) (λ _, on_send_graft_timer [9]) (after ex_ihaves ex_new) = Done () s'
      [SendMessage 1 (MGraft (mkGraft (Some [9]) 4));
       ScheduleTimer (graft_timeout_2 Config_default) (SendGraft [9]);
       SendMessage 2 (MGraft (mkGraft (Some [9]) 1));
       ScheduleTimer (graft_timeout_2 Config_default) (SendGraft [9])].
Proof.
  destruct (graft_asks_candidates_in_turn [9] [(1, 4); (2, 1)] (after ex_ihaves ex_new))
    as (s' & He & _); [vm_compute; reflexivity..|].
  exists s'. exact He.
Defined.

Lemma graft_retry_timer_untracked_witness :
  ∃ s' es, on_send_graft_timer [9] (after ex_ihaves ex_new) = Done () s' es ∧
    ScheduleTimer (graft_timeout_2 Config_default) (SendGraft [9]) ∈ es ∧
    [9] ∉ graft_timer_scheduled s'.
Proof.
  apply (graft_retry_timer_untracked [9] 1 4 [(2, 1)] (after ex_ihaves ex_new)); vm_compute; reflexivity.
Defined.

Lemma broadcast_can_be_grafted_witness :
  ∃ s1 es1 s2, broadcast [4; 2] Swarm 9 (after ex_evs ex_new) = Done () s1 es1 ∧
    (∀ q, q ∈ eager_push_peers (after ex_evs ex_new) → q ≠ me (after ex_evs ex_new) →
       SendMessage q (MGossip (ex_gossip [4; 2] 0)) ∈ es1) ∧
    on_graft 3 (mkGraft (Some [4; 2]) 0) s1 = Done () s2 [SendMessage 3 (MGossip (ex_gossip [4; 2] 0))] ∧
    3 ∈ eager_push_peers s2.
Proof.
  exact (broadcast_can_be_grafted [4; 2] 9 3 0 (after ex_evs ex_new) (after_ok _ _ ex_new_ok)).
Defined.

Lemma optimize_tree_prefers_shorter_witness :
  ∃ q rq s', (q, rq) ∈ [(5, 4); (6, 1)] ∧ Forall (λ x : N * N, rq <= x.2) [(5, 4); (6, 1)] ∧
    optimize_tree 1 (ex_gossip [3] 12) [(5, 4); (6, 1)] (after ex_evs ex_new) = Done () s'
      ((if bool_decide (q ∈ eager_push_peers (after ex_evs ex_new)) then []
        else [SendMessage q (MGraft (mkGraft None rq))]) ++ [SendMessage 1 MPrune]) ∧
    eager_push_peers s' = ({[q]} ∪ eager_push_peers (after ex_evs ex_new)) ∖ {[1]} ∧
    1 ∈ lazy_push_peers s'.
Proof.
  apply (proj2 (optimize_tree_prefers_shorter 1 (ex_gossip [3] 12) 12 [(5, 4); (6, 1)]
    (after ex_evs ex_new) eq_refl)).
  apply Exists_cons_hd. vm_compute. split; [reflexivity|discriminate].
Defined.

Lemma neighbor_down_forgets_peer_witness :
  ∃ s', on_neighbor_down 1 (after ex_ihaves ex_new) = Done () s' [] ∧
    missing_messages s' !! [9] = Some [(2, 1)] ∧ 1 ∉ eager_push_peers s'.
Proof.
  destruct (neighbor_down_forgets_peer 1 (after ex_ihaves ex_new)) as (s' & He & Hs' & _).
  exists s'. split; [exact He|]. split; [|exact Hs'].
  vm_compute in He. injection He as <-. vm_compute. reflexivity.
Defined.
