(* ===== verification/Topic.v ===== *)
(** * The state of one topic
      (protocols/krikos-gossip/src/proto/topic.rs)

    A topic runs the membership protocol and the broadcast protocol side by
    side, and forwards the neighbour events of the first to the second. *)
From stdpp Require Import base tactics list gmap sets sorting strings.
From Stdlib Require Import ZArith Lia.
From S2P Require Import Prelude IndexSet Proto TimeCache HyParView Plumtree.

Local Open Scope N_scope.

(** ** Messages, events, timers and commands *)

Section Data.
  Context {PI : Type}.

Inductive Message : Type :=
| MSwarm (message : HyParView.Message PI)
| MGossip (message : Plumtree.Message).

Inductive Event : Type :=
| NeighborUp (peer : PI)
| NeighborDown (peer : PI)
| Received (event : GossipEvent PI).

Inductive Timer : Type :=
| TSwarm (timer : HyParView.Timer PI)
| TGossip (timer : Plumtree.Timer).

Inductive Command : Type :=
| Join (peers : list PI)
| Broadcast (content : Bytes) (scope : Scope)
| Quit.

Inductive InEvent : Type :=
| RecvMessage (from : PI) (message : Message)
| ICommand (command : Command)
| TimerExpired (timer : Timer)
| PeerDisconnected (peer : PI)
| UpdatePeerData (data : PeerData).

Inductive OutEvent : Type :=
| SendMessage (to : PI) (message : Message)
| EmitEvent (event : Event)
| ScheduleTimer (delay : Duration) (timer : Timer)
| DisconnectPeer (peer : PI)
| OutPeerData (peer : PI) (data : PeerData).

(** [MessageKind] (state.rs). *)
Inductive MessageKind : Type := Data | Control.

Definition kind (m : Message) : MessageKind :=
  match m with
  | MSwarm _ => Control
  | MGossip (Plumtree.MGossip _) => Data
  | MGossip _ => Control
  end.

Definition is_disconnect (m : Message) : bool :=
  match m with
  | MSwarm (HyParView.Disconnect _ _) => true
  | _ => false
  end.

(** The conversions [From<hyparview::...>] and [From<plumtree::...>]. *)
Definition from_swarm_event (e : HyParView.Event PI) : Event :=
  match e with
  | HyParView.NeighborUp peer => NeighborUp peer
  | HyParView.NeighborDown peer => NeighborDown peer
  end.

Definition from_gossip_event (e : Plumtree.Event PI) : Event :=
  match e with
  | Plumtree.Received event => Received event
  end.

Definition from_swarm (e : HyParView.OutEvent PI) : OutEvent :=
  match e with
  | HyParView.SendMessage to message => SendMessage to (MSwarm message)
  | HyParView.ScheduleTimer delay timer => ScheduleTimer delay (TSwarm timer)
  | HyParView.DisconnectPeer peer => DisconnectPeer peer
  | HyParView.EmitEvent event => EmitEvent (from_swarm_event event)
  | HyParView.OutPeerData peer data => OutPeerData peer data
  end.

Definition from_gossip (e : Plumtree.OutEvent PI) : OutEvent :=
  match e with
  | Plumtree.SendMessage to message => SendMessage to (MGossip message)
  | Plumtree.ScheduleTimer delay timer => ScheduleTimer delay (TGossip timer)
  | Plumtree.EmitEvent event => EmitEvent (from_gossip_event event)
  end.

End Data.
Arguments Message : clear implicits.
Arguments Event : clear implicits.
Arguments Timer : clear implicits.
Arguments Command : clear implicits.
Arguments InEvent : clear implicits.
Arguments OutEvent : clear implicits.

(** ** Configuration *)

Record Config : Type := mkConfig {
  membership : HyParView.Config;
  broadcast : Plumtree.Config;
  max_message_size : N;
}.

Definition Config_default : Config :=
  mkConfig HyParView.Config_default Plumtree.Config_default DEFAULT_MAX_MESSAGE_SIZE.

(** [ConfigError] (limits.rs). *)
Record ConfigError : Type := mkConfigError {
  ce_field : string;
  ce_value : N;
  ce_min : N;
  ce_max : N;
}.

(** The closure [check] of [validate]. *)
Definition check_range (field : string) (value min max : N) : result ConfigError () :=
  if (min <=? value) && (value <=? max) then Ok ()
  else Err (mkConfigError field value min max).

Definition validate (c : Config) : result ConfigError () :=
  check_range "max_message_size" (max_message_size c) MIN_MAX_MESSAGE_SIZE MAX_MESSAGE_SIZE ;;
  check_range "membership.active_view_capacity"
    (active_view_capacity (membership c)) 1 MAX_ACTIVE_VIEW_CAPACITY ;;
  check_range "membership.passive_view_capacity"
    (passive_view_capacity (membership c)) 1 MAX_PASSIVE_VIEW_CAPACITY ;;
  check_range "membership.shuffle_active_view_count"
    (shuffle_active_view_count (membership c)) 0 MAX_SHUFFLE_PEERS ;;
  check_range "membership.shuffle_passive_view_count"
    (shuffle_passive_view_count (membership c)) 0 MAX_SHUFFLE_PEERS ;;
  check_range "membership.shuffle_fanout"
    (saturating_add64 (shuffle_active_view_count (membership c))
       (shuffle_passive_view_count (membership c))) 0 MAX_SHUFFLE_PEERS.

(** ** State *)

Record Stats : Type := mkStats {
  messages_sent : N;
  messages_received : N;
}.
Definition Stats_default : Stats := mkStats 0 0.

Record State (PI C R : Type) `{PeerIdentity PI} : Type := mkState {
  me : PI;
  swarm : HyParView.State PI C R;
  gossip : Plumtree.State PI;
  outbox : list (OutEvent PI);
  stats : Stats;
}.
Arguments mkState {PI C R _} _ _ _ _ _.
Arguments me {PI C R _} _.
Arguments swarm {PI C R _} _.
Arguments gossip {PI C R _} _.
Arguments outbox {PI C R _} _.
Arguments stats {PI C R _} _.

Section Topic.
  Context {PI C R : Type} `{HPI : PeerIdentity PI, HC : !IndexMapSet PI C, HR : !Rng R,
    HB : Blake3, HP : Postcard,
    HI1 : !HashIter MessageId (Instant * ()), HI2 : !HashIter MessageId (Instant * Gossip)}.

Abbreviation St := (State PI C R).
Abbreviation Ev := (OutEvent PI).
Abbreviation TM := (M St Ev).

Definition set_swarm x (s : St) : St := mkState (me s) x (gossip s) (outbox s) (stats s).
Definition set_gossip x (s : St) : St := mkState (me s) (swarm s) x (outbox s) (stats s).
Definition set_outbox x (s : St) : St := mkState (me s) (swarm s) (gossip s) x (stats s).
Definition set_stats x (s : St) : St := mkState (me s) (swarm s) (gossip s) (outbox s) x.

(** [Message::postcard_header_size] (state.rs). *)
Definition postcard_header_size : N := prune_serialized_size - 1.

(** [State::with_rng]; [None] is the panic on an invalid configuration. *)
Definition with_rng (me : PI) (me_data : option PeerData) (config : Config) (rng : R)
    : option St :=
  match validate config with
  | Err _ => None
  | Ok _ =>
      let max_payload_size :=
        wrapping_sub64 (max_message_size config) postcard_header_size in
      Some (mkState me (HyParView.new me me_data (membership config) rng)
              (Plumtree.new me (broadcast config) max_payload_size) [] Stats_default)
  end.

(** Calls of the two protocols; their events are pushed to [io]. *)
Definition swarm_handle (event : HyParView.InEvent PI) : TM () :=
  lift_m swarm set_swarm from_swarm (HyParView.handle event).
Definition gossip_handle (event : Plumtree.InEvent PI) (now : Instant) : TM () :=
  lift_m gossip set_gossip from_gossip (Plumtree.handle event now).

(** Running a computation whose [io] is the outbox. *)
Definition into_outbox {A} (m : TM A) : TM A := λ s,
  match m s with
  | Done a s' es => Done a (set_outbox (outbox s' ++ es) s') []
  | Panicked => Panicked
  end.

(** The first [match] of [handle]. *)
Definition process (event : InEvent PI) (now : Instant) : TM () :=
  match event with
  | ICommand (Join peers) =>
      for_each peers (λ peer, swarm_handle (HyParView.RequestJoin peer))
  | ICommand (Broadcast data scope) => gossip_handle (Plumtree.Broadcast data scope) now
  | ICommand Quit => swarm_handle HyParView.Quit
  | RecvMessage from message =>
      modify (λ s, set_stats (mkStats (messages_sent (stats s))
                                (wrapping_add64 (messages_received (stats s)) 1)) s) ;;
      match message with
      | MSwarm message => swarm_handle (HyParView.RecvMessage from message)
      | MGossip message => gossip_handle (Plumtree.RecvMessage from message) now
      end
  | TimerExpired (TSwarm timer) => swarm_handle (HyParView.TimerExpired timer)
  | TimerExpired (TGossip timer) => gossip_handle (Plumtree.TimerExpired timer) now
  | PeerDisconnected peer =>
      swarm_handle (HyParView.PeerDisconnected peer) ;;
      gossip_handle (Plumtree.NeighborDown peer) now
  | UpdatePeerData data => swarm_handle (HyParView.UpdatePeerData data)
  end.

(** The loop that forwards the neighbour events. *)
Definition forward (now : Instant) (event : Ev) : TM () :=
  match event with
  | EmitEvent (NeighborUp peer) => gossip_handle (Plumtree.NeighborUp peer) now
  | EmitEvent (NeighborDown peer) => gossip_handle (Plumtree.NeighborDown peer) now
  | _ => mret ()
  end.

(** [matches!(event, OutEvent::SendMessage(_, _))]. *)
Definition is_send (e : Ev) : bool := match e with SendMessage _ _ => true | _ => false end.

Definition count_sent (s : St) : St :=
  set_stats (mkStats (wrapping_add64 (messages_sent (stats s))
                        (len (filter (λ e, is_send e = true) (outbox s))))
               (messages_received (stats s))) s.

(** [self.outbox.drain(..)]: the caller gets the events. *)
Definition drain : TM () := λ s, Done () (set_outbox [] s) (outbox s).

Definition handle (event : InEvent PI) (now : Instant) : TM () :=
  into_outbox (process event now) ;;
  events ← gets outbox;
  into_outbox (for_each events (forward now)) ;;
  modify count_sent ;;
  drain.

Definition reset_stats (s : St) : St :=
  mkState (me s) (HyParView.set_stats HyParView.Stats_default (swarm s))
    (Plumtree.set_stats Plumtree.Stats_default (gossip s)) (outbox s) Stats_default.

Definition has_active_peers (s : St) : bool := negb (is_empty (active_view (swarm s))).

End Topic.
