(* ===== verification/TopicFacts.v ===== *)
(** * The invariant of a topic

    The two protocols of a topic keep their invariants side by side, what they
    send is bounded, and every active neighbour is in the broadcast tree. *)
From stdpp Require Import base tactics list gmap sets sorting strings.
From Stdlib Require Import ZArith Lia.
From S2P Require Import Prelude IndexSet Proto TimeCache HyParView Plumtree.
From S2P Require Import HyParViewFacts HyParViewProps.
From S2P Require Import PlumtreeFacts PlumtreeProps Topic.

Local Open Scope N_scope.

(** ** The peers of the broadcast tree *)

Section Tree.
  Context {PI : Type} `{HPI : PeerIdentity PI, HB : Blake3, HP : Postcard,
    HI1 : !HashIter MessageId (Instant * ()), HI2 : !HashIter MessageId (Instant * Gossip)}.
  Implicit Types (g : Plumtree.State PI).

(** The eager and the lazy peers. *)
Definition tree g : gset PI := eager_push_peers g ∪ lazy_push_peers g.

(** A step that drops no peer from the tree. *)
Definition widens g g' (_ : list (Plumtree.OutEvent PI)) : Prop := tree g ⊆ tree g'.

#[global] Instance widens_Composable : Composable widens.
Proof. split; unfold widens; [set_solver|]. intros. by etrans. Qed.

Abbreviation Widens m := (respects (S:=Plumtree.State PI) True (λ _, True) widens m).

Lemma widens_emit e : Widens (emit e).
Proof. apply respects_emit. by unfold widens. Qed.
Lemma widens_modify f : (∀ g, tree (f g) = tree g) → Widens (modify f).
Proof. intros Hf. apply respects_modify. intros g _. unfold widens. by rewrite Hf. Qed.
Lemma widens_zoom {A F} (get : Plumtree.State PI → F) set (op : F → A * F) :
  (∀ x g, tree (set x g) = tree g) → Widens (zoom get set op).
Proof. intros Hf. apply respects_zoom. intros g _. unfold widens. by rewrite Hf. Qed.

Lemma widens_add_eager p : Widens (add_eager p).
Proof.
  intros g _. unfold add_eager. wp_steps. split; [|done]. intros x. unfold tree. simpl.
  destruct (decide (x = p)); set_solver.
Qed.
Lemma widens_add_lazy p : Widens (add_lazy p).
Proof.
  intros g _. unfold add_lazy. wp_steps. split; [|done]. intros x. unfold tree. simpl.
  destruct (decide (x = p)); set_solver.
Qed.

Hint Resolve widens_emit widens_add_eager widens_add_lazy : respects.
Hint Extern 1 (respects _ _ widens (modify _)) => by apply widens_modify : respects.
Hint Extern 1 (respects _ _ widens (zoom _ _ _)) => by apply widens_zoom : respects.
Hint Extern 1 (respects _ _ widens panic) => by intros ?? : respects.

Lemma widens_dispatch_loop fuel n : Widens (dispatch_loop fuel n).
Proof. induction fuel as [|fuel IH]; cbn [dispatch_loop]; respects_solve. Qed.
Hint Resolve widens_dispatch_loop : respects.

Lemma widens_pushes msg p : Widens (eager_push msg p) ∧ Widens (lazy_push msg p).
Proof. split; [unfold eager_push|unfold lazy_push]; respects_solve. Qed.
Lemma widens_eager_push msg p : Widens (eager_push msg p).
Proof. apply widens_pushes. Qed.
Lemma widens_lazy_push msg p : Widens (lazy_push msg p).
Proof. apply widens_pushes. Qed.
Hint Resolve widens_eager_push widens_lazy_push : respects.

Lemma widens_optimize_tree p msg l : Widens (optimize_tree p msg l).
Proof. unfold optimize_tree. respects_solve. Qed.
Hint Resolve widens_optimize_tree : respects.

Lemma widens_evict now : Widens (on_evict_cache_timer now).
Proof. unfold on_evict_cache_timer. respects_solve. Qed.
Hint Resolve widens_evict : respects.

Lemma widens_handle_message p m now : Widens (Plumtree.handle_message p m now).
Proof.
  unfold Plumtree.handle_message, on_gossip, on_new_swarm_gossip, on_prune, on_ihave,
    on_ihave_entry, on_graft. respects_solve.
Qed.
Hint Resolve widens_handle_message : respects.

(** Only a neighbour that goes down leaves the tree. *)
Lemma widens_handle ev now :
  (∀ p, ev ≠ Plumtree.NeighborDown p) → Widens (Plumtree.handle ev now).
Proof.
  intros Hev. unfold Plumtree.handle, Plumtree.handle_event, Plumtree.broadcast,
    on_neighbor_up, on_dispatch_timer, on_send_graft_timer.
  destruct ev; try (by destruct (Hev peer)); respects_solve.
Qed.

Lemma handle_up_tree p now g :
  wp True (Plumtree.handle (Plumtree.NeighborUp p) now)
    (λ _ g' _, {[p]} ∪ tree g ⊆ tree g') g.
Proof.
  unfold Plumtree.handle. do 2 wp_step.
  assert (Widens (when (negb (init g)) (modify (set_init true) ;; on_evict_cache_timer now))) as Hw
    by respects_solve.
  wp_step. eapply wp_mono; [by apply Hw|]. intros _ g1 es1 [H1 _].
  simpl. unfold on_neighbor_up, add_eager. wp_steps. unfold widens, tree in *. simpl.
  intros x. destruct (decide (x = p)); set_solver.
Qed.

Lemma handle_down_tree p now g :
  wp True (Plumtree.handle (Plumtree.NeighborDown p) now)
    (λ _ g' _, tree g ∖ {[p]} ⊆ tree g') g.
Proof.
  unfold Plumtree.handle. do 2 wp_step.
  assert (Widens (when (negb (init g)) (modify (set_init true) ;; on_evict_cache_timer now))) as Hw
    by respects_solve.
  wp_step. eapply wp_mono; [by apply Hw|]. intros _ g1 es1 [H1 _].
  simpl. unfold on_neighbor_down. wp_steps. unfold widens, tree in *. simpl. set_solver.
Qed.

End Tree.

(** ** The two protocols side by side *)

Section Facts.
  Context {PI C R : Type} `{HPI : PeerIdentity PI, HC : !IndexMapSet PI C,
    HCL : !IndexMapSetLaws PI C, HR : !Rng R, HRL : !RngLaws R,
    HB : Blake3, HP : Postcard, HPL : !PostcardLaws,
    HI1 : !HashIter MessageId (Instant * ()), HIL1 : !HashIterLaws MessageId (Instant * ()),
    HI2 : !HashIter MessageId (Instant * Gossip), HIL2 : !HashIterLaws MessageId (Instant * Gossip)}.
  Implicit Types (s : State PI C R).

(** What no event changes. *)
Definition tframe s : PI * PI * HyParView.Config * (PI * Plumtree.Config * N) :=
  (me s, HyParView.me (swarm s), HyParView.config (swarm s), frame (gossip s)).

(** What a topic sends: bounded node lists, valid payloads, announcements that
    fit. *)
Definition traffic_ok (f : PI * PI * HyParView.Config * (PI * Plumtree.Config * N))
    (e : OutEvent PI) : Prop :=
  match e with
  | SendMessage to (MSwarm m) => node_list_bounded f.1.2 (HyParView.SendMessage to m)
  | SendMessage to (MGossip m) => sent_ok f.2 (Plumtree.SendMessage to m)
  | _ => True
  end.

Record core_ok s : Prop := {
  co_swarm : views_ok (swarm s);
  co_gossip : plumtree_ok (gossip s);
  co_outbox : Forall (traffic_ok (tframe s)) (outbox s);
}.

Abbreviation Keeps m := (respects False core_ok (emitting tframe traffic_ok) m).

Lemma keeps_swarm_handle ev : Keeps (swarm_handle ev).
Proof.
  intros s [Hv Hg Ho]. unfold swarm_handle. apply wp_lift_m.
  eapply wp_mono; [apply wp_and_partial; [by apply handle_keeps_views|by apply (emits_handle_bounded ev)]|].
  intros _ sw es [[[Hm Hc] Hv'] [[_ He] _]].
  assert (Hf : tframe (set_swarm sw s) = tframe s) by (unfold tframe; simpl; congruence).
  split; [split; [done|]|].
  - apply Forall_fmap. eapply Forall_impl; [exact He|]. by intros [].
  - split; simpl; [done..|]. by rewrite Hf.
Qed.

Lemma keeps_gossip_handle ev now : Keeps (gossip_handle ev now).
Proof.
  intros s [Hv Hg Ho]. unfold gossip_handle. apply wp_lift_m.
  eapply wp_mono; [by apply keeps_handle|]. intros _ g es [[Hf He] Hg'].
  assert (Hf' : tframe (set_gossip g s) = tframe s) by (unfold tframe; simpl; congruence).
  split; [split; [done|]|].
  - apply Forall_fmap. eapply Forall_impl; [exact He|]. by intros [].
  - split; simpl; [done..|]. by rewrite Hf'.
Qed.

Lemma keeps_into_outbox {A} (m : M (State PI C R) (OutEvent PI) A) :
  Keeps m → Keeps (into_outbox m).
Proof.
  intros Hm s Hs. specialize (Hm s Hs). unfold wp, into_outbox in *.
  destruct (m s) as [a s' es|]; [|done]. destruct Hm as [[Hf He] [Hv Hg Ho]].
  assert (tframe (set_outbox (outbox s' ++ es) s') = tframe s) as Hf' by done.
  split; [split; [done|constructor]|]. split; simpl; [done..|].
  rewrite Hf'. rewrite Hf in Ho. by apply Forall_app.
Qed.

Hint Resolve keeps_swarm_handle keeps_gossip_handle : respects.

Lemma keeps_process ev now : Keeps (process ev now).
Proof.
  unfold process. destruct ev as [from []|[]|[]|p|d]; respects_solve.
  all: apply respects_modify; intros s [] ; (split; [split; [done|constructor]|done]).
Qed.

Lemma keeps_forward now e : Keeps (forward now e).
Proof. unfold forward. respects_solve. Qed.
Hint Resolve keeps_process keeps_forward : respects.

Lemma keeps_drain : Keeps drain.
Proof.
  intros s [Hv Hg Ho]. unfold wp, drain. split; [by split|]. split; simpl; [done..|constructor].
Qed.

Lemma keeps_topic_handle ev now : Keeps (handle ev now).
Proof.
  unfold handle. respects_step; [apply keeps_into_outbox; respects_solve|].
  respects_step; [respects_step|].
  respects_step; [apply keeps_into_outbox; respects_solve|].
  respects_step; [|apply keeps_drain].
  apply respects_modify. intros s []. split; [split; [done|constructor]|done].
Qed.

(** ** Neighbours and the tree *)

(** The neighbours an application that sees only the events knows of. *)
Definition ttrack (v : gset PI) (e : OutEvent PI) : option (gset PI) :=
  match e with
  | EmitEvent (NeighborUp p) => if decide (p ∈ v) then None else Some ({[p]} ∪ v)
  | EmitEvent (NeighborDown p) => if decide (p ∈ v) then Some (v ∖ {[p]}) else None
  | _ => Some v
  end.

Fixpoint treplay (v : gset PI) (es : list (OutEvent PI)) : option (gset PI) :=
  match es with
  | [] => Some v
  | e :: es => v ← ttrack v e; treplay v es
  end.

Lemma treplay_app v es1 es2 : treplay v (es1 ++ es2) = treplay v es1 ≫= λ v, treplay v es2.
Proof.
  revert v. induction es1 as [|e es IH]; intros v; simpl; [done|].
  destruct (ttrack v e); simpl; [apply IH|done].
Qed.

Lemma treplay_swarm v es : treplay v (from_swarm <$> es) = replay v es.
Proof.
  revert v. induction es as [|e es IH]; intros v; simpl; [done|].
  assert (ttrack v (from_swarm e) = track v e) as -> by by destruct e as [| | |[]|].
  destruct (track v e); simpl; [apply IH|done].
Qed.

Lemma treplay_gossip v es : treplay v (from_gossip <$> es) = Some v.
Proof. induction es as [|[| |[]] es IH]; simpl; done. Qed.

(** Every active neighbour is an eager or a lazy peer. *)
Definition covered s : Prop := active (swarm s) ⊆ tree (gossip s).

(** A step whose events mirror the active view and that drops no active peer from
    the tree. *)
Record tmirrored s s' (es : list (OutEvent PI)) : Prop := {
  tm_replay : treplay (active (swarm s)) es = Some (active (swarm s'));
  tm_outbox : outbox s' = outbox s;
  tm_tree : ∀ q, q ∈ tree (gossip s) → q ∈ tree (gossip s');
}.

#[local] Instance tmirrored_Composable : Composable tmirrored.
Proof.
  split; [by split|]. intros s1 s2 s3 es1 es2 [H1 ? T1] [H2 ? T2].
  split; [|congruence|auto]. rewrite treplay_app, H1. done.
Qed.

Abbreviation Mirrors m := (respects False core_ok tmirrored m).

Lemma core_swarm_handle ev s :
  core_ok s → wp False (swarm_handle ev) (λ _ s' _, core_ok s') s.
Proof. intros Hs. eapply wp_mono; [by apply keeps_swarm_handle|]. by intros ??? [_ ?]. Qed.

Lemma core_gossip_handle ev now s :
  core_ok s → wp False (gossip_handle ev now) (λ _ s' _, core_ok s') s.
Proof. intros Hs. eapply wp_mono; [by apply keeps_gossip_handle|]. by intros ??? [_ ?]. Qed.

(** A call of one protocol leaves the other alone. *)
Lemma swarm_handle_spec ev (Q : HyParView.State PI C R → list (HyParView.OutEvent PI) → Prop) s :
  core_ok s → wp False (HyParView.handle ev) (λ _ sw es, Q sw es) (swarm s) →
  wp False (swarm_handle ev) (λ _ s' es, core_ok s' ∧ gossip s' = gossip s ∧ outbox s' = outbox s ∧
    ∃ es0, es = from_swarm <$> es0 ∧ Q (swarm s') es0) s.
Proof.
  intros Hs HQ. eapply wp_mono.
  { apply wp_and_partial; [exact (core_swarm_handle ev s Hs)|].
    apply wp_lift_m. eapply (wp_mono True) with (Q := λ _ sw es, Q sw es).
    - unfold wp in *. by destruct (HyParView.handle ev (swarm s)).
    - intros a sw es HQ'. instantiate (1 := λ _ s' es, gossip s' = gossip s ∧ outbox s' = outbox s ∧
        ∃ es0, es = from_swarm <$> es0 ∧ Q (swarm s') es0). simpl. eauto. }
  intros _ s' es [? ?]. done.
Qed.

Lemma gossip_handle_spec ev now (Q : Plumtree.State PI → Prop) s :
  core_ok s → wp True (Plumtree.handle ev now) (λ _ g _, Q g) (gossip s) →
  wp False (gossip_handle ev now) (λ _ s' es, core_ok s' ∧ swarm s' = swarm s ∧
    outbox s' = outbox s ∧ Q (gossip s') ∧ ∃ es0, es = from_gossip <$> es0) s.
Proof.
  intros Hs HQ. eapply wp_mono.
  { apply wp_and_partial; [exact (core_gossip_handle ev now s Hs)|].
    apply wp_lift_m. eapply (wp_mono True); [exact HQ|].
    intros a g es HQ'. instantiate (1 := λ _ s' es, swarm s' = swarm s ∧ outbox s' = outbox s ∧
      Q (gossip s') ∧ ∃ es0, es = from_gossip <$> es0). simpl. eauto. }
  intros _ s' es [? ?]. done.
Qed.

Lemma mirrors_swarm_handle ev : ev ≠ HyParView.Quit → Mirrors (swarm_handle ev).
Proof.
  intros Hev s Hs. eapply wp_mono.
  { apply swarm_handle_spec; [done|]. eapply wp_mono; [by apply mirrored_handle, Hs|].
    intros _ sw es [Hm _]. exact Hm. }
  intros _ s' es (Hs' & Hg & Ho & es0 & -> & Hm). split; [|done].
  split; [by rewrite treplay_swarm; apply Hm|done|by rewrite Hg].
Qed.

Lemma mirrors_gossip_handle ev now :
  (∀ p, ev ≠ Plumtree.NeighborDown p) → Mirrors (gossip_handle ev now).
Proof.
  intros Hev s Hs. eapply wp_mono.
  { apply (gossip_handle_spec ev now (λ g, tree (gossip s) ⊆ tree g)); [done|].
    eapply wp_mono; [by apply (widens_handle ev now Hev)|]. intros _ g es [Hw _]. exact Hw. }
  intros _ s' es (Hs' & Hsw & Ho & Hw & es0 & ->). split; [|done].
  split; [by rewrite treplay_gossip, Hsw|done|auto].
Qed.

Hint Extern 2 (respects _ _ tmirrored (swarm_handle _)) => by apply mirrors_swarm_handle : respects.
Hint Extern 2 (respects _ _ tmirrored (gossip_handle _ _)) => by apply mirrors_gossip_handle : respects.

(** The result of the first part of [handle]: the events mirror the active view,
    whose members stay in the tree; quitting empties the view silently. *)
Definition settled (ev : InEvent PI) s s' (es : list (OutEvent PI)) : Prop :=
  (ev = ICommand Quit ∧ active (swarm s') = ∅ ∧
   treplay (active (swarm s)) es = Some (active (swarm s))) ∨
  (treplay (active (swarm s)) es = Some (active (swarm s')) ∧
   ∀ q, q ∈ active (swarm s') → q ∈ tree (gossip s) → q ∈ tree (gossip s')).

Lemma mirrored_settled ev (m : M (State PI C R) (OutEvent PI) ()) s :
  core_ok s → Mirrors m →
  wp False m (λ _ s' es, core_ok s' ∧ outbox s' = outbox s ∧ settled ev s s' es) s.
Proof.
  intros Hs Hm. eapply wp_mono; [by apply Hm|]. intros _ s' es [[Hr Ho Ht] Hs'].
  split; [done|]. split; [done|]. right. split; [done|]. intros q _. apply Ht.
Qed.

Lemma settled_quit s :
  core_ok s →
  wp False (swarm_handle HyParView.Quit) (λ _ s' es, core_ok s' ∧ outbox s' = outbox s ∧
    settled (ICommand Quit) s s' es) s.
Proof.
  intros Hs. eapply wp_mono; [apply swarm_handle_spec; [done|]|].
  { eapply wp_mono; [by apply handle_Quit_spec, Hs|]. intros _ sw es (_ & _ & _ & H). exact H. }
  intros _ s' es (Hs' & Hg & Ho & es0 & -> & Hq & Ha). split; [done|]. split; [done|].
  left. split; [done|]. split; [done|]. by rewrite treplay_swarm, replay_quiet.
Qed.

Lemma settled_disconnected p now s :
  core_ok s →
  wp False (swarm_handle (HyParView.PeerDisconnected p) ;;
            gossip_handle (Plumtree.NeighborDown p) now)
    (λ _ s' es, core_ok s' ∧ outbox s' = outbox s ∧ settled (PeerDisconnected p) s s' es) s.
Proof.
  intros Hs. wp_step. eapply wp_mono; [apply swarm_handle_spec; [done|]|].
  { eapply wp_mono; [by apply (handle_PeerDisconnected_spec p), Hs|].
    intros _ sw es (Hm & _ & Hp). exact (conj (mi_replay _ _ _ Hm) Hp). }
  intros _ s1 es (Hs1 & Hg & Ho & es0 & -> & Hr & Hp).
  eapply wp_mono; [apply (gossip_handle_spec _ now (λ g, tree (gossip s1) ∖ {[p]} ⊆ tree g)); [done|]|].
  { apply handle_down_tree. }
  intros _ s2 es (Hs2 & Hsw & Ho2 & Ht & es1 & ->). split; [done|]. split; [congruence|].
  right. rewrite treplay_app, treplay_swarm, Hr, Hsw. simpl. rewrite treplay_gossip.
  split; [done|]. intros q Hq Hqt. apply Ht. rewrite Hg. set_solver.
Qed.

Lemma process_spec ev now s :
  core_ok s →
  wp False (process ev now) (λ _ s' es, core_ok s' ∧ outbox s' = outbox s ∧ settled ev s s' es) s.
Proof.
  intros Hs. destruct ev as [from m|[]|[]|p|d]; simpl.
  4: by apply settled_quit.
  6: by apply settled_disconnected.
  all: apply mirrored_settled; [done|]; try respects_solve.
  apply respects_modify. intros s' []. split; [by split|done].
Qed.

(** Forwarding the neighbour events to the broadcast protocol. *)
Lemma forward_loop now es s A A' :
  core_ok s → treplay A es = Some A' →
  wp False (for_each es (forward now)) (λ _ s' es', core_ok s' ∧ swarm s' = swarm s ∧
    outbox s' = outbox s ∧ (∃ es0, es' = from_gossip <$> es0) ∧
    ∀ q, q ∈ A' → (q ∈ A → q ∈ tree (gossip s)) → q ∈ tree (gossip s')) s.
Proof.
  revert s A. induction es as [|e es IH]; intros s A Hs; cbn [for_each].
  { simpl. intros [= <-]. wp_step. split; [done|]. split; [done|]. split; [done|].
    split; [by exists []|]. auto. }
  simpl. destruct (ttrack A e) as [A1|] eqn:HA1; simpl; [|done]. intros Hr.
  assert (Hstep : wp False (forward now e) (λ _ s' es', core_ok s' ∧ swarm s' = swarm s ∧
    outbox s' = outbox s ∧ (∃ es0, es' = from_gossip <$> es0) ∧
    ∀ q, (q ∈ A → q ∈ tree (gossip s)) → q ∈ A1 → q ∈ tree (gossip s')) s).
  { destruct e as [|[p|p|]| | |]; simpl in HA1 |- *;
      try (simplify_eq; wp_step; do 3 (split; [done|]); split; [by exists []|auto]; fail).
    - destruct (decide (p ∈ A)); simplify_eq.
      eapply wp_mono; [apply (gossip_handle_spec _ now (λ g, {[p]} ∪ tree (gossip s) ⊆ tree g)); [done|]|].
      { apply handle_up_tree. }
      intros _ s' es' (? & ? & ? & Ht & ?). repeat (split; [done|]). set_solver.
    - destruct (decide (p ∈ A)); simplify_eq.
      eapply wp_mono; [apply (gossip_handle_spec _ now (λ g, tree (gossip s) ∖ {[p]} ⊆ tree g)); [done|]|].
      { apply handle_down_tree. }
      intros _ s' es' (? & ? & ? & Ht & ?). repeat (split; [done|]). set_solver. }
  wp_step. eapply wp_mono; [exact Hstep|]. intros _ s1 es1 (Hs1 & Hsw1 & Ho1 & [l1 ->] & Ht1).
  eapply wp_mono; [by apply (IH s1 A1)|]. intros _ s2 es2 (Hs2 & Hsw2 & Ho2 & [l2 ->] & Ht2).
  split; [done|]. split; [congruence|]. split; [congruence|].
  split; [exists (l1 ++ l2); by rewrite fmap_app|]. intros q Hq HA. apply Ht2; [done|]. auto.
Qed.

Lemma wp_into_outbox {A} (m : M (State PI C R) (OutEvent PI) A) Q s :
  wp False m (λ a s' es, Q a (set_outbox (outbox s' ++ es) s') []) s →
  wp False (into_outbox m) Q s.
Proof. unfold wp, into_outbox. by destruct (m s). Qed.

(** The whole handler. *)
Lemma topic_handle_spec ev now s :
  core_ok s → outbox s = [] → covered s →
  wp False (handle ev now) (λ _ s' es, outbox s' = [] ∧ covered s' ∧
    (ev ≠ ICommand Quit → treplay (active (swarm s)) es = Some (active (swarm s')))) s.
Proof.
  intros Hs Ho Hc. unfold handle. wp_step. apply wp_into_outbox.
  eapply wp_mono.
  { apply wp_and_partial; [by apply process_spec|].
    apply (wp_mono True) with (Q := λ _ s' es, core_ok (set_outbox (outbox s' ++ es) s'));
      [|intros ??? H; exact H].
    pose proof (keeps_into_outbox _ (keeps_process ev now) s Hs) as Hk.
    unfold wp, into_outbox in *. destruct (process ev now s); [apply Hk|done]. }
  intros _ s1 es1 [(Hs1 & Ho1 & Hset) Hs1']. rewrite Ho1, Ho. simpl.
  rewrite Ho1, Ho in Hs1'. simpl in Hs1'. do 2 wp_step. wp_step. apply wp_into_outbox. simpl.
  assert (∃ A', treplay (active (swarm s)) es1 = Some A' ∧
    (ev ≠ ICommand Quit → A' = active (swarm s1)) ∧
    ∀ q, q ∈ active (swarm s1) → q ∈ A' ∧ (q ∈ active (swarm s) → q ∈ tree (gossip s1)))
    as (A' & HA' & Hq & Hcov).
  { destruct Hset as [(-> & He & Hr)|[Hr Ht]].
    - exists (active (swarm s)). split; [done|]. split; [done|]. rewrite He. set_solver.
    - exists (active (swarm s1)). split; [done|]. split; [done|].
      intros q Hq. split; [done|]. intros Hq'. by apply Ht, Hc. }
  eapply wp_mono; [by apply (forward_loop now es1 _ (active (swarm s)) A')|].
  intros _ s2 es2 (Hs2 & Hsw2 & Ho2 & [l2 ->] & Ht2). simpl in *. do 2 wp_step.
  unfold wp, drain. simpl. split; [done|]. split.
  - intros q. unfold covered. simpl. rewrite Hsw2. intros Hqa. destruct (Hcov q Hqa). by apply Ht2.
  - intros Hev. rewrite Ho2, treplay_app, HA'. simpl. rewrite treplay_gossip, Hsw2.
    by rewrite (Hq Hev).
Qed.

(** ** Calls that leave the membership protocol alone *)

Abbreviation SameSwarm m :=
  (respects (S:=State PI C R) (E:=OutEvent PI) True (λ _, True) (emitting swarm (λ _ _, True)) m).

Lemma same_swarm_gossip ev now : SameSwarm (gossip_handle ev now).
Proof.
  intros s _. apply wp_lift_m. unfold wp. destruct (Plumtree.handle _ _ _); [|done].
  split; [|done]. split; [done|]. by apply Forall_forall.
Qed.
Hint Resolve same_swarm_gossip : respects.

Lemma same_swarm_forward now es : SameSwarm (for_each es (forward now)).
Proof. unfold forward. respects_solve. Qed.

(** A closed connection removes the peer from the active view of the topic. *)
Lemma topic_disconnected p now s :
  core_ok s → wp True (handle (PeerDisconnected p) now) (λ _ s' _, p ∉ active (swarm s')) s.
Proof.
  intros Hs. assert (Hio : ∀ (m : M (State PI C R) (OutEvent PI) ()) Q s0,
    wp True m (λ a s' es, Q a (set_outbox (outbox s' ++ es) s') []) s0 →
    wp True (into_outbox m) Q s0).
  { intros m Q s0. unfold wp, into_outbox. by destruct (m s0). }
  unfold handle. wp_step. apply Hio. simpl. wp_step. apply wp_lift_m.
  eapply (wp_mono True) with (Q := λ _ sw _, p ∉ active sw).
  { pose proof (handle_PeerDisconnected_spec p _ (co_swarm s Hs)) as Hd. unfold wp in *.
    by destruct (HyParView.handle _ _); [apply Hd|]. }
  intros _ sw es1 Hp. eapply wp_mono; [by apply same_swarm_gossip|].
  intros _ s1 es2 [[Hsw1 _] _]. do 2 wp_step. wp_step. apply Hio.
  eapply wp_mono; [by apply same_swarm_forward|]. intros _ s2 es3 [[Hsw2 _] _].
  do 2 wp_step. unfold wp, drain. simpl in *. by rewrite Hsw2, Hsw1.
Qed.

End Facts.
