(* ===== verification/TopicProps.v ===== *)
(** * Correctness of a topic

    The validation of the configuration, and the theorems about runs of a topic
    with a validated configuration. *)
From stdpp Require Import base tactics list gmap sets sorting strings.
From Stdlib Require Import ZArith Lia.
From S2P Require Import Prelude IndexSet Proto TimeCache HyParView Plumtree.
From S2P Require Import HyParViewFacts HyParViewProps.
From S2P Require Import PlumtreeFacts PlumtreeProps Topic TopicFacts.

Local Open Scope N_scope.

(** ** Configuration *)

(** The resource bounds of a configuration. *)
Record config_ok (c : Config) : Prop := {
  cf_message : MIN_MAX_MESSAGE_SIZE <= max_message_size c <= MAX_MESSAGE_SIZE;
  cf_active : 1 <= active_view_capacity (membership c) <= MAX_ACTIVE_VIEW_CAPACITY;
  cf_passive : 1 <= passive_view_capacity (membership c) <= MAX_PASSIVE_VIEW_CAPACITY;
  cf_fanout : fanout (membership c) <= MAX_SHUFFLE_PEERS;
}.

Lemma check_range_Ok field v lo hi : check_range field v lo hi = Ok () ↔ lo <= v <= hi.
Proof.
  unfold check_range. destruct (_ && _) eqn:Hb.
  - bool_hyps. done.
  - apply andb_false_iff in Hb. rewrite !N.leb_gt in Hb. split; [done|lia].
Qed.

Lemma check_range_Err field v lo hi e :
  check_range field v lo hi = Err e → e = mkConfigError field v lo hi ∧ ¬ lo <= v <= hi.
Proof.
  intros He. assert (¬ lo <= v <= hi) as Hn.
  { rewrite <-(check_range_Ok field). by rewrite He. }
  split; [|done]. unfold check_range in He. destruct (_ && _); [done|]. by injection He as <-.
Qed.

Lemma result_bind_Ok {E A} (r : result E ()) (k : result E A) a :
  (r ;; k) = Ok a ↔ r = Ok () ∧ k = Ok a.
Proof. destruct r as [[]|]; unfold mbind, result_bind; naive_solver. Qed.

Lemma result_bind_Err {E A} (r : result E ()) (k : result E A) e :
  (r ;; k) = Err e → r = Err e ∨ r = Ok () ∧ k = Err e.
Proof. destruct r as [[]|]; unfold mbind, result_bind; naive_solver. Qed.

Lemma validate_ok c : validate c = Ok () ↔ config_ok c.
Proof.
  unfold validate. rewrite !result_bind_Ok, !check_range_Ok.
  unfold saturating_add64, usize_max, MAX_SHUFFLE_PEERS. split.
  - intros (? & ? & ? & ? & ? & ?). split; try done. unfold fanout, MAX_SHUFFLE_PEERS. lia.
  - intros [??? Hf]. unfold fanout, MAX_SHUFFLE_PEERS in Hf. repeat split; lia.
Qed.

(** A configuration is accepted exactly when every resource bound holds: the
    message size, the two view capacities, and the shuffle fan-out; a rejection
    reports a field with a value outside the reported range. *)
Theorem validate_spec c :
  (validate c = Ok () ↔ config_ok c) ∧
  ∀ e, validate c = Err e → ¬ (ce_min e <= ce_value e <= ce_max e).
Proof.
  split; [apply validate_ok|]. unfold validate. intros e He.
  repeat (apply result_bind_Err in He as [He|[_ He]];
          [by apply check_range_Err in He as [-> ?]|]).
  by apply check_range_Err in He as [-> ?].
Qed.

Section Props.
  Context {PI C R : Type} `{HPI : PeerIdentity PI, HC : !IndexMapSet PI C,
    HCL : !IndexMapSetLaws PI C, HR : !Rng R, HRL : !RngLaws R,
    HB : Blake3, HP : Postcard, HPL : !PostcardLaws,
    HI1 : !HashIter MessageId (Instant * ()), HIL1 : !HashIterLaws MessageId (Instant * ()),
    HI2 : !HashIter MessageId (Instant * Gossip), HIL2 : !HashIterLaws MessageId (Instant * Gossip)}.
  Implicit Types (s : State PI C R).

(** Everything a topic maintains between two events. *)
Record topic_ok (m : PI) (c : Config) s : Prop := {
  tok_core : core_ok s;
  tok_covered : covered s;
  tok_outbox : outbox s = [];
  tok_frame : tframe s = (m, m, membership c, (m, broadcast c,
                max_message_size c - postcard_header_size));
}.

Lemma header_size : postcard_header_size = 33.
Proof. unfold postcard_header_size. by rewrite prune_serialized_size_eq. Qed.

Lemma with_rng_ok m d c (r : R) :
  config_ok c → ∃ s, with_rng (C:=C) m d c r = Some s ∧ topic_ok m c s ∧ active (swarm s) = ∅.
Proof.
  intros Hc. unfold with_rng. rewrite (proj2 (validate_ok c) Hc).
  destruct Hc as [Hm _ _ _]. unfold MIN_MAX_MESSAGE_SIZE, MAX_MESSAGE_SIZE in Hm.
  rewrite header_size, wrapping_sub64_small by lia.
  eexists. split; [done|]. assert (Hact : ∀ sw : HyParView.State PI C R,
    active_view sw = is_new → active sw = ∅).
  { intros sw Hsw. unfold active. by rewrite Hsw, elems_new. }
  split; [split|by apply Hact]; simpl.
  - split; simpl; [apply new_views_ok|apply new_ok; lia|constructor].
  - unfold covered. simpl. rewrite Hact by done. set_solver.
  - done.
  - by rewrite header_size.
Qed.

(** Feeding a sequence of events, each at its time. *)
Definition run (evs : list (InEvent PI * Instant)) : M (State PI C R) (OutEvent PI) () :=
  for_each evs (λ x, handle x.1 x.2).

Lemma handle_topic_ok m c ev now s :
  topic_ok m c s →
  wp False (handle ev now) (λ _ s' es, topic_ok m c s' ∧
    (ev ≠ ICommand Quit → treplay (active (swarm s)) es = Some (active (swarm s'))) ∧
    Forall (traffic_ok (tframe s)) es) s.
Proof.
  intros [Hs Hc Ho Hf]. eapply wp_mono.
  { apply wp_and_partial; [by apply topic_handle_spec|].
    apply (wp_mono True) with (Q := λ _ s' es, emitting tframe traffic_ok s s' es ∧ core_ok s');
      [|intros ??? H; exact H].
    pose proof (keeps_topic_handle ev now s Hs) as Hk.
    unfold wp in *. destruct (handle ev now s); [apply Hk|done]. }
  intros _ s' es [(Ho' & Hc' & Hr) [[Hf' He] Hs']]. split; [|done]. split; [done..|congruence].
Qed.

Lemma run_topic_ok m c evs s :
  topic_ok m c s →
  wp False (run evs) (λ _ s' es, topic_ok m c s' ∧
    (Forall (λ x, x.1 ≠ ICommand Quit) evs →
     treplay (active (swarm s)) es = Some (active (swarm s'))) ∧
    Forall (traffic_ok (tframe s)) es) s.
Proof.
  revert s. induction evs as [|[ev now] evs IH]; intros s Hs; cbn [run for_each].
  { wp_step. split; [done|]. split; [done|constructor]. }
  unfold run. cbn [for_each]. wp_step. eapply wp_mono; [by apply handle_topic_ok|].
  intros _ s1 es1 (Hs1 & Hr1 & He1). eapply wp_mono; [by apply IH|].
  intros _ s2 es2 (Hs2 & Hr2 & He2). split; [done|]. split.
  - intros [? ?]%Forall_cons. rewrite treplay_app, Hr1 by done. by apply Hr2.
  - apply Forall_app. split; [done|]. by rewrite (tok_frame _ _ _ Hs), <-(tok_frame _ _ _ Hs1).
Qed.

(** With a validated configuration a topic handles every sequence of events
    without a panic, and keeps the invariants of both protocols; every active
    neighbour of the membership protocol is an eager or a lazy peer of the
    broadcast protocol, so no neighbour is left out of the spread of messages,
    and no event is left behind in the outbox. *)
Theorem topic_reachable_ok m d c (r : R) evs :
  validate c = Ok () →
  ∃ s0 s es, with_rng (C:=C) m d c r = Some s0 ∧ run evs s0 = Done () s es ∧
    views_ok (swarm s) ∧ plumtree_ok (gossip s) ∧
    active (swarm s) ⊆ eager_push_peers (gossip s) ∪ lazy_push_peers (gossip s) ∧
    outbox s = [].
Proof.
  intros Hc%validate_ok. destruct (with_rng_ok m d c r Hc) as (s0 & Hn & Hok & _).
  destruct (wp_total _ _ _ (run_topic_ok m c evs s0 Hok)) as ([] & s & es & Hr & [[??] ? ? ?] & _).
  eauto 10.
Qed.

(** C12. The neighbour events of a topic reach the application complete and in
    order: in a run that does not quit, replaying them from the empty set finds
    no peer that comes up twice or goes down without being up, and ends in the
    active view. *)
Theorem topic_events_mirror_neighbors m d c (r : R) evs :
  validate c = Ok () → Forall (λ x, x.1 ≠ ICommand Quit) evs →
  ∃ s0 s es, with_rng (C:=C) m d c r = Some s0 ∧ run evs s0 = Done () s es ∧
    treplay ∅ es = Some (active (swarm s)).
Proof.
  intros Hc%validate_ok Hq. destruct (with_rng_ok m d c r Hc) as (s0 & Hn & Hok & Ha).
  destruct (wp_total _ _ _ (run_topic_ok m c evs s0 Hok)) as ([] & s & es & Hr & _ & Hm & _).
  exists s0, s, es. split; [done|]. split; [done|]. rewrite <-Ha. by apply Hm.
Qed.

(** The frames a validated configuration admits. *)
Definition frame_ok (c : Config) (e : OutEvent PI) : Prop :=
  match e with
  | SendMessage _ (MSwarm (Shuffle _ nodes _)) => len nodes <= MAX_SHUFFLE_PEERS + 1
  | SendMessage _ (MSwarm (ShuffleReply nodes)) => len nodes <= MAX_SHUFFLE_PEERS
  | SendMessage _ (MGossip (MIHave l)) =>
      len l <= MAX_IHAVE_ENTRIES ∧
      postcard_header_size + 1 + 2 + ihave_max_size * len l <= max_message_size c
  | SendMessage _ (MGossip (Plumtree.MGossip g)) => gossip_validate g = true
  | _ => True
  end.

(** What a topic with a validated configuration sends is bounded: a frame of
    announcements fits the maximal message size together with its envelope, its
    entries are all read by the receiver, node lists are bounded, and payloads
    carry the hash of their content. *)
Theorem topic_frames_bounded m d c (r : R) evs s0 s es :
  validate c = Ok () → with_rng (C:=C) m d c r = Some s0 → run evs s0 = Done () s es →
  Forall (frame_ok c) es.
Proof.
  intros Hc%validate_ok Hn Hr. destruct (with_rng_ok m d c r Hc) as (s0' & Hn' & Hok & _).
  rewrite Hn in Hn'. injection Hn' as <-.
  destruct (wp_Done _ _ _ _ _ _ _ (run_topic_ok m c evs s0 Hok) Hr) as (_ & _ & He).
  eapply Forall_impl; [exact He|]. rewrite (tok_frame _ _ _ Hok). destruct Hc as [Hm _ _ Hf].
  unfold MAX_SHUFFLE_PEERS, MIN_MAX_MESSAGE_SIZE in *.
  intros [to [[]|[]]| | | |]; simpl; try done; unfold MAX_SHUFFLE_PEERS; try lia.
Qed.

(** ** Statistics *)

Abbreviation SameStats m :=
  (respects (S:=State PI C R) (E:=OutEvent PI) True (λ _, True) (emitting stats (λ _ _, True)) m).

Lemma emitting_stats s s' (es : list (OutEvent PI)) :
  stats s' = stats s → emitting stats (λ _ _, True) s s' es.
Proof. intros Hs. split; [done|]. by apply Forall_forall. Qed.

Lemma same_stats_swarm ev : SameStats (swarm_handle ev).
Proof.
  intros s _. apply wp_lift_m. unfold wp. destruct (HyParView.handle _ _); [|done].
  split; [|done]. by apply emitting_stats.
Qed.

Lemma same_stats_gossip ev now : SameStats (gossip_handle ev now).
Proof.
  intros s _. apply wp_lift_m. unfold wp. destruct (Plumtree.handle _ _ _); [|done].
  split; [|done]. by apply emitting_stats.
Qed.
Hint Resolve same_stats_swarm same_stats_gossip : respects.

Definition is_recv (ev : InEvent PI) : bool :=
  match ev with RecvMessage _ _ => true | _ => false end.

Lemma process_stats ev now s :
  wp True (process ev now) (λ _ s' _, messages_sent (stats s') = messages_sent (stats s) ∧
    messages_received (stats s') = if is_recv ev
      then wrapping_add64 (messages_received (stats s)) 1 else messages_received (stats s)) s.
Proof.
  assert (Hd : ∀ m : M (State PI C R) (OutEvent PI) (), SameStats m →
    ∀ s, wp True m (λ _ s' _, stats s' = stats s) s).
  { intros m Hm s'. eapply wp_mono; [by apply Hm|]. by intros ??? [[? _] _]. }
  destruct ev as [from m|[]|[]|p|d]; simpl.
  { do 2 wp_step. eapply wp_mono; [apply Hd; respects_solve|]. intros _ s' es ->. done. }
  all: eapply wp_mono; [apply Hd; respects_solve|]; by intros _ s' es ->.
Qed.

(** The counters of a topic are exact (up to the width of the counter): each
    event adds the number of messages it sends to [messages_sent], and a
    received message adds one to [messages_received]. *)
Theorem topic_counts_messages ev now s s' es :
  handle ev now s = Done () s' es →
  messages_sent (stats s') =
    wrapping_add64 (messages_sent (stats s)) (len (filter (λ e, is_send e = true) es)) ∧
  messages_received (stats s') = if is_recv ev
    then wrapping_add64 (messages_received (stats s)) 1 else messages_received (stats s).
Proof.
  intros Hh. enough (wp True (handle ev now) (λ _ s' es, messages_sent (stats s') =
    wrapping_add64 (messages_sent (stats s)) (len (filter (λ e, is_send e = true) es)) ∧
    messages_received (stats s') = if is_recv ev
      then wrapping_add64 (messages_received (stats s)) 1 else messages_received (stats s)) s) as Hw.
  { exact (wp_Done _ _ _ _ _ _ _ Hw Hh). }
  assert (Hio : ∀ (m : M (State PI C R) (OutEvent PI) ()) Q s0,
    wp True m (λ a s' es, Q a (set_outbox (outbox s' ++ es) s') []) s0 →
    wp True (into_outbox m) Q s0).
  { intros m Q s0. unfold wp, into_outbox. by destruct (m s0). }
  unfold handle. wp_step. apply Hio. eapply wp_mono; [apply process_stats|].
  intros _ s1 es1 [H1 H2]. do 2 wp_step. wp_step. apply Hio.
  assert (Hfw : SameStats (for_each (outbox s1 ++ es1) (forward now))).
  { unfold forward. respects_solve. }
  eapply wp_mono; [by apply Hfw|]. intros _ s2 es2 [[Hst _] _]. simpl in Hst.
  do 2 wp_step. unfold wp, drain. simpl. by rewrite Hst, H1, H2.
Qed.

(** ** The sets of the broadcast tree and the active view *)

(** The peers of the broadcast tree need not be active neighbours: a [Prune]
    message from a peer that is not in the active view makes it a lazy peer,
    and the active view does not change. *)
Theorem prune_adds_stranger_to_tree p now m c s :
  topic_ok m c s → p ∉ active (swarm s) →
  ∃ s' es, handle (RecvMessage p (MGossip MPrune)) now s = Done () s' es ∧
    p ∈ lazy_push_peers (gossip s') ∧ p ∉ active (swarm s').
Proof.
  intros [Hs _ Ho _] Hp.
  destruct (handle (RecvMessage p (MGossip MPrune)) now s) as [[] s' es|] eqn:Hh; cycle 1.
  { pose proof (keeps_topic_handle (RecvMessage p (MGossip MPrune)) now s Hs) as Hk.
    unfold wp in Hk. by rewrite Hh in Hk. }
  exists s', es. split; [done|]. unfold handle in Hh. revert Hh.
  unfold mbind, M_bind, into_outbox at 1. simpl. unfold mbind, M_bind, modify. simpl.
  unfold gossip_handle, lift_m. simpl. unfold Plumtree.handle, mbind, M_bind, gets, when. simpl.
  unfold into_outbox.
  destruct (init (gossip s)); simpl; rewrite Ho; simpl; unfold drain; intros [= <- <-]; simpl; set_solver.
Qed.

End Props.

(** The first neighbour event that a topic forwards to a fresh broadcast
    protocol is not silent: it starts the timer that evicts the caches. *)
Theorem first_neighbor_event_emits {PI} `{HPI : PeerIdentity PI, HB : Blake3, HP : Postcard,
    HI1 : !HashIter MessageId (Instant * ()), HI2 : !HashIter MessageId (Instant * Gossip)}
    (m p : PI) c sz now :
  ∃ g, Plumtree.handle (Plumtree.NeighborUp p) now (Plumtree.new m c sz) =
    Done () g [Plumtree.ScheduleTimer (cache_evict_interval c) EvictCache].
Proof. by eexists. Qed.

(** ** Concrete runs *)

(** The largest fan-out the validation admits, with both views full enough. *)
Definition ex_wide : Config :=
  mkConfig (HyParView.mkConfig 64 1024 6 3 6 63 65 60 500) Plumtree.Config_default 4096.
Definition ex_wide_swarm : HyParView.State N (list N) N :=
  HyParView.mkState 0 None (N.of_nat <$> seq 1 64) (N.of_nat <$> seq 65 65)
    (membership ex_wide) true 0 HyParView.Stats_default ∅ ∅ ∅.

(** With a configuration that the validation accepts, a shuffle message can
    carry one node more than a receiver reads: the last one, which is the
    information of the node that shuffles, is then ignored by the receiver. *)
Theorem shuffle_own_info_not_read :
  ∃ (c : Config) (s s' : HyParView.State N (list N) N) to nodes ttl es,
    validate c = Ok () ∧ views_ok s ∧ HyParView.config s = membership c ∧
    handle_shuffle_timer s =
      Done () s' (HyParView.SendMessage to (Shuffle (HyParView.me s) nodes ttl) :: es) ∧
    HyParView.me s ∈ pi_id <$> nodes ∧
    HyParView.me s ∉ pi_id <$> truncate MAX_SHUFFLE_PEERS nodes.
Proof.
  exists ex_wide, ex_wide_swarm.
  destruct (handle_shuffle_timer ex_wide_swarm)
    as [[] s' [|[to [|?? |o nodes ttl| | |]| | | |] es]|] eqn:Hh;
    try (vm_compute in Hh; discriminate).
  exists s', to, nodes, ttl, es. split; [by vm_compute|]. split.
  { split.
    - apply (bool_decide_unpack _). vm_compute. exact Logic.I.
    - apply (bool_decide_unpack _). vm_compute. exact Logic.I.
    - apply (bool_decide_unpack _). vm_compute. exact Logic.I.
    - vm_compute. discriminate.
    - vm_compute. discriminate. }
  split; [done|]. vm_compute in Hh. injection Hh as <- <- <- <- <- <-.
  split; [done|]. split; apply (bool_decide_unpack _); vm_compute; exact Logic.I.
Qed.

#[local] Instance ex_Blake3 : Blake3 := λ content, content.
#[local] Instance ex_Postcard : Postcard := {| ihave_max_size := 35; prune_serialized_size := 34 |}.
#[local] Instance ex_PostcardLaws : PostcardLaws := {| ihave_max_size_eq := eq_refl; prune_serialized_size_eq := eq_refl |}.
#[local] Existing Instance map_to_list_HashIter.
#[local] Existing Instance map_to_list_HashIterLaws.

Abbreviation ex_State := (State N (list N) N).

Definition ex_events : list (InEvent N * Instant) :=
  [(RecvMessage 1 (MSwarm (HyParView.Join None)), 0%Z);
   (RecvMessage 2 (MSwarm (HyParView.Join None)), 1%Z);
   (RecvMessage 2 (MGossip MPrune), 2%Z);
   (RecvMessage 1 (MGossip (Plumtree.MGossip (mkGossip [7] [7] (SwarmRound 0)))), 3%Z);
   (TimerExpired (TGossip DispatchLazyPush), 4%Z);
   (PeerDisconnected 1, 5%Z);
   (ICommand (Broadcast [8] Swarm), 6%Z)].

Definition ex_fresh : ex_State :=
  mkState 0 (HyParView.new 0 None HyParView.Config_default 0)
    (Plumtree.new 0 Plumtree.Config_default 4063) [] Stats_default.

Lemma ex_fresh_ok : topic_ok 0 Config_default ex_fresh.
Proof.
  destruct (with_rng_ok (C:=list N) 0 None Config_default 0) as (s & Hs & Hok & _).
  { by apply validate_ok. }
  vm_compute in Hs. injection Hs as <-. exact Hok.
Qed.

Lemma topic_reachable_ok_witness :
  ∃ (s0 s : ex_State) es, with_rng 0 None Config_default 0 = Some s0 ∧ run ex_events s0 = Done () s es ∧
    views_ok (swarm s) ∧ plumtree_ok (gossip s) ∧
    active (swarm s) ⊆ eager_push_peers (gossip s) ∪ lazy_push_peers (gossip s) ∧ outbox s = [].
Proof. apply (topic_reachable_ok 0 None Config_default 0 ex_events). vm_compute. reflexivity. Defined.

Lemma topic_events_mirror_neighbors_witness :
  ∃ (s0 s : ex_State) es, with_rng 0 None Config_default 0 = Some s0 ∧ run ex_events s0 = Done () s es ∧
    treplay ∅ es = Some (active (swarm s)).
Proof.
  apply (topic_events_mirror_neighbors 0 None Config_default 0 ex_events);
    [vm_compute; reflexivity|repeat constructor; discriminate].
Defined.

Lemma topic_frames_bounded_witness :
  ∃ (s : ex_State) es, run ex_events ex_fresh = Done () s es ∧
    SendMessage 2 (MGossip (MIHave [mkIHave [7] 1])) ∈ es ∧ Forall (frame_ok Config_default) es.
Proof.
  destruct (run ex_events ex_fresh) as [[] s es|] eqn:Hr; [|vm_compute in Hr; discriminate].
  exists s, es. split; [reflexivity|]. split.
  - vm_compute in Hr. injection Hr as _ <-. set_solver.
  - apply (topic_frames_bounded 0 None Config_default 0 ex_events ex_fresh s es);
      [vm_compute; reflexivity|vm_compute; reflexivity|exact Hr].
Defined.

Lemma topic_counts_messages_witness :
  ∃ (s : ex_State) es, handle (RecvMessage 1 (MSwarm (HyParView.Join None))) 0 ex_fresh = Done () s es ∧
    messages_sent (stats s) = wrapping_add64 0 (len (filter (λ e, is_send e = true) es)) ∧
    messages_received (stats s) = 1.
Proof.
  destruct (handle (RecvMessage 1 (MSwarm (HyParView.Join None))) 0 ex_fresh) as [[] s es|] eqn:Hr;
    [|vm_compute in Hr; discriminate].
  exists s, es. split; [reflexivity|].
  exact (topic_counts_messages (RecvMessage 1 (MSwarm (HyParView.Join None))) 0 ex_fresh s es Hr).
Defined.

Lemma prune_adds_stranger_to_tree_witness :
  ∃ (s : ex_State) es, handle (RecvMessage 9 (MGossip MPrune)) 0 ex_fresh = Done () s es ∧
    9 ∈ lazy_push_peers (gossip s) ∧ 9 ∉ active (swarm s).
Proof.
  apply (prune_adds_stranger_to_tree 9 0 0 Config_default ex_fresh); [exact ex_fresh_ok|].
  apply (bool_decide_unpack _). vm_compute. exact Logic.I.
Defined.
