(* ===== verification/GossipState.v ===== *)
(** * The state of the gossip protocol
      (protocols/krikos-gossip/src/proto/state.rs)

    The map of topics: events are dispatched to the topic they belong to, or to
    all of them, and the events of the topics are tagged and collected. *)
From stdpp Require Import base tactics list gmap sets sorting.
From Stdlib Require Import ZArith Lia.
From S2P Require Import Prelude IndexSet Proto TimeCache HyParView Plumtree Topic.

Local Open Scope N_scope.

(** [TopicId], an array of 32 bytes; only its equality is used. *)
Definition TopicId : Type := list N.
#[global] Instance TopicId_EqDecision : EqDecision TopicId := _.
#[global] Instance TopicId_Countable : Countable TopicId := _.

(** ** Messages, events and timers *)

Section Data.
  Context {PI : Type}.

Record Message : Type := mkMessage {
  msg_topic : TopicId;
  msg_message : Topic.Message PI;
}.

Definition message_kind (m : Message) : MessageKind := kind (msg_message m).

Record Timer : Type := mkTimer {
  timer_topic : TopicId;
  timer_timer : Topic.Timer PI;
}.

Inductive InEvent : Type :=
| RecvMessage (from : PI) (message : Message)
| ICommand (topic : TopicId) (command : Command PI)
| TimerExpired (timer : Timer)
| PeerDisconnected (peer : PI)
| UpdatePeerData (data : PeerData).

Inductive OutEvent : Type :=
| SendMessage (to : PI) (message : Message)
| EmitEvent (topic : TopicId) (event : Topic.Event PI)
| ScheduleTimer (delay : Duration) (timer : Timer)
| DisconnectPeer (peer : PI)
| OutPeerData (peer : PI) (data : PeerData).

Inductive InEventMapped : Type :=
| All (event : Topic.InEvent PI)
| TopicEvent (topic : TopicId) (event : Topic.InEvent PI).

(** [From<InEvent<PI>> for InEventMapped<PI>]. *)
Definition map_event (event : InEvent) : InEventMapped :=
  match event with
  | RecvMessage from (mkMessage topic message) => TopicEvent topic (Topic.RecvMessage from message)
  | ICommand topic command => TopicEvent topic (Topic.ICommand command)
  | TimerExpired (mkTimer topic timer) => TopicEvent topic (Topic.TimerExpired timer)
  | PeerDisconnected peer => All (Topic.PeerDisconnected peer)
  | UpdatePeerData data => All (Topic.UpdatePeerData data)
  end.

End Data.
Arguments Message : clear implicits.
Arguments Timer : clear implicits.
Arguments InEvent : clear implicits.
Arguments OutEvent : clear implicits.
Arguments InEventMapped : clear implicits.

(** ** Third-party code *)

(** [postcard::experimental::serialized_size] of a message. *)
Class MessageSize (PI : Type) : Type := message_size : Message PI → option N.

(** [SeedableRng::from_rng]: a new generator, and the old one after the draw. *)
Class SeedableRng (R : Type) : Type := from_rng : R → R * R.

(** ** Metrics *)

(** The counters of the protocol (metrics.rs) that the state updates. *)
Record Metrics : Type := mkMetrics {
  msgs_ctrl_sent : N;
  msgs_ctrl_recv : N;
  msgs_data_sent : N;
  msgs_data_recv : N;
  msgs_data_sent_size : N;
  msgs_data_recv_size : N;
  msgs_ctrl_sent_size : N;
  msgs_ctrl_recv_size : N;
  neighbor_up : N;
  neighbor_down : N;
}.

Section Track.
  Context {PI : Type} `{HS : MessageSize PI}.

Definition track_out_event (m : Metrics) (event : OutEvent PI) : Metrics :=
  match event with
  | SendMessage _ message =>
      let size := default 0 (message_size message) in
      match message_kind message with
      | Data => mkMetrics (msgs_ctrl_sent m) (msgs_ctrl_recv m)
          (wrapping_add64 (msgs_data_sent m) 1) (msgs_data_recv m)
          (wrapping_add64 (msgs_data_sent_size m) size) (msgs_data_recv_size m)
          (msgs_ctrl_sent_size m) (msgs_ctrl_recv_size m) (neighbor_up m) (neighbor_down m)
      | Control => mkMetrics (wrapping_add64 (msgs_ctrl_sent m) 1) (msgs_ctrl_recv m)
          (msgs_data_sent m) (msgs_data_recv m)
          (msgs_data_sent_size m) (msgs_data_recv_size m)
          (wrapping_add64 (msgs_ctrl_sent_size m) size) (msgs_ctrl_recv_size m)
          (neighbor_up m) (neighbor_down m)
      end
  | EmitEvent _ (NeighborUp _) => mkMetrics (msgs_ctrl_sent m) (msgs_ctrl_recv m)
      (msgs_data_sent m) (msgs_data_recv m) (msgs_data_sent_size m) (msgs_data_recv_size m)
      (msgs_ctrl_sent_size m) (msgs_ctrl_recv_size m)
      (wrapping_add64 (neighbor_up m) 1) (neighbor_down m)
  | EmitEvent _ (NeighborDown _) => mkMetrics (msgs_ctrl_sent m) (msgs_ctrl_recv m)
      (msgs_data_sent m) (msgs_data_recv m) (msgs_data_sent_size m) (msgs_data_recv_size m)
      (msgs_ctrl_sent_size m) (msgs_ctrl_recv_size m)
      (neighbor_up m) (wrapping_add64 (neighbor_down m) 1)
  | _ => m
  end.

Definition track_out_events (events : list (OutEvent PI)) (m : Metrics) : Metrics :=
  foldl track_out_event m events.

Definition track_in_event (event : InEvent PI) (m : Metrics) : Metrics :=
  match event with
  | RecvMessage _ message =>
      let size := default 0 (message_size message) in
      match message_kind message with
      | Data => mkMetrics (msgs_ctrl_sent m) (msgs_ctrl_recv m)
          (msgs_data_sent m) (wrapping_add64 (msgs_data_recv m) 1)
          (msgs_data_sent_size m) (wrapping_add64 (msgs_data_recv_size m) size)
          (msgs_ctrl_sent_size m) (msgs_ctrl_recv_size m) (neighbor_up m) (neighbor_down m)
      | Control => mkMetrics (msgs_ctrl_sent m) (wrapping_add64 (msgs_ctrl_recv m) 1)
          (msgs_data_sent m) (msgs_data_recv m)
          (msgs_data_sent_size m) (msgs_data_recv_size m)
          (msgs_ctrl_sent_size m) (wrapping_add64 (msgs_ctrl_recv_size m) size)
          (neighbor_up m) (neighbor_down m)
      end
  | _ => m
  end.

End Track.

(** ** State *)

Record State (PI C R : Type) `{PeerIdentity PI} : Type := mkState {
  me : PI;
  me_data : PeerData;
  config : Topic.Config;
  rng : R;
  states : gmap TopicId (Topic.State PI C R);
  outbox : list (OutEvent PI);
  peer_topics : gmap PI (gset TopicId);
}.
Arguments mkState {PI C R _} _ _ _ _ _ _ _.
Arguments me {PI C R _} _.
Arguments me_data {PI C R _} _.
Arguments config {PI C R _} _.
Arguments rng {PI C R _} _.
Arguments states {PI C R _} _.
Arguments outbox {PI C R _} _.
Arguments peer_topics {PI C R _} _.

Section Gossip.
  Context {PI C R : Type} `{HPI : PeerIdentity PI, HC : !IndexMapSet PI C, HR : !Rng R,
    HSR : !SeedableRng R, HB : Blake3, HP : Postcard, HS : !MessageSize PI,
    HI1 : !HashIter MessageId (Instant * ()), HI2 : !HashIter MessageId (Instant * Gossip),
    HI3 : !HashIter TopicId (Topic.State PI C R)}.

Abbreviation St := (State PI C R).
Abbreviation GM := (M St (OutEvent PI)).

Definition set_me_data x (s : St) : St :=
  mkState (me s) x (config s) (rng s) (states s) (outbox s) (peer_topics s).
Definition set_rng x (s : St) : St :=
  mkState (me s) (me_data s) (config s) x (states s) (outbox s) (peer_topics s).
Definition set_states x (s : St) : St :=
  mkState (me s) (me_data s) (config s) (rng s) x (outbox s) (peer_topics s).
Definition set_outbox x (s : St) : St :=
  mkState (me s) (me_data s) (config s) (rng s) (states s) x (peer_topics s).
Definition set_peer_topics x (s : St) : St :=
  mkState (me s) (me_data s) (config s) (rng s) (states s) (outbox s) x.

(** [State::new]; [None] is the panic on an invalid configuration. *)
Definition new (me : PI) (me_data : PeerData) (config : Topic.Config) (rng : R) : option St :=
  match validate config with
  | Err _ => None
  | Ok _ => Some (mkState me me_data config rng ∅ [] ∅)
  end.

Definition state (topic : TopicId) (s : St) : option (Topic.State PI C R) := states s !! topic.

Definition reset_stats (topic : TopicId) (s : St) : St :=
  match states s !! topic with
  | Some st => set_states (<[topic := Topic.reset_stats st]> (states s)) s
  | None => s
  end.

Definition has_active_peers (topic : TopicId) (s : St) : bool :=
  default false (Topic.has_active_peers <$> state topic s).

(** [outbox.push(event)]. *)
Definition push (event : OutEvent PI) : GM () :=
  modify (λ s, set_outbox (outbox s ++ [event]) s).

(** The closure of [handle_out_event] for [DisconnectPeer]: whether the connection
    is closed, and the map of connections afterwards. *)
Definition drop_topic (topic : TopicId) (peer : PI) (conns : gmap PI (gset TopicId))
    : bool * gmap PI (gset TopicId) :=
  match conns !! peer with
  | Some list =>
      let '(removed, list) := hs_remove topic list in
      let empty := removed || bool_decide (list = ∅) in
      (empty, if empty then delete peer conns else <[peer := list]> conns)
  | None => (false, conns)
  end.

Definition handle_out_event (topic : TopicId) (event : Topic.OutEvent PI) : GM () :=
  match event with
  | Topic.SendMessage to message => push (SendMessage to (mkMessage topic message))
  | Topic.EmitEvent event => push (EmitEvent topic event)
  | Topic.ScheduleTimer delay timer => push (ScheduleTimer delay (mkTimer topic timer))
  | Topic.DisconnectPeer peer =>
      empty ← zoom peer_topics set_peer_topics (drop_topic topic peer);
      when empty (push (DisconnectPeer peer))
  | Topic.OutPeerData peer data => push (OutPeerData peer data)
  end.

(** [state.handle(event, now)] on the state of a topic in the map, and the loop
    over its events. *)
Definition run_topic (topic : TopicId) (st : Topic.State PI C R) (event : Topic.InEvent PI)
    (now : Instant) : GM () :=
  match Topic.handle event now st with
  | Panicked => panic
  | Done _ st out =>
      modify (λ s, set_states (<[topic := st]> (states s)) s) ;;
      for_each out (handle_out_event topic)
  end.

(** A [Join] command creates the state of the topic, if there is room. *)
Definition is_join (event : Topic.InEvent PI) : bool :=
  match event with Topic.ICommand (Join _) => true | _ => false end.

Definition is_quit (event : Topic.InEvent PI) : bool :=
  match event with Topic.ICommand Quit => true | _ => false end.

Definition join_topic (topic : TopicId) : GM () :=
  states0 ← gets states;
  let may_add_topic := ssize states0 <? MAX_TOPICS in
  match states0 !! topic with
  | None =>
      if may_add_topic then
        rng ← zoom rng set_rng from_rng;
        me ← gets me;
        data ← gets me_data;
        config ← gets config;
        match with_rng me (Some data) config rng with
        | None => panic
        | Some st => modify (λ s, set_states (<[topic := st]> (states s)) s)
        end
      else mret ()
  | Some _ => mret ()
  end.

(** A message makes a note that the topic may want to keep the connection. *)
Definition note_peer (topic : TopicId) (event : Topic.InEvent PI) : GM () :=
  match event with
  | Topic.RecvMessage from _ =>
      modify (λ s,
        let conns := peer_topics s in
        let may_add_peer := ssize conns <? MAX_TOPICS * MAX_ACTIVE_VIEW_CAPACITY in
        if bool_decide (is_Some (conns !! from)) || may_add_peer
        then set_peer_topics (<[from := {[topic]} ∪ default ∅ (conns !! from)]> conns) s
        else s)
  | _ => mret ()
  end.

(** The arm [InEventMapped::TopicEvent] of [handle]. *)
Definition handle_topic_event (topic : TopicId) (event : Topic.InEvent PI) (now : Instant) : GM () :=
  when (is_join event) (join_topic topic) ;;
  st ← gets (λ s, states s !! topic);
  match st with
  | Some st => note_peer topic event ;; run_topic topic st event now
  | None => mret ()
  end ;;
  when (is_quit event) (modify (λ s, set_states (delete topic (states s)) s)).

(** The arm [InEventMapped::All] of [handle]: the loop visits each topic once. *)
Definition handle_all (event : Topic.InEvent PI) (now : Instant) : GM () :=
  match event with
  | Topic.UpdatePeerData data => modify (set_me_data data)
  | _ => mret ()
  end ;;
  topics ← gets (λ s, (hash_iter (states s)).*1);
  for_each topics (λ topic,
    st ← gets (λ s, states s !! topic);
    match st with
    | Some st => run_topic topic st event now
    | None => mret ()
    end).

(** [self.outbox.drain(..)]. *)
Definition drain : GM () := λ s, Done () (set_outbox [] s) (outbox s).

(** [handle]; the metrics are shared, so the call returns them. *)
Definition handle (event : InEvent PI) (now : Instant) (metrics : option Metrics)
    : GM (option Metrics) :=
  let metrics := track_in_event event <$> metrics in
  match map_event event with
  | TopicEvent topic event => handle_topic_event topic event now
  | All event => handle_all event now
  end ;;
  events ← gets outbox;
  let metrics := track_out_events events <$> metrics in
  drain ;;
  mret metrics.

End Gossip.
