(* ===== verification/GossipStateFacts.v ===== *)
(** * The invariant of the gossip protocol

    What the dispatcher does to the map of topics, the map of connections and
    the collected events. *)
From stdpp Require Import base tactics list gmap sets sorting.
From Stdlib Require Import ZArith Lia.
From S2P Require Import Prelude IndexSet Proto TimeCache HyParView Plumtree Topic.
From S2P Require Import HyParViewFacts PlumtreeFacts TopicFacts TopicProps GossipState.

Local Open Scope N_scope.

Section Facts.
  Context {PI C R : Type} `{HPI : PeerIdentity PI, HC : !IndexMapSet PI C,
    HCL : !IndexMapSetLaws PI C, HR : !Rng R, HRL : !RngLaws R, HSR : !SeedableRng R,
    HB : Blake3, HP : Postcard, HPL : !PostcardLaws, HS : !MessageSize PI,
    HI1 : !HashIter MessageId (Instant * ()), HIL1 : !HashIterLaws MessageId (Instant * ()),
    HI2 : !HashIter MessageId (Instant * Gossip), HIL2 : !HashIterLaws MessageId (Instant * Gossip),
    HI3 : !HashIter TopicId (Topic.State PI C R), HIL3 : !HashIterLaws TopicId (Topic.State PI C R)}.
  Implicit Types (s : State PI C R) (st : Topic.State PI C R).

(** ** The events of a topic *)

(** An event of a topic with the tag of the topic; closing a connection is up to
    the map of connections. *)
Definition tag (topic : TopicId) (e : Topic.OutEvent PI) : option (OutEvent PI) :=
  match e with
  | Topic.SendMessage to m => Some (SendMessage to (mkMessage topic m))
  | Topic.EmitEvent ev => Some (EmitEvent topic ev)
  | Topic.ScheduleTimer d t => Some (ScheduleTimer d (mkTimer topic t))
  | Topic.DisconnectPeer _ => None
  | Topic.OutPeerData p d => Some (OutPeerData p d)
  end.

Definition is_close (e : OutEvent PI) : bool :=
  match e with DisconnectPeer _ => true | _ => false end.

(** The events other than the closing of connections. *)
Definition tagged (es : list (OutEvent PI)) : list (OutEvent PI) :=
  filter (λ e, is_close e = false) es.

(** The effect of collecting the events of a topic. *)
Record collects (topic : TopicId) (out : list (Topic.OutEvent PI)) s s' : Prop := {
  cl_states : states s' = states s;
  cl_me : me s' = me s;
  cl_me_data : me_data s' = me_data s;
  cl_config : config s' = config s;
  cl_rng : rng s' = rng s;
  cl_peers : dom (peer_topics s') ⊆ dom (peer_topics s);
  cl_outbox : ∃ l, outbox s' = outbox s ++ l ∧ tagged l = omap (tag topic) out;
}.

Lemma tagged_app l1 l2 : tagged (l1 ++ l2) = tagged l1 ++ tagged l2.
Proof. apply filter_app. Qed.

Lemma drop_topic_dom topic p conns :
  dom (drop_topic topic p conns).2 ⊆ dom conns.
Proof.
  unfold drop_topic. destruct (conns !! p) as [l|] eqn:Hp; simpl; [|done].
  apply elem_of_dom_2 in Hp. destruct (_ || _); simpl; set_solver.
Qed.

Lemma handle_out_event_spec topic e s :
  ∃ s', handle_out_event topic e s = Done () s' [] ∧ collects topic [e] s s'.
Proof.
  destruct e; simpl; try (eexists; split; [done|]; split; try done; eexists; split; [done|];
    by unfold tagged).
  unfold mbind, M_bind, zoom.
  pose proof (drop_topic_dom topic peer (peer_topics s)) as Hd.
  destruct (drop_topic topic peer (peer_topics s)) as [[] conns]; simpl in *.
  - eexists. split; [done|]. split; try done. by exists [DisconnectPeer peer].
  - eexists. split; [done|]. split; try done. exists []. by rewrite (right_id_L [] (++)).
Qed.

Lemma collect_spec topic out s :
  ∃ s', for_each out (handle_out_event topic) s = Done () s' [] ∧ collects topic out s s'.
Proof.
  revert s. induction out as [|e out IH]; intros s.
  { exists s. split; [done|]. split; try done. exists []. by rewrite (right_id_L [] (++)). }
  destruct (handle_out_event_spec topic e s) as (s1 & H1 & [????? Hd1 (l1 & Ho1 & Ht1)]).
  destruct (IH s1) as (s2 & H2 & [????? Hd2 (l2 & Ho2 & Ht2)]).
  exists s2. split; [cbn [for_each]; unfold mbind, M_bind; by rewrite H1, H2|].
  split; [congruence..|set_solver|]. exists (l1 ++ l2). split; [by rewrite Ho2, Ho1, (assoc_L (++))|].
  rewrite tagged_app, Ht1, Ht2. simpl. by destruct (tag topic e).
Qed.

(** ** One topic *)

(** Running the handler of one topic. *)
Lemma run_topic_spec topic st ev now s st' out :
  Topic.handle ev now st = Done () st' out →
  ∃ s', run_topic topic st ev now s = Done () s' [] ∧
    collects topic out (set_states (<[topic := st']> (states s)) s) s'.
Proof.
  intros Hh. unfold run_topic. rewrite Hh. unfold mbind, M_bind, modify. simpl.
  destruct (collect_spec topic out (set_states (<[topic := st']> (states s)) s)) as (s' & H' & Hc).
  exists s'. by rewrite H'.
Qed.

Record gossip_ok s : Prop := {
  go_topics : map_Forall (λ _, topic_ok (me s) (config s)) (states s);
  go_limit : ssize (states s) <= MAX_TOPICS;
  go_peers : ssize (peer_topics s) <= MAX_TOPICS * MAX_ACTIVE_VIEW_CAPACITY;
  go_config : config_ok (config s);
}.

Definition gframe s : PI * Topic.Config := (me s, config s).

Lemma topic_handle_total m c ev now st :
  topic_ok m c st → ∃ st' out, Topic.handle ev now st = Done () st' out ∧ topic_ok m c st'.
Proof.
  intros Hst. destruct (wp_total _ _ _ (handle_topic_ok m c ev now st Hst))
    as ([] & st' & out & ? & ? & _). eauto.
Qed.

Lemma collects_ok topic out s s' : gossip_ok s → collects topic out s s' → gossip_ok s' ∧ gframe s' = gframe s.
Proof.
  intros [Ht Hl Hp Hc] [Hst Hm _ Hcf _ Hd _]. unfold gframe. rewrite Hm, Hcf. split; [|done].
  split; rewrite ?Hst, ?Hm, ?Hcf; try done.
  apply subseteq_size in Hd. rewrite !size_dom in Hd. unfold ssize in *. lia.
Qed.

Lemma ok_set_topic topic st s :
  gossip_ok s → is_Some (states s !! topic) → topic_ok (me s) (config s) st →
  gossip_ok (set_states (<[topic := st]> (states s)) s).
Proof.
  intros [] Hin Hst. split; simpl; try done; [by apply map_Forall_insert_2|].
  unfold ssize in *. by rewrite map_size_insert_Some.
Qed.

(** A topic of the map handles an event. *)
Lemma run_topic_keeps_ok topic st ev now s :
  gossip_ok s → states s !! topic = Some st →
  ∃ st' out s', Topic.handle ev now st = Done () st' out ∧
    run_topic topic st ev now s = Done () s' [] ∧
    collects topic out (set_states (<[topic := st']> (states s)) s) s' ∧
    gossip_ok s' ∧ gframe s' = gframe s.
Proof.
  intros Hs Hst. destruct (topic_handle_total (me s) (config s) ev now st) as (st' & out & Hh & Hok).
  { by eapply (go_topics s Hs). }
  destruct (run_topic_spec topic st ev now s st' out Hh) as (s' & Hr & Hc).
  exists st', out, s'. do 3 (split; [done|]).
  apply (collects_ok topic out (set_states (<[topic := st']> (states s)) s)); [|done].
  apply ok_set_topic; [done| |done]. by rewrite Hst.
Qed.

(** ** Joining *)

Lemma join_topic_spec topic s :
  gossip_ok s →
  ∃ s', join_topic topic s = Done () s' [] ∧ gossip_ok s' ∧ gframe s' = gframe s ∧
    me_data s' = me_data s ∧ outbox s' = outbox s ∧ peer_topics s' = peer_topics s ∧
    (∀ t, t ≠ topic → states s' !! t = states s !! t) ∧
    (is_Some (states s !! topic) ∨ ssize (states s) < MAX_TOPICS → is_Some (states s' !! topic)) ∧
    (is_Some (states s !! topic) ∨ MAX_TOPICS <= ssize (states s) → s' = s).
Proof.
  intros Hs. unfold join_topic, mbind, M_bind, gets at 1. simpl.
  destruct (states s !! topic) as [st|] eqn:Hst.
  { exists s. do 6 (split; [done|]). split; [done|]. split; [by rewrite Hst|done]. }
  destruct (ssize (states s) <? MAX_TOPICS) eqn:Hroom; bool_hyps; cycle 1.
  { exists s. do 7 (split; [done|]). split; [|done]. intros [[? ?]|?]; [done|lia]. }
  unfold mbind, M_bind, zoom, gets. destruct (from_rng (rng s)) as [r1 r2]. simpl.
  destruct (with_rng_ok (me s) (Some (me_data s)) (config s) r1 (go_config s Hs)) as (st & -> & Hok & _).
  eexists. split; [done|]. destruct Hs. split.
  { split; simpl; try done; [by apply map_Forall_insert_2|].
    unfold ssize in *. rewrite map_size_insert_None by done. lia. }
  do 4 (split; [done|]). split; [|split]; simpl.
  - intros t Ht. by rewrite lookup_insert_ne.
  - intros _. by rewrite lookup_insert_eq.
  - intros [[? ?]|?]; [done|lia].
Qed.

Lemma note_peer_spec topic ev s :
  gossip_ok s →
  ∃ s', note_peer topic ev s = Done () s' [] ∧ gossip_ok s' ∧ gframe s' = gframe s ∧
    states s' = states s ∧ outbox s' = outbox s.
Proof.
  intros Hs. destruct ev as [from m| | | |]; try (by exists s).
  eexists. split; [done|]. simpl. destruct (_ || _) eqn:Hroom; [|done].
  apply orb_true_iff in Hroom. rewrite bool_decide_eq_true, N.ltb_lt in Hroom.
  split; [|done]. destruct Hs. split; simpl; try done.
  destruct Hroom as [Hin|Hlt].
  - unfold ssize in *. by rewrite map_size_insert_Some.
  - etrans; [apply ssize_insert_le|]. by apply N.le_succ_l in Hlt; rewrite <-N.add_1_r in Hlt.
Qed.

(** ** Dispatching *)

(** An event for one topic. [s1] is the state after a [Join] command has made
    room for the topic. *)
Lemma handle_topic_event_spec topic ev now s :
  gossip_ok s → outbox s = [] →
  ∃ s1 s', (if is_join ev then join_topic topic s = Done () s1 [] else s1 = s) ∧
    handle_topic_event topic ev now s = Done () s' [] ∧
    gossip_ok s' ∧ gframe s' = gframe s ∧
    (∀ t, t ≠ topic → states s' !! t = states s !! t) ∧
    match states s1 !! topic with
    | Some st => ∃ st' out, Topic.handle ev now st = Done () st' out ∧
        states s' !! topic = (if is_quit ev then None else Some st') ∧
        tagged (outbox s') = omap (tag topic) out
    | None => states s' !! topic = None ∧ outbox s' = []
    end.
Proof.
  intros Hs Ho. assert (∃ s1, (if is_join ev then join_topic topic s = Done () s1 [] else s1 = s) ∧
    when (is_join ev) (join_topic topic) s = Done () s1 [] ∧ gossip_ok s1 ∧ gframe s1 = gframe s ∧
    outbox s1 = [] ∧ ∀ t, t ≠ topic → states s1 !! t = states s !! t)
    as (s1 & Hj & Hw & Hs1 & Hf1 & Ho1 & Hst1).
  { destruct (is_join ev); [|by exists s].
    destruct (join_topic_spec topic s Hs) as (s1 & Hj & ? & ? & _ & Ho1 & _ & ? & _).
    exists s1. by rewrite Ho1. }
  unfold handle_topic_event, mbind, M_bind. rewrite Hw. unfold gets at 1.
  destruct (states s1 !! topic) as [st|] eqn:Hst.
  - destruct (note_peer_spec topic ev s1 Hs1) as (s2 & Hn & Hs2 & Hf2 & Hst2 & Ho2).
    destruct (run_topic_keeps_ok topic st ev now s2 Hs2) as (st' & out & s3 & Hh & Hr & Hc & Hs3 & Hf3).
    { by rewrite Hst2. }
    assert (Hst3 : states s3 = <[topic := st']> (states s1)).
    { rewrite (cl_states _ _ _ _ Hc). simpl. by rewrite Hst2. }
    assert (Hout : tagged (outbox s3) = omap (tag topic) out).
    { destruct (cl_outbox _ _ _ _ Hc) as (l & Hl & Ht). simpl in Hl. by rewrite Hl, Ho2, Ho1. }
    destruct (is_quit ev) eqn:Hq; eexists s1, _; (split; [done|]); rewrite Hn, Hr; simpl;
      (split; [done|]).
    + split; [|split; [transitivity (gframe s3); [done|congruence]|split]].
      * destruct Hs3. split; simpl; try done; [by apply map_Forall_delete|].
        etrans; [apply ssize_delete_le|done].
      * intros t Ht. simpl. rewrite lookup_delete_ne by done. by rewrite Hst3, lookup_insert_ne, Hst1.
      * rewrite Hst. exists st', out. split; [done|]. split; [apply lookup_delete_eq|done].
    + split; [done|]. split; [congruence|]. split.
      * intros t Ht. by rewrite Hst3, lookup_insert_ne, Hst1.
      * rewrite Hst. exists st', out. split; [done|]. split; [by rewrite Hst3, lookup_insert_eq|done].
  - exists s1. simpl. destruct (is_quit ev); simpl; eexists; (split; [done|]); (split; [done|]).
    + rewrite delete_id by done. destruct s1; simpl in *. split; [by destruct Hs1|].
      split; [done|]. split; [done|]. by rewrite Hst.
    + split; [done|]. split; [done|]. split; [done|]. by rewrite Hst.
Qed.

(** The loop over all topics. *)
Lemma all_loop_spec l ev now s :
  gossip_ok s → NoDup l →
  ∃ s', for_each l (λ topic,
      st ← gets (λ s, states s !! topic);
      match st with
      | Some st => run_topic topic st ev now
      | None => mret ()
      end) s = Done () s' [] ∧ gossip_ok s' ∧ gframe s' = gframe s ∧ me_data s' = me_data s ∧
    (∀ t, t ∉ l → states s' !! t = states s !! t) ∧
    (∀ t st, t ∈ l → states s !! t = Some st →
       ∃ st' out, Topic.handle ev now st = Done () st' out ∧ states s' !! t = Some st') ∧
    (∀ t, t ∈ l → states s !! t = None → states s' !! t = None).
Proof.
  intros Hs Hnd. revert s Hs. induction Hnd as [|t l Ht Hnd IH]; intros s Hs.
  { exists s. repeat (split; [done|]). split; by intros ? ?%elem_of_nil || intros ?? ?%elem_of_nil. }
  cbn [for_each]. unfold mbind at 1, M_bind at 1. unfold mbind at 1, M_bind at 1, gets at 1.
  destruct (states s !! t) as [st|] eqn:Hst.
  - destruct (run_topic_keeps_ok t st ev now s Hs Hst) as (st' & out & s1 & Hh & Hr & Hc & Hs1 & Hf1).
    destruct (IH s1 Hs1) as (s2 & H2 & Hs2 & Hf2 & Hd2 & Hout & Hin & Hno).
    exists s2. rewrite Hr, H2. pose proof (cl_states _ _ _ _ Hc) as Hst1. simpl in Hst1.
    pose proof (cl_me_data _ _ _ _ Hc) as Hd1. simpl in Hd1.
    split; [done|]. split; [done|]. split; [congruence|]. split; [congruence|]. split; [|split].
    + intros t' [Hne Hl]%not_elem_of_cons. rewrite Hout, Hst1 by done. by rewrite lookup_insert_ne.
    + intros t' st0 [->|Hl]%elem_of_cons Hst0.
      * exists st', out. simplify_eq. split; [done|]. by rewrite Hout, Hst1, lookup_insert_eq.
      * apply Hin; [done|]. rewrite Hst1, lookup_insert_ne; [done|]. by intros ->.
    + intros t' [->|Hl]%elem_of_cons Hst0; [congruence|].
      apply Hno; [done|]. rewrite Hst1, lookup_insert_ne; [done|]. by intros ->.
  - destruct (IH s Hs) as (s2 & H2 & Hs2 & Hf2 & Hd2 & Hout & Hin & Hno).
    exists s2. simpl. rewrite H2. do 4 (split; [done|]). split; [|split].
    + intros t' [_ Hl]%not_elem_of_cons. by apply Hout.
    + intros t' st0 [->|Hl]%elem_of_cons Hst0; [congruence|]. by apply Hin.
    + intros t' [->|Hl]%elem_of_cons Hst0; [|by apply Hno]. by rewrite Hout.
Qed.

Lemma topic_keys s :
  NoDup (hash_iter (states s)).*1 ∧ ∀ t, t ∈ (hash_iter (states s)).*1 ↔ is_Some (states s !! t).
Proof.
  split.
  - rewrite (hash_iter_perm (states s)). apply NoDup_fst_map_to_list.
  - intros t. rewrite (hash_iter_perm (states s)), list_elem_of_fmap. split.
    + intros ([k st] & -> & Hk%elem_of_map_to_list). by eexists.
    + intros [st Hst]. exists (t, st). split; [done|]. by apply elem_of_map_to_list.
Qed.

(** An event for all topics is handled once by each of them. *)
Lemma handle_all_spec ev now s :
  gossip_ok s →
  ∃ s', handle_all ev now s = Done () s' [] ∧ gossip_ok s' ∧ gframe s' = gframe s ∧
    dom (states s') = dom (states s) ∧
    ∀ t st, states s !! t = Some st →
      ∃ st' out, Topic.handle ev now st = Done () st' out ∧ states s' !! t = Some st'.
Proof.
  intros Hs. unfold handle_all.
  match goal with |- context [mbind _ ?m] => set (m0 := m) end.
  assert (∃ s0, m0 s = Done () s0 [] ∧ gossip_ok s0 ∧ gframe s0 = gframe s ∧ states s0 = states s)
    as (s0 & Hm & Hs0 & Hf0 & Hst0).
  { subst m0. destruct ev as [| | | |d]; try (by exists s).
    eexists. split; [done|]. by destruct Hs. }
  unfold mbind at 1, M_bind at 1. rewrite Hm. unfold mbind at 1, M_bind at 1, gets at 1. destruct (topic_keys s0) as [Hnd Hkeys].
  destruct (all_loop_spec _ ev now s0 Hs0 Hnd) as (s' & Hl & Hs' & Hf' & _ & Hout & Hin & Hno).
  rewrite Hl. exists s'. split; [done|]. split; [done|]. split; [congruence|]. split.
  - apply set_eq. intros t. rewrite !elem_of_dom, <-Hst0.
    destruct (states s0 !! t) as [st|] eqn:Hst.
    + destruct (Hin t st) as (st' & out & _ & ->); [by apply Hkeys|done|]. split; by eexists.
    + rewrite Hout, Hst; [done|]. rewrite Hkeys, Hst. by intros [? ?].
  - intros t st Hst. rewrite <-Hst0 in Hst. apply Hin; [|done]. apply Hkeys. by rewrite Hst.
Qed.

End Facts.
