(* ===== verification/GossipStateProps.v ===== *)
(** * Correctness of the gossip protocol

    The theorems about the map of topics, with a concrete run for each. *)
From stdpp Require Import base tactics list gmap sets sorting.
From Stdlib Require Import ZArith Lia.
From S2P Require Import Prelude IndexSet Proto TimeCache HyParView Plumtree Topic.
From S2P Require Import HyParViewFacts PlumtreeFacts TopicFacts TopicProps GossipState GossipStateFacts.

Local Open Scope N_scope.

Section Props.
  Context {PI C R : Type} `{HPI : PeerIdentity PI, HC : !IndexMapSet PI C,
    HCL : !IndexMapSetLaws PI C, HR : !Rng R, HRL : !RngLaws R, HSR : !SeedableRng R,
    HB : Blake3, HP : Postcard, HPL : !PostcardLaws, HS : !MessageSize PI,
    HI1 : !HashIter MessageId (Instant * ()), HIL1 : !HashIterLaws MessageId (Instant * ()),
    HI2 : !HashIter MessageId (Instant * Gossip), HIL2 : !HashIterLaws MessageId (Instant * Gossip),
    HI3 : !HashIter TopicId (Topic.State PI C R), HIL3 : !HashIterLaws TopicId (Topic.State PI C R)}.
  Implicit Types (s : State PI C R).

(** Everything the protocol maintains between two events. *)
Definition idle_ok s : Prop := gossip_ok s ∧ outbox s = [].

(** Feeding a sequence of events, each at its time, with shared metrics. *)
Fixpoint run (evs : list (InEvent PI * Instant)) (metrics : option Metrics)
    : M (State PI C R) (OutEvent PI) (option Metrics) :=
  match evs with
  | [] => mret metrics
  | (ev, now) :: evs => metrics ← handle ev now metrics; run evs metrics
  end.

(** An event for one topic, through the whole handler. *)
Lemma handle_TopicEvent ev topic tev now metrics s :
  idle_ok s → map_event ev = TopicEvent topic tev →
  ∃ s1 metrics' s' es, (if is_join tev then join_topic topic s = Done () s1 [] else s1 = s) ∧
    handle ev now metrics s = Done metrics' s' es ∧ idle_ok s' ∧ gframe s' = gframe s ∧
    (∀ t, t ≠ topic → states s' !! t = states s !! t) ∧
    match states s1 !! topic with
    | Some st => ∃ st' out, Topic.handle tev now st = Done () st' out ∧
        states s' !! topic = (if is_quit tev then None else Some st') ∧
        tagged es = omap (tag topic) out
    | None => states s' !! topic = None ∧ es = []
    end.
Proof.
  intros [Hs Ho] Hev.
  destruct (handle_topic_event_spec topic tev now s Hs Ho)
    as (s1 & s2 & Hj & Hh & Hs2 & Hf & Hother & Hm).
  eexists s1, _, _, _. split; [done|]. unfold handle. rewrite Hev.
  unfold mbind at 1, M_bind at 1. rewrite Hh. simpl. split; [done|].
  split; [by split; [destruct Hs2|]|]. split; [done|]. split; [done|].
  by rewrite (right_id_L [] (++)).
Qed.

(** An event for all topics, through the whole handler. *)
Lemma handle_All ev tev now metrics s :
  idle_ok s → map_event ev = All tev →
  ∃ metrics' s' es, handle ev now metrics s = Done metrics' s' es ∧ idle_ok s' ∧
    gframe s' = gframe s ∧ dom (states s') = dom (states s) ∧
    ∀ t st, states s !! t = Some st →
      ∃ st' out, Topic.handle tev now st = Done () st' out ∧ states s' !! t = Some st'.
Proof.
  intros [Hs Ho] Hev. destruct (handle_all_spec tev now s Hs) as (s2 & Hh & Hs2 & Hf & Hd & Hm).
  eexists _, _, _. unfold handle. rewrite Hev. unfold mbind at 1, M_bind at 1. rewrite Hh. simpl.
  split; [done|]. split; [by split; [destruct Hs2|]|]. done.
Qed.

Lemma handle_idle_ok ev now metrics s :
  idle_ok s → ∃ metrics' s' es, handle ev now metrics s = Done metrics' s' es ∧
    idle_ok s' ∧ gframe s' = gframe s.
Proof.
  intros Hs. destruct (map_event ev) as [tev|topic tev] eqn:Hev.
  - destruct (handle_All ev tev now metrics s Hs Hev) as (m & s' & es & ? & ? & ? & _). eauto 10.
  - destruct (handle_TopicEvent ev topic tev now metrics s Hs Hev)
      as (? & m & s' & es & _ & ? & ? & ? & _). eauto 10.
Qed.

Lemma run_idle_ok evs metrics s :
  idle_ok s → ∃ metrics' s' es, run evs metrics s = Done metrics' s' es ∧
    idle_ok s' ∧ gframe s' = gframe s.
Proof.
  revert s metrics. induction evs as [|[ev now] evs IH]; intros s metrics Hok.
  { by exists metrics, s, []. }
  destruct (handle_idle_ok ev now metrics s Hok) as (m1 & s1 & es1 & Hh & Hok1 & Hf1).
  destruct (IH s1 m1 Hok1) as (m2 & s2 & es2 & Hr & Hok2 & Hf2).
  exists m2, s2, (es1 ++ es2). split; [|split; [done|congruence]].
  cbn [run]. unfold mbind, M_bind. by rewrite Hh, Hr.
Qed.


(** The topic an event is about. *)
Definition out_topic (e : OutEvent PI) : option TopicId :=
  match e with
  | SendMessage _ m => Some (msg_topic m)
  | EmitEvent t _ => Some t
  | ScheduleTimer _ t => Some (timer_topic t)
  | DisconnectPeer _ | OutPeerData _ _ => None
  end.

Lemma tagged_topics topic out es :
  tagged es = omap (tag topic) out →
  Forall (λ e, out_topic e = None ∨ out_topic e = Some topic) es.
Proof.
  intros Ht. apply Forall_forall. intros e He. destruct (is_close e) eqn:Hc.
  { destruct e; try done. by left. }
  assert (e ∈ tagged es) as Hin by by apply list_elem_of_filter.
  rewrite Ht in Hin. apply list_elem_of_omap in Hin as (x & _ & Hx).
  destruct x; simplify_eq/=; auto.
Qed.

(** Topics are isolated: a message, a command or a timer of one topic leaves
    the states of all other topics as they are, and the messages, application
    events and timers it causes carry the same topic. *)
Theorem topic_isolation ev topic tev now metrics s :
  idle_ok s → map_event ev = TopicEvent topic tev →
  ∃ metrics' s' es, handle ev now metrics s = Done metrics' s' es ∧
    (∀ t, t ≠ topic → states s' !! t = states s !! t) ∧
    Forall (λ e, out_topic e = None ∨ out_topic e = Some topic) es.
Proof.
  intros Hs Hev. destruct (handle_TopicEvent ev topic tev now metrics s Hs Hev)
    as (s1 & m & s' & es & _ & Hh & _ & _ & Hother & Hm).
  exists m, s', es. split; [done|]. split; [done|].
  destruct (states s1 !! topic) as [st|].
  - destruct Hm as (st' & out & _ & _ & Ht). by eapply tagged_topics.
  - destruct Hm as [_ ->]. constructor.
Qed.

(** C35. The protocol refines its topics: for a topic we have joined, the new
    state of the topic and the tagged events are those of the topic itself;
    after a [Quit] command the topic is gone. *)
Theorem topic_event_refines ev topic tev now metrics s st :
  idle_ok s → map_event ev = TopicEvent topic tev → states s !! topic = Some st →
  ∃ st' out metrics' s' es, Topic.handle tev now st = Done () st' out ∧
    handle ev now metrics s = Done metrics' s' es ∧
    states s' !! topic = (if is_quit tev then None else Some st') ∧
    tagged es = omap (tag topic) out.
Proof.
  intros Hs Hev Hst. destruct (handle_TopicEvent ev topic tev now metrics s Hs Hev)
    as (s1 & m & s' & es & Hj & Hh & _ & _ & _ & Hm).
  assert (s1 = s) as ->.
  { destruct (is_join tev); [|done]. destruct (join_topic_spec topic s (proj1 Hs))
      as (s1' & Hj' & _ & _ & _ & _ & _ & _ & _ & Hid).
    rewrite Hj in Hj'. injection Hj' as <-. apply Hid. left. by rewrite Hst. }
  rewrite Hst in Hm. destruct Hm as (st' & out & ? & ? & ?). eauto 10.
Qed.

(** Events of a topic that we have not joined are ignored: nothing is sent
    and the state of every topic stays as it is. *)
Theorem unknown_topic_ignored ev topic tev now metrics s :
  idle_ok s → map_event ev = TopicEvent topic tev → is_join tev = false →
  states s !! topic = None →
  ∃ metrics' s', handle ev now metrics s = Done metrics' s' [] ∧ states s' = states s.
Proof.
  intros Hs Hev Hj Hst. destruct (handle_TopicEvent ev topic tev now metrics s Hs Hev)
    as (s1 & m & s' & es & Hs1 & Hh & _ & _ & Hother & Hm).
  rewrite Hj in Hs1. subst s1. rewrite Hst in Hm. destruct Hm as [Hst' ->].
  exists m, s'. split; [done|]. apply map_eq. intros t.
  destruct (decide (t = topic)) as [->|]; [by rewrite Hst, Hst'|by apply Hother].
Qed.

(** Joining: a [Join] command makes the topic known while there is room for
    another topic, and is refused silently at the limit. *)
Theorem join_respects_limit topic peers now metrics s :
  idle_ok s → states s !! topic = None →
  ∃ metrics' s' es, handle (ICommand topic (Join peers)) now metrics s = Done metrics' s' es ∧
    (is_Some (states s' !! topic) ↔ ssize (states s) < MAX_TOPICS).
Proof.
  intros Hs Hst.
  destruct (handle_TopicEvent (ICommand topic (Join peers)) topic _ now metrics s Hs eq_refl)
    as (s1 & m & s' & es & Hj & Hh & _ & _ & _ & Hm).
  exists m, s', es. split; [done|]. simpl in Hj, Hm.
  destruct (join_topic_spec topic s (proj1 Hs)) as (s1' & Hj' & _ & _ & _ & _ & _ & _ & Hin & Hid).
  rewrite Hj in Hj'. injection Hj' as <-.
  destruct (N.lt_ge_cases (ssize (states s)) MAX_TOPICS) as [Hlt|Hge].
  - destruct Hin as [st1 Hst1]; [by right|]. rewrite Hst1 in Hm.
    destruct Hm as (st' & out & _ & -> & _). split; [done|by eexists].
  - rewrite (Hid (or_intror Hge)), Hst in Hm. destruct Hm as [-> _].
    split; [by intros [? ?]|lia].
Qed.

(** A closed connection reaches every topic: after it, the peer is in the
    active view of no topic, and no topic is lost. *)
Theorem disconnect_reaches_all_topics p now metrics s :
  idle_ok s →
  ∃ metrics' s' es, handle (PeerDisconnected p) now metrics s = Done metrics' s' es ∧
    dom (states s') = dom (states s) ∧
    ∀ t st, states s' !! t = Some st → p ∉ active (swarm st).
Proof.
  intros Hs. destruct (handle_All (PeerDisconnected p) _ now metrics s Hs eq_refl)
    as (m & s' & es & Hh & _ & _ & Hd & Hall).
  exists m, s', es. split; [done|]. split; [done|]. intros t st' Hst'.
  assert (t ∈ dom (states s)) as [st Hst]%elem_of_dom by (rewrite <-Hd; by apply elem_of_dom_2 in Hst').
  destruct (Hall t st Hst) as (st1 & out & Ht & Hst1). rewrite Hst' in Hst1. injection Hst1 as ->.
  pose proof (tok_core _ _ _ (go_topics s (proj1 Hs) t st Hst)) as Hcore.
  exact (wp_Done _ _ _ _ _ _ _ (topic_disconnected p now st Hcore) Ht).
Qed.

(** A topic that drops a peer closes the connection although another topic
    still uses it: when both topics are noted for the peer, the
    [DisconnectPeer] event of one of them is passed on, and the note of the other
    one is lost. *)
Theorem disconnect_closes_shared_connection t1 t2 p topics s :
  t1 ≠ t2 → peer_topics s !! p = Some topics → t1 ∈ topics → t2 ∈ topics →
  ∃ s', handle_out_event t1 (Topic.DisconnectPeer p) s = Done () s' [] ∧
    outbox s' = outbox s ++ [DisconnectPeer p] ∧ peer_topics s' !! p = None.
Proof.
  intros Hne Hp H1 H2. unfold handle_out_event, mbind, M_bind, zoom, drop_topic. rewrite Hp. simpl.
  rewrite bool_decide_true by done. simpl. eexists. split; [done|]. split; [done|].
  apply lookup_delete_eq.
Qed.

End Props.

(** ** Concrete runs

    Peers are numbers, views are lists, the generator counts. *)

#[local] Instance ex_Blake3 : Blake3 := λ content, content.
#[local] Instance ex_Postcard : Postcard := {| ihave_max_size := 35; prune_serialized_size := 34 |}.
#[local] Instance ex_PostcardLaws : PostcardLaws := {| ihave_max_size_eq := eq_refl; prune_serialized_size_eq := eq_refl |}.
#[local] Instance ex_MessageSize : MessageSize N := λ _, Some 40.
#[local] Instance ex_SeedableRng : SeedableRng N := λ r, (r + 1, r + 2).
#[local] Existing Instance map_to_list_HashIter.
#[local] Existing Instance map_to_list_HashIterLaws.

Abbreviation ex_State := (State N (list N) N).

Definition ex_join (t : N) (p : N) : InEvent N :=
  RecvMessage p (mkMessage [t] (MSwarm (HyParView.Join None))).

(** Two topics, with peer 1 a neighbour in both. *)
Definition ex_events : list (InEvent N * Instant) :=
  [(ICommand [1] (Join []), 0%Z); (ICommand [2] (Join [7]), 0%Z);
   (ex_join 1 1, 1%Z); (ex_join 2 1, 2%Z); (ex_join 2 3, 2%Z)].

Definition ex_new : ex_State := mkState 0 [] Config_default 0 ∅ [] ∅.
Definition ex_two : ex_State :=
  match run ex_events None ex_new with Done _ s _ => s | Panicked => ex_new end.

Lemma ex_gossip_new_ok : idle_ok ex_new.
Proof.
  split; [|done]. split; simpl; [apply map_Forall_empty|done|done|by apply validate_ok].
Qed.

Lemma ex_two_ok : idle_ok ex_two.
Proof.
  unfold ex_two. destruct (run_idle_ok ex_events None ex_new ex_gossip_new_ok) as (m & s & es & -> & ? & _).
  done.
Qed.


Lemma topic_isolation_witness :
  ∃ metrics' (s' : ex_State) es, handle (ex_join 1 4) 3 None ex_two = Done metrics' s' es ∧
    (∀ t, t ≠ [1] → states s' !! t = states ex_two !! t) ∧
    Forall (λ e, out_topic e = None ∨ out_topic e = Some [1]) es.
Proof. apply (topic_isolation (ex_join 1 4) [1] _ 3 None ex_two ex_two_ok eq_refl). Defined.

Lemma topic_event_refines_witness :
  ∃ st st' out metrics' (s' : ex_State) es, states ex_two !! [1] = Some st ∧
    Topic.handle (Topic.RecvMessage 4 (MSwarm (HyParView.Join None))) 3 st = Done () st' out ∧
    handle (ex_join 1 4) 3 None ex_two = Done metrics' s' es ∧ states s' !! [1] = Some st' ∧
    tagged es = omap (tag [1]) out.
Proof.
  destruct (states ex_two !! [1]) as [st|] eqn:Hst; [|vm_compute in Hst; discriminate].
  exists st. destruct (topic_event_refines (ex_join 1 4) [1] _ 3 None ex_two st ex_two_ok eq_refl Hst)
    as (st' & out & m & s' & es & H1 & H2 & H3 & H4).
  exists st', out, m, s', es. exact (conj eq_refl (conj H1 (conj H2 (conj H3 H4)))).
Defined.

Lemma unknown_topic_ignored_witness :
  ∃ metrics' (s' : ex_State), handle (ex_join 9 4) 3 None ex_two = Done metrics' s' [] ∧
    states s' = states ex_two.
Proof.
  apply (unknown_topic_ignored (ex_join 9 4) [9] _ 3 None ex_two ex_two_ok eq_refl eq_refl).
  vm_compute. reflexivity.
Defined.

Lemma join_respects_limit_witness :
  ∃ metrics' (s' : ex_State) es, handle (ICommand [5] (Join [])) 3 None ex_two = Done metrics' s' es ∧
    (is_Some (states s' !! [5]) ↔ ssize (states ex_two) < MAX_TOPICS).
Proof. apply (join_respects_limit [5] [] 3 None ex_two ex_two_ok). vm_compute. reflexivity. Defined.

Lemma disconnect_reaches_all_topics_witness :
  ∃ metrics' (s' : ex_State) es, handle (PeerDisconnected 1) 3 None ex_two = Done metrics' s' es ∧
    dom (states s') = dom (states ex_two) ∧
    ∀ t st, states s' !! t = Some st → 1 ∉ active (swarm st).
Proof. apply (disconnect_reaches_all_topics 1 3 None ex_two ex_two_ok). Defined.

Lemma disconnect_closes_shared_connection_witness :
  (∃ st, states ex_two !! [2] = Some st ∧ 1 ∈ active (swarm st)) ∧
  ∃ s' : ex_State, handle_out_event [1] (Topic.DisconnectPeer 1) ex_two = Done () s' [] ∧
    outbox s' = outbox ex_two ++ [DisconnectPeer 1] ∧ peer_topics s' !! 1 = None.
Proof.
  split.
  - destruct (states ex_two !! [2]) as [st|] eqn:Hst; [|vm_compute in Hst; discriminate].
    exists st. split; [reflexivity|]. vm_compute in Hst. injection Hst as <-.
    apply (bool_decide_unpack _). vm_compute. exact Logic.I.
  - apply (disconnect_closes_shared_connection [1] [2] 1 {[ [1]; [2] ]} ex_two).
    + discriminate.
    + vm_compute. reflexivity.
    + set_solver.
    + set_solver.
Defined.
