(* ===== verification/Bytes.v ===== *)
(** * Byte strings

    [[u8]], [Bytes] and [[u8; N]] values are lists of bytes. Slices are compared
    lexicographically, tuples component by component; numbers are encoded
    big-endian. *)
From stdpp Require Import base tactics list gmap countable orders.
From Stdlib Require Import ZArith Lia Strings.Byte.
From S2P Require Import Prelude.

#[global] Instance byte_EqDecision : EqDecision byte := λ b c,
  match Byte.byte_eq_dec b c with left p => left p | right p => right p end.

#[global] Program Instance byte_Countable : Countable byte :=
  inj_countable Byte.to_N Byte.of_N _.
Next Obligation. apply Byte.of_to_N. Qed.

Lemma to_N_inj b c : Byte.to_N b = Byte.to_N c → b = c.
Proof.
  intros H. assert (Hs : Some b = Some c) by (by rewrite <-!Byte.of_to_N, H). congruence.
Qed.

(** ** The order of slices *)

Fixpoint bytes_leb (l1 l2 : list byte) : bool :=
  match l1, l2 with
  | [], _ => true
  | _, [] => false
  | b :: l1, c :: l2 =>
      if (Byte.to_N b <? Byte.to_N c)%N then true
      else if (Byte.to_N b =? Byte.to_N c)%N then bytes_leb l1 l2
      else false
  end.

Definition bytes_le (l1 l2 : list byte) : Prop := bytes_leb l1 l2 = true.

#[global] Instance bytes_le_dec : RelDecision bytes_le.
Proof. intros l1 l2. unfold bytes_le. apply _. Defined.

Lemma bytes_le_cons b c l1 l2 :
  bytes_le (b :: l1) (c :: l2) ↔
    (Byte.to_N b < Byte.to_N c)%N ∨ (b = c ∧ bytes_le l1 l2).
Proof.
  unfold bytes_le. simpl. destruct (N.ltb_spec (Byte.to_N b) (Byte.to_N c)); [naive_solver|].
  destruct (N.eqb_spec (Byte.to_N b) (Byte.to_N c)) as [He|Hn].
  - apply to_N_inj in He. naive_solver lia.
  - split; [done|]. intros [?|[-> _]]; [lia|done].
Qed.

Lemma bytes_le_nil l : bytes_le [] l.
Proof. done. Qed.

Lemma bytes_le_cons_nil b l : ¬ bytes_le (b :: l) [].
Proof. done. Qed.

#[global] Instance bytes_le_TotalOrder : TotalOrder bytes_le.
Proof.
  assert (Htot : ∀ l1 l2, bytes_le l1 l2 ∨ bytes_le l2 l1).
  { induction l1 as [|b l1 IH]; intros [|c l2]; [by left|by left|by right|].
    rewrite !bytes_le_cons. destruct (decide (b = c)) as [->|Hne].
    - destruct (IH l2); auto.
    - assert (Byte.to_N b ≠ Byte.to_N c) by (by intros ?%to_N_inj). lia. }
  assert (Hanti : ∀ l1 l2, bytes_le l1 l2 → bytes_le l2 l1 → l1 = l2).
  { induction l1 as [|b l1 IH]; intros [|c l2]; try done.
    rewrite !bytes_le_cons. intros [?|[-> ?]] [?|[? ?]]; subst; try lia. f_equal. auto. }
  split; [split; [split|done]|].
  - intros l. induction l as [|b l IH]; [done|]. apply bytes_le_cons. auto.
  - intros l1. induction l1 as [|a l1 IH]; intros [|b l2] [|c l3]; try done.
    rewrite !bytes_le_cons. intros [?|[-> ?]] [?|[-> ?]]; try (left; lia); eauto.
  - intros l1 l2. unfold strict. destruct (decide (l1 = l2)); [by right; left|].
    destruct (Htot l1 l2); [left|right; right]; split; try done; eauto.
Qed.

Lemma bytes_lt_trichotomy l1 l2 : ¬ bytes_le l1 l2 → bytes_le l2 l1.
Proof. intros Hn. by destruct (total bytes_le l1 l2). Qed.

(** Strings that start with blocks of the same length are compared block by
    block. *)
Lemma bytes_le_app p1 p2 l1 l2 :
  length p1 = length p2 →
  bytes_le (p1 ++ l1) (p2 ++ l2) ↔
    (bytes_le p1 p2 ∧ p1 ≠ p2) ∨ (p1 = p2 ∧ bytes_le l1 l2).
Proof.
  revert p2. induction p1 as [|b p1 IH]; intros [|c p2] Hlen; simplify_eq/=.
  { split; [by right|]. by intros [[_ ?]|[_ ?]]. }
  rewrite !bytes_le_cons, IH by done. split.
  - intros [?|[-> [[??]|[-> ?]]]].
    + left. split; [by left|]. intros [= -> _]. lia.
    + left. split; [by right|congruence].
    + by right.
  - intros [[[?|[-> ?]] Hne]|[[= -> ->] ?]]; [by left|right..].
    + split; [done|]. left. split; [done|]. congruence.
    + auto.
Qed.

Lemma bytes_le_prefix l1 l2 : l1 `prefix_of` l2 → bytes_le l1 l2.
Proof.
  intros [k ->]. induction l1 as [|b l1 IH]; [done|]. apply bytes_le_cons. auto.
Qed.

Lemma bytes_le_app_same p l1 l2 : bytes_le (p ++ l1) (p ++ l2) ↔ bytes_le l1 l2.
Proof. rewrite bytes_le_app by done. split; [by intros [[_ ?]|[_ ?]]|auto]. Qed.

(** The string of zeros is the least of its length. *)
Lemma zeros_le l : bytes_le (replicate (length l) x00) l.
Proof.
  induction l as [|b l IH]; [done|]. apply bytes_le_cons.
  destruct (decide (b = x00)) as [->|Hne]; [by right|]. left.
  assert (Byte.to_N b ≠ 0%N) by (by intros H%(to_N_inj b x00)). change (Byte.to_N x00) with 0%N. lia.
Qed.

(** ** The order of tuples *)

(** Tuples are ordered by their first component, then by their second. *)
Definition lex_le {A B} (RA : relation A) (RB : relation B) (p q : A * B) : Prop :=
  (RA p.1 q.1 ∧ p.1 ≠ q.1) ∨ (p.1 = q.1 ∧ RB p.2 q.2).

#[global] Instance lex_le_dec {A B} `{EqDecision A} (RA : relation A) (RB : relation B)
    `{!RelDecision RA, !RelDecision RB} : RelDecision (lex_le RA RB).
Proof. intros p q. unfold lex_le. apply _. Defined.

#[global] Instance lex_le_TotalOrder {A B} `{EqDecision A} (RA : relation A) (RB : relation B)
    `{!TotalOrder RA, !TotalOrder RB} : TotalOrder (lex_le RA RB).
Proof.
  assert (Hstrict : ∀ x y z, RA x y ∧ x ≠ y → RA y z ∧ y ≠ z → RA x z ∧ x ≠ z).
  { intros x y z [H1 Hn1] [H2 Hn2]. split; [by etrans|]. intros ->. by apply Hn1, (anti_symm RA). }
  split; [split; [split|]|].
  - intros p. right. by split.
  - intros p q r [H1|[E1 H1]] [H2|[E2 H2]]; unfold lex_le.
    + left. eauto.
    + left. by rewrite <-E2.
    + left. by rewrite E1.
    + right. split; [congruence|by etrans].
  - intros [a b] [c d] [[H1 N1]|[E1 H1]] [[H2 N2]|[E2 H2]]; simpl in *.
    + by destruct N1; apply (anti_symm RA).
    + by destruct N1.
    + by destruct N2.
    + f_equal; [done|by apply (anti_symm RB)].
  - intros [a b] [c d]. unfold strict, lex_le. simpl.
    destruct (decide (a = c)) as [->|Hne].
    + destruct (trichotomy (strict RB) b d) as [[? Hn]|[->|[? Hn]]]; [left|by right; left|right; right];
        (split; [by right|]); intros [[_ ?]|[_ ?]]; auto.
    + destruct (trichotomy (strict RA) a c) as [[? Hn]|[->|[? Hn]]]; [left|done|right; right];
        (split; [by left|]); intros [[? _]|[? _]]; auto.
Qed.

(** ** Numbers *)

(** [to_be_bytes] of an [n]-byte number. *)
Fixpoint be_bytes (n : nat) (x : N) : list byte :=
  match n with
  | O => []
  | S n => be_bytes n (x / 256) ++ [default x00 (Byte.of_N (x mod 256))]
  end.

Lemma be_bytes_length n x : length (be_bytes n x) = n.
Proof. revert x. induction n as [|n IH]; intros x; [done|]. simpl. rewrite length_app, IH. simpl. lia. Qed.

Lemma of_N_inj a b :
  (a < 256)%N → (b < 256)%N → Byte.of_N a = Byte.of_N b → a = b.
Proof.
  intros Ha Hb H. destruct (Byte.of_N a) as [c|] eqn:Hca.
  - symmetry in H. apply Byte.to_of_N in Hca, H. congruence.
  - apply Byte.of_N_None_iff in Hca. lia.
Qed.

Lemma be_bytes_inj n x y :
  (x < 256 ^ N.of_nat n)%N → (y < 256 ^ N.of_nat n)%N → be_bytes n x = be_bytes n y → x = y.
Proof.
  revert x y. induction n as [|n IH]; intros x y Hx Hy.
  { change (256 ^ N.of_nat 0)%N with 1%N in *. lia. }
  simpl. intros [Hdiv Hmod]%app_inj_2; [|done].
  assert (Hpow : (256 ^ N.of_nat (S n) = 256 * 256 ^ N.of_nat n)%N).
  { rewrite Nat2N.inj_succ. apply N.pow_succ_r'. }
  rewrite Hpow in *.
  apply IH in Hdiv; [|by apply N.Div0.div_lt_upper_bound..].
  assert (Hlt : ∀ z, (z mod 256 < 256)%N) by (intros; by apply N.mod_lt).
  assert (Hm : (x mod 256 = y mod 256)%N).
  { apply of_N_inj; [done..|].
    destruct (Byte.of_N (x mod 256)) as [b|] eqn:Hb; [|apply Byte.of_N_None_iff in Hb; specialize (Hlt x); lia].
    destruct (Byte.of_N (y mod 256)) as [c|] eqn:Hc; [|apply Byte.of_N_None_iff in Hc; specialize (Hlt y); lia].
    simpl in Hmod. congruence. }
  rewrite (N.div_mod x 256), (N.div_mod y 256) by done. by rewrite Hdiv, Hm.
Qed.

(** ** Hashes and wire formats *)

(** [blake3::hash]. *)
Class Blake3Hash : Type := blake3 : list byte → list byte.

(** [postcard::to_stdvec] and [postcard::take_from_bytes] at a type. *)
Class WireFormat (A : Type) : Type := {
  to_stdvec : A → option (list byte);
  take_from_bytes : list byte → option (A * list byte);
}.

(** Every value has an encoding, and it is read back whatever follows it. *)
Class WireLaws (A : Type) `{WireFormat A} : Prop := {
  law_encodes (a : A) : is_Some (to_stdvec a);
  law_takes_back (a : A) bytes rest :
    to_stdvec a = Some bytes → take_from_bytes (bytes ++ rest) = Some (a, rest);
}.
