(* ===== verification/IdTypes.v ===== *)
(** * Digests, errors and the canonical codec of the identity protocol
      (protocols/krikos-identity/src: error.rs, types.rs, codec.rs)

    Every object that is hashed or signed has one encoding. The bytes on the wire
    are those of the postcard crate, which is a class; the check that an encoding
    is the canonical one, and the limits on its size, are the code. *)
From stdpp Require Import base tactics list gmap countable orders strings.
From Stdlib Require Import ZArith Lia Strings.Byte.
From S2P Require Import Prelude Bytes.

(** ** Errors *)

Inductive AlgorithmKind : Type :=
| KindHash
| KindSignature
| KindAgreement
| KindKdf
| KindAead.

Inductive IdentityError : Type :=
| InvalidEncoding
| UnsupportedVersion (version : N)
| UnsupportedAlgorithm (kind : AlgorithmKind) (code : N)
| ReservedCodepoint (registry : string) (code : N)
| UnsupportedCodepoint (registry : string) (code : N)
| InvalidPublicKey (kind : AlgorithmKind)
| InvalidExtensionCode (code : N)
| DuplicateExtension (code : N)
| UnknownCriticalExtension (code : N)
| NonCanonical
| LimitExceeded (resource : string) (actual : N) (maximum : N)
| EmptyCollection (resource : string)
| DuplicateElement (resource : string)
| InvalidIdentifier (resource : string)
| InvalidRelationship (resource : string)
| ZeroValue (resource : string)
| UnsatisfiableThreshold
| DuplicateSigningKey
| InvalidPolicy (resource : string)
| InvalidCapability (reason : string)
| InvalidDelegation (reason : string)
| UnsupportedPolicyFeature (feature : string)
| InvalidSignature
| UnsupportedKeyWrapSuite
| KeyWrapAuthenticationFailed
| PrivateArtifactAuthenticationFailed
| EntropyUnavailable
| UnknownController
| IneligibleController
| RevokedController
| DuplicateSigner
| AuthorizationDenied
| InvalidSequence
| HistoricalStateRequired (sequence : N)
| InvalidEpoch
| InvalidPredecessor
| AccountMismatch
| ForkDetected
| AccountForked
| RecoveryPending
| AccountRetired
| ProtocolUpgradeReadOnly
| FreshnessUnavailable
| StaleEvidence
| DelayNotElapsed
| PolicyVersionMismatch
| DeviceNotAuthorized
| DeviceSuspended
| DeviceRevoked
| StaleRevision
| StorageCorruption
| Cancelled
| RetryExhausted
| ResourceBusy
| ProviderUnavailable
| ProviderTimeout
| ProviderRateLimited
| ProviderArchiveRequired
| ProtectedWritesBlocked
| InvalidProof
| ProviderEquivocation
| ProviderRollback
| ArithmeticOverflow (resource : string).

#[global] Instance AlgorithmKind_EqDecision : EqDecision AlgorithmKind.
Proof. solve_decision. Defined.

#[global] Instance IdentityError_EqDecision : EqDecision IdentityError.
Proof. solve_decision. Defined.

(** [IdentityError::limit]. *)
Definition limit (resource : string) (actual maximum : N) : IdentityError :=
  LimitExceeded resource actual maximum.

(** ** Digests *)

Inductive HashAlgorithm : Type := Blake3_256.

#[global] Instance HashAlgorithm_EqDecision : EqDecision HashAlgorithm.
Proof. solve_decision. Defined.

Record Digest : Type := mkDigest {
  algorithm : HashAlgorithm;
  digest_bytes : list byte;
}.

#[global] Instance Digest_EqDecision : EqDecision Digest.
Proof. solve_decision. Defined.

#[global] Program Instance Digest_Countable : Countable Digest :=
  inj_countable' digest_bytes (mkDigest Blake3_256) _.
Next Obligation. by intros [[] b]. Qed.

(** By algorithm, of which there is one, then by the bytes. *)
Definition digest_le (d1 d2 : Digest) : Prop := bytes_le (digest_bytes d1) (digest_bytes d2).

#[global] Instance digest_le_dec : RelDecision digest_le.
Proof. intros d1 d2. unfold digest_le. apply _. Defined.

#[global] Instance digest_le_TotalOrder : TotalOrder digest_le.
Proof.
  split; [split; [split|]|].
  - intros d. unfold digest_le. reflexivity.
  - intros d1 d2 d3. unfold digest_le. apply transitivity.
  - intros [[] b1] [[] b2] H1 H2. f_equal. by apply (anti_symm bytes_le).
  - intros [[] b1] [[] b2]. unfold strict, digest_le. simpl.
    destruct (trichotomy (strict bytes_le) b1 b2) as [H|[->|H]]; [by left|by right; left|by right; right].
Qed.

(** ** Domains of the hashes *)

Inductive HashDomain : Type :=
| DomainTestVector
| DomainAccountGenesis
| DomainGenesisAnchor
| DomainAccountId
| DomainControllerDescriptor
| DomainControllerKey
| DomainControlPolicy
| DomainRecoveryPolicy
| DomainProvider
| DomainProviderLog
| DomainProviderPolicy
| DomainDeviceDescriptor
| DomainAgreementKey
| DomainAccountProposal
| DomainAccountEvent
| DomainEventAuthorization
| DomainAccountCheckpoint
| DomainEventIntentApproval
| DomainControllerApproval
| DomainAdmissionEvidence
| DomainCapabilityGrant
| DomainCapabilityDelegation
| DomainStateRoot
| DomainAuthorizedSet
| DomainRevokedSet
| DomainPairingTicket
| DomainPairingTranscript
| DomainPresenceProof
| DomainApplicationEvent
| DomainGroupKeyWrap
| DomainMerkleLeaf
| DomainMerkleNode
| DomainMerkleEmpty
| DomainProviderHead
| DomainProviderLogEntry
| DomainRecovery
| DomainGuardianGrant
| DomainFork
| DomainCryptoSuite
| DomainCryptoMigration
| DomainCryptoKeyBinding
| DomainCryptoState
| DomainApplicationId
| DomainGroupId
| DomainSocialAttestation
| DomainPairwiseId
| DomainAnchorCommitment.

#[global] Instance HashDomain_EqDecision : EqDecision HashDomain.
Proof. solve_decision. Defined.

Definition prefix_text (domain : HashDomain) : string :=
  match domain with
  | DomainTestVector => "KRIKOS-ID/test/v1"
  | DomainAccountGenesis => "KRIKOS-ID/account-genesis/v1"
  | DomainGenesisAnchor => "KRIKOS-ID/genesis-anchor/v1"
  | DomainAccountId => "KRIKOS-ID/account-id/v1"
  | DomainControllerDescriptor => "KRIKOS-ID/controller/v1"
  | DomainControllerKey => "KRIKOS-ID/controller-key/v1"
  | DomainControlPolicy => "KRIKOS-ID/control-policy/v1"
  | DomainRecoveryPolicy => "KRIKOS-ID/recovery-policy/v1"
  | DomainProvider => "KRIKOS-ID/provider/v1"
  | DomainProviderLog => "KRIKOS-ID/provider-log/v1"
  | DomainProviderPolicy => "KRIKOS-ID/provider-policy/v1"
  | DomainDeviceDescriptor => "KRIKOS-ID/device/v1"
  | DomainAgreementKey => "KRIKOS-ID/agreement-key/v1"
  | DomainAccountProposal => "KRIKOS-ID/account-proposal/v1"
  | DomainAccountEvent => "KRIKOS-ID/account-event/v1"
  | DomainEventAuthorization => "KRIKOS-ID/event-authorization/v1"
  | DomainAccountCheckpoint => "KRIKOS-ID/account-checkpoint/v1"
  | DomainEventIntentApproval => "KRIKOS-ID/event-intent-approval/v1"
  | DomainControllerApproval => "KRIKOS-ID/controller-approval/v1"
  | DomainAdmissionEvidence => "KRIKOS-ID/admission-evidence/v1"
  | DomainCapabilityGrant => "KRIKOS-ID/capability-grant/v1"
  | DomainCapabilityDelegation => "KRIKOS-ID/capability-delegation/v1"
  | DomainStateRoot => "KRIKOS-ID/state-root/v1"
  | DomainAuthorizedSet => "KRIKOS-ID/authorized-set/v1"
  | DomainRevokedSet => "KRIKOS-ID/revoked-set/v1"
  | DomainPairingTicket => "KRIKOS-ID/pairing-ticket/v1"
  | DomainPairingTranscript => "KRIKOS-ID/pairing-transcript/v1"
  | DomainPresenceProof => "KRIKOS-ID/presence-proof/v1"
  | DomainApplicationEvent => "KRIKOS-ID/application-event/v1"
  | DomainGroupKeyWrap => "KRIKOS-ID/group-key-wrap/v1"
  | DomainMerkleLeaf => "KRIKOS-ID/merkle-leaf/v1"
  | DomainMerkleNode => "KRIKOS-ID/merkle-node/v1"
  | DomainMerkleEmpty => "KRIKOS-ID/merkle-empty/v1"
  | DomainProviderHead => "KRIKOS-ID/provider-head/v1"
  | DomainProviderLogEntry => "KRIKOS-ID/provider-log-entry/v1"
  | DomainRecovery => "KRIKOS-ID/recovery/v1"
  | DomainGuardianGrant => "KRIKOS-ID/guardian-grant/v1"
  | DomainFork => "KRIKOS-ID/fork/v1"
  | DomainCryptoSuite => "KRIKOS-ID/crypto-suite/v1"
  | DomainCryptoMigration => "KRIKOS-ID/crypto-migration/v1"
  | DomainCryptoKeyBinding => "KRIKOS-ID/crypto-key-binding/v1"
  | DomainCryptoState => "KRIKOS-ID/crypto-state/v1"
  | DomainApplicationId => "KRIKOS-ID/application-id/v1"
  | DomainGroupId => "KRIKOS-ID/group-id/v1"
  | DomainSocialAttestation => "KRIKOS-ID/social-attestation/v1"
  | DomainPairwiseId => "KRIKOS-ID/pairwise-id/v1"
  | DomainAnchorCommitment => "KRIKOS-ID/anchor/v1"
  end.

(** [HashDomain::prefix]. *)
Definition domain_prefix (domain : HashDomain) : list byte :=
  String.list_byte_of_string (prefix_text domain).

Section Hashing.
  Context `{HB : Blake3Hash}.

Definition hash_bytes (domain : HashDomain) (payload : list byte) : Digest :=
  mkDigest Blake3_256 (blake3 (domain_prefix domain ++ [x00] ++ payload)).

(** Two inputs of the hash function with the same output. *)
Definition collision : Prop := ∃ x y, x ≠ y ∧ blake3 x = blake3 y.

End Hashing.

(** ** Separation of the domains *)

Section Separation.
  Context `{HB : Blake3Hash}.

Lemma hash_input_inj x y : blake3 x = blake3 y → x = y ∨ collision.
Proof. intros H. destruct (decide (x = y)); [by left|right]. by exists x, y. Qed.

(** No prefix contains the zero byte that ends it. *)
Lemma domain_prefix_nonzero d : Forall (λ b, b ≠ x00) (domain_prefix d).
Proof. destruct d; apply (bool_decide_unpack _); vm_compute; exact Logic.I. Qed.

Definition all_domains : list HashDomain :=
  [DomainTestVector; DomainAccountGenesis; DomainGenesisAnchor; DomainAccountId;
   DomainControllerDescriptor; DomainControllerKey; DomainControlPolicy; DomainRecoveryPolicy;
   DomainProvider; DomainProviderLog; DomainProviderPolicy; DomainDeviceDescriptor;
   DomainAgreementKey; DomainAccountProposal; DomainAccountEvent; DomainEventAuthorization;
   DomainAccountCheckpoint; DomainEventIntentApproval; DomainControllerApproval;
   DomainAdmissionEvidence; DomainCapabilityGrant; DomainCapabilityDelegation; DomainStateRoot;
   DomainAuthorizedSet; DomainRevokedSet; DomainPairingTicket; DomainPairingTranscript;
   DomainPresenceProof; DomainApplicationEvent; DomainGroupKeyWrap; DomainMerkleLeaf;
   DomainMerkleNode; DomainMerkleEmpty; DomainProviderHead; DomainProviderLogEntry;
   DomainRecovery; DomainGuardianGrant; DomainFork; DomainCryptoSuite; DomainCryptoMigration;
   DomainCryptoKeyBinding; DomainCryptoState; DomainApplicationId; DomainGroupId;
   DomainSocialAttestation; DomainPairwiseId; DomainAnchorCommitment].

Lemma domain_prefix_inj d1 d2 : domain_prefix d1 = domain_prefix d2 → d1 = d2.
Proof.
  assert (Hnd : NoDup (domain_prefix <$> all_domains)).
  { apply (bool_decide_unpack _). vm_compute. exact Logic.I. }
  assert (Hall : ∀ d, ∃ i, all_domains !! i = Some d).
  { intros d. apply list_elem_of_lookup, list_elem_of_In. destruct d; simpl; tauto. }
  destruct (Hall d1) as [i Hi], (Hall d2) as [j Hj]. intros Heq.
  assert (i = j) as -> by (eapply NoDup_lookup; [exact Hnd|rewrite list_lookup_fmap, Hi; done|];
    rewrite list_lookup_fmap, Hj; simpl; by rewrite Heq).
  congruence.
Qed.

Lemma zero_terminated_inj (p q l k : list byte) :
  Forall (λ b, b ≠ x00) p → Forall (λ b, b ≠ x00) q →
  p ++ x00 :: l = q ++ x00 :: k → p = q ∧ l = k.
Proof.
  intros Hp. revert q. induction Hp as [|b p Hb Hp IH]; intros q Hq Heq.
  - destruct Hq as [|c q Hc Hq]; simplify_eq/=; done.
  - destruct Hq as [|c q Hc Hq]; simplify_eq/=.
    destruct (IH q) as [-> ->]; done.
Qed.

Lemma hash_bytes_inj d1 p1 d2 p2 :
  hash_bytes d1 p1 = hash_bytes d2 p2 → (d1 = d2 ∧ p1 = p2) ∨ collision.
Proof.
  intros [= Heq]. apply hash_input_inj in Heq as [Heq|]; [|by right]. left.
  apply zero_terminated_inj in Heq as [Hd ->]; auto using domain_prefix_nonzero, domain_prefix_inj.
Qed.

End Separation.

(** ** The canonical codec (codec.rs) *)

(** A type of the protocol with its own encoding. *)
Class CanonicalCodec (A : Type) : Type := {
  RESOURCE : string;
  MAX_ENCODED_BYTES : N;
  encode_canonical : A → result IdentityError (list byte);
  decode_canonical : list byte → result IdentityError A;
}.

Definition MAX_ENCODED_OBJECT_BYTES : N := 1024 * 1024.

Section Codec.
  Context {A : Type}.

Definition encode_wire `{WireFormat A} (value : A) : result IdentityError (list byte) :=
  match to_stdvec value with
  | Some bytes => Ok bytes
  | None => Err InvalidEncoding
  end.

Definition decode_wire `{WireFormat A} (bytes : list byte) : result IdentityError A :=
  match take_from_bytes bytes with
  | None => Err InvalidEncoding
  | Some (value, remaining) =>
      if bool_decide (remaining ≠ []) then Err NonCanonical else
      canonical ← encode_wire value;
      if bool_decide (canonical ≠ bytes) then Err NonCanonical else Ok value
  end.

Definition to_canonical_bytes `{CanonicalCodec A} (value : A) : result IdentityError (list byte) :=
  encoded ← encode_canonical value;
  if (MAX_ENCODED_BYTES (A:=A) <? len encoded)%N
  then Err (limit (RESOURCE (A:=A)) (len encoded) (MAX_ENCODED_BYTES (A:=A)))
  else Ok encoded.

Definition from_canonical_bytes `{CanonicalCodec A} (bytes : list byte) : result IdentityError A :=
  if (MAX_ENCODED_BYTES (A:=A) <? len bytes)%N
  then Err (limit (RESOURCE (A:=A)) (len bytes) (MAX_ENCODED_BYTES (A:=A)))
  else decode_canonical bytes.

(** The codec of a type that is encoded as it is serialised. *)
Definition wire_codec `{WireFormat A} (resource : string) : CanonicalCodec A := {|
  RESOURCE := resource;
  MAX_ENCODED_BYTES := MAX_ENCODED_OBJECT_BYTES;
  encode_canonical := encode_wire;
  decode_canonical := decode_wire;
|}.

Lemma encode_wire_Ok `{WireLaws A} (a : A) : ∃ bytes, encode_wire a = Ok bytes.
Proof. unfold encode_wire. destruct (law_encodes a) as [bytes ->]. by exists bytes. Qed.

Lemma encode_wire_inj `{WireLaws A} (a b : A) bytes :
  encode_wire a = Ok bytes → encode_wire b = Ok bytes → a = b.
Proof.
  unfold encode_wire. destruct (to_stdvec a) as [x|] eqn:Ha; [|done].
  destruct (to_stdvec b) as [y|] eqn:Hb; [|done]. intros [= ->] [= ->].
  apply (law_takes_back _ _ []) in Ha, Hb. congruence.
Qed.

Lemma decode_wire_spec `{WireLaws A} (a : A) bytes :
  decode_wire bytes = Ok a ↔ encode_wire a = Ok bytes.
Proof.
  unfold decode_wire. split.
  - destruct (take_from_bytes bytes) as [[v rest]|]; [|done].
    case_bool_decide as Hrest; [done|]. unfold mbind, result_bind.
    destruct (encode_wire v) as [c|e] eqn:He; [|done].
    case_bool_decide as Hc; [done|]. intros [= <-]. rewrite He. f_equal.
    destruct (decide (c = bytes)); [done|]. by destruct Hc.
  - intros He. pose proof He as He'. unfold encode_wire in He'.
    destruct (to_stdvec a) as [bs|] eqn:Ha; [|done]. injection He' as ->.
    pose proof (law_takes_back _ _ [] Ha) as Ht. rewrite app_nil_r in Ht. rewrite Ht.
    rewrite bool_decide_eq_false_2 by (by intros []). rewrite He. simpl.
    by rewrite bool_decide_eq_false_2 by (by intros []).
Qed.

(** Bytes are accepted exactly if they are the encoding of a value, within the
    limit. *)
Lemma canonical_bijection `{WireLaws A} resource (a : A) bytes :
  let codec := wire_codec resource in
  from_canonical_bytes bytes = Ok a ↔ to_canonical_bytes a = Ok bytes.
Proof.
  intros codec. unfold from_canonical_bytes, to_canonical_bytes.
  cbn [decode_canonical encode_canonical codec wire_codec RESOURCE MAX_ENCODED_BYTES]. split.
  - destruct (_ <? _)%N eqn:Hlen; [done|]. intros Hd%decode_wire_spec. rewrite Hd.
    cbn. by rewrite Hlen.
  - destruct (encode_wire a) as [bs|e] eqn:He; [|done]. cbn.
    destruct (_ <? _)%N eqn:Hlen; [done|]. intros [= <-]. rewrite Hlen. by apply decode_wire_spec.
Qed.

End Codec.
