(* ===== verification/ExampleWire.v ===== *)
(** * A wire format for the examples

    A format that keeps the laws asked of postcard ([WireLaws]): a number in unary
    and a string of bytes with a mark before every byte, each ended by a zero, and
    the parts of a pair one after the other. The hash is the identity, which has no
    collision. With these the hypotheses of the theorems hold, and their
    definitions can be evaluated. *)
From stdpp Require Import base tactics list strings.
From Stdlib Require Import ZArith Lia Strings.Byte.
From S2P Require Import Prelude Bytes IdTypes.

Local Open Scope N_scope.

Module ExampleWire.

Fixpoint put_bytes (l : list byte) : list byte :=
  match l with [] => [x00] | b :: l => x01 :: b :: put_bytes l end.

Fixpoint take_bytes (l : list byte) : option (list byte * list byte) :=
  match l with
  | x00 :: rest => Some ([], rest)
  | x01 :: b :: rest => '(bs, rest) ← take_bytes rest; Some (b :: bs, rest)
  | _ => None
  end.

Lemma take_put_bytes l rest : take_bytes (put_bytes l ++ rest) = Some (l, rest).
Proof. induction l as [|b l IH]; [done|]. cbn. by rewrite IH. Qed.

Definition put_nat (n : nat) : list byte := replicate n x01 ++ [x00].

Fixpoint take_nat (l : list byte) : option (nat * list byte) :=
  match l with
  | x00 :: rest => Some (O, rest)
  | x01 :: rest => '(n, rest) ← take_nat rest; Some (S n, rest)
  | _ => None
  end.

Lemma take_put_nat n rest : take_nat (put_nat n ++ rest) = Some (n, rest).
Proof. unfold put_nat. induction n as [|n IH]; [done|]. cbn in *. by rewrite IH. Qed.

#[export] Instance wire_N : WireFormat N := {
  to_stdvec n := Some (put_nat (N.to_nat n));
  take_from_bytes l := '(n, rest) ← take_nat l; Some (N.of_nat n, rest);
}.

#[export] Instance wire_N_laws : WireLaws N.
Proof.
  split; [by eexists|]. intros n bytes rest [= <-]. cbn. rewrite take_put_nat. cbn. by rewrite N2Nat.id.
Qed.

#[export] Instance wire_Digest : WireFormat Digest := {
  to_stdvec d := Some (put_bytes (digest_bytes d));
  take_from_bytes l := '(bs, rest) ← take_bytes l; Some (mkDigest Blake3_256 bs, rest);
}.

#[export] Instance wire_Digest_laws : WireLaws Digest.
Proof.
  split; [by eexists|]. intros [[] bs] bytes rest [= <-]. cbn. by rewrite take_put_bytes.
Qed.

#[export] Instance wire_pair {A B} `{WireFormat A, WireFormat B} : WireFormat (A * B) := {
  to_stdvec p := a ← to_stdvec p.1; b ← to_stdvec p.2; Some (a ++ b);
  take_from_bytes l := '(a, rest) ← take_from_bytes l; '(b, rest) ← take_from_bytes rest; Some ((a, b), rest);
}.

#[export] Instance wire_pair_laws {A B} `{WireLaws A, WireLaws B} : WireLaws (A * B).
Proof.
  split.
  - intros [a b]. cbn. destruct (law_encodes a) as [x ->], (law_encodes b) as [y ->]. by eexists.
  - intros [a b] bytes rest. cbn. destruct (to_stdvec a) as [x|] eqn:Ha; [|done].
    destruct (to_stdvec b) as [y|] eqn:Hb; [|done]. cbn. intros [= <-].
    rewrite <-app_assoc, (law_takes_back a x) by done. cbn. by rewrite (law_takes_back b y).
Qed.

Fixpoint put_list {A} (put : A → option (list byte)) (l : list A) : option (list byte) :=
  match l with
  | [] => Some []
  | a :: l => x ← put a; y ← put_list put l; Some (x ++ y)
  end.

Fixpoint take_list {A} (take : list byte → option (A * list byte)) (n : nat) (l : list byte)
    : option (list A * list byte) :=
  match n with
  | O => Some ([], l)
  | S n => '(a, rest) ← take l; '(bs, rest) ← take_list take n rest; Some (a :: bs, rest)
  end.

#[export] Instance wire_list {A} `{WireFormat A} : WireFormat (list A) := {
  to_stdvec l := x ← put_list to_stdvec l; Some (put_nat (length l) ++ x);
  take_from_bytes l := '(n, rest) ← take_nat l; take_list take_from_bytes n rest;
}.

Lemma put_list_Some {A} `{WireLaws A} (l : list A) : is_Some (put_list to_stdvec l).
Proof.
  induction l as [|a l [y IH]]; cbn; [done|]. destruct (law_encodes a) as [x ->]. cbn. rewrite IH. done.
Qed.

Lemma take_put_list {A} `{WireLaws A} (l : list A) bytes rest :
  put_list to_stdvec l = Some bytes →
  take_list take_from_bytes (length l) (bytes ++ rest) = Some (l, rest).
Proof.
  revert bytes. induction l as [|a l IH]; intros bytes; cbn; [by intros [= <-]|].
  destruct (to_stdvec a) as [x|] eqn:Ha; [|done]. destruct (put_list to_stdvec l) as [y|]; [|done].
  cbn. intros [= <-]. rewrite <-app_assoc, (law_takes_back a x) by done. cbn. by rewrite IH.
Qed.

#[export] Instance wire_list_laws {A} `{WireLaws A} : WireLaws (list A).
Proof.
  split.
  - intros l. cbn. destruct (put_list_Some l) as [x ->]. by eexists.
  - intros l bytes rest. cbn. destruct (put_list to_stdvec l) as [x|] eqn:Hx; [|done]. cbn. intros [= <-].
    rewrite <-app_assoc, take_put_nat. cbn. by apply take_put_list.
Qed.

#[export] Instance wire_bytes : WireFormat (list byte) := {
  to_stdvec l := Some (put_bytes l);
  take_from_bytes := take_bytes;
}.

#[export] Instance wire_bytes_laws : WireLaws (list byte).
Proof. split; [by eexists|]. intros l bytes rest [= <-]. apply take_put_bytes. Qed.

(** The format of a type that another one represents. *)
Definition wire_via {A B} `{WireFormat B} (f : A → B) (g : B → A) : WireFormat A := {|
  to_stdvec a := to_stdvec (f a);
  take_from_bytes l := '(b, rest) ← take_from_bytes l; Some (g b, rest);
|}.

Lemma wire_via_laws {A B} `{WireLaws B} (f : A → B) (g : B → A) :
  (∀ a, g (f a) = a) → WireLaws A (H:=wire_via f g).
Proof.
  intros Hgf. split; [intros a; apply (law_encodes (f a))|]. intros a bytes rest Ha. cbn in *.
  rewrite (law_takes_back (f a) bytes) by done. cbn. by rewrite Hgf.
Qed.

#[export] Instance hash_id : Blake3Hash := λ l, l.

Lemma no_collision : ¬ collision.
Proof. intros (x & y & Hne & Heq). by apply Hne. Qed.

End ExampleWire.
