(* ===== verification/Ranger.v ===== *)
(** * Range-based set reconciliation (protocols/krikos-docs/src/ranger.rs)

    The ranges, fingerprints and messages of the reconciliation protocol, the
    trait [Store] as a class of operations, and its provided methods: [put] with
    its deletion by prefix, and [process_message].

    The trait is generic in the entry, the key and the value type; so is the
    model. Every store operation may fail with an error of the store, and may
    panic. The iterators a store returns are lists of results. The calls of
    [on_insert_cb] are the events of the computation. *)
From stdpp Require Import base tactics list gmap sets sorting orders strings.
From Stdlib Require Import ZArith Lia Strings.Byte.
From S2P Require Import Prelude Bytes.

Local Open Scope N_scope.

(** ** Limits (limits.rs) *)

Definition MAX_SYNC_MESSAGE_PARTS : N := 1024.
Definition MAX_ENTRIES_PER_SYNC_MESSAGE : N := 2048.

Record LimitError : Type := mkLimitError {
  resource : string;
  actual : N;
  maximum : N;
}.

(** ** Fingerprints *)

Definition Fingerprint : Type := list byte.

#[global] Instance Fingerprint_EqDecision : EqDecision Fingerprint := _.

Definition byte_xor (b c : byte) : byte :=
  default x00 (Byte.of_N (N.lxor (Byte.to_N b) (Byte.to_N c))).

(** The fingerprint of the empty set. *)
Definition fp_empty `{Blake3Hash} : Fingerprint := blake3 [].

(** [*a ^= b], byte by byte. *)
Definition bitxor_assign (a rhs : Fingerprint) : Fingerprint := zip_with byte_xor a rhs.

(** ** Entries *)

(** The traits [RangeEntry], [RangeKey] and [RangeValue]: an entry has a key and
    a value. Keys are totally ordered, and some are prefixes of others; the order
    of the values need not tell all of them apart. *)
Class RangeEntry (E K V : Type) : Type := {
  re_key : E → K;
  re_value : E → V;
  as_fingerprint : E → Fingerprint;
  key_eq_dec :: EqDecision K;
  key_countable :: Countable K;
  key_le : relation K;
  key_le_dec :: RelDecision key_le;
  key_le_total :: TotalOrder key_le;
  key_prefix : relation K;
  key_prefix_dec :: RelDecision key_prefix;
  key_prefix_po :: PartialOrder key_prefix;
  value_le : relation V;
  value_le_dec :: RelDecision value_le;
  value_le_pre :: PreOrder value_le;
  value_le_total :: Total value_le;
}.

(** Whether the content of an entry is available on a node (sync.rs). *)
Inductive ContentStatus : Type :=
| Complete
| Incomplete
| Missing.

(** ** Ranges *)

Record Range (K : Type) : Type := mkRange { rx : K; ry : K }.
Arguments mkRange {K} _ _.
Arguments rx {K} _.
Arguments ry {K} _.

Section Range.
  Context {E K V : Type} `{HR : RangeEntry E K V}.

Definition is_all (r : Range K) : bool := bool_decide (rx r = ry r).

(** All elements, [[x, y)], or the complement of [[y, x)]. *)
Definition contains (r : Range K) (t : K) : bool :=
  if is_all r then true
  else if bool_decide (key_le (rx r) (ry r))
  then bool_decide (key_le (rx r) t) && negb (bool_decide (key_le (ry r) t))
  else bool_decide (key_le (rx r) t) || negb (bool_decide (key_le (ry r) t)).

End Range.

(** ** Messages *)

Record RangeFingerprint (K : Type) : Type := mkRangeFingerprint {
  rf_range : Range K;
  rf_fingerprint : Fingerprint;
}.
Arguments mkRangeFingerprint {K} _ _.
Arguments rf_range {K} _.
Arguments rf_fingerprint {K} _.

Record RangeItem (E K : Type) : Type := mkRangeItem {
  ri_range : Range K;
  ri_values : list (E * ContentStatus);
  ri_have_local : bool;
}.
Arguments mkRangeItem {E K} _ _ _.
Arguments ri_range {E K} _.
Arguments ri_values {E K} _.
Arguments ri_have_local {E K} _.

Inductive MessagePart (E K : Type) : Type :=
| PartFingerprint (fp : RangeFingerprint K)
| PartItem (item : RangeItem E K).
Arguments PartFingerprint {E K} _.
Arguments PartItem {E K} _.

Record Message (E K : Type) : Type := mkMessage { parts : list (MessagePart E K) }.
Arguments mkMessage {E K} _.
Arguments parts {E K} _.

Section Message.
  Context {E K : Type}.

(** [MessagePart::values]. *)
Definition part_values (p : MessagePart E K) : option (list (E * ContentStatus)) :=
  match p with
  | PartFingerprint _ => None
  | PartItem item => Some (ri_values item)
  end.

Definition values (m : Message E K) : list (E * ContentStatus) :=
  mjoin (omap part_values (parts m)).

Definition value_count (m : Message E K) : N := len (values m).

Definition validate_limits (m : Message E K) : result LimitError () :=
  if MAX_SYNC_MESSAGE_PARTS <? len (parts m) then
    Err (mkLimitError "sync message parts" (len (parts m)) MAX_SYNC_MESSAGE_PARTS)
  else
    let entries := foldl (λ count part,
      saturating_add64 count (from_option len 0 (part_values part))) 0 (parts m) in
    if MAX_ENTRIES_PER_SYNC_MESSAGE <? entries then
      Err (mkLimitError "sync message entries" entries MAX_ENTRIES_PER_SYNC_MESSAGE)
    else Ok ().

End Message.

(** ** Configuration and outcomes *)

Record SyncConfig : Type := mkSyncConfig {
  max_set_size : nat;
  split_factor : nat;
}.

Definition SyncConfig_default : SyncConfig :=
  {| max_set_size := 1; split_factor := 2 |}.

Inductive InsertOutcome : Type :=
| NotInserted
| Inserted (removed : N).

(** ** The store

    The required methods of the trait [Store]. *)
Class Store (S Er E K V : Type) `{HR : RangeEntry E K V} : Type := {
  get_first : M S (E * ContentStatus) (result Er K);
  get_fingerprint : Range K → M S (E * ContentStatus) (result Er Fingerprint);
  entry_put : E → M S (E * ContentStatus) (result Er ());
  get_range : Range K → M S (E * ContentStatus) (result Er (list (result Er E)));
  prefixes_of : K → M S (E * ContentStatus) (result Er (list (result Er E)));
  remove_prefix_filtered : K → (V → bool) → M S (E * ContentStatus) (result Er N);
}.

Section Store.
  Context {S Er E K V : Type} `{HR : RangeEntry E K V} `{HS : !Store S Er E K V}
    `{HB : Blake3Hash}.

(** A method of the store, with its [Result]. *)
Local Notation RM A := (M S (E * ContentStatus) (result Er A)).

Definition ok {A} (a : A) : RM A := mret (Ok a).

Definition get_range_len (r : Range K) : RM nat :=
  els ←? get_range r;
  mret (length <$> collect els).

(** [Message::init] and [Store::initial_message]. *)
Definition initial_message : RM (Message E K) :=
  x ←? get_first;
  let range := mkRange x x in
  fingerprint ←? get_fingerprint range;
  ok (mkMessage [PartFingerprint (mkRangeFingerprint range fingerprint)]).

(** The loop over the entries of a key and its prefixes: an entry that is not
    older than the new one ends it. *)
Fixpoint refused (v : V) (prefix_entries : list (result Er E)) : result Er bool :=
  match prefix_entries with
  | [] => Ok false
  | Err e :: _ => Err e
  | Ok prefix_entry :: prefix_entries =>
      if bool_decide (value_le v (re_value prefix_entry)) then Ok true
      else refused v prefix_entries
  end.

Definition put (entry : E) : RM InsertOutcome :=
  prefix_entry ←? prefixes_of (re_key entry);
  stop ←? mret (refused (re_value entry) prefix_entry);
  if (stop : bool) then ok NotInserted else
  removed ←? remove_prefix_filtered (re_key entry)
    (λ value, bool_decide (value_le value (re_value entry)));
  _ ←? entry_put entry;
  ok (Inserted removed).

(** ** Processing a message *)

Section Process.
  Context (validate_cb : S → E → ContentStatus → bool).
  Context (content_status_cb : E → ContentStatus).

Definition with_status (entries : list E) : list (E * ContentStatus) :=
  (λ entry, (entry, content_status_cb entry)) <$> entries.

(** Whether the peer sent a value for the key of our entry that is not lower. *)
Definition peer_has (values : list (E * ContentStatus)) (our_entry : E) : bool :=
  existsb (λ '(their_entry, _),
    bool_decide (re_key our_entry = re_key their_entry)
    && bool_decide (value_le (re_value our_entry) (re_value their_entry))) values.

(** The entries of a range that the peer does not have. *)
Definition local_diff (range : Range K) (values : list (E * ContentStatus))
    : RM (list (E * ContentStatus)) :=
  els ←? get_range range;
  items ←? mret (collect (omap (λ r : result Er E,
    match r with
    | Ok our_entry => if negb (peer_has values our_entry) then Some (Ok our_entry) else None
    | Err e => Some (Err e)
    end) els));
  ok (with_status items).

(** Validate an incoming entry, insert it, and report it if it was inserted. *)
Definition store_value (v : E * ContentStatus) : RM () :=
  let '(entry, content_status) := v in
  valid ← gets (λ s, validate_cb s entry content_status);
  if (valid : bool) then
    outcome ←? put entry;
    match outcome with
    | Inserted _ => emit (entry, content_status) ;; ok ()
    | NotInserted => ok ()
    end
  else ok ().

Definition process_item (item : RangeItem E K) : RM (list (MessagePart E K)) :=
  let '(mkRangeItem range values have_local) := item in
  diff ←? (if have_local then ok None
           else d ←? local_diff range values; ok (Some d));
  _ ←? try_each values store_value;
  ok (match diff with
      | Some ((_ :: _) as d) => [PartItem (mkRangeItem range d true)]
      | _ => []
      end).

(** The number of entries before the first one whose key is not below [x]. *)
Fixpoint start_index_loop (x : K) (els : list (result Er E)) : result Er nat :=
  match els with
  | [] => Ok 0%nat
  | Err e :: _ => Err e
  | Ok el :: els =>
      if bool_decide (key_le x (re_key el)) then Ok 0%nat
      else Nat.succ <$> start_index_loop x els
  end.

Definition pivot (config : SyncConfig) (range : Range K) (start_index num_local_values i : nat)
    : RM K :=
  if bool_decide (split_factor config = 0%nat ∨ num_local_values = 0%nat) then panic else
  let i := (i mod split_factor config)%nat in
  let offset := (num_local_values * (i + 1) / split_factor config)%nat in
  let offset := ((start_index + offset) mod num_local_values)%nat in
  els ←? get_range range;
  match els !! offset with
  | None => panic
  | Some e => mret (re_key <$> e)
  end.

(** The range between two pivots, unless it is empty. *)
Definition pivot_range (piv : nat → RM K) (i : nat) : RM (list (Range K)) :=
  x ←? piv i;
  y ←? piv (i + 1)%nat;
  ok (if bool_decide (x = y) then [] else [mkRange x y]).

(** The partition of a range. *)
Definition split_ranges (config : SyncConfig) (range : Range K) (num_local_values : nat)
    : RM (list (Range K)) :=
  els ←? get_range range;
  start_index ←? mret (start_index_loop (rx range) els);
  let piv := pivot config range start_index num_local_values in
  if is_all range then
    try_for (seq 0 (split_factor config)) (pivot_range piv)
  else
    y ←? piv 0%nat;
    middle ←? try_for (seq 0 (split_factor config - 2)) (pivot_range piv);
    x ←? piv (split_factor config - 2)%nat;
    ok (mkRange (rx range) y :: middle ++ [mkRange x (ry range)]).

(** The values of an iterator, without its errors. *)
Definition without_errors (els : list (result Er E)) : list E :=
  omap (λ r, match r with Ok e => Some e | Err _ => None end) els.

(** Announce a part of a split range, by its entries or by its fingerprint. *)
Definition announce_range (config : SyncConfig) (range : Range K) : RM (list (MessagePart E K)) :=
  chunk ←? get_range range;
  fingerprint ←? get_fingerprint range;
  ok [if bool_decide (max_set_size config < length chunk)%nat
      then PartFingerprint (mkRangeFingerprint range fingerprint)
      else PartItem (mkRangeItem range (with_status (without_errors chunk)) false)].

Definition process_fingerprint (config : SyncConfig) (fp : RangeFingerprint K)
    : RM (list (MessagePart E K)) :=
  let '(mkRangeFingerprint range fingerprint) := fp in
  local_fingerprint ←? get_fingerprint range;
  if bool_decide (local_fingerprint = fingerprint) then ok [] else
  num_local_values ←? get_range_len range;
  if bool_decide (num_local_values ≤ 1)%nat || bool_decide (fingerprint = fp_empty) then
    els ←? get_range range;
    values ←? mret (collect els);
    ok [PartItem (mkRangeItem range (with_status values) false)]
  else
    ranges ←? split_ranges config range num_local_values;
    try_for ranges (announce_range config).

Definition message_items (ps : list (MessagePart E K)) : list (RangeItem E K) :=
  omap (λ p, match p with PartItem item => Some item | _ => None end) ps.

Definition message_fingerprints (ps : list (MessagePart E K)) : list (RangeFingerprint K) :=
  omap (λ p, match p with PartFingerprint fp => Some fp | _ => None end) ps.

(** Items first, then fingerprints; a message that needs no answer ends the
    session. *)
Definition process_message (config : SyncConfig) (message : Message E K)
    : RM (option (Message E K)) :=
  out1 ←? try_for (message_items (parts message)) process_item;
  out2 ←? try_for (message_fingerprints (parts message)) (process_fingerprint config);
  ok (match out1 ++ out2 with [] => None | out => Some (mkMessage out) end).

End Process.

End Store.
