(* ===== verification/RangerFacts.v ===== *)
(** * Contract of a reconciliation store, and the semantics of [put]

    [StoreLaws] is what an implementation of the trait [Store] promises: its
    content is a finite map, every operation acts on that map, and the iterators
    are in the order of the keys. The file derives what [put] does to the content,
    and the invariant and the join semantics it has. *)
From stdpp Require Import base tactics list gmap sets sorting orders strings.
From Stdlib Require Import ZArith Lia Strings.Byte.
From S2P Require Import Prelude Bytes Ranger.

(** ** The content of a store *)

Section Content.
  Context {E K V : Type} `{HR : RangeEntry E K V} `{HB : Blake3Hash}.

Definition entry_le (e f : E) : Prop := key_le (re_key e) (re_key f).

#[global] Instance entry_le_dec : RelDecision entry_le.
Proof. intros e f. unfold entry_le. apply _. Defined.

(** The entries of a store, in the order of the keys. *)
Definition sorted_entries (m : gmap K E) : list E :=
  merge_sort entry_le (map_to_list m).*2.

Definition range_entries (r : Range K) (m : gmap K E) : list E :=
  filter (λ e, contains r (re_key e) = true) (sorted_entries m).

(** The fingerprint of a sequence of entries. *)
Definition fp_of (l : list E) : Fingerprint :=
  foldl (λ fp e, bitxor_assign fp (as_fingerprint e)) fp_empty l.

(** Every entry is stored under its own key. *)
Definition keyed (m : gmap K E) : Prop := ∀ k e, m !! k = Some e → re_key e = k.

(** The content after an entry was inserted: the entries its key is a prefix of
    are dropped unless they are newer. *)
Definition pruned (entry : E) (m : gmap K E) : gmap K E :=
  filter (λ ke : K * E, ¬ (key_prefix (re_key entry) ke.1
                           ∧ value_le (re_value ke.2) (re_value entry))) m.

(** [e] makes [x] obsolete: it is at the key of [x] or at a prefix of it, and not
    older. *)
Definition covers (e x : E) : Prop :=
  key_prefix (re_key e) (re_key x) ∧ value_le (re_value x) (re_value e).

#[global] Instance covers_dec : RelDecision covers.
Proof. intros e x. unfold covers. apply _. Defined.

Definition covered (m : gmap K E) (x : E) : Prop :=
  ∃ k e, m !! k = Some e ∧ covers e x.

#[global] Instance covered_dec m x : Decision (covered m x).
Proof.
  refine (cast_if (decide (Exists (λ ke, covers ke.2 x) (map_to_list m)))).
  - abstract (apply Exists_exists in e as ([k e] & Hk & Hc); exists k, e;
      by rewrite elem_of_map_to_list in Hk).
  - abstract (intros (k & e & Hk & Hc); apply n, Exists_exists; exists (k, e);
      by rewrite elem_of_map_to_list).
Defined.

(** What [put] leaves. *)
Definition merged (e : E) (m : gmap K E) : gmap K E :=
  if decide (covered m e) then m else <[re_key e := e]> (pruned e m).

(** An entry is newer than every entry at a proper prefix of its key. *)
Definition irredundant (m : gmap K E) : Prop :=
  ∀ k1 e1 k2 e2, m !! k1 = Some e1 → m !! k2 = Some e2 → covers e1 e2 → k1 = k2.

(** Two values the order does not tell apart. *)
Definition value_eqv (v w : V) : Prop := value_le v w ∧ value_le w v.

(** The same keys, with values the order does not tell apart. *)
Definition content_equiv (m1 m2 : gmap K E) : Prop :=
  ∀ k, option_Forall2 (λ e f, value_eqv (re_value e) (re_value f)) (m1 !! k) (m2 !! k).

(** *** Covering *)

Lemma covers_refl e : covers e e.
Proof. split; reflexivity. Qed.

Lemma covers_trans e1 e2 e3 : covers e1 e2 → covers e2 e3 → covers e1 e3.
Proof. intros [? ?] [? ?]. split; by etrans. Qed.

Lemma covered_lookup m k e : m !! k = Some e → covered m e.
Proof. intros Hk. exists k, e. split; [done|apply covers_refl]. Qed.

Lemma covered_trans m e x : covered m e → covers e x → covered m x.
Proof. intros (k & e' & Hk & Hc) Hx. exists k, e'. eauto using covers_trans. Qed.

Lemma value_total v w : ¬ value_le v w → value_le w v.
Proof. intros Hn. destruct (total value_le v w); [done|assumption]. Qed.

Lemma keyed_merged e m : keyed m → keyed (merged e m).
Proof.
  intros Hm k x. unfold merged. case_decide; [apply Hm|].
  rewrite lookup_insert. case_decide as Hk; [by intros [= <-]|].
  unfold pruned. rewrite map_lookup_filter_Some. intros [Hx _]. by apply Hm.
Qed.

(** An entry of the content after an insertion is the new entry or an old one. *)
Lemma merged_lookup e m k x : merged e m !! k = Some x → x = e ∨ m !! k = Some x.
Proof.
  unfold merged. case_decide; [by right|]. rewrite lookup_insert. case_decide.
  - intros [= <-]. by left.
  - unfold pruned. rewrite map_lookup_filter_Some. naive_solver.
Qed.

(** The join semantics: exactly what was covered before, and what the new entry
    covers, is covered afterwards. *)
Lemma covered_merged e m x :
  keyed m → covered (merged e m) x ↔ covered m x ∨ covers e x.
Proof.
  intros Hm. unfold merged.
  case_decide as Hc; [by split; [left|intros [|]; eauto using covered_trans]|]. split.
  - intros (k & f & Hk & Hf). rewrite lookup_insert in Hk. case_decide; [simplify_eq; by right|].
    apply map_lookup_filter_Some in Hk as [Hk _]. left. by exists k, f.
  - intros Hx. destruct (decide (covers e x)) as [He|He].
    { exists (re_key e), e. by rewrite lookup_insert_eq. }
    destruct Hx as [(k & f & Hk & Hf)|]; [|done].
    assert (Hef : ¬ covers e f) by eauto using covers_trans.
    exists k, f. split; [|done]. pose proof (Hm _ _ Hk) as <-. rewrite lookup_insert_ne.
    { apply map_lookup_filter_Some. split; [done|]. intros [??]. by apply Hef. }
    intros Hk'. apply Hc. exists (re_key f), f. split; [done|]. split; [by rewrite Hk'|].
    apply value_total. intros Hv. apply Hef. split; [by rewrite Hk'|done].
Qed.

(** [put] keeps the content irredundant. *)
Lemma irredundant_merged e m : keyed m → irredundant m → irredundant (merged e m).
Proof.
  intros Hm Hi. unfold merged. case_decide as Hc; [done|].
  assert (Hold : ∀ k x, re_key e ≠ k → <[re_key e := e]> (pruned e m) !! k = Some x →
    m !! k = Some x ∧ ¬ covers e x).
  { intros k x Hk. rewrite lookup_insert_ne by done. intros [Hx Hn]%map_lookup_filter_Some.
    split; [done|]. intros [??]. apply Hn. simpl. by rewrite <-(Hm _ _ Hx). }
  intros k1 e1 k2 e2 H1 H2 H12.
  destruct (decide (re_key e = k1)) as [<-|Hk1], (decide (re_key e = k2)) as [<-|Hk2]; [done|..].
  - rewrite lookup_insert_eq in H1. simplify_eq. by destruct (Hold _ _ Hk2 H2).
  - destruct (Hold _ _ Hk1 H1) as [H1' _]. rewrite lookup_insert_eq in H2. simplify_eq.
    destruct Hc. by exists k1, e1.
  - destruct (Hold _ _ Hk1 H1), (Hold _ _ Hk2 H2). eauto.
Qed.

(** An irredundant content is determined, up to values the order does not tell
    apart, by what it covers. *)
Lemma covered_content_equiv m1 m2 :
  keyed m1 → keyed m2 → irredundant m1 → irredundant m2 →
  (∀ x, covered m1 x ↔ covered m2 x) → content_equiv m1 m2.
Proof.
  assert (Hhalf : ∀ m1 m2 : gmap K E, keyed m1 → keyed m2 → irredundant m1 →
    (∀ x, covered m1 x ↔ covered m2 x) → ∀ k e1, m1 !! k = Some e1 →
    ∃ e2, m2 !! k = Some e2 ∧ value_eqv (re_value e1) (re_value e2)).
  { clear m1 m2. intros m1 m2 Hm1 Hm2 Hi Hc k e1 H1.
    destruct (proj1 (Hc e1) (covered_lookup _ _ _ H1)) as (k2 & e2 & H2 & H21).
    destruct (proj2 (Hc e2) (covered_lookup _ _ _ H2)) as (k3 & e3 & H3 & H32).
    assert (k3 = k) as -> by (eapply Hi; eauto using covers_trans). simplify_eq.
    pose proof (Hm1 _ _ H1) as <-. pose proof (Hm2 _ _ H2) as <-.
    destruct H21 as [Hp21 Hv21], H32 as [Hp32 Hv32].
    assert (Hk : re_key e1 = re_key e2) by (by apply (anti_symm key_prefix)).
    exists e2. rewrite Hk. by split; [|split]. }
  intros Hm1 Hm2 Hi1 Hi2 Hc k.
  destruct (m1 !! k) as [e1|] eqn:H1, (m2 !! k) as [e2|] eqn:H2.
  - destruct (Hhalf m1 m2 Hm1 Hm2 Hi1 Hc k e1 H1) as (e2' & H2' & Hv). simplify_eq. by constructor.
  - destruct (Hhalf m1 m2 Hm1 Hm2 Hi1 Hc k e1 H1) as (e2' & H2' & Hv). simplify_eq.
  - destruct (Hhalf m2 m1 Hm2 Hm1 Hi2 (λ x, iff_sym (Hc x)) k e2 H2) as (e1' & H1' & Hv). simplify_eq.
  - constructor.
Qed.

End Content.

(** ** The contract of a store *)

Class StoreLaws (S Er E K V : Type) `{HR : RangeEntry E K V} `{HS : !Store S Er E K V}
    `{HB : Blake3Hash} : Type := {
  (** The entries the store holds. *)
  content : S → gmap K E;
  (** The states, keys and entries for which the store keeps its contract. *)
  store_ok : S → Prop;
  key_ok : K → Prop;
  entry_ok : E → Prop;
  law_keyed s : store_ok s → keyed (content s);
  law_entry s k e : store_ok s → content s !! k = Some e → entry_ok e;
  law_entry_key e : entry_ok e → key_ok (re_key e);
  law_first s : store_ok s → ∃ k, get_first s = Done (Ok k) s [] ∧ key_ok k;
  law_range r s : store_ok s → key_ok (rx r) → key_ok (ry r) →
    get_range r s = Done (Ok (Ok <$> range_entries r (content s))) s [];
  law_fingerprint r s : store_ok s → key_ok (rx r) → key_ok (ry r) →
    get_fingerprint r s = Done (Ok (fp_of (range_entries r (content s)))) s [];
  law_prefixes e s : store_ok s → entry_ok e →
    ∃ l, prefixes_of (re_key e) s = Done (Ok (Ok <$> l)) s [] ∧
      ∀ x, x ∈ l ↔ content s !! re_key x = Some x ∧ key_prefix (re_key x) (re_key e);
  law_remove e P s : store_ok s → entry_ok e →
    ∃ s', remove_prefix_filtered (re_key e) P s =
        Done (Ok (ssize (filter (λ ke : K * E, key_prefix (re_key e) ke.1 ∧ P (re_value ke.2) = true)
                           (content s)))) s' [] ∧
      store_ok s' ∧
      content s' = filter (λ ke : K * E, ¬ (key_prefix (re_key e) ke.1 ∧ P (re_value ke.2) = true))
                     (content s);
  law_entry_put e s : store_ok s → entry_ok e →
    ∃ s', entry_put e s = Done (Ok ()) s' [] ∧ store_ok s' ∧
      content s' = <[re_key e := e]> (content s);
}.

Section Put.
  Context {S Er E K V : Type} `{HR : RangeEntry E K V} `{HS : !Store S Er E K V}
    `{HB : Blake3Hash} `{HL : !StoreLaws S Er E K V}.

(** *** Sorted entries *)

#[global] Instance entry_le_trans : Transitive (entry_le (E:=E)).
Proof. intros e f g. unfold entry_le. apply transitivity. Qed.

#[global] Instance entry_le_total : Total (entry_le (E:=E)).
Proof. intros e f. unfold entry_le. apply total, _. Qed.

Lemma elem_of_sorted_entries m (e : E) : e ∈ sorted_entries m ↔ ∃ k, m !! k = Some e.
Proof.
  unfold sorted_entries. rewrite merge_sort_Permutation, list_elem_of_fmap. split.
  - intros ([k e'] & -> & Hk). exists k. by rewrite elem_of_map_to_list in Hk.
  - intros [k Hk]. exists (k, e). by rewrite elem_of_map_to_list.
Qed.

Lemma length_sorted_entries (m : gmap K E) : length (sorted_entries m) = size m.
Proof.
  unfold sorted_entries. by rewrite merge_sort_Permutation, length_fmap, length_map_to_list.
Qed.

Lemma sorted_entries_keys (m : gmap K E) :
  keyed m → re_key <$> sorted_entries m ≡ₚ (map_to_list m).*1.
Proof.
  intros Hm. unfold sorted_entries. rewrite merge_sort_Permutation, <-list_fmap_compose.
  apply reflexive_eq, list_fmap_ext. intros i [k e] Hi. simpl. apply Hm.
  apply elem_of_map_to_list, list_elem_of_lookup. eauto.
Qed.

Lemma NoDup_sorted_keys (m : gmap K E) : keyed m → NoDup (re_key <$> sorted_entries m).
Proof. intros Hm. rewrite sorted_entries_keys by done. apply NoDup_fst_map_to_list. Qed.

Lemma sorted_entries_sorted (m : gmap K E) : StronglySorted entry_le (sorted_entries m).
Proof. apply StronglySorted_merge_sort; apply _. Qed.

Lemma elem_of_range_entries r m (e : E) :
  e ∈ range_entries r m ↔ contains r (re_key e) = true ∧ ∃ k, m !! k = Some e.
Proof. unfold range_entries. by rewrite list_elem_of_filter, elem_of_sorted_entries. Qed.

Lemma NoDup_range_keys r (m : gmap K E) : keyed m → NoDup (re_key <$> range_entries r m).
Proof.
  intros Hm. eapply sublist_NoDup; [by apply NoDup_sorted_keys|].
  apply fmap_sublist, sublist_filter.
Qed.

Lemma range_entries_sorted r (m : gmap K E) : StronglySorted entry_le (range_entries r m).
Proof. apply StronglySorted_filter, sorted_entries_sorted. Qed.

(** A sorted list without repeated keys is determined by its elements. *)
Lemma range_entries_unique r (m : gmap K E) l :
  keyed m → NoDup (re_key <$> l) → StronglySorted entry_le l →
  (∀ e, e ∈ l ↔ e ∈ range_entries r m) → l = range_entries r m.
Proof.
  intros Hm Hnd Hs Hel. apply (StronglySorted_unique_strong entry_le).
  - intros x1 x2 Hx1%Hel Hx2 H1 H2.
    apply elem_of_range_entries in Hx1 as [_ [k1 Hx1]], Hx2 as [_ [k2 Hx2]].
    assert (re_key x1 = re_key x2) by (by apply (anti_symm key_le)).
    pose proof (Hm _ _ Hx1). pose proof (Hm _ _ Hx2). congruence.
  - done.
  - apply range_entries_sorted.
  - apply NoDup_Permutation; [by eapply NoDup_fmap_1|by eapply NoDup_fmap_1, NoDup_range_keys|done].
Qed.

(** *** The effect of [put] *)

Lemma refused_spec v (l : list E) :
  refused (Er:=Er) v (Ok <$> l) = Ok (bool_decide (Exists (λ e, value_le v (re_value e)) l)).
Proof.
  induction l as [|e l IH]; [done|].
  change (refused v (Ok <$> e :: l)) with
    (if bool_decide (value_le v (re_value e)) then Ok true else refused (Er:=Er) v (Ok <$> l)).
  rewrite IH, (bool_decide_ext (Exists _ (e :: l)) _ (Exists_cons _ _ _)).
  destruct (decide (value_le v (re_value e))) as [H|H].
  - rewrite (bool_decide_eq_true_2 _ H), bool_decide_eq_true_2 by tauto. done.
  - rewrite (bool_decide_eq_false_2 _ H). f_equal. apply bool_decide_ext. tauto.
Qed.

(** [put] refuses an entry that the content covers. Any other entry is inserted,
    and the entries it makes obsolete are removed and counted. *)
Lemma put_spec (e : E) s :
  store_ok s → entry_ok e →
  ∃ s', store_ok s' ∧ content s' = merged e (content s) ∧
    put (S:=S) (Er:=Er) e s = Done (Ok (if decide (covered (content s) e) then NotInserted
      else Inserted (ssize (content s) - ssize (pruned e (content s)))%N)) s' [] ∧
    (covered (content s) e → s' = s).
Proof.
  intros Hs He. destruct (law_prefixes e s Hs He) as (l & Hl & Hel).
  assert (Hex : Exists (λ x, value_le (re_value e) (re_value x)) l ↔ covered (content s) e).
  { rewrite Exists_exists. split.
    - intros (x & Hx & Hv). apply Hel in Hx as [Hx Hp]. exists (re_key x), x. by split; [|split].
    - intros (k & x & Hk & Hp & Hv). exists x. split; [|done]. apply Hel.
      by pose proof (law_keyed s Hs _ _ Hk) as <-. }
  unfold put, try_bind, mbind, M_bind. rewrite Hl. simpl. rewrite refused_spec. simpl.
  rewrite (bool_decide_ext _ _ Hex). unfold merged.
  destruct (decide (covered (content s) e)) as [Hc|Hc].
  { rewrite bool_decide_eq_true_2 by done. exists s. by repeat split. }
  rewrite bool_decide_eq_false_2 by done.
  destruct (law_remove e (λ value, bool_decide (value_le value (re_value e))) s Hs He)
    as (s1 & Hr & Hs1 & Hc1). rewrite Hr. simpl.
  destruct (law_entry_put e s1 Hs1 He) as (s2 & Hp & Hs2 & Hc2). rewrite Hp. simpl.
  exists s2. rewrite Hc2, Hc1. split; [done|].
  assert (Hpr : filter (λ ke : K * E, ¬ (key_prefix (re_key e) ke.1 ∧
    bool_decide (value_le (re_value ke.2) (re_value e)) = true)) (content s) = pruned e (content s)).
  { apply map_filter_ext. intros k x _. simpl. by rewrite bool_decide_eq_true. }
  rewrite Hpr. split; [done|]. split; [|done]. do 3 f_equal. by rewrite <-Hpr, <-ssize_filter_compl.
Qed.

End Put.

(** * The partition of a range

    Ranges wrap around, so a range that is split at one of its elements falls into
    two ranges. The file shows that the two ranges [process_message] announces in
    place of a range it cannot settle are disjoint, cover the range, and each hold
    an entry of the store. *)

(** ** Finitely many keys, as numbers *)

Section Embed.
  Context {E K V : Type} `{HR : RangeEntry E K V}.

(** How many of the given keys are below [t]. *)
Definition rank (l : list K) (t : K) : nat := length (filter (λ a, ¬ key_le t a) l).

Lemma rank_mono l a b : key_le a b → rank l a ≤ rank l b.
Proof.
  intros Hab. unfold rank. induction l as [|c l IH]; [done|]. rewrite !filter_cons.
  repeat case_decide; simpl; try lia. exfalso.
  match goal with H : ¬ key_le a c |- _ => apply H; by transitivity b end.
Qed.

Lemma rank_strict l a b : b ∈ l → ¬ key_le a b → rank l b < rank l a.
Proof.
  intros Hb Hab. assert (Hba : key_le b a) by (by destruct (total key_le a b)).
  induction l as [|c l IH]; [by apply not_elem_of_nil in Hb|].
  pose proof (rank_mono l b a Hba) as Hm. unfold rank in *. rewrite !filter_cons.
  apply elem_of_cons in Hb as [->|Hb].
  - rewrite decide_False by (intros Hn; by apply Hn). rewrite decide_True by done. simpl. lia.
  - specialize (IH Hb). repeat case_decide; simpl; try lia. exfalso.
    match goal with H : ¬ key_le b c |- _ => apply H; by transitivity a end.
Qed.

(** The order of the listed keys is the order of their ranks. *)
Lemma key_embed (l : list K) :
  ∃ f : K → nat, (∀ a b, b ∈ l → key_le a b ↔ f a ≤ f b) ∧
                 (∀ a b, a ∈ l → b ∈ l → a = b ↔ f a = f b).
Proof.
  exists (rank l). assert (Hle : ∀ a b, b ∈ l → key_le a b ↔ rank l a ≤ rank l b).
  { intros a b Hb. split; [apply rank_mono|]. intros Hr.
    destruct (decide (key_le a b)) as [|Hn]; [done|]. pose proof (rank_strict l a b Hb Hn). lia. }
  split; [done|]. intros a b Ha Hb. split; [by intros ->|]. intros Hr.
  apply (anti_symm key_le); apply Hle; try done; lia.
Qed.

Lemma contains_spec (r : Range K) t :
  contains r t = true ↔
    rx r = ry r ∨ (key_le (rx r) (ry r) ∧ key_le (rx r) t ∧ ¬ key_le (ry r) t) ∨
    (¬ key_le (rx r) (ry r) ∧ (key_le (rx r) t ∨ ¬ key_le (ry r) t)).
Proof. unfold contains, is_all. repeat case_bool_decide; simpl; intuition congruence. Qed.

Lemma contains_start (x y : K) : contains (mkRange x y) x = true.
Proof.
  apply contains_spec. simpl. destruct (key_embed [x; y]) as (f & Hle & Heq).
  rewrite !Hle, Heq by set_solver. lia.
Qed.

Lemma contains_end (x y : K) : x ≠ y → contains (mkRange x y) y = false.
Proof.
  intros Hxy. apply not_true_iff_false. rewrite contains_spec. simpl.
  destruct (key_embed [x; y]) as (f & Hle & Heq).
  rewrite Heq in Hxy by set_solver. rewrite !Hle, Heq by set_solver. lia.
Qed.

Lemma contains_swap (x y t : K) :
  x ≠ y → contains (mkRange y x) t = negb (contains (mkRange x y) t).
Proof.
  intros Hxy. apply eq_true_iff_eq. rewrite negb_true_iff, <-not_true_iff_false, !contains_spec.
  simpl. destruct (key_embed [x; y; t]) as (f & Hle & Heq).
  rewrite Heq in Hxy by set_solver. rewrite !Hle, !Heq by set_solver. lia.
Qed.

(** Splitting at an inner element. *)
Lemma contains_split (x y p t : K) :
  x ≠ y → p ≠ x → contains (mkRange x y) p = true →
  contains (mkRange x y) t = contains (mkRange x p) t || contains (mkRange p y) t ∧
  contains (mkRange x p) t && contains (mkRange p y) t = false.
Proof.
  intros Hxy Hpx Hp. apply contains_spec in Hp. simpl in *.
  destruct (key_embed [x; y; p; t]) as (f & Hle & Heq).
  rewrite Heq in Hxy, Hpx by set_solver. rewrite !Hle, !Heq in Hp by set_solver.
  split; [apply eq_true_iff_eq; rewrite orb_true_iff|apply not_true_iff_false; rewrite andb_true_iff];
    rewrite !contains_spec; simpl; rewrite !Hle, !Heq by set_solver; lia.
Qed.

End Embed.

(** ** Positions in the sorted entries *)

Section Positions.
  Context {E K V : Type} `{HR : RangeEntry E K V} `{HB : Blake3Hash}.

Lemma range_entries_lt r (m : gmap K E) i j a b :
  keyed m → i < j → range_entries r m !! i = Some a → range_entries r m !! j = Some b →
  key_le (re_key a) (re_key b) ∧ re_key a ≠ re_key b.
Proof.
  intros Hm Hij Ha Hb.
  assert (Hnd : NoDup (re_key <$> range_entries r m)).
  { eapply sublist_NoDup; [apply NoDup_sorted_keys, Hm|]. apply fmap_sublist, sublist_filter. }
  split.
  - refine (StronglySorted_lookup entry_le (range_entries r m) i j a b _ Hij Ha Hb).
    apply StronglySorted_filter, sorted_entries_sorted.
  - intros Heq. assert (i = j); [|lia].
    eapply (NoDup_lookup (re_key <$> range_entries r m)); [done|..];
      rewrite list_lookup_fmap; [by rewrite Ha|by rewrite Hb, Heq].
Qed.

Lemma start_index_spec {Er} (x : K) (l : list E) :
  ∃ i, start_index_loop (Er:=Er) x (Ok <$> l) = Ok i ∧ i ≤ length l ∧
    (∀ j e, j < i → l !! j = Some e → ¬ key_le x (re_key e)) ∧
    (∀ e, l !! i = Some e → key_le x (re_key e)).
Proof.
  induction l as [|e l (i & Hi & Hl & Hlt & Hge)].
  { exists 0. split; [done|]. split; [done|]. split; [lia|done]. }
  change (start_index_loop x (Ok <$> e :: l)) with
    (if bool_decide (key_le x (re_key e)) then Ok 0
     else Nat.succ <$> start_index_loop (Er:=Er) x (Ok <$> l)).
  case_bool_decide as Hx.
  - exists 0. split; [done|]. split; [lia|]. split; [lia|]. by intros ? [= <-].
  - exists (S i). rewrite Hi. split; [done|]. split; [simpl; lia|]. split; [|done].
    intros [|j] f Hj Hf; simplify_eq/=; [done|]. apply (Hlt j); [lia|done].
Qed.

(** The two positions of the pivots, for two pivots. *)
Lemma pivot_positions i n :
  2 ≤ n → i ≤ n →
  ((i + n * (0 mod 2 + 1) / 2) mod n = if decide (i + n / 2 < n) then i + n / 2 else i + n / 2 - n) ∧
  ((i + n * (1 mod 2 + 1) / 2) mod n = if decide (i < n) then i else 0).
Proof.
  intros Hn Hi. change (0 mod 2 + 1) with 1. change (1 mod 2 + 1) with 2.
  rewrite Nat.mul_1_r, Nat.div_mul by lia.
  assert (Hhalf : n / 2 < n) by (apply Nat.div_lt; lia).
  assert (Hmod : ∀ k, k < n → (k + n) mod n = k).
  { intros k Hk. rewrite Nat.Div0.add_mod, Nat.Div0.mod_same, Nat.add_0_r, Nat.Div0.mod_mod.
    by apply Nat.mod_small. }
  split; case_decide.
  - by apply Nat.mod_small.
  - replace (i + n / 2) with (i + n / 2 - n + n) at 1 by lia. apply Hmod. lia.
  - by apply Hmod.
  - replace i with n by lia. rewrite Nat.Div0.add_mod, Nat.Div0.mod_same. apply Nat.Div0.mod_0_l.
Qed.

End Positions.

(** ** The partition *)

Section Split.
  Context {S Er E K V : Type} `{HR : RangeEntry E K V} `{HS : !Store S Er E K V}
    `{HB : Blake3Hash} `{HL : !StoreLaws S Er E K V}.

Definition range_ok (r : Range K) : Prop := key_ok (rx r) ∧ key_ok (ry r).

(** [r] is the disjoint union of [r1] and [r2]. *)
Definition partition (r r1 r2 : Range K) : Prop :=
  ∀ t, contains r t = contains r1 t || contains r2 t ∧
       contains r1 t && contains r2 t = false.

(** The two entries at the pivots: they are in the range and differ, and the
    second pivot is between the start of the range and the first. *)
Lemma pivots_spec r s i :
  store_ok s → let L := range_entries r (content s) in 2 ≤ length L → i ≤ length L →
  (∀ j e, j < i → L !! j = Some e → ¬ key_le (rx r) (re_key e)) →
  (∀ e, L !! i = Some e → key_le (rx r) (re_key e)) →
  ∃ p q, p ∈ L ∧ q ∈ L ∧ re_key p ≠ re_key q ∧
    L !! ((i + length L * (0 mod 2 + 1) / 2) mod length L) = Some p ∧
    L !! ((i + length L * (1 mod 2 + 1) / 2) mod length L) = Some q ∧
    (rx r ≠ ry r → rx r ≠ re_key p ∧ contains (mkRange (rx r) (re_key p)) (re_key q) = true).
Proof.
  intros Hs L Hn Hi Hlt Hge.
  assert (Hhalf : 1 ≤ length L / 2 < length L).
  { split; [by apply Nat.div_le_lower_bound; lia|apply Nat.div_lt; lia]. }
  destruct (pivot_positions i (length L) Hn Hi) as [Hp Hq].
  remember ((i + length L * (0 mod 2 + 1) / 2) mod length L) as ip eqn:Hip'. clear Hip'.
  remember ((i + length L * (1 mod 2 + 1) / 2) mod length L) as iq eqn:Hiq'. clear Hiq'.
  assert (Hip : ip < length L) by (subst ip; repeat case_decide; lia).
  assert (Hiq : iq < length L) by (subst iq; repeat case_decide; lia).
  destruct (lookup_lt_is_Some_2 L ip Hip) as [p Hpl].
  destruct (lookup_lt_is_Some_2 L iq Hiq) as [q Hql].
  assert (Hord : ∀ j1 j2 a b, j1 < j2 → L !! j1 = Some a → L !! j2 = Some b →
    key_le (re_key a) (re_key b) ∧ re_key a ≠ re_key b).
  { intros. eapply range_entries_lt; eauto using law_keyed. }
  exists p, q. split; [by eapply list_elem_of_lookup_2|]. split; [by eapply list_elem_of_lookup_2|].
  assert (Hpq : re_key p ≠ re_key q).
  { assert (ip ≠ iq) by (subst ip iq; repeat case_decide; lia).
    destruct (decide (ip < iq)); [by eapply Hord|]. intros Heq. symmetry in Heq. revert Heq.
    eapply Hord; [|done..]. lia. }
  do 3 (split; [done|]). intros Hxy.
  assert (Hge' : ∀ j e, i ≤ j → L !! j = Some e → key_le (rx r) (re_key e)).
  { intros j e Hj He. destruct (decide (i = j)) as [<-|]; [by apply Hge|].
    destruct (lookup_lt_is_Some_2 L i) as [f Hf]; [apply lookup_lt_Some in He; lia|].
    transitivity (re_key f); [by apply Hge|]. eapply Hord; [|done..]. lia. }
  assert (Hcase : (key_le (rx r) (re_key q) ∧ key_le (re_key q) (re_key p)) ∨
    (key_le (rx r) (re_key q) ∧ ¬ key_le (rx r) (re_key p)) ∨
    (¬ key_le (rx r) (re_key p) ∧ ¬ key_le (rx r) (re_key q) ∧ key_le (re_key q) (re_key p))).
  { destruct (decide (i + length L / 2 < length L)), (decide (i < length L)); subst ip iq.
    - left. split; [eapply Hge'; [|done]; lia|]. eapply Hord; [|done..]. lia.
    - lia.
    - right; left. split; [eapply Hge'; [|done]; lia|]. eapply Hlt; [|done]. lia.
    - right; right. split; [eapply Hlt; [|done]; lia|]. split; [eapply Hlt; [|done]; lia|].
      eapply Hord; [|done..]. lia. }
  clear -Hcase Hpq. rewrite contains_spec. simpl.
  destruct (key_embed [rx r; re_key p; re_key q]) as (f & Hle & Heq).
  rewrite !Hle, !Heq in * by set_solver. lia.
Qed.

Lemma pivot_eq r s i j e :
  store_ok s → range_ok r → let L := range_entries r (content s) in length L ≠ 0 →
  L !! ((i + length L * (j mod 2 + 1) / 2) mod length L) = Some e →
  pivot (S:=S) (Er:=Er) SyncConfig_default r i (length L) j s = Done (Ok (re_key e)) s [].
Proof.
  intros Hs [Hx Hy] L Hn He. unfold pivot. rewrite bool_decide_eq_false_2 by (simpl; lia).
  rewrite (try_bind_Ok _ _ _ _ _ (law_range r s Hs Hx Hy)), list_lookup_fmap.
  change (split_factor SyncConfig_default) with 2. fold L. by rewrite He.
Qed.

Lemma pivot_range_eq (piv : nat → M S (E * ContentStatus) (result Er K)) i s a b :
  piv i s = Done (Ok a) s [] → piv (i + 1) s = Done (Ok b) s [] → a ≠ b →
  pivot_range piv i s = Done (Ok [mkRange a b]) s [].
Proof.
  intros Ha Hb Hab. unfold pivot_range.
  rewrite (try_bind_Ok _ _ _ _ _ Ha), (try_bind_Ok _ _ _ _ _ Hb).
  by rewrite bool_decide_eq_false_2.
Qed.

(** A range with at least two entries is split into two ranges that partition
    it, with an entry in each of them. *)
Lemma split_ranges_spec r s :
  store_ok s → range_ok r → let L := range_entries r (content s) in 2 ≤ length L →
  ∃ r1 r2, split_ranges (S:=S) (Er:=Er) SyncConfig_default r (length L) s =
      Done (Ok [r1; r2]) s [] ∧
    partition r r1 r2 ∧ range_ok r1 ∧ range_ok r2 ∧
    (∃ e, e ∈ L ∧ contains r1 (re_key e) = true) ∧ (∃ e, e ∈ L ∧ contains r2 (re_key e) = true).
Proof.
  intros Hs Hr L Hn. pose proof Hr as [Hx Hy].
  destruct (start_index_spec (Er:=Er) (rx r) L) as (i & Hi & Hil & Hlt & Hge).
  destruct (pivots_spec r s i Hs Hn Hil Hlt Hge) as (p & q & Hp & Hq & Hpq & Hlp & Hlq & Hxy).
  fold L in Hp, Hq, Hlp, Hlq.
  assert (Hok : ∀ e, e ∈ L → key_ok (re_key e)).
  { intros e [_ [k Hk]]%elem_of_range_entries. eauto using law_entry_key, law_entry. }
  set (piv := pivot (S:=S) (Er:=Er) SyncConfig_default r i (length L)).
  assert (H0 : piv 0 s = Done (Ok (re_key p)) s []) by (apply pivot_eq; fold L; [done..|lia|done]).
  assert (H1 : piv 1 s = Done (Ok (re_key q)) s []) by (apply pivot_eq; fold L; [done..|lia|done]).
  assert (H2 : piv 2 s = Done (Ok (re_key p)) s []) by (apply pivot_eq; fold L; [done..|lia|done]).
  unfold split_ranges. rewrite (try_bind_Ok _ _ _ _ _ (law_range r s Hs Hx Hy)).
  rewrite (try_bind_ret _ _ _ _ Hi). fold piv. unfold is_all. case_bool_decide as Hall.
  - exists (mkRange (re_key p) (re_key q)), (mkRange (re_key q) (re_key p)).
    cbn [split_factor SyncConfig_default seq try_for].
    rewrite (try_bind_Ok _ _ _ _ _ (pivot_range_eq piv 0 s _ _ H0 H1 Hpq)).
    erewrite try_bind_Ok; [|by rewrite (try_bind_Ok _ _ _ _ _
      (pivot_range_eq piv 1 s _ _ H1 H2 (not_eq_sym Hpq)))].
    split; [done|]. split.
    { intros t. rewrite (contains_swap (re_key p) (re_key q) t Hpq). unfold contains at 1, is_all.
      rewrite bool_decide_eq_true_2 by done. by destruct (contains _ t). }
    split; [by split; apply Hok|]. split; [by split; apply Hok|].
    split; [exists p|exists q]; auto using contains_start.
  - exists (mkRange (rx r) (re_key p)), (mkRange (re_key p) (ry r)).
    destruct (Hxy Hall) as [Hxp Hcq].
    cbn [split_factor SyncConfig_default seq try_for Nat.sub].
    rewrite (try_bind_Ok _ _ _ _ _ H0), (try_bind_ret _ _ [] _ eq_refl), (try_bind_Ok _ _ _ _ _ H0).
    split; [done|]. split.
    { intros t. destruct r as [x y]. apply contains_split; [done|by apply not_eq_sym|].
      by apply elem_of_range_entries in Hp as [Hp _]. }
    split; [by split; [|apply Hok]|]. split; [by split; [apply Hok|]|].
    split; [exists q|exists p]; auto using contains_start.
Qed.

End Split.
