(* ===== verification/RangerSync.v ===== *)
(** * A reconciliation session

    Two stores exchange messages until one of them has nothing to answer. The file
    defines the exchange and the invariant of the message in flight: every key is
    settled between the two stores, or lies in the range of exactly one part of
    the message. The theorems about sessions are derived from it. *)
From stdpp Require Import base tactics list gmap sets sorting orders strings.
From Stdlib Require Import ZArith Lia Strings.Byte.
From S2P Require Import Prelude Bytes Ranger RangerFacts.

Section Sync.
  Context {S Er E K V : Type} `{HR : RangeEntry E K V} `{HS : !Store S Er E K V}
    `{HB : Blake3Hash} `{HL : !StoreLaws S Er E K V}.

(** ** The exchange *)

(** What a peer passes to [process_message]. *)
Record Callbacks : Type := mkCallbacks {
  cb_validate : S → E → ContentStatus → bool;
  cb_status : E → ContentStatus;
}.

Inductive session_end : Type :=
| Converged (a b : S)
| LimitExceeded (e : LimitError)
| StoreFailed (e : Er)
| SessionPanicked
| OutOfFuel.

Definition flip_end (r : session_end) : session_end :=
  match r with Converged a b => Converged b a | _ => r end.

(** [y] receives [msg] from [x]; the roles change with every message. *)
Fixpoint exchange (fuel : nat) (cx cy : Callbacks) (sx sy : S) (msg : Message E K) : session_end :=
  match fuel with
  | O => OutOfFuel
  | Datatypes.S fuel =>
      match validate_limits msg with
      | Err e => LimitExceeded e
      | Ok _ =>
          match process_message (cb_validate cy) (cb_status cy) SyncConfig_default msg sy with
          | Done (Ok (Some reply)) sy' _ => flip_end (exchange fuel cy cx sy' sx reply)
          | Done (Ok None) sy' _ => Converged sx sy'
          | Done (Err e) _ _ => StoreFailed e
          | Panicked => SessionPanicked
          end
      end
  end.

Definition session (fuel : nat) (ca cb : Callbacks) (sa sb : S) : session_end :=
  match initial_message sa with
  | Done (Ok msg) sa' _ => exchange fuel ca cb sa' sb msg
  | Done (Err e) _ _ => StoreFailed e
  | Panicked => SessionPanicked
  end.

(** ** Settled keys *)

(** Every entry at the key is covered by the other store. *)
Definition settled (X Y : gmap K E) (k : K) : Prop :=
  ∀ e, (X !! k = Some e → covered Y e) ∧ (Y !! k = Some e → covered X e).

(** [Y] became [Y'] by receiving entries that [X] covers. *)
Definition grows (X Y Y' : gmap K E) : Prop :=
  (∀ x, covered Y x → covered Y' x) ∧
  (∀ k e, Y' !! k = Some e → Y !! k = Some e ∨ covered X e).

#[global] Instance grows_PreOrder X : PreOrder (grows X).
Proof.
  split; [by split; auto|]. intros Y1 Y2 Y3 [H1 H1'] [H2 H2']. split; [auto|].
  intros k e [He|He]%H2'; [by apply H1'|by right].
Qed.

Lemma settled_sym X Y k : settled X Y k → settled Y X k.
Proof. intros H e. destruct (H e). by split. Qed.

Lemma settled_grows X Y Y' k : grows X Y Y' → settled X Y k → settled X Y' k.
Proof.
  intros [Hc Hl] Hk e. destruct (Hk e) as [H1 H2]. split; [auto|].
  intros [He|He]%Hl; auto.
Qed.

(** In the range, [Y] has nothing [X] does not cover, and what it lacks of [X] is
    in the list. *)
Definition answered (X Y : gmap K E) (r : Range K) (l : list E) : Prop :=
  ∀ k e, contains r k = true →
    (Y !! k = Some e → covered X e) ∧
    (X !! k = Some e → covered Y e ∨ ∃ v, v ∈ l ∧ covers v e).

Lemma answered_grows_receiver X Y Y' r l :
  grows X Y Y' → answered X Y r l → answered X Y' r l.
Proof.
  intros [Hc Hl] Ha k e Hk. destruct (Ha k e Hk) as [H1 H2]. split.
  - intros [He|He]%Hl; auto.
  - intros He. destruct (H2 He) as [|]; auto.
Qed.

Lemma answered_grows_sender X Y Y' r l :
  grows X Y Y' → answered Y X r l → answered Y' X r l.
Proof.
  intros [Hc Hl] Ha k e Hk. destruct (Ha k e Hk) as [H1 H2]. split; [auto|].
  intros [He|He]%Hl; auto.
Qed.

(** ** Parts of a message *)

Definition part_range (p : MessagePart E K) : Range K :=
  match p with
  | PartFingerprint fp => rf_range fp
  | PartItem item => ri_range item
  end.

(** How many parts have the key in their range. *)
Definition hits (ps : list (MessagePart E K)) (k : K) : nat :=
  length (filter (λ p, contains (part_range p) k = true) ps).

Lemma hits_app ps qs k : hits (ps ++ qs) k = hits ps k + hits qs k.
Proof. unfold hits. by rewrite filter_app, length_app. Qed.

Lemma hits_cons p ps k :
  hits (p :: ps) k = Nat.b2n (contains (part_range p) k) + hits ps k.
Proof. unfold hits. rewrite filter_cons. case_decide as H; [by rewrite H|]. by destruct (contains _ k). Qed.

Lemma hits_elem ps k : hits ps k ≠ 0 → ∃ p, p ∈ ps ∧ contains (part_range p) k = true.
Proof.
  unfold hits. intros Hn. destruct (filter _ ps) as [|p l] eqn:Hf; [done|]. exists p.
  assert (Hp : p ∈ filter (λ p, contains (part_range p) k = true) ps) by (rewrite Hf; set_solver).
  by apply list_elem_of_filter in Hp as [??].
Qed.

(** ** Two stores with entries of a common universe *)

Section Universe.
  Context (U : list E) (HU : Forall entry_ok U).

Definition keys : list K := remove_dups (re_key <$> U).

Definition within (m : gmap K E) : Prop := ∀ k e, m !! k = Some e → e ∈ U.

(** The invariant of a store in a session. *)
Definition replica_ok (s : S) : Prop :=
  store_ok s ∧ irredundant (content s) ∧ within (content s).

(** How many keys of the universe are in a range. *)
Definition weight (r : Range K) : nat := length (filter (λ k, contains r k = true) keys).

(** Bounds the number of rounds a part can still cause. *)
Definition part_rank (p : MessagePart E K) : nat :=
  match p with
  | PartFingerprint fp => 2 + weight (rf_range fp)
  | PartItem item => if ri_have_local item then 1 else 2
  end.

(** Entries of the universe, with distinct keys in the range. *)
Definition values_ok (r : Range K) (l : list E) : Prop :=
  Forall (λ e, e ∈ U ∧ contains r (re_key e) = true) l ∧ NoDup (re_key <$> l).

(** What the part of a message from [X] to [Y] says about the two contents. *)
Definition part_ok (X Y : gmap K E) (p : MessagePart E K) : Prop :=
  range_ok (part_range p) ∧
  match p with
  | PartFingerprint fp => rf_fingerprint fp = fp_of (range_entries (rf_range fp) X)
  | PartItem item =>
      let l := (ri_values item).*1 in
      values_ok (ri_range item) l ∧ Forall (covered X) l ∧
      (if ri_have_local item then answered X Y (ri_range item) l
       else l = range_entries (ri_range item) X)
  end.

(** Every entry of the universe passes the validation. *)
Definition accepting (c : Callbacks) : Prop :=
  ∀ s e st, e ∈ U → cb_validate c s e st = true.

Lemma entry_ok_U e : e ∈ U → entry_ok e.
Proof. intros He. by eapply Forall_forall in HU. Qed.

(** *** Storing received entries *)

Lemma store_value_spec c X s v :
  accepting c → replica_ok s → v.1 ∈ U → covered X v.1 →
  ∃ s' es, store_value (cb_validate c) v s = Done (Ok ()) s' es ∧ replica_ok s' ∧
    grows X (content s) (content s') ∧ covered (content s') v.1.
Proof.
  intros Hc (Hs & Hi & Hw) Hv HX. destruct v as [e st]. simpl in *.
  destruct (put_spec e s Hs (entry_ok_U e Hv)) as (s' & Hs' & Hm & Hput & _).
  pose proof (law_keyed s Hs) as Hk.
  assert (Hrep : replica_ok s').
  { split; [done|]. rewrite Hm. split; [by apply irredundant_merged|].
    intros k x [->|Hx]%merged_lookup; [done|]. by eapply Hw. }
  assert (Hg : grows X (content s) (content s') ∧ covered (content s') e).
  { rewrite Hm. split; [split|].
    - intros x Hx. apply covered_merged; auto.
    - intros k x [->|Hx]%merged_lookup; auto.
    - apply covered_merged; [done|]. right. apply covers_refl. }
  exists s'. unfold store_value. unfold mbind at 1, M_bind at 1, gets. rewrite Hc by done. cbn.
  rewrite (try_bind_Ok _ _ _ _ _ Hput). case_decide; eexists; (split; [reflexivity|]); naive_solver.
Qed.

Lemma store_values_spec c X vs s :
  accepting c → replica_ok s → Forall (λ v, v.1 ∈ U ∧ covered X v.1) vs →
  ∃ s' es, try_each vs (store_value (cb_validate c)) s = Done (Ok ()) s' es ∧ replica_ok s' ∧
    grows X (content s) (content s') ∧ Forall (covered (content s')) vs.*1.
Proof.
  intros Hc Hs Hvs. revert s Hs. induction Hvs as [|v vs [Hv HX] Hvs IH]; intros s Hs.
  { exists s, []. split; [done|]. split; [done|]. split; [reflexivity|constructor]. }
  destruct (store_value_spec c X s v Hc Hs Hv HX) as (s1 & es1 & H1 & Hs1 & Hg1 & Hc1).
  destruct (IH s1 Hs1) as (s2 & es2 & H2 & Hs2 & Hg2 & Hc2).
  exists s2, (es1 ++ es2). split; [exact (try_bind_Done _ _ _ _ _ _ _ _ _ H1 H2)|].
  split; [done|]. split; [by etrans|]. constructor; [by apply Hg2|done].
Qed.

(** *** Items *)

Lemma range_entries_values_ok s r :
  replica_ok s → values_ok r (range_entries r (content s)).
Proof.
  intros (Hs & _ & Hw). split.
  - apply Forall_forall. intros e [Hr [k Hk]]%elem_of_range_entries. by split; [eapply Hw|].
  - eapply sublist_NoDup; [by apply NoDup_sorted_keys, law_keyed|].
    apply fmap_sublist, sublist_filter.
Qed.

Lemma values_ok_filter r l (P : E → Prop) `{!∀ e, Decision (P e)} :
  values_ok r l → values_ok r (filter P l).
Proof.
  intros [Hl Hnd]. split.
  { apply Forall_forall. intros e [_ He]%list_elem_of_filter. by eapply Forall_forall in Hl. }
  eapply sublist_NoDup; [done|]. apply fmap_sublist, sublist_filter.
Qed.

Lemma with_status_fst (st : E → ContentStatus) l : (with_status st l).*1 = l.
Proof. unfold with_status. rewrite <-list_fmap_compose. apply list_fmap_id. Qed.

Lemma peer_has_false vs (e : E) :
  peer_has vs e = false →
  ∀ v, v ∈ vs.*1 → re_key e = re_key v → ¬ value_le (re_value e) (re_value v).
Proof.
  intros Hp v ([v' st] & -> & Hv)%list_elem_of_fmap Hk Hle. simpl in *.
  assert (Ht : peer_has vs e = true); [|congruence].
  apply existsb_exists. exists (v', st). split; [by apply list_elem_of_In|].
  by rewrite !bool_decide_eq_true_2.
Qed.

Lemma peer_has_true vs (e : E) :
  peer_has vs e = true → ∃ v, v ∈ vs.*1 ∧ covers v e.
Proof.
  intros ([v st] & Hv & H)%existsb_exists. bool_hyps. exists v. split.
  - apply list_elem_of_fmap. exists (v, st). by rewrite list_elem_of_In.
  - split; [|done]. by rewrite H.
Qed.

Lemma collect_diff vs (l : list E) :
  collect (omap (λ r : result Er E, match r with
    | Ok e => if negb (peer_has vs e) then Some (Ok e) else None
    | Err e => Some (Err e) end) (Ok <$> l)) = Ok (filter (λ e, peer_has vs e = false) l).
Proof.
  rewrite <-collect_Ok. f_equal. induction l as [|e l IH]; [done|].
  rewrite fmap_cons, filter_cons. cbn [omap list_omap]. destruct (peer_has vs e) eqn:He; cbn [negb].
  - rewrite decide_False by done. apply IH.
  - rewrite decide_True by done. rewrite fmap_cons. f_equal. apply IH.
Qed.

Lemma local_diff_spec st r vs s :
  store_ok s → range_ok r →
  local_diff (Er:=Er) st r vs s =
    Done (Ok (with_status st (filter (λ e, peer_has vs e = false) (range_entries r (content s))))) s [].
Proof.
  intros Hs [Hx Hy]. unfold local_diff.
  rewrite (try_bind_Ok _ _ _ _ _ (law_range r s Hs Hx Hy)).
  by rewrite (try_bind_ret _ _ _ _ (collect_diff vs _)).
Qed.

(** A part is answered by at most one part, for the same range. *)
Definition item_reply (X Y : gmap K E) (r : Range K) (hl : bool) (out : list (MessagePart E K)) : Prop :=
  (out = [] ∧ ∀ k, contains r k = true → settled X Y k) ∨
  (hl = false ∧ ∃ vs, vs ≠ [] ∧ out = [PartItem (mkRangeItem r vs true)] ∧
     part_ok Y X (PartItem (mkRangeItem r vs true))).

Lemma answered_diff X Y Y' r vs :
  keyed X → keyed Y → grows X Y Y' → vs.*1 = range_entries r X →
  Forall (covered X) vs.*1 → Forall (covered Y') vs.*1 →
  answered Y' X r (filter (λ e, peer_has vs e = false) (range_entries r Y)).
Proof.
  intros HkX HkY [_ Hl] Hvs HX HY' k e Hk. rewrite Forall_forall in HX, HY'. split.
  - intros He. apply HY'. rewrite Hvs. apply elem_of_range_entries.
    rewrite (HkX _ _ He). eauto.
  - intros [He|He]%Hl; [|by left]. destruct (peer_has vs e) eqn:Hp.
    + apply peer_has_true in Hp as (v & Hv & Hve). left. eauto using covered_trans.
    + right. exists e. split; [|apply covers_refl]. apply list_elem_of_filter. split; [done|].
      apply elem_of_range_entries. rewrite (HkY _ _ He). eauto.
Qed.

Lemma answered_nil X Y r k : answered X Y r [] → contains r k = true → settled X Y k.
Proof.
  intros Ha Hk e. destruct (Ha k e Hk) as [H1 H2]. split; [|done].
  intros He. destruct (H2 He) as [|(v & Hv & _)]; [done|]. set_solver.
Qed.

Lemma process_item_spec c X s item :
  keyed X → accepting c → replica_ok s → part_ok X (content s) (PartItem item) →
  ∃ s' es out, process_item (cb_validate c) (cb_status c) item s = Done (Ok out) s' es ∧
    replica_ok s' ∧ grows X (content s) (content s') ∧
    item_reply X (content s') (ri_range item) (ri_have_local item) out.
Proof.
  intros HkX Hc Hs (Hr & [Hvs Hnd] & Hcov & Hhl). destruct item as [r vs hl]. simpl in *.
  assert (Hvs' : Forall (λ v, v.1 ∈ U ∧ covered X v.1) vs).
  { apply Forall_forall. intros v Hv. rewrite Forall_forall in Hvs, Hcov.
    assert (Hv1 : v.1 ∈ vs.*1) by (apply list_elem_of_fmap; eauto).
    by destruct (Hvs _ Hv1); auto. }
  destruct (store_values_spec c X vs s Hc Hs Hvs') as (s' & es & Hput & Hs' & Hg & Hall).
  pose proof Hs as (Hok & _ & _). pose proof (law_keyed s Hok) as HkY. exists s', es.
  destruct hl; unfold process_item, ok; cbv beta iota.
  - exists []. rewrite (try_bind_ret (Ok None) _ None _ eq_refl).
    split; [by erewrite try_bind_Done; [|exact Hput|done]; rewrite app_nil_r|].
    split; [done|]. split; [done|]. left. split; [done|]. intros k Hk e.
    destruct (answered_grows_receiver _ _ _ _ _ Hg Hhl k e Hk) as [H1 H2].
    split; [|done]. intros He. destruct (H2 He) as [|(v & Hv & Hve)]; [done|].
    rewrite Forall_forall in Hall. eauto using covered_trans.
  - set (D := filter (λ e, peer_has vs e = false) (range_entries r (content s))).
    assert (Ha : answered (content s') X r D) by (by apply answered_diff).
    erewrite try_bind_Ok; [|by erewrite try_bind_Ok; [|by apply local_diff_spec]]. fold D.
    eexists. split; [by erewrite try_bind_Done; [|exact Hput|done]; rewrite app_nil_r|].
    split; [done|]. split; [done|]. destruct D as [|e D'] eqn:HD.
    + left. split; [done|]. intros k Hk. apply settled_sym. by eapply answered_nil.
    + right. split; [done|]. exists (with_status (cb_status c) (e :: D')). split; [done|]. split; [done|].
      split; [done|]. cbn [ri_values ri_range ri_have_local]. rewrite with_status_fst, <-HD.
      split; [by apply values_ok_filter, range_entries_values_ok|]. rewrite HD. split; [|done].
      rewrite <-HD. apply Forall_forall. intros x [_ [_ [k Hk]]%elem_of_range_entries]%list_elem_of_filter.
      apply Hg. by eapply covered_lookup.
Qed.

(** *** Fingerprints *)

(** Sets of entries of the universe with the same fingerprint have the same keys
    and values. *)
Definition collision_free : Prop :=
  ∀ l1 l2, l1 ⊆ U → l2 ⊆ U → NoDup (re_key <$> l1) → NoDup (re_key <$> l2) →
    fp_of l1 = fp_of l2 → ∀ e1, e1 ∈ l1 → ∃ e2, e2 ∈ l2 ∧ covers e2 e1.

Lemma elem_of_keys e : e ∈ U → re_key e ∈ keys.
Proof. intros He. apply elem_of_remove_dups, list_elem_of_fmap. eauto. Qed.

Lemma weight_pos r e : e ∈ U → contains r (re_key e) = true → 1 ≤ weight r.
Proof.
  intros He Hr. unfold weight.
  assert (Hin : re_key e ∈ filter (λ k, contains r k = true) keys).
  { apply list_elem_of_filter. split; [done|]. by apply elem_of_keys. }
  destruct (filter _ keys); [by apply not_elem_of_nil in Hin|]. simpl. lia.
Qed.

Lemma weight_partition r r1 r2 : partition r r1 r2 → weight r = weight r1 + weight r2.
Proof.
  intros Hp. unfold weight. induction keys as [|k l IH]; [done|].
  rewrite !filter_cons. destruct (Hp k) as [H1 H2]. rewrite H1.
  destruct (contains r1 k), (contains r2 k); try done; simpl; lia.
Qed.

Lemma part_rank_le p : part_rank p ≤ 2 + weight (part_range p).
Proof. destruct p as [|[? ? []]]; simpl; lia. Qed.

Lemma range_entries_within s r : replica_ok s → range_entries r (content s) ⊆ U.
Proof. intros (_ & _ & Hw) e [_ [k Hk]]%elem_of_range_entries. by eapply Hw. Qed.

Lemma snapshot_ok X s r st :
  replica_ok s → range_ok r →
  part_ok (content s) X
    (PartItem (mkRangeItem r (with_status st (range_entries r (content s))) false)).
Proof.
  intros Hs Hr. split; [done|]. cbn [ri_values ri_range ri_have_local]. rewrite with_status_fst.
  split; [by apply range_entries_values_ok|]. split; [|done]. apply Forall_forall.
  intros e [_ [k Hk]]%elem_of_range_entries. by eapply covered_lookup.
Qed.

Lemma without_errors_Ok (l : list E) : without_errors (Er:=Er) (Ok <$> l) = l.
Proof. induction l as [|e l IH]; [done|]. unfold without_errors in *. simpl. by f_equal. Qed.

Lemma announce_range_spec X st r s :
  replica_ok s → range_ok r →
  ∃ p, announce_range (Er:=Er) st SyncConfig_default r s = Done (Ok [p]) s [] ∧
    part_range p = r ∧ part_ok (content s) X p.
Proof.
  intros Hs Hr. pose proof Hs as (Hok & _ & _). pose proof Hr as [Hx Hy]. unfold announce_range.
  rewrite (try_bind_Ok _ _ _ _ _ (law_range r s Hok Hx Hy)).
  rewrite (try_bind_Ok _ _ _ _ _ (law_fingerprint r s Hok Hx Hy)). eexists. split; [done|].
  rewrite without_errors_Ok. case_bool_decide; [done|]. split; [done|by apply snapshot_ok].
Qed.

(** A fingerprint is answered by nothing, by the entries of the range, or by two
    parts for the ranges of a partition. *)
Definition fingerprint_reply (X Y : gmap K E) (r : Range K) (out : list (MessagePart E K)) : Prop :=
  (out = [] ∧ ∀ k, contains r k = true → settled X Y k) ∨
  (1 ≤ weight r ∧ ∃ vs, out = [PartItem (mkRangeItem r vs false)] ∧
     part_ok Y X (PartItem (mkRangeItem r vs false))) ∨
  (∃ p1 p2, out = [p1; p2] ∧ partition r (part_range p1) (part_range p2) ∧
     part_ok Y X p1 ∧ part_ok Y X p2 ∧ 1 ≤ weight (part_range p1) ∧ 1 ≤ weight (part_range p2)).

Lemma settled_fingerprint sx sy r :
  collision_free → replica_ok sx → replica_ok sy →
  fp_of (range_entries r (content sy)) = fp_of (range_entries r (content sx)) →
  ∀ k, contains r k = true → settled (content sx) (content sy) k.
Proof.
  intros Hcf Hsx Hsy Hfp k Hk.
  assert (Hhalf : ∀ s1 s2, replica_ok s1 → replica_ok s2 →
    fp_of (range_entries r (content s1)) = fp_of (range_entries r (content s2)) →
    ∀ e, content s1 !! k = Some e → covered (content s2) e).
  { clear -Hcf Hk. intros s1 s2 H1 H2 Hfp e He. pose proof H1 as (Hok & _ & _).
    destruct (Hcf (range_entries r (content s1)) (range_entries r (content s2))) with e
      as (e2 & [_ [k2 He2]]%elem_of_range_entries & Hc); [..|by exists k2, e2].
    - by apply range_entries_within.
    - by apply range_entries_within.
    - by apply range_entries_values_ok.
    - by apply range_entries_values_ok.
    - done.
    - apply elem_of_range_entries. rewrite (law_keyed s1 Hok _ _ He). eauto. }
  intros e. split; [by apply Hhalf|by apply Hhalf].
Qed.

(** If the fingerprints of a range differ, one of the stores has an entry there. *)
Lemma weight_fingerprint sx sy r :
  replica_ok sx → replica_ok sy →
  fp_of (range_entries r (content sy)) ≠ fp_of (range_entries r (content sx)) → 1 ≤ weight r.
Proof.
  intros Hsx Hsy Hne.
  destruct (range_entries r (content sx)) as [|e l] eqn:Hx.
  - destruct (range_entries r (content sy)) as [|e l] eqn:Hy; [done|].
    assert (He : e ∈ range_entries r (content sy)) by (rewrite Hy; set_solver).
    apply (weight_pos r e); [by apply (range_entries_within sy r)|].
    by apply elem_of_range_entries in He as [??].
  - assert (He : e ∈ range_entries r (content sx)) by (rewrite Hx; set_solver).
    apply (weight_pos r e); [by apply (range_entries_within sx r)|].
    by apply elem_of_range_entries in He as [??].
Qed.

Lemma process_fingerprint_spec c sx s r :
  collision_free → replica_ok sx → replica_ok s → range_ok r →
  ∃ out, process_fingerprint (cb_status c) SyncConfig_default
      (mkRangeFingerprint r (fp_of (range_entries r (content sx)))) s = Done (Ok out) s [] ∧
    fingerprint_reply (content sx) (content s) r out.
Proof.
  intros Hcf Hsx Hs Hr. pose proof Hs as (Hok & _ & _). pose proof Hr as [Hx Hy].
  unfold process_fingerprint.
  rewrite (try_bind_Ok _ _ _ _ _ (law_fingerprint r s Hok Hx Hy)). case_bool_decide as Hfp.
  { exists []. split; [done|]. left. split; [done|]. exact (settled_fingerprint sx s r Hcf Hsx Hs Hfp). }
  assert (Hlen : get_range_len r s = Done (Ok (length (range_entries r (content s)))) s []).
  { unfold get_range_len. rewrite (try_bind_Ok _ _ _ _ _ (law_range r s Hok Hx Hy)).
    by rewrite collect_Ok. }
  rewrite (try_bind_Ok _ _ _ _ _ Hlen). destruct (_ || _) eqn:Hanchor.
  - rewrite (try_bind_Ok _ _ _ _ _ (law_range r s Hok Hx Hy)).
    rewrite (try_bind_ret _ _ _ _ (collect_Ok _)). eexists. split; [done|]. right; left.
    split; [exact (weight_fingerprint sx s r Hsx Hs Hfp)|]. eexists. split; [done|]. by apply snapshot_ok.
  - bool_hyps. destruct (split_ranges_spec r s Hok Hr) as
      (r1 & r2 & Hsplit & Hpart & Hr1 & Hr2 & (e1 & He1 & Hc1) & (e2 & He2 & Hc2)); [lia|].
    rewrite (try_bind_Ok _ _ _ _ _ Hsplit).
    destruct (announce_range_spec (content sx) (cb_status c) r1 s Hs Hr1) as (p1 & H1 & <- & Hp1).
    destruct (announce_range_spec (content sx) (cb_status c) r2 s Hs Hr2) as (p2 & H2 & <- & Hp2).
    exists [p1; p2]. cbn [try_for]. rewrite (try_bind_Ok _ _ _ _ _ H1).
    split; [by erewrite try_bind_Ok; [|by rewrite (try_bind_Ok _ _ _ _ _ H2)]|].
    right; right. exists p1, p2. repeat (split; [done|]).
    split; [apply (weight_pos _ e1)|apply (weight_pos _ e2)]; try done;
      by apply (range_entries_within s r).
Qed.

(** *** Whole messages *)

(** A non-empty answer to an item. *)
Definition item_answer (X Y : gmap K E) (p : MessagePart E K) : Prop :=
  ∃ r vs, p = PartItem (mkRangeItem r vs true) ∧ vs ≠ [] ∧ part_ok X Y p.

Lemma part_ok_grows_receiver X Y Y' p : grows X Y Y' → part_ok X Y p → part_ok X Y' p.
Proof.
  intros Hg [Hr Hp]. split; [done|]. destruct p as [|[r vs hl]]; [done|].
  destruct Hp as (? & ? & Hp). do 2 (split; [done|]). destruct hl; [|done]. simpl in *.
  by eapply answered_grows_receiver.
Qed.

Lemma item_answer_grows X Y Y' p : grows X Y Y' → item_answer Y X p → item_answer Y' X p.
Proof.
  intros Hg (r & vs & -> & Hne & Hr & Hv & Hc & Ha). exists r, vs. do 2 (split; [done|]).
  split; [done|]. split; [done|]. simpl in *. split; [|by eapply answered_grows_sender].
  eapply Forall_impl; [done|]. apply Hg.
Qed.

Lemma item_answer_weight X Y p : item_answer X Y p → 1 ≤ weight (part_range p).
Proof.
  intros (r & vs & -> & Hne & _ & [Hv _] & _). destruct vs as [|[v st] vs]; [done|].
  simpl in *. apply Forall_cons in Hv as [[Hv Hk] _]. by eapply weight_pos.
Qed.

Lemma process_items_spec c X its s :
  keyed X → accepting c → replica_ok s → Forall (λ it, part_ok X (content s) (PartItem it)) its →
  ∃ s' es out, try_for its (process_item (cb_validate c) (cb_status c)) s = Done (Ok out) s' es ∧
    replica_ok s' ∧ grows X (content s) (content s') ∧
    Forall (item_answer (content s') X) out ∧
    (∀ k, hits out k ≤ hits (PartItem <$> its) k) ∧
    (∀ k, hits (PartItem <$> its) k ≠ 0 → settled X (content s') k ∨ hits out k ≠ 0) ∧
    (out ≠ [] → Exists (λ it, ri_have_local it = false) its).
Proof.
  intros HkX Hc. revert s. induction its as [|it its IH]; intros s Hs Hits.
  { exists s, [], []. split; [done|]. split; [done|]. split; [reflexivity|]. by split. }
  apply Forall_cons in Hits as [Hit Hits].
  destruct (process_item_spec c X s it HkX Hc Hs Hit) as (s1 & es1 & o & H1 & Hs1 & Hg1 & Ho).
  destruct (IH s1 Hs1) as (s2 & es2 & os & H2 & Hs2 & Hg2 & Ha & Hh & Hset & Hfalse).
  { eapply Forall_impl; [done|]. intros it'. by apply part_ok_grows_receiver. }
  exists s2, (es1 ++ es2), (o ++ os). split; [by eapply try_for_cons|]. split; [done|].
  split; [by etrans|]. rewrite fmap_cons.
  destruct Ho as [[-> Hk]|(Hl & vs & Hne & -> & Hok)].
  - split; [done|]. split; [intros k; rewrite hits_cons; specialize (Hh k); simpl; lia|].
    split; [|intros ?; by apply Exists_cons_tl, Hfalse].
    intros k. rewrite hits_cons. simpl. destruct (contains _ k) eqn:Hck; [|by apply Hset].
    intros _. left. eapply settled_grows; [done|]. by apply Hk.
  - split.
    { apply Forall_cons. split; [|done]. eapply item_answer_grows; [done|]. by exists (ri_range it), vs. }
    cbn [app]. split; [intros k; rewrite !hits_cons; specialize (Hh k); simpl; lia|].
    split; [|intros _; by apply Exists_cons_hd].
    intros k. rewrite !hits_cons. simpl.
    destruct (contains _ k) eqn:Hck; simpl; [by right|]. apply Hset.
Qed.

(** What an answer to one part has to satisfy: [n] bounds the ranks. *)
Definition reply_ok (X Y : gmap K E) (p : MessagePart E K) (out : list (MessagePart E K)) : Prop :=
  Forall (λ q, part_ok Y X q ∧ 1 ≤ weight (part_range q) ∧ part_rank q < part_rank p) out ∧
  (∀ k, hits out k ≤ Nat.b2n (contains (part_range p) k)) ∧
  (∀ k, contains (part_range p) k = true → settled X Y k ∨ hits out k ≠ 0).

Lemma fingerprint_reply_ok X Y fp out :
  fingerprint_reply X Y (rf_range fp) out → reply_ok X Y (PartFingerprint fp) out.
Proof.
  intros [[-> Hk]|[(Hw & vs & -> & Hok)|(p1 & p2 & -> & Hp & Hok1 & Hok2 & Hw1 & Hw2)]].
  - split; [done|]. split; [intros k; apply Nat.le_0_l|]. intros k Hck. left. by apply Hk.
  - split; [apply Forall_singleton; split; [done|]; split; [done|]; simpl; lia|].
    split; intros k; rewrite hits_cons; simpl; [change (hits [] k) with 0; lia|].
    intros ->. by right.
  - pose proof (weight_partition _ _ _ Hp) as Hw.
    pose proof (part_rank_le p1). pose proof (part_rank_le p2). split.
    { rewrite Forall_cons, Forall_singleton. simpl. split; (split; [done|]); (split; [done|lia]). }
    split; intros k; rewrite !hits_cons; destruct (Hp k) as [Hc1 Hc2];
      change (hits [] k) with 0; cbn [part_range]; rewrite Hc1;
      destruct (contains (part_range p1) k), (contains (part_range p2) k); simpl in *; auto with lia.
Qed.

Lemma process_fingerprints_spec c sx s fps :
  collision_free → replica_ok sx → replica_ok s →
  Forall (λ fp, part_ok (content sx) (content s) (PartFingerprint fp)) fps →
  ∃ out, try_for fps (process_fingerprint (cb_status c) SyncConfig_default) s = Done (Ok out) s [] ∧
    Forall (λ q, part_ok (content s) (content sx) q ∧ 1 ≤ weight (part_range q) ∧
      Exists (λ fp, part_rank q < part_rank (PartFingerprint fp)) fps) out ∧
    (∀ k, hits out k ≤ hits (PartFingerprint <$> fps) k) ∧
    (∀ k, hits (PartFingerprint <$> fps) k ≠ 0 → settled (content sx) (content s) k ∨ hits out k ≠ 0).
Proof.
  intros Hcf Hsx Hs. induction fps as [|fp fps IH]; intros Hfps.
  { exists []. by repeat split. }
  apply Forall_cons in Hfps as [[Hr Hfp] Hfps]. destruct (IH Hfps) as (os & H2 & Hos & Hh & Hset).
  destruct fp as [r f]. simpl in Hr, Hfp. subst f.
  destruct (process_fingerprint_spec c sx s r Hcf Hsx Hs Hr) as (o & H1 & Ho).
  apply (fingerprint_reply_ok _ _ (mkRangeFingerprint r (fp_of (range_entries r (content sx)))))
    in Ho as (Ho & Hho & Hko).
  exists (o ++ os). split; [exact (try_for_cons _ _ _ _ _ _ _ _ _ _ H1 H2)|]. rewrite fmap_cons. split.
  { apply Forall_app. split.
    - eapply Forall_impl; [exact Ho|]. intros q (? & ? & ?). auto using Exists_cons_hd.
    - eapply Forall_impl; [exact Hos|]. intros q (? & ? & ?). auto using Exists_cons_tl. }
  split; intros k; rewrite hits_app, hits_cons; specialize (Hho k); specialize (Hh k); [lia|].
  destruct (contains _ k) eqn:Hck; simpl in *.
  - intros _. destruct (Hko k Hck) as [|]; [by left|right; lia].
  - intros Hne. destruct (Hset k Hne); [by left|right; lia].
Qed.

(** The invariant of a message from [X] to [Y]. *)
Definition pending (X Y : gmap K E) (ps : list (MessagePart E K)) : Prop :=
  Forall (part_ok X Y) ps ∧ (∀ k, hits ps k ≤ 1) ∧ (∀ k, settled X Y k ∨ hits ps k ≠ 0).

Lemma hits_items_fingerprints ps k :
  hits ps k = hits (PartItem <$> message_items ps) k +
              hits (PartFingerprint <$> message_fingerprints ps) k.
Proof.
  induction ps as [|[fp|it] ps IH]; [done|..]; rewrite hits_cons, IH;
    unfold message_items, message_fingerprints; cbn [omap list_omap];
    rewrite fmap_cons, hits_cons; simpl; lia.
Qed.

Lemma elem_of_message_items (ps : list (MessagePart E K)) it :
  it ∈ message_items ps → PartItem it ∈ ps.
Proof. intros ([] & Hp & [= ->])%list_elem_of_omap; done. Qed.

Lemma elem_of_message_fingerprints (ps : list (MessagePart E K)) fp :
  fp ∈ message_fingerprints ps → PartFingerprint fp ∈ ps.
Proof. intros ([] & Hp & [= ->])%list_elem_of_omap; done. Qed.

Lemma process_message_spec c sx s ps :
  collision_free → accepting c → replica_ok sx → replica_ok s →
  pending (content sx) (content s) ps →
  ∃ s' es out, process_message (cb_validate c) (cb_status c) SyncConfig_default (mkMessage ps) s =
      Done (Ok (match out with [] => None | _ => Some (mkMessage out) end)) s' es ∧
    replica_ok s' ∧ grows (content sx) (content s) (content s') ∧
    pending (content s') (content sx) out ∧
    Forall (λ q, 1 ≤ weight (part_range q) ∧ Exists (λ p, part_rank q < part_rank p) ps) out.
Proof.
  intros Hcf Hc Hsx Hs (Hps & Hone & Hk). pose proof Hsx as (Hokx & _ & _).
  rewrite Forall_forall in Hps.
  destruct (process_items_spec c (content sx) (message_items ps) s (law_keyed sx Hokx) Hc Hs)
    as (s1 & es & o1 & H1 & Hs1 & Hg & Ha & Hh1 & Hset1 & Hfalse).
  { apply Forall_forall. intros it Hit%elem_of_message_items. by apply Hps. }
  destruct (process_fingerprints_spec c sx s1 (message_fingerprints ps) Hcf Hsx Hs1)
    as (o2 & H2 & Hp2 & Hh2 & Hset2).
  { apply Forall_forall. intros fp Hfp%elem_of_message_fingerprints.
    eapply part_ok_grows_receiver; [exact Hg|by apply Hps]. }
  exists s1, es, (o1 ++ o2). split.
  { unfold process_message. rewrite <-(app_nil_r es). eapply try_bind_Done; [exact H1|].
    rewrite (try_bind_Ok _ _ _ _ _ H2). by destruct (o1 ++ o2). }
  rewrite Forall_forall in Ha, Hp2. split; [done|]. split; [done|]. split; [split; [|split]|].
  - apply Forall_forall. intros p [(r & vs & -> & _ & ?)%Ha|[? _]%Hp2]%elem_of_app; done.
  - intros k. rewrite hits_app. specialize (Hone k). rewrite hits_items_fingerprints in Hone.
    specialize (Hh1 k). specialize (Hh2 k). lia.
  - intros k. rewrite hits_app. destruct (Hk k) as [Hset|Hne].
    { left. apply settled_sym. by eapply settled_grows. }
    rewrite hits_items_fingerprints in Hne.
    destruct (decide (hits (PartItem <$> message_items ps) k = 0)) as [Hz|Hnz].
    + destruct (Hset2 k) as [|]; [lia|left; by apply settled_sym|right; lia].
    + destruct (Hset1 k Hnz) as [|]; [left; by apply settled_sym|right; lia].
  - apply Forall_forall. intros p [Hp|(_ & Hw & Hr)%Hp2]%elem_of_app.
    + split; [by apply (item_answer_weight (content s1) (content sx)), Ha|].
      assert (Hne : o1 ≠ []) by (by intros ->; apply not_elem_of_nil in Hp).
      apply Hfalse, Exists_exists in Hne as (it & Hit & Hl).
      apply Exists_exists. exists (PartItem it). split; [by apply elem_of_message_items|].
      destruct (Ha _ Hp) as (r & vs & -> & _). simpl. rewrite Hl. lia.
    + split; [done|]. apply Exists_exists in Hr as (fp & Hfp & Hlt).
      apply Exists_exists. exists (PartFingerprint fp). by split; [apply elem_of_message_fingerprints|].
Qed.

(** *** Limits

    The ranges of a message are disjoint, so its parts and its values are at most
    as many as the keys of the universe. *)

Lemma weight_sum r : sum_list_with (λ k, Nat.b2n (contains r k)) keys = weight r.
Proof.
  unfold weight. induction keys as [|k l IH]; [done|]. rewrite filter_cons. simpl. rewrite IH.
  by destruct (contains r k).
Qed.

Lemma sum_list_with_add {A} (f g : A → nat) l :
  sum_list_with (λ x, f x + g x) l = sum_list_with f l + sum_list_with g l.
Proof. induction l as [|x l IH]; simpl; lia. Qed.

Lemma sum_list_with_le {A} (f g : A → nat) l :
  Forall (λ x, f x ≤ g x) l → sum_list_with f l ≤ sum_list_with g l.
Proof. induction 1; simpl; lia. Qed.

Lemma total_weight ps :
  (∀ k, hits ps k ≤ 1) → sum_list_with (λ p, weight (part_range p)) ps ≤ length keys.
Proof.
  intros Hone. assert (Heq : sum_list_with (λ p, weight (part_range p)) ps = sum_list_with (hits ps) keys).
  { clear Hone. induction ps as [|p ps IH].
    - symmetry. simpl. by induction keys.
    - simpl. rewrite IH, <-weight_sum, <-sum_list_with_add. clear. induction keys as [|k l IH]; [done|].
      simpl. by rewrite hits_cons, IH. }
  rewrite Heq. transitivity (sum_list_with (λ _, 1) keys).
  - apply sum_list_with_le, Forall_forall. auto.
  - clear. induction keys; simpl; lia.
Qed.

Lemma part_values_weight X Y p :
  part_ok X Y p → from_option length 0 (part_values p) ≤ weight (part_range p).
Proof.
  destruct p as [|[r vs hl]]; intros [_ H]; simpl; [lia|]. simpl in H. destruct H as ([Hv Hnd] & _).
  rewrite <-(length_fmap fst), <-(length_fmap re_key). apply submseteq_length, NoDup_submseteq; [done|].
  intros k (e & -> & He)%list_elem_of_fmap. rewrite Forall_forall in Hv.
  destruct (Hv e He) as [HeU Hk]. apply list_elem_of_filter. split; [done|]. by apply elem_of_keys.
Qed.

Lemma foldl_saturating (f : MessagePart E K → N) ps (acc : N) :
  (foldl (λ count p, saturating_add64 count (f p)) acc ps
   <= acc + N.of_nat (sum_list_with (λ p, N.to_nat (f p)) ps))%N.
Proof.
  revert acc. induction ps as [|p ps IH]; intros acc; simpl; [lia|].
  etrans; [apply IH|]. unfold saturating_add64. lia.
Qed.

Lemma pending_limits X Y ps :
  pending X Y ps → Forall (λ p, 1 ≤ weight (part_range p)) ps → length keys ≤ 1024 →
  validate_limits (mkMessage ps) = Ok ().
Proof.
  intros (Hps & Hone & _) Hw Hkeys. pose proof (total_weight ps Hone) as Htot.
  assert (Hlen : length ps ≤ sum_list_with (λ p, weight (part_range p)) ps).
  { clear -Hw. induction Hw; simpl; lia. }
  assert (Hvals : sum_list_with (λ p, N.to_nat (from_option len 0%N (part_values p))) ps ≤
    sum_list_with (λ p, weight (part_range p)) ps).
  { apply sum_list_with_le. eapply Forall_impl; [exact Hps|]. intros p Hp%part_values_weight.
    destruct (part_values p); simpl in *; unfold len; lia. }
  unfold validate_limits, len. simpl.
  rewrite (proj2 (N.ltb_ge _ _)) by (unfold MAX_SYNC_MESSAGE_PARTS; lia).
  rewrite (proj2 (N.ltb_ge _ _)); [done|].
  etrans; [apply foldl_saturating|]. unfold MAX_ENTRIES_PER_SYNC_MESSAGE, len in *. lia.
Qed.

(** *** The whole exchange *)

Lemma settled_covered X Y : (∀ k, settled X Y k) → ∀ x, covered X x ↔ covered Y x.
Proof.
  intros Hset x. split; intros (k & e & He & Hx); destruct (Hset k e) as [H1 H2];
    eauto using covered_trans.
Qed.

Lemma exchange_spec n fuel cx cy sx sy ps :
  collision_free → length keys ≤ 1024 → accepting cx → accepting cy →
  replica_ok sx → replica_ok sy → pending (content sx) (content sy) ps →
  Forall (λ p, part_rank p ≤ n) ps → validate_limits (mkMessage ps) = Ok () → n < fuel →
  ∃ sx' sy', exchange fuel cx cy sx sy (mkMessage ps) = Converged sx' sy' ∧
    replica_ok sx' ∧ replica_ok sy' ∧
    (∀ x, covered (content sx) x → covered (content sx') x) ∧
    (∀ x, covered (content sy) x → covered (content sy') x) ∧
    (∀ k, settled (content sx') (content sy') k).
Proof.
  intros Hcf Hkeys. revert fuel cx cy sx sy ps.
  induction n as [|n IH]; intros fuel cx cy sx sy ps Hcx Hcy Hsx Hsy Hp Hr Hlim Hfuel;
    (destruct fuel as [|fuel]; [lia|]); cbn [exchange]; rewrite Hlim;
    destruct (process_message_spec cy sx sy ps Hcf Hcy Hsx Hsy Hp)
      as (s' & es & out & Hm & Hs' & [Hg Hg'] & Hp' & Hout); rewrite Hm;
    (destruct out as [|q out]; [exists sx, s'; destruct Hp' as (_ & _ & Hset);
      do 3 (split; [done|]); split; [auto|]; split; [auto|];
      intros k; destruct (Hset k); [by apply settled_sym|done]|]).
  - apply Forall_cons in Hout as [[_ (p & Hpp & Hlt)%Exists_exists] _].
    rewrite Forall_forall in Hr. specialize (Hr p Hpp). lia.
  - destruct (IH fuel cy cx s' sx (q :: out)) as (sy2 & sx2 & He & Hy2 & Hx2 & Hcy2 & Hcx2 & Hset);
      [done..| | |lia|].
    + eapply Forall_impl; [exact Hout|]. intros p [_ (p' & Hpp & Hlt)%Exists_exists].
      rewrite Forall_forall in Hr. specialize (Hr p' Hpp). lia.
    + apply (pending_limits _ _ _ Hp'); [|done]. eapply Forall_impl; [exact Hout|]. by intros p [? _].
    + exists sx2, sy2. rewrite He. do 3 (split; [done|]). split; [done|]. split; [auto|].
      intros k. by apply settled_sym.
Qed.

End Universe.

End Sync.
