(* ===== verification/RangerProps.v ===== *)
(** * Properties of range-based set reconciliation

    The theorems about [put], about the partition of ranges and about whole
    sessions, for every store that keeps the contract [StoreLaws]. A finite map
    is such a store; it serves for the concrete runs. *)
From stdpp Require Import base tactics list gmap sets sorting orders strings.
From Stdlib Require Import ZArith Lia Strings.Byte.
From S2P Require Import Prelude Bytes Ranger RangerFacts RangerSync.

Section Props.
  Context {S Er E K V : Type} `{HR : RangeEntry E K V} `{HS : !Store S Er E K V}
    `{HB : Blake3Hash} `{HL : !StoreLaws S Er E K V}.

(** Inserting a sequence of entries. *)
Definition put_all (l : list E) : M S (E * ContentStatus) (result Er ()) :=
  try_each l (λ e, _ ←? put e; ok ()).

Lemma put_all_spec l s :
  store_ok s → irredundant (content s) → Forall entry_ok l →
  ∃ s', put_all l s = Done (Ok ()) s' [] ∧ store_ok s' ∧ irredundant (content s') ∧
    ∀ x, covered (content s') x ↔ covered (content s) x ∨ Exists (λ e, covers e x) l.
Proof.
  intros Hs Hi Hl. revert s Hs Hi. induction Hl as [|e l He Hl IH]; intros s Hs Hi.
  { exists s. split; [done|]. split; [done|]. split; [done|]. intros x. rewrite Exists_nil. tauto. }
  destruct (put_spec e s Hs He) as (s1 & Hs1 & Hc1 & Hput & _).
  destruct (IH s1 Hs1) as (s2 & Hall & Hs2 & Hi2 & Hc2).
  { rewrite Hc1. by apply irredundant_merged; [apply law_keyed|]. }
  exists s2. split; [|split; [done|split; [done|]]].
  - unfold put_all. simpl. erewrite try_bind_Ok; [exact Hall|]. by erewrite try_bind_Ok.
  - intros x. rewrite Hc2, Hc1, Exists_cons, covered_merged by (by apply law_keyed). tauto.
Qed.

(** [put] refuses an entry exactly when the store holds an entry that is not
    older at its key or at a prefix of its key, and changes nothing then. Otherwise the
    entry is stored, exactly the entries that it makes obsolete disappear, and
    their number is returned. *)
Theorem put_inserts_or_refuses (e : E) (s : S) :
  store_ok s → entry_ok e →
  (covered (content s) e ∧ put e s = Done (Ok NotInserted) s []) ∨
  (¬ covered (content s) e ∧ ∃ s' n, put e s = Done (Ok (Inserted n)) s' [] ∧ store_ok s' ∧
     content s' !! re_key e = Some e ∧
     (∀ k x, k ≠ re_key e → content s' !! k = Some x ↔ content s !! k = Some x ∧ ¬ covers e x) ∧
     n = ssize (filter (λ kx : K * E, covers e kx.2) (content s))).
Proof.
  intros Hs He. pose proof (law_keyed s Hs) as Hk.
  destruct (put_spec e s Hs He) as (s' & Hs' & Hc & Hput & Hsame). unfold merged in Hc.
  destruct (decide (covered (content s) e)) as [Hcov|Hcov].
  { left. by rewrite (Hsame Hcov) in Hput. }
  assert (Hpr : pruned e (content s) = filter (λ kx : K * E, ¬ covers e kx.2) (content s)).
  { apply map_filter_ext. intros k x Hx. simpl. unfold covers. by rewrite (Hk _ _ Hx). }
  right. split; [done|]. exists s'. eexists. split; [done|]. split; [done|]. rewrite Hc.
  split; [apply lookup_insert_eq|]. split; [|by rewrite Hpr, <-ssize_filter_compl].
  intros k x Hne. rewrite lookup_insert_ne by done. rewrite Hpr, map_lookup_filter_Some. done.
Qed.

(** The content of a store does not depend on the order in which entries
    arrive: after the same entries in any two orders, two stores that were empty
    hold the same keys with values the order does not tell apart, and cover exactly
    what some inserted entry covers. *)
Theorem put_order_irrelevant (l1 l2 : list E) (s : S) :
  store_ok s → content s = ∅ → Forall entry_ok l1 → l1 ≡ₚ l2 →
  ∃ s1 s2, put_all l1 s = Done (Ok ()) s1 [] ∧ put_all l2 s = Done (Ok ()) s2 [] ∧
    content_equiv (content s1) (content s2) ∧
    ∀ x, covered (content s1) x ↔ Exists (λ e, covers e x) l1.
Proof.
  intros Hs Hempty Hl1 Hperm.
  assert (Hi : irredundant (content s)) by (intros k1 e1 k2 e2 H1; by rewrite Hempty in H1).
  destruct (put_all_spec l1 s Hs Hi Hl1) as (s1 & H1 & Hs1 & Hi1 & Hc1).
  destruct (put_all_spec l2 s Hs Hi) as (s2 & H2 & Hs2 & Hi2 & Hc2); [by rewrite <-Hperm|].
  assert (Hnone : ∀ x, ¬ covered (content s) x) by (intros x (k & e & He & _); by rewrite Hempty in He).
  exists s1, s2. split; [done|]. split; [done|]. split.
  - apply covered_content_equiv; auto using law_keyed. intros x. by rewrite Hc1, Hc2, Hperm.
  - intros x. rewrite Hc1. specialize (Hnone x). tauto.
Qed.

(** The recursion step of the protocol: a range with two or more local
    entries is replaced by two ranges that partition it, each of which holds a
    local entry, so both are strictly smaller. *)
Theorem split_is_partition (r : Range K) (s : S) :
  store_ok s → range_ok r → 2 ≤ length (range_entries r (content s)) →
  ∃ r1 r2, split_ranges SyncConfig_default r (length (range_entries r (content s))) s =
      Done (Ok [r1; r2]) s [] ∧ partition r r1 r2 ∧
    length (range_entries r1 (content s)) < length (range_entries r (content s)) ∧
    length (range_entries r2 (content s)) < length (range_entries r (content s)).
Proof.
  intros Hs Hr Hn. destruct (split_ranges_spec r s Hs Hr Hn)
    as (r1 & r2 & H & Hp & _ & _ & (e1 & He1 & Hc1) & (e2 & He2 & Hc2)).
  exists r1, r2. split; [done|]. split; [done|].
  assert (Hlen : length (range_entries r (content s)) =
    length (range_entries r1 (content s)) + length (range_entries r2 (content s))).
  { unfold range_entries. induction (sorted_entries (content s)) as [|e l IH]; [done|].
    rewrite !filter_cons. destruct (Hp (re_key e)) as [Ha Hb]. rewrite Ha.
    destruct (contains r1 (re_key e)), (contains r2 (re_key e)); try done; simpl; lia. }
  assert (Hin : ∀ r' e, e ∈ range_entries r (content s) → contains r' (re_key e) = true →
    0 < length (range_entries r' (content s))).
  { intros r' e [_ He]%elem_of_range_entries Hc.
    assert (e ∈ range_entries r' (content s)) by (by apply elem_of_range_entries).
    destruct (range_entries r' (content s)); [by apply not_elem_of_nil in H0|simpl; lia]. }
  pose proof (Hin r1 e1 He1 Hc1). pose proof (Hin r2 e2 He2 Hc2). lia.
Qed.

(** *** Sessions *)

(** The entries of two stores. *)
Definition universe (sa sb : S) : list E :=
  sorted_entries (content sa) ++ sorted_entries (content sb).

Lemma contains_all (k t : K) : contains (mkRange k k) t = true.
Proof. unfold contains, is_all. by rewrite bool_decide_eq_true_2. Qed.

Lemma range_entries_all k (m : gmap K E) : range_entries (mkRange k k) m = sorted_entries m.
Proof.
  unfold range_entries. induction (sorted_entries m) as [|e l IH]; [done|].
  rewrite filter_cons, decide_True by apply contains_all. by f_equal.
Qed.

Lemma initial_message_spec s :
  store_ok s → ∃ k, key_ok k ∧ initial_message s =
    Done (Ok (mkMessage [PartFingerprint (mkRangeFingerprint (mkRange k k)
      (fp_of (range_entries (mkRange k k) (content s))))])) s [].
Proof.
  intros Hs. destruct (law_first s Hs) as (k & Hk & Hok). exists k. split; [done|].
  unfold initial_message. rewrite (try_bind_Ok _ _ _ _ _ Hk).
  by rewrite (try_bind_Ok _ _ _ _ _ (law_fingerprint (mkRange k k) s Hs Hok Hok)).
Qed.


(** The fingerprint of the empty set is answered with all entries. *)
Lemma process_empty_fingerprint c k s :
  store_ok s → key_ok k → fp_of (sorted_entries (content s)) ≠ fp_empty →
  process_message (cb_validate c) (cb_status c) SyncConfig_default
    (mkMessage [PartFingerprint (mkRangeFingerprint (mkRange k k) fp_empty)]) s =
  Done (Ok (Some (mkMessage [PartItem (mkRangeItem (mkRange k k)
    (with_status (cb_status c) (sorted_entries (content s))) false)]))) s [].
Proof.
  intros Hs Hk Hfp. pose proof (law_range (mkRange k k) s Hs Hk Hk) as Hr.
  pose proof (law_fingerprint (mkRange k k) s Hs Hk Hk) as Hf. rewrite range_entries_all in Hr, Hf.
  assert (Hp : process_fingerprint (cb_status c) SyncConfig_default
    (mkRangeFingerprint (mkRange k k) fp_empty) s = Done (Ok [PartItem (mkRangeItem (mkRange k k)
      (with_status (cb_status c) (sorted_entries (content s))) false)]) s []).
  { unfold process_fingerprint, get_range_len. rewrite (try_bind_Ok _ _ _ _ _ Hf).
    rewrite bool_decide_eq_false_2 by done. erewrite try_bind_Ok;
      [|by rewrite (try_bind_Ok _ _ _ _ _ Hr), collect_Ok].
    rewrite (bool_decide_eq_true_2 (fp_empty = fp_empty)), orb_true_r by done.
    rewrite (try_bind_Ok _ _ _ _ _ Hr). by rewrite (try_bind_ret _ _ _ _ (collect_Ok _)). }
  unfold process_message. erewrite try_bind_Ok; [|reflexivity].
  erewrite try_bind_Ok; [|exact (try_for_cons _ _ [] _ _ _ _ [] s [] Hp eq_refl)]. done.
Qed.

Lemma too_many_values (r : Range K) (vs : list (E * ContentStatus)) hl :
  (2048 < len vs)%N → ∃ n, validate_limits (mkMessage [PartItem (mkRangeItem r vs hl)]) =
    Err (mkLimitError "sync message entries" n MAX_ENTRIES_PER_SYNC_MESSAGE).
Proof.
  intros Hvs. unfold validate_limits. simpl. rewrite (proj2 (N.ltb_lt _ _)); [by eexists|].
  unfold saturating_add64, MAX_ENTRIES_PER_SYNC_MESSAGE, usize_max. lia.
Qed.

(** C39. A store with more than 2048 entries cannot be synchronised to an empty
    one: the answer to the fingerprint of the empty set is a single item with
    all entries, which exceeds the limit of a message. *)
Theorem large_store_exceeds_limit ca cb (sa sb : S) fuel :
  store_ok sa → store_ok sb → content sa = ∅ → (2048 < ssize (content sb))%N →
  fp_of (sorted_entries (content sb)) ≠ fp_empty → 2 ≤ fuel →
  ∃ n, session fuel ca cb sa sb =
    LimitExceeded (mkLimitError "sync message entries" n MAX_ENTRIES_PER_SYNC_MESSAGE).
Proof.
  intros Ha Hb Hempty Hsize Hfp Hfuel.
  destruct (initial_message_spec sa Ha) as (k & Hk & Hmsg). unfold session. rewrite Hmsg.
  rewrite !range_entries_all, Hempty. change (fp_of (sorted_entries ∅)) with fp_empty.
  destruct fuel as [|[|fuel]]; [lia..|]. cbn [exchange]. unfold validate_limits at 1.
  cbn [parts foldl from_option part_values len length]. cbv beta iota.
  rewrite (process_empty_fingerprint cb k sb Hb Hk Hfp).
  destruct (too_many_values (mkRange k k)
    (with_status (cb_status cb) (sorted_entries (content sb))) false) as [n Hn].
  { unfold with_status, len. rewrite length_fmap, length_sorted_entries. done. }
  rewrite Hn. by exists n.
Qed.

End Props.

(** ** A finite map as a store

    The reference implementation of the trait: it keeps the contract for every
    key, entry and state in which entries are stored under their own key. *)

Section MapStore.
  Context {E K V : Type} `{HR : RangeEntry E K V} `{HB : Blake3Hash} (default_key : K).

Definition map_remove (k : K) (P : V → bool) : M (gmap K E) (E * ContentStatus) (result () N) :=
  λ m, Done (Ok (ssize (filter (λ kx : K * E, key_prefix k kx.1 ∧ P (re_value kx.2) = true) m)))
    (filter (λ kx : K * E, ¬ (key_prefix k kx.1 ∧ P (re_value kx.2) = true)) m) [].

Definition map_store : Store (gmap K E) () E K V := {|
  get_first := gets (λ m, Ok (from_option re_key default_key (head (sorted_entries m))));
  get_fingerprint := λ r, gets (λ m, Ok (fp_of (range_entries r m)));
  entry_put := λ e m, Done (Ok ()) (<[re_key e := e]> m) [];
  get_range := λ r, gets (λ m, Ok (Ok <$> range_entries r m));
  prefixes_of := λ k, gets (λ m, Ok (Ok <$> filter (λ e, key_prefix (re_key e) k) (sorted_entries m)));
  remove_prefix_filtered := map_remove;
|}.

#[local] Existing Instance map_store.

Lemma map_prefixes e (m : gmap K E) :
  keyed m → ∀ x, x ∈ filter (λ x, key_prefix (re_key x) (re_key e)) (sorted_entries m) ↔
    m !! re_key x = Some x ∧ key_prefix (re_key x) (re_key e).
Proof.
  intros Hm x. rewrite list_elem_of_filter, elem_of_sorted_entries. split.
  - intros [Hp [k Hk]]. by pose proof (Hm _ _ Hk) as <-.
  - intros [Hx Hp]. eauto.
Qed.

Definition map_store_laws : StoreLaws (gmap K E) () E K V.
Proof.
  refine {| content := λ m : gmap K E, m; store_ok := keyed;
            key_ok := λ _, True; entry_ok := λ _, True |}; try done.
  - intros m _. by eexists.
  - intros e m Hm _. eexists. split; [done|]. by apply map_prefixes.
  - intros e P m Hm _. eexists. split; [done|]. split; [|done].
    intros k x [Hx _]%map_lookup_filter_Some. by apply Hm.
  - intros e m Hm _. eexists. split; [done|]. split; [|done].
    intros k x. rewrite lookup_insert. case_decide; [by intros [= <-]|apply Hm].
Defined.

End MapStore.

(** ** Concrete runs

    Keys and values are numbers; zero is a prefix of every key. The fingerprint of
    an entry has the bit of its key set. *)

Local Open Scope N_scope.

Definition ex_prefix (a b : N) : Prop := a = 0 ∨ a = b.

#[local] Instance ex_prefix_dec : RelDecision ex_prefix.
Proof. intros a b. unfold ex_prefix. apply _. Defined.

#[local] Instance ex_prefix_po : PartialOrder ex_prefix.
Proof.
  split; [split|].
  - intros a. by right.
  - intros a b c [->| ->] [->| ->]; unfold ex_prefix; auto.
  - intros a b [->| ->] [H|H]; auto.
Qed.

#[local] Instance ex_range_entry : RangeEntry (N * N) N N := {|
  re_key := fst;
  re_value := snd;
  as_fingerprint := λ e, [default x00 (Byte.of_N (2 ^ e.1))];
  key_le := N.le;
  key_prefix := ex_prefix;
  value_le := N.le;
|}.

#[local] Instance ex_blake3 : Blake3Hash := λ _, [x00].

#[local] Instance ex_store : Store (gmap N (N * N)) () (N * N) N N := map_store 0.
#[local] Instance ex_laws : StoreLaws (gmap N (N * N)) () (N * N) N N := map_store_laws 0.

Definition ex_of (l : list (N * N)) : gmap N (N * N) := list_to_map ((λ e, (e.1, e)) <$> l).

Lemma ex_of_ok l : store_ok (ex_of l).
Proof.
  intros k e He. apply elem_of_list_to_map_2, list_elem_of_fmap in He as (x & [= -> ->] & _). done.
Qed.

Definition ex_peer : Callbacks (S:=gmap N (N * N)) (E:=N * N) :=
  mkCallbacks (λ _ _ _, true) (λ _, Missing).

Lemma put_inserts_or_refuses_witness :
  ¬ covered (ex_of [(1, 4); (2, 7)]) (0, 5) ∧
  ∃ s' n, put (0, 5) (ex_of [(1, 4); (2, 7)]) = Done (Ok (Inserted n)) s' [] ∧ n = 1 ∧
    s' !! 1 = None ∧ s' !! 2 = Some (2, 7).
Proof.
  destruct (put_inserts_or_refuses (0, 5) (ex_of [(1, 4); (2, 7)]) (ex_of_ok _) Logic.I)
    as [[Hc _]|(Hn & s' & n & Hput & _)].
  - exfalso. revert Hc. apply (bool_decide_unpack _). vm_compute. exact Logic.I.
  - split; [exact Hn|]. exists s', n. split; [exact Hput|].
    vm_compute in Hput. injection Hput as <- <-. split; [reflexivity|]. split; reflexivity.
Defined.

Lemma put_order_irrelevant_witness :
  ∃ s1 s2, put_all [(1, 4); (0, 5); (2, 7)] (ex_of []) = Done (Ok ()) s1 [] ∧
    put_all [(2, 7); (1, 4); (0, 5)] (ex_of []) = Done (Ok ()) s2 [] ∧ content_equiv s1 s2.
Proof.
  destruct (put_order_irrelevant [(1, 4); (0, 5); (2, 7)] [(2, 7); (1, 4); (0, 5)] (ex_of []) (ex_of_ok _))
    as (s1 & s2 & H1 & H2 & He & _); [reflexivity|repeat constructor| |].
  - apply (bool_decide_unpack _). vm_compute. exact Logic.I.
  - exists s1, s2. split; [exact H1|]. split; [exact H2|exact He].
Defined.

Lemma split_is_partition_witness :
  ∃ r1 r2, split_ranges SyncConfig_default (mkRange 3 2) 3 (ex_of [(1, 4); (4, 7); (9, 1)]) =
    Done (Ok [r1; r2]) (ex_of [(1, 4); (4, 7); (9, 1)]) [] ∧ partition (mkRange 3 2) r1 r2.
Proof.
  destruct (split_is_partition (mkRange 3 2) (ex_of [(1, 4); (4, 7); (9, 1)]) (ex_of_ok _))
    as (r1 & r2 & H & Hp & _).
  - split; exact Logic.I.
  - vm_compute. lia.
  - exists r1, r2. split; [exact H|exact Hp].
Defined.

Lemma ex_sublists (a b : N * N) l :
  a.1 ≠ b.1 → l ⊆ [a; b] → NoDup (fst <$> l) →
  l = [] ∨ l = [a] ∨ l = [b] ∨ l = [a; b] ∨ l = [b; a].
Proof.
  intros Hab Hl Hnd.
  assert (Hlen : (length l ≤ 2)%nat).
  { rewrite <-(length_fmap fst). change 2%nat with (length [a.1; b.1]).
    apply submseteq_length, NoDup_submseteq; [done|].
    intros k (x & -> & Hx)%list_elem_of_fmap. apply Hl in Hx. set_solver. }
  destruct l as [|x [|y [|z l]]]; simpl in *; [by left|..|lia].
  - assert (Hx : x ∈ [a; b]) by (apply Hl; set_solver). set_solver.
  - assert (Hx : x ∈ [a; b]) by (apply Hl; set_solver).
    assert (Hy : y ∈ [a; b]) by (apply Hl; set_solver).
    inversion_clear Hnd as [|?? Hxy _]. set_unfold in Hx. set_unfold in Hy.
    destruct Hx as [->|[->|[]]], Hy as [->|[->|[]]]; set_solver.
Qed.

Lemma ex_collision_free : collision_free [(1, 2); (0, 3)].
Proof.
  intros l1 l2 H1 H2 Hn1 Hn2 Hfp e1 He1.
  destruct (ex_sublists (1, 2) (0, 3) l1) as [->|[->|[->|[->| ->]]]]; [done..| | | | |];
  destruct (ex_sublists (1, 2) (0, 3) l2) as [->|[->|[->|[->| ->]]]]; try done;
  try (vm_compute in Hfp; discriminate); exists e1; (split; [set_solver|apply covers_refl]).
Qed.

Lemma ex_irredundant e : irredundant (ex_of [e]).
Proof.
  intros k1 e1 k2 e2 H1 H2 _. unfold ex_of in *. simpl in *.
  apply lookup_insert_Some in H1 as [[<- _]|[_ ?]]; [|done].
  by apply lookup_insert_Some in H2 as [[<- _]|[_ ?]].
Qed.


Definition ex_large : gmap N (N * N) := ex_of ((λ i, (N.of_nat i, 1)) <$> seq 0 2049).

Lemma large_store_exceeds_limit_witness :
  ∃ n, session 2 ex_peer ex_peer (ex_of []) ex_large =
    LimitExceeded (mkLimitError "sync message entries" n 2048).
Proof.
  apply (large_store_exceeds_limit ex_peer ex_peer (ex_of []) ex_large 2 (ex_of_ok _) (ex_of_ok _)).
  - reflexivity.
  - vm_compute. reflexivity.
  - vm_compute. discriminate.
  - lia.
Defined.
