(* ===== verification/Records.v ===== *)
(** * Entries of a document (protocols/krikos-docs/src/sync.rs)

    Record identifiers, records, entries and their signatures, with the byte
    representations that are hashed and signed, and the orders that decide which
    record is newer. A signed entry is an entry of the reconciliation protocol. *)
From stdpp Require Import base tactics list gmap orders countable.
From Stdlib Require Import ZArith Lia Strings.Byte.
From S2P Require Import Prelude Bytes Ranger.

Definition NamespaceId : Type := list byte.
Definition AuthorId : Type := list byte.
Definition Hash : Type := list byte.
Definition Signature : Type := list byte.

(** [Hash::EMPTY] (krikos-blobs, hash.rs). *)
Definition Hash_EMPTY : Hash :=
  [xaf; x13; x49; xb9; xf5; xf9; xa1; xa6; xa0; x40; x4d; xea; x36; xdc; xc9; x49; x9b; xcb; x25;
   xc9; xad; xc1; x12; xb7; xcc; x9a; x93; xca; xe4; x1f; x32; x62].

(** ** Identifiers

    The bytes of the namespace, of the author and of the key in a row. An
    identifier that a peer sent may have any length, and slicing one that is too
    short panics: [None]. *)

Definition RecordIdentifier : Type := list byte.

#[global] Instance RecordIdentifier_EqDecision : EqDecision RecordIdentifier := _.
#[global] Instance RecordIdentifier_Countable : Countable RecordIdentifier := _.

Definition id_new (namespace author key : list byte) : RecordIdentifier :=
  namespace ++ author ++ key.

Definition id_default : RecordIdentifier :=
  id_new (replicate 32 x00) (replicate 32 x00) [].

(** [&bytes[a..b]]. *)
Definition slice (a b : nat) (l : list byte) : option (list byte) :=
  if bool_decide (b ≤ length l) then Some (take (b - a) (drop a l)) else None.

(** [&bytes[a..]]. *)
Definition slice_from (a : nat) (l : list byte) : option (list byte) :=
  if bool_decide (a ≤ length l) then Some (drop a l) else None.

Definition id_namespace (id : RecordIdentifier) : option NamespaceId := slice 0 32 id.
Definition id_author (id : RecordIdentifier) : option AuthorId := slice 32 64 id.
Definition id_key (id : RecordIdentifier) : option (list byte) := slice_from 64 id.

Definition to_byte_tuple (id : RecordIdentifier)
    : option (NamespaceId * AuthorId * list byte) :=
  namespace ← id_namespace id;
  author ← id_author id;
  key ← id_key id;
  Some (namespace, author, key).

(** ** Records *)

Record DocRecord : Type := mkDocRecord {
  r_len : N;
  r_hash : Hash;
  r_timestamp : N;
}.

Definition record_new (hash : Hash) (len timestamp : N) : DocRecord :=
  {| r_len := len; r_hash := hash; r_timestamp := timestamp |}.

(** A tombstone. *)
Definition record_empty (timestamp : N) : DocRecord := record_new Hash_EMPTY 0 timestamp.

Definition record_is_empty (r : DocRecord) : bool := bool_decide (r_hash r = Hash_EMPTY).

(** By timestamp, then by hash; the length does not take part. *)
Definition record_le (r1 r2 : DocRecord) : Prop :=
  (r_timestamp r1 < r_timestamp r2)%N ∨
  (r_timestamp r1 = r_timestamp r2 ∧ bytes_le (r_hash r1) (r_hash r2)).

#[global] Instance record_le_dec : RelDecision record_le.
Proof. intros r1 r2. unfold record_le. apply _. Defined.

#[global] Instance record_le_PreOrder : PreOrder record_le.
Proof.
  split.
  - intros r. right. by split.
  - intros r1 r2 r3 [?|[Ht ?]] [?|[Ht' ?]]; unfold record_le; [left; lia..|].
    right. split; [congruence|]. by etrans.
Qed.

#[global] Instance record_le_Total : Total record_le.
Proof.
  intros r1 r2. unfold record_le.
  destruct (N.lt_trichotomy (r_timestamp r1) (r_timestamp r2)) as [?|[?|?]]; [auto| |auto].
  destruct (total bytes_le (r_hash r1) (r_hash r2)); auto.
Qed.

Definition record_encode (r : DocRecord) : list byte :=
  be_bytes 8 (r_len r) ++ r_hash r ++ be_bytes 8 (r_timestamp r).

(** ** Entries *)

Record Entry : Type := mkEntry {
  e_id : RecordIdentifier;
  e_record : DocRecord;
}.

Record EntrySignature : Type := mkEntrySignature {
  author_signature : Signature;
  namespace_signature : Signature;
}.

Record SignedEntry : Type := mkSignedEntry {
  se_signature : EntrySignature;
  se_entry : Entry;
}.

Definition entry_new_empty (id : RecordIdentifier) (now : N) : Entry :=
  mkEntry id (record_empty now).

(** The bytes that are signed. *)
Definition entry_to_vec (e : Entry) : list byte := e_id e ++ record_encode (e_record e).

Definition se_id (e : SignedEntry) : RecordIdentifier := e_id (se_entry e).
Definition se_record (e : SignedEntry) : DocRecord := e_record (se_entry e).

Inductive ValidationFailure : Type :=
| InvalidNamespace
| BadSignature
| TooFarInTheFuture
| InvalidEmptyEntry.

Definition validate_empty (e : Entry) : result ValidationFailure () :=
  match bool_decide (r_hash (e_record e) = Hash_EMPTY), (r_len (e_record e) =? 0)%N with
  | true, true => Ok ()
  | false, false => Ok ()
  | true, false => Err InvalidEmptyEntry
  | false, true => Err InvalidEmptyEntry
  end.

(** The fingerprint of an entry: the hash of namespace, author, key, timestamp and
    content hash. The first three are the bytes of its identifier. *)
Definition se_fingerprint `{Blake3Hash} (e : SignedEntry) : Fingerprint :=
  blake3 (se_id e ++ be_bytes 8 (r_timestamp (se_record e)) ++ r_hash (se_record e)).

#[global] Instance SignedEntry_RangeEntry `{Blake3Hash} :
    RangeEntry SignedEntry RecordIdentifier DocRecord := {|
  re_key := se_id;
  re_value := se_record;
  as_fingerprint := se_fingerprint;
  key_le := bytes_le;
  key_prefix := prefix;
  value_le := record_le;
|}.

(** ** Facts *)

Lemma id_new_tuple ns a k :
  length ns = 32 → length a = 32 → to_byte_tuple (id_new ns a k) = Some (ns, a, k).
Proof.
  intros Hn Ha. unfold to_byte_tuple, id_namespace, id_author, id_key, slice, slice_from, id_new.
  rewrite !length_app, Hn, Ha. rewrite !bool_decide_eq_true_2 by lia. simpl.
  assert (H1 : take 32 (ns ++ a ++ k) = ns) by (by rewrite <-Hn, take_app_length).
  assert (H2 : drop 32 (ns ++ a ++ k) = a ++ k) by (by rewrite <-Hn, drop_app_length).
  assert (H3 : drop 64 (ns ++ a ++ k) = k).
  { change 64 with (32 + 32). rewrite <-drop_drop, H2, <-Ha. apply drop_app_length. }
  rewrite drop_0, H1, H2, H3. by rewrite <-Ha, take_app_length.
Qed.

Lemma to_byte_tuple_Some id :
  64 ≤ length id → ∃ ns a k, to_byte_tuple id = Some (ns, a, k) ∧ id = id_new ns a k ∧
    length ns = 32 ∧ length a = 32.
Proof.
  intros Hlen. exists (take 32 id), (take 32 (drop 32 id)), (drop 64 id).
  assert (Hid : id = id_new (take 32 id) (take 32 (drop 32 id)) (drop 64 id)).
  { unfold id_new. change 64 with (32 + 32). by rewrite <-drop_drop, !take_drop. }
  assert (Hn : length (take 32 id) = 32) by (rewrite length_take; lia).
  assert (Ha : length (take 32 (drop 32 id)) = 32) by (rewrite length_take, length_drop; lia).
  split; [|by repeat split]. rewrite Hid at 1. by apply id_new_tuple.
Qed.

Lemma to_byte_tuple_None id : length id < 64 → to_byte_tuple id = None.
Proof.
  intros Hlen. unfold to_byte_tuple, id_namespace, id_author, slice.
  destruct (bool_decide (32 ≤ length id)); [|done]. simpl. by rewrite bool_decide_eq_false_2 by lia.
Qed.

Lemma id_new_inj ns a k ns' a' k' :
  length ns = length ns' → length a = length a' → id_new ns a k = id_new ns' a' k' →
  ns = ns' ∧ a = a' ∧ k = k'.
Proof. intros Hn Ha [-> [-> ->]%app_inj_1]%app_inj_1; done. Qed.

(** The bytes that are signed determine the entry. *)
Lemma entry_to_vec_inj e1 e2 :
  length (r_hash (e_record e1)) = 32 → length (r_hash (e_record e2)) = 32 →
  (r_len (e_record e1) < 2 ^ 64)%N → (r_len (e_record e2) < 2 ^ 64)%N →
  (r_timestamp (e_record e1) < 2 ^ 64)%N → (r_timestamp (e_record e2) < 2 ^ 64)%N →
  entry_to_vec e1 = entry_to_vec e2 → e1 = e2.
Proof.
  destruct e1 as [id1 [l1 h1 t1]], e2 as [id2 [l2 h2 t2]]. unfold entry_to_vec, record_encode.
  cbn [e_id e_record r_len r_hash r_timestamp].
  intros Hh1 Hh2 Hl1 Hl2 Ht1 Ht2 Heq.
  apply app_inj_2 in Heq as [-> Heq]; [|by rewrite !length_app, !be_bytes_length, Hh1, Hh2].
  apply app_inj_1 in Heq as [Hl Heq]; [|by rewrite !be_bytes_length].
  apply app_inj_1 in Heq as [-> Ht]; [|congruence].
  apply be_bytes_inj in Hl, Ht; [|done..]. by subst.
Qed.
