(* ===== verification/DocsBounds.v ===== *)
(** * Bounds on the tables of a document store
      (protocols/krikos-docs/src/store/fs/bounds.rs)

    All documents share one table of records, ordered by namespace, author and
    key. A query is a pair of bounds on it; the file models how the bounds of a
    namespace, of a key prefix and of a range that a peer sent are computed. *)
From stdpp Require Import base tactics list gmap orders.
From Stdlib Require Import ZArith Lia Strings.Byte.
From S2P Require Import Prelude Bytes Records.

Inductive Bound (A : Type) : Type :=
| Included (a : A)
| Excluded (a : A)
| Unbounded.
Arguments Included {A} _.
Arguments Excluded {A} _.
Arguments Unbounded {A}.

(** ** Keys of the tables *)

(** The key of the table of records: namespace, author, key. *)
Definition RecordsId : Type := NamespaceId * AuthorId * list byte.

Definition records_id_le : relation RecordsId := lex_le (lex_le bytes_le bytes_le) bytes_le.

#[global] Instance records_id_le_dec : RelDecision records_id_le := _.
#[global] Instance records_id_le_TotalOrder : TotalOrder records_id_le := _.

(** The key of the index by key: namespace, key, author. *)
Definition RecordsByKeyId : Type := NamespaceId * list byte * AuthorId.

Definition RecordsBounds : Type := Bound RecordsId * Bound RecordsId.
Definition ByKeyBounds : Type := Bound RecordsByKeyId * Bound RecordsByKeyId.

(** ** Increment *)

Definition byte_succ (b : byte) : byte := default x00 (Byte.of_N (Byte.to_N b + 1)).

(** The loop over the bytes, from the last one. *)
Fixpoint increment_loop (rev_value : list byte) : bool * list byte :=
  match rev_value with
  | [] => (false, [])
  | char :: rest =>
      if bool_decide (char = xff)
      then let '(done, rest) := increment_loop rest in (done, x00 :: rest)
      else (true, byte_succ char :: rest)
  end.

Definition increment_by_one (value : list byte) : bool * list byte :=
  let '(done, rev_value) := increment_loop (reverse value) in (done, reverse rev_value).

(** ** Bounds on the table of records *)

Inductive KeyFilter : Type :=
| AnyKey
| ExactKey (key : list byte)
| PrefixKey (prefix : list byte).

Definition zero32 : list byte := replicate 32 x00.

Definition author_key (ns : NamespaceId) (author : AuthorId) (key_matcher : KeyFilter)
    : RecordsBounds :=
  let key_is_exact := match key_matcher with ExactKey _ => true | _ => false end in
  let key := match key_matcher with
             | AnyKey => []
             | ExactKey key => key
             | PrefixKey prefix => prefix
             end in
  let start : RecordsId := (ns, author, key) in
  let end_ :=
    if (key_is_exact : bool) then Included start else
    let '(ok, key_end) := increment_by_one key in
    if (ok : bool) then Excluded (ns, author, key_end) else
    let '(ok, author_end) := increment_by_one author in
    if (ok : bool) then Excluded (ns, author_end, []) else
    let '(ok, ns_end) := increment_by_one ns in
    if (ok : bool) then Excluded (ns_end, zero32, []) else Unbounded in
  (Included start, end_).

Definition author_prefix (ns : NamespaceId) (author : AuthorId) (prefix : list byte)
    : RecordsBounds := author_key ns author (PrefixKey prefix).

Definition namespace_start (namespace : NamespaceId) : Bound RecordsId :=
  Included (namespace, zero32, []).

Definition namespace_end (namespace : NamespaceId) : Bound RecordsId :=
  let '(ok, ns_end) := increment_by_one namespace in
  if (ok : bool) then Excluded (ns_end, zero32, []) else Unbounded.

Definition namespace_bounds (ns : NamespaceId) : RecordsBounds :=
  (namespace_start ns, namespace_end ns).

Definition from_start (ns : NamespaceId) (end_ : Bound RecordsId) : RecordsBounds :=
  (namespace_start ns, end_).

Definition to_end (ns : NamespaceId) (start : Bound RecordsId) : RecordsBounds :=
  (start, namespace_end ns).

Definition id_max (a b : RecordsId) : RecordsId := if decide (records_id_le a b) then b else a.
Definition id_min (a b : RecordsId) : RecordsId := if decide (records_id_le a b) then a else b.
Definition id_ltb (a b : RecordsId) : bool := negb (bool_decide (records_id_le b a)).
Definition id_leb (a b : RecordsId) : bool := bool_decide (records_id_le a b).

Definition clamp_start (start ns_start : Bound RecordsId) : Bound RecordsId :=
  match start, ns_start with
  | Included remote, Included ns_start => Included (id_max remote ns_start)
  | Excluded remote, Included ns_start' =>
      if id_leb ns_start' remote then Excluded remote else ns_start
  | _, _ => ns_start
  end.

Definition clamp_end (end_ ns_end : Bound RecordsId) : Bound RecordsId :=
  match end_, ns_end with
  | Excluded remote, Excluded ns_end => Excluded (id_min remote ns_end)
  | Included remote, Excluded ns_end' =>
      if id_ltb remote ns_end' then Included remote else ns_end
  | Excluded remote, Unbounded => Excluded remote
  | Included remote, Unbounded => Included remote
  | _, _ => ns_end
  end.

Definition bounds_is_empty (start end_ : Bound RecordsId) : bool :=
  match start, end_ with
  | Included s, Excluded e
  | Excluded s, Excluded e
  | Excluded s, Included e => id_leb e s
  | Included s, Included e => id_ltb e s
  | _, _ => false
  end.

Definition clamp_to_namespace (ns : NamespaceId) (b : RecordsBounds) : RecordsBounds :=
  let '(start, end_) := b in
  let start := clamp_start start (namespace_start ns) in
  let end_ := clamp_end end_ (namespace_end ns) in
  if bounds_is_empty start end_ then
    let empty := (ns, zero32, []) in (Included empty, Excluded empty)
  else (start, end_).

(** ** Bounds on the index by key *)

Definition by_key_namespace (ns : NamespaceId) : ByKeyBounds :=
  let start := Included (ns, [], zero32) in
  let '(ok, ns_end) := increment_by_one ns in
  (start, if (ok : bool) then Excluded (ns_end, [], zero32) else Unbounded).

Definition by_key_new (ns : NamespaceId) (matcher : KeyFilter) : ByKeyBounds :=
  match matcher with
  | AnyKey => by_key_namespace ns
  | ExactKey key => (Included (ns, key, zero32), Included (ns, key, replicate 32 xff))
  | PrefixKey prefix =>
      let start := Included (ns, prefix, zero32) in
      let '(ok, key_end) := increment_by_one prefix in
      if (ok : bool) then (start, Excluded (ns, key_end, zero32)) else
      let '(ok, ns_end) := increment_by_one ns in
      (start, if (ok : bool) then Excluded (ns_end, [], zero32) else Unbounded)
  end.

(** * What the bounds select

    Which keys of the tables lie within the bounds that the store computes: the
    bounds of a namespace select exactly that namespace, clamping intersects with
    it, and the bounds of a prefix select the keys with the prefix, except when
    bytes 255 at its end are carried over. *)

(** ** Being within bounds *)

Section Bounds.
  Context {A : Type} (R : relation A) `{!RelDecision R, !TotalOrder R}.

Definition lower_ok (b : Bound A) (k : A) : Prop :=
  match b with Included s => R s k | Excluded s => ¬ R k s | Unbounded => True end.

Definition upper_ok (b : Bound A) (k : A) : Prop :=
  match b with Included e => R k e | Excluded e => ¬ R e k | Unbounded => True end.

Definition in_bounds (b : Bound A * Bound A) (k : A) : Prop :=
  lower_ok b.1 k ∧ upper_ok b.2 k.

#[global] Instance in_bounds_dec b k : Decision (in_bounds b k).
Proof. unfold in_bounds, lower_ok, upper_ok. destruct b as [[] []]; apply _. Defined.

(** Bounds that are not inverted; [BTreeMap::range] panics on others. *)
Definition bounds_valid (b : Bound A * Bound A) : Prop :=
  match b.1, b.2 with
  | Included s, Included e => R s e
  | Included s, Excluded e => R s e
  | Excluded s, Included e => R s e
  | Excluded s, Excluded e => ¬ R e s
  | _, _ => True
  end.

Lemma le_lt_trans a b c : R a b → ¬ R c b → ¬ R c a.
Proof. intros H1 H2 H3. apply H2. by etrans. Qed.

Lemma lt_le_trans a b c : ¬ R b a → R b c → ¬ R c a.
Proof. intros H1 H2 H3. apply H1. by etrans. Qed.

Lemma not_le_le a b : ¬ R a b → R b a.
Proof. intros Hn. by destruct (total R a b). Qed.

End Bounds.

(** ** Successors of bytes and byte strings *)

Lemma byte_succ_spec b : b ≠ xff → Byte.to_N (byte_succ b) = (Byte.to_N b + 1)%N.
Proof. intros Hb. destruct b; try done; by exfalso. Qed.

Lemma byte_le_ff b : (Byte.to_N b <= Byte.to_N xff)%N.
Proof. destruct b; vm_compute; discriminate. Qed.

(** The string of bytes 255 is the greatest of its length. *)
Lemma ff_greatest l : bytes_le l (replicate (length l) xff).
Proof.
  induction l as [|b l IH]; [done|]. apply bytes_le_cons. pose proof (byte_le_ff b).
  destruct (decide (b = xff)) as [->|Hne]; [by right|]. left.
  assert (Byte.to_N b ≠ Byte.to_N xff) by (by intros ?%to_N_inj). lia.
Qed.

(** The increment carries the bytes 255 at the end. *)
Lemma increment_carry p b n :
  b ≠ xff → increment_by_one (p ++ b :: replicate n xff) = (true, p ++ byte_succ b :: replicate n x00).
Proof.
  intros Hb. unfold increment_by_one.
  assert (Hloop : ∀ n q, increment_loop (replicate n xff ++ b :: q) =
    (true, replicate n x00 ++ byte_succ b :: q)).
  { clear n. induction n as [|n IH]; intros q; simpl.
    - by rewrite bool_decide_eq_false_2.
    - by rewrite IH. }
  rewrite reverse_app, reverse_cons, reverse_replicate, <-app_assoc. cbn [app]. rewrite Hloop. f_equal.
  rewrite reverse_app, reverse_cons, reverse_involutive, reverse_replicate. by rewrite <-app_assoc.
Qed.

Lemma increment_overflow n : increment_by_one (replicate n xff) = (false, replicate n x00).
Proof.
  unfold increment_by_one. rewrite reverse_replicate.
  assert (Hloop : increment_loop (replicate n xff) = (false, replicate n x00)).
  { induction n as [|n IH]; [done|]. simpl. by rewrite IH. }
  by rewrite Hloop, reverse_replicate.
Qed.

(** Every string has one of the two forms. *)
Lemma increment_cases l :
  (∃ p b n, b ≠ xff ∧ l = p ++ b :: replicate n xff) ∨ l = replicate (length l) xff.
Proof.
  induction l as [|c l IH]; [by right|]. destruct IH as [(p & b & n & Hb & ->)|Hl].
  - left. by exists (c :: p), b, n.
  - destruct (decide (c = xff)) as [->|Hc].
    + right. simpl. by rewrite <-Hl.
    + left. exists [], c, (length l). by rewrite <-Hl.
Qed.

(** Among the strings of the same length the increment is the successor. *)
Lemma increment_succ p b n k :
  b ≠ xff → length k = length (p ++ b :: replicate n xff) →
  ¬ bytes_le (p ++ byte_succ b :: replicate n x00) k ↔ bytes_le k (p ++ b :: replicate n xff).
Proof.
  intros Hb. revert k. induction p as [|c p IH]; intros [|d k] Hlen; simplify_eq/=.
  - rewrite !bytes_le_cons. pose proof (byte_succ_spec b Hb) as Hs.
    rewrite length_replicate in Hlen.
    assert (Hz : bytes_le (replicate n x00) k) by (rewrite <-Hlen; apply zeros_le).
    assert (Hf : bytes_le k (replicate n xff)) by (rewrite <-Hlen; apply ff_greatest).
    split.
    + intros Hn. destruct (decide (d = b)) as [->|Hne]; [by right|]. left.
      assert (Byte.to_N d ≠ Byte.to_N b) by (by intros ?%to_N_inj).
      assert (Byte.to_N d ≠ Byte.to_N (byte_succ b) ∧ ¬ (Byte.to_N (byte_succ b) < Byte.to_N d)%N); [|lia].
      split; [intros Heq%to_N_inj|intros Hlt]; apply Hn; auto.
    + intros Hle Hge.
      assert (Byte.to_N d <= Byte.to_N b)%N by (destruct Hle as [?|[-> _]]; lia).
      assert (Byte.to_N b + 1 <= Byte.to_N d)%N by (destruct Hge as [?|[<- _]]; lia). lia.
  - rewrite !bytes_le_cons. rewrite <-IH by done. clear IH. split.
    + intros Hn. destruct (decide (d = c)) as [->|Hne]; [right; split; [done|]; intros ?; apply Hn; auto|].
      left. assert (Byte.to_N d ≠ Byte.to_N c) by (by intros ?%to_N_inj).
      assert (¬ (Byte.to_N c < Byte.to_N d)%N) by auto. lia.
    + intros [?|[-> Hn]] [?|[? ?]]; subst; try lia. auto.
Qed.

Lemma below_zeros n k :
  ¬ bytes_le (replicate n x00) k ↔ ∃ j, j < n ∧ k = replicate j x00.
Proof.
  revert k. induction n as [|n IH]; intros k.
  { split; [intros Hn; by destruct Hn|]. intros (j & ? & _). lia. }
  destruct k as [|c k].
  { split; [|intros _; apply bytes_le_cons_nil]. intros _. exists 0. split; [lia|done]. }
  simpl. rewrite bytes_le_cons. split.
  - intros Hn. destruct (decide (c = x00)) as [->|Hc].
    + destruct (proj1 (IH k)) as (j & Hj & ->); [by auto|]. exists (S j). split; [lia|done].
    + destruct Hn. left. assert (Byte.to_N c ≠ 0%N) by (by intros ?%(to_N_inj c x00)).
      change (Byte.to_N x00) with 0%N. lia.
  - intros ([|j] & Hj & [= -> ->]) [?|[_ Hle]]; [lia|]. revert Hle. apply IH. exists j. split; [lia|done].
Qed.

Lemma above_ff n k : bytes_le (replicate n xff) k ↔ replicate n xff `prefix_of` k.
Proof.
  split; [|apply bytes_le_prefix]. revert k. induction n as [|n IH]; intros k; [intros _; apply prefix_nil|].
  destruct k as [|c k]; [by intros ?%bytes_le_cons_nil|]. simpl. rewrite bytes_le_cons.
  pose proof (byte_le_ff c). intros [?|[<- ?]]; [lia|]. by apply prefix_cons, IH.
Qed.

(** The keys between a prefix and its increment: those with the prefix, and, if
    bytes 255 were carried, the increment without some of its zeros. *)
Definition carry_extra (prefix k : list byte) : Prop :=
  ∃ p b n j, b ≠ xff ∧ prefix = p ++ b :: replicate n xff ∧ j < n ∧
    k = p ++ byte_succ b :: replicate j x00.

Lemma increment_between p b n k :
  b ≠ xff →
  bytes_le (p ++ b :: replicate n xff) k ∧ ¬ bytes_le (p ++ byte_succ b :: replicate n x00) k ↔
    (p ++ b :: replicate n xff) `prefix_of` k ∨ ∃ j, j < n ∧ k = p ++ byte_succ b :: replicate j x00.
Proof.
  intros Hb. pose proof (byte_succ_spec b Hb) as Hs. revert k. induction p as [|d p IH]; intros [|c k].
  - split; [by intros [?%bytes_le_cons_nil _]|]. by intros [?%prefix_nil_inv|(j & _ & ?)].
  - simpl. rewrite !bytes_le_cons. split.
    + intros [[Hlt|[<- Hle]] Hn].
      * right. assert (c = byte_succ b) as ->.
        { apply to_N_inj. assert (¬ (Byte.to_N (byte_succ b) < Byte.to_N c)%N) by auto. lia. }
        destruct (proj1 (below_zeros n k)) as (j & Hj & ->); [auto|]. by exists j.
      * left. by apply prefix_cons, above_ff.
    + intros [Hp|(j & Hj & [= -> ->])].
      * pose proof (prefix_cons_inv_1 _ _ _ _ Hp) as <-. apply prefix_cons_inv_2, above_ff in Hp.
        split; [by right|]. intros [?|[Heq _]]; [lia|]. rewrite Heq in Hs. lia.
      * split; [left; lia|]. intros [?|[_ Hle]]; [lia|]. revert Hle. apply below_zeros. eauto.
  - split; [by intros [?%bytes_le_cons_nil _]|]. by intros [?%prefix_nil_inv|(j & _ & ?)].
  - simpl. rewrite !bytes_le_cons. split.
    + intros [[Hlt|[<- Hle]] Hn]; [exfalso; auto|].
      destruct (proj1 (IH k)) as [Hp|(j & Hj & ->)]; [|left; by apply prefix_cons|right; by exists j].
      split; [done|]. intros ?. apply Hn. auto.
    + intros [Hp|(j & Hj & [= -> ->])].
      * pose proof (prefix_cons_inv_1 _ _ _ _ Hp) as <-. apply prefix_cons_inv_2 in Hp.
        destruct (proj2 (IH k)) as [??]; [by left|]. split; [by right|]. intros [?|[_ ?]]; [lia|done].
      * destruct (proj2 (IH (p ++ byte_succ b :: replicate j x00))) as [??]; [by eauto|].
        split; [by right|]. intros [?|[_ ?]]; [lia|done].
Qed.

(** ** Bounds of a namespace *)

(** A key of the table of records. *)
Definition id_wf (t : RecordsId) : Prop := length t.1.1 = 32 ∧ length t.1.2 = 32.

Lemma id_le_unfold n1 a1 k1 n2 a2 k2 :
  records_id_le (n1, a1, k1) (n2, a2, k2) ↔
    (bytes_le n1 n2 ∧ n1 ≠ n2) ∨
    (n1 = n2 ∧ ((bytes_le a1 a2 ∧ a1 ≠ a2) ∨ (a1 = a2 ∧ bytes_le k1 k2))).
Proof.
  unfold records_id_le, lex_le. simpl. split.
  - intros [[[?|[-> ?]] Hne]|[[= -> ->] ?]]; auto. right. split; [done|]. left. split; [done|]. congruence.
  - intros [[? Hne]|[-> [[? Hne]|[-> ?]]]]; [left; split; [by left|congruence]|left; split; [by right|congruence]|by right].
Qed.

Lemma zero32_le a : length a = 32 → bytes_le zero32 a.
Proof. intros Ha. unfold zero32. rewrite <-Ha. apply zeros_le. Qed.

Lemma ns_start_le ns t : id_wf t → records_id_le (ns, zero32, []) t ↔ bytes_le ns t.1.1.
Proof.
  destruct t as [[n a] k]. intros [Hn Ha]. simpl in *. rewrite id_le_unfold. split.
  - by intros [[? _]|[-> _]].
  - intros Hle. destruct (decide (ns = n)) as [->|]; [right|by left]. split; [done|].
    pose proof (zero32_le a Ha). destruct (decide (zero32 = a)); [by right|by left].
Qed.

Lemma namespace_end_spec ns t :
  length ns = 32 → id_wf t → upper_ok records_id_le (namespace_end ns) t ↔ bytes_le t.1.1 ns.
Proof.
  intros Hns Ht. pose proof Ht as [Hn _]. unfold namespace_end.
  destruct (increment_cases ns) as [(p & b & n & Hb & Heq)|Heq].
  - rewrite Heq, increment_carry by done. simpl. rewrite ns_start_le by done.
    apply increment_succ; [done|]. by rewrite <-Heq, Hns.
  - rewrite Heq, increment_overflow. simpl. split; [|done]. intros _.
    rewrite Hns, <-Hn. apply ff_greatest.
Qed.

Lemma namespace_bounds_spec ns t :
  length ns = 32 → id_wf t → in_bounds records_id_le (namespace_bounds ns) t ↔ t.1.1 = ns.
Proof.
  intros Hns Ht. unfold in_bounds, namespace_bounds. simpl.
  rewrite namespace_end_spec, ns_start_le by done. split; [|by intros ->].
  intros [??]. by apply (anti_symm bytes_le).
Qed.

(** ** Clamping *)

Lemma id_leb_spec a b : id_leb a b = true ↔ records_id_le a b.
Proof. unfold id_leb. by rewrite bool_decide_eq_true. Qed.

Lemma id_ltb_spec a b : id_ltb a b = true ↔ ¬ records_id_le b a.
Proof. unfold id_ltb. by rewrite negb_true_iff, bool_decide_eq_false. Qed.

Lemma clamp_start_spec start s t :
  lower_ok records_id_le (clamp_start start (Included s)) t ↔
    lower_ok records_id_le start t ∧ lower_ok records_id_le (Included s) t.
Proof.
  destruct start as [r|r|]; simpl; [..|tauto].
  - unfold id_max. case_decide as Hle.
    + split; [|tauto]. intros Hs. split; [by etrans|done].
    + apply (not_le_le records_id_le) in Hle. split; [|tauto]. intros Hr. split; [done|by etrans].
  - destruct (id_leb s r) eqn:Hle; [apply id_leb_spec in Hle|apply not_true_iff_false in Hle; rewrite id_leb_spec in Hle];
      simpl.
    + split; [|tauto]. intros Hr. split; [done|]. etrans; [done|]. by apply (not_le_le records_id_le).
    + split; [|tauto]. intros Hs. split; [|done]. intros Htr. apply Hle. by etrans.
Qed.

Lemma clamp_end_spec end_ e t :
  e = Unbounded ∨ (∃ x, e = Excluded x) →
  upper_ok records_id_le (clamp_end end_ e) t ↔
    upper_ok records_id_le end_ t ∧ upper_ok records_id_le e t.
Proof.
  intros [->|[x ->]]; destruct end_ as [r|r|]; simpl; try tauto.
  - destruct (id_ltb r x) eqn:Hlt; [apply id_ltb_spec in Hlt|apply not_true_iff_false in Hlt; rewrite id_ltb_spec in Hlt];
      simpl.
    + split; [|tauto]. intros Hr. split; [done|]. intros Hx. apply Hlt. by etrans.
    + apply dec_stable in Hlt. split; [|tauto]. intros Hx. split; [|done].
      etrans; [by apply (not_le_le records_id_le)|done].
  - unfold id_min. case_decide as Hle.
    + split; [|tauto]. intros Hr. split; [done|]. intros Hx. apply Hr. by etrans.
    + apply (not_le_le records_id_le) in Hle. split; [|tauto]. intros Hx. split; [|done].
      intros Hr. apply Hx. by etrans.
Qed.

Lemma namespace_end_shape ns : namespace_end ns = Unbounded ∨ ∃ x, namespace_end ns = Excluded x.
Proof. unfold namespace_end. destruct (increment_by_one ns) as [[] ?]; eauto. Qed.

Lemma bounds_is_empty_spec start end_ t :
  bounds_is_empty start end_ = true → ¬ in_bounds records_id_le (start, end_) t.
Proof.
  unfold in_bounds. destruct start as [s|s|], end_ as [e|e|]; simpl; try done;
    rewrite ?id_leb_spec, ?id_ltb_spec; intros He [H1 H2].
  - apply He. by etrans.
  - apply H2. by etrans.
  - apply H1. by etrans.
  - apply H1. etrans; [|done]. by apply (not_le_le records_id_le).
Qed.

Lemma clamp_spec ns b t :
  length ns = 32 → id_wf t →
  in_bounds records_id_le (clamp_to_namespace ns b) t ↔
    in_bounds records_id_le b t ∧ t.1.1 = ns.
Proof.
  intros Hns Ht. rewrite <-(namespace_bounds_spec ns t) by done. destruct b as [start end_].
  unfold clamp_to_namespace. destruct (bounds_is_empty _ _) eqn:Hempty.
  - apply (bounds_is_empty_spec _ _ t) in Hempty. split.
    + intros [H1 H2]. by destruct (H2 H1).
    + intros [[H1 H2] [H3 H4]]. destruct Hempty. split; simpl in *.
      * by apply clamp_start_spec.
      * apply clamp_end_spec; [apply namespace_end_shape|done].
  - unfold in_bounds. cbn [fst snd namespace_bounds].
    rewrite clamp_end_spec by apply namespace_end_shape. unfold namespace_start.
    rewrite clamp_start_spec. tauto.
Qed.

(** Clamped bounds are never inverted. *)
Lemma clamp_valid ns b : bounds_valid records_id_le (clamp_to_namespace ns b).
Proof.
  destruct b as [start end_]. unfold clamp_to_namespace.
  destruct (bounds_is_empty _ _) eqn:Hempty; [unfold bounds_valid; simpl; reflexivity|].
  revert Hempty. generalize (clamp_start start (namespace_start ns)).
  generalize (clamp_end end_ (namespace_end ns)). intros e s.
  destruct s as [s|s|], e as [e|e|]; simpl; try done;
    intros Hempty%not_true_iff_false; revert Hempty; rewrite ?id_leb_spec, ?id_ltb_spec; intros Hn.
  - by apply dec_stable in Hn.
  - by apply (not_le_le records_id_le).
  - by apply (not_le_le records_id_le).
  - done.
Qed.

Lemma namespace_bounds_valid ns :
  length ns = 32 → bounds_valid records_id_le (namespace_bounds ns).
Proof.
  intros Hns. unfold namespace_bounds.
  assert (Hle : upper_ok records_id_le (namespace_end ns) (ns, zero32, [])).
  { by apply namespace_end_spec. }
  destruct (namespace_end_shape ns) as [->|[x Hx]]; [done|]. rewrite Hx in *. simpl in *.
  by apply (not_le_le records_id_le).
Qed.

(** ** Bounds of a key prefix *)

Lemma ff_suffix_unique n b q n' b' q' :
  b ≠ xff → b' ≠ xff → replicate n xff ++ b :: q = replicate n' xff ++ b' :: q' →
  n = n' ∧ b = b' ∧ q = q'.
Proof.
  intros Hb Hb'. revert n'. induction n as [|n IH]; intros [|n']; simpl; intros Heq; simplify_eq/=; try done.
  destruct (IH n') as (-> & -> & ->); done.
Qed.

Lemma carry_unique p b n p' b' n' :
  b ≠ xff → b' ≠ xff → p ++ b :: replicate n xff = p' ++ b' :: replicate n' xff →
  p = p' ∧ b = b' ∧ n = n'.
Proof.
  intros Hb Hb' Heq%(f_equal reverse).
  rewrite !reverse_app, !reverse_cons, !reverse_replicate, <-!app_assoc in Heq. simpl in Heq.
  apply ff_suffix_unique in Heq as (-> & -> & Hp%(f_equal reverse)); [|done..].
  by rewrite !reverse_involutive in Hp.
Qed.

Lemma carry_extra_iff p b n k :
  b ≠ xff → carry_extra (p ++ b :: replicate n xff) k ↔
    ∃ j, j < n ∧ k = p ++ byte_succ b :: replicate j x00.
Proof.
  intros Hb. split.
  - intros (p' & b' & n' & j & Hb' & Heq & Hj & ->).
    apply carry_unique in Heq as (-> & -> & ->); [|done..]. eauto.
  - intros (j & Hj & ->). exists p, b, n, j. done.
Qed.

Lemma carry_extra_ff n k : ¬ carry_extra (replicate n xff) k.
Proof.
  intros (p & b & m & j & Hb & Heq & _). apply Hb.
  assert (Hin : b ∈ replicate n xff) by (rewrite Heq; set_solver).
  by apply elem_of_replicate in Hin as [-> _].
Qed.

Lemma same_author_bounds ns a l l' t :
  in_bounds records_id_le (Included (ns, a, l), Excluded (ns, a, l')) t ↔
    t.1 = (ns, a) ∧ bytes_le l t.2 ∧ ¬ bytes_le l' t.2.
Proof.
  destruct t as [[n c] k]. unfold in_bounds. simpl. rewrite !id_le_unfold. split.
  - intros [[[? Hne]|[-> [[? Hne]|[-> ?]]]] Hn].
    + destruct Hn. by left.
    + destruct Hn. right. split; [done|]. by left.
    + split; [done|]. split; [done|]. intros ?. apply Hn. by right; split; [|right].
  - intros ([= -> ->] & Hl & Hn). split; [by right; split; [|right]|].
    by intros [[_ ?]|[_ [[_ ?]|[_ ?]]]].
Qed.

(** Lower bound [(ns, a, l)] and an upper bound that admits exactly the authors up
    to [a] of the namespaces up to [ns]. *)
Lemma ff_bounds ns a n hi t :
  (∀ t : RecordsId, id_wf t → upper_ok records_id_le hi t ↔
     (bytes_le t.1.1 ns ∧ t.1.1 ≠ ns) ∨ (t.1.1 = ns ∧ bytes_le t.1.2 a)) →
  id_wf t →
  in_bounds records_id_le (Included (ns, a, replicate n xff), hi) t ↔
    t.1 = (ns, a) ∧ replicate n xff `prefix_of` t.2.
Proof.
  intros Hhi Ht. unfold in_bounds. cbn [fst snd]. rewrite Hhi by done.
  destruct t as [[m c] k]. cbn [fst snd lower_ok]. rewrite id_le_unfold, <-above_ff. split.
  - intros [H1 H2].
    assert (ns = m) as <-.
    { destruct H1 as [[H1 N1]|[-> _]]; [|done]. destruct H2 as [[H2 N2]|[-> _]]; [|done].
      by apply (anti_symm bytes_le). }
    destruct H1 as [[_ ?]|[_ H1]]; [done|]. destruct H2 as [[_ ?]|[_ H2]]; [done|].
    destruct H1 as [[H1 N1]|[-> H1]]; [|done]. destruct N1. by apply (anti_symm bytes_le).
  - intros [[= -> ->] Hp]. split; right; (split; [done|]); [by right|done].
Qed.

Lemma author_prefix_spec ns a prefix t :
  length ns = 32 → length a = 32 → id_wf t →
  in_bounds records_id_le (author_prefix ns a prefix) t ↔
    t.1 = (ns, a) ∧ (prefix `prefix_of` t.2 ∨ carry_extra prefix t.2).
Proof.
  intros Hns Ha Ht. unfold author_prefix, author_key.
  destruct (increment_cases prefix) as [(p & b & n & Hb & ->)| ->].
  { rewrite increment_carry by done. rewrite same_author_bounds, increment_between, carry_extra_iff by done.
    done. }
  rewrite increment_overflow. generalize (length prefix). clear prefix. intros m.
  assert (Hno : ∀ k, (replicate m xff `prefix_of` k ∨ carry_extra (replicate m xff) k) ↔
    replicate m xff `prefix_of` k).
  { intros k. pose proof (carry_extra_ff m k). tauto. }
  rewrite Hno. destruct (increment_cases a) as [(p & b & n & Hb & Hea)|Hea].
  - rewrite Hea at 2. rewrite increment_carry by done. apply ff_bounds; [|done].
    intros [[n' c] k] [Hn' Hc]. cbn [fst snd upper_ok] in *. rewrite id_le_unfold.
    rewrite Hea. rewrite <-increment_succ by (rewrite <-?Hea; congruence).
    set (a' := p ++ _). split.
    + intros Hn. destruct (decide (n' = ns)) as [->|Hne].
      * right. split; [done|]. intros Hle. apply Hn. right. split; [done|].
        destruct (decide (a' = c)); [by right|by left].
      * left. split; [|done]. apply bytes_lt_trichotomy. intros Hle. apply Hn. left. auto.
    + intros [[Hle Hne]|[E1 Hn]] [[Hle' Hne']|[E2 Hcase]]; [|congruence..|].
      * by apply Hne, (anti_symm bytes_le).
      * apply Hn. by destruct Hcase as [[? _]|[-> _]].
  - rewrite Hea at 2. rewrite increment_overflow. fold (namespace_end ns). apply ff_bounds; [|done].
    intros t' Ht'. rewrite namespace_end_spec by done. pose proof Ht' as [_ Hc].
    assert (Hle : bytes_le t'.1.2 a) by (rewrite Hea, Ha, <-Hc; apply ff_greatest).
    split; [|by intros [[? _]|[-> _]]]. intros ?.
    destruct (decide (t'.1.1 = ns)); [by right|by left].
Qed.

(** The bounds of a prefix are not inverted. *)
Lemma author_prefix_valid ns a prefix :
  length ns = 32 → length a = 32 → bounds_valid records_id_le (author_prefix ns a prefix).
Proof.
  intros Hns Ha. assert (Hin : in_bounds records_id_le (author_prefix ns a prefix) (ns, a, prefix)).
  { apply author_prefix_spec; [done..|]. split; [done|]. by left. }
  destruct Hin as [_ Hup]. revert Hup. unfold author_prefix, author_key.
  destruct (increment_by_one prefix) as [[] ?], (increment_by_one a) as [[] ?],
    (increment_by_one ns) as [[] ?]; simpl; intros Hup; try done; by apply (not_le_le records_id_le).
Qed.
