(* ===== verification/DocsStore.v ===== *)
(** * The document store on a database (protocols/krikos-docs/src/store/fs.rs)

    [StoreInstance] implements the trait [Store] of the reconciliation protocol
    for one namespace, on tables that all namespaces share. The database is a
    class of table operations, each of which may fail; its contract is
    [TableLaws]. Opening and committing transactions is not modelled: the tables
    are those of the current transaction. *)
From stdpp Require Import base tactics list gmap orders sorting.
From Stdlib Require Import ZArith Lia Strings.Byte.
From S2P Require Import Prelude Bytes Ranger Records DocsBounds.

(** ** Tables of the database *)

(** The operations of a table of [redb] that the store uses. *)
Class Table (T DbErr K V : Type) : Type := {
  t_get : K → T → result DbErr (option V);
  t_insert : K → V → T → result DbErr T;
  t_range : Bound K * Bound K → T → result DbErr (list (result DbErr (K * V)));
  (** [extract_from_if], run to the end: the extracted items and the table without
      them. *)
  t_extract : Bound K * Bound K → (K → V → bool) → T → result DbErr (list (result DbErr (K * V)) * T);
}.

(** The value of the table of records: timestamp, the two signatures, length and
    hash. *)
Record RecordsValue : Type := mkRecordsValue {
  rv_timestamp : N;
  rv_namespace_sig : Signature;
  rv_author_sig : Signature;
  rv_len : N;
  rv_hash : Hash;
}.

(** The key and the value of the table of the latest entries per author. *)
Definition LatestPerAuthorKey : Type := NamespaceId * AuthorId.
Definition LatestPerAuthorValue : Type := N * list byte.

(** The tables that the operations on entries touch. *)
Record Tables (TR TK TL : Type) : Type := mkTables {
  records : TR;
  records_by_key : TK;
  latest_per_author : TL;
}.
Arguments mkTables {TR TK TL} _ _ _.
Arguments records {TR TK TL} _.
Arguments records_by_key {TR TK TL} _.
Arguments latest_per_author {TR TK TL} _.

Record StoreInstance (TR TK TL : Type) : Type := mkStoreInstance {
  si_namespace : NamespaceId;
  si_tables : Tables TR TK TL;
}.
Arguments mkStoreInstance {TR TK TL} _ _.
Arguments si_namespace {TR TK TL} _.
Arguments si_tables {TR TK TL} _.

Definition into_entry (key : RecordsId) (value : RecordsValue) : SignedEntry :=
  let '(namespace, author, key) := key in
  let id := id_new namespace author key in
  let record := record_new (rv_hash value) (rv_len value) (rv_timestamp value) in
  mkSignedEntry (mkEntrySignature (rv_author_sig value) (rv_namespace_sig value)) (mkEntry id record).

Section Store.
  Context {TR TK TL DbErr : Type} `{HB : Blake3Hash}
    `{HTR : !Table TR DbErr RecordsId RecordsValue}
    `{HTK : !Table TK DbErr RecordsByKeyId ()}
    `{HTL : !Table TL DbErr LatestPerAuthorKey LatestPerAuthorValue}.

Local Notation SI := (StoreInstance TR TK TL).
Local Notation SM A := (M SI (SignedEntry * ContentStatus) (result DbErr A)).

(** [unwrap] of a slice. *)
Definition unwrap {A B} (o : option A) (f : A → SM B) : SM B :=
  match o with Some a => f a | None => panic end.

Local Notation TM A := (M (Tables TR TK TL) (SignedEntry * ContentStatus) (result DbErr A)).

(** [self.store.as_mut().modify(..)]: what the closure did before an error stays
    in the current transaction. *)
Definition modify_tables {A} (f : TM A) : SM A :=
  lift_m si_tables (λ t s, mkStoreInstance (si_namespace s) t) (λ e, e) f.

(** A table operation that writes to one of the tables. *)
Definition write_table {A F} (get : Tables TR TK TL → F) (set : F → Tables TR TK TL → Tables TR TK TL)
    (op : F → result DbErr (A * F)) : TM A :=
  λ t, match op (get t) with
       | Ok (a, x) => Done (Ok a) (set x t) []
       | Err e => Done (Err e) t []
       end.

Definition insert_into {F K V} `{!Table F DbErr K V} (k : K) (v : V) (x : F) : result DbErr (() * F) :=
  match t_insert k v x with Ok x => Ok ((), x) | Err e => Err e end.

Definition set_records (x : TR) (t : Tables TR TK TL) : Tables TR TK TL :=
  mkTables x (records_by_key t) (latest_per_author t).
Definition set_records_by_key (x : TK) (t : Tables TR TK TL) : Tables TR TK TL :=
  mkTables (records t) x (latest_per_author t).
Definition set_latest_per_author (x : TL) (t : Tables TR TK TL) : Tables TR TK TL :=
  mkTables (records t) (records_by_key t) x.

(** [RecordsRange::with_bounds]. *)
Definition with_bounds (bounds : RecordsBounds) (t : TR) : result DbErr (list (result DbErr SignedEntry)) :=
  items ← t_range (DbErr:=DbErr) bounds t;
  Ok ((λ item : result DbErr (RecordsId * RecordsValue),
         match item with
         | Ok (k, v) => Ok (into_entry k v)
         | Err e => Err e
         end) <$> (items : list _)).

Definition fs_get_first : SM RecordIdentifier :=
  s ← gets id;
  match t_range (namespace_bounds (si_namespace s)) (records (si_tables s)) with
  | Err e => mret (Err e)
  | Ok [] => mret (Ok id_default)
  | Ok (Err e :: _) => mret (Err e)
  | Ok (Ok (namespace_id, author_id, key, _) :: _) => mret (Ok (id_new namespace_id author_id key))
  end.

Definition fs_get_range (range : Range RecordIdentifier) : SM (list (result DbErr SignedEntry)) :=
  s ← gets id;
  let ns := si_namespace s in
  let table := records (si_tables s) in
  if bool_decide (rx range = ry range) then
    mret (with_bounds (namespace_bounds ns) table)
  else if bool_decide (bytes_le (rx range) (ry range)) then
    unwrap (to_byte_tuple (rx range)) (λ start,
    unwrap (to_byte_tuple (ry range)) (λ end_,
    mret (with_bounds (clamp_to_namespace ns (Included start, Excluded end_)) table)))
  else
    unwrap (to_byte_tuple (ry range)) (λ end_,
    iter ←? mret (with_bounds (clamp_to_namespace ns (from_start ns (Excluded end_))) table);
    unwrap (to_byte_tuple (rx range)) (λ start,
    iter2 ←? mret (with_bounds (clamp_to_namespace ns (to_end ns (Included start))) table);
    mret (Ok (iter ++ iter2)))).

(** The loop over the elements of a range, up to the first error. *)
Fixpoint fingerprint_loop (fp : Fingerprint) (elements : list (result DbErr SignedEntry))
    : result DbErr Fingerprint :=
  match elements with
  | [] => Ok fp
  | Ok el :: elements => fingerprint_loop (bitxor_assign fp (as_fingerprint el)) elements
  | Err e :: _ => Err e
  end.

Definition fs_get_fingerprint (range : Range RecordIdentifier) : SM Fingerprint :=
  elements ←? fs_get_range range;
  mret (fingerprint_loop fp_empty elements).

Definition fs_entry_put (e : SignedEntry) : SM () :=
  let id := se_id e in
  unwrap (id_namespace id) (λ namespace,
  unwrap (id_author id) (λ author,
  unwrap (id_key id) (λ key,
  let record := se_record e in
  let value := mkRecordsValue (r_timestamp record) (namespace_signature (se_signature e))
    (author_signature (se_signature e)) (r_len record) (r_hash record) in
  modify_tables (
    _ ←? write_table records set_records (insert_into (namespace, author, key) value);
    _ ←? write_table records_by_key set_records_by_key (insert_into (namespace, key, author) ());
    _ ←? write_table latest_per_author set_latest_per_author
      (insert_into (namespace, author) (r_timestamp record, key));
    mret (Ok ()))))).

(** An entry, unless it is empty and empty entries are not wanted. *)
Definition get_exact (record_table : TR) (namespace : NamespaceId) (author : AuthorId)
    (key : list byte) (include_empty : bool) : result DbErr (option SignedEntry) :=
  let id := (namespace, author, key) in
  record ← t_get (DbErr:=DbErr) id record_table;
  Ok (match record with
      | None => None
      | Some r =>
          let entry := into_entry id r in
          if include_empty || negb (record_is_empty (se_record entry)) then Some entry else None
      end).

(** The loop of [parents]: the key, its last byte popped, and so on down to the
    first byte. The key is reversed. *)
Fixpoint parents_loop (table : TR) (namespace : NamespaceId) (author : AuthorId)
    (rev_key : list byte) : list (result DbErr SignedEntry) :=
  match rev_key with
  | [] => []
  | _ :: rest =>
      match get_exact table namespace author (reverse rev_key) false with
      | Err err => Err err :: parents_loop table namespace author rest
      | Ok (Some entry) => Ok entry :: parents_loop table namespace author rest
      | Ok None => parents_loop table namespace author rest
      end
  end.

Definition parents (table : TR) (namespace : NamespaceId) (author : AuthorId) (key : list byte)
    : list (result DbErr SignedEntry) :=
  reverse (parents_loop table namespace author (reverse key)).

Definition fs_prefixes_of (id : RecordIdentifier) : SM (list (result DbErr SignedEntry)) :=
  s ← gets Datatypes.id;
  unwrap (id_namespace id) (λ namespace,
  unwrap (id_author id) (λ author,
  unwrap (id_key id) (λ key,
  mret (Ok (parents (records (si_tables s)) namespace author key))))).

Definition fs_remove_prefix_filtered (id : RecordIdentifier) (predicate : DocRecord → bool) : SM N :=
  unwrap (id_namespace id) (λ namespace,
  unwrap (id_author id) (λ author,
  unwrap (id_key id) (λ key,
  let cb (k : RecordsId) (v : RecordsValue) :=
    predicate (record_new (rv_hash v) (rv_len v) (rv_timestamp v)) in
  modify_tables (
    removed ←? write_table records set_records (t_extract (author_prefix namespace author key) cb);
    mret (Ok (len removed)))))).

#[global] Instance fs_store : Store SI DbErr SignedEntry RecordIdentifier DocRecord := {|
  get_first := fs_get_first;
  get_fingerprint := fs_get_fingerprint;
  entry_put := fs_entry_put;
  get_range := fs_get_range;
  prefixes_of := fs_prefixes_of;
  remove_prefix_filtered := fs_remove_prefix_filtered;
|}.

End Store.
