(* ===== verification/DocsStoreFacts.v ===== *)
(** * The document store keeps the contract of the reconciliation protocol

    [TableLaws] is the contract of a table of the database: a finite map, read in
    the order of its keys. On tables that keep it, a [StoreInstance] refines the
    abstract store of the protocol, restricted to the entries of its namespace. *)
From stdpp Require Import base tactics list gmap orders sorting.
From Stdlib Require Import ZArith Lia Strings.Byte.
From S2P Require Import Prelude Bytes Ranger RangerFacts Records DocsBounds DocsStore.

(** ** The contract of a table *)

Section Items.
  Context {K V : Type} `{Countable K} (R : relation K) `{!RelDecision R}.

Definition item_le (x y : K * V) : Prop := R x.1 y.1.

#[global] Instance item_le_dec : RelDecision item_le.
Proof. intros x y. unfold item_le. apply _. Defined.

(** The items of a table in the order of the keys. *)
Definition table_items (m : gmap K V) : list (K * V) := merge_sort item_le (map_to_list m).

Lemma elem_of_table_items m k v : (k, v) ∈ table_items m ↔ m !! k = Some v.
Proof. unfold table_items. by rewrite merge_sort_Permutation, elem_of_map_to_list. Qed.

Lemma NoDup_table_items m : NoDup (table_items m).*1.
Proof. unfold table_items. rewrite merge_sort_Permutation. apply NoDup_fst_map_to_list. Qed.

Lemma table_items_sorted `{!TotalOrder R} m : StronglySorted item_le (table_items m).
Proof.
  apply StronglySorted_merge_sort.
  - intros x y z. unfold item_le. apply transitivity.
  - intros x y. unfold item_le. apply total, _.
Qed.

#[global] Instance item_le_refl `{!TotalOrder R} : Reflexive item_le.
Proof. intros x. unfold item_le. reflexivity. Qed.

Lemma length_filter_items (P : K * V → Prop) `{∀ x, Decision (P x)} (m : gmap K V) :
  length (filter P (table_items m)) = size (filter P m).
Proof.
  unfold table_items. rewrite merge_sort_Permutation, <-length_map_to_list, map_filter_alt.
  rewrite map_to_list_to_map; [done|]. eapply sublist_NoDup; [apply (NoDup_fst_map_to_list m)|].
  apply fmap_sublist, sublist_filter.
Qed.

End Items.

(** Every key has at most one value; a range is read in the order of the keys; no
    operation fails. Nothing is promised for bounds that are inverted. *)
Class TableLaws (T DbErr K V : Type) `{HT : Table T DbErr K V} `{HC : Countable K}
    (R : relation K) `{HD : !RelDecision R} : Type := {
  t_content : T → gmap K V;
  law_get k t : t_get k t = Ok (t_content t !! k);
  law_insert k v t : ∃ t', t_insert k v t = Ok t' ∧ t_content t' = <[k := v]> (t_content t);
  law_t_range b t : bounds_valid R b →
    t_range b t = Ok (Ok <$> filter (λ kv, in_bounds R b kv.1) (table_items R (t_content t)));
  law_extract b (f : K → V → bool) t : bounds_valid R b → ∃ t',
    t_extract b f t = Ok (Ok <$> filter (λ kv, in_bounds R b kv.1 ∧ f kv.1 kv.2 = true)
                             (table_items R (t_content t)), t') ∧
    t_content t' = filter (λ kv, ¬ (in_bounds R b kv.1 ∧ f kv.1 kv.2 = true)) (t_content t);
}.

(** ** Identifiers and keys of the table *)

Definition flat (t : RecordsId) : RecordIdentifier := id_new t.1.1 t.1.2 t.2.

Lemma flat_inj t1 t2 : id_wf t1 → id_wf t2 → flat t1 = flat t2 → t1 = t2.
Proof.
  destruct t1 as [[n1 a1] k1], t2 as [[n2 a2] k2]. intros [Hn1 Ha1] [Hn2 Ha2]. simpl in *.
  unfold flat. simpl. intros (-> & -> & ->)%id_new_inj; [done|congruence..].
Qed.

(** The order of identifiers is the order of the table. *)
Lemma flat_le t1 t2 : id_wf t1 → id_wf t2 → bytes_le (flat t1) (flat t2) ↔ records_id_le t1 t2.
Proof.
  destruct t1 as [[n1 a1] k1], t2 as [[n2 a2] k2]. intros [Hn1 Ha1] [Hn2 Ha2]. simpl in *.
  unfold flat, id_new. simpl. rewrite !bytes_le_app by congruence. by rewrite id_le_unfold.
Qed.

Lemma flat_prefix t1 t2 :
  id_wf t1 → id_wf t2 → flat t1 `prefix_of` flat t2 ↔ t1.1 = t2.1 ∧ t1.2 `prefix_of` t2.2.
Proof.
  destruct t1 as [[n1 a1] k1], t2 as [[n2 a2] k2]. intros [Hn1 Ha1] [Hn2 Ha2]. simpl in *.
  unfold flat, id_new. simpl. split.
  - intros [l Heq]. rewrite <-!app_assoc in Heq.
    apply app_inj_1 in Heq as [-> Heq]; [|congruence].
    apply app_inj_1 in Heq as [-> ->]; [|congruence]. split; [done|by eexists].
  - intros [[= -> ->] [l ->]]. exists l. by rewrite <-!app_assoc.
Qed.

Lemma flat_tuple t : id_wf t → to_byte_tuple (flat t) = Some t.
Proof. destruct t as [[n a] k]. intros [Hn Ha]. by apply id_new_tuple. Qed.

Lemma flat_parts t :
  id_wf t → id_namespace (flat t) = Some t.1.1 ∧ id_author (flat t) = Some t.1.2 ∧
    id_key (flat t) = Some t.2.
Proof.
  intros Ht. pose proof (flat_tuple t Ht) as Hf. unfold to_byte_tuple in Hf.
  destruct (id_namespace _); [|done]. destruct (id_author _); [|done]. destruct (id_key _); [|done].
  simpl in Hf. by simplify_eq/=.
Qed.

(** An identifier of at least 64 bytes is a key of the table. *)
Lemma flat_surj id : 64 ≤ length id → ∃ t, id = flat t ∧ id_wf t.
Proof.
  intros (n & a & k & _ & -> & Hn & Ha)%to_byte_tuple_Some. by exists (n, a, k).
Qed.

Lemma flat_length t : id_wf t → 64 ≤ length (flat t).
Proof. intros [Hn Ha]. unfold flat, id_new. rewrite !length_app, Hn, Ha. lia. Qed.

Lemma into_entry_id k v : se_id (into_entry k v) = flat k.
Proof. by destruct k as [[n a] k]. Qed.

Lemma into_entry_record k v :
  se_record (into_entry k v) = record_new (rv_hash v) (rv_len v) (rv_timestamp v).
Proof. by destruct k as [[n a] k]. Qed.

(** ** The entries of a namespace *)

Definition ids_wf (m : gmap RecordsId RecordsValue) : Prop := ∀ k v, m !! k = Some v → id_wf k.

Definition flat_item (kv : RecordsId * RecordsValue) : RecordIdentifier * SignedEntry :=
  (flat kv.1, into_entry kv.1 kv.2).

(** The entries of the namespace, by identifier. *)
Definition fs_content (ns : NamespaceId) (m : gmap RecordsId RecordsValue)
    : gmap RecordIdentifier SignedEntry :=
  list_to_map (flat_item <$> map_to_list (filter (λ kv, kv.1.1.1 = ns) m)).

Lemma flat_items_NoDup ns m :
  ids_wf m → NoDup (flat_item <$> map_to_list (filter (λ kv, kv.1.1.1 = ns) m)).*1.
Proof.
  intros Hm. rewrite <-list_fmap_compose. apply NoDup_fmap_2_strong; [|apply NoDup_map_to_list].
  intros [k1 v1] [k2 v2]. rewrite !elem_of_map_to_list, !map_lookup_filter_Some. simpl.
  intros [H1 _] [H2 _] Heq. apply flat_inj in Heq as ->; eauto. congruence.
Qed.

Lemma fs_content_lookup ns m id e :
  ids_wf m → fs_content ns m !! id = Some e ↔
    ∃ k v, m !! k = Some v ∧ k.1.1 = ns ∧ id = flat k ∧ e = into_entry k v.
Proof.
  intros Hm. unfold fs_content. rewrite <-elem_of_list_to_map by (by apply flat_items_NoDup).
  rewrite list_elem_of_fmap. split.
  - intros ([k v] & [= -> ->] & Hkv). rewrite elem_of_map_to_list, map_lookup_filter_Some in Hkv.
    exists k, v. naive_solver.
  - intros (k & v & Hk & Hns & -> & ->). exists (k, v). split; [done|].
    by rewrite elem_of_map_to_list, map_lookup_filter_Some.
Qed.

Lemma fs_content_size ns m :
  ids_wf m → size (fs_content ns m) = size (filter (λ kv, kv.1.1.1 = ns) m).
Proof.
  intros Hm. rewrite <-!length_map_to_list. unfold fs_content at 1.
  rewrite map_to_list_to_map by (by apply flat_items_NoDup). by rewrite length_fmap.
Qed.

Lemma fs_content_insert ns m k v :
  ids_wf m → id_wf k → k.1.1 = ns →
  fs_content ns (<[k := v]> m) = <[flat k := into_entry k v]> (fs_content ns m).
Proof.
  intros Hm Hk Hns. assert (Hm' : ids_wf (<[k := v]> m)).
  { intros k' v' [[<- _]|[_ ?]]%lookup_insert_Some; eauto. }
  apply map_eq. intros id. apply option_eq. intros e.
  rewrite fs_content_lookup, lookup_insert_Some, fs_content_lookup by done. split.
  - intros (k' & v' & [[<- <-]|[Hne Hk']]%lookup_insert_Some & Hn' & -> & ->); [by left|].
    right. split; [|by eauto 6]. intros Heq. apply Hne, flat_inj; eauto.
  - intros [[<- <-]|[Hne (k' & v' & Hk' & Hn' & -> & ->)]].
    + exists k, v. by rewrite lookup_insert_eq.
    + exists k', v'. rewrite lookup_insert_ne by congruence. eauto.
Qed.

Lemma fs_content_filter ns m (P : RecordsId * RecordsValue → Prop) `{!∀ x, Decision (P x)}
    (Q : RecordIdentifier * SignedEntry → Prop) `{!∀ x, Decision (Q x)} :
  ids_wf m → (∀ k v, m !! k = Some v → k.1.1 = ns → P (k, v) ↔ Q (flat k, into_entry k v)) →
  fs_content ns (filter P m) = filter Q (fs_content ns m).
Proof.
  intros Hm HPQ. assert (Hm' : ids_wf (filter P m)).
  { intros k v [? _]%map_lookup_filter_Some. eauto. }
  apply map_eq. intros id. apply option_eq. intros e.
  rewrite fs_content_lookup, map_lookup_filter_Some, fs_content_lookup by done. split.
  - intros (k & v & [Hk HP]%map_lookup_filter_Some & Hn & -> & ->).
    split; [by eauto 6|]. by apply HPQ.
  - intros [(k & v & Hk & Hn & -> & ->) HQ]. exists k, v.
    rewrite map_lookup_filter_Some. split; [|done]. split; [done|]. by apply HPQ.
Qed.

(** ** Reading the table *)

Section Reading.
  Context `{HB : Blake3Hash}.

Definition entries_in (P : RecordsId → Prop) `{!∀ k, Decision (P k)}
    (m : gmap RecordsId RecordsValue) : list SignedEntry :=
  (λ kv, into_entry kv.1 kv.2) <$> filter (λ kv, P kv.1) (table_items records_id_le m).

Lemma elem_of_entries_in P `{!∀ k, Decision (P k)} m e :
  e ∈ entries_in P m ↔ ∃ k v, m !! k = Some v ∧ P k ∧ e = into_entry k v.
Proof.
  unfold entries_in. rewrite list_elem_of_fmap. split.
  - intros ([k v] & -> & [HP Hkv]%list_elem_of_filter). apply elem_of_table_items in Hkv. eauto.
  - intros (k & v & Hk & HP & ->). exists (k, v). split; [done|].
    rewrite list_elem_of_filter, elem_of_table_items. done.
Qed.

Lemma filter_items_sub P `{!∀ k, Decision (P k)} (m : gmap RecordsId RecordsValue) k v :
  (k, v) ∈ filter (λ kv, P kv.1) (table_items records_id_le m) → m !! k = Some v.
Proof. by intros [_ ?%elem_of_table_items]%list_elem_of_filter. Qed.

Lemma entries_in_sorted P `{!∀ k, Decision (P k)} m :
  ids_wf m → StronglySorted entry_le (entries_in P m).
Proof.
  intros Hm. unfold entries_in.
  assert (Hs : StronglySorted (item_le records_id_le)
    (filter (λ kv, P kv.1) (table_items records_id_le m))).
  { apply StronglySorted_filter, table_items_sorted, _. }
  pose proof (filter_items_sub P m) as Hsub. revert Hs Hsub.
  induction (filter _ _) as [|[k v] l IH]; intros Hs Hsub; [constructor|].
  apply StronglySorted_inv in Hs as [Hs Hle]. cbn. constructor.
  { apply IH; [done|]. intros k' v' ?. apply Hsub. by right. }
  apply Forall_fmap, Forall_forall. intros [k' v'] Hin.
  rewrite Forall_forall in Hle. specialize (Hle _ Hin). unfold item_le in Hle.
  unfold compose, entry_le. simpl. rewrite !into_entry_id. apply flat_le; [..|done].
  - eapply Hm, Hsub. by left.
  - eapply Hm, Hsub. by right.
Qed.

Lemma entries_in_NoDup P `{!∀ k, Decision (P k)} m :
  ids_wf m → NoDup (se_id <$> entries_in P m).
Proof.
  intros Hm. unfold entries_in. rewrite <-list_fmap_compose. apply NoDup_fmap_2_strong.
  - intros [k1 v1] [k2 v2] H1%filter_items_sub H2%filter_items_sub. simpl.
    rewrite !into_entry_id. intros ?%flat_inj; [|by eapply Hm..]. congruence.
  - apply NoDup_filter. eapply NoDup_fmap_1, NoDup_table_items.
Qed.

Lemma entries_in_ext (P Q : RecordsId → Prop) `{!∀ x, Decision (P x), !∀ x, Decision (Q x)} m :
  (∀ k v, m !! k = Some v → P k ↔ Q k) → entries_in P m = entries_in Q m.
Proof.
  intros HPQ. unfold entries_in. f_equal. apply filter_ext_in.
  intros [k v] Hk%elem_of_table_items. eauto.
Qed.

Lemma entries_in_app (P Q : RecordsId → Prop) `{!∀ x, Decision (P x), !∀ x, Decision (Q x)} m :
  (∀ k v k' v', m !! k = Some v → m !! k' = Some v' → P k → Q k' → ¬ records_id_le k' k) →
  entries_in P m ++ entries_in Q m = entries_in (λ k, P k ∨ Q k) m.
Proof.
  intros HPQ. unfold entries_in. rewrite <-fmap_app. f_equal.
  apply (filter_app_sorted (item_le records_id_le)).
  - apply table_items_sorted, _.
  - intros [k v] [k' v'] Hk%elem_of_table_items Hk'%elem_of_table_items. eauto.
Qed.

(** The entries of a range, read from the table of all namespaces. *)
Lemma entries_in_range ns r m :
  ids_wf m →
  entries_in (λ k, contains (E:=SignedEntry) r (flat k) = true ∧ k.1.1 = ns) m =
    range_entries r (fs_content ns m).
Proof.
  intros Hm. apply range_entries_unique.
  - intros id e (k & v & _ & _ & -> & ->)%fs_content_lookup; [|done]. apply into_entry_id.
  - by apply entries_in_NoDup.
  - by apply entries_in_sorted.
  - intros e. rewrite elem_of_entries_in, elem_of_range_entries. split.
    + intros (k & v & Hk & [Hr Hns] & ->). split; [by rewrite into_entry_id|].
      exists (flat k). apply fs_content_lookup; [done|]. eauto 6.
    + intros [Hr (id & (k & v & Hk & Hns & -> & ->)%fs_content_lookup)]; [|done].
      simpl in Hr. rewrite into_entry_id in Hr. eauto 6.
Qed.

End Reading.

(** ** The operations of the store *)

Section Ops.
  Context {TR TK TL DbErr : Type} `{HB : Blake3Hash}
    `{HTR : !Table TR DbErr RecordsId RecordsValue}
    `{HTK : !Table TK DbErr RecordsByKeyId ()}
    `{HTL : !Table TL DbErr LatestPerAuthorKey LatestPerAuthorValue}
    `{LR : !TableLaws TR DbErr RecordsId RecordsValue records_id_le}
    `{LK : !TableLaws TK DbErr RecordsByKeyId () (lex_le (lex_le bytes_le bytes_le) bytes_le)}
    `{LL : !TableLaws TL DbErr LatestPerAuthorKey LatestPerAuthorValue (lex_le bytes_le bytes_le)}.

Local Notation SI := (StoreInstance TR TK TL).

(** The records of all namespaces. *)
Definition rows (s : SI) : gmap RecordsId RecordsValue := t_content (records (si_tables s)).

(** The entries of the namespace of the instance. *)
Definition si_content (s : SI) : gmap RecordIdentifier SignedEntry :=
  fs_content (si_namespace s) (rows s).

(** Namespaces and authors are 32 bytes long. *)
Definition si_wf (s : SI) : Prop := length (si_namespace s) = 32 ∧ ids_wf (rows s).

Lemma with_bounds_spec b (t : TR) :
  bounds_valid records_id_le b →
  with_bounds (DbErr:=DbErr) b t =
    Ok (Ok <$> entries_in (λ k, in_bounds records_id_le b k) (t_content t)).
Proof.
  intros Hb. unfold with_bounds. rewrite law_t_range by done. unfold mbind. simpl. f_equal.
  unfold entries_in. rewrite <-!list_fmap_compose. apply list_fmap_ext. by intros i [k v].
Qed.

Lemma contains_flat tx ty k :
  id_wf tx → id_wf ty → id_wf k →
  contains (E:=SignedEntry) (mkRange (flat tx) (flat ty)) (flat k) = true ↔
    tx = ty ∨
    (tx ≠ ty ∧ records_id_le tx ty ∧ records_id_le tx k ∧ ¬ records_id_le ty k) ∨
    (¬ records_id_le tx ty ∧ (¬ records_id_le ty k ∨ records_id_le tx k)).
Proof.
  intros Hx Hy Hk. rewrite <-!flat_le by done. unfold contains, is_all. simpl.
  destruct (decide (tx = ty)) as [->|Hne].
  { rewrite bool_decide_eq_true_2 by done. tauto. }
  rewrite (bool_decide_eq_false_2 (flat tx = flat ty)) by (by intros ?%flat_inj).
  destruct (decide (bytes_le (flat tx) (flat ty))) as [Hle|Hle].
  - rewrite bool_decide_eq_true_2 by done.
    rewrite andb_true_iff, negb_true_iff, bool_decide_eq_true, bool_decide_eq_false. tauto.
  - rewrite bool_decide_eq_false_2 by done.
    rewrite orb_true_iff, negb_true_iff, bool_decide_eq_true, bool_decide_eq_false. tauto.
Qed.

(** Reading a range of identifiers yields the entries of this namespace in the
    range, in order, and no entry of another namespace. *)
Lemma fs_get_range_spec r (s : SI) :
  si_wf s → 64 ≤ length (rx r) → 64 ≤ length (ry r) →
  fs_get_range (DbErr:=DbErr) r s = Done (Ok (Ok <$> range_entries r (si_content s))) s [].
Proof.
  intros [Hns Hwf] Hx Hy. unfold si_content. rewrite <-entries_in_range by done.
  destruct r as [x y]. cbn [rx ry] in *.
  apply flat_surj in Hx as (tx & -> & Htx), Hy as (ty & -> & Hty).
  unfold fs_get_range. rewrite gets_bind. unfold id. cbn [rx ry].
  rewrite (flat_tuple tx), (flat_tuple ty) by done. cbn [unwrap].
  destruct (decide (tx = ty)) as [->|Hne].
  { rewrite bool_decide_eq_true_2 by done. rewrite with_bounds_spec by (by apply namespace_bounds_valid).
    unfold mret, M_ret. do 3 f_equal. apply entries_in_ext. intros k v Hk%Hwf.
    rewrite namespace_bounds_spec, contains_flat by done. tauto. }
  rewrite (bool_decide_eq_false_2 (flat tx = flat ty)) by (by intros ?%flat_inj).
  rewrite (bool_decide_ext _ _ (flat_le tx ty Htx Hty)).
  destruct (decide (records_id_le tx ty)) as [Hle|Hle].
  { rewrite bool_decide_eq_true_2 by done. rewrite with_bounds_spec by apply clamp_valid.
    unfold mret, M_ret. do 3 f_equal. apply entries_in_ext. intros k v Hk%Hwf.
    rewrite clamp_spec, contains_flat by done. unfold in_bounds. simpl. tauto. }
  rewrite bool_decide_eq_false_2 by done. rewrite !with_bounds_spec by apply clamp_valid.
  erewrite try_bind_ret by done. erewrite try_bind_ret by done. unfold mret, M_ret.
  do 2 f_equal. rewrite <-fmap_app. do 2 f_equal. rewrite entries_in_app.
  - apply entries_in_ext. intros k v Hk%Hwf. rewrite !clamp_spec, contains_flat by done.
    unfold in_bounds. simpl. rewrite ns_start_le, namespace_end_spec by done.
    split; [naive_solver|]. intros [[->|[?|[_ H]]] <-]; [done|tauto|].
    destruct H; [left|right]; repeat split; done.
  - intros k v k' v' Hk%Hwf Hk'%Hwf. rewrite !clamp_spec by done. unfold in_bounds. simpl.
    intros [[_ Hky] _] [[Hxk' _] _] Hk'k. apply Hky. trans tx; [exact (not_le_le records_id_le _ _ Hle)|].
    by trans k'.
Qed.

Lemma fingerprint_loop_spec (l : list SignedEntry) fp :
  fingerprint_loop (DbErr:=DbErr) fp (Ok <$> l) =
    Ok (foldl (λ fp e, bitxor_assign fp (as_fingerprint e)) fp l).
Proof. revert fp. induction l as [|e l IH]; intros fp; [done|]. apply IH. Qed.

Lemma fs_get_fingerprint_spec r (s : SI) :
  si_wf s → 64 ≤ length (rx r) → 64 ≤ length (ry r) →
  fs_get_fingerprint (DbErr:=DbErr) r s = Done (Ok (fp_of (range_entries r (si_content s)))) s [].
Proof.
  intros Hs Hx Hy. unfold fs_get_fingerprint.
  rewrite (try_bind_Ok _ _ _ _ _ (fs_get_range_spec r s Hs Hx Hy)).
  by rewrite fingerprint_loop_spec.
Qed.

(** The items of the namespace of the instance, in order. *)
Definition ns_items (s : SI) : list (RecordsId * RecordsValue) :=
  filter (λ kv, in_bounds records_id_le (namespace_bounds (si_namespace s)) kv.1)
    (table_items records_id_le (rows s)).

Lemma ns_items_sorted s : StronglySorted (item_le records_id_le) (ns_items s).
Proof. apply StronglySorted_filter, table_items_sorted, _. Qed.

Lemma elem_of_ns_items s k v :
  si_wf s → (k, v) ∈ ns_items s ↔ rows s !! k = Some v ∧ k.1.1 = si_namespace s.
Proof.
  intros [Hns Hwf]. unfold ns_items. rewrite list_elem_of_filter, elem_of_table_items.
  split.
  - intros [Hb Hk]. split; [done|]. apply namespace_bounds_spec in Hb; eauto.
  - intros [Hk Hn]. split; [|done]. apply namespace_bounds_spec; eauto.
Qed.

(** The first identifier of the namespace, or the identifier of zeros. *)
Lemma fs_get_first_spec (s : SI) :
  si_wf s → ∃ id, fs_get_first (DbErr:=DbErr) s = Done (Ok id) s [] ∧ 64 ≤ length id ∧
    (id = id_default ∧ si_content s = ∅ ∨
     is_Some (si_content s !! id) ∧ ∀ id', is_Some (si_content s !! id') → bytes_le id id').
Proof.
  intros Hs. pose proof Hs as [Hns Hwf]. unfold fs_get_first. rewrite gets_bind. unfold id.
  rewrite law_t_range by (by apply namespace_bounds_valid).
  fold (rows s). fold (ns_items s).
  pose proof (ns_items_sorted s) as Hsort. pose proof (λ k v, elem_of_ns_items s k v Hs) as Hel.
  destruct (ns_items s) as [|[[[n a] k] v] l].
  - exists id_default. split; [done|]. split; [done|]. left. split; [done|].
    apply map_empty. intros id. apply eq_None_not_Some. intros [e He].
    apply fs_content_lookup in He as (k & v & Hk & Hn & _); [|done].
    assert (Hin : (k, v) ∈ @nil (RecordsId * RecordsValue)) by (by apply Hel).
    by apply elem_of_nil in Hin.
  - destruct (proj1 (Hel (n, a, k) v)) as [Hk Hn]; [by left|].
    exists (flat (n, a, k)). split; [done|]. split; [apply flat_length; by eapply Hwf|]. right. split.
    + eexists. apply fs_content_lookup; [done|]. by exists (n, a, k), v.
    + intros id [e (k' & v' & Hk' & Hn' & -> & ->)%fs_content_lookup]; [|done].
      apply flat_le; [by eapply Hwf..|].
      assert (Hin : (k', v') ∈ (n, a, k, v) :: l) by (by apply Hel).
      apply elem_of_cons in Hin as [[= -> ->]|Hin]; [reflexivity|].
      apply StronglySorted_inv in Hsort as [_ Hsort]. rewrite Forall_forall in Hsort. exact (Hsort _ Hin).
Qed.

(** *** Writing *)

(** What [entry_put] writes to the table of records. *)
Definition value_of (e : SignedEntry) : RecordsValue :=
  mkRecordsValue (r_timestamp (se_record e)) (namespace_signature (se_signature e))
    (author_signature (se_signature e)) (r_len (se_record e)) (r_hash (se_record e)).

Lemma into_entry_value_of k e : se_id e = flat k → into_entry k (value_of e) = e.
Proof. destruct e as [[? ?] [id [? ? ?]]], k as [[n a] k]. unfold se_id. simpl. by intros ->. Qed.

(** An entry is written to its row, whatever the namespace, and to the row of its
    author. *)
Lemma fs_entry_put_full e k (s : SI) :
  se_id e = flat k → id_wf k →
  ∃ s', fs_entry_put (DbErr:=DbErr) e s = Done (Ok ()) s' [] ∧
    si_namespace s' = si_namespace s ∧ rows s' = <[k := value_of e]> (rows s) ∧
    t_content (latest_per_author (si_tables s')) =
      <[k.1 := (r_timestamp (se_record e), k.2)]> (t_content (latest_per_author (si_tables s))).
Proof.
  intros He Hk. unfold fs_entry_put. rewrite He.
  destruct (flat_parts k Hk) as (-> & -> & ->). cbn [unwrap].
  destruct k as [[n a] k]. cbn [fst snd]. destruct s as [ns [tr tk tl]].
  destruct (law_insert (n, a, k) (value_of e) tr) as (tr' & Hr & Hcr).
  destruct (law_insert (n, k, a) () tk) as (tk' & Hkk & _).
  destruct (law_insert (n, a) (r_timestamp (se_record e), k) tl) as (tl' & Hl & Hcl).
  exists (mkStoreInstance ns (mkTables tr' tk' tl')). split; [|done].
  unfold modify_tables, lift_m. cbn [si_tables].
  erewrite try_bind_Ok; [|unfold write_table, insert_into; cbn [records]; fold (value_of e); by rewrite Hr].
  erewrite try_bind_Ok; [|unfold write_table, insert_into; cbn [records_by_key set_records]; by rewrite Hkk].
  erewrite try_bind_Ok; [|unfold write_table, insert_into; cbn [latest_per_author set_records set_records_by_key]; by rewrite Hl].
  done.
Qed.

Lemma fs_entry_put_spec e k (s : SI) :
  se_id e = flat k → id_wf k →
  ∃ s', fs_entry_put (DbErr:=DbErr) e s = Done (Ok ()) s' [] ∧
    si_namespace s' = si_namespace s ∧ rows s' = <[k := value_of e]> (rows s).
Proof.
  intros He Hk. destruct (fs_entry_put_full e k s He Hk) as (s' & ? & ? & ? & _). by exists s'.
Qed.

(** The rows that [remove_prefix_filtered] selects: those within the bounds of the
    prefix whose record satisfies the predicate. *)
Definition selected (k : RecordsId) (pred : DocRecord → bool) (kv : RecordsId * RecordsValue) : Prop :=
  in_bounds records_id_le (author_prefix k.1.1 k.1.2 k.2) kv.1 ∧
  pred (se_record (into_entry kv.1 kv.2)) = true.

#[global] Instance selected_dec k pred kv : Decision (selected k pred kv).
Proof. unfold selected. apply _. Defined.

Lemma fs_remove_full k pred (s : SI) :
  id_wf k →
  ∃ s', fs_remove_prefix_filtered (DbErr:=DbErr) (flat k) pred s =
      Done (Ok (ssize (filter (selected k pred) (rows s)))) s' [] ∧
    si_namespace s' = si_namespace s ∧
    rows s' = filter (λ kv, ¬ selected k pred kv) (rows s) ∧
    latest_per_author (si_tables s') = latest_per_author (si_tables s).
Proof.
  intros Hk. unfold fs_remove_prefix_filtered.
  destruct (flat_parts k Hk) as (-> & -> & ->). cbn [unwrap].
  destruct s as [ns [tr tk tl]].
  set (cb := λ (_ : RecordsId) (v : RecordsValue), pred (record_new (rv_hash v) (rv_len v) (rv_timestamp v))).
  destruct Hk as [Hn Ha].
  destruct (law_extract (author_prefix k.1.1 k.1.2 k.2) cb tr) as (tr' & He & Hc);
    [by apply author_prefix_valid|].
  exists (mkStoreInstance ns (mkTables tr' tk tl)). unfold modify_tables, lift_m. cbn [si_tables].
  erewrite try_bind_Ok; [|unfold write_table; cbn [records]; fold cb; by rewrite He].
  assert (Hsel : ∀ kv, in_bounds records_id_le (author_prefix k.1.1 k.1.2 k.2) kv.1 ∧ cb kv.1 kv.2 = true
    ↔ selected k pred kv).
  { intros kv. unfold selected, cb. by rewrite into_entry_record. }
  split; [|split; [done|split; [|done]]].
  - unfold mret, M_ret, len, ssize. do 3 f_equal. rewrite length_fmap, length_filter_items.
    unfold rows. cbn [si_tables records]. f_equal. apply map_filter_ext. intros; apply Hsel.
  - unfold rows. cbn [si_tables records]. rewrite Hc. apply map_filter_ext. intros. by rewrite Hsel.
Qed.

Lemma fs_remove_spec k pred (s : SI) :
  id_wf k →
  ∃ s', fs_remove_prefix_filtered (DbErr:=DbErr) (flat k) pred s =
      Done (Ok (ssize (filter (selected k pred) (rows s)))) s' [] ∧
    si_namespace s' = si_namespace s ∧
    rows s' = filter (λ kv, ¬ selected k pred kv) (rows s).
Proof.
  intros Hk. destruct (fs_remove_full k pred s Hk) as (s' & ? & ? & ? & _). by exists s'.
Qed.

Lemma prefix_snoc_iff {A} (k p : list A) c : k `prefix_of` p ++ [c] ↔ k = p ++ [c] ∨ k `prefix_of` p.
Proof.
  split; [|intros [->|?]; [done|by apply prefix_app_r]].
  intros [l Hl]. destruct l as [|d l _] using rev_ind; [left; by rewrite app_nil_r in Hl|].
  right. rewrite app_assoc in Hl. apply app_inj_tail in Hl as [-> _]. by eexists.
Qed.

(** The entry at a key, unless it is a tombstone. *)
Definition live_at (t : TR) (n : NamespaceId) (a : AuthorId) (k : list byte) : option SignedEntry :=
  v ← t_content t !! (n, a, k);
  if decide (rv_hash v = Hash_EMPTY) then None else Some (into_entry (n, a, k) v).

Lemma live_at_Some t n a k x :
  live_at t n a k = Some x ↔
    ∃ v, t_content t !! (n, a, k) = Some v ∧ rv_hash v ≠ Hash_EMPTY ∧ x = into_entry (n, a, k) v.
Proof.
  unfold live_at. destruct (t_content t !! (n, a, k)) as [v|]; simpl; [|naive_solver].
  case_decide; naive_solver.
Qed.

Lemma get_exact_live t n a k : get_exact (DbErr:=DbErr) t n a k false = Ok (live_at t n a k).
Proof.
  unfold get_exact, live_at. rewrite law_get. unfold mbind. cbn [result_bind option_bind].
  destruct (t_content t !! (n, a, k)) as [v|]; [|done].
  rewrite into_entry_record. unfold record_is_empty. simpl. by case_bool_decide; case_decide.
Qed.

Lemma get_exact_all t n a k :
  get_exact (DbErr:=DbErr) t n a k true = Ok (into_entry (n, a, k) <$> t_content t !! (n, a, k)).
Proof.
  unfold get_exact. rewrite law_get. unfold mbind. cbn [result_bind].
  by destruct (t_content t !! (n, a, k)).
Qed.

(** [parents] finds the live entries at the non-empty prefixes of the key. *)
Lemma parents_spec (t : TR) n a key :
  ∃ l, parents (DbErr:=DbErr) t n a key = Ok <$> l ∧
    ∀ x, x ∈ l ↔ ∃ k, k ≠ [] ∧ k `prefix_of` key ∧ live_at t n a k = Some x.
Proof.
  assert (Hloop : ∀ rk, ∃ l, parents_loop (DbErr:=DbErr) t n a rk = Ok <$> l ∧
    ∀ x, x ∈ l ↔ ∃ k, k ≠ [] ∧ k `prefix_of` reverse rk ∧ live_at t n a k = Some x).
  { induction rk as [|c rk (l & Hl & Hel)].
    { exists []. split; [done|]. intros x. split; [by intros ?%elem_of_nil|].
      by intros (k & ? & ->%prefix_nil_inv & _). }
    exists (match live_at t n a (reverse (c :: rk)) with Some e => e :: l | None => l end).
    cbn [parents_loop]. rewrite get_exact_live, Hl.
    split; [by destruct (live_at _ _ _ _)|]. intros x.
    assert (Hne : reverse rk ++ [c] ≠ []) by (by destruct (reverse rk)).
    rewrite reverse_cons. setoid_rewrite prefix_snoc_iff.
    destruct (live_at t n a (reverse rk ++ [c])) as [e|] eqn:He.
    - rewrite elem_of_cons, Hel. split; [intros [->|(k & ? & ? & ?)]; eauto 6|].
      intros (k & ? & [->|?] & ?); [left; congruence|eauto].
    - rewrite Hel. split; [intros (k & ? & ? & ?); eauto|].
      intros (k & ? & [->|?] & ?); [congruence|eauto]. }
  destruct (Hloop (reverse key)) as (l & Hl & Hel). exists (reverse l). unfold parents.
  split; [by rewrite Hl, fmap_reverse|]. intros x. rewrite elem_of_reverse, Hel.
  by rewrite reverse_involutive.
Qed.

Lemma fs_prefixes_of_spec k (s : SI) :
  id_wf k →
  ∃ l, fs_prefixes_of (DbErr:=DbErr) (flat k) s = Done (Ok (Ok <$> l)) s [] ∧
    ∀ x, x ∈ l ↔ ∃ k' v, rows s !! (k.1, k') = Some v ∧ k' ≠ [] ∧ k' `prefix_of` k.2 ∧
      rv_hash v ≠ Hash_EMPTY ∧ x = into_entry (k.1, k') v.
Proof.
  intros Hk. unfold fs_prefixes_of. rewrite gets_bind. unfold id.
  destruct (flat_parts k Hk) as (-> & -> & ->). cbn [unwrap].
  destruct k as [[n a] key]. cbn [fst snd].
  destruct (parents_spec (records (si_tables s)) n a key) as (l & -> & Hel).
  exists l. split; [done|]. intros x. rewrite Hel. setoid_rewrite live_at_Some.
  unfold rows. naive_solver.
Qed.

End Ops.

(** * A finite map as a table

    Tables that keep the contract of the database ([TableLaws]), for concrete runs
    of the document store. *)

Section MapTable.
  Context {K V : Type} `{Countable K} (R : relation K) `{!RelDecision R}.

Definition map_table : Table (gmap K V) () K V := {|
  t_get := λ k m, Ok (m !! k);
  t_insert := λ k v m, Ok (<[k := v]> m);
  t_range := λ b m, Ok (Ok <$> filter (λ kv, in_bounds R b kv.1) (table_items R m));
  t_extract := λ b f m,
    Ok (Ok <$> filter (λ kv, in_bounds R b kv.1 ∧ f kv.1 kv.2 = true) (table_items R m),
        filter (λ kv, ¬ (in_bounds R b kv.1 ∧ f kv.1 kv.2 = true)) m);
|}.

Definition map_table_laws : TableLaws (HT:=map_table) (gmap K V) () K V R.
Proof. refine {| t_content := λ m : gmap K V, m |}; intros; eauto. Defined.

End MapTable.

#[export] Instance map_tr : Table (gmap RecordsId RecordsValue) () RecordsId RecordsValue :=
  map_table records_id_le.
#[export] Instance map_tk : Table (gmap RecordsByKeyId ()) () RecordsByKeyId () :=
  map_table (lex_le (lex_le bytes_le bytes_le) bytes_le).
#[export] Instance map_tl : Table (gmap LatestPerAuthorKey LatestPerAuthorValue) ()
    LatestPerAuthorKey LatestPerAuthorValue := map_table (lex_le bytes_le bytes_le).
#[export] Instance map_tr_laws : TableLaws (gmap RecordsId RecordsValue) () RecordsId RecordsValue
    records_id_le := map_table_laws records_id_le.
#[export] Instance map_tk_laws : TableLaws (gmap RecordsByKeyId ()) () RecordsByKeyId ()
    (lex_le (lex_le bytes_le bytes_le) bytes_le) := map_table_laws _.
#[export] Instance map_tl_laws : TableLaws (gmap LatestPerAuthorKey LatestPerAuthorValue) ()
    LatestPerAuthorKey LatestPerAuthorValue (lex_le bytes_le bytes_le) := map_table_laws _.
