(* ===== verification/DocsStoreProps.v ===== *)
(** * Properties of the document store (protocols/krikos-docs/src/store/fs.rs)

    What [put] does on the tables, for every entry; when that is the [put] of the
    reconciliation protocol, and the entries for which it is not. *)
From stdpp Require Import base tactics list gmap orders sorting.
From Stdlib Require Import ZArith Lia Strings.Byte.
From S2P Require Import Prelude Bytes Ranger RangerFacts Records DocsBounds DocsStore.
From S2P Require Import DocsStoreFacts.

Section Props.
  Context {TR TK TL DbErr : Type} `{HB : Blake3Hash}
    `{HTR : !Table TR DbErr RecordsId RecordsValue}
    `{HTK : !Table TK DbErr RecordsByKeyId ()}
    `{HTL : !Table TL DbErr LatestPerAuthorKey LatestPerAuthorValue}
    `{LR : !TableLaws TR DbErr RecordsId RecordsValue records_id_le}
    `{LK : !TableLaws TK DbErr RecordsByKeyId () (lex_le (lex_le bytes_le bytes_le) bytes_le)}
    `{LL : !TableLaws TL DbErr LatestPerAuthorKey LatestPerAuthorValue (lex_le bytes_le bytes_le)}.

Local Notation SI := (StoreInstance TR TK TL).

(** ** [put] on the tables *)

(** A live entry, at the key of [e] or at a proper non-empty prefix of it, that is
    not older than [e]. *)
Definition blocked (k : RecordsId) (e : SignedEntry) (m : gmap RecordsId RecordsValue) : Prop :=
  ∃ k' v, m !! (k.1, k') = Some v ∧ k' ≠ [] ∧ k' `prefix_of` k.2 ∧ rv_hash v ≠ Hash_EMPTY ∧
    record_le (se_record e) (se_record (into_entry (k.1, k') v)).

(** The rows that make way for [e]. *)
Definition replaced (k : RecordsId) (e : SignedEntry) : RecordsId * RecordsValue → Prop :=
  selected k (λ r, bool_decide (record_le r (se_record e))).

#[global] Instance replaced_dec k e kv : Decision (replaced k e kv).
Proof. unfold replaced. apply _. Defined.

Definition put_rows (k : RecordsId) (e : SignedEntry) (m : gmap RecordsId RecordsValue) :=
  <[k := value_of e]> (filter (λ kv, ¬ replaced k e kv) m).

Lemma fs_put_full e k (s : SI) :
  se_id e = flat k → id_wf k →
  (blocked k e (rows s) ∧ put (Er:=DbErr) e s = Done (Ok NotInserted) s []) ∨
  (¬ blocked k e (rows s) ∧ ∃ s',
    put (Er:=DbErr) e s = Done (Ok (Inserted (ssize (filter (replaced k e) (rows s))))) s' [] ∧
    si_namespace s' = si_namespace s ∧ rows s' = put_rows k e (rows s) ∧
    t_content (latest_per_author (si_tables s')) =
      <[k.1 := (r_timestamp (se_record e), k.2)]> (t_content (latest_per_author (si_tables s)))).
Proof.
  intros He Hk. destruct (fs_prefixes_of_spec (DbErr:=DbErr) k s Hk) as (l & Hl & Hel).
  assert (Hex : Exists (λ x, record_le (se_record e) (se_record x)) l ↔ blocked k e (rows s)).
  { rewrite Exists_exists. setoid_rewrite Hel. unfold blocked. naive_solver. }
  unfold put. cbn [prefixes_of fs_store re_key SignedEntry_RangeEntry]. rewrite He.
  rewrite (try_bind_Ok _ _ _ _ _ Hl).
  rewrite (try_bind_ret _ _ _ _ (refused_spec (re_value e) l)).
  destruct (decide (Exists (λ x, record_le (se_record e) (se_record x)) l)) as [Hb|Hb].
  { left. split; [by apply Hex|]. by rewrite bool_decide_eq_true_2. }
  right. split; [by rewrite <-Hex|]. rewrite bool_decide_eq_false_2 by done.
  destruct (fs_remove_full (DbErr:=DbErr) k (λ r, bool_decide (record_le r (se_record e))) s Hk)
    as (s1 & Hr & Hn1 & Hrows1 & Hl1).
  destruct (fs_entry_put_full (DbErr:=DbErr) e k s1 He Hk) as (s2 & Hp & Hn2 & Hrows2 & Hl2).
  exists s2. split; [|split; [by rewrite Hn2|split; [by rewrite Hrows2, Hrows1|by rewrite Hl2, Hl1]]].
  cbn [remove_prefix_filtered entry_put fs_store re_value value_le SignedEntry_RangeEntry].
  rewrite (try_bind_Ok _ _ _ _ _ Hr). by rewrite (try_bind_Ok _ _ _ _ _ Hp).
Qed.

Lemma fs_put_spec e k (s : SI) :
  se_id e = flat k → id_wf k →
  (blocked k e (rows s) ∧ put (Er:=DbErr) e s = Done (Ok NotInserted) s []) ∨
  (¬ blocked k e (rows s) ∧ ∃ s',
    put (Er:=DbErr) e s = Done (Ok (Inserted (ssize (filter (replaced k e) (rows s))))) s' [] ∧
    si_namespace s' = si_namespace s ∧ rows s' = put_rows k e (rows s)).
Proof.
  intros He Hk. destruct (fs_put_full e k s He Hk) as [?|(? & s' & ? & ? & ? & _)]; eauto 6.
Qed.

Lemma put_rows_other k e m k' :
  id_wf k → ids_wf m → k'.1 ≠ k.1 → put_rows k e m !! k' = m !! k'.
Proof.
  intros Hk Hm Hne. unfold put_rows. rewrite lookup_insert_ne by congruence.
  destruct (m !! k') as [v|] eqn:Hv; [|by apply map_lookup_filter_None; left].
  apply map_lookup_filter_Some. split; [done|]. intros [Hin _].
  apply author_prefix_spec in Hin as [Heq _]; [|apply Hk..|by eapply Hm].
  apply Hne. destruct k as [[??]?]. done.
Qed.

(** ** Refinement of the protocol *)

(** Keys for which the bounds of a prefix select only the keys with the prefix. *)
Definition plain_key (k : list byte) : Prop := k ≠ [] ∧ ∀ x, ¬ carry_extra k x.

Definition fs_entry_ok (ns : NamespaceId) (e : SignedEntry) : Prop :=
  ∃ k, id_wf k ∧ k.1.1 = ns ∧ se_id e = flat k ∧ plain_key k.2 ∧ r_hash (se_record e) ≠ Hash_EMPTY.

Definition fs_ok (ns : NamespaceId) (s : SI) : Prop :=
  si_namespace s = ns ∧ si_wf s ∧
  ∀ k v, rows s !! k = Some v → k.1.1 = ns → plain_key k.2 ∧ rv_hash v ≠ Hash_EMPTY.

Lemma si_content_lookup (s : SI) id e :
  si_wf s → si_content s !! id = Some e ↔
    ∃ k v, rows s !! k = Some v ∧ k.1.1 = si_namespace s ∧ id = flat k ∧ e = into_entry k v.
Proof. intros [_ Hwf]. by apply fs_content_lookup. Qed.

Lemma si_content_keyed (s : SI) : si_wf s → keyed (si_content s).
Proof. intros Hs id e (k & v & _ & _ & -> & ->)%si_content_lookup; [apply into_entry_id|done]. Qed.

Lemma selected_prefix ns k pred k' v :
  id_wf k → id_wf k' → k.1.1 = ns → plain_key k.2 →
  selected k pred (k', v) ↔ k'.1.1 = ns ∧
    flat k `prefix_of` flat k' ∧ pred (se_record (into_entry k' v)) = true.
Proof.
  intros Hk Hk' Hns [_ Hc]. unfold selected. simpl.
  rewrite author_prefix_spec, flat_prefix by (done || apply Hk).
  specialize (Hc k'.2). destruct k as [[n a] k], k' as [[n' a'] k']. simpl in *. naive_solver.
Qed.
Lemma fs_law_remove ns e pred (s : SI) :
  fs_ok ns s → fs_entry_ok ns e →
  ∃ s', fs_remove_prefix_filtered (DbErr:=DbErr) (se_id e) pred s =
      Done (Ok (ssize (filter (λ ke : RecordIdentifier * SignedEntry,
        se_id e `prefix_of` ke.1 ∧ pred (se_record ke.2) = true) (si_content s)))) s' [] ∧
    fs_ok ns s' ∧
    si_content s' = filter (λ ke : RecordIdentifier * SignedEntry,
      ¬ (se_id e `prefix_of` ke.1 ∧ pred (se_record ke.2) = true)) (si_content s).
Proof.
  intros (Hns & [Hlen Hwf] & Hok) (k & Hk & Hkn & He & Hplain & _). rewrite He.
  destruct (fs_remove_spec (DbErr:=DbErr) k pred s Hk) as (s' & Hr & Hn' & Hrows).
  assert (Hsel : ∀ k' v, rows s !! k' = Some v → selected k pred (k', v) ↔ k'.1.1 = ns ∧
    flat k `prefix_of` flat k' ∧ pred (se_record (into_entry k' v)) = true).
  { intros k' v Hk'. apply selected_prefix; eauto. }
  exists s'. split; [|split].
  - rewrite Hr. unfold ssize. do 3 f_equal.
    unfold si_content. rewrite <-(fs_content_filter _ _ (selected k pred)); [|done|].
    + rewrite fs_content_size by (intros ?? [??]%map_lookup_filter_Some; eauto).
      f_equal. symmetry. apply map_filter_id. intros k' v' [Hk' Hs]%map_lookup_filter_Some.
      apply Hsel in Hs as [? _]; [|done]. simpl. congruence.
    + intros k' v Hk' Hn. rewrite Hsel by done. simpl. rewrite Hn, Hns. tauto.
  - split; [congruence|]. unfold si_wf. rewrite Hrows. split; [split; [congruence|]|];
      intros k' v [??]%map_lookup_filter_Some; eauto.
  - unfold si_content. rewrite Hrows, Hn'. apply fs_content_filter; [done|].
    intros k' v Hk' Hn. rewrite Hsel by done. simpl. rewrite Hn, Hns. tauto.
Qed.

Lemma fs_law_entry_put ns e (s : SI) :
  fs_ok ns s → fs_entry_ok ns e →
  ∃ s', fs_entry_put (DbErr:=DbErr) e s = Done (Ok ()) s' [] ∧ fs_ok ns s' ∧
    si_content s' = <[se_id e := e]> (si_content s).
Proof.
  intros (Hns & [Hlen Hwf] & Hok) (k & Hk & Hkn & He & Hplain & Hh).
  destruct (fs_entry_put_spec (DbErr:=DbErr) e k s He Hk) as (s' & Hp & Hn' & Hrows).
  exists s'. split; [done|]. split.
  - split; [congruence|]. unfold si_wf. rewrite Hrows. split; [split; [congruence|]|];
      intros k' v [[<- <-]|[_ ?]]%lookup_insert_Some; eauto.
  - unfold si_content. rewrite Hrows, Hn', fs_content_insert by (done || congruence).
    by rewrite He, into_entry_value_of.
Qed.

Lemma fs_law_prefixes ns e (s : SI) :
  fs_ok ns s → fs_entry_ok ns e →
  ∃ l, fs_prefixes_of (DbErr:=DbErr) (se_id e) s = Done (Ok (Ok <$> l)) s [] ∧
    ∀ x, x ∈ l ↔ si_content s !! se_id x = Some x ∧ se_id x `prefix_of` se_id e.
Proof.
  intros (Hns & Hwf & Hok) (k & Hk & Hkn & He & _). rewrite He.
  destruct (fs_prefixes_of_spec (DbErr:=DbErr) k s Hk) as (l & Hl & Hel).
  exists l. split; [done|]. intros x. rewrite Hel, si_content_lookup by done. split.
  - intros (k' & v & Hv & Hne & Hp & Hh & ->). rewrite into_entry_id. split.
    + exists (k.1, k'), v. split; [done|]. split; [|done]. simpl. congruence.
    + apply flat_prefix; [|done..]. by destruct k as [[??]?].
  - intros [(k' & v & Hv & Hn & Hid & ->) Hp]. rewrite into_entry_id in Hp.
    apply flat_prefix in Hp as [Hk1 Hp]; [|by eapply Hwf|done].
    destruct (Hok _ _ Hv) as [[Hne _] Hh]; [congruence|].
    exists k'.2, v. rewrite <-Hk1, <-surjective_pairing. by repeat split.
Qed.

(** The contract of the protocol, for the entries that are no tombstones and whose
    key is plain. *)
Definition fs_laws (ns : NamespaceId) : StoreLaws SI DbErr SignedEntry RecordIdentifier DocRecord.
Proof.
  refine {| content := si_content; store_ok := fs_ok ns; key_ok := λ id, 64 ≤ length id;
            entry_ok := fs_entry_ok ns |}.
  - intros s (_ & Hwf & _). by apply si_content_keyed.
  - intros s id e (Hns & Hwf & Hok) (k & v & Hk & Hn & -> & ->)%si_content_lookup; [|done].
    rewrite Hns in Hn. destruct (Hok _ _ Hk Hn) as [Hp Hh].
    destruct Hwf as [_ Hwf]. exists k. rewrite into_entry_id, into_entry_record. eauto 6.
  - intros e (k & Hk & _ & He & _). cbn. rewrite He. by apply flat_length.
  - intros s (_ & Hwf & _). destruct (fs_get_first_spec (DbErr:=DbErr) s Hwf) as (id & ? & ? & _). eauto.
  - intros r s (_ & Hwf & _). by apply fs_get_range_spec.
  - intros r s (_ & Hwf & _). by apply fs_get_fingerprint_spec.
  - intros e s. apply fs_law_prefixes.
  - intros e pred s. apply fs_law_remove.
  - intros e s. apply fs_law_entry_put.
Defined.

(** ** Properties *)


(** C27. A range of identifiers of at least 64 bytes, whatever they are, yields the
    entries of this namespace in the range, in order, and no entry of another
    namespace; the fingerprint of the range is computed from the same entries. *)
Theorem fs_range_isolated (r : Range RecordIdentifier) (s : SI) :
  si_wf s → 64 ≤ length (rx r) → 64 ≤ length (ry r) →
  ∃ l, get_range (Er:=DbErr) r s = Done (Ok (Ok <$> l)) s [] ∧
    get_fingerprint (Er:=DbErr) r s = Done (Ok (fp_of l)) s [] ∧
    StronglySorted entry_le l ∧
    ∀ e, e ∈ l ↔ contains (E:=SignedEntry) r (se_id e) = true ∧
      ∃ k v, rows s !! k = Some v ∧ k.1.1 = si_namespace s ∧ e = into_entry k v.
Proof.
  intros Hs Hx Hy. exists (range_entries (HR:=SignedEntry_RangeEntry) r (si_content s)).
  split; [by apply fs_get_range_spec|]. split; [by apply fs_get_fingerprint_spec|].
  split; [apply range_entries_sorted|]. intros e. rewrite elem_of_range_entries.
  setoid_rewrite (si_content_lookup s _ e Hs). cbn [re_key SignedEntry_RangeEntry].
  split; intros [Hr H]; (split; [done|]); naive_solver.
Qed.

(** An entry at a key that ends in 255 bytes also removes entries at keys that
    do not start with its key: the bound on the prefix is incremented with the
    trailing 255 bytes set to zero, not cut off. *)
Theorem fs_put_removes_unrelated e n a p b j m k' v (s : SI) :
  b ≠ xff → j < m → length n = 32 → length a = 32 →
  let k := (n, a, p ++ b :: replicate m xff) in
  k' = (n, a, p ++ byte_succ b :: replicate j x00) →
  se_id e = flat k → si_wf s → ¬ blocked k e (rows s) → rows s !! k' = Some v →
  record_le (se_record (into_entry k' v)) (se_record e) →
  ¬ se_id e `prefix_of` flat k' ∧
  ∃ s' c, put (Er:=DbErr) e s = Done (Ok (Inserted c)) s' [] ∧ rows s' !! k' = None.
Proof.
  intros Hb Hj Hn Ha k -> He [_ Hwf] Hnb Hv Hle. set (k' := (n, a, _)) in *.
  assert (Hk : id_wf k) by done. assert (Hk' : id_wf k') by done.
  assert (Hne : p ++ b :: replicate m xff ≠ p ++ byte_succ b :: replicate j x00).
  { intros [= Hbb _]%app_inv_head. pose proof (byte_succ_spec b Hb). rewrite <-Hbb in *. lia. }
  split.
  { rewrite He, flat_prefix by done. intros [_ [l Hl]]. simpl in Hl. rewrite <-app_assoc in Hl.
    apply app_inv_head in Hl as [= Hbb _]. pose proof (byte_succ_spec b Hb). rewrite Hbb in *. lia. }
  destruct (fs_put_spec e k s He Hk) as [[? _]|(_ & s' & Hp & _ & Hrows)]; [done|].
  exists s'. eexists. split; [done|]. rewrite Hrows. unfold put_rows.
  rewrite lookup_insert_ne by (unfold k, k'; congruence).
  apply map_lookup_filter_None. right. intros v' Hv' Hsel. simplify_eq. apply Hsel. split; simpl.
  - apply author_prefix_spec; [done..|]. split; [done|]. right. by exists p, b, m, j.
  - by apply bool_decide_eq_true.
Qed.

(** A tombstone does not keep an older entry out: if the row at the key of an
    entry is a tombstone and no live entry at a proper prefix of the key is
    newer, [put] inserts the entry and the tombstone is gone, whatever their
    timestamps. *)
Theorem fs_tombstone_overwritten e k v (s : SI) :
  se_id e = flat k → id_wf k → rows s !! k = Some v → rv_hash v = Hash_EMPTY →
  ¬ (∃ k' v', rows s !! (k.1, k') = Some v' ∧ k' ≠ [] ∧ k' `prefix_of` k.2 ∧ k' ≠ k.2 ∧
       rv_hash v' ≠ Hash_EMPTY ∧ record_le (se_record e) (se_record (into_entry (k.1, k') v'))) →
  ∃ s' c, put (Er:=DbErr) e s = Done (Ok (Inserted c)) s' [] ∧ rows s' !! k = Some (value_of e).
Proof.
  intros He Hk Hv Hempty Hnone.
  destruct (fs_put_spec e k s He Hk) as [[(k' & v' & Hv' & Hne & Hp & Hh & Hle) _]|(_ & s' & Hp & _ & Hrows)].
  - exfalso. apply Hnone. exists k', v'. repeat split; try done. intros ->.
    destruct k as [[n a] k]. pose proof (eq_trans (eq_sym Hv') Hv) as [= ->]. done.
  - exists s'. eexists. split; [done|]. rewrite Hrows. apply lookup_insert_eq.
Qed.

(** C40. A range that a peer sent whose two ends differ, one of them shorter than 64
    bytes, makes the store panic. *)
Theorem fs_short_range_panics validate status (r : Range RecordIdentifier) fp (s : SI) :
  rx r ≠ ry r → length (rx r) < 64 ∨ length (ry r) < 64 →
  process_message (Er:=DbErr) validate status SyncConfig_default
    (mkMessage [PartFingerprint (mkRangeFingerprint r fp)]) s = Panicked.
Proof.
  intros Hne Hshort.
  assert (Hr : fs_get_range (DbErr:=DbErr) r s = Panicked).
  { unfold fs_get_range. rewrite gets_bind. rewrite bool_decide_eq_false_2 by done.
    destruct (bool_decide (bytes_le (rx r) (ry r))).
    - destruct Hshort as [Hx|Hy]; [by rewrite (to_byte_tuple_None (rx r))|].
      destruct (to_byte_tuple (rx r)); [|done]. by rewrite (to_byte_tuple_None (ry r)).
    - destruct (to_byte_tuple (ry r)) as [ty|] eqn:Hty; [|done].
      destruct Hshort as [Hx|Hy]; [|by rewrite to_byte_tuple_None in Hty].
      cbn [unwrap]. rewrite with_bounds_spec by apply clamp_valid.
      erewrite try_bind_ret by done. by rewrite (to_byte_tuple_None (rx r)). }
  unfold process_message. erewrite try_bind_Ok; [|reflexivity].
  apply try_bind_Panicked. cbn. apply try_bind_Panicked. unfold process_fingerprint.
  apply try_bind_Panicked. cbn. unfold fs_get_fingerprint. by apply try_bind_Panicked.
Qed.

End Props.

(** A key whose last byte is not 255 is plain. *)
Lemma plain_key_snoc p b : b ≠ xff → plain_key (p ++ [b]).
Proof.
  intros Hb. split; [by destruct p|]. intros x.
  rewrite (carry_extra_iff p b 0 x Hb). intros (j & ? & _). lia.
Qed.

(** ** Concrete runs *)

#[local] Instance ex_hash : Blake3Hash := λ bytes, [default x00 (Byte.of_N (len bytes))].
Definition ex_ns : NamespaceId := replicate 32 x07.
Definition ex_ns2 : NamespaceId := replicate 32 x08.
Definition ex_author : AuthorId := replicate 32 x01.

Definition ex_value (timestamp : N) (hash : Hash) : RecordsValue :=
  mkRecordsValue timestamp [] [] 1 hash.

Definition ex_entry (key : list byte) (timestamp : N) : SignedEntry :=
  into_entry (ex_ns, ex_author, key) (ex_value timestamp [x00]).

(** One row in the namespace of the instance and one in another. *)
Definition ex_table (key : list byte) (timestamp : N) (hash : Hash) : gmap RecordsId RecordsValue :=
  <[(ex_ns, ex_author, key) := ex_value timestamp hash]>
    {[ (ex_ns2, ex_author, key) := ex_value 9 [x00] ]}.

Definition ex_si (key : list byte) (timestamp : N) (hash : Hash)
    : StoreInstance (gmap RecordsId RecordsValue) (gmap RecordsByKeyId ())
        (gmap LatestPerAuthorKey LatestPerAuthorValue) :=
  mkStoreInstance ex_ns (mkTables (ex_table key timestamp hash) ∅ ∅).

Lemma ex_rows key timestamp hash k v :
  rows (ex_si key timestamp hash) !! k = Some v →
  k = (ex_ns, ex_author, key) ∧ v = ex_value timestamp hash ∨
  k = (ex_ns2, ex_author, key) ∧ v = ex_value 9 [x00].
Proof.
  change (ex_table key timestamp hash !! k = Some v → k = (ex_ns, ex_author, key) ∧ v = ex_value timestamp hash ∨
    k = (ex_ns2, ex_author, key) ∧ v = ex_value 9 [x00]).
  unfold ex_table.
  intros [[<- <-]|[_ [<- <-]%lookup_singleton_Some]]%lookup_insert_Some; auto.
Qed.

Lemma ex_si_wf key timestamp hash : si_wf (ex_si key timestamp hash).
Proof. split; [done|]. by intros k v [[-> _]|[-> _]]%ex_rows. Qed.

Definition ex_outcome {S E A} (r : outcome S E (result () A)) : option A :=
  match r with Done (Ok a) _ _ => Some a | _ => None end.


Definition ex_range : Range RecordIdentifier := mkRange (replicate 64 x00) (replicate 64 xff).

Lemma fs_range_isolated_witness :
  ∃ e, get_range ex_range (ex_si [x01] 3 [x00]) =
    Done (Ok [Ok e]) (ex_si [x01] 3 [x00]) [] ∧ se_id e = flat (ex_ns, ex_author, [x01]).
Proof.
  destruct (fs_range_isolated ex_range (ex_si [x01] 3 [x00])
    (ex_si_wf _ _ _)) as (l & Hget & _ & _ & Hel).
  - vm_compute. lia.
  - vm_compute. lia.
  - assert (Ho : ex_outcome (get_range ex_range (ex_si [x01] 3 [x00]))
      = Some [Ok (ex_entry [x01] 3)]) by (vm_compute; reflexivity).
    rewrite Hget in Ho. injection Ho as Ho.
    exists (ex_entry [x01] 3). rewrite <-Ho. split; [exact Hget|reflexivity].
Defined.

Lemma ex_not_blocked key timestamp hash k e :
  k.1 = (ex_ns, ex_author) → ¬ key `prefix_of` k.2 → ¬ blocked k e (rows (ex_si key timestamp hash)).
Proof.
  intros Hk Hp (k' & v & [[[= _ ->] _]|[[= Hns _] _]]%ex_rows & _ & Hp' & _); [done|].
  rewrite Hk in Hns. discriminate Hns.
Qed.

(** An entry at the key of bytes 1 and 255 removes the entry at the key of byte 2. *)
Lemma fs_put_removes_unrelated_witness :
  ¬ se_id (ex_entry [x01; xff] 4) `prefix_of` flat (ex_ns, ex_author, [x02]) ∧
  ∃ s' c, put (ex_entry [x01; xff] 4) (ex_si [x02] 3 [x00]) = Done (Ok (Inserted c)) s' [] ∧
    rows s' !! (ex_ns, ex_author, [x02]) = None.
Proof.
  apply (fs_put_removes_unrelated (ex_entry [x01; xff] 4) ex_ns ex_author [] x01 0 1
    (ex_ns, ex_author, [x02]) (ex_value 3 [x00]) (ex_si [x02] 3 [x00])).
  - discriminate.
  - lia.
  - reflexivity.
  - reflexivity.
  - reflexivity.
  - reflexivity.
  - exact (ex_si_wf _ _ _).
  - apply ex_not_blocked; [reflexivity|]. intros [l Hl]. discriminate Hl.
  - vm_compute. reflexivity.
  - left. vm_compute. reflexivity.
Defined.

(** An entry of time 4 replaces the tombstone of time 7. *)
Lemma fs_tombstone_overwritten_witness :
  ∃ s' c, put (ex_entry [x01] 4) (ex_si [x01] 7 Hash_EMPTY) = Done (Ok (Inserted c)) s' [] ∧
    rows s' !! (ex_ns, ex_author, [x01]) = Some (value_of (ex_entry [x01] 4)).
Proof.
  apply (fs_tombstone_overwritten (ex_entry [x01] 4) (ex_ns, ex_author, [x01])
    (ex_value 7 Hash_EMPTY) (ex_si [x01] 7 Hash_EMPTY)).
  - reflexivity.
  - split; reflexivity.
  - vm_compute. reflexivity.
  - reflexivity.
  - intros (k' & v' & [[[= ->] _]|[[= Hk] _]]%ex_rows & _ & _ & Hne & _); by apply Hne.
Defined.

Lemma fs_short_range_panics_witness :
  process_message (Er:=()) (λ _ _ _, true) (λ _, Missing) SyncConfig_default
    (mkMessage [PartFingerprint (mkRangeFingerprint (mkRange [x01] []) [])]) (ex_si [x01] 3 [x00])
  = Panicked.
Proof.
  apply fs_short_range_panics.
  - discriminate.
  - left. simpl. lia.
Defined.
