(* ===== verification/DocsQuery.v ===== *)
(** * Queries on a document (protocols/krikos-docs/src: store.rs, store/util.rs,
      store/fs/query.rs, store/fs/ranges.rs)

    A query reads one of two tables, the records in the order of author and key or
    the index in the order of key and author, filters what it reads, keeps the
    latest entry of each key if asked to, and skips and counts results. A range
    of a table is read in one direction; it is the list of its items in the
    order they are read. *)
From stdpp Require Import base tactics list gmap orders sorting.
From Stdlib Require Import ZArith Lia Strings.Byte.
From S2P Require Import Prelude Bytes Ranger Records DocsBounds DocsStore.

(** ** Queries *)

Inductive SortDirection : Type := Asc | Desc.

Inductive SortBy : Type := KeyAuthor | AuthorKey.

Inductive QueryKind : Type :=
| Flat (sort_by : SortBy)
| SingleLatestPerKey.

Inductive AuthorFilter : Type :=
| AnyAuthor
| ExactAuthor (author : AuthorId).

Record Query : Type := mkQuery {
  kind : QueryKind;
  filter_author : AuthorFilter;
  filter_key : KeyFilter;
  q_limit : option N;
  q_offset : N;
  include_empty : bool;
  sort_direction : SortDirection;
}.

Definition key_matches (filter : KeyFilter) (key : list byte) : bool :=
  match filter with
  | AnyKey => true
  | ExactKey k => bool_decide (k = key)
  | PrefixKey p => bool_decide (p `prefix_of` key)
  end.

Definition author_matches (filter : AuthorFilter) (author : AuthorId) : bool :=
  match filter with
  | AnyAuthor => true
  | ExactAuthor a => bool_decide (a = author)
  end.

(** ** The choice of a table *)

Inductive IndexKind : Type :=
| IndexAuthorKey (range : AuthorFilter) (key_filter : KeyFilter)
| IndexKeyAuthor (range : KeyFilter) (author_filter : AuthorFilter) (latest_per_key : bool).

Definition index_kind (query : Query) : IndexKind :=
  match kind query with
  | Flat sort_by =>
      match filter_author query, sort_by with
      | AnyAuthor, KeyAuthor => IndexKeyAuthor (filter_key query) AnyAuthor false
      | _, _ => IndexAuthorKey (filter_author query) (filter_key query)
      end
  | SingleLatestPerKey => IndexKeyAuthor (filter_key query) (filter_author query) true
  end.

(** ** The latest entry per key *)

Inductive SelectorRes : Type :=
| Finished
| Continue
| Selected (entry : SignedEntry).

(** [entry.key()], which panics on a short identifier; the store only holds
    identifiers that it built itself. *)
Definition se_key (e : SignedEntry) : list byte := default [] (id_key (se_id e)).

Definition se_timestamp (e : SignedEntry) : N := r_timestamp (se_record e).

(** The result, and the entry the selector holds afterwards. *)
Definition selector_push (held entry : option SignedEntry) : SelectorRes * option SignedEntry :=
  match entry with
  | None =>
      match held with
      | Some entry => (Selected entry, None)
      | None => (Finished, None)
      end
  | Some entry =>
      match held with
      | None => (Continue, Some entry)
      | Some last =>
          if bool_decide (se_key last = se_key entry) then
            (Continue, Some (if (se_timestamp last <? se_timestamp entry)%N then entry else last))
          else (Selected last, Some entry)
      end
  end.

(** ** Ranges *)

(** The items of a range in the order a direction reads them. *)
Definition in_direction {A} (direction : SortDirection) (items : list A) : list A :=
  match direction with Asc => items | Desc => reverse items end.

Section Query.
  Context {TR TK DbErr : Type}
    `{HTR : !Table TR DbErr RecordsId RecordsValue} `{HTK : !Table TK DbErr RecordsByKeyId ()}.

(** [RangeExt::next_filter_map]: the next item for which there is a value. *)
Fixpoint next_filter_map {K V T} (filter_map : K → V → option T) (range : list (result DbErr (K * V)))
    : option (result DbErr T) * list (result DbErr (K * V)) :=
  match range with
  | [] => (None, [])
  | Err err :: range => (Some (Err err), range)
  | Ok (k, v) :: range =>
      match filter_map k v with
      | None => next_filter_map filter_map range
      | Some item => (Some (Ok item), range)
      end
  end.

(** [RangeExt::next_try_filter_map]. *)
Definition next_try_filter_map {K V T} (filter_map : K → V → option (result DbErr T))
    (range : list (result DbErr (K * V))) : option (result DbErr T) * list (result DbErr (K * V)) :=
  let '(next, range) := next_filter_map filter_map range in
  (match next with
   | None => None
   | Some (Err e) => Some (Err e)
   | Some (Ok r) => Some r
   end, range).

(** [RecordsRange::next_filtered]. *)
Definition next_filtered (filter : RecordsId → RecordsValue → bool)
    (range : list (result DbErr (RecordsId * RecordsValue)))
    : option (result DbErr SignedEntry) * list (result DbErr (RecordsId * RecordsValue)) :=
  next_filter_map (λ k v, if filter k v then Some (into_entry k v) else None) range.

(** [RecordsByKeyRange::next_filtered]: an item of the index without a record is
    passed over. *)
Definition by_key_next_filtered (records_table : TR) (filter : RecordsByKeyId → bool)
    (range : list (result DbErr (RecordsByKeyId * ())))
    : option (result DbErr SignedEntry) * list (result DbErr (RecordsByKeyId * ())) :=
  next_try_filter_map (λ k _,
    if negb (filter k) then None else
    let '(namespace, key, author) := k in
    let records_id := (namespace, author, key) in
    match t_get records_id records_table with
    | Ok None => None
    | Ok (Some value) => Some (Ok (into_entry records_id value))
    | Err e => Some (Err e)
    end) range.

(** ** The iterator *)

Inductive QueryRange : Type :=
| RangeAuthorKey (range : list (result DbErr (RecordsId * RecordsValue))) (key_filter : KeyFilter)
| RangeKeyAuthor (records_table : TR) (range : list (result DbErr (RecordsByKeyId * ())))
    (author_filter : AuthorFilter) (selector : option (option SignedEntry)).

Record QueryIterator : Type := mkQueryIterator {
  qi_range : QueryRange;
  qi_query : Query;
  qi_offset : N;
  qi_count : N;
}.

Definition query_new (records_table : TR) (by_key_table : TK) (namespace : NamespaceId) (query : Query)
    : result DbErr QueryIterator :=
  range ←
    match index_kind query with
    | IndexAuthorKey range key_filter =>
        let '(bounds, filter) :=
          match range with
          | ExactAuthor author => (author_key namespace author key_filter, AnyKey)
          | AnyAuthor => (namespace_bounds namespace, key_filter)
          end in
        items ← t_range bounds records_table;
        Ok (RangeAuthorKey (in_direction (sort_direction query) items) filter)
    | IndexKeyAuthor range author_filter latest_per_key =>
        items ← t_range (by_key_new namespace range) by_key_table;
        Ok (RangeKeyAuthor records_table (in_direction (sort_direction query) items) author_filter
              (if (latest_per_key : bool) then Some None else None))
    end;
  Ok (mkQueryIterator range query 0 0).

Definition value_is_empty (value : RecordsValue) : bool := bool_decide (rv_hash value = Hash_EMPTY).

(** The inner loop of [next] on the index. Every turn reads an item or empties the
    selector. *)
Fixpoint key_author_loop (fuel : nat) (query : Query) (records_table : TR)
    (range : list (result DbErr (RecordsByKeyId * ()))) (author_filter : AuthorFilter)
    (selector : option (option SignedEntry)) : option (result DbErr SignedEntry) * QueryRange :=
  match fuel with
  | O => (None, RangeKeyAuthor records_table range author_filter selector)
  | S fuel =>
      let '(next, range) := by_key_next_filtered records_table
        (λ '(_, _, author), author_matches author_filter author) range in
      let finish (next : option SignedEntry) selector :=
        if negb (include_empty query) && from_option (λ e, record_is_empty (se_record e)) false next
        then key_author_loop fuel query records_table range author_filter selector
        else (Ok <$> next, RangeKeyAuthor records_table range author_filter selector) in
      match next with
      | Some (Err err) => (Some (Err err), RangeKeyAuthor records_table range author_filter selector)
      | _ =>
          let next := match next with Some (Ok e) => Some e | _ => None end in
          match selector with
          | None => finish next None
          | Some held =>
              match selector_push held next with
              | (Continue, held) => key_author_loop fuel query records_table range author_filter (Some held)
              | (Finished, held) => finish None (Some held)
              | (Selected res, held) => finish (Some res) (Some held)
              end
          end
      end
  end.

(** The number of items left to read, and one for the entry in the selector. *)
Definition range_fuel (range : QueryRange) : nat :=
  match range with
  | RangeAuthorKey range _ => S (S (length range))
  | RangeKeyAuthor _ range _ _ => S (S (length range))
  end.

Definition range_next (query : Query) (range : QueryRange) : option (result DbErr SignedEntry) * QueryRange :=
  match range with
  | RangeAuthorKey items key_filter =>
      let '(next, items) := next_filtered (λ '(_, _, key) value,
        key_matches key_filter key && (include_empty query || negb (value_is_empty value))) items in
      (next, RangeAuthorKey items key_filter)
  | RangeKeyAuthor records_table items author_filter selector =>
      key_author_loop (range_fuel range) query records_table items author_filter selector
  end.

(** The outer loop of [next], which skips results up to the offset. *)
Fixpoint next_loop (fuel : nat) (it : QueryIterator) : option (result DbErr SignedEntry) * QueryIterator :=
  match fuel with
  | O => (None, it)
  | S fuel =>
      let query := qi_query it in
      let '(next, range) := range_next query (qi_range it) in
      match next with
      | Some (Ok _) =>
          if (qi_offset it <? q_offset query)%N
          then next_loop fuel (mkQueryIterator range query (qi_offset it + 1) (qi_count it))
          else (next, mkQueryIterator range query (qi_offset it) (qi_count it + 1))
      | _ => (next, mkQueryIterator range query (qi_offset it) (qi_count it + 1))
      end
  end.

Definition query_next (it : QueryIterator) : option (result DbErr SignedEntry) * QueryIterator :=
  match q_limit (qi_query it) with
  | Some limit => if (limit <=? qi_count it)%N then (None, it) else next_loop (range_fuel (qi_range it)) it
  | None => next_loop (range_fuel (qi_range it)) it
  end.

(** [iter.collect::<Result<Vec<_>>>()]. *)
Fixpoint query_collect (fuel : nat) (it : QueryIterator) : result DbErr (list SignedEntry) :=
  match fuel with
  | O => Ok []
  | S fuel =>
      match query_next it with
      | (None, _) => Ok []
      | (Some (Err e), _) => Err e
      | (Some (Ok entry), it) => cons entry <$> query_collect fuel it
      end
  end.

(** [Store::get_many], with its results. *)
Definition get_many (records_table : TR) (by_key_table : TK) (namespace : NamespaceId) (query : Query)
    : result DbErr (list SignedEntry) :=
  it ← query_new records_table by_key_table namespace query;
  query_collect (range_fuel (qi_range it)) it.

End Query.
