(* ===== verification/DocsQueryFacts.v ===== *)
(** * What a query returns

    The iterator of a query is a list that is read once: the stream of its range,
    the part of it after the offset, up to the limit. *)
From stdpp Require Import base tactics list gmap orders sorting.
From Stdlib Require Import ZArith Lia Strings.Byte.
From S2P Require Import Prelude Bytes Ranger RangerFacts Records DocsBounds DocsStore DocsStoreFacts DocsQuery.

Definition by_key_le : relation RecordsByKeyId := lex_le (lex_le bytes_le bytes_le) bytes_le.

Section Streams.
  Context {TR TK DbErr : Type}
    `{HTR : !Table TR DbErr RecordsId RecordsValue} `{HTK : !Table TK DbErr RecordsByKeyId ()}
    `{LR : !TableLaws TR DbErr RecordsId RecordsValue records_id_le}
    `{LK : !TableLaws TK DbErr RecordsByKeyId () by_key_le}.

(** ** The streams of the ranges *)

Definition wanted (q : Query) (e : SignedEntry) : bool :=
  include_empty q || negb (record_is_empty (se_record e)).

(** The entry of a row, if its key and its content are wanted. *)
Definition row_entry (q : Query) (kf : KeyFilter) (kv : RecordsId * RecordsValue) : option SignedEntry :=
  if key_matches kf kv.1.2 && wanted q (into_entry kv.1 kv.2) then Some (into_entry kv.1 kv.2) else None.

(** The entry of an item of the index. *)
Definition index_entry (t : TR) (af : AuthorFilter) (k : RecordsByKeyId) : option SignedEntry :=
  if author_matches af k.2
  then into_entry (k.1.1, k.2, k.1.2) <$> t_content t !! (k.1.1, k.2, k.1.2)
  else None.

(** The entries that a selector that holds [held] lets through. *)
Fixpoint select (held : option SignedEntry) (l : list SignedEntry) : list SignedEntry :=
  match l with
  | [] => option_list held
  | e :: l =>
      match held with
      | None => select (Some e) l
      | Some last =>
          if bool_decide (se_key last = se_key e)
          then select (Some (if (se_timestamp last <? se_timestamp e)%N then e else last)) l
          else last :: select (Some e) l
      end
  end.

Definition selected_by (selector : option (option SignedEntry)) (l : list SignedEntry) : list SignedEntry :=
  match selector with None => l | Some held => select held l end.

Definition index_stream (q : Query) (t : TR) (af : AuthorFilter) (selector : option (option SignedEntry))
    (items : list RecordsByKeyId) : list SignedEntry :=
  filter (λ e, wanted q e = true) (selected_by selector (omap (index_entry t af) items)).

(** The items of a range that was read without errors. *)
Definition ok_items (items : list RecordsByKeyId) : list (result DbErr (RecordsByKeyId * ())) :=
  (λ k, Ok (k, ())) <$> items.

(** A range, and the entries it yields. *)
Inductive streams (q : Query) : QueryRange → list SignedEntry → nat → Prop :=
| streams_records items kf :
    streams q (RangeAuthorKey (TR:=TR) (DbErr:=DbErr) (Ok <$> items) kf) (omap (row_entry q kf) items) (length items)
| streams_index t items af selector :
    streams q (RangeKeyAuthor t (ok_items items) af selector) (index_stream q t af selector items)
      (length items + length (selected_by selector [])).

(** ** Reading one entry *)

Lemma records_next q kf items :
  ∃ items', range_next q (RangeAuthorKey (TR:=TR) (DbErr:=DbErr) (Ok <$> items) kf) =
    (Ok <$> head (omap (row_entry q kf) items), RangeAuthorKey (Ok <$> items') kf) ∧
    omap (row_entry q kf) items' = tail (omap (row_entry q kf) items) ∧
    (omap (row_entry q kf) items ≠ [] → length items' < length items).
Proof.
  cbn [range_next]. unfold next_filtered. induction items as [|[[[n a] k] v] items IH]; [by exists []|].
  cbn -[row_entry into_entry].
  match goal with |- context [row_entry q kf ?x] =>
    change (row_entry q kf x) with (if key_matches kf k && (include_empty q || negb (value_is_empty v))
      then Some (into_entry (n, a, k) v) else None) end.
  destruct (key_matches kf k && _) eqn:Hm.
  - exists items. split_and!; [done..|lia].
  - destruct IH as (items' & Heq & Htl & Hlen). exists items'. split_and!; [done..|]. intros Hne. apply Hlen in Hne. lia.
Qed.

(** The next item of the index with an entry. *)
Lemma by_key_next t af items :
  ∃ items', by_key_next_filtered t (λ '(_, _, author), author_matches af author) (ok_items items) =
    (Ok <$> head (omap (index_entry t af) items), ok_items items') ∧
    omap (index_entry t af) items' = tail (omap (index_entry t af) items) ∧
    (omap (index_entry t af) items ≠ [] → length items' < length items) ∧
    (omap (index_entry t af) items = [] → items' = []).
Proof.
  unfold by_key_next_filtered, next_try_filter_map.
  induction items as [|[[n k] a] items IH]; [by exists []|].
  cbn -[index_entry into_entry].
  match goal with |- context [index_entry t af ?x] =>
    change (index_entry t af x) with (if author_matches af a
      then into_entry (n, a, k) <$> t_content t !! (n, a, k) else None) end.
  rewrite law_get. destruct (author_matches af a); cbn -[index_entry into_entry].
  - destruct (t_content t !! (n, a, k)) as [v|]; cbn -[index_entry into_entry].
    + exists items. split_and!; [done..|lia|done].
    + destruct IH as (items' & Heq & Htl & Hlen & Hnil). exists items'. split_and!; [done..| |done].
      intros Hne. apply Hlen in Hne. lia.
  - destruct IH as (items' & Heq & Htl & Hlen & Hnil). exists items'. split_and!; [done..| |done].
    intros Hne. apply Hlen in Hne. lia.
Qed.

(** One turn of the selector. *)
Lemma select_push held next l :
  match selector_push held next with
  | (Continue, held') => next ≠ None ∧ select held (option_list next ++ l) = select held' l
  | (Selected res, held') => select held (option_list next ++ l) = res :: select held' l
  | (Finished, held') => next = None ∧ held = None ∧ held' = None
  end ∨ (next = None ∧ l ≠ []).
Proof.
  destruct next as [e|]; cbn.
  - left. destruct held as [last|]; cbn; [|done]. by case_bool_decide.
  - destruct l; [left|by right]. by destruct held.
Qed.

(** What is left to read. *)
Definition left_over (items : list RecordsByKeyId) (selector : option (option SignedEntry)) : nat :=
  length items + length (selected_by selector []).

Definition yields (q : Query) (t : TR) (af : AuthorFilter) (items : list RecordsByKeyId)
    (selector : option (option SignedEntry)) (r : option (result DbErr SignedEntry) * QueryRange) : Prop :=
  ∃ items' selector',
    r = (Ok <$> head (index_stream q t af selector items), RangeKeyAuthor t (ok_items items') af selector') ∧
    index_stream q t af selector' items' = tail (index_stream q t af selector items) ∧
    (index_stream q t af selector items ≠ [] → left_over items' selector' < left_over items selector).

Lemma unwanted q (e : SignedEntry) :
  negb (include_empty q) && record_is_empty (se_record e) = negb (wanted q e).
Proof. unfold wanted. by destruct (include_empty q), (record_is_empty _). Qed.

(** The three ways a turn of the loop can go: another turn, an entry, or the end. *)
Lemma yields_continue q t af items sel items1 sel1 r :
  index_stream q t af sel1 items1 = index_stream q t af sel items →
  left_over items1 sel1 ≤ left_over items sel →
  yields q t af items1 sel1 r → yields q t af items sel r.
Proof.
  intros Hst Hle (items2 & sel2 & -> & Ht2 & Hl2). exists items2, sel2. rewrite <-Hst.
  split_and!; [done..|]. intros Hne%Hl2. lia.
Qed.

Lemma yields_entry q t af items sel items1 sel1 res r :
  selected_by sel (omap (index_entry t af) items) = res :: selected_by sel1 (omap (index_entry t af) items1) →
  left_over items1 sel1 < left_over items sel →
  (wanted q res = false → yields q t af items1 sel1 r) →
  yields q t af items sel
    (if negb (include_empty q) && record_is_empty (se_record res) then r
     else (Some (Ok res), RangeKeyAuthor t (ok_items items1) af sel1)).
Proof.
  intros Hsel Hlt Hr. rewrite unwanted. destruct (wanted q res) eqn:Hw; cbn.
  - exists items1, sel1. unfold index_stream. rewrite Hsel, filter_cons_True by done. done.
  - eapply yields_continue; [|apply Nat.lt_le_incl, Hlt|by apply Hr].
    unfold index_stream. rewrite Hsel, filter_cons_False by (by rewrite Hw). done.
Qed.

Lemma yields_end q t af items sel items1 sel1 :
  index_stream q t af sel items = [] → index_stream q t af sel1 items1 = [] →
  yields q t af items sel (None, RangeKeyAuthor t (ok_items items1) af sel1).
Proof. intros H1 H2. exists items1, sel1. by rewrite H1, H2. Qed.

Lemma key_author_loop_spec q t af fuel items selector :
  (length items + 2 ≤ fuel ∨ (items = [] ∧ selected_by selector [] = [] ∧ 1 ≤ fuel)) →
  yields q t af items selector (key_author_loop fuel q t (ok_items items) af selector).
Proof.
  revert items selector. induction fuel as [|fuel IH]; intros items selector Hf; [lia|].
  destruct (by_key_next t af items) as (items1 & Hnext & Htl & Hlen & Hnil).
  cbn [key_author_loop]. rewrite Hnext. clear Hnext.
  destruct (omap (index_entry t af) items) as [|e l] eqn:Hlive; cbn [head tail] in *.
  - rewrite (Hnil eq_refl) in *. clear Hnil Hlen Htl. destruct selector as [[last|]|]; cbn -[index_entry ok_items].
    + apply yields_entry; [by rewrite Hlive|unfold left_over; simpl; lia|]. intros _. apply IH.
      right. split_and!; [done..|]. destruct Hf as [?|(_ & ? & _)]; [lia|done].
    + rewrite andb_false_r. apply yields_end; [|done]. unfold index_stream. by rewrite Hlive.
    + rewrite andb_false_r. apply yields_end; [|done]. unfold index_stream. by rewrite Hlive.
  - assert (Hlt : length items1 < length items) by (by apply Hlen).
    assert (Hf1 : length items1 + 2 ≤ fuel) by (destruct Hf as [?|(-> & _)]; [lia|simpl in Hlt; lia]).
    destruct selector as [[last|]|]; cbn -[index_entry ok_items].
    + case_bool_decide as Hkey.
      * eapply yields_continue; [| |by apply IH; left]; [|unfold left_over; simpl; lia].
        unfold index_stream. rewrite Hlive, Htl. cbn. by rewrite bool_decide_eq_true_2.
      * apply yields_entry; [rewrite Hlive, Htl; cbn; by rewrite bool_decide_eq_false_2|
          unfold left_over; simpl; lia|]. intros _. apply IH. by left.
    + eapply yields_continue; [| |by apply IH; left]; [|unfold left_over; simpl; lia].
      unfold index_stream. by rewrite Hlive, Htl.
    + apply yields_entry; [by rewrite Hlive, Htl|unfold left_over; simpl; lia|]. intros _. apply IH. by left.
Qed.

(** ** Reading the rest *)

Lemma range_next_spec q r st n :
  streams q r st n →
  ∃ r' n', range_next q r = (Ok <$> head st, r') ∧ streams q r' (tail st) n' ∧ (st ≠ [] → n' < n).
Proof.
  intros [items kf|t items af selector].
  - destruct (records_next q kf items) as (items' & -> & Htl & Hlen).
    exists (RangeAuthorKey (Ok <$> items') kf), (length items'). rewrite <-Htl. split_and!; [done|constructor|done].
  - cbn [range_next range_fuel]. assert (Hl : length (ok_items items) = length items) by apply length_fmap. rewrite Hl.
    destruct (key_author_loop_spec q t af (S (S (length items))) items selector) as (items' & sel' & -> & Htl & Hlen);
      [left; lia|].
    eexists _, _. rewrite <-Htl. split_and!; [done|constructor|]. intros Hne%Hlen. done.
Qed.

Lemma streams_fuel q r st n : streams q r st n → n < range_fuel r.
Proof.
  intros [items kf|t items af selector]; cbn.
  - rewrite length_fmap. lia.
  - assert (Hl : length (ok_items items) = length items) by apply length_fmap. rewrite Hl.
    destruct selector as [[]|]; simpl; lia.
Qed.

(** What is left of a stream after the offset. *)
Definition after_offset (q : Query) (offset : N) (st : list SignedEntry) : list SignedEntry :=
  drop (N.to_nat (q_offset q - offset)) st.

Lemma next_loop_spec q fuel r st n o c :
  streams q r st n → n < fuel →
  ∃ r' n' o', next_loop fuel (mkQueryIterator r q o c) =
      (Ok <$> head (after_offset q o st), mkQueryIterator r' q o' (c + 1)) ∧
    streams q r' (tail (after_offset q o st)) n' ∧
    (after_offset q o st ≠ [] → (q_offset q - o' = 0)%N ∧ n' < n).
Proof.
  revert r st n o. induction fuel as [|fuel IH]; intros r st n o Hst Hn; [lia|].
  destruct (range_next_spec q r st n Hst) as (r1 & n1 & Hnext & Hst1 & Hlt).
  cbn [next_loop qi_range qi_query qi_offset qi_count]. rewrite Hnext. unfold after_offset.
  destruct st as [|e st]; cbn [head fmap option_fmap option_map tail] in *.
  { rewrite drop_nil. exists r1, n1, o. done. }
  destruct (N.ltb_spec o (q_offset q)) as [Ho|Ho].
  - destruct (IH r1 st n1 (o + 1)%N Hst1) as (r2 & n2 & o2 & Heq & Hst2 & Hlt2);
      [specialize (Hlt ltac:(done)); lia|]. unfold after_offset in *.
    replace (N.to_nat (q_offset q - o)) with (S (N.to_nat (q_offset q - (o + 1)))) by lia. cbn [drop].
    exists r2, n2, o2. split_and!; [done..|]. intros Hne. destruct (Hlt2 Hne) as [??].
    specialize (Hlt ltac:(done)). split; [done|lia].
  - replace (N.to_nat (q_offset q - o)) with 0 by lia. cbn. exists r1, n1, o.
    split_and!; [done..|]. intros _. specialize (Hlt ltac:(done)). split; lia.
Qed.

(** The results up to the limit, of which [count] were returned. *)
Definition up_to_limit (q : Query) (count : N) (l : list SignedEntry) : list SignedEntry :=
  match q_limit q with None => l | Some limit => take (N.to_nat (limit - count)) l end.

Lemma query_collect_spec q fuel r st n o c :
  streams q r st n → n < fuel →
  query_collect fuel (mkQueryIterator r q o c) = Ok (up_to_limit q c (after_offset q o st)).
Proof.
  revert r st n o c. induction fuel as [|fuel IH]; intros r st n o c Hst Hn; [lia|].
  cbn [query_collect]. unfold query_next. cbn [qi_query qi_count qi_range].
  destruct (next_loop_spec q (range_fuel r) r st n o c Hst (streams_fuel _ _ _ _ Hst))
    as (r1 & n1 & o1 & Hnext & Hst1 & Hlt). rewrite Hnext.
  assert (Hgo : match q_limit q with Some limit => (limit - c ≠ 0)%N | None => True end →
    match (Ok <$> head (after_offset q o st), mkQueryIterator r1 q o1 (c + 1)) with
    | (None, _) => Ok []
    | (Some (Err e), _) => Err e
    | (Some (Ok entry), it) => cons entry <$> query_collect fuel it
    end = Ok (up_to_limit q c (after_offset q o st))).
  { intros Hlim. unfold up_to_limit. destruct (after_offset q o st) as [|e l]; cbn [head fmap option_fmap option_map].
    - destruct (q_limit q); [by rewrite take_nil|done].
    - destruct (Hlt ltac:(done)) as [Ho1 Hn1]. rewrite (IH r1 l n1 o1 (c + 1)%N) by (done || lia).
      unfold up_to_limit, after_offset. rewrite Ho1. cbn [N.to_nat drop fmap result_fmap].
      destruct (q_limit q) as [limit|]; [|done].
      by replace (N.to_nat (limit - c)) with (S (N.to_nat (limit - (c + 1)))) by lia. }
  destruct (q_limit q) as [limit|] eqn:Hq; [|by apply Hgo].
  destruct (N.leb_spec limit c) as [Hle|Hgt].
  - unfold up_to_limit. rewrite Hq. by replace (N.to_nat (limit - c)) with 0 by lia.
  - apply Hgo. lia.
Qed.

End Streams.

(** * What the bounds of a query select

    The bounds on the table of records select the keys of one author that match
    the filter, those on the index the keys of the namespace that match it, if
    the prefix of the filter does not end in bytes 255. *)

(** A filter whose prefix, if it has one, does not end in a byte 255. *)
Definition plain_filter (filter : KeyFilter) : Prop :=
  match filter with PrefixKey p => last p ≠ Some xff | _ => True end.

Lemma plain_no_carry p k : last p ≠ Some xff → ¬ carry_extra p k.
Proof.
  intros Hp (p' & b & n & j & Hb & -> & Hj & _). apply Hp. destruct n as [|n]; [lia|].
  rewrite replicate_S_end, app_comm_cons, app_assoc. apply last_snoc.
Qed.

(** ** The table of records *)

Lemma author_key_spec ns a kf t :
  length ns = 32 → length a = 32 → id_wf t → plain_filter kf →
  in_bounds records_id_le (author_key ns a kf) t ↔ t.1 = (ns, a) ∧ key_matches kf t.2 = true.
Proof.
  intros Hns Ha Ht Hkf. destruct kf as [|key|p]; cbn [key_matches plain_filter] in *.
  - change (author_key ns a AnyKey) with (author_prefix ns a []). rewrite author_prefix_spec by done.
    split; [by intros [? _]|]. intros [? _]. split; [done|]. left. apply prefix_nil.
  - rewrite bool_decide_eq_true. unfold author_key, in_bounds. cbn. split.
    + intros [H1 H2]. assert (t = (ns, a, key)) as -> by (by apply (anti_symm records_id_le)). done.
    + destruct t as [t k]. cbn. intros [-> ->]. done.
  - rewrite bool_decide_eq_true. change (author_key ns a (PrefixKey p)) with (author_prefix ns a p).
    rewrite author_prefix_spec by done. pose proof (plain_no_carry p t.2 Hkf). naive_solver.
Qed.

Lemma author_key_valid ns a kf :
  length ns = 32 → length a = 32 → bounds_valid records_id_le (author_key ns a kf).
Proof.
  intros Hns Ha. destruct kf as [|key|p]; [by apply (author_prefix_valid ns a [])|cbn; reflexivity|by apply author_prefix_valid].
Qed.

(** ** The index by key *)

(** A key of the index. *)
Definition by_key_wf (t : RecordsByKeyId) : Prop := length t.1.1 = 32 ∧ length t.2 = 32.

Lemma by_key_start ns key t :
  by_key_wf t →
  by_key_le (ns, key, zero32) t ↔
    (bytes_le ns t.1.1 ∧ ns ≠ t.1.1) ∨ (ns = t.1.1 ∧ bytes_le key t.1.2).
Proof.
  destruct t as [[n k] a]. intros [_ Ha]. cbn in *. unfold by_key_le.
  change (lex_le (lex_le bytes_le bytes_le) bytes_le) with records_id_le. rewrite id_le_unfold.
  pose proof (zero32_le a Ha). split.
  - intros [?|[-> [[? _]|[-> _]]]]; [by left|by right|by right].
  - intros [?|[-> ?]]; [by left|]. right. split; [done|].
    destruct (decide (key = k)) as [->|]; [by right|by left].
Qed.

(** The end of a namespace in the index. *)
Lemma by_key_end_spec ns t :
  length ns = 32 → by_key_wf t → upper_ok by_key_le (by_key_namespace ns).2 t ↔ bytes_le t.1.1 ns.
Proof.
  intros Hns Ht. pose proof Ht as [Hn _]. unfold by_key_namespace.
  destruct (increment_cases ns) as [(p & b & n & Hb & Heq)|Heq].
  - rewrite Heq, increment_carry by done. cbn [snd upper_ok]. rewrite by_key_start by done.
    rewrite <-increment_succ by (done || by rewrite <-Heq, Hns). split; intros Hno.
    + intros Hle. apply Hno. 
      destruct (decide (p ++ byte_succ b :: replicate n x00 = t.1.1)) as [Hx|]; [right|by left].
      split; [done|]. apply bytes_le_prefix, prefix_nil.
    + intros [[? _]|[Heq2 _]]; apply Hno; [done|by rewrite Heq2].
  - rewrite Heq, increment_overflow. cbn. split; [|done]. intros _. rewrite Hns, <-Hn. apply ff_greatest.
Qed.

Lemma by_key_new_spec ns kf t :
  length ns = 32 → by_key_wf t → plain_filter kf →
  in_bounds by_key_le (by_key_new ns kf) t ↔ t.1.1 = ns ∧ key_matches kf t.1.2 = true.
Proof.
  intros Hns Ht Hkf. pose proof (by_key_end_spec ns t Hns Ht) as Hend.
  unfold in_bounds. destruct kf as [|key|p]; cbn [key_matches plain_filter by_key_new] in *.
  - assert (Hst : lower_ok by_key_le (by_key_namespace ns).1 t ↔ bytes_le ns t.1.1).
    { unfold by_key_namespace. destruct (increment_by_one ns) as [[] ?]; cbn [fst lower_ok];
        rewrite by_key_start by done.
      all: split; [by intros [[? _]|[-> _]]|]; intros Hle.
      all: destruct (decide (ns = t.1.1)) as [Heq|]; [right; split; [done|]; apply bytes_le_prefix, prefix_nil|by left]. }
    rewrite Hst, Hend. split; [|by intros [-> _]]. intros [??]. split; [by apply (anti_symm bytes_le)|done].
  - rewrite bool_decide_eq_true. cbn [fst snd lower_ok upper_ok]. rewrite by_key_start by done. destruct t as [[n k] a]. destruct Ht as [Hn Ha].
    cbn [fst snd upper_ok] in *. unfold by_key_le. change (lex_le (lex_le bytes_le bytes_le) bytes_le) with records_id_le.
    rewrite id_le_unfold. split.
    + intros [H1 H2].
      assert (ns = n) as <-.
      { destruct H1 as [[H1 _]|[-> _]]; [|done]. destruct H2 as [[H2 _]|[-> _]]; [|done].
        by apply (anti_symm bytes_le). }
      destruct H1 as [[_ ?]|[_ H1]]; [done|]. destruct H2 as [[_ ?]|[_ H2]]; [done|].
      split; [done|]. destruct H2 as [[H2 _]|[-> _]]; [|done]. by apply (anti_symm bytes_le).
    + intros [-> ->]. split; [by right|]. right. split; [done|]. right. split; [done|].
      pose proof (ff_greatest a) as Hf. by rewrite Ha in Hf.
  - rewrite bool_decide_eq_true. pose proof (plain_no_carry p t.1.2 Hkf) as Hnc.
    destruct (increment_cases p) as [(q & b & m & Hb & ->)|Hp].
    + rewrite increment_carry by done. cbn [fst snd lower_ok upper_ok]. rewrite !by_key_start by done.
      destruct t as [[n k] a]. cbn [fst snd] in *.
      pose proof (increment_between q b m k Hb) as Hbt. rewrite <-carry_extra_iff in Hbt by done.
      set (lo := q ++ b :: _) in *. set (hi := q ++ byte_succ b :: _) in *. split.
      * intros [H1 H2]. assert (ns = n) as <-.
        { destruct H1 as [[H1 Hne]|[-> _]]; [|done]. exfalso. apply H2. by left. }
        destruct H1 as [[_ ?]|[_ H1]]; [done|]. split; [done|].
        destruct (proj1 Hbt) as [|]; [|done..]. split; [done|]. intros ?. apply H2. by right.
      * intros [<- Hpre]. destruct (proj2 Hbt) as [Hlo Hhi]; [by left|]. split; [by right|].
        intros [[_ ?]|[_ ?]]; done.
    + set (m := length p) in *. rewrite Hp in *. clearbody m. rewrite increment_overflow.
      assert (Hup : upper_ok by_key_le (by_key_namespace ns).2 t ↔ upper_ok by_key_le
        (let '(ok, ns_end) := increment_by_one ns in
         if (ok : bool) then Excluded (ns_end, [], zero32) else Unbounded) t).
      { unfold by_key_namespace. by destruct (increment_by_one ns) as [[] ?]. }
      destruct (increment_by_one ns) as [ok ns_end]. cbn [fst snd lower_ok].
      rewrite <-Hup, Hend, by_key_start, <-above_ff by done. split.
      * intros [[[? Hne]|[-> ?]] ?]; [|done]. destruct Hne. by apply (anti_symm bytes_le).
      * intros [-> ?]. split; [by right|done].
Qed.

Lemma by_key_new_valid ns kf :
  length ns = 32 → plain_filter kf → bounds_valid by_key_le (by_key_new ns kf).
Proof.
  intros Hns Hkf. destruct (by_key_new ns kf) as [lo hi] eqn:Hb.
  set (key := match kf with AnyKey => [] | ExactKey k => k | PrefixKey p => p end).
  assert (Hin : in_bounds by_key_le (by_key_new ns kf) (ns, key, zero32)).
  { apply by_key_new_spec; [done|by split|done|]. split; [done|].
    destruct kf; cbn; [done|by apply bool_decide_eq_true|by apply bool_decide_eq_true]. }
  assert (Hlo : lo = Included (ns, key, zero32)).
  { clear Hin. unfold key. destruct kf as [|k|p]; cbn in *; unfold by_key_namespace in Hb; [|(by injection Hb)|].
    - destruct (increment_by_one ns) as [[] ?]; (by injection Hb).
    - destruct (increment_by_one p) as [[] ?], (increment_by_one ns) as [[] ?]; (by injection Hb). }
  destruct Hin as [_ Hup]. rewrite Hb in Hup. rewrite Hlo. destruct hi; cbn in *; [done| |done].
  by apply (not_le_le by_key_le).
Qed.
