(* ===== verification/DocsQuerySpec.v ===== *)
(** * The entries that a query reads

    Which entries the two indexes yield, in which order, and which of them the
    selector of the latest entry per key keeps. *)
From stdpp Require Import base tactics list gmap orders sorting.
From Stdlib Require Import ZArith Lia Strings.Byte.
From S2P Require Import Prelude Bytes Ranger RangerFacts Records DocsBounds.
From S2P Require Import DocsStore DocsStoreFacts DocsQuery DocsQueryFacts.

(** ** Lists *)

Lemma StronglySorted_reverse {A} (R : relation A) l : StronglySorted R l → StronglySorted (flip R) (reverse l).
Proof.
  induction 1 as [|a l Hs IH Ha]; [constructor|]. rewrite reverse_cons. apply StronglySorted_app_2; [|done|].
  - intros x y Hx ->%list_elem_of_singleton. rewrite elem_of_reverse in Hx. unfold flip. rewrite Forall_forall in Ha. by apply Ha.
  - repeat constructor.
Qed.

Lemma StronglySorted_impl_in {A} (R R' : relation A) l :
  (∀ x y, x ∈ l → y ∈ l → R x y → R' x y) → StronglySorted R l → StronglySorted R' l.
Proof.
  intros Himpl. induction 1 as [|a l Hs IH Ha]; [constructor|]. constructor.
  - apply IH. intros x y Hx Hy. apply Himpl; by right.
  - rewrite Forall_forall in *. intros x Hx. apply Himpl; [by left|by right|by apply Ha].
Qed.

Lemma StronglySorted_omap {A B} (R : relation A) (R' : relation B) (f : A → option B) l :
  (∀ x y x' y', R x y → f x = Some x' → f y = Some y' → R' x' y') →
  StronglySorted R l → StronglySorted R' (omap f l).
Proof.
  intros Hf. induction 1 as [|a l Hs IH Ha]; [constructor|]. cbn. destruct (f a) as [b|] eqn:Hb; [|done].
  constructor; [done|]. apply Forall_forall. intros y' (y & Hy & Hfy)%list_elem_of_omap.
  rewrite Forall_forall in Ha. eapply Hf; [by apply Ha|done..].
Qed.

Lemma NoDup_omap {A B} (f : A → option B) l :
  (∀ x y z, x ∈ l → y ∈ l → f x = Some z → f y = Some z → x = y) → NoDup l → NoDup (omap f l).
Proof.
  intros Hinj. induction 1 as [|a l Ha Hl IH]; [constructor|]. cbn.
  assert (NoDup (omap f l)) by (apply IH; intros x y z Hx Hy; apply Hinj; by right).
  destruct (f a) as [b|] eqn:Hb; [|done]. constructor; [|done].
  intros (y & Hy & Hfy)%list_elem_of_omap. apply Ha.
  by rewrite (Hinj a y b); [|left|right|..].
Qed.

Lemma elem_of_in_direction {A} d (l : list A) x : x ∈ in_direction d l ↔ x ∈ l.
Proof. destruct d; cbn; [done|]. apply elem_of_reverse. Qed.

Lemma NoDup_in_direction {A} d (l : list A) : NoDup l → NoDup (in_direction d l).
Proof. destruct d; cbn; [done|]. by rewrite reverse_Permutation. Qed.

Lemma in_direction_fmap {A B} (f : A → B) d l : in_direction d (f <$> l) = f <$> in_direction d l.
Proof. destruct d; cbn; [done|]. by rewrite fmap_reverse. Qed.

(** The order in a direction. *)
Definition directed {A} (d : SortDirection) (R : relation A) : relation A :=
  match d with Asc => R | Desc => flip R end.

Lemma in_direction_sorted {A} d (R : relation A) l :
  StronglySorted R l → StronglySorted (directed d R) (in_direction d l).
Proof. destruct d; cbn; [done|]. apply StronglySorted_reverse. Qed.

(** ** The latest entry of each key *)

Lemma select_sub held l e : e ∈ select held l → e ∈ option_list held ++ l.
Proof.
  revert held. induction l as [|x l IH]; intros held; cbn; [by rewrite app_nil_r|].
  destruct held as [last|]; cbn.
  - case_bool_decide as Hk.
    + intros He%IH. cbn in He. destruct (_ <? _)%N; set_solver.
    + intros [->|He%IH]%elem_of_cons; [by left|]. cbn in He. right. done.
  - intros He%IH. done.
Qed.

Lemma select_latest held l x :
  x ∈ option_list held ++ l →
  ∃ e, e ∈ select held l ∧ se_key e = se_key x ∧ (se_timestamp x <= se_timestamp e)%N.
Proof.
  revert held x. induction l as [|y l IH]; intros held x; cbn.
  { rewrite app_nil_r. intros Hx. exists x. done. }
  destruct held as [last|]; cbn.
  - intros Hx. case_bool_decide as Hk.
    + destruct (N.ltb_spec (se_timestamp last) (se_timestamp y)).
      * apply elem_of_cons in Hx as [->|Hx].
        -- destruct (IH (Some y) y) as (e & He & Hke & Hte); [by left|]. exists e.
           split_and!; [done|congruence|lia].
        -- by apply (IH (Some y)).
      * apply elem_of_cons in Hx as [->|[->|Hx]%elem_of_cons].
        -- apply (IH (Some last)). by left.
        -- destruct (IH (Some last) last) as (e & He & Hke & Hte); [by left|]. exists e.
           split_and!; [done|congruence|lia].
        -- apply (IH (Some last)). by right.
    + apply elem_of_cons in Hx as [->|Hx]; [exists last; split_and!; [by left|done..]|].
      destruct (IH (Some y) x) as (e & He & ?); [done|]. exists e. split; [by right|done].
  - intros Hx. by apply (IH (Some y)).
Qed.

Section Select.
  Context (Rk : relation (list byte)) `{!Transitive Rk} `{!AntiSymm (=) Rk}.

Definition keys_le (e1 e2 : SignedEntry) : Prop := Rk (se_key e1) (se_key e2).
Definition keys_lt (e1 e2 : SignedEntry) : Prop := Rk (se_key e1) (se_key e2) ∧ se_key e1 ≠ se_key e2.

Lemma select_sorted held l :
  StronglySorted keys_le (option_list held ++ l) → StronglySorted keys_lt (select held l).
Proof.
  revert held. induction l as [|y l IH]; intros held; cbn.
  { rewrite app_nil_r. destruct held; repeat constructor. }
  destruct held as [last|]; cbn; [|apply (IH (Some y))].
  intros Hs. apply StronglySorted_cons in Hs as [Hlast Hs]. case_bool_decide as Hk.
  - apply IH. cbn. apply StronglySorted_cons in Hs as [Hy Hs]. constructor; [done|].
    destruct (_ <? _)%N; [done|]. eapply Forall_impl; [exact Hy|]. intros z. unfold keys_le. by rewrite Hk.
  - constructor; [by apply IH|]. apply Forall_forall. intros z Hz%select_sub.
    rewrite Forall_forall in Hlast. split; [by apply Hlast|]. intros Heq.
    apply elem_of_cons in Hz as [->|Hz]; [done|]. apply Hk.
    apply (anti_symm Rk); [apply Hlast; by left|]. rewrite Heq.
    apply StronglySorted_cons in Hs as [Hy _]. rewrite Forall_forall in Hy. by apply Hy.
Qed.

End Select.

(** ** Queries on tables that keep their contract *)

Section Tables.
  Context {TR TK DbErr : Type}
    `{HTR : !Table TR DbErr RecordsId RecordsValue} `{HTK : !Table TK DbErr RecordsByKeyId ()}
    `{LR : !TableLaws TR DbErr RecordsId RecordsValue records_id_le}
    `{LK : !TableLaws TK DbErr RecordsByKeyId () by_key_le}.

Definition se_author (e : SignedEntry) : AuthorId := default [] (id_author (se_id e)).

(** The entries of a document. *)
Definition stored (ns : NamespaceId) (tr : TR) (e : SignedEntry) : Prop :=
  ∃ a k v, t_content tr !! (ns, a, k) = Some v ∧ e = into_entry (ns, a, k) v.

(** Namespaces and authors are 32 bytes long, and the index has every record. *)
Definition tables_ok (ns : NamespaceId) (tr : TR) (tk : TK) : Prop :=
  length ns = 32 ∧ ids_wf (t_content tr) ∧
  (∀ k, is_Some (t_content tk !! k) → by_key_wf k) ∧
  (∀ n a k, is_Some (t_content tr !! (n, a, k)) → is_Some (t_content tk !! (n, k, a))).

(** The entries that a query asks for. *)
Definition asked (q : Query) (e : SignedEntry) : Prop :=
  author_matches (filter_author q) (se_author e) = true ∧
  key_matches (filter_key q) (se_key e) = true.

(** The page of the results. *)
Definition page (q : Query) (l : list SignedEntry) : list SignedEntry :=
  up_to_limit q 0 (after_offset q 0 l).

Lemma entry_author (id : RecordsId) v : id_wf id → se_author (into_entry id v) = id.1.2.
Proof. intros Hwf. unfold se_author. rewrite into_entry_id. by destruct (flat_parts id Hwf) as (_ & -> & _). Qed.

Lemma entry_key (id : RecordsId) v : id_wf id → se_key (into_entry id v) = id.2.
Proof. intros Hwf. unfold se_key. rewrite into_entry_id. by destruct (flat_parts id Hwf) as (_ & _ & ->). Qed.

Lemma stored_wf ns tr tk n a k v :
  tables_ok ns tr tk → t_content tr !! (n, a, k) = Some v → id_wf (n, a, k).
Proof. intros (_ & Hwf & _) Hk. by eapply Hwf. Qed.

(** The items of the records that a flat query reads, in its direction. *)
Definition record_items (q : Query) (ns : NamespaceId) (tr : TR) : list (RecordsId * RecordsValue) :=
  in_direction (sort_direction q) (filter (λ kv, in_bounds records_id_le
    (match filter_author q with
     | ExactAuthor a => author_key ns a (filter_key q)
     | AnyAuthor => namespace_bounds ns
     end) kv.1) (table_items records_id_le (t_content tr))).

Definition key_items (q : Query) (ns : NamespaceId) (tk : TK) : list RecordsByKeyId :=
  in_direction (sort_direction q) (filter (λ kv, in_bounds by_key_le (by_key_new ns (filter_key q)) kv.1)
    (table_items by_key_le (t_content tk))).*1.

Definition author_wf (f : AuthorFilter) : Prop :=
  match f with ExactAuthor a => length a = 32 | AnyAuthor => True end.

Lemma get_many_records q ns tr tk sb :
  tables_ok ns tr tk → author_wf (filter_author q) →
  kind q = Flat sb → (filter_author q ≠ AnyAuthor ∨ sb = AuthorKey) →
  get_many (DbErr:=DbErr) tr tk ns q = Ok (page q (omap (row_entry q
    (match filter_author q with ExactAuthor _ => AnyKey | AnyAuthor => filter_key q end))
    (record_items q ns tr))).
Proof.
  intros (Hns & _) Ha Hk Hsb. unfold get_many, query_new, index_kind. rewrite Hk.
  assert (Hgo : ∀ b kf, bounds_valid records_id_le b →
    (it ← (range ← (items ← t_range b tr;
       Ok (RangeAuthorKey (TR:=TR) (DbErr:=DbErr) (in_direction (sort_direction q) items) kf));
       Ok (mkQueryIterator range q 0 0)); query_collect (range_fuel (qi_range it)) it) =
    Ok (page q (omap (row_entry q kf) (in_direction (sort_direction q)
      (filter (λ kv, in_bounds records_id_le b kv.1) (table_items records_id_le (t_content tr))))))).
  { intros b kf Hb. rewrite law_t_range by done. cbn [mbind result_bind]. rewrite in_direction_fmap.
    pose proof (streams_records (TR:=TR) (DbErr:=DbErr) q (in_direction (sort_direction q)
      (filter (λ kv, in_bounds records_id_le b kv.1) (table_items records_id_le (t_content tr)))) kf) as Hst.
    exact (query_collect_spec q _ _ _ _ 0 0 Hst (streams_fuel _ _ _ _ Hst)). }
  unfold record_items. destruct (filter_author q) as [|a].
  - destruct sb; [by destruct Hsb|]. apply Hgo. by apply namespace_bounds_valid.
  - destruct sb; apply Hgo; by apply author_key_valid.
Qed.

Lemma get_many_index q ns tr tk selector :
  tables_ok ns tr tk → plain_filter (filter_key q) →
  (kind q = Flat KeyAuthor ∧ filter_author q = AnyAuthor ∧ selector = None) ∨
  (kind q = SingleLatestPerKey ∧ selector = Some None) →
  get_many (DbErr:=DbErr) tr tk ns q =
    Ok (page q (index_stream q tr (filter_author q) selector (key_items q ns tk))).
Proof.
  intros (Hns & _) Hkf Hsel. unfold get_many, query_new.
  assert (Hidx : index_kind q = IndexKeyAuthor (filter_key q) (filter_author q)
    (match selector with Some _ => true | None => false end)).
  { unfold index_kind. by destruct Hsel as [(-> & -> & ->)|(-> & ->)]. }
  rewrite Hidx, law_t_range by (by apply by_key_new_valid). cbn [mbind result_bind]. rewrite in_direction_fmap.
  unfold key_items. set (l := in_direction _ (filter _ _)).
  assert (Hs : (if match selector with Some _ => true | None => false end then Some None else None) = selector)
    by (by destruct Hsel as [(_ & _ & ->)|(_ & ->)]).
  rewrite Hs. rewrite (in_direction_fmap fst). fold l.
  assert (Hl : (Ok <$> l : list (result DbErr (RecordsByKeyId * ()))) = ok_items l.*1).
  { unfold ok_items. rewrite <-list_fmap_compose. apply list_fmap_ext. by intros i [k []]. }
  rewrite Hl. pose proof (streams_index (TR:=TR) (DbErr:=DbErr) q tr l.*1 (filter_author q) selector) as Hst.
  exact (query_collect_spec q _ _ _ _ 0 0 Hst (streams_fuel _ _ _ _ Hst)).
Qed.

(** ** The items that are read *)

Lemma elem_of_key_items q ns tr tk k :
  tables_ok ns tr tk → plain_filter (filter_key q) →
  k ∈ key_items q ns tk ↔
    is_Some (t_content tk !! k) ∧ k.1.1 = ns ∧ key_matches (filter_key q) k.1.2 = true.
Proof.
  intros (Hns & _ & Hwf & _) Hkf. unfold key_items. rewrite elem_of_in_direction, list_elem_of_fmap. split.
  - intros ([k' []] & -> & [Hb Hin]%list_elem_of_filter). apply elem_of_table_items in Hin.
    cbn. apply by_key_new_spec in Hb; [split; [done|exact Hb]|done|by apply Hwf|done].
  - intros ([[] Hk] & Hns' & Hm). exists (k, ()). split; [done|]. apply list_elem_of_filter.
    split; [|by apply elem_of_table_items]. apply by_key_new_spec; [done|by apply Hwf|done..].
Qed.

Lemma key_items_sorted q ns tk : StronglySorted (directed (sort_direction q) by_key_le) (key_items q ns tk).
Proof.
  unfold key_items. apply in_direction_sorted. set (l := filter _ _).
  assert (Hs : StronglySorted (item_le by_key_le) l) by (apply StronglySorted_filter, table_items_sorted; apply _).
  clearbody l. induction Hs as [|[k v] l Hs IH Hk]; [constructor|]. cbn. constructor; [done|].
  apply Forall_fmap. eapply Forall_impl; [exact Hk|]. done.
Qed.

Lemma key_items_NoDup q ns tk : NoDup (key_items q ns tk).
Proof.
  unfold key_items. apply NoDup_in_direction. eapply sublist_NoDup; [apply (NoDup_table_items by_key_le (t_content tk))|].
  apply fmap_sublist, sublist_filter.
Qed.

(** The entries of the index. *)
Lemma elem_of_index_entries q ns tr tk e :
  tables_ok ns tr tk → plain_filter (filter_key q) →
  e ∈ omap (index_entry tr (filter_author q)) (key_items q ns tk) ↔ stored ns tr e ∧ asked q e.
Proof.
  intros Hok Hkf. rewrite list_elem_of_omap. pose proof Hok as (_ & Hwf & _ & Hidx). split.
  - intros ([[n k] a] & Hin & He). apply (elem_of_key_items _ _ tr) in Hin as (_ & Hn & Hm); [|done..].
    cbn in Hn, Hm. subst n. unfold index_entry in He. cbn [fst snd] in He.
    destruct (author_matches _ a) eqn:Ha; [|done].
    destruct (t_content tr !! (ns, a, k)) as [v|] eqn:Hv; [|done]. apply (inj Some) in He as <-.
    split; [by exists a, k, v|]. unfold asked. by rewrite entry_author, entry_key by (by eapply Hwf).
  - intros [(a & k & v & Hv & ->) [Ha Hm]]. rewrite entry_author in Ha by (by eapply Hwf).
    rewrite entry_key in Hm by (by eapply Hwf). cbn [fst snd] in Ha, Hm.
    exists (ns, k, a). split.
    + apply (elem_of_key_items _ _ tr); [done..|]. split; [apply Hidx; by eexists|done].
    + unfold index_entry. cbn [fst snd]. by rewrite Ha, Hv.
Qed.


(** The order of the results. *)
Definition order_by (sb : SortBy) (e1 e2 : SignedEntry) : Prop :=
  match sb with
  | AuthorKey => lex_le bytes_le bytes_le (se_author e1, se_key e1) (se_author e2, se_key e2)
  | KeyAuthor => lex_le bytes_le bytes_le (se_key e1, se_author e1) (se_key e2, se_author e2)
  end.

Lemma index_entry_parts ns tr tk af k e :
  tables_ok ns tr tk → index_entry tr af k = Some e →
  se_key e = k.1.2 ∧ se_author e = k.2 ∧ t_content tr !! (k.1.1, k.2, k.1.2) ≠ None.
Proof.
  intros Hok. destruct k as [[n k] a]. unfold index_entry. cbn [fst snd]. destruct (author_matches af a); [|done].
  destruct (t_content tr !! (n, a, k)) as [v|] eqn:Hv; [|done]. intros <-%(inj Some).
  by rewrite entry_author, entry_key by (by eapply stored_wf).
Qed.

(** One namespace: the order of the index is that of key and author. *)
Lemma index_sorted q ns tr tk :
  tables_ok ns tr tk → plain_filter (filter_key q) →
  StronglySorted (directed (sort_direction q) (order_by KeyAuthor))
    (omap (index_entry tr (filter_author q)) (key_items q ns tk)).
Proof.
  intros Hok Hkf. apply StronglySorted_omap with (R := λ k k',
    directed (sort_direction q) by_key_le k k' ∧ k.1.1 = ns ∧ k'.1.1 = ns).
  - intros [[n k] a] [[n' k'] a'] x y (Hle & Hn & Hn') Hx Hy. cbn in Hn, Hn'. subst n n'.
    apply (index_entry_parts ns tr tk) in Hx as (Hkx & Hax & _), Hy as (Hky & Hay & _); [|done..].
    cbn in *. unfold directed, flip in *. destruct (sort_direction q); cbn; rewrite Hkx, Hky, Hax, Hay;
      unfold by_key_le in Hle; change (lex_le (lex_le bytes_le bytes_le) bytes_le) with records_id_le in Hle;
      apply id_le_unfold in Hle as [[_ ?]|[_ Hle]]; try done; exact Hle.
  - eapply StronglySorted_impl_in; [|apply key_items_sorted].
    intros k k' Hk Hk' Hle. apply (elem_of_key_items _ _ tr) in Hk as (_ & Hn & _), Hk' as (_ & Hn' & _); done.
Qed.

Lemma index_NoDup q ns tr tk :
  tables_ok ns tr tk → plain_filter (filter_key q) →
  NoDup (omap (index_entry tr (filter_author q)) (key_items q ns tk)).
Proof.
  intros Hok Hkf. apply NoDup_omap; [|apply key_items_NoDup].
  intros [[n k] a] [[n' k'] a'] e Hk Hk' He He'.
  apply (elem_of_key_items _ _ tr) in Hk as (_ & Hn & _), Hk' as (_ & Hn' & _); [|done..].
  apply (index_entry_parts ns tr tk) in He as (H1 & H2 & _), He' as (H3 & H4 & _); [|done..].
  cbn in *. congruence.
Qed.

(** The key filter that is left to apply to the items. *)
Definition item_filter (q : Query) : KeyFilter :=
  match filter_author q with ExactAuthor _ => AnyKey | AnyAuthor => filter_key q end.

Lemma elem_of_record_items q ns tr tk k v :
  tables_ok ns tr tk → plain_filter (filter_key q) → author_wf (filter_author q) →
  (k, v) ∈ record_items q ns tr ∧ key_matches (item_filter q) k.2 = true ↔
    t_content tr !! k = Some v ∧ k.1.1 = ns ∧ author_matches (filter_author q) k.1.2 = true ∧
    key_matches (filter_key q) k.2 = true.
Proof.
  intros (Hns & Hwf & _) Hkf Haf. unfold record_items, item_filter.
  rewrite elem_of_in_direction, list_elem_of_filter, elem_of_table_items.
  assert (Hid : t_content tr !! k = Some v → id_wf k) by (intros; by eapply Hwf).
  destruct (filter_author q) as [|a]; cbn [author_matches key_matches author_wf] in *.
  - split.
    + intros [[Hb Hk] Hm]. apply namespace_bounds_spec in Hb; auto.
    + intros (Hk & Hn & _ & Hm). split; [split; [apply namespace_bounds_spec; auto|done]|done].
  - rewrite bool_decide_eq_true. split.
    + intros [[Hb Hk] _]. apply author_key_spec in Hb as [Hb Hm]; [|auto..]. destruct k as [[n a2] k]. cbn in *. by simplify_eq.
    + intros (Hk & Hn & Ha & Hm). split; [|done]. split; [|done]. apply author_key_spec; [auto..|].
      split; [|done]. destruct k as [[??]?]. cbn in *. by subst.
Qed.

Lemma row_entry_Some q kf k v e :
  row_entry q kf (k, v) = Some e ↔ key_matches kf k.2 = true ∧ wanted q e = true ∧ e = into_entry k v.
Proof.
  unfold row_entry. cbn [fst snd]. destruct (key_matches kf k.2); cbn [andb]; [|split; [done|by intros [? _]]].
  destruct (wanted q (into_entry k v)) eqn:Hw.
  - split; [by intros <-%(inj Some)|by intros (_ & _ & ->)].
  - split; [done|]. intros (_ & Hw' & ->). congruence.
Qed.

Lemma elem_of_records q ns tr tk e :
  tables_ok ns tr tk → plain_filter (filter_key q) → author_wf (filter_author q) →
  e ∈ omap (row_entry q (item_filter q)) (record_items q ns tr) ↔
    stored ns tr e ∧ asked q e ∧ wanted q e = true.
Proof.
  intros Hok Hkf Haf. rewrite list_elem_of_omap. pose proof Hok as (_ & Hwf & _). split.
  - intros ([k v] & Hin & (Hm & Hw & ->)%row_entry_Some).
    destruct (proj1 (elem_of_record_items q ns tr tk k v Hok Hkf Haf) (conj Hin Hm)) as (Hk & Hn & Ha & Hm').
    unfold asked. rewrite entry_author, entry_key by (by eapply Hwf). split; [|done].
    destruct k as [[n a] k]. cbn in Hn. subst n. by exists a, k, v.
  - intros ((a & k & v & Hv & ->) & [Ha Hm] & Hw). rewrite entry_author in Ha by (by eapply Hwf).
    rewrite entry_key in Hm by (by eapply Hwf).
    destruct (proj2 (elem_of_record_items q ns tr tk (ns, a, k) v Hok Hkf Haf)) as [Hin Hi]; [done|].
    exists ((ns, a, k), v). split; [done|]. by apply row_entry_Some.
Qed.

Lemma record_items_sorted q ns tr :
  StronglySorted (directed (sort_direction q) (item_le records_id_le)) (record_items q ns tr).
Proof. apply in_direction_sorted, StronglySorted_filter, table_items_sorted. apply _. Qed.

Lemma records_sorted q ns tr tk :
  tables_ok ns tr tk → plain_filter (filter_key q) → author_wf (filter_author q) →
  StronglySorted (directed (sort_direction q) (order_by AuthorKey))
    (omap (row_entry q (item_filter q)) (record_items q ns tr)).
Proof.
  intros Hok Hkf Haf. pose proof Hok as (_ & Hwf & _).
  apply StronglySorted_omap with (R := λ x y, directed (sort_direction q) (item_le records_id_le) x y ∧
    x ∈ record_items q ns tr ∧ y ∈ record_items q ns tr).
  - intros [[[n a] k] v] [[[n' a'] k'] v'] x y (Hle & Hx & Hy) (Hmx & _ & ->)%row_entry_Some (Hmy & _ & ->)%row_entry_Some.
    destruct (proj1 (elem_of_record_items q ns tr tk _ _ Hok Hkf Haf) (conj Hx Hmx)) as (Hkx & Hnx & _).
    destruct (proj1 (elem_of_record_items q ns tr tk _ _ Hok Hkf Haf) (conj Hy Hmy)) as (Hky & Hny & _).
    cbn in Hnx, Hny. subst n n'. unfold directed, flip, item_le in *.
    destruct (sort_direction q); cbn [order_by]; rewrite !entry_author, !entry_key by (by eapply Hwf); cbn in *;
      apply id_le_unfold in Hle as [[_ ?]|[_ Hle]]; try done; exact Hle.
  - eapply StronglySorted_impl_in; [|apply record_items_sorted]. done.
Qed.

Lemma records_NoDup q ns tr tk :
  tables_ok ns tr tk → plain_filter (filter_key q) → author_wf (filter_author q) →
  NoDup (omap (row_entry q (item_filter q)) (record_items q ns tr)).
Proof.
  intros Hok Hkf Haf. pose proof Hok as (_ & Hwf & _). apply NoDup_omap.
  - intros [k v] [k' v'] e Hx Hy (Hmx & _ & Hex)%row_entry_Some (Hmy & _ & Hey)%row_entry_Some.
    destruct (proj1 (elem_of_record_items q ns tr tk _ _ Hok Hkf Haf) (conj Hx Hmx)) as (Hkx & _).
    destruct (proj1 (elem_of_record_items q ns tr tk _ _ Hok Hkf Haf) (conj Hy Hmy)) as (Hky & _).
    assert (Hid : flat k = flat k') by (by rewrite <-(into_entry_id k v), <-(into_entry_id k' v'), <-Hex, <-Hey).
    apply flat_inj in Hid as ->; [|by eapply Hwf..]. f_equal. congruence.
  - apply NoDup_in_direction, NoDup_filter. eapply NoDup_fmap_1, (NoDup_table_items records_id_le).
Qed.

End Tables.
