(* ===== verification/DocsQueryProps.v ===== *)
(** * Properties of queries *)
From stdpp Require Import base tactics list gmap orders sorting.
From Stdlib Require Import ZArith Lia Strings.Byte.
From S2P Require Import Prelude Bytes Ranger RangerFacts Records DocsBounds.
From S2P Require Import DocsStore DocsStoreFacts DocsQuery DocsQueryFacts DocsQuerySpec.

Section Props.
  Context {TR TK DbErr : Type}
    `{HTR : !Table TR DbErr RecordsId RecordsValue} `{HTK : !Table TK DbErr RecordsByKeyId ()}
    `{LR : !TableLaws TR DbErr RecordsId RecordsValue records_id_le}
    `{LK : !TableLaws TK DbErr RecordsByKeyId () by_key_le}.

(** The results of one author are in the order of the keys, whichever order was
    asked for. *)
Lemma one_author_order d sb a e1 e2 :
  se_author e1 = a → se_author e2 = a →
  directed d (order_by AuthorKey) e1 e2 → directed d (order_by sb) e1 e2.
Proof.
  intros H1 H2. destruct sb; [|done].
  assert (Ho : ∀ x y, se_author x = a → se_author y = a → order_by AuthorKey x y → order_by KeyAuthor x y).
  { intros x y Hx Hy. unfold order_by, lex_le. cbn. rewrite Hx, Hy. intros [[_ ?]|[_ Hle]]; [done|].
    destruct (decide (se_key x = se_key y)); [right|by left]. done. }
  destruct d; [by apply Ho|by apply (Ho e2 e1)].
Qed.



(** The author filter of such a query is applied before the latest entry of a
    key is chosen: filtered by an author, it returns the entry of that author at
    every key, also where another author has a newer one. *)
Theorem query_latest_filters_author_first q a ns (tr : TR) (tk : TK) :
  kind q = SingleLatestPerKey → filter_author q = ExactAuthor a → q_limit q = None → q_offset q = 0%N →
  tables_ok ns tr tk → plain_filter (filter_key q) →
  ∃ results, get_many (DbErr:=DbErr) tr tk ns q = Ok results ∧
    ∀ e, e ∈ results ↔ stored ns tr e ∧ asked q e ∧ wanted q e = true.
Proof.
  intros Hk Hf Hl Ho Hok Hkf.
  rewrite (get_many_index q ns tr tk (Some None)) by auto. eexists. split; [done|]. intros e.
  unfold page, up_to_limit, after_offset, index_stream. rewrite Hl, Ho. change (N.to_nat (0 - 0)) with 0.
  rewrite drop_0. cbn [selected_by].
  rewrite list_elem_of_filter. set (l := omap _ _).
  assert (Hel : ∀ x, x ∈ l ↔ stored ns tr x ∧ asked q x) by (intros x; by apply elem_of_index_entries).
  assert (Hone : ∀ x y, x ∈ l → y ∈ l → se_key x = se_key y → x = y).
  { intros x y [(b & k & v & Hx & ->) [Hax _]]%Hel [(b' & k' & v' & Hy & ->) [Hay _]]%Hel.
    destruct Hok as (_ & Hwf & _). rewrite entry_author in Hax, Hay by (by eapply Hwf).
    rewrite !entry_key by (by eapply Hwf). rewrite Hf in Hax, Hay. cbn in *.
    apply bool_decide_eq_true in Hax, Hay. intros ->. subst b b'. congruence. }
  split.
  - intros [Hw He%(select_sub None)]. apply Hel in He as [??]. done.
  - intros (Hst & Ha & Hw). split; [done|].
    destruct (select_latest None l e) as (x & Hx & Hkx & _); [by apply Hel|].
    rewrite (Hone e x); [done|by apply Hel|by apply select_sub in Hx|done].
Qed.

End Props.

(** ** Examples *)

Definition ex_ns : NamespaceId := replicate 32 x07.
Definition ex_alice : AuthorId := replicate 32 x01.
Definition ex_bob : AuthorId := replicate 32 x02.

(** Two authors with an entry at one key, of which the second is newer. *)
Definition ex_records : gmap RecordsId RecordsValue :=
  {[ (ex_ns, ex_alice, [x05]) := mkRecordsValue 1 [] [] 1 [x00];
     (ex_ns, ex_bob, [x05]) := mkRecordsValue 2 [] [] 1 [x00] ]}.

Definition ex_index : gmap RecordsByKeyId () :=
  {[ (ex_ns, [x05], ex_alice) := (); (ex_ns, [x05], ex_bob) := () ]}.

Lemma ex_records_keys k : is_Some (ex_records !! k) → k = (ex_ns, ex_alice, [x05]) ∨ k = (ex_ns, ex_bob, [x05]).
Proof. unfold ex_records, ex_index. intros [v [[<- _]|[_ [<- _]%lookup_singleton_Some]]%lookup_insert_Some]; auto. Qed.

Lemma ex_index_keys k : is_Some (ex_index !! k) → k = (ex_ns, [x05], ex_alice) ∨ k = (ex_ns, [x05], ex_bob).
Proof. unfold ex_records, ex_index. intros [v [[<- _]|[_ [<- _]%lookup_singleton_Some]]%lookup_insert_Some]; auto. Qed.

Lemma ex_tables_ok : tables_ok (DbErr:=()) ex_ns ex_records ex_index.
Proof.
  split; [reflexivity|]. split; [|split].
  - intros k v Hk. destruct (ex_records_keys k) as [-> | ->]; [by exists v|split; reflexivity..].
  - intros k [-> | ->]%ex_index_keys; split; reflexivity.
  - intros n a k [[= -> -> ->]|[= -> -> ->]]%ex_records_keys; exists (); vm_compute; reflexivity.
Qed.

Definition ex_flat : Query := mkQuery (Flat AuthorKey) AnyAuthor (PrefixKey [x05]) None 0 true Desc.
Definition ex_latest : Query := mkQuery SingleLatestPerKey AnyAuthor AnyKey None 0 false Asc.
Definition ex_of_alice : Query := mkQuery SingleLatestPerKey (ExactAuthor ex_alice) AnyKey None 0 false Asc.



Lemma query_latest_filters_author_first_witness :
  ∃ results, get_many ex_records ex_index ex_ns ex_of_alice = Ok results ∧
    ∀ e, e ∈ results ↔ stored ex_ns ex_records e ∧ asked ex_of_alice e ∧ wanted ex_of_alice e = true.
Proof.
  apply (query_latest_filters_author_first ex_of_alice ex_alice ex_ns ex_records ex_index);
    [reflexivity..|exact ex_tables_ok|exact I].
Defined.
