(* ===== verification/DocsHeads.v ===== *)
(** * Author heads (protocols/krikos-docs/src/heads.rs)

    The timestamp of the latest entry of each author, with the encoding that is
    gossiped after a synchronisation. The bytes are those of postcard: a class. *)
From stdpp Require Import base tactics list gmap sorting strings.
From Stdlib Require Import ZArith Lia Strings.Byte.
From S2P Require Import Prelude Bytes ExampleWire Ranger Records.

Local Open Scope N_scope.

Record AuthorHeads : Type := mkAuthorHeads { heads : gmap AuthorId N }.

Definition heads_default : AuthorHeads := mkAuthorHeads ∅.

Definition heads_insert (author : AuthorId) (timestamp : N) (h : AuthorHeads) : AuthorHeads :=
  mkAuthorHeads (<[author := match heads h !! author with
                             | Some t => t `max` timestamp
                             | None => timestamp
                             end]> (heads h)).

Definition heads_len (h : AuthorHeads) : N := ssize (heads h).
Definition heads_is_empty (h : AuthorHeads) : bool := bool_decide (heads h = ∅).
Definition heads_get (h : AuthorHeads) (author : AuthorId) : option N := heads h !! author.

(** In the order of the authors. *)
Definition author_le (p q : AuthorId * N) : Prop := bytes_le p.1 q.1.

#[global] Instance author_le_dec : RelDecision author_le.
Proof. intros p q. unfold author_le. apply _. Defined.

Definition heads_iter (h : AuthorHeads) : list (AuthorId * N) :=
  merge_sort author_le (map_to_list (heads h)).

(** Whether the other state lacks the author or has an older entry of it. *)
Definition is_news (other : AuthorHeads) (head : AuthorId * N) : bool :=
  match heads_get other head.1 with
  | Some ts_theirs => ts_theirs <? head.2
  | None => true
  end.

(** [NonZeroU64::new] of the number of updates. *)
Definition has_news_for (h other : AuthorHeads) : option N :=
  let updates := len (filter (λ head, is_news other head = true) (heads_iter h)) in
  if updates =? 0 then None else Some updates.

Definition heads_merge (h other : AuthorHeads) : AuthorHeads :=
  foldl (λ h '(a, t), heads_insert a t h) h (heads_iter other).

(** ** Encoding *)

Inductive HeadsError : Type :=
| HeadsPostcard
| HeadsLimit (e : LimitError).

Section Encoding.
  Context `{!WireFormat (list (N * AuthorId))}.

(** [postcard::experimental::serialized_size], and [postcard::from_bytes], which
    does not look at what follows the value. *)
Definition serialized_size (items : list (N * AuthorId)) : option N := len <$> to_stdvec items.
Definition from_bytes (bytes : list byte) : option (list (N * AuthorId)) := fst <$> take_from_bytes bytes.

(** [by_timestamp]: the map from timestamps to authors. *)
Definition by_timestamp (h : AuthorHeads) : gmap N AuthorId :=
  foldl (λ m '(author, ts), <[ts := author]> m) ∅ (heads_iter h).

Definition ts_ge (p q : N * AuthorId) : Prop := q.1 ≤ p.1.

#[global] Instance ts_ge_dec : RelDecision ts_ge.
Proof. intros p q. unfold ts_ge. apply _. Defined.

(** [by_timestamp.into_iter().rev()]. *)
Definition newest_first (m : gmap N AuthorId) : list (N * AuthorId) :=
  merge_sort ts_ge (map_to_list m).

(** The loop that pushes items while they fit. *)
Fixpoint push_while_fits (size_limit : option N) (todo items : list (N * AuthorId))
    : result HeadsError (list (N * AuthorId)) :=
  match todo with
  | [] => Ok items
  | item :: todo =>
      let pushed := items ++ [item] in
      match size_limit with
      | None => push_while_fits size_limit todo pushed
      | Some limit =>
          match serialized_size pushed with
          | None => Err HeadsPostcard
          | Some size =>
              if limit <? size then Ok items else push_while_fits (Some limit) todo pushed
          end
      end
  end.

Definition heads_encode (h : AuthorHeads) (size_limit : option N) : result HeadsError (list byte) :=
  items ← push_while_fits size_limit (newest_first (by_timestamp h)) [];
  match to_stdvec items with
  | Some encoded => Ok encoded
  | None => Err HeadsPostcard
  end.

Definition heads_decode (bytes : list byte) : result HeadsError AuthorHeads :=
  match from_bytes bytes with
  | None => Err HeadsPostcard
  | Some items =>
      if MAX_ENTRIES_PER_SYNC_MESSAGE <? len items
      then Err (HeadsLimit (mkLimitError "author heads" (len items) MAX_ENTRIES_PER_SYNC_MESSAGE))
      else Ok (foldl (λ h '(ts, author), heads_insert author ts h) heads_default items)
  end.

End Encoding.

(** ** Facts *)

#[global] Instance author_le_trans : Transitive author_le.
Proof. intros p q r. unfold author_le. apply transitivity. Qed.

#[global] Instance author_le_total : Total author_le.
Proof. intros p q. unfold author_le. apply (total bytes_le). Qed.

#[global] Instance ts_ge_trans : Transitive ts_ge.
Proof. intros p q r. unfold ts_ge. lia. Qed.

#[global] Instance ts_ge_total : Total ts_ge.
Proof. intros p q. unfold ts_ge. lia. Qed.

Lemma elem_of_heads_iter h a t : (a, t) ∈ heads_iter h ↔ heads h !! a = Some t.
Proof. unfold heads_iter. by rewrite merge_sort_Permutation, elem_of_map_to_list. Qed.

Lemma heads_iter_sorted h : StronglySorted author_le (heads_iter h).
Proof. apply StronglySorted_merge_sort; apply _. Qed.

Lemma heads_iter_NoDup h : NoDup (heads_iter h).*1.
Proof. unfold heads_iter. rewrite merge_sort_Permutation. apply NoDup_fst_map_to_list. Qed.

Lemma heads_insert_lookup a t h b :
  heads (heads_insert a t h) !! b =
    if decide (a = b) then Some (default t ((λ t', t' `max` t) <$> heads h !! a)) else heads h !! b.
Proof.
  unfold heads_insert. cbn. case_decide as Hab; [subst b|by rewrite lookup_insert_ne].
  rewrite lookup_insert_eq. by destruct (heads h !! a).
Qed.

(** The state after a list of insertions: the greatest timestamp of each author. *)
Lemma heads_fold l h a t :
  heads (foldl (λ h '(a, t), heads_insert a t h) h l) !! a = Some t ↔
  (heads h !! a = Some t ∨ (a, t) ∈ l) ∧
  (∀ t', heads h !! a = Some t' ∨ (a, t') ∈ l → t' ≤ t).
Proof.
  revert h. induction l as [|[b u] l IH]; intros h; cbn.
  - split; [intros Ha; split; [by left|intros t' [?|?%not_elem_of_nil]; [|done]; simplify_eq; done]|].
    intros [[?|?%not_elem_of_nil] _]; done.
  - rewrite IH, heads_insert_lookup. setoid_rewrite elem_of_cons. case_decide as Hb.
    + subst b. destruct (heads h !! a) as [v|] eqn:Hv; cbn.
      * split.
        -- intros [Hin Hmax]. pose proof (Hmax (v `max` u) (or_introl eq_refl)). split.
           ++ destruct Hin as [[= <-]|]; [|by right; right].
              destruct (N.max_spec v u) as [[_ ->]|[_ ->]]; [by right; left|by left].
           ++ intros t' [[= <-]|[[= <-]|Hin']]; [lia|lia|apply Hmax; by right].
        -- intros [Hin Hmax]. assert (v `max` u ≤ t)
             by (pose proof (Hmax v (or_introl eq_refl));
                 pose proof (Hmax u (or_intror (or_introl eq_refl))); lia). split.
           ++ destruct Hin as [[= <-]|[[= <-]|]]; [left; f_equal; lia|left; f_equal; lia|by right].
           ++ intros t' [[= <-]|Hin']; [done|apply Hmax; by right; right].
      * split.
        -- intros [Hin Hmax]. split; [destruct Hin as [[= <-]|]; [by right; left|by right; right]|].
           intros t' [?|[[= <-]|Hin']]; [done|apply Hmax; by left|apply Hmax; by right].
        -- intros [Hin Hmax]. split; [destruct Hin as [?|[[= <-]|]]; [done|by left|by right]|].
           intros t' [[= <-]|Hin']; [apply Hmax; by right; left|apply Hmax; by right; right].
    + split; intros [Hin Hmax]; (split; [|intros t' Ht'; apply Hmax]); naive_solver.
Qed.

Lemma heads_merge_lookup h other a :
  heads (heads_merge h other) !! a = union_with (λ t t', Some (t `max` t')) (heads h !! a) (heads other !! a).
Proof.
  apply option_eq. intros t. unfold heads_merge. rewrite heads_fold. setoid_rewrite elem_of_heads_iter.
  destruct (heads h !! a) as [u|], (heads other !! a) as [v|]; cbn.
  - split; [intros [[[= ->]|[= ->]] Hmax]|intros [= <-]; split; [destruct (N.max_spec u v) as [[_ ->]|[_ ->]]; auto|]].
    + f_equal. pose proof (Hmax v (or_intror eq_refl)). lia.
    + f_equal. pose proof (Hmax u (or_introl eq_refl)). lia.
    + intros t' [[= <-]|[= <-]]; lia.
  - naive_solver lia.
  - naive_solver lia.
  - naive_solver.
Qed.

(** There is no news exactly if the other state has every author at least as new. *)
Lemma has_news_for_None h other :
  has_news_for h other = None ↔
  ∀ a t, heads h !! a = Some t → ∃ t', heads other !! a = Some t' ∧ t ≤ t'.
Proof.
  unfold has_news_for. set (l := filter _ _). assert (Hl : len l = 0 ↔ l = [])
    by (unfold len; destruct l; simpl; [done|split; [lia|done]]).
  destruct (N.eqb_spec (len l) 0) as [H0|H0]; (split; [intros Heq; try done|intros Hall]).
  - intros a t Ha. apply Hl in H0. destruct (is_news other (a, t)) eqn:Hn.
    + assert (Hin : (a, t) ∈ l) by (by apply list_elem_of_filter, conj, elem_of_heads_iter).
      rewrite H0 in Hin. by apply not_elem_of_nil in Hin.
    + unfold is_news, heads_get in Hn. cbn in Hn. destruct (heads other !! a) as [t'|]; [|done].
      apply N.ltb_ge in Hn. eauto.
  - done.
  - exfalso. apply H0, Hl, filter_none. intros [a t] (t' & Ht' & Hle)%elem_of_heads_iter%Hall.
    unfold is_news, heads_get. cbn. rewrite Ht'. rewrite (proj2 (N.ltb_ge _ _)); done.
Qed.

Lemma by_timestamp_fold l (m : gmap N AuthorId) ts (a : AuthorId) :
  StronglySorted author_le l →
  foldl (λ m '(author, ts), <[ts := author]> m) m l !! ts = Some a ↔
  ((a, ts) ∈ l ∧ ∀ a', (a', ts) ∈ l → bytes_le a' a) ∨ (m !! ts = Some a ∧ ∀ a', (a', ts) ∉ l).
Proof.
  induction l as [|[b u] l IH] using rev_ind; intros Hs.
  { cbn. split; [right; split; [done|intros a'; apply not_elem_of_nil]|]. intros [[?%not_elem_of_nil _]|[? _]]; done. }
  apply StronglySorted_app in Hs as (Hle & Hs & _). rewrite foldl_app. cbn.
  assert (Hb : ∀ a' t, (a', t) ∈ l → bytes_le a' b) by (intros a' t Hin; apply (Hle (a', t) (b, u)); [done|left]).
  setoid_rewrite elem_of_app. setoid_rewrite list_elem_of_singleton.
  destruct (decide (u = ts)) as [->|Hne].
  - rewrite lookup_insert_eq. split.
    + intros [= <-]. left. split; [by right|]. intros a' [Hin|[= ->]]; [by eapply Hb|done].
    + intros [[[Hin|[= ->]] Hmax]|[_ Hno]]; [|done|destruct (Hno b); by right].
      f_equal. apply (anti_symm bytes_le); [apply Hmax; by right|by eapply Hb].
  - rewrite lookup_insert_ne, IH by done. split.
    + intros [[Hin Hmax]|[Hm Hno]]; [left|right].
      * split; [by left|]. intros a' [?|?]; [by apply Hmax|congruence].
      * split; [done|]. intros a' [?|?]; [by eapply Hno|congruence].
    + intros [[[Hin|?] Hmax]|[Hm Hno]]; [left|congruence|right].
      * split; [done|]. intros a' ?. apply Hmax. by left.
      * split; [done|]. intros a' ?. apply (Hno a'). by left.
Qed.

Lemma by_timestamp_lookup h ts a :
  by_timestamp h !! ts = Some a ↔
  heads h !! a = Some ts ∧ ∀ a', heads h !! a' = Some ts → bytes_le a' a.
Proof.
  unfold by_timestamp. rewrite by_timestamp_fold by apply heads_iter_sorted.
  setoid_rewrite elem_of_heads_iter. rewrite lookup_empty. naive_solver.
Qed.

Lemma elem_of_newest_first m ts a : (ts, a) ∈ newest_first m ↔ m !! ts = Some a.
Proof. unfold newest_first. by rewrite merge_sort_Permutation, elem_of_map_to_list. Qed.

Lemma by_timestamp_size h : len (newest_first (by_timestamp h)) ≤ ssize (heads h).
Proof.
  assert (Hfold : ∀ l (m : gmap N AuthorId),
    ssize (foldl (λ m '(author, ts), <[ts := author]> m) m l) ≤ ssize m + len l).
  { induction l as [|[b u] l IH]; intros m; cbn; [lia|]. rewrite IH.
    pose proof (ssize_insert_le m u b). unfold len. simpl. lia. }
  unfold newest_first, len. rewrite merge_sort_Permutation, length_map_to_list.
  etrans; [apply (Hfold (heads_iter h) ∅)|]. unfold heads_iter, len.
  rewrite merge_sort_Permutation, length_map_to_list. done.
Qed.

Section EncodingFacts.
  Context `{!WireFormat (list (N * AuthorId))} `{!WireLaws (list (N * AuthorId))}.

Lemma push_while_fits_all todo items : push_while_fits None todo items = Ok (items ++ todo).
Proof.
  revert items. induction todo as [|x todo IH]; intros items; cbn; [by rewrite app_nil_r|].
  by rewrite IH, <-app_assoc.
Qed.

(** With a limit, the newest items that fit are kept. *)
Lemma push_while_fits_limit limit todo items :
  (∀ size, serialized_size items = Some size → size ≤ limit) →
  ∃ kept dropped, todo = kept ++ dropped ∧ push_while_fits (Some limit) todo items = Ok (items ++ kept) ∧
    (∀ size, serialized_size (items ++ kept) = Some size → size ≤ limit) ∧
    (∀ x rest, dropped = x :: rest → ∃ size, serialized_size (items ++ kept ++ [x]) = Some size ∧ limit < size).
Proof.
  revert items. induction todo as [|x todo IH]; intros items Hi; cbn.
  { exists [], []. rewrite !app_nil_r. done. }
  destruct (serialized_size (items ++ [x])) as [size|] eqn:Hs.
  2: { unfold serialized_size in Hs. destruct (law_encodes (items ++ [x])) as [? Heq]. by rewrite Heq in Hs. }
  destruct (N.ltb_spec limit size).
  - exists [], (x :: todo). rewrite app_nil_r. split_and!; [done..|]. intros ? ? [= <- <-]. eauto.
  - destruct (IH (items ++ [x])) as (kept & dropped & -> & Hp & Hk & Hd); [naive_solver|].
    exists (x :: kept), dropped. rewrite <-app_assoc in Hp, Hk. split_and!; [done..|].
    intros y rest Heq. destruct (Hd y rest Heq) as (sz & Hsz & ?). rewrite <-app_assoc in Hsz. eauto.
Qed.

Lemma from_bytes_Some items bytes : to_stdvec items = Some bytes → from_bytes bytes = Some items.
Proof.
  intros Henc. unfold from_bytes. pose proof (law_takes_back items bytes [] Henc) as Ht.
  rewrite app_nil_r in Ht. by rewrite Ht.
Qed.

(** What a receiver makes of a list of items with one head per author. *)
Lemma decode_items items bytes :
  to_stdvec items = Some bytes → len items ≤ MAX_ENTRIES_PER_SYNC_MESSAGE →
  (∀ a t t', (t, a) ∈ items → (t', a) ∈ items → t = t') →
  ∃ h', heads_decode bytes = Ok h' ∧ ∀ a t, heads h' !! a = Some t ↔ (t, a) ∈ items.
Proof.
  intros Henc Hlen Huniq. unfold heads_decode. rewrite (from_bytes_Some _ _ Henc), (proj2 (N.ltb_ge _ _)) by done.
  eexists. split; [done|]. intros a t.
  assert (Hswap : ∀ h, foldl (λ h '(ts, author), heads_insert author ts h) h items =
    foldl (λ h '(a, t), heads_insert a t h) h ((λ x : N * AuthorId, (x.2, x.1)) <$> items)).
  { clear. induction items as [|[t a] l IH]; intros h; [done|]. cbn. apply IH. }
  assert (Hin : ∀ a t, (a, t) ∈ (λ x : N * AuthorId, (x.2, x.1)) <$> items ↔ (t, a) ∈ items).
  { intros a' t'. rewrite list_elem_of_fmap. split; [intros ([] & [= -> ->] & ?); done|]. intros Hx.
    by exists (t', a'). }
  rewrite Hswap, heads_fold. cbn. rewrite lookup_empty. setoid_rewrite Hin. split; [naive_solver|].
  intros Hx. split; [by right|]. intros t' [?|Hx']; [done|]. by rewrite (Huniq _ _ _ Hx Hx').
Qed.

Lemma newest_first_unique h a t t' :
  (t, a) ∈ newest_first (by_timestamp h) → (t', a) ∈ newest_first (by_timestamp h) → t = t'.
Proof.
  intros [H1 _]%elem_of_newest_first%by_timestamp_lookup [H2 _]%elem_of_newest_first%by_timestamp_lookup.
  congruence.
Qed.

End EncodingFacts.

(** * Properties of author heads *)

Section Props.
  Context `{!WireFormat (list (N * AuthorId))} `{!WireLaws (list (N * AuthorId))}.

(** What a receiver reads from encoded heads: of the authors with the same
    timestamp only the one with the greatest identifier, and every author whose
    timestamp is its own; the encoding is lossless exactly if the timestamps
    differ. *)
Theorem heads_encoding_exact h :
  ssize (heads h) ≤ MAX_ENTRIES_PER_SYNC_MESSAGE →
  ∃ bytes h', heads_encode h None = Ok bytes ∧ heads_decode bytes = Ok h' ∧
    ∀ a t, heads h' !! a = Some t ↔
      heads h !! a = Some t ∧ ∀ a', heads h !! a' = Some t → bytes_le a' a.
Proof.
  intros Hsize. pose proof (by_timestamp_size h). set (items := newest_first (by_timestamp h)) in *.
  destruct (law_encodes items) as [bytes Hb].
  destruct (decode_items items bytes Hb) as (h' & Hd & Hh'); [lia|by apply newest_first_unique|].
  exists bytes, h'. split_and!; [|done|].
  - unfold heads_encode. rewrite push_while_fits_all. cbn. fold items. by rewrite Hb.
  - intros a t. rewrite Hh'. unfold items. by rewrite elem_of_newest_first, by_timestamp_lookup.
Qed.

(** Within a size limit the newest heads are sent: a head that is not sent is not
    newer than any that is, unless it shares its timestamp. *)
Theorem heads_encoding_keeps_newest h limit :
  (∀ size, serialized_size [] = Some size → size ≤ limit) →
  ssize (heads h) ≤ MAX_ENTRIES_PER_SYNC_MESSAGE →
  ∃ bytes h', heads_encode h (Some limit) = Ok bytes ∧ heads_decode bytes = Ok h' ∧ len bytes ≤ limit ∧
    heads h' ⊆ heads h ∧
    ∀ a t a' t', heads h !! a = Some t → (∀ b, heads h !! b = Some t → b = a) →
      heads h' !! a = None → heads h' !! a' = Some t' → t ≤ t'.
Proof.
  intros H0 Hsize. pose proof (by_timestamp_size h). set (items := newest_first (by_timestamp h)) in *.
  assert (Hsorted : StronglySorted ts_ge items) by (apply StronglySorted_merge_sort; apply _).
  destruct (push_while_fits_limit limit items [] H0) as (kept & dropped & Heq & Hp & Hk & _). cbn in Hk.
  assert (Hin : ∀ t a, (t, a) ∈ kept → by_timestamp h !! t = Some a).
  { intros t a Hx. apply elem_of_newest_first. fold items. rewrite Heq. set_solver. }
  destruct (law_encodes kept) as [bytes Hb].
  destruct (decode_items kept bytes Hb) as (h' & Hd & Hh').
  { assert (len kept ≤ len items); [|lia]. rewrite Heq. unfold len. rewrite length_app. lia. }
  { intros a t t' [H1 _]%Hin%by_timestamp_lookup [H2 _]%Hin%by_timestamp_lookup. congruence. }
  exists bytes, h'. split_and!; [|done|apply Hk; unfold serialized_size; by rewrite Hb| |].
  - unfold heads_encode. fold items. rewrite Hp. cbn. by rewrite Hb.
  - apply map_subseteq_spec. intros a t [Ha _]%Hh'%Hin%by_timestamp_lookup. done.
  - intros a t a' t' Ha Hown Hn Ha'%Hh'.
    assert (Hit : (t, a) ∈ items).
    { apply elem_of_newest_first, by_timestamp_lookup. split; [done|]. by intros b ->%Hown. }
    rewrite Heq in Hit, Hsorted. apply elem_of_app in Hit as [Hit|Hit].
    { apply Hh' in Hit. congruence. }
    by apply (StronglySorted_app_1_elem_of _ _ _ (t', a') (t, a)) in Hsorted.
Qed.

End Props.

(** ** Examples *)

Import ExampleWire.

Definition ex_heads : AuthorHeads :=
  mkAuthorHeads {[ [x01] := 7; [x02] := 7; [x03] := 9 ]}.

Lemma heads_encoding_exact_witness :
  ∃ bytes h', heads_encode ex_heads None = Ok bytes ∧ heads_decode bytes = Ok h' ∧
    ∀ a t, heads h' !! a = Some t ↔
      heads ex_heads !! a = Some t ∧ ∀ a', heads ex_heads !! a' = Some t → bytes_le a' a.
Proof. apply (heads_encoding_exact ex_heads). vm_compute. discriminate. Defined.
