(* ===== verification/DocsReplica.v ===== *)
(** * Replicas of a document (protocols/krikos-docs/src/sync.rs, keys.rs, store.rs)

    A replica is a store with what is known of the document while it is open: the
    capability, the subscribers, the callback for the status of contents. Local
    and remote entries are validated before they are stored, and every entry that
    is stored is reported to the subscribers.

    The store is the interface [Store] of the reconciliation protocol. Signatures
    are those of the crate [krikos] (ed25519), a class; so are the channels of the
    subscribers. A reading of the clock is an argument. Additions of [u64] and
    [usize] wrap around, as they do in a release build. *)
From stdpp Require Import base tactics list gmap orders strings.
From Stdlib Require Import ZArith Lia Strings.Byte.
From S2P Require Import Prelude Bytes Ranger Records DocsHeads.

Local Open Scope N_scope.

(** ** Keys (keys.rs, store/pubkeys.rs) *)

(** The keys and signatures of [krikos]: the public key of a secret key, signing,
    whether bytes are a public key, and strict verification. *)
Class Ed25519 : Type := {
  key_public : list byte → list byte;
  key_sign : list byte → list byte → Signature;
  key_valid : list byte → bool;
  key_verify : list byte → list byte → Signature → bool;
}.

(** A public key has 32 bytes and is accepted as a key, and it verifies what its
    secret key signed. *)
Class Ed25519Laws `{Ed25519} : Prop := {
  key_public_length sk : length (key_public sk) = 32%nat;
  key_public_valid sk : key_valid (key_public sk) = true;
  key_verify_sign sk msg : key_verify (key_public sk) msg (key_sign sk msg) = true;
}.

Record Author : Type := mkAuthor { author_bytes : list byte }.
Record NamespaceSecret : Type := mkNamespaceSecret { secret_bytes : list byte }.

Section Keys.
  Context `{!Ed25519}.

Definition author_id (a : Author) : AuthorId := key_public (author_bytes a).
Definition secret_id (s : NamespaceSecret) : NamespaceId := key_public (secret_bytes s).

Definition signature_from_entry (e : Entry) (namespace : NamespaceSecret) (author : Author)
    : EntrySignature :=
  let bytes := entry_to_vec e in
  {| namespace_signature := key_sign (secret_bytes namespace) bytes;
     author_signature := key_sign (author_bytes author) bytes |}.

(** [Entry::sign] and [SignedEntry::from_entry]. *)
Definition entry_sign (e : Entry) (namespace : NamespaceSecret) (author : Author) : SignedEntry :=
  mkSignedEntry (signature_from_entry e namespace author) e.

Definition signature_verify (sig : EntrySignature) (e : Entry) (namespace author : list byte) : bool :=
  let bytes := entry_to_vec e in
  key_verify namespace bytes (namespace_signature sig) && key_verify author bytes (author_signature sig).

(** Whether both signatures of an entry are good; [None] where an identifier is
    too short to be sliced. The key of the namespace is recovered before the
    author is read. A cache of the keys does not change which bytes are keys. *)
Definition se_verify (e : SignedEntry) : option bool :=
  namespace ← id_namespace (se_id e);
  if negb (key_valid namespace) then Some false else
  author ← id_author (se_id e);
  if negb (key_valid author) then Some false else
  Some (signature_verify (se_signature e) (se_entry e) namespace author).

(** ** Capabilities *)

Inductive CapabilityKind : Type :=
| KindWrite
| KindRead.

Inductive Capability : Type :=
| CapWrite (secret : NamespaceSecret)
| CapRead (id : NamespaceId).

Definition cap_id (c : Capability) : NamespaceId :=
  match c with
  | CapWrite secret => secret_id secret
  | CapRead id => id
  end.

(** [Err(ReadOnly)] is [None]. *)
Definition cap_secret_key (c : Capability) : option NamespaceSecret :=
  match c with
  | CapWrite secret => Some secret
  | CapRead _ => None
  end.

Definition cap_kind (c : Capability) : CapabilityKind :=
  match c with
  | CapWrite _ => KindWrite
  | CapRead _ => KindRead
  end.

(** [#[repr(u8)]]. *)
Definition kind_into (k : CapabilityKind) : N :=
  match k with KindWrite => 1 | KindRead => 2 end.

Definition kind_try_from (n : N) : option CapabilityKind :=
  if n =? 1 then Some KindWrite else if n =? 2 then Some KindRead else None.

Definition cap_raw (c : Capability) : N * list byte :=
  (kind_into (cap_kind c),
   match c with
   | CapWrite secret => secret_bytes secret
   | CapRead id => id
   end).

Definition cap_from_raw (kind : N) (bytes : list byte) : option Capability :=
  kind ← kind_try_from kind;
  Some (match kind with
        | KindWrite => CapWrite (mkNamespaceSecret bytes)
        | KindRead => CapRead bytes
        end).

Inductive CapabilityError : Type :=
| NamespaceMismatch.

(** Whether the capability was changed, and what it is then. *)
Definition cap_merge (self other : Capability) : result CapabilityError (bool * Capability) :=
  if negb (bool_decide (cap_id other = cap_id self)) then Err NamespaceMismatch
  else match self, other with
       | CapRead _, CapWrite _ => Ok (true, other)
       | _, _ => Ok (false, self)
       end.

End Keys.

(** ** Download policies (store.rs) *)

Inductive FilterKind : Type :=
| FilterPrefix (prefix : list byte)
| FilterExact (expected : list byte).

Inductive DownloadPolicy : Type :=
| NothingExcept (patterns : list FilterKind)
| EverythingExcept (patterns : list FilterKind).

Definition policy_default : DownloadPolicy := EverythingExcept [].

Definition filter_matches (f : FilterKind) (key : list byte) : bool :=
  match f with
  | FilterPrefix prefix => bool_decide (prefix `prefix_of` key)
  | FilterExact expected => bool_decide (expected = key)
  end.

(** [None] where the identifier is too short to have a key. *)
Definition policy_matches (p : DownloadPolicy) (e : Entry) : option bool :=
  key ← id_key (e_id e);
  Some (match p with
        | NothingExcept patterns => existsb (λ pattern, filter_matches pattern key) patterns
        | EverythingExcept patterns => forallb (λ pattern, negb (filter_matches pattern key)) patterns
        end).

(** The trait [DownloadPolicyStore]. *)
Class DownloadPolicyStore (S Er : Type) : Type := {
  get_download_policy : NamespaceId → S → result Er DownloadPolicy;
}.

(** ** Events and subscribers *)

Definition PeerIdBytes : Type := list byte.

Definition MAX_TIMESTAMP_FUTURE_SHIFT : N := 10 * 60 * 1000000.
Definition MAX_SUBSCRIBERS_PER_DOCUMENT : N := 256.

Inductive Event : Type :=
| LocalInsert (namespace : NamespaceId) (entry : SignedEntry)
| RemoteInsert (namespace : NamespaceId) (entry : SignedEntry) (from : PeerIdBytes)
    (should_download : bool) (remote_content_status : ContentStatus).

Inductive InsertOrigin : Type :=
| Local
| Sync (from : PeerIdBytes) (remote_content_status : ContentStatus).

Record SyncOutcome : Type := mkSyncOutcome {
  heads_received : AuthorHeads;
  num_recv : N;
  num_sent : N;
}.

(** The sending half of a channel, up to [same_channel]. *)
Definition Channel : Type := N.

(** Whether an event can be sent on a channel: it cannot once the receiver is
    dropped. *)
Class Channels : Type := { ch_send : Channel → Event → bool }.

Definition ContentStatusCallback : Type := Hash → ContentStatus.

Record ReplicaInfo : Type := mkReplicaInfo {
  capability : Capability;
  subscribers : list Channel;
  content_status_cb : option ContentStatusCallback;
  closed : bool;
}.

Definition info_new (c : Capability) : ReplicaInfo := mkReplicaInfo c [] None false.

Definition set_subscribers (l : list Channel) (i : ReplicaInfo) : ReplicaInfo :=
  mkReplicaInfo (capability i) l (content_status_cb i) (closed i).

Definition info_subscribe (sender : Channel) (i : ReplicaInfo) : result LimitError ReplicaInfo :=
  if MAX_SUBSCRIBERS_PER_DOCUMENT <=? len (subscribers i) then
    Err (mkLimitError "document subscribers" (saturating_add64 (len (subscribers i)) 1)
           MAX_SUBSCRIBERS_PER_DOCUMENT)
  else Ok (set_subscribers (subscribers i ++ [sender]) i).

Definition info_unsubscribe (sender : Channel) (i : ReplicaInfo) : ReplicaInfo :=
  set_subscribers (filter (λ s, s ≠ sender) (subscribers i)) i.

Definition subscribers_count (i : ReplicaInfo) : N := len (subscribers i).

Definition set_content_status_callback (cb : ContentStatusCallback) (i : ReplicaInfo)
    : bool * ReplicaInfo :=
  match content_status_cb i with
  | Some _ => (false, i)
  | None => (true, mkReplicaInfo (capability i) (subscribers i) (Some cb) (closed i))
  end.

Definition info_merge_capability `{!Ed25519} (c : Capability) (i : ReplicaInfo)
    : result CapabilityError (bool * ReplicaInfo) :=
  match cap_merge (capability i) c with
  | Ok (changed, cap) =>
      Ok (changed, mkReplicaInfo cap (subscribers i) (content_status_cb i) (closed i))
  | Err e => Err e
  end.

(** ** Replicas *)

Record Replica (S : Type) : Type := mkReplica {
  rep_store : S;
  rep_info : ReplicaInfo;
}.
Arguments mkReplica {S} _ _.
Arguments rep_store {S} _.
Arguments rep_info {S} _.

Inductive InsertError (Er : Type) : Type :=
| InsertStore (e : Er)
| InsertValidation (f : ValidationFailure)
| NewerEntryExists
| EntryIsEmpty
| ReadOnly
| Closed.
Arguments InsertStore {Er} _.
Arguments InsertValidation {Er} _.
Arguments NewerEntryExists {Er}.
Arguments EntryIsEmpty {Er}.
Arguments ReadOnly {Er}.
Arguments Closed {Er}.

(** The errors of a synchronisation ([anyhow::Error]). *)
Inductive SyncError (Er : Type) : Type :=
| SyncInsert (e : InsertError Er)
| SyncStore (e : Er).
Arguments SyncInsert {Er} _.
Arguments SyncStore {Er} _.

Definition wrapping_add64 (a b : N) : N := (a + b) mod 2 ^ 64.

Definition is_local (origin : InsertOrigin) : bool :=
  match origin with Local => true | Sync _ _ => false end.

(** [None] is a panic, on an identifier that is too short. *)
Definition validate_entry `{!Ed25519} (now : N) (expected_namespace : NamespaceId) (e : SignedEntry)
    (origin : InsertOrigin) : option (result ValidationFailure ()) :=
  namespace ← id_namespace (se_id e);
  if negb (bool_decide (namespace = expected_namespace)) then Some (Err InvalidNamespace) else
  verified ← (if is_local origin then Some true else se_verify e);
  if negb verified then Some (Err BadSignature)
  else if wrapping_add64 now MAX_TIMESTAMP_FUTURE_SHIFT <? r_timestamp (se_record e)
  then Some (Err TooFarInTheFuture)
  else Some (Ok ()).

Section Replica.
  Context {S Er : Type} `{HB : Blake3Hash} `{HS : !Store S Er SignedEntry RecordIdentifier DocRecord}
    `{HP : !DownloadPolicyStore S Er} `{HK : !Ed25519} `{HC : !Channels}.

Local Notation R := (Replica S).
Local Notation RM A := (M R (Channel * Event) A).

Definition rep_id (r : R) : NamespaceId := cap_id (capability (rep_info r)).

(** [ensure_open()?]. *)
Definition ensure_open : RM (result (InsertError Er) ()) :=
  i ← gets rep_info;
  mret (if closed i then Err Closed else Ok ()).

(** [Subscribers::send]: the subscribers that could not be reached are dropped. *)
Definition send (event : Event) : RM () :=
  i ← gets rep_info;
  for_each (filter (λ tx, ch_send tx event = true) (subscribers i)) (λ tx, emit (tx, event)) ;;
  modify (λ r, mkReplica (rep_store r)
    (set_subscribers (filter (λ tx, ch_send tx event = true) (subscribers i)) (rep_info r))).

(** [unwrap] of a slice, or a panic within a call. *)
Definition or_panic {A} (o : option A) : RM A :=
  match o with Some a => mret a | None => panic end.

(** A call of the store. The entries that it reports are handed to [on_insert] in
    the order in which they were inserted; [on_insert] does not touch the store. *)
Definition with_store {A} (m : M S (SignedEntry * ContentStatus) A)
    (on_insert : SignedEntry * ContentStatus → RM ()) : RM A :=
  λ r, match m (rep_store r) with
       | Done a s es =>
           match for_each es on_insert (mkReplica s (rep_info r)) with
           | Done _ r' out => Done a r' out
           | Panicked => Panicked
           end
       | Panicked => Panicked
       end.

(** [unwrap_or_default()] of the policy of the document. *)
Definition download_policy : RM DownloadPolicy :=
  gets (λ r, match get_download_policy (Er:=Er) (rep_id r) (rep_store r) with
             | Ok p => p
             | Err _ => policy_default
             end).

Definition insert_entry (now : N) (e : SignedEntry) (origin : InsertOrigin)
    : RM (result (InsertError Er) N) :=
  namespace ← gets rep_id;
  valid ← or_panic (validate_entry now namespace e origin);
  match valid with Err f => mret (Err (InsertValidation f)) | Ok _ =>
  outcome ← with_store (put (Er:=Er) e) (λ _, mret ());
  match outcome with
  | Err err => mret (Err (InsertStore err))
  | Ok NotInserted => mret (Err NewerEntryExists)
  | Ok (Inserted removed_count) =>
      insert_event ←
        match origin with
        | Local => mret (LocalInsert namespace e)
        | Sync from remote_content_status =>
            policy ← download_policy;
            should_download ← or_panic (policy_matches policy (se_entry e));
            mret (RemoteInsert namespace e from should_download remote_content_status)
        end;
      send insert_event ;;
      mret (Ok removed_count)
  end end.

(** [t_record] is the reading of the clock for the record, [now] the one for the
    validation. *)
Definition insert (t_record now : N) (key : list byte) (author : Author) (hash : Hash) (content_len : N)
    : RM (result (InsertError Er) N) :=
  if (content_len =? 0) || bool_decide (hash = Hash_EMPTY) then mret (Err EntryIsEmpty) else
  _ ←? ensure_open;
  namespace ← gets rep_id;
  let id := id_new namespace (author_id author) key in
  let record := record_new hash content_len t_record in
  secret ← gets (λ r, cap_secret_key (capability (rep_info r)));
  match secret with
  | None => mret (Err ReadOnly)
  | Some secret => insert_entry now (entry_sign (mkEntry id record) secret author) Local
  end.

Definition delete_prefix (t_record now : N) (prefix : list byte) (author : Author)
    : RM (result (InsertError Er) N) :=
  _ ←? ensure_open;
  namespace ← gets rep_id;
  let id := id_new namespace (author_id author) prefix in
  let entry := entry_new_empty id t_record in
  secret ← gets (λ r, cap_secret_key (capability (rep_info r)));
  match secret with
  | None => mret (Err ReadOnly)
  | Some secret => insert_entry now (entry_sign entry secret author) Local
  end.

Definition insert_remote_entry (now : N) (e : SignedEntry) (received_from : PeerIdBytes)
    (content_status : ContentStatus) : RM (result (InsertError Er) N) :=
  _ ←? ensure_open;
  match validate_empty (se_entry e) with
  | Err f => mret (Err (InsertValidation f))
  | Ok _ => insert_entry now e (Sync received_from content_status)
  end.

Definition hash_and_insert (t_record now : N) (key : list byte) (author : Author) (data : list byte)
    : RM (result (InsertError Er) Hash) :=
  _ ←? ensure_open;
  let hash := blake3 data in
  _ ←? insert t_record now key author hash (len data);
  mret (Ok hash).

Definition record_id (r : R) (key : list byte) (author : Author) : RecordIdentifier :=
  id_new (rep_id r) (author_id author) key.

(** ** Synchronisation *)

(** An error of the one kind or the other, as an [anyhow::Error]. *)
Definition sync_closed {A} (m : RM (result (InsertError Er) A)) : RM (result (SyncError Er) A) :=
  x ← m; mret (match x with Ok a => Ok a | Err e => Err (SyncInsert e) end).

Definition sync_store {A} (m : RM (result Er A)) : RM (result (SyncError Er) A) :=
  x ← m; mret (match x with Ok a => Ok a | Err e => Err (SyncStore e) end).

Definition sync_initial_message : RM (result (SyncError Er) (Message SignedEntry RecordIdentifier)) :=
  _ ←? sync_closed ensure_open;
  sync_store (with_store initial_message (λ _, mret ())).

(** The loop that records the author and the timestamp of every entry of a message. *)
Fixpoint receive_heads (values : list (SignedEntry * ContentStatus)) (h : AuthorHeads)
    : option AuthorHeads :=
  match values with
  | [] => Some h
  | (e, _) :: values =>
      author ← id_author (se_id e);
      receive_heads values (heads_insert author (r_timestamp (se_record e)) h)
  end.

(** The validation callback. The loop over the heads has panicked before on an
    identifier that is too short. *)
Definition sync_validate (now : N) (namespace : NamespaceId) (from_peer : PeerIdBytes)
    (_ : S) (e : SignedEntry) (content_status : ContentStatus) : bool :=
  match validate_entry now namespace e (Sync from_peer content_status) with
  | Some (Ok _) => true
  | _ => false
  end.

(** The callback for entries that were inserted, with [send_with]. *)
Definition sync_on_insert (policy : DownloadPolicy) (namespace : NamespaceId) (from_peer : PeerIdBytes)
    (v : SignedEntry * ContentStatus) : RM () :=
  let '(e, content_status) := v in
  i ← gets rep_info;
  match subscribers i with
  | [] => mret ()
  | _ =>
      should_download ← or_panic (policy_matches policy (se_entry e));
      send (RemoteInsert namespace e from_peer should_download content_status)
  end.

Definition sync_content_status (i : ReplicaInfo) (e : SignedEntry) : ContentStatus :=
  match content_status_cb i with
  | Some cb => cb (r_hash (se_record e))
  | None => Missing
  end.

(** Process a message of a peer; the outcome so far is updated also when the store
    fails. *)
Definition sync_process_message (now : N) (message : Message SignedEntry RecordIdentifier)
    (from_peer : PeerIdBytes) (state : SyncOutcome)
    : RM (SyncOutcome * result (SyncError Er) (option (Message SignedEntry RecordIdentifier))) :=
  opened ← sync_closed ensure_open;
  match opened with Err e => mret (state, Err e) | Ok _ =>
  my_namespace ← gets rep_id;
  heads ← or_panic (receive_heads (values message) (heads_received state));
  let state := mkSyncOutcome heads (wrapping_add64 (num_recv state) (value_count message))
    (num_sent state) in
  i ← gets rep_info;
  policy ← download_policy;
  reply ← sync_store (with_store
    (process_message (Er:=Er) (sync_validate now my_namespace from_peer) (sync_content_status i)
       SyncConfig_default message)
    (sync_on_insert policy my_namespace from_peer));
  match reply with
  | Ok (Some m) =>
      mret (mkSyncOutcome (heads_received state) (num_recv state)
              (wrapping_add64 (num_sent state) (value_count m)), reply)
  | _ => mret (state, reply)
  end end.

End Replica.
