(* ===== verification/DocsReplicaSafety.v ===== *)
(** * What a replica stores is authentic

    First, for any store, what the reconciliation protocol preserves when its
    peer sends anything; then, for the store on a database, that only entries that
    passed the validation are written, and only rows of the document. *)
From stdpp Require Import base tactics list gmap orders strings.
From Stdlib Require Import ZArith Lia Strings.Byte.
From S2P Require Import Prelude Bytes Ranger RangerFacts Records DocsBounds DocsStore DocsStoreFacts DocsHeads DocsReplica.

(** ** Messages of an untrusted peer *)

Section Untrusted.
  Context {S Er E K V : Type} `{HR : RangeEntry E K V} `{HS : !Store S Er E K V} `{HB : Blake3Hash}.
  Context (I : S → Prop) (P : E → Prop).

(** Every entry that is reported satisfies [P]. *)
Definition reports : S → S → list (E * ContentStatus) → Prop :=
  emitting (λ _, ()) (λ _ ec, P ec.1).

Lemma respects_try {A B} (m : M S (E * ContentStatus) (result Er A)) f :
  respects True I reports m → (∀ a, respects True I reports (f a)) →
  respects True I reports (try_bind (B:=B) m f).
Proof.
  intros Hm Hf. apply respects_bind; [apply _|done|]. intros [a|e]; [done|]. apply respects_ret, _.
Qed.

Lemma respects_try_for {A B} (xs : list A) (f : A → M S (E * ContentStatus) (result Er (list B))) :
  (∀ x, respects True I reports (f x)) → respects True I reports (try_for xs f).
Proof.
  intros Hf. induction xs as [|x xs IH]; simpl; [apply respects_ret, _|].
  apply respects_try; [done|]. intros out. apply respects_try; [done|]. intros outs. apply respects_ret, _.
Qed.

Lemma respects_try_each {A} (xs : list A) (f : A → M S (E * ContentStatus) (result Er ())) :
  (∀ x, respects True I reports (f x)) → respects True I reports (try_each xs f).
Proof.
  intros Hf. induction xs as [|x xs IH]; simpl; [apply respects_ret, _|].
  apply respects_try; [done|]. by intros _.
Qed.

Lemma respects_panic {A} : respects True I reports (panic (A:=A)).
Proof. by intros s _. Qed.

(** Reading leaves the store alone; the store only takes entries that satisfy [P]. *)
Class Untrusting : Prop := {
  ut_first : respects True I reports get_first;
  ut_range r : respects True I reports (get_range r);
  ut_fingerprint r : respects True I reports (get_fingerprint r);
  ut_prefixes k : respects True I reports (prefixes_of k);
  ut_remove e f : P e → respects True I reports (remove_prefix_filtered (re_key e) f);
  ut_put e : P e → respects True I reports (entry_put e);
}.

Context `{HU : !Untrusting}.

Lemma put_respects e : P e → respects True I reports (put (Er:=Er) e).
Proof.
  intros He. unfold put. apply respects_try; [apply ut_prefixes|]. intros l.
  apply respects_try; [apply respects_ret, _|]. intros [|]; [apply respects_ret, _|].
  apply respects_try; [by apply ut_remove|]. intros n.
  apply respects_try; [by apply ut_put|]. intros _. apply respects_ret, _.
Qed.

Lemma initial_message_respects : respects True I reports (initial_message (Er:=Er)).
Proof.
  unfold initial_message. apply respects_try; [apply ut_first|]. intros x.
  apply respects_try; [apply ut_fingerprint|]. intros fp. apply respects_ret, _.
Qed.

Context (validate_cb : S → E → ContentStatus → bool) (status_cb : E → ContentStatus).
Context (Hvalid : ∀ s e c, I s → validate_cb s e c = true → P e).

Lemma store_value_respects v : respects True I reports (store_value (Er:=Er) validate_cb v).
Proof.
  destruct v as [e c]. intros s Hs. unfold store_value. apply wp_bind, wp_gets.
  destruct (validate_cb s e c) eqn:Hv; [|by apply (respects_ret True I reports)].
  assert (He : P e) by eauto.
  apply (respects_try (put e)); [by apply put_respects| |done].
  intros [|n]; [apply respects_ret, _|]. apply respects_bind; [apply _| |intros; apply respects_ret, _].
  apply respects_emit. intros s' _. split; [done|]. by constructor.
Qed.

Lemma process_item_respects item :
  respects True I reports (process_item (Er:=Er) validate_cb status_cb item).
Proof.
  destruct item as [range values [|]]; unfold process_item.
  - apply respects_try; [apply respects_ret, _|]. intros d.
    apply respects_try; [apply respects_try_each, store_value_respects|]. intros _. apply respects_ret, _.
  - apply respects_try.
    { apply respects_try; [|intros d; apply respects_ret, _].
      unfold local_diff. apply respects_try; [apply ut_range|]. intros els.
      apply respects_try; [apply respects_ret, _|]. intros d; apply respects_ret, _. }
    intros d. apply respects_try; [apply respects_try_each, store_value_respects|]. intros _. apply respects_ret, _.
Qed.

Lemma pivot_respects config range i n j : respects True I reports (pivot (Er:=Er) config range i n j).
Proof.
  unfold pivot. destruct (bool_decide _); [apply respects_panic|].
  apply respects_try; [apply ut_range|]. intros els.
  destruct (els !! _); [apply respects_ret, _|apply respects_panic].
Qed.

Lemma pivot_range_respects config range i n j :
  respects True I reports (pivot_range (Er:=Er) (pivot config range i n) j).
Proof.
  unfold pivot_range. do 2 (apply respects_try; [apply pivot_respects|]; intros ?).
  apply respects_ret, _.
Qed.

Lemma process_fingerprint_respects config fp :
  respects True I reports (process_fingerprint (Er:=Er) status_cb config fp).
Proof.
  destruct fp as [range fp]. unfold process_fingerprint.
  apply respects_try; [apply ut_fingerprint|]. intros lfp. destruct (bool_decide _); [apply respects_ret, _|].
  apply respects_try.
  { apply respects_try; [apply ut_range|]. intros els. apply respects_ret, _. }
  intros n. destruct (_ || _).
  - apply respects_try; [apply ut_range|]. intros els.
    apply respects_try; [apply respects_ret, _|]. intros vs. apply respects_ret, _.
  - apply respects_try.
    + unfold split_ranges. apply respects_try; [apply ut_range|]. intros els.
      apply respects_try; [apply respects_ret, _|]. intros i.
      destruct (is_all range); [apply respects_try_for; intros; apply pivot_range_respects|].
      apply respects_try; [apply pivot_respects|]. intros y.
      apply respects_try; [apply respects_try_for; intros; apply pivot_range_respects|]. intros mid.
      apply respects_try; [apply pivot_respects|]. intros x. apply respects_ret, _.
    + intros ranges. apply respects_try_for. intros r. unfold announce_range.
      apply respects_try; [apply ut_range|]. intros chunk.
      apply respects_try; [apply ut_fingerprint|]. intros f. apply respects_ret, _.
Qed.

(** Whatever the message, the invariant is kept, and only entries that were
    validated are reported. *)
Lemma process_message_respects config message :
  respects True I reports (process_message (Er:=Er) validate_cb status_cb config message).
Proof.
  unfold process_message. apply respects_try; [apply respects_try_for, process_item_respects|].
  intros out1. apply respects_try; [apply respects_try_for, process_fingerprint_respects|].
  intros out2. apply respects_ret, _.
Qed.

End Untrusted.

(** * Operations of a replica on a database

    The invariant of a document whose entries were validated, and that every
    operation of a replica keeps it. *)

(** ** Authentic entries *)

Section Authentic.
  Context `{HK : !Ed25519}.

(** An entry of the document with both signatures good, from no later than ten
    minutes after [horizon]. *)
Definition authentic (horizon : N) (ns : NamespaceId) (e : SignedEntry) : Prop :=
  id_namespace (se_id e) = Some ns ∧ 64 ≤ length (se_id e) ∧ se_verify e = Some true ∧
  (r_timestamp (se_record e) ≤ horizon + MAX_TIMESTAMP_FUTURE_SHIFT)%N.

Lemma id_author_length id a : id_author id = Some a → 64 ≤ length id.
Proof. unfold id_author, slice. by case_bool_decide. Qed.

Lemma se_verify_length e : se_verify e = Some true → 64 ≤ length (se_id e).
Proof.
  unfold se_verify. destruct (id_namespace _) as [n|]; [|done]. simpl.
  destruct (key_valid n); [|done]. simpl.
  destruct (id_author (se_id e)) as [a|] eqn:Ha; [|done]. intros _. by eapply id_author_length.
Qed.

(** The signatures of the secrets of the document and of an author are good. *)
Lemma sign_verify `{!Ed25519Laws} secret author key record :
  let e := entry_sign (mkEntry (id_new (secret_id secret) (author_id author) key) record) secret author in
  se_verify e = Some true.
Proof.
  set (id := id_new _ _ _).
  destruct (flat_parts (secret_id secret, author_id author, key)) as (Hn & Ha & _);
    [split; apply key_public_length|]. cbn [fst snd] in Hn, Ha.
  change (flat (secret_id secret, author_id author, key)) with id in Hn, Ha. cbv zeta.
  unfold se_verify, se_id. cbn [entry_sign se_entry e_id]. rewrite Hn. simpl. unfold secret_id.
  rewrite key_public_valid. simpl. rewrite Ha. simpl. unfold author_id. rewrite key_public_valid.
  simpl. unfold signature_verify, signature_from_entry.
  cbn [namespace_signature author_signature]. by rewrite !key_verify_sign.
Qed.

Lemma wrapping_add64_le now t horizon :
  (now ≤ horizon)%N → (t ≤ wrapping_add64 now MAX_TIMESTAMP_FUTURE_SHIFT)%N →
  (t ≤ horizon + MAX_TIMESTAMP_FUTURE_SHIFT)%N.
Proof.
  intros Hn Ht. unfold wrapping_add64 in Ht.
  pose proof (N.Div0.mod_le (now + MAX_TIMESTAMP_FUTURE_SHIFT) (2 ^ 64)). lia.
Qed.

(** What the validation establishes, given good signatures of local entries. *)
Lemma validate_entry_authentic now horizon ns e origin :
  (now ≤ horizon)%N → (origin = Local → se_verify e = Some true) →
  validate_entry now ns e origin = Some (Ok ()) → authentic horizon ns e.
Proof.
  intros Hnow Hloc. unfold validate_entry. destruct (id_namespace (se_id e)) as [n|] eqn:Hn; [|done].
  simpl. case_bool_decide as Heq; [subst n|done]. simpl.
  intros Hval.
  assert (Hver : se_verify e = Some true).
  { destruct origin; [by apply Hloc|]. simpl in Hval. by destruct (se_verify e) as [[|]|]. }
  assert (Hts : (r_timestamp (se_record e) ≤ wrapping_add64 now MAX_TIMESTAMP_FUTURE_SHIFT)%N).
  { rewrite Hver in Hval. destruct (is_local origin); simpl in Hval;
      destruct (N.ltb_spec (wrapping_add64 now MAX_TIMESTAMP_FUTURE_SHIFT) (r_timestamp (se_record e))); done. }
  split; [done|]. split; [by apply se_verify_length|]. split; [done|]. by eapply wrapping_add64_le.
Qed.

End Authentic.

(** ** The store *)

Section FsStore.
  Context {TR TK TL DbErr : Type} `{HB : Blake3Hash}
    `{HTR : !Table TR DbErr RecordsId RecordsValue}
    `{HTK : !Table TK DbErr RecordsByKeyId ()}
    `{HTL : !Table TL DbErr LatestPerAuthorKey LatestPerAuthorValue}
    `{LR : !TableLaws TR DbErr RecordsId RecordsValue records_id_le}
    `{LK : !TableLaws TK DbErr RecordsByKeyId () (lex_le (lex_le bytes_le bytes_le) bytes_le)}
    `{LL : !TableLaws TL DbErr LatestPerAuthorKey LatestPerAuthorValue (lex_le bytes_le bytes_le)}
    `{HK : !Ed25519}.
  Context (horizon : N) (ns : NamespaceId) (others : gmap RecordsId RecordsValue).

Local Notation SI := (StoreInstance TR TK TL).

(** Every entry of the document is authentic, and the rows of the other documents
    are those of [others]. *)
Definition doc_inv (s : SI) : Prop :=
  si_wf s ∧ si_namespace s = ns ∧
  (∀ k v, rows s !! k = Some v → k.1.1 = ns → authentic horizon ns (into_entry k v)) ∧
  (∀ k : RecordsId, k.1.1 ≠ ns → rows s !! k = others !! k).

Local Notation keeps := (respects True doc_inv (reports (authentic horizon ns))).

(** An operation that only reads. *)
Definition reads {A} (m : M SI (SignedEntry * ContentStatus) A) : Prop :=
  ∀ s, wp True m (λ _ s' es, s' = s ∧ es = []) s.

Lemma reads_keeps {A} (m : M SI (SignedEntry * ContentStatus) A) : reads m → keeps m.
Proof.
  intros Hm s Hs. eapply wp_mono; [apply Hm|]. intros a s' es [-> ->].
  split; [|done]. split; [done|constructor].
Qed.

Lemma unwrap_reads {A B} (o : option A) (f : A → M SI (SignedEntry * ContentStatus) (result DbErr B)) :
  (∀ a, reads (f a)) → reads (unwrap o f).
Proof. intros Hf s. destruct o; [apply Hf|done]. Qed.

Lemma fs_get_first_reads : reads (fs_get_first (TR:=TR) (TK:=TK) (TL:=TL) (DbErr:=DbErr)).
Proof.
  intros s. unfold fs_get_first, wp. rewrite gets_bind.
  destruct (t_range _ _) as [[|[[[[??]?]?]|] ?]|]; by split.
Qed.

Lemma fs_get_range_reads r : reads (fs_get_range (TR:=TR) (TK:=TK) (TL:=TL) (DbErr:=DbErr) r).
Proof.
  intros s. unfold fs_get_range, wp. rewrite gets_bind. unfold id.
  destruct (bool_decide _); [by split|]. destruct (bool_decide _).
  - destruct (to_byte_tuple _); [|done]. simpl. by destruct (to_byte_tuple _).
  - destruct (to_byte_tuple (ry r)); [|done]. simpl.
    destruct (with_bounds _ _) as [it|e]; [rewrite (try_bind_ret _ _ it) by done|by split].
    destruct (to_byte_tuple _); [|done]. simpl.
    destruct (with_bounds _ _) as [it2|e]; [rewrite (try_bind_ret _ _ it2) by done|]; by split.
Qed.

Lemma fs_get_fingerprint_reads r : reads (fs_get_fingerprint (TR:=TR) (TK:=TK) (TL:=TL) (DbErr:=DbErr) r).
Proof.
  intros s. unfold fs_get_fingerprint. apply wp_bind. eapply wp_mono; [apply fs_get_range_reads|].
  intros [els|e] s' es [-> ->]; by split.
Qed.

Lemma fs_prefixes_of_reads k : reads (fs_prefixes_of (TR:=TR) (TK:=TK) (TL:=TL) (DbErr:=DbErr) k).
Proof.
  intros s. unfold fs_prefixes_of, wp. rewrite gets_bind.
  repeat (destruct (_ k); [cbn [unwrap]|done]). by split.
Qed.

Lemma authentic_row e : authentic horizon ns e → ∃ k, se_id e = flat k ∧ id_wf k ∧ k.1.1 = ns.
Proof.
  intros (Hn & (k & Hid & Hk)%flat_surj & _). exists k. split; [done|]. split; [done|].
  rewrite Hid in Hn. destruct (flat_parts k Hk) as [Hn' _]. congruence.
Qed.

Lemma fs_remove_keeps e f :
  authentic horizon ns e → keeps (fs_remove_prefix_filtered (DbErr:=DbErr) (se_id e) f).
Proof.
  intros (k & He & Hk & Hkn)%authentic_row s ([Hlen Hwf] & Hns & Hau & Hot). rewrite He.
  destruct (fs_remove_spec (DbErr:=DbErr) k f s Hk) as (s' & Hr & Hn' & Hrows).
  unfold wp. rewrite Hr. split; [split; [done|constructor]|]. unfold doc_inv, si_wf. rewrite Hrows, Hn'.
  split_and!; [done| |done| |].
  - intros k' v [??]%map_lookup_filter_Some. eauto.
  - intros k' v [??]%map_lookup_filter_Some. eauto.
  - intros k' Hk'. rewrite <-Hot by done. destruct (rows s !! k') as [v|] eqn:Hv.
    + apply map_lookup_filter_Some. split; [done|]. intros [Hin _].
      apply author_prefix_spec in Hin as [Heq _]; [|apply Hk..|by eapply Hwf].
      simpl in Heq. rewrite Heq in Hk'. done.
    + by apply map_lookup_filter_None; left.
Qed.

Lemma fs_put_keeps e : authentic horizon ns e → keeps (fs_entry_put (DbErr:=DbErr) e).
Proof.
  intros Hau s ([Hlen Hwf] & Hns & Haus & Hot). destruct (authentic_row e Hau) as (k & He & Hk & Hkn).
  destruct (fs_entry_put_spec (DbErr:=DbErr) e k s He Hk) as (s' & Hp & Hn' & Hrows).
  unfold wp. rewrite Hp. split; [split; [done|constructor]|]. unfold doc_inv, si_wf. rewrite Hrows, Hn'.
  split_and!; [done| |done| |].
  - intros k' v [[<- <-]|[_ ?]]%lookup_insert_Some; eauto.
  - intros k' v [[<- <-]|[_ ?]]%lookup_insert_Some; [|by eauto]. by rewrite into_entry_value_of.
  - intros k' Hk'. rewrite lookup_insert_ne by congruence. by apply Hot.
Qed.

#[local] Instance fs_untrusting :
  Untrusting (Er:=DbErr) (HS:=fs_store) doc_inv (authentic horizon ns).
Proof.
  split.
  - apply reads_keeps, fs_get_first_reads.
  - intros r. apply reads_keeps, fs_get_range_reads.
  - intros r. apply reads_keeps, fs_get_fingerprint_reads.
  - intros k. apply reads_keeps, fs_prefixes_of_reads.
  - intros e f. apply fs_remove_keeps.
  - intros e. apply fs_put_keeps.
Qed.

(** ** The replica *)

Context `{HP : !DownloadPolicyStore SI DbErr} `{HC : !Channels} `{HKL : !Ed25519Laws}.

Local Notation R := (Replica SI).

Definition rep_inv (r : R) : Prop := doc_inv (rep_store r) ∧ rep_id r = ns.

Definition event_entry (ev : Event) : NamespaceId * SignedEntry :=
  match ev with
  | LocalInsert n e => (n, e)
  | RemoteInsert n e _ _ _ => (n, e)
  end.

(** An event about an authentic entry of this document. *)
Definition event_ok (ev : Event) : Prop :=
  (event_entry ev).1 = ns ∧ authentic horizon ns (event_entry ev).2.

Definition announces : R → R → list (Channel * Event) → Prop :=
  emitting (λ _, ()) (λ _ ce, event_ok ce.2).

Local Notation safe := (respects True rep_inv announces).

Lemma safe_try {E A B} (m : M R (Channel * Event) (result E A)) f :
  safe m → (∀ a, safe (f a)) → safe (try_bind (B:=B) m f).
Proof.
  intros Hm Hf. apply respects_bind; [apply _|done|]. intros [a|e]; [done|]. apply respects_ret, _.
Qed.

Lemma or_panic_safe {A} (o : option A) : safe (or_panic o).
Proof. destruct o; [apply respects_ret, _|by intros s _]. Qed.

Lemma ensure_open_safe : safe (ensure_open (Er:=DbErr)).
Proof. apply respects_bind; [apply _|apply respects_gets, _|]. intros i. apply respects_ret, _. Qed.

Lemma send_safe ev : event_ok ev → safe (send ev).
Proof.
  intros Hev. unfold send. apply respects_bind; [apply _|apply respects_gets, _|]. intros i.
  apply respects_bind; [apply _| |].
  - apply respects_for_each; [apply _|]. intros tx _. apply respects_emit. intros r _.
    split; [done|by constructor].
  - intros _. apply respects_modify. intros r [Hs Hid]. split; [split; [done|constructor]|]. by split.
Qed.

(** A call of the store whose reports are authentic. *)
Lemma with_store_safe {A} (m : M SI (SignedEntry * ContentStatus) A) on_insert :
  keeps m → (∀ v, authentic horizon ns v.1 → safe (on_insert v)) → safe (with_store m on_insert).
Proof.
  intros Hm Hon r [Hs Hid]. unfold wp, with_store. specialize (Hm _ Hs). unfold wp in Hm.
  destruct (m (rep_store r)) as [a s es|]; [|done]. destruct Hm as [[_ Hes] Hs'].
  assert (Hf : safe (for_each es on_insert)).
  { apply respects_for_each; [apply _|]. intros v Hv. apply Hon. rewrite Forall_forall in Hes. by apply Hes. }
  specialize (Hf (mkReplica s (rep_info r)) (conj Hs' Hid)). unfold wp in Hf.
  destruct (for_each es on_insert (mkReplica s (rep_info r))) as [u r' out|]; [|done].
  destruct Hf as [[_ He] Hr']. by split.
Qed.

(** Operations that first read the identifier of the document. *)
Lemma rep_id_safe {A} (f : NamespaceId → M R (Channel * Event) A) :
  safe (f ns) → safe (n ← gets rep_id; f n).
Proof.
  intros Hf r Hr. apply wp_bind, wp_gets. pose proof Hr as [_ ->]. exact (Hf r Hr).
Qed.

Lemma or_panic_bind_safe {A B} (o : option A) (f : A → M R (Channel * Event) B) :
  (∀ a, o = Some a → safe (f a)) → safe (a ← or_panic o; f a).
Proof.
  intros Hf r Hr. apply wp_bind. destruct o as [a|]; [|done]. apply wp_ret. exact (Hf a eq_refl r Hr).
Qed.

Lemma insert_entry_safe now e origin :
  (now ≤ horizon)%N → (origin = Local → se_verify e = Some true) →
  safe (insert_entry (Er:=DbErr) now e origin).
Proof.
  intros Hnow Hloc. apply rep_id_safe, or_panic_bind_safe.
  intros [[]|f] Hval; [|apply respects_ret, _].
  pose proof (validate_entry_authentic now horizon ns e origin Hnow Hloc Hval) as He.
  apply respects_bind; [apply _| |].
  { apply with_store_safe; [exact (put_respects doc_inv (authentic horizon ns) e He)|]. intros. apply respects_ret, _. }
  intros [[|n]|err]; [apply respects_ret, _| |apply respects_ret, _].
  assert (Hsend : ∀ ev, (event_entry ev) = (ns, e) →
    safe (send ev ;; mret (Ok (E:=InsertError DbErr) n))).
  { intros ev Hev. apply respects_bind; [apply _|apply send_safe; unfold event_ok; by rewrite Hev|].
    intros _. apply respects_ret, _. }
  intros r Hr. destruct origin as [|from st]; apply wp_bind.
  { apply wp_ret. by apply Hsend. }
  apply wp_bind, wp_gets, wp_bind. destruct (policy_matches _ _); [|done].
  apply wp_ret, wp_ret. by apply Hsend.
Qed.

Lemma insert_safe t now key author hash n :
  (now ≤ horizon)%N → safe (insert (Er:=DbErr) t now key author hash n).
Proof.
  intros Hnow. unfold insert. destruct (_ || _); [apply respects_ret, _|].
  apply safe_try; [apply ensure_open_safe|]. intros _. apply rep_id_safe.
  intros r Hr. apply wp_bind, wp_gets. destruct (capability (rep_info r)) as [secret|] eqn:Hcap;
    [|by apply (respects_ret True rep_inv announces)].
  assert (Hns : ns = secret_id secret) by (destruct Hr as [_ <-]; unfold rep_id; by rewrite Hcap).
  apply insert_entry_safe; [done| |done]. intros _. rewrite Hns. apply sign_verify.
Qed.

Lemma delete_prefix_safe t now prefix author :
  (now ≤ horizon)%N → safe (delete_prefix (Er:=DbErr) t now prefix author).
Proof.
  intros Hnow. unfold delete_prefix.
  apply safe_try; [apply ensure_open_safe|]. intros _. apply rep_id_safe.
  intros r Hr. apply wp_bind, wp_gets. destruct (capability (rep_info r)) as [secret|] eqn:Hcap;
    [|by apply (respects_ret True rep_inv announces)].
  assert (Hns : ns = secret_id secret) by (destruct Hr as [_ <-]; unfold rep_id; by rewrite Hcap).
  apply insert_entry_safe; [done| |done]. intros _. rewrite Hns. apply sign_verify.
Qed.

Lemma insert_remote_safe now e from st :
  (now ≤ horizon)%N → safe (insert_remote_entry (Er:=DbErr) now e from st).
Proof.
  intros Hnow. unfold insert_remote_entry. apply safe_try; [apply ensure_open_safe|]. intros _.
  destruct (validate_empty _); [|apply respects_ret, _]. by apply insert_entry_safe.
Qed.

Lemma hash_and_insert_safe t now key author data :
  (now ≤ horizon)%N → safe (hash_and_insert (Er:=DbErr) t now key author data).
Proof.
  intros Hnow. unfold hash_and_insert. apply safe_try; [apply ensure_open_safe|]. intros _.
  apply safe_try; [by apply insert_safe|]. intros _. apply respects_ret, _.
Qed.

Lemma sync_initial_safe : safe (sync_initial_message (Er:=DbErr)).
Proof.
  unfold sync_initial_message, sync_closed, sync_store. apply safe_try.
  - apply respects_bind; [apply _|apply ensure_open_safe|]. intros. apply respects_ret, _.
  - intros _. apply respects_bind; [apply _| |intros; apply respects_ret, _].
    apply with_store_safe; [|intros; apply respects_ret, _].
    exact (initial_message_respects doc_inv (authentic horizon ns)).
Qed.

Lemma sync_on_insert_safe policy from v :
  authentic horizon ns v.1 → safe (sync_on_insert policy ns from v).
Proof.
  destruct v as [e st]. intros He. unfold sync_on_insert.
  apply respects_bind; [apply _|apply respects_gets, _|]. intros i.
  destruct (subscribers i); [apply respects_ret, _|]. apply or_panic_bind_safe. intros d _.
  apply send_safe. by split.
Qed.

Lemma sync_process_safe now message from state :
  (now ≤ horizon)%N → safe (sync_process_message (Er:=DbErr) now message from state).
Proof.
  intros Hnow. unfold sync_process_message, sync_closed, sync_store.
  apply respects_bind; [apply _| |].
  { apply respects_bind; [apply _|apply ensure_open_safe|]. intros. apply respects_ret, _. }
  intros [[]|err]; [|apply respects_ret, _]. apply rep_id_safe, or_panic_bind_safe. intros heads _.
  cbv zeta. apply respects_bind; [apply _|apply respects_gets, _|]. intros i.
  apply respects_bind; [apply _|apply respects_gets, _|]. intros policy.
  apply respects_bind; [apply _| |intros [[m|]|]; apply respects_ret, _].
  apply respects_bind; [apply _| |intros; apply respects_ret, _].
  apply with_store_safe; [|intros; by apply sync_on_insert_safe].
  apply process_message_respects; [apply _|]. intros s e st _. unfold sync_validate.
  destruct (validate_entry _ _ _ _) as [[[]|]|] eqn:Hval; try done. intros _.
  by apply (validate_entry_authentic now horizon ns e _ Hnow) in Hval.
Qed.

End FsStore.
