(* ===== verification/DocsReplicaProps.v ===== *)
(** * Properties of replicas *)
From stdpp Require Import base tactics list gmap orders strings.
From Stdlib Require Import ZArith Lia Strings.Byte.
From S2P Require Import Prelude Bytes Ranger RangerFacts Records DocsBounds.
From S2P Require Import DocsStore DocsStoreFacts DocsStoreProps DocsHeads DocsReplica DocsReplicaSafety.

(** ** Runs of a replica *)

Section Steps.
  Context {S Er : Type} `{HB : Blake3Hash} `{HS : !Store S Er SignedEntry RecordIdentifier DocRecord}
    `{HP : !DownloadPolicyStore S Er} `{HK : !Ed25519} `{HC : !Channels}.

Local Notation R := (Replica S).

Definition with_info (r : R) (i : ReplicaInfo) : R := mkReplica (rep_store r) i.

(** A call of one of the operations of a replica while the clock has not passed
    [horizon]: with the replica before and after it, and the events it sent. *)
Inductive rep_step (horizon : N) : R → R → list (Channel * Event) → Prop :=
| step_insert t now key author hash n a r r' es :
    (now ≤ horizon)%N → insert (Er:=Er) t now key author hash n r = Done a r' es →
    rep_step horizon r r' es
| step_hash_and_insert t now key author data a r r' es :
    (now ≤ horizon)%N → hash_and_insert (Er:=Er) t now key author data r = Done a r' es →
    rep_step horizon r r' es
| step_delete_prefix t now prefix author a r r' es :
    (now ≤ horizon)%N → delete_prefix (Er:=Er) t now prefix author r = Done a r' es →
    rep_step horizon r r' es
| step_insert_remote now e from st a r r' es :
    (now ≤ horizon)%N → insert_remote_entry (Er:=Er) now e from st r = Done a r' es →
    rep_step horizon r r' es
| step_sync_initial a r r' es :
    sync_initial_message (Er:=Er) r = Done a r' es → rep_step horizon r r' es
| step_sync_process now message from state a r r' es :
    (now ≤ horizon)%N → sync_process_message (Er:=Er) now message from state r = Done a r' es →
    rep_step horizon r r' es
| step_subscribe ch i r :
    info_subscribe ch (rep_info r) = Ok i → rep_step horizon r (with_info r i) []
| step_unsubscribe ch r :
    rep_step horizon r (with_info r (info_unsubscribe ch (rep_info r))) []
| step_set_callback cb r :
    rep_step horizon r (with_info r (set_content_status_callback cb (rep_info r)).2) []
| step_merge_capability c changed i r :
    info_merge_capability c (rep_info r) = Ok (changed, i) → rep_step horizon r (with_info r i) [].

Inductive rep_steps (horizon : N) : R → R → list (Channel * Event) → Prop :=
| steps_refl r : rep_steps horizon r r []
| steps_step r1 r2 r3 es1 es2 :
    rep_step horizon r1 r2 es1 → rep_steps horizon r2 r3 es2 → rep_steps horizon r1 r3 (es1 ++ es2).

Lemma cap_merge_id self other changed c :
  cap_merge self other = Ok (changed, c) → cap_id c = cap_id self.
Proof.
  unfold cap_merge. case_bool_decide as Hid; [|done]. simpl.
  destruct self, other; intros [= <- <-]; done.
Qed.

End Steps.

Section FsProps.
  Context {TR TK TL DbErr : Type} `{HB : Blake3Hash}
    `{HTR : !Table TR DbErr RecordsId RecordsValue}
    `{HTK : !Table TK DbErr RecordsByKeyId ()}
    `{HTL : !Table TL DbErr LatestPerAuthorKey LatestPerAuthorValue}
    `{LR : !TableLaws TR DbErr RecordsId RecordsValue records_id_le}
    `{LK : !TableLaws TK DbErr RecordsByKeyId () (lex_le (lex_le bytes_le bytes_le) bytes_le)}
    `{LL : !TableLaws TL DbErr LatestPerAuthorKey LatestPerAuthorValue (lex_le bytes_le bytes_le)}
    `{HP : !DownloadPolicyStore (StoreInstance TR TK TL) DbErr}
    `{HK : !Ed25519} `{HKL : !Ed25519Laws} `{HC : !Channels}.

Local Notation R := (Replica (StoreInstance TR TK TL)).

Lemma rep_step_safe horizon ns others (r r' : R) es :
  rep_step (Er:=DbErr) horizon r r' es → rep_inv (DbErr:=DbErr) horizon ns others r →
  rep_inv (DbErr:=DbErr) horizon ns others r' ∧ Forall (λ ce, event_ok horizon ns ce.2) es.
Proof.
  intros Hstep Hr.
  assert (Hop : ∀ A (m : M R (Channel * Event) A) a,
    respects True (rep_inv (DbErr:=DbErr) horizon ns others) (announces horizon ns) m → m r = Done a r' es →
    rep_inv (DbErr:=DbErr) horizon ns others r' ∧ Forall (λ ce, event_ok horizon ns ce.2) es).
  { intros A m a Hm Hd. destruct (wp_Done _ _ _ _ _ _ _ (Hm r Hr) Hd) as [[_ He] Hi]. done. }
  destruct Hstep.
  1-6: eapply Hop; [|done].
  - by apply insert_safe.
  - by apply hash_and_insert_safe.
  - by apply delete_prefix_safe.
  - by apply insert_remote_safe.
  - apply sync_initial_safe.
  - by apply sync_process_safe.
  - split; [|constructor]. destruct Hr as [Hs Hid]. split; [done|]. rewrite <-Hid.
    unfold info_subscribe in *. by destruct (_ <=? _)%N; simplify_eq.
  - by split; [|constructor].
  - split; [|constructor]. destruct Hr as [Hs Hid]. split; [done|]. rewrite <-Hid.
    unfold set_content_status_callback, rep_id. simpl. by destruct (content_status_cb _).
  - split; [|constructor]. destruct Hr as [Hs Hid]. split; [done|]. rewrite <-Hid.
    unfold info_merge_capability in *. destruct (cap_merge _ _) as [[ch cap]|] eqn:Hm; simplify_eq.
    unfold rep_id. simpl. by eapply cap_merge_id.
Qed.

Lemma rep_steps_safe horizon ns others (r r' : R) es :
  rep_steps (Er:=DbErr) horizon r r' es → rep_inv (DbErr:=DbErr) horizon ns others r →
  rep_inv (DbErr:=DbErr) horizon ns others r' ∧ Forall (λ ce, event_ok horizon ns ce.2) es.
Proof.
  induction 1 as [r|r1 r2 r3 es1 es2 Hs _ IH]; intros Hr; [by split; [|constructor]|].
  destruct (rep_step_safe horizon ns others r1 r2 es1 Hs Hr) as [Hr2 He1].
  destruct (IH Hr2) as [Hr3 He2]. split; [done|]. by apply Forall_app.
Qed.

(** C13. Whatever a replica is asked to do and whatever its peers send, every entry
    of its document is authentic, given that they were at first: it belongs to the
    document, the signatures of the document and of the author verify, and its
    timestamp is at most ten minutes ahead of the clock. Every event that reaches a
    subscriber is about such an entry, the document stays the same one, and no row
    of another document is touched. *)
Theorem replica_document_authentic horizon (r r' : R) es :
  rep_steps (Er:=DbErr) horizon r r' es →
  si_wf (rep_store r) → si_namespace (rep_store r) = rep_id r →
  (∀ id e, si_content (rep_store r) !! id = Some e → authentic horizon (rep_id r) e) →
  rep_id r' = rep_id r ∧
  (∀ id e, si_content (rep_store r') !! id = Some e → authentic horizon (rep_id r) e) ∧
  Forall (λ ce, event_ok horizon (rep_id r) ce.2) es ∧
  ∀ k : RecordsId, k.1.1 ≠ rep_id r → rows (rep_store r') !! k = rows (rep_store r) !! k.
Proof.
  intros Hsteps Hwf Hns Hau.
  assert (Hr : rep_inv (DbErr:=DbErr) horizon (rep_id r) (rows (rep_store r)) r).
  { split; [|done]. split_and!; [done..| |done]. intros k v Hk Hn. apply (Hau (flat k)).
    unfold si_content. rewrite Hns. apply fs_content_lookup; [apply Hwf|eauto 6]. }
  destruct (rep_steps_safe _ _ _ _ _ _ Hsteps Hr) as [((Hwf' & Hns' & Hau' & Hot') & Hid') He].
  split_and!; [done| |done..].
  intros id e. unfold si_content. rewrite Hns'.
  intros (k & v & Hk & Hn & -> & ->)%fs_content_lookup; [by apply Hau'|apply Hwf'].
Qed.

End FsProps.

(** ** One operation *)

Section Ops.
  Context {S Er : Type} `{HB : Blake3Hash} `{HS : !Store S Er SignedEntry RecordIdentifier DocRecord}
    `{HL : !StoreLaws S Er SignedEntry RecordIdentifier DocRecord}
    `{HP : !DownloadPolicyStore S Er} `{HK : !Ed25519} `{HKL : !Ed25519Laws} `{HC : !Channels}.

Local Notation R := (Replica S).

(** The subscribers that an event reaches. *)
Definition reached (ev : Event) (r : R) : list Channel :=
  filter (λ tx, ch_send tx ev = true) (subscribers (rep_info r)).

(** The replica after an event, with the store [s]. *)
Definition notified (ev : Event) (s : S) (r : R) : R :=
  mkReplica s (set_subscribers (reached ev r) (rep_info r)).

Lemma send_run ev (s : S) r :
  send ev (mkReplica s (rep_info r)) = Done () (notified ev s r) ((λ tx, (tx, ev)) <$> reached ev r).
Proof.
  unfold send. rewrite gets_bind. unfold mbind, M_bind. rewrite for_each_emit. simpl.
  by rewrite app_nil_r.
Qed.

Lemma with_store_put (e : SignedEntry) (r : R) o s' :
  put (Er:=Er) e (rep_store r) = Done o s' [] →
  with_store (put (Er:=Er) e) (λ _, mret ()) r = Done o (mkReplica s' (rep_info r)) [].
Proof. intros Hp. unfold with_store. by rewrite Hp. Qed.

Lemma replica_eta (r : R) : mkReplica (rep_store r) (rep_info r) = r.
Proof. by destruct r. Qed.

Lemma ensure_open_run {A} (m : M R (Channel * Event) (result (InsertError Er) A)) r :
  (_ ←? ensure_open; m) r = if closed (rep_info r) then Done (Err Closed) r [] else m r.
Proof.
  destruct (closed (rep_info r)) eqn:Hcl.
  - apply try_bind_Err. unfold ensure_open. rewrite gets_bind. by rewrite Hcl.
  - rewrite (try_bind_Ok _ _ r () r); [done|]. unfold ensure_open. rewrite gets_bind. by rewrite Hcl.
Qed.

(** The download policy of the document, with the store [s]. *)
Definition policy_in (s : S) (r : R) : DownloadPolicy :=
  match get_download_policy (Er:=Er) (rep_id r) s with Ok p => p | Err _ => policy_default end.

(** The event about an entry that was stored. *)
Definition event_of (e : SignedEntry) (origin : InsertOrigin) (s : S) (r : R) : Event :=
  match origin with
  | Local => LocalInsert (rep_id r) e
  | Sync from st =>
      RemoteInsert (rep_id r) e from (default false (policy_matches (policy_in s r) (se_entry e))) st
  end.

(** An entry that is validated is refused if the content covers it; otherwise it is
    stored, and the subscribers are told. *)
Lemma insert_entry_run now e origin (r : R) :
  validate_entry now (rep_id r) e origin = Some (Ok ()) →
  store_ok (rep_store r) → entry_ok e → 64 ≤ length (se_id e) →
  (covered (content (rep_store r)) e ∧ insert_entry (Er:=Er) now e origin r = Done (Err NewerEntryExists) r []) ∨
  (¬ covered (content (rep_store r)) e ∧ ∃ s', let ev := event_of e origin s' r in
     insert_entry (Er:=Er) now e origin r =
       Done (Ok (ssize (content (rep_store r)) - ssize (pruned e (content (rep_store r))))%N)
         (notified ev s' r) ((λ tx, (tx, ev)) <$> reached ev r) ∧
     store_ok s' ∧ content s' = merged e (content (rep_store r))).
Proof.
  intros Hval Hs He Hlen. destruct (put_spec e _ Hs He) as (s' & Hs' & Hc & Hput & Hsame).
  apply with_store_put in Hput. unfold insert_entry. rewrite gets_bind, Hval. cbn [or_panic].
  destruct (decide (covered (content (rep_store r)) e)) as [Hcov|Hcov].
  - left. split; [done|]. unfold mbind, M_bind. simpl. rewrite Hput. simpl.
    by rewrite (Hsame Hcov), replica_eta.
  - right. split; [done|]. exists s'. split; [|done].
    unfold mbind, M_bind. simpl. rewrite Hput. destruct origin as [|from st]; simpl.
    + rewrite send_run. simpl. by rewrite app_nil_r.
    + unfold rep_id. cbn [rep_info rep_store].
      change (cap_id (capability (rep_info r))) with (rep_id r). fold (policy_in s' r).
      unfold policy_matches, id_key, slice_from. change (e_id (se_entry e)) with (se_id e).
      rewrite bool_decide_eq_true_2 by done. simpl. rewrite send_run. simpl. by rewrite app_nil_r.
Qed.

Definition local_entry (t : N) (key : list byte) (author : Author) (hash : Hash) (n : N)
    (secret : NamespaceSecret) (r : R) : SignedEntry :=
  entry_sign (mkEntry (record_id r key author) (record_new hash n t)) secret author.

Lemma record_id_parts secret (r : R) key author :
  capability (rep_info r) = CapWrite secret →
  id_namespace (record_id r key author) = Some (rep_id r) ∧ 64 ≤ length (record_id r key author).
Proof.
  intros Hcap. assert (Hwf : id_wf (rep_id r, author_id author, key)).
  { unfold rep_id. rewrite Hcap. split; apply key_public_length. }
  change (record_id r key author) with (flat (rep_id r, author_id author, key)).
  split; [by apply flat_parts|by apply flat_length].
Qed.

(** An insertion into a writable replica either reports that a newer entry
    exists, exactly if an entry of the document at the key or at a prefix of it is
    not older, and then nothing changes; or it stores the entry, signed with the
    secrets of the document and of the author, in place of the entries that it
    makes obsolete, returns their number, and sends one event about it to every
    subscriber that can be reached; the others are dropped. *)
Theorem local_insert_outcome t now key author hash n secret (r : R) :
  capability (rep_info r) = CapWrite secret → closed (rep_info r) = false →
  n ≠ 0%N → hash ≠ Hash_EMPTY → (t ≤ wrapping_add64 now MAX_TIMESTAMP_FUTURE_SHIFT)%N →
  store_ok (rep_store r) → entry_ok (local_entry t key author hash n secret r) →
  let e := local_entry t key author hash n secret r in
  let ev := LocalInsert (rep_id r) e in
  (covered (content (rep_store r)) e ∧
     insert (Er:=Er) t now key author hash n r = Done (Err NewerEntryExists) r []) ∨
  (¬ covered (content (rep_store r)) e ∧ ∃ s',
     insert (Er:=Er) t now key author hash n r =
       Done (Ok (ssize (content (rep_store r)) - ssize (pruned e (content (rep_store r))))%N)
         (notified ev s' r) ((λ tx, (tx, ev)) <$> reached ev r) ∧
     store_ok s' ∧ content s' = merged e (content (rep_store r))).
Proof.
  intros Hcap Hcl Hn Hh Ht Hs He e ev.
  destruct (record_id_parts secret r key author Hcap) as [Hns Hlen].
  assert (Hval : validate_entry now (rep_id r) e Local = Some (Ok ())).
  { unfold validate_entry. change (se_id e) with (record_id r key author). rewrite Hns. simpl.
    rewrite bool_decide_eq_true_2 by done. simpl. by rewrite (proj2 (N.ltb_ge _ _) Ht). }
  assert (Hrun : insert (Er:=Er) t now key author hash n r = insert_entry (Er:=Er) now e Local r).
  { unfold insert. apply N.eqb_neq in Hn as ->. rewrite bool_decide_eq_false_2 by done. simpl.
    rewrite ensure_open_run, Hcl, !gets_bind. by rewrite Hcap. }
  rewrite Hrun. by apply (insert_entry_run now e Local r).
Qed.

(** A replica with read access only takes no local entries: an insertion and a
    deletion fail, with the error that says so unless the replica is closed or the
    entry is empty; nothing changes and nothing is sent. *)
Theorem read_only_refuses_writes t now key author hash n (r : R) id :
  capability (rep_info r) = CapRead id →
  insert (Er:=Er) t now key author hash n r =
    Done (Err (if (n =? 0)%N || bool_decide (hash = Hash_EMPTY) then EntryIsEmpty
               else if closed (rep_info r) then Closed else ReadOnly)) r [] ∧
  delete_prefix (Er:=Er) t now key author r =
    Done (Err (if closed (rep_info r) then Closed else ReadOnly)) r [].
Proof.
  intros Hcap. unfold insert, delete_prefix. rewrite !ensure_open_run. split.
  - destruct (_ || _); [done|]. rewrite ensure_open_run, !gets_bind, Hcap. by destruct (closed _).
  - rewrite !gets_bind, Hcap. by destruct (closed _).
Qed.

(** *** The check of empty entries *)

Lemma sync_on_insert_run policy ns from v (s : S) i :
  64 ≤ length (se_id v.1) →
  ∃ i' out, sync_on_insert policy ns from v (mkReplica s i) = Done () (mkReplica s i') out.
Proof.
  destruct v as [e st]. intros Hlen. unfold sync_on_insert. rewrite gets_bind. cbn [rep_info].
  destruct (subscribers i) as [|tx txs] eqn:Hsub; [by eauto|].
  unfold policy_matches, id_key, slice_from. change (e_id (se_entry e)) with (se_id e).
  rewrite bool_decide_eq_true_2 by done. cbn [mbind option_bind or_panic].
  unfold mbind, M_bind, mret, M_ret. rewrite (send_run _ s (mkReplica s i)). by eauto.
Qed.

(** A message with one entry, of which the peer wants no answer. *)
Definition single_message (range : Range RecordIdentifier) (e : SignedEntry) (st : ContentStatus)
    : Message SignedEntry RecordIdentifier :=
  mkMessage [PartItem (mkRangeItem range [(e, st)] true)].

Lemma process_single validate status range e st (s : S) :
  store_ok s → entry_ok e → validate s e st = true →
  ∃ s' es, process_message (Er:=Er) validate status SyncConfig_default (single_message range e st) s =
      Done (Ok None) s' es ∧ (es = [] ∨ es = [(e, st)]) ∧ store_ok s' ∧ content s' = merged e (content s).
Proof.
  intros Hs He Hv. destruct (put_spec e s Hs He) as (s' & Hs' & Hc & Hput & _). exists s'.
  unfold process_message, single_message. cbn [parts message_items message_fingerprints omap list_omap].
  unfold process_item, ok, store_value. cbn [try_for try_each]. unfold try_bind, mbind, M_bind. simpl.
  rewrite Hv, Hput. destruct (decide _); simpl; eexists; (split; [reflexivity|]); auto.
Qed.

(** Synchronisation does not check that an entry of length zero has the hash of
    no content, nor the converse: an entry that [insert_remote_entry] refuses for
    this reason is accepted from a message. *)
Theorem sync_skips_empty_check now range e st from state author (r : R) :
  closed (rep_info r) = false → store_ok (rep_store r) → entry_ok e →
  id_author (se_id e) = Some author →
  validate_entry now (rep_id r) e (Sync from st) = Some (Ok ()) →
  validate_empty (se_entry e) = Err InvalidEmptyEntry →
  insert_remote_entry (Er:=Er) now e from st r = Done (Err (InsertValidation InvalidEmptyEntry)) r [] ∧
  ∃ state' r' es,
    sync_process_message (Er:=Er) now (single_message range e st) from state r =
      Done (state', Ok None) r' es ∧
    content (rep_store r') = merged e (content (rep_store r)).
Proof.
  intros Hcl Hs He Ha Hval Hemp. split.
  { unfold insert_remote_entry. by rewrite ensure_open_run, Hcl, Hemp. }
  pose proof (id_author_length _ _ Ha) as Hlen.
  unfold sync_process_message, sync_closed. destruct (process_single (sync_validate now (rep_id r) from)
    (sync_content_status (rep_info r)) range e st (rep_store r) Hs He) as (s' & es & Hp & Hes & Hs' & Hc).
  { unfold sync_validate. by rewrite Hval. }
  set (policy := policy_in (rep_store r) r).
  assert (Hfor : ∃ i' out, for_each es (sync_on_insert policy (rep_id r) from) (mkReplica s' (rep_info r)) =
    Done () (mkReplica s' i') out).
  { destruct Hes as [->| ->]; [by eauto|]. cbn [for_each].
    destruct (sync_on_insert_run policy (rep_id r) from (e, st) s' (rep_info r) Hlen) as (i' & out & Hi).
    unfold mbind, M_bind. rewrite Hi. by eauto. }
  destruct Hfor as (i' & out & Hfor).
  assert (Hrec : receive_heads (values (single_message range e st)) (heads_received state) =
    Some (heads_insert author (r_timestamp (se_record e)) (heads_received state))).
  { simpl. by rewrite Ha. }
  assert (Hopen : ensure_open (Er:=Er) r = Done (Ok ()) r []).
  { unfold ensure_open. rewrite gets_bind. by rewrite Hcl. }
  unfold mbind, M_bind, sync_store. rewrite Hopen, Hrec. simpl.
  unfold mbind, M_bind, with_store. rewrite Hp. unfold policy, policy_in in Hfor. rewrite Hfor. simpl. eauto.
Qed.

End Ops.

(** ** Examples *)

(** Keys for the examples: a public key is the secret one cut or filled to 32 bytes,
    a signature is the public key and the message. Every event can be sent. *)
#[local] Instance ex_keys : Ed25519 := {
  key_public sk := resize 32 x00 sk;
  key_sign sk msg := resize 32 x00 sk ++ msg;
  key_valid pk := bool_decide (length pk = 32);
  key_verify pk msg sig := bool_decide (sig = pk ++ msg);
}.

#[local] Instance ex_keys_laws : Ed25519Laws.
Proof.
  split; intros; cbn [key_public key_valid key_verify key_sign ex_keys].
  - apply length_resize.
  - apply bool_decide_eq_true_2, length_resize.
  - by apply bool_decide_eq_true_2.
Qed.

#[local] Instance ex_channels : Channels := {| ch_send _ _ := true |}.
#[local] Instance ex_hash : Blake3Hash := λ bytes, [default x00 (Byte.of_N (len bytes))].

Definition ex_secret : NamespaceSecret := mkNamespaceSecret [x07].
Definition ex_author : Author := mkAuthor [x01].
Definition ex_ns : NamespaceId := secret_id ex_secret.

Definition ex_store : StoreInstance (gmap RecordsId RecordsValue) (gmap RecordsByKeyId ())
    (gmap LatestPerAuthorKey LatestPerAuthorValue) :=
  mkStoreInstance ex_ns (mkTables ∅ ∅ ∅).

#[local] Instance ex_policies : DownloadPolicyStore
    (StoreInstance (gmap RecordsId RecordsValue) (gmap RecordsByKeyId ())
      (gmap LatestPerAuthorKey LatestPerAuthorValue)) () :=
  {| get_download_policy _ _ := Ok policy_default |}.

(** A replica with two subscribers, and what an insertion makes of it. *)
Definition ex_replica (c : Capability) := mkReplica ex_store (mkReplicaInfo c [1%N; 2%N] None false).
Definition ex_writable := ex_replica (CapWrite ex_secret).

Definition is_done {S E A} (o : outcome S E A) : bool :=
  match o with Done _ _ _ => true | Panicked => false end.
Definition ex_run := insert (Er:=()) 5 6 [x05] ex_author [x00] 1 ex_writable.
Definition ex_after := match ex_run with Done _ r _ => r | Panicked => ex_writable end.
Definition ex_events := match ex_run with Done _ _ es => es | Panicked => [] end.
Definition ex_result := match ex_run with Done a _ _ => a | Panicked => Err Closed end.

Lemma ex_run_done : ex_run = Done ex_result ex_after ex_events.
Proof.
  assert (H : is_done ex_run = true) by (vm_compute; reflexivity).
  unfold ex_result, ex_after, ex_events. revert H. by destruct ex_run.
Qed.

Lemma ex_no_rows k : rows (DbErr:=()) ex_store !! k = None.
Proof. exact (lookup_empty k). Qed.

Lemma ex_store_wf : si_wf (DbErr:=()) ex_store.
Proof. split; [reflexivity|]. intros k v. by rewrite ex_no_rows. Qed.

Lemma ex_no_content id e : si_content (DbErr:=()) ex_store !! id = Some e → False.
Proof. intros (k & v & Hk & _)%fs_content_lookup; [|apply ex_store_wf]. by rewrite ex_no_rows in Hk. Qed.

Lemma replica_document_authentic_witness :
  (length ex_events = 2 ∧ ex_result = Ok 0%N) ∧
  rep_id ex_after = rep_id ex_writable ∧
  (∀ id e, si_content (DbErr:=()) (rep_store ex_after) !! id = Some e → authentic 6 (rep_id ex_writable) e) ∧
  Forall (λ ce, event_ok 6 (rep_id ex_writable) ce.2) ex_events.
Proof.
  split; [vm_compute; split; reflexivity|].
  destruct (replica_document_authentic (DbErr:=()) 6 ex_writable ex_after (ex_events ++ [])) as (H1 & H2 & H3 & _).
  - apply (steps_step 6 ex_writable ex_after ex_after); [|apply steps_refl].
    apply (step_insert 6 5 6 [x05] ex_author [x00] 1 ex_result); [vm_compute; discriminate|].
    exact ex_run_done.
  - exact ex_store_wf.
  - reflexivity.
  - intros id e He. destruct (ex_no_content id e He).
  - rewrite app_nil_r in H3. auto.
Defined.

Definition ex_entry : SignedEntry := local_entry 5 [x05] ex_author [x00] 1 ex_secret ex_writable.

Lemma ex_fs_ok : fs_ok (DbErr:=()) ex_ns ex_store.
Proof. split; [reflexivity|]. split; [exact ex_store_wf|]. intros k v. by rewrite ex_no_rows. Qed.

Lemma ex_entry_ok hash n : hash ≠ Hash_EMPTY →
  fs_entry_ok ex_ns (local_entry 5 [x05] ex_author hash n ex_secret ex_writable).
Proof.
  intros Hh. exists (ex_ns, author_id ex_author, [x05]). split; [split; apply key_public_length|].
  split; [reflexivity|]. split; [reflexivity|].
  split; [exact (plain_key_snoc [] x05 ltac:(discriminate))|exact Hh].
Qed.

Lemma local_insert_outcome_witness :
  ∃ s', insert (Er:=()) 5 6 [x05] ex_author [x00] 1 ex_writable =
      Done (Ok 0%N) (notified (LocalInsert ex_ns ex_entry) s' ex_writable)
        [(1%N, LocalInsert ex_ns ex_entry); (2%N, LocalInsert ex_ns ex_entry)] ∧
    si_content (DbErr:=()) s' = merged ex_entry (si_content (DbErr:=()) ex_store).
Proof.
  destruct (local_insert_outcome (HL:=fs_laws ex_ns) 5 6 [x05] ex_author [x00] 1 ex_secret ex_writable)
    as [[Hcov _]|(_ & s' & Hrun & _ & Hc)].
  - reflexivity.
  - reflexivity.
  - discriminate.
  - discriminate.
  - vm_compute. discriminate.
  - exact ex_fs_ok.
  - apply ex_entry_ok. discriminate.
  - destruct Hcov as (k & x & Hk & _). destruct (ex_no_content _ _ Hk).
  - exists s'. split; [|exact Hc]. etransitivity; [exact Hrun|]. f_equal.
Defined.

Lemma read_only_refuses_writes_witness :
  insert (Er:=()) 5 6 [x05] ex_author [x00] 1 (ex_replica (CapRead ex_ns)) =
    Done (Err ReadOnly) (ex_replica (CapRead ex_ns)) [] ∧
  delete_prefix (Er:=()) 5 6 [x05] ex_author (ex_replica (CapRead ex_ns)) =
    Done (Err ReadOnly) (ex_replica (CapRead ex_ns)) [].
Proof.
  exact (read_only_refuses_writes 5 6 [x05] ex_author [x00] 1 (ex_replica (CapRead ex_ns)) ex_ns eq_refl).
Defined.

(** An entry of length zero with the hash of some content. *)
Definition ex_bad : SignedEntry := local_entry 5 [x05] ex_author [x00] 0 ex_secret ex_writable.
Definition ex_state : SyncOutcome := mkSyncOutcome heads_default 0 0.

Lemma sync_skips_empty_check_witness :
  insert_remote_entry (Er:=()) 6 ex_bad [] Complete ex_writable =
    Done (Err (InsertValidation InvalidEmptyEntry)) ex_writable [] ∧
  ∃ state' r' es,
    sync_process_message (Er:=()) 6 (single_message (mkRange [] []) ex_bad Complete) [] ex_state ex_writable =
      Done (state', Ok None) r' es ∧
    si_content (DbErr:=()) (rep_store r') = merged ex_bad (si_content (DbErr:=()) ex_store).
Proof.
  apply (sync_skips_empty_check (HL:=fs_laws ex_ns) 6 (mkRange [] []) ex_bad Complete [] ex_state
    (author_id ex_author) ex_writable).
  - reflexivity.
  - exact ex_fs_ok.
  - apply ex_entry_ok. discriminate.
  - vm_compute. reflexivity.
  - vm_compute. reflexivity.
  - vm_compute. reflexivity.
Defined.
