(* ===== verification/DocsTx.v ===== *)
(** * Transactions of the document store (protocols/krikos-docs/src/store/fs.rs)

    The store batches its writes: a write transaction stays open across calls and
    is committed when the data has to be durable, when a snapshot is taken, or when
    it is older than [MAX_COMMIT_DELAY]. What is stored in the database, [D], is
    left open here. The operations of [redb] on a database are a class. *)
From stdpp Require Import base tactics list.
From Stdlib Require Import ZArith Lia.
From S2P Require Import Prelude.

Local Open Scope N_scope.

(** [begin_write] with the tables opened, [begin_read], and [commit] of the tables
    of a write transaction. *)
Class Database (D Er : Type) : Type := {
  begin_write : D → result Er D;
  begin_read : D → result Er D;
  commit : D → result Er D;
}.

(** Both kinds of transaction start from what is committed, and a commit makes the
    tables of the transaction the committed ones. *)
Class DatabaseLaws (D Er : Type) `{!Database D Er} : Prop := {
  law_begin_write d : begin_write d = Ok d;
  law_begin_read d : begin_read d = Ok d;
  law_commit d : commit d = Ok d;
}.

(** In milliseconds. *)
Definition MAX_COMMIT_DELAY : N := 500.

Inductive CurrentTransaction (D : Type) : Type :=
| TxNone
| TxRead (tables : D)
| TxWrite (tables : D) (since : N).
Arguments TxNone {D}.
Arguments TxRead {D} _.
Arguments TxWrite {D} _ _.

(** The database, as it is committed, and the current transaction. *)
Record TxStore (D : Type) : Type := mkTxStore {
  db : D;
  transaction : CurrentTransaction D;
}.
Arguments mkTxStore {D} _ _.
Arguments db {D} _.
Arguments transaction {D} _.

Section Tx.
  Context {D Er : Type} `{HD : !Database D Er}.

Local Notation T := (TxStore D).

(** [std::mem::take(&mut self.transaction)]. *)
Definition taken (s : T) : T := mkTxStore (db s) TxNone.

(** [w.commit()?], which consumes the transaction. *)
Definition commit_tx (w : D) (s : T) : result Er () * T :=
  match commit w with
  | Ok d => (Ok (), mkTxStore d TxNone)
  | Err e => (Err e, taken s)
  end.

Definition flush (s : T) : result Er () * T :=
  match transaction s with
  | TxWrite w _ => commit_tx w s
  | _ => (Ok (), taken s)
  end.

(** [begin_read] and the tables of the new transaction. *)
Definition open_read (s : T) : result Er D * T :=
  match begin_read (db s) with
  | Ok t => (Ok t, mkTxStore (db s) (TxRead t))
  | Err e => (Err e, s)
  end.

Definition snapshot (s : T) : result Er D * T :=
  match transaction s with
  | TxNone => open_read (taken s)
  | TxWrite w _ =>
      match commit_tx w s with
      | (Ok _, s) => open_read s
      | (Err e, s) => (Err e, s)
      end
  | TxRead tables => (Ok tables, s)
  end.

(** The read transaction belongs to the caller. *)
Definition snapshot_owned (s : T) : result Er D * T :=
  match flush s with
  | (Ok _, s) =>
      match begin_read (db s) with
      | Ok t => (Ok t, s)
      | Err e => (Err e, s)
      end
  | (Err e, s) => (Err e, s)
  end.

(** A new write transaction, with the time it was opened. *)
Definition open_write (now : N) (s : T) : result Er (D * N) * T :=
  match begin_write (db s) with
  | Ok t => (Ok (t, now), s)
  | Err e => (Err e, s)
  end.

(** The write transaction that [tables] and [modify] work in: the current one,
    unless it is too old. It is taken out of the store. *)
Definition write_tx (now : N) (s : T) : result Er (D * N) * T :=
  match transaction s with
  | TxNone => open_write now (taken s)
  | TxWrite w since =>
      if MAX_COMMIT_DELAY <? now - since then
        match commit_tx w s with
        | (Ok _, s) => open_write now s
        | (Err e, s) => (Err e, s)
        end
      else (Ok (w, since), taken s)
  | TxRead _ => open_write now (taken s)
  end.

(** The current state of the tables, to read from. *)
Definition tables (now : N) (s : T) : result Er D * T :=
  match write_tx now s with
  | (Ok (t, since), s) => (Ok t, mkTxStore (db s) (TxWrite t since))
  | (Err e, s) => (Err e, s)
  end.

(** [modify]: what the closure wrote stays in the transaction, also if it failed. *)
Definition modify_tx {A} (now : N) (f : D → result Er A * D) (s : T) : result Er A * T :=
  match write_tx now s with
  | (Ok (t, since), s) =>
      let '(res, t) := f t in
      (res, mkTxStore (db s) (TxWrite t since))
  | (Err e, s) => (Err e, s)
  end.

End Tx.

(** ** Facts *)

Section Facts.
  Context {D Er : Type} `{HD : !Database D Er} `{HL : !DatabaseLaws D Er}.

Local Notation T := (TxStore D).

(** The tables as an operation sees them. *)
Definition view (s : T) : D :=
  match transaction s with TxWrite t _ => t | _ => db s end.

(** A read transaction that is kept has nothing newer than it. *)
Definition tx_ok (s : T) : Prop :=
  match transaction s with TxRead t => t = db s | _ => True end.

Lemma write_tx_spec now (s : T) :
  ∃ since d, write_tx (Er:=Er) now s = (Ok (view s, since), mkTxStore d TxNone) ∧ (d = db s ∨ d = view s).
Proof.
  destruct s as [d [|t|w since]]; unfold write_tx, open_write, commit_tx, view; simpl.
  - rewrite law_begin_write. eauto.
  - rewrite law_begin_write. eauto.
  - destruct (_ <? _); [|eauto]. rewrite law_commit. simpl. rewrite law_begin_write. eauto.
Qed.

(** The committed tables after a call are those from before, or what the call found. *)
Lemma modify_tx_spec {A} now (f : D → result Er A * D) (s : T) :
  ∃ s', modify_tx now f s = ((f (view s)).1, s') ∧ tx_ok s' ∧ view s' = (f (view s)).2 ∧
    (db s' = db s ∨ db s' = view s).
Proof.
  unfold modify_tx. destruct (write_tx_spec now s) as (since & d & -> & Hd).
  destruct (f (view s)) as [r t] eqn:Hf. simpl. by eexists.
Qed.

Lemma tables_spec now (s : T) :
  ∃ s', tables (Er:=Er) now s = (Ok (view s), s') ∧ tx_ok s' ∧ view s' = view s ∧
    (db s' = db s ∨ db s' = view s).
Proof.
  unfold tables. destruct (write_tx_spec now s) as (since & d & -> & Hd). by eexists.
Qed.

Lemma snapshot_spec (s : T) :
  tx_ok s → ∃ s', snapshot (Er:=Er) s = (Ok (view s), s') ∧ tx_ok s' ∧ view s' = view s ∧ db s' = view s.
Proof.
  destruct s as [d [|t|w since]]; unfold snapshot, open_read, commit_tx, view, tx_ok; simpl; intros Hs.
  - rewrite law_begin_read. by eexists.
  - subst t. by eexists.
  - rewrite law_commit. simpl. rewrite law_begin_read. by eexists.
Qed.

Lemma flush_spec (s : T) :
  ∃ s', flush (Er:=Er) s = (Ok (), s') ∧ tx_ok s' ∧ view s' = view s ∧ db s' = view s.
Proof.
  destruct s as [d [|t|w since]]; unfold flush, commit_tx, view; simpl; [by eexists..|].
  rewrite law_commit. by eexists.
Qed.

Lemma snapshot_owned_spec (s : T) :
  ∃ s', snapshot_owned (Er:=Er) s = (Ok (view s), s') ∧ tx_ok s' ∧ view s' = view s ∧ db s' = view s.
Proof.
  unfold snapshot_owned. destruct (flush_spec s) as (s' & -> & Hok & Hv & Hd).
  rewrite law_begin_read, Hd. eauto.
Qed.

(** ** Sequences of calls *)

(** A call of the store; the calls that write return values of [A]. *)
Inductive Call (A : Type) : Type :=
| CallModify (now : N) (f : D → result Er A * D)
| CallTables (now : N)
| CallSnapshot
| CallSnapshotOwned
| CallFlush.

Inductive Answer (A : Type) : Type :=
| AnsValue (r : result Er A)
| AnsTables (r : result Er D)
| AnsUnit (r : result Er ()).

End Facts.

Arguments CallModify {D Er A} _ _.
Arguments CallTables {D Er A} _.
Arguments CallSnapshot {D Er A}.
Arguments CallSnapshotOwned {D Er A}.
Arguments CallFlush {D Er A}.
Arguments AnsValue {D Er A} _.
Arguments AnsTables {D Er A} _.
Arguments AnsUnit {D Er A} _.

Section Calls.
  Context {D Er A : Type} `{HD : !Database D Er}.

Definition on_answer {X Y S} (f : X → Y) (p : X * S) : Y * S := (f p.1, p.2).

Definition run_call (c : Call (D:=D) (Er:=Er) A) (s : TxStore D) : Answer (D:=D) (Er:=Er) A * TxStore D :=
  match c with
  | CallModify now f => on_answer AnsValue (modify_tx now f s)
  | CallTables now => on_answer AnsTables (tables now s)
  | CallSnapshot => on_answer AnsTables (snapshot s)
  | CallSnapshotOwned => on_answer AnsTables (snapshot_owned s)
  | CallFlush => on_answer AnsUnit (flush s)
  end.

(** The same call on tables without transactions. *)
Definition spec_call (c : Call (D:=D) (Er:=Er) A) (d : D) : Answer (D:=D) (Er:=Er) A * D :=
  match c with
  | CallModify _ f => on_answer AnsValue (f d)
  | CallTables _ | CallSnapshot | CallSnapshotOwned => (AnsTables (Ok d), d)
  | CallFlush => (AnsUnit (Ok ()), d)
  end.

Fixpoint run_calls {S} (step : Call (D:=D) (Er:=Er) A → S → Answer (D:=D) (Er:=Er) A * S)
    (cs : list (Call A)) (s : S) : list (Answer A) * S :=
  match cs with
  | [] => ([], s)
  | c :: cs =>
      let '(a, s) := step c s in
      let '(rest, s) := run_calls step cs s in
      (a :: rest, s)
  end.

(** The calls after which everything is committed. *)
Definition persists (c : Call (D:=D) (Er:=Er) A) : bool :=
  match c with CallSnapshot | CallSnapshotOwned | CallFlush => true | _ => false end.

Lemma run_call_spec `{!DatabaseLaws D Er} c (s : TxStore D) :
  tx_ok s → ∃ s', run_call c s = ((spec_call c (view s)).1, s') ∧ tx_ok s' ∧
    view s' = (spec_call c (view s)).2 ∧ (db s' = db s ∨ db s' = view s) ∧
    (persists c = true → db s' = view s').
Proof.
  intros Hs. destruct c as [now f|now| | |]; unfold run_call, on_answer.
  - destruct (modify_tx_spec now f s) as (s' & -> & ? & ? & ?). by exists s'.
  - destruct (tables_spec (Er:=Er) now s) as (s' & -> & ? & ? & ?). by exists s'.
  - destruct (snapshot_spec (Er:=Er) s Hs) as (s' & -> & ? & ? & ?). exists s'. simpl. split_and!; auto; congruence.
  - destruct (snapshot_owned_spec (Er:=Er) s) as (s' & -> & ? & ? & ?). exists s'. simpl. split_and!; auto; congruence.
  - destruct (flush_spec (Er:=Er) s) as (s' & -> & ? & ? & ?). exists s'. simpl. split_and!; auto; congruence.
Qed.

End Calls.

(** * Properties of the transactions of the document store *)

Local Open Scope nat_scope.

Section Props.
  Context {D Er A : Type} `{HD : !Database D Er} `{HL : !DatabaseLaws D Er}.

Lemma run_calls_view (cs : list (Call A)) (s : TxStore D) :
  tx_ok s → (run_calls run_call cs s).1 = (run_calls spec_call cs (view s)).1 ∧
    view (run_calls run_call cs s).2 = (run_calls spec_call cs (view s)).2 ∧
    tx_ok (run_calls run_call cs s).2.
Proof.
  revert s. induction cs as [|c cs IH]; intros s Hs; [done|]. cbn [run_calls].
  destruct (run_call_spec c s Hs) as (s' & -> & Hs' & Hv & _).
  destruct (IH s' Hs') as (H1 & H2 & H3).
  destruct (spec_call c (view s)) as [a d]. simpl in *. subst d.
  destruct (run_calls run_call cs s') as [rest s2], (run_calls spec_call cs (view s')) as [rest' d2].
  simpl in *. by subst.
Qed.


(** The state that a crash leaves behind. *)
Lemma run_calls_db (cs : list (Call A)) (s : TxStore D) :
  tx_ok s → db (run_calls run_call cs s).2 = db s ∨
    ∃ n, db (run_calls run_call cs s).2 = (run_calls spec_call (take n cs) (view s)).2.
Proof.
  revert s. induction cs as [|c cs IH]; intros s Hs; [by left|]. cbn [run_calls].
  destruct (run_call_spec c s Hs) as (s' & -> & Hs' & Hv & Hd & _).
  specialize (IH s' Hs'). destruct (run_calls run_call cs s') as [rest s2]. simpl in *.
  destruct IH as [IH|[n IH]].
  - destruct Hd as [Hd|Hd]; [left; congruence|]. right. exists 0. simpl. congruence.
  - right. exists (S n). cbn [take run_calls].
    destruct (spec_call c (view s)) as [a d]. simpl in Hv. subst d.
    rewrite IH. by destruct (run_calls spec_call (take n cs) (view s')).
Qed.


End Props.

(** ** Examples *)

(** A database of one number; every operation succeeds. *)
#[local] Instance ex_db : Database N () := {| begin_write := Ok; begin_read := Ok; commit := Ok |}.
#[local] Instance ex_db_laws : DatabaseLaws N ().
Proof. by split. Qed.

Definition ex_add (n : N) : N → result () N * N := λ d, (Ok d, (d + n)%N).

(** The second write comes too late for the transaction of the first one, and is lost
    if the store crashes after it. *)
Definition ex_calls : list (Call (D:=N) (Er:=()) N) :=
  [CallModify 0 (ex_add 1); CallModify 1000 (ex_add 2); CallTables 1001].


