(* ===== verification/DocsDb.v ===== *)
(** * The document store: documents, authors, peers, policies (store/fs.rs)

    The operations of [Store] besides those on the entries of an open document.
    Each of them works on the tables of the current transaction: the closures that
    are given to [modify], and what is read with [tables] or [snapshot]. The tables
    are those of [redb]: classes of operations that may fail. *)
From stdpp Require Import base tactics list gmap orders sorting strings.
From Stdlib Require Import ZArith Lia Strings.Byte.
From S2P Require Import Prelude Bytes Ranger Records DocsBounds DocsStore DocsHeads DocsReplica DocsTx.

Local Open Scope N_scope.

(** ** Tables *)

(** Further operations of a table: removing a key, [retain_in], and the range of
    everything. *)
Class TableMore (T DbErr K V : Type) : Type := {
  t_remove : K → T → result DbErr T;
  t_retain_in : Bound K * Bound K → (K → V → bool) → T → result DbErr T;
  t_iter : T → result DbErr (list (result DbErr (K * V)));
}.

(** A table with several values for a key, which are read in their order. *)
Class Multimap (T DbErr K V : Type) : Type := {
  mm_get : K → T → result DbErr (list (result DbErr V));
  mm_insert : K → V → T → result DbErr T;
  mm_remove : K → V → T → result DbErr T;
  mm_remove_all : K → T → result DbErr T;
}.

(** Peers of a document with the time at which they were last useful. *)
Definition PeerRow : Type := N * PeerIdBytes.

Record DbTables (TR TK TL TN TP TD TA : Type) : Type := mkDbTables {
  entries : Tables TR TK TL;
  namespaces : TN;
  namespace_peers : TP;
  download_policies : TD;
  authors : TA;
}.
Arguments mkDbTables {TR TK TL TN TP TD TA} _ _ _ _ _.
Arguments entries {TR TK TL TN TP TD TA} _.
Arguments namespaces {TR TK TL TN TP TD TA} _.
Arguments namespace_peers {TR TK TL TN TP TD TA} _.
Arguments download_policies {TR TK TL TN TP TD TA} _.
Arguments authors {TR TK TL TN TP TD TA} _.

(** The errors of the store ([anyhow::Error]). *)
Inductive DbError (DbErr : Type) : Type :=
| DbTable (e : DbErr)
| BadCapability
| CapabilityMismatch
| DocumentNotCreated
| ReplicaNotClosed
| Postcard
| ReplicaNotFound.
Arguments DbTable {DbErr} _.
Arguments BadCapability {DbErr}.
Arguments CapabilityMismatch {DbErr}.
Arguments DocumentNotCreated {DbErr}.
Arguments ReplicaNotClosed {DbErr}.
Arguments Postcard {DbErr}.
Arguments ReplicaNotFound {DbErr}.

Inductive ImportNamespaceOutcome : Type :=
| ImportInserted
| ImportUpgraded
| ImportNoChange.

Definition PEERS_PER_DOC_CACHE_SIZE : N := 5.

(** The error of a table operation, as an error of the store. *)
Definition in_db {DbErr A} (r : result DbErr A) : result (DbError DbErr) A :=
  match r with Ok a => Ok a | Err e => Err (DbTable e) end.

Definition ok_or {E A} (e : E) (o : option A) : result E A :=
  match o with Some a => Ok a | None => Err e end.

(** A computation on the tables that may fail, with [?]. *)
Definition db_bind {D E A B} (m : D → result E A * D) (f : A → D → result E B * D) : D → result E B * D :=
  λ d, match m d with
       | (Ok a, d) => f a d
       | (Err e, d) => (Err e, d)
       end.

Definition ret {D E A} (r : result E A) : D → result E A * D := λ d, (r, d).

(** [let _ = ..]. *)
Definition ignore_error {D E} (m : D → result E () * D) : D → result E () * D := λ d, (Ok (), (m d).2).

Notation "x ←! m ; k" := (db_bind m (λ x, k))
  (at level 20, m at level 100, k at level 200, only parsing) : stdpp_scope.
Notation "' x ←! m ; k" := (db_bind m (λ x, k))
  (at level 20, x pattern, m at level 100, k at level 200, only parsing) : stdpp_scope.

Section Db.
  Context {TR TK TL TN TP TD TA DbErr : Type}
    `{HTR : !Table TR DbErr RecordsId RecordsValue} `{HMR : !TableMore TR DbErr RecordsId RecordsValue}
    `{HTK : !Table TK DbErr RecordsByKeyId ()} `{HMK : !TableMore TK DbErr RecordsByKeyId ()}
    `{HTL : !Table TL DbErr LatestPerAuthorKey LatestPerAuthorValue}
    `{HTN : !Table TN DbErr NamespaceId (N * list byte)} `{HMN : !TableMore TN DbErr NamespaceId (N * list byte)}
    `{HTP : !Multimap TP DbErr NamespaceId PeerRow}
    `{HTD : !Table TD DbErr NamespaceId (list byte)} `{HMD : !TableMore TD DbErr NamespaceId (list byte)}
    `{HTA : !Table TA DbErr AuthorId (list byte)} `{HMA : !TableMore TA DbErr AuthorId (list byte)}
    `{HK : !Ed25519} `{HW : !WireFormat DownloadPolicy}.

Local Notation D := (DbTables TR TK TL TN TP TD TA).
Local Notation Er := (DbError DbErr).
Local Notation DM A := (D → result Er A * D).

Definition set_entries (x : Tables TR TK TL) (d : D) : D :=
  mkDbTables x (namespaces d) (namespace_peers d) (download_policies d) (authors d).
Definition set_namespaces (x : TN) (d : D) : D :=
  mkDbTables (entries d) x (namespace_peers d) (download_policies d) (authors d).
Definition set_namespace_peers (x : TP) (d : D) : D :=
  mkDbTables (entries d) (namespaces d) x (download_policies d) (authors d).
Definition set_download_policies (x : TD) (d : D) : D :=
  mkDbTables (entries d) (namespaces d) (namespace_peers d) x (authors d).
Definition set_authors (x : TA) (d : D) : D :=
  mkDbTables (entries d) (namespaces d) (namespace_peers d) (download_policies d) x.

(** Reading from one of the tables, and writing to one. *)
Definition from_table {A} (read : D → result DbErr A) : DM A :=
  λ d, (in_db (read d), d).

Definition into_table {F} (get : D → F) (set : F → D → D) (write : F → result DbErr F) : DM () :=
  λ d, match write (get d) with
       | Ok x => (Ok (), set x d)
       | Err e => (Err (DbTable e), d)
       end.

Definition get_records (d : D) : TR := records (entries d).
Definition put_records (x : TR) (d : D) : D :=
  set_entries (mkTables x (records_by_key (entries d)) (latest_per_author (entries d))) d.
Definition get_by_key (d : D) : TK := records_by_key (entries d).
Definition put_by_key (x : TK) (d : D) : D :=
  set_entries (mkTables (records (entries d)) x (latest_per_author (entries d))) d.

(** ** Documents *)

Definition parse_capability (raw : N * list byte) : result Er Capability :=
  ok_or BadCapability (cap_from_raw raw.1 raw.2).

Definition import_namespace (c : Capability) : DM ImportNamespaceOutcome :=
  existing ←! from_table (λ d, t_get (cap_id c) (namespaces d));
  '(c, outcome) ←! ret (match existing with
    | Some existing =>
        existing ← parse_capability existing;
        match cap_merge existing c with
        | Err NamespaceMismatch => Err CapabilityMismatch
        | Ok (changed, merged) => Ok (merged, if changed : bool then ImportUpgraded else ImportNoChange)
        end
    | None => Ok (c, ImportInserted)
    end);
  _ ←! into_table namespaces set_namespaces (t_insert (cap_id c) (cap_raw c));
  ret (Ok outcome).

(** The information on a document that is opened. *)
Definition load_capability (namespace_id : NamespaceId) : DM Capability :=
  value ←! from_table (λ d, t_get namespace_id (namespaces d));
  ret (match value with
        | Some raw => parse_capability raw
        | None => Err ReplicaNotFound
        end).

(** Items are mapped one by one; an item that cannot be read is an error in the
    list. *)
Definition map_items {X Y} (f : X → result Er Y) (items : list (result DbErr X)) : list (result Er Y) :=
  (λ item, x ← in_db item; f x) <$> items.

Definition list_namespaces : DM (list (result Er (NamespaceId * CapabilityKind))) :=
  items ←! from_table (λ d, t_iter (namespaces d));
  ret (Ok (map_items (λ kv : NamespaceId * (N * list byte),
    c ← parse_capability kv.2; Ok (cap_id c, cap_kind c)) items)).

(** The closure of [remove_replica]. An error for the index is not looked at. *)
Definition remove_tables (namespace : NamespaceId) : DM () :=
  _ ←! into_table get_records put_records (t_retain_in (namespace_bounds namespace) (λ _ _, false));
  _ ←! ignore_error (into_table get_by_key put_by_key (t_retain_in (by_key_namespace namespace) (λ _ _, false)));
  _ ←! into_table namespaces set_namespaces (t_remove namespace);
  _ ←! into_table namespace_peers set_namespace_peers (mm_remove_all namespace);
  _ ←! into_table download_policies set_download_policies (t_remove namespace);
  ret (Ok ()).

(** ** Authors *)

Definition get_author (id : AuthorId) : DM (option Author) :=
  author ←! from_table (λ d, t_get id (authors d));
  ret (Ok (mkAuthor <$> author)).

Definition import_author (a : Author) : DM () :=
  into_table authors set_authors (t_insert (author_id a) (author_bytes a)).

Definition delete_author (id : AuthorId) : DM () :=
  into_table authors set_authors (t_remove id).

Definition list_authors : DM (list (result Er Author)) :=
  items ←! from_table (λ d, t_iter (authors d));
  ret (Ok (map_items (λ kv : AuthorId * list byte, Ok (mkAuthor kv.2)) items)).

(** ** The latest entries of the authors *)

Definition get_latest_for_each_author (namespace : NamespaceId)
    : DM (list (result Er (AuthorId * N * list byte))) :=
  let start := (namespace, replicate 32 x00) in
  let end_ := (namespace, replicate 32 xff) in
  items ←! from_table (λ d, t_range (Included start, Included end_) (latest_per_author (entries d)));
  ret (Ok (map_items (λ '(_, author, (timestamp, key)), Ok (author, timestamp, key)) items)).

(** The loop that collects the heads of a document. *)
Fixpoint collect_heads (latest : list (result Er (AuthorId * N * list byte))) (h : AuthorHeads)
    : result Er AuthorHeads :=
  match latest with
  | [] => Ok h
  | Ok (author, timestamp, _) :: latest => collect_heads latest (heads_insert author timestamp h)
  | Err e :: _ => Err e
  end.

Definition has_news_for_us (namespace : NamespaceId) (heads : AuthorHeads) : DM (option N) :=
  latest ←! get_latest_for_each_author namespace;
  our_heads ←! ret (collect_heads latest heads_default);
  ret (Ok (has_news_for heads our_heads)).

(** The hashes of the entries of all documents. *)
Definition content_hashes : DM (list (result Er Hash)) :=
  items ←! from_table (λ d, t_iter (get_records d));
  ret (Ok (map_items (λ kv : RecordsId * RecordsValue, Ok (r_hash (se_record (into_entry kv.1 kv.2)))) items)).

(** ** Peers *)

(** The loop over the rows after the oldest one: their number, and the time of the
    first row of the peer. *)
Fixpoint find_peer (peer : PeerIdBytes) (rows : list (result DbErr PeerRow)) (count : N) (prev : option N)
    : result Er (N * option N) :=
  match rows with
  | [] => Ok (count, prev)
  | Err e :: _ => Err (DbTable e)
  | Ok (peer_nanos, peer_bytes) :: rows =>
      let prev := match prev with
                  | None => if bool_decide (peer_bytes = peer) then Some peer_nanos else None
                  | Some _ => prev
                  end in
      find_peer peer rows (count + 1) prev
  end.

Definition peers_insert (namespace : NamespaceId) (row : PeerRow) : DM () :=
  into_table namespace_peers set_namespace_peers (mm_insert namespace row).
Definition peers_remove (namespace : NamespaceId) (row : PeerRow) : DM () :=
  into_table namespace_peers set_namespace_peers (mm_remove namespace row).

(** The closure of [register_useful_peer], at the time [nanos]. *)
Definition register_useful_peer (nanos : N) (namespace : NamespaceId) (peer : PeerIdBytes) : DM () :=
  document ←! from_table (λ d, t_get namespace (namespaces d));
  match document with None => ret (Err DocumentNotCreated) | Some _ =>
  rows ←! from_table (λ d, mm_get namespace (namespace_peers d));
  match rows with
  | Err e :: _ => ret (Err (DbTable e))
  | [] => peers_insert namespace (nanos, peer)
  | Ok (oldest_nanos, oldest_peer) :: rows =>
      if bool_decide (oldest_peer = peer) then
        _ ←! peers_remove namespace (oldest_nanos, oldest_peer);
        peers_insert namespace (nanos, peer)
      else
        '(count, prev_peer_nanos) ←! ret (find_peer peer rows 1 None);
        match prev_peer_nanos with
        | Some prev_nanos =>
            _ ←! peers_remove namespace (prev_nanos, peer);
            peers_insert namespace (nanos, peer)
        | None =>
            _ ←! peers_insert namespace (nanos, peer);
            if PEERS_PER_DOC_CACHE_SIZE <? count + 1
            then peers_remove namespace (oldest_nanos, oldest_peer)
            else ret (Ok ())
        end
  end end.

(** The most recently useful peers first. *)
Definition get_sync_peers (namespace : NamespaceId) : DM (option (list PeerIdBytes)) :=
  rows ←! from_table (λ d, mm_get namespace (namespace_peers d));
  peers ←! ret (collect (map_items (λ row : PeerRow, Ok row.2) (reverse rows)));
  ret (Ok (match peers with [] => None | _ => Some peers end)).

(** ** Download policies *)

Definition set_download_policy (namespace : NamespaceId) (policy : DownloadPolicy) : DM () :=
  document ←! from_table (λ d, t_get namespace (namespaces d));
  match document with None => ret (Err DocumentNotCreated) | Some _ =>
  value ←! ret (ok_or Postcard (to_stdvec policy));
  into_table download_policies set_download_policies (t_insert namespace value)
  end.

Definition read_download_policy (namespace : NamespaceId) : DM DownloadPolicy :=
  value ←! from_table (λ d, t_get namespace (download_policies d));
  ret (match value with
        | None => Ok policy_default
        | Some value => fst <$> ok_or Postcard (take_from_bytes value)
        end).

End Db.

(** ** Opening and closing documents *)

(** The store: the database with its transactions, and which documents are open. *)
Record DocStore (D : Type) : Type := mkDocStore {
  ds_tx : TxStore D;
  open_replicas : gset NamespaceId;
}.
Arguments mkDocStore {D} _ _.
Arguments ds_tx {D} _.
Arguments open_replicas {D} _.

Section DocStore.
  Context {TR TK TL TN TP TD TA DbErr : Type}
    `{HTR : !Table TR DbErr RecordsId RecordsValue} `{HMR : !TableMore TR DbErr RecordsId RecordsValue}
    `{HTK : !Table TK DbErr RecordsByKeyId ()} `{HMK : !TableMore TK DbErr RecordsByKeyId ()}
    `{HTN : !Table TN DbErr NamespaceId (N * list byte)} `{HMN : !TableMore TN DbErr NamespaceId (N * list byte)}
    `{HTP : !Multimap TP DbErr NamespaceId PeerRow}
    `{HMD : !TableMore TD DbErr NamespaceId (list byte)}
    `{HK : !Ed25519} `{HDB : !Database (DbTables TR TK TL TN TP TD TA) (DbError DbErr)}.

Local Notation D := (DbTables TR TK TL TN TP TD TA).
Local Notation Er := (DbError DbErr).

(** A closure in [modify], and a read of what [tables] returns. *)
Definition in_modify {A} (now : N) (f : D → result Er A * D) (s : DocStore D) : result Er A * DocStore D :=
  let '(r, tx) := modify_tx now f (ds_tx s) in (r, mkDocStore tx (open_replicas s)).

Definition in_tables {A} (now : N) (f : D → result Er A * D) (s : DocStore D) : result Er A * DocStore D :=
  match tables now (ds_tx s) with
  | (Ok t, tx) => ((f t).1, mkDocStore tx (open_replicas s))
  | (Err e, tx) => (Err e, mkDocStore tx (open_replicas s))
  end.

Definition load_replica_info (now : N) (namespace_id : NamespaceId) (s : DocStore D)
    : result Er ReplicaInfo * DocStore D :=
  match in_tables now (load_capability namespace_id) s with
  | (Ok c, s) =>
      let info := info_new c in
      (Ok info, mkDocStore (ds_tx s) ({[cap_id (capability info)]} ∪ open_replicas s))
  | (Err e, s) => (Err e, s)
  end.

Definition close_replica (id : NamespaceId) (s : DocStore D) : DocStore D :=
  mkDocStore (ds_tx s) (open_replicas s ∖ {[id]}).

Definition remove_replica (now : N) (namespace : NamespaceId) (s : DocStore D) : result Er () * DocStore D :=
  if bool_decide (namespace ∈ open_replicas s) then (Err ReplicaNotClosed, s)
  else in_modify now (remove_tables namespace) s.

(** The document is created if need be, and opened. *)
Definition new_replica (now1 now2 : N) (secret : NamespaceSecret) (s : DocStore D)
    : result Er ReplicaInfo * DocStore D :=
  match in_modify now1 (import_namespace (CapWrite secret)) s with
  | (Ok _, s) => load_replica_info now2 (secret_id secret) s
  | (Err e, s) => (Err e, s)
  end.

End DocStore.
