(* ===== verification/DocsDbFacts.v ===== *)
(** * What the operations on the tables do

    The contracts of the further table operations, and the effect of the operations
    of the store on tables that keep them. *)
From stdpp Require Import base tactics list gmap orders sorting strings.
From Stdlib Require Import ZArith Lia Strings.Byte.
From S2P Require Import Prelude Bytes Ranger RangerFacts Records DocsBounds.
From S2P Require Import DocsStore DocsStoreFacts DocsHeads DocsReplica DocsTx DocsDb.

(** Removing a key, retaining rows, and reading everything. *)
Class TableMoreLaws (T DbErr K V : Type) `{HT : Table T DbErr K V} `{HM : !TableMore T DbErr K V}
    `{HC : Countable K} (R : relation K) `{HD : !RelDecision R} `{HL : !TableLaws T DbErr K V R} : Prop := {
  law_remove_key k t : ∃ t', t_remove k t = Ok t' ∧ t_content t' = delete k (t_content t);
  law_retain b (f : K → V → bool) t : bounds_valid R b → ∃ t', t_retain_in b f t = Ok t' ∧
    t_content t' = filter (λ kv, ¬ (in_bounds R b kv.1 ∧ f kv.1 kv.2 = false)) (t_content t);
  law_iter t : t_iter t = Ok (Ok <$> table_items R (t_content t));
}.

(** The values of a key are a set, and are read in their order. *)
Class MultimapLaws (T DbErr K V : Type) `{HM : Multimap T DbErr K V} `{EqDecision K} `{Countable V}
    (R : relation V) `{HD : !RelDecision R} : Type := {
  mm_values : T → K → gset V;
  law_mm_get k t : mm_get k t = Ok (Ok <$> merge_sort R (elements (mm_values t k)));
  law_mm_insert k v t : ∃ t', mm_insert k v t = Ok t' ∧
    ∀ k', mm_values t' k' = if decide (k' = k) then {[v]} ∪ mm_values t k else mm_values t k';
  law_mm_remove k v t : ∃ t', mm_remove k v t = Ok t' ∧
    ∀ k', mm_values t' k' = if decide (k' = k) then mm_values t k ∖ {[v]} else mm_values t k';
  law_mm_remove_all k t : ∃ t', mm_remove_all k t = Ok t' ∧
    ∀ k', mm_values t' k' = if decide (k' = k) then ∅ else mm_values t k';
}.

Lemma ff_bound (a : list byte) n : length a = n → bytes_le a (replicate n xff).
Proof. intros <-. apply ff_greatest. Qed.

Lemma zero_bound (a : list byte) n : length a = n → bytes_le (replicate n x00) a.
Proof.
  revert n. induction a as [|b a IH]; intros n <-; [done|]. apply bytes_le_cons.
  destruct (decide (b = x00)) as [->|Hne]; [right; auto|left].
  assert (Byte.to_N b ≠ 0%N) by (intros H; apply Hne, to_N_inj; by rewrite H). simpl. lia.
Qed.

Section Facts.
  Context {TR TK TL TN TP TD TA DbErr : Type}
    `{HTL : !Table TL DbErr LatestPerAuthorKey LatestPerAuthorValue}
    `{LL : !TableLaws TL DbErr LatestPerAuthorKey LatestPerAuthorValue (lex_le bytes_le bytes_le)}.

Local Notation D := (DbTables TR TK TL TN TP TD TA).

(** The rows of the latest entries; namespaces and authors are 32 bytes long. *)
Definition latest_rows (d : D) : gmap LatestPerAuthorKey LatestPerAuthorValue :=
  t_content (latest_per_author (entries d)).

Definition latest_wf (m : gmap LatestPerAuthorKey LatestPerAuthorValue) : Prop :=
  ∀ k v, m !! k = Some v → length k.1 = 32 ∧ length k.2 = 32.

Lemma latest_bounds ns (k : LatestPerAuthorKey) :
  length ns = 32 → length k.1 = 32 ∧ length k.2 = 32 →
  in_bounds (lex_le bytes_le bytes_le) (Included (ns, replicate 32 x00), Included (ns, replicate 32 xff)) k ↔
    k.1 = ns.
Proof.
  destruct k as [n a]. cbn [fst snd]. intros Hns [Hn Ha]. unfold in_bounds, lower_ok, upper_ok, lex_le. cbn [fst snd]. split.
  - intros [[[H1 _]|[He _]] [[H2 _]|[He' _]]]; [|done..]. by apply (anti_symm bytes_le).
  - intros ->. split; right; (split; [done|]); [by apply zero_bound|by apply ff_bound].
Qed.

Lemma collect_heads_Ok (l : list (AuthorId * N * list byte)) h :
  collect_heads (DbErr:=DbErr) (Ok <$> l) h = Ok (foldl (λ h '(a, t), heads_insert a t h) h l.*1).
Proof. revert h. induction l as [|[[a t] k] l IH]; intros h; [done|]. apply IH. Qed.

(** The heads of the document are the rows of its authors. *)
Lemma our_heads_spec ns (d : D) :
  length ns = 32 → latest_wf (latest_rows d) →
  ∃ ours, (∀ a, heads ours !! a = fst <$> latest_rows d !! (ns, a)) ∧
    ∀ h, has_news_for_us (DbErr:=DbErr) ns h d = (Ok (has_news_for h ours), d).
Proof.
  intros Hns Hwf. unfold has_news_for_us, get_latest_for_each_author, db_bind, from_table, ret.
  rewrite law_t_range.
  2: { right. split; [done|]. apply (zero_bound (replicate 32 xff) 32), length_replicate. }
  fold (latest_rows d). set (items := filter _ _). cbn [in_db].
  set (l := (λ kv : LatestPerAuthorKey * LatestPerAuthorValue, (kv.1.2, kv.2.1, kv.2.2)) <$> items).
  assert (Hl : map_items (DbErr:=DbErr)
    (λ '(_, author, (timestamp, key)), Ok (author, timestamp, key)) (Ok <$> items) = Ok <$> l).
  { unfold map_items, l. rewrite <-!list_fmap_compose. apply list_fmap_ext. by intros i [[n a] [t k]]. }
  eexists. split; [|intros h; cbn [fst]; rewrite Hl, collect_heads_Ok; reflexivity].
  intros a. apply option_eq. intros t. rewrite heads_fold. cbn [heads heads_default].
  assert (Hel : ∀ t, (a, t) ∈ l.*1 ↔ ∃ k, latest_rows d !! (ns, a) = Some (t, k)).
  { intros t'. unfold l. rewrite <-list_fmap_compose, list_elem_of_fmap. split.
    - intros ([[n b] [u k]] & [= -> ->] & [Hb Hin]%list_elem_of_filter). apply elem_of_table_items in Hin.
      apply latest_bounds in Hb; [|done|by eapply Hwf]. simpl in Hb. subst n. eauto.
    - intros [k Hk]. exists ((ns, a), (t', k)). split; [done|]. apply list_elem_of_filter.
      rewrite elem_of_table_items. split; [|done]. apply latest_bounds; [done|by eapply Hwf|done]. }
  setoid_rewrite Hel. rewrite lookup_empty.
  destruct (latest_rows d !! (ns, a)) as [[u k]|]; simpl.
  - split; [intros [[?|[? [= -> _]]] _]; done|]. intros [= ->]. split; [eauto|].
    intros t' [?|[? [= -> _]]]; [done|lia].
  - split; [intros [[?|[? ?]] _]; done|done].
Qed.

End Facts.

(** ** Peers *)

Definition peer_le : relation PeerRow := lex_le N.le bytes_le.

Section Peers.
  Context {TR TK TL TN TP TD TA DbErr : Type}
    `{HTN : !Table TN DbErr NamespaceId (N * list byte)}
    `{HTP : !Multimap TP DbErr NamespaceId PeerRow}
    `{LP : !MultimapLaws TP DbErr NamespaceId PeerRow peer_le}.

Local Notation D := (DbTables TR TK TL TN TP TD TA).

Definition peers_of (d : D) (ns : NamespaceId) : gset PeerRow := mm_values (namespace_peers d) ns.

(** At most five peers, each of them once. *)
Definition peers_ok (X : gset PeerRow) : Prop :=
  size X ≤ 5 ∧ ∀ r1 r2, r1 ∈ X → r2 ∈ X → r1.2 = r2.2 → r1 = r2.

Lemma peers_insert_spec ns row (d : D) :
  ∃ tp, peers_insert (DbErr:=DbErr) ns row d = (Ok (), set_namespace_peers tp d) ∧
    ∀ n, mm_values tp n = if decide (n = ns) then {[row]} ∪ peers_of d ns else peers_of d n.
Proof.
  unfold peers_insert, into_table.
  destruct (law_mm_insert ns row (namespace_peers d)) as (tp & -> & Htp). by exists tp.
Qed.

Lemma peers_remove_spec ns row (d : D) :
  ∃ tp, peers_remove (DbErr:=DbErr) ns row d = (Ok (), set_namespace_peers tp d) ∧
    ∀ n, mm_values tp n = if decide (n = ns) then peers_of d ns ∖ {[row]} else peers_of d n.
Proof.
  unfold peers_remove, into_table.
  destruct (law_mm_remove ns row (namespace_peers d)) as (tp & -> & Htp). by exists tp.
Qed.

(** One row is taken out and another one put in. *)
Lemma peers_replace_spec ns old row (d : D) :
  ∃ tp, (db_bind (peers_remove (DbErr:=DbErr) ns old) (λ _, peers_insert ns row)) d =
      (Ok (), set_namespace_peers tp d) ∧
    ∀ n, mm_values tp n = if decide (n = ns) then {[row]} ∪ (peers_of d ns ∖ {[old]}) else peers_of d n.
Proof.
  unfold db_bind. destruct (peers_remove_spec ns old d) as (tp1 & -> & H1).
  destruct (peers_insert_spec ns row (set_namespace_peers tp1 d)) as (tp2 & -> & H2).
  exists tp2. split; [done|]. intros n. rewrite H2. unfold peers_of in *. simpl. rewrite !H1.
  by case_decide; [rewrite decide_True by done|].
Qed.

Lemma find_peer_spec peer (rows : list PeerRow) count :
  ∃ prev, find_peer (DbErr:=DbErr) peer (Ok <$> rows) count None = Ok ((count + len rows)%N, prev) ∧
    match prev with
    | Some t => (t, peer) ∈ rows
    | None => ∀ r, r ∈ rows → r.2 ≠ peer
    end.
Proof.
  assert (Hsome : ∀ rows count t, find_peer (DbErr:=DbErr) peer (Ok <$> rows) count (Some t) =
    Ok ((count + len rows)%N, Some t)).
  { clear. induction rows as [|[t' p] rows IH]; intros count t; [cbn; by rewrite N.add_0_r|].
    cbn [fmap list_fmap find_peer]. rewrite IH. unfold len. do 2 f_equal. simpl. lia. }
  revert count. induction rows as [|[t p] rows IH]; intros count.
  { exists None. cbn. rewrite N.add_0_r. split; [done|]. by intros r ?%elem_of_nil. }
  cbn [fmap list_fmap find_peer]. case_bool_decide as Hp.
  - subst p. exists (Some t). rewrite Hsome. split; [|by left]. unfold len. do 2 f_equal. simpl. lia.
  - destruct (IH (count + 1)%N) as (prev & -> & Hprev). exists prev. split.
    + unfold len. do 2 f_equal. simpl. lia.
    + destruct prev; [by right|]. intros r [->|Hr]%elem_of_cons; [done|by apply Hprev].
Qed.

(** The peer is recorded with the new time; the others stay, but the oldest of
    five makes way for a peer that was not there. *)
Definition registered (nanos : N) (peer : PeerIdBytes) (X X' : gset PeerRow) : Prop :=
  (nanos, peer) ∈ X' ∧
  (∀ r, r ∈ X' → r = (nanos, peer) ∨ (r ∈ X ∧ r.2 ≠ peer)) ∧
  (∀ r, r ∈ X → r.2 ≠ peer → r ∈ X' ∨
     (size X = 5 ∧ (∀ r', r' ∈ X → r'.2 ≠ peer) ∧ ∀ r', r' ∈ X → peer_le r r')).

Lemma size_add_le (r : PeerRow) (X : gset PeerRow) : size ({[r]} ∪ X) ≤ Datatypes.S (size X).
Proof.
  rewrite size_union_alt, size_singleton. assert (size (X ∖ {[r]}) ≤ size X); [|lia].
  apply subseteq_size. set_solver.
Qed.

(** A peer that was not there, with the oldest row [(n0, p0)]. *)
Lemma register_new nanos peer n0 p0 rest ns (d : D) :
  peers_ok (peers_of d ns) → length ((n0, p0) :: rest) = size (peers_of d ns) →
  (∀ r, r ∈ (n0, p0) :: rest ↔ r ∈ peers_of d ns) → StronglySorted peer_le ((n0, p0) :: rest) →
  p0 ≠ peer → (∀ r, r ∈ rest → r.2 ≠ peer) →
  ∃ tp, (db_bind (peers_insert (DbErr:=DbErr) ns (nanos, peer)) (λ _,
      if (PEERS_PER_DOC_CACHE_SIZE <? 1 + len rest + 1)%N then peers_remove ns (n0, p0) else ret (Ok ()))) d =
      (Ok (), set_namespace_peers tp d) ∧
    ∃ X', registered nanos peer (peers_of d ns) X' ∧ size X' ≤ 5 ∧
      ∀ n, mm_values tp n = if decide (n = ns) then X' else peers_of d n.
Proof.
  intros [Hsize Huniq] Hlen Hel Hsort Hp0 Hrest. set (X := peers_of d ns) in *.
  assert (Hne : ∀ r, r ∈ X → r.2 ≠ peer) by (intros r [->|Hr]%Hel%elem_of_cons; auto).
  unfold db_bind. destruct (peers_insert_spec ns (nanos, peer) d) as (tp1 & -> & H1). fold X in H1.
  pose proof (size_add_le (nanos, peer) X) as Hs1. simpl in Hlen.
  destruct (N.ltb_spec PEERS_PER_DOC_CACHE_SIZE (1 + len rest + 1)) as [Hgt|Hle];
    unfold PEERS_PER_DOC_CACHE_SIZE, len in *.
  - destruct (peers_remove_spec ns (n0, p0) (set_namespace_peers tp1 d)) as (tp2 & -> & H2).
    exists tp2. split; [done|]. exists (({[(nanos, peer)]} ∪ X) ∖ {[(n0, p0)]}). split_and!.
    + split_and!; [set_solver| |].
      * intros r Hr. assert (Hr' : r = (nanos, peer) ∨ r ∈ X) by set_solver. destruct Hr'; eauto.
      * intros r Hr Hp. destruct (decide (r = (n0, p0))) as [->|Hr0]; [|left; set_solver].
        right. split; [lia|]. split; [done|]. intros r' [->|Hr']%Hel%elem_of_cons; [reflexivity|].
        apply StronglySorted_inv in Hsort as [_ Hsort]. rewrite Forall_forall in Hsort. by apply Hsort.
    + rewrite size_difference by (apply singleton_subseteq_l, elem_of_union_r, Hel; by left).
      rewrite size_singleton. etrans; [apply Nat.sub_le_mono_r, (size_add_le (nanos, peer) X)|lia].
    + intros n. rewrite H2. unfold peers_of in *. simpl. rewrite !H1.
      by case_decide; [rewrite decide_True by done|].
  - exists tp1. split; [done|]. exists ({[(nanos, peer)]} ∪ X). split_and!; [|etrans; [apply (size_add_le (nanos, peer) X)|lia]|done].
    split_and!; [set_solver| |set_solver].
    intros r Hr. assert (Hr' : r = (nanos, peer) ∨ r ∈ X) by set_solver. destruct Hr'; eauto.
Qed.

Lemma registered_replace nanos peer X t :
  peers_ok X → (t, peer) ∈ X →
  registered nanos peer X ({[(nanos, peer)]} ∪ X ∖ {[(t, peer)]}) ∧
  size ({[(nanos, peer)]} ∪ X ∖ {[(t, peer)]}) ≤ 5.
Proof.
  intros [Hsize Huniq] Hin. split.
  - split_and!; [set_solver| |].
    + intros r [->%elem_of_singleton|[Hr Hne%not_elem_of_singleton]%elem_of_difference]%elem_of_union; [by left|].
      right. split; [done|]. intros Hp. apply Hne. by apply Huniq.
    + intros r Hr Hp. left. assert (r ≠ (t, peer)) by (by intros ->). set_solver.
  - assert (Hd : size (X ∖ {[(t, peer)]}) = size X - 1).
    { rewrite size_difference by set_solver. by rewrite size_singleton. }
    assert (size X ≠ 0) by (intros H0%size_empty_inv; set_solver).
    etrans; [apply (size_add_le (nanos, peer) (X ∖ {[(t, peer)]}))|]. lia.
Qed.

#[global] Instance peer_le_total : TotalOrder peer_le.
Proof. unfold peer_le. apply _. Qed.

(** The rows of a document in their order. *)
Lemma peer_rows (X : gset PeerRow) :
  let l := merge_sort peer_le (elements X) in
  length l = size X ∧ (∀ r, r ∈ l ↔ r ∈ X) ∧ StronglySorted peer_le l.
Proof.
  split_and!.
  - by rewrite merge_sort_Permutation.
  - intros r. by rewrite merge_sort_Permutation, elem_of_elements.
  - apply StronglySorted_merge_sort; apply _.
Qed.

Lemma register_useful_peer_spec nanos ns peer doc (d : D) :
  t_get ns (namespaces d) = Ok (Some doc) → peers_ok (peers_of d ns) →
  ∃ tp, register_useful_peer (DbErr:=DbErr) nanos ns peer d = (Ok (), set_namespace_peers tp d) ∧
    registered nanos peer (peers_of d ns) (mm_values tp ns) ∧ peers_ok (mm_values tp ns) ∧
    ∀ n, n ≠ ns → mm_values tp n = peers_of d n.
Proof.
  intros Hdoc Hok. set (X := peers_of d ns) in *.
  assert (Hmain : ∃ tp, register_useful_peer (DbErr:=DbErr) nanos ns peer d = (Ok (), set_namespace_peers tp d) ∧
    ∃ X', registered nanos peer X X' ∧ size X' ≤ 5 ∧
      ∀ n, mm_values tp n = if decide (n = ns) then X' else peers_of d n).
  2: { destruct Hmain as (tp & Hrun & X' & Hreg & Hsize & Htp). exists tp. split; [done|].
       rewrite (Htp ns), decide_True by done. split; [done|]. split.
       - split; [done|]. destruct Hreg as (_ & Hsub & _). intros r1 r2 H1 H2 Heq.
         apply Hsub in H1 as [->|[H1 N1]], H2 as [->|[H2 N2]]; cbn in Heq; [done|by destruct N2|by destruct N1|]. by apply Hok.
       - intros n Hn. by rewrite Htp, decide_False. }
  unfold register_useful_peer, from_table. unfold db_bind at 1. rewrite Hdoc. cbn [in_db].
  unfold db_bind at 1. rewrite law_mm_get. change (mm_values _ ns) with X. cbn [in_db].
  match goal with |- context [Ok <$> ?l] => change l with (merge_sort peer_le (elements X)) end.
  destruct (peer_rows X) as (Hlen & Hel & Hsort). destruct (merge_sort peer_le (elements X)) as [|[n0 p0] rest];
    cbn [fmap list_fmap].
  - destruct (peers_insert_spec ns (nanos, peer) d) as (tp & -> & Htp). exists tp. split; [done|].
    exists ({[(nanos, peer)]} ∪ X). split; [|split; [etrans; [apply (size_add_le (nanos, peer) X)|]; rewrite <-Hlen; simpl; lia|done]].
    assert (HX : ∀ r, r ∉ X) by (by intros r ?%Hel%elem_of_nil).
    split_and!; [set_solver| |intros r Hr; by destruct (HX r)].
    intros r [->%elem_of_singleton|Hr]%elem_of_union; [by left|by destruct (HX r)].
  - case_bool_decide as Hp0.
    + subst p0. destruct (peers_replace_spec ns (n0, peer) (nanos, peer) d) as (tp & -> & Htp).
      exists tp. split; [done|]. eexists. split; [|split; [|exact Htp]];
        apply registered_replace; try done; apply Hel; by left.
    + destruct (find_peer_spec peer rest 1%N) as (prev & Hfind & Hprev). 
      unfold db_bind at 1, ret.
      match goal with |- context [find_peer peer ?l _ _] => change l with (Ok (E:=DbErr) <$> rest) end.
      rewrite Hfind.
      destruct prev as [t|].
      * destruct (peers_replace_spec ns (t, peer) (nanos, peer) d) as (tp & -> & Htp).
        exists tp. split; [done|]. eexists. split; [|split; [|exact Htp]];
          apply registered_replace; try done; apply Hel; by right.
      * destruct (register_new nanos peer n0 p0 rest ns d) as (tp & Hrun & Hrest); try done. by exists tp.
Qed.

End Peers.
