(* ===== verification/DocsDbProps.v ===== *)
(** * Properties of the document store *)
From stdpp Require Import base tactics list gmap orders sorting strings.
From Stdlib Require Import ZArith Lia Strings.Byte.
From S2P Require Import Prelude Bytes Ranger RangerFacts Records DocsBounds DocsStore DocsStoreFacts.
From S2P Require Import DocsStoreProps DocsQuery DocsQueryFacts DocsHeads DocsReplica DocsTx DocsDb.
From S2P Require Import DocsDbFacts DocsStoreFacts.

Section Capabilities.
  Context `{HK : !Ed25519}.

Lemma cap_raw_roundtrip c : cap_from_raw (cap_raw c).1 (cap_raw c).2 = Some c.
Proof. destruct c as [[secret]|id]; done. Qed.

(** What a document is opened with after an import. *)
Definition joined (old : option Capability) (c : Capability) : Capability :=
  match old with
  | Some (CapWrite secret) => CapWrite secret
  | Some (CapRead id) => match c with CapWrite _ => c | CapRead _ => CapRead id end
  | None => c
  end.

Definition import_outcome (old : option Capability) (c : Capability) : ImportNamespaceOutcome :=
  match old with
  | None => ImportInserted
  | Some (CapRead _) => match c with CapWrite _ => ImportUpgraded | CapRead _ => ImportNoChange end
  | Some (CapWrite _) => ImportNoChange
  end.

Lemma joined_id old c : (∀ c0, old = Some c0 → cap_id c0 = cap_id c) → cap_id (joined old c) = cap_id c.
Proof. intros Hid. destruct old as [[secret|id]|], c; try done; by apply Hid. Qed.

End Capabilities.

Section Props.
  Context {TR TK TL TN TP TD TA DbErr : Type}
    `{HTR : !Table TR DbErr RecordsId RecordsValue} `{HMR : !TableMore TR DbErr RecordsId RecordsValue}
    `{HTK : !Table TK DbErr RecordsByKeyId ()} `{HMK : !TableMore TK DbErr RecordsByKeyId ()}
    `{HTL : !Table TL DbErr LatestPerAuthorKey LatestPerAuthorValue}
    `{HTN : !Table TN DbErr NamespaceId (N * list byte)} `{HMN : !TableMore TN DbErr NamespaceId (N * list byte)}
    `{HTP : !Multimap TP DbErr NamespaceId PeerRow}
    `{HTD : !Table TD DbErr NamespaceId (list byte)} `{HMD : !TableMore TD DbErr NamespaceId (list byte)}
    `{LR : !TableLaws TR DbErr RecordsId RecordsValue records_id_le}
    `{MR : !TableMoreLaws TR DbErr RecordsId RecordsValue records_id_le}
    `{LK : !TableLaws TK DbErr RecordsByKeyId () by_key_le}
    `{MK : !TableMoreLaws TK DbErr RecordsByKeyId () by_key_le}
    `{LL : !TableLaws TL DbErr LatestPerAuthorKey LatestPerAuthorValue (lex_le bytes_le bytes_le)}
    `{LN : !TableLaws TN DbErr NamespaceId (N * list byte) bytes_le}
    `{MN : !TableMoreLaws TN DbErr NamespaceId (N * list byte) bytes_le}
    `{LP : !MultimapLaws TP DbErr NamespaceId PeerRow peer_le}
    `{LD : !TableLaws TD DbErr NamespaceId (list byte) bytes_le}
    `{MD : !TableMoreLaws TD DbErr NamespaceId (list byte) bytes_le}
    `{HK : !Ed25519} `{HDB : !Database (DbTables TR TK TL TN TP TD TA) (DbError DbErr)}
    `{LDB : !DatabaseLaws (DbTables TR TK TL TN TP TD TA) (DbError DbErr)}.

Local Notation D := (DbTables TR TK TL TN TP TD TA).

(** The tables as the next operation of the store sees them. *)
Definition now_in (s : DocStore D) : D := view (ds_tx s).

Definition document (d : D) (id : NamespaceId) : option (N * list byte) := t_content (namespaces d) !! id.

(** ** Capabilities *)

Lemma import_namespace_spec c old (d : D) :
  document d (cap_id c) = cap_raw <$> old → (∀ c0, old = Some c0 → cap_id c0 = cap_id c) →
  ∃ tn, import_namespace (DbErr:=DbErr) c d = (Ok (import_outcome old c), set_namespaces tn d) ∧
    t_content tn = <[cap_id c := cap_raw (joined old c)]> (t_content (namespaces d)).
Proof.
  intros Hdoc Hid. unfold import_namespace, from_table. unfold db_bind at 1. rewrite law_get. cbn [in_db].
  fold (document d (cap_id c)). rewrite Hdoc. unfold db_bind at 1, ret.
  set (r := match cap_raw <$> old with Some _ => _ | None => _ end).
  assert (Hr : r = Ok (joined old c, import_outcome old c)).
  { unfold r. destruct old as [c0|]; [|done]. simpl. unfold parse_capability.
    rewrite cap_raw_roundtrip. simpl. unfold cap_merge. rewrite bool_decide_eq_true_2 by (symmetry; by apply Hid).
    simpl. by destruct c0, c. }
  rewrite Hr. unfold db_bind, into_table. rewrite (joined_id old c Hid).
  destruct (law_insert (cap_id c) (cap_raw (joined old c)) (namespaces d)) as (tn & -> & Htn). by exists tn.
Qed.

(** Importing a document keeps the strongest access that was ever imported: when
    the document is opened next, it is writable exactly if it was before or the
    imported capability is; its outcome says what happened; and no other document
    changes. *)
Theorem import_keeps_strongest now1 now2 c old (s : DocStore D) :
  document (now_in s) (cap_id c) = cap_raw <$> old →
  (∀ c0, old = Some c0 → cap_id c0 = cap_id c) →
  ∃ s1 s2, in_modify now1 (import_namespace (DbErr:=DbErr) c) s = (Ok (import_outcome old c), s1) ∧
    load_replica_info now2 (cap_id c) s1 = (Ok (info_new (joined old c)), s2) ∧
    cap_id (joined old c) = cap_id c ∧
    (cap_kind (joined old c) = KindWrite ↔
       cap_kind c = KindWrite ∨ ∃ c0, old = Some c0 ∧ cap_kind c0 = KindWrite) ∧
    open_replicas s2 = {[cap_id c]} ∪ open_replicas s ∧
    ∀ id, id ≠ cap_id c → document (now_in s2) id = document (now_in s) id.
Proof.
  intros Hdoc Hid. destruct (import_namespace_spec c old (now_in s) Hdoc Hid) as (tn & Himp & Htn).
  unfold in_modify, load_replica_info, in_tables.
  destruct (modify_tx_spec now1 (import_namespace (DbErr:=DbErr) c) (ds_tx s)) as (t1 & Hm & _ & Hv1 & _).
  unfold now_in in Himp. rewrite Himp in Hm, Hv1. cbn [fst snd] in Hm, Hv1. rewrite Hm.
  destruct (tables_spec (Er:=DbError DbErr) now2 t1) as (t2 & Ht & _ & Hv2 & _).
  assert (Hload : (load_capability (DbErr:=DbErr) (cap_id c) (view t1)).1 = Ok (joined old c)).
  { unfold load_capability, from_table, db_bind. rewrite law_get, Hv1. cbn [namespaces set_namespaces in_db].
    rewrite Htn, lookup_insert_eq. unfold ret, parse_capability. by rewrite cap_raw_roundtrip. }
  eexists _, _. split; [done|]. cbn [ds_tx open_replicas]. rewrite Ht, Hload. split; [reflexivity|].
  cbn [open_replicas capability info_new]. rewrite (joined_id old c Hid). split_and!; [done| |done|].
  - destruct old as [[]|], c; simpl; naive_solver.
  - intros id Hne. unfold now_in, document. cbn [ds_tx]. rewrite Hv2, Hv1. cbn [namespaces set_namespaces].
    by rewrite Htn, lookup_insert_ne.
Qed.

(** ** Removing a document *)

(** Rows of the indexes with namespaces and authors of 32 bytes. *)
Definition db_wf (d : D) : Prop :=
  ids_wf (t_content (get_records d)) ∧
  (∀ k v, t_content (get_by_key d) !! k = Some v → by_key_wf k).

(** Of the document, the entries, the index by key, the capability, the peers and the
    download policy are gone; of the others everything is as before. *)
Definition removed (ns : NamespaceId) (d d' : D) : Prop :=
  (∀ k : RecordsId, t_content (get_records d') !! k =
     if decide (k.1.1 = ns) then None else t_content (get_records d) !! k) ∧
  (∀ k : RecordsByKeyId, t_content (get_by_key d') !! k =
     if decide (k.1.1 = ns) then None else t_content (get_by_key d) !! k) ∧
  t_content (namespaces d') = delete ns (t_content (namespaces d)) ∧
  (∀ n, peers_of d' n = if decide (n = ns) then ∅ else peers_of d n) ∧
  t_content (download_policies d') = delete ns (t_content (download_policies d)).

Lemma lookup_drop {K V} `{Countable K} (m : gmap K V) (P : K * V → Prop) `{!∀ x, Decision (P x)}
    (Q : Prop) `{!Decision Q} k :
  (∀ v, m !! k = Some v → P (k, v) ↔ Q) →
  filter (λ kv, ¬ P kv) m !! k = if decide Q then None else m !! k.
Proof.
  intros HPQ. apply option_eq. intros v. rewrite map_lookup_filter_Some.
  case_decide as HQ; split; try done.
  - intros [Hk HP]. destruct HP. by apply HPQ.
  - naive_solver.
  - intros Hk. split; [done|]. by rewrite HPQ.
Qed.

Lemma remove_tables_spec ns (d : D) :
  length ns = 32 → db_wf d →
  ∃ d', remove_tables (DbErr:=DbErr) ns d = (Ok (), d') ∧ removed ns d d' ∧
    latest_per_author (entries d') = latest_per_author (entries d) ∧ authors d' = authors d.
Proof.
  intros Hns [Hr Hk]. unfold remove_tables, db_bind, ignore_error, into_table.
  destruct (law_retain (namespace_bounds ns) (λ _ _, false) (get_records d)) as (tr & -> & Htr);
    [by apply namespace_bounds_valid|].
  destruct (law_retain (by_key_new ns AnyKey) (λ _ _, false) (get_by_key (put_records tr d))) as (tk & Hrk & Htk);
    [by apply by_key_new_valid|].
  cbn [by_key_new] in Hrk. rewrite Hrk. cbn [snd].
  destruct (law_remove_key (K:=NamespaceId) ns (namespaces d)) as (tn & Hn & Htn). cbn [namespaces put_by_key put_records set_entries].
  rewrite Hn. cbn [namespace_peers set_namespaces put_by_key put_records set_entries].
  destruct (law_mm_remove_all (K:=NamespaceId) (V:=PeerRow) ns (namespace_peers d)) as (tp & -> & Htp). 
  cbn [download_policies set_namespace_peers set_namespaces put_by_key put_records set_entries].
  destruct (law_remove_key (K:=NamespaceId) ns (download_policies d)) as (td & -> & Htd).
  eexists. split; [reflexivity|]. split; [|done]. split_and!; [| |done..].
  - intros k. transitivity (t_content tr !! k); [reflexivity|]. rewrite Htr.
    apply lookup_drop. intros v Hv. cbn [fst].
    rewrite namespace_bounds_spec by (done || by eapply Hr). tauto.
  - intros k. transitivity (t_content tk !! k); [reflexivity|]. rewrite Htk.
    apply lookup_drop.
    intros v Hv. cbn [fst]. rewrite by_key_new_spec by (done || by eapply Hk). cbn. tauto.
Qed.

(** A document is removed only when it is closed. Then its entries, its index, its
    capability, its peers and its policy are gone and every other document is as
    before; but the latest timestamps of its authors stay. *)
Theorem remove_replica_outcome now ns (s : DocStore D) :
  length ns = 32 → db_wf (now_in s) →
  (ns ∈ open_replicas s ∧ remove_replica (DbErr:=DbErr) now ns s = (Err ReplicaNotClosed, s)) ∨
  (ns ∉ open_replicas s ∧ ∃ s', remove_replica (DbErr:=DbErr) now ns s = (Ok (), s') ∧
     removed ns (now_in s) (now_in s') ∧ latest_rows (now_in s') = latest_rows (now_in s) ∧
     authors (now_in s') = authors (now_in s)).
Proof.
  intros Hns Hwf. unfold remove_replica. case_bool_decide as Hopen; [by left|right].
  split; [done|]. destruct (remove_tables_spec ns (now_in s) Hns Hwf) as (d' & Hrem & Hd & Hl & Ha).
  unfold in_modify.
  destruct (modify_tx_spec now (remove_tables (DbErr:=DbErr) ns) (ds_tx s)) as (t1 & Hm & _ & Hv & _).
  unfold now_in in Hrem. rewrite Hrem in Hm, Hv. cbn [fst snd] in Hm, Hv. rewrite Hm.
  eexists. split; [reflexivity|]. unfold now_in. cbn [ds_tx]. rewrite Hv. split; [done|].
  unfold latest_rows. by rewrite Hl.
Qed.

(** ** Peers *)

(** C32. A document remembers at most five useful peers, each of them once: a peer that
    was useful is recorded with the time, the others stay, except that the one that
    was useful the longest ago makes way when there are five and the peer is new. *)
Theorem useful_peers_bounded now nanos ns peer doc (s : DocStore D) :
  document (now_in s) ns = Some doc → peers_ok (peers_of (now_in s) ns) →
  ∃ s', in_modify now (register_useful_peer (DbErr:=DbErr) nanos ns peer) s = (Ok (), s') ∧
    peers_ok (peers_of (now_in s') ns) ∧
    registered nanos peer (peers_of (now_in s) ns) (peers_of (now_in s') ns) ∧
    ∀ n, n ≠ ns → peers_of (now_in s') n = peers_of (now_in s) n.
Proof.
  intros Hdoc Hok.
  destruct (register_useful_peer_spec (DbErr:=DbErr) nanos ns peer doc (now_in s)) as (tp & Hreg & Hr & Hok' & Hn);
    [by rewrite law_get; f_equal|done|].
  unfold in_modify.
  destruct (modify_tx_spec now (register_useful_peer (DbErr:=DbErr) nanos ns peer) (ds_tx s))
    as (t1 & Hm & _ & Hv & _).
  unfold now_in in Hreg. rewrite Hreg in Hm, Hv. cbn [fst snd] in Hm, Hv. rewrite Hm.
  eexists. split; [reflexivity|]. unfold now_in at 1 3 4. cbn [ds_tx]. rewrite Hv. done.
Qed.

(** ** The latest entries *)

Context `{HB : Blake3Hash}.

Definition instance_of (ns : NamespaceId) (d : D) : StoreInstance TR TK TL :=
  mkStoreInstance ns (entries d).

(** The tables after an operation on the entries of a document. *)
Definition after (s : StoreInstance TR TK TL) (d : D) : D := set_entries (si_tables s) d.

(** The row for the latest entry of an author holds the entry that was inserted
    last. When an older entry arrives at another key, the newer one is still there,
    but a peer that announces just this newer entry is taken to have news. *)
Theorem latest_row_falls_back e k k0 v0 (d : D) :
  se_id e = flat k → id_wf k → latest_wf (latest_rows d) →
  ¬ blocked k e (t_content (get_records d)) →
  k0.1 = k.1 → t_content (get_records d) !! k0 = Some v0 → k0 ≠ k →
  (r_timestamp (se_record e) < rv_timestamp v0)%N →
  ∃ s' c n, put (Er:=DbErr) e (instance_of k.1.1 d) = Done (Ok (Inserted c)) s' [] ∧
    t_content (get_records (after s' d)) !! k0 = Some v0 ∧
    has_news_for_us (DbErr:=DbErr) k.1.1 (mkAuthorHeads {[ k.1.2 := rv_timestamp v0 ]}) (after s' d) =
      (Ok (Some n), after s' d).
Proof.
  intros He Hk Hwf Hnb Hk0 Hv0 Hne Hlt.
  destruct (fs_put_full e k (instance_of k.1.1 d) He Hk) as [[Hb _]|(_ & s' & Hput & _ & Hrows & Hl)]; [done|].
  assert (Hwf' : latest_wf (latest_rows (after s' d))).
  { intros k' v'. unfold latest_rows, after. cbn [entries set_entries]. rewrite Hl.
    intros [[<- _]|[_ Hk']]%lookup_insert_Some; [apply Hk|by eapply Hwf]. }
  destruct (our_heads_spec (DbErr:=DbErr) k.1.1 (after s' d)) as (ours & Hours & Hnews); [apply Hk|done|].
  assert (Hsome : has_news_for (mkAuthorHeads {[ k.1.2 := rv_timestamp v0 ]}) ours ≠ None).
  { rewrite has_news_for_None. intros Hall. destruct (Hall k.1.2 (rv_timestamp v0)) as (t & Ht & Hle);
      [apply lookup_singleton_eq|].
    rewrite Hours in Ht. unfold latest_rows, after in Ht. cbn [entries set_entries] in Ht.
    rewrite Hl, <-surjective_pairing, lookup_insert_eq in Ht. injection Ht as <-. lia. }
  destruct (has_news_for _ ours) as [n|] eqn:Hn; [|done].
  exists s'. eexists _, n. split; [exact Hput|]. split; [|by rewrite Hnews, Hn].
  transitivity (rows s' !! k0); [reflexivity|]. rewrite Hrows. unfold put_rows.
  rewrite lookup_insert_ne by done. apply map_lookup_filter_Some. split; [exact Hv0|].
  intros [_ Hle%bool_decide_eq_true]. cbn [fst snd] in Hle. rewrite into_entry_record in Hle.
  destruct Hle as [Hle|[Heq _]]; cbn in *; lia.
Qed.

End Props.

(** ** Examples *)

Section MapMore.
  Context {K V : Type} `{Countable K} (R : relation K) `{!RelDecision R}.

Definition map_more : TableMore (gmap K V) () K V := {|
  t_remove := λ k m, Ok (delete k m);
  t_retain_in := λ b f m, Ok (filter (λ kv, ¬ (in_bounds R b kv.1 ∧ f kv.1 kv.2 = false)) m);
  t_iter := λ m, Ok (Ok <$> table_items R m);
|}.

Lemma map_more_laws :
  TableMoreLaws (HT:=map_table R) (HM:=map_more) (HL:=map_table_laws R) (gmap K V) () K V R.
Proof. split; intros; eauto. Qed.

End MapMore.

Local Notation Multi := (gmap NamespaceId (gset PeerRow)).

Definition multi_get (k : NamespaceId) (m : Multi) : gset PeerRow := default ∅ (m !! k).

#[local] Instance map_multi : Multimap Multi () NamespaceId PeerRow := {|
  mm_get := λ k m, Ok (Ok <$> merge_sort peer_le (elements (multi_get k m)));
  mm_insert := λ k v m, Ok (<[k := {[v]} ∪ multi_get k m]> m);
  mm_remove := λ k v m, Ok (<[k := multi_get k m ∖ {[v]}]> m);
  mm_remove_all := λ k m, Ok (delete k m);
|}.

Lemma multi_get_insert (k k' : NamespaceId) (X : gset PeerRow) (m : Multi) :
  multi_get k' (<[k := X]> m) = if decide (k' = k) then X else multi_get k' m.
Proof.
  unfold multi_get. case_decide as Hk; [subst; by rewrite lookup_insert_eq|by rewrite lookup_insert_ne].
Qed.

#[local] Instance map_multi_laws : MultimapLaws Multi () NamespaceId PeerRow peer_le.
Proof.
  refine {| mm_values := λ m k, multi_get k m |}.
  - done.
  - intros k v m. eexists. split; [done|]. intros k'. apply multi_get_insert.
  - intros k v m. eexists. split; [done|]. intros k'. apply multi_get_insert.
  - intros k m. eexists. split; [done|]. intros k'. unfold multi_get.
    case_decide as Hk; [subst; by rewrite lookup_delete_eq|by rewrite lookup_delete_ne].
Defined.

Local Notation TNx := (gmap NamespaceId (N * list byte)).
Local Notation TDx := (gmap NamespaceId (list byte)).
#[local] Instance map_tn : Table TNx () NamespaceId (N * list byte) := map_table bytes_le.
#[local] Instance map_td : Table TDx () NamespaceId (list byte) := map_table bytes_le.
#[local] Instance map_tn_laws : TableLaws TNx () NamespaceId (N * list byte) bytes_le := map_table_laws bytes_le.
#[local] Instance map_td_laws : TableLaws TDx () NamespaceId (list byte) bytes_le := map_table_laws bytes_le.
#[local] Instance more_tn : TableMore TNx () NamespaceId (N * list byte) := map_more bytes_le.
#[local] Instance more_td : TableMore TDx () NamespaceId (list byte) := map_more bytes_le.
#[local] Instance more_tr : TableMore (gmap RecordsId RecordsValue) () RecordsId RecordsValue := map_more records_id_le.
#[local] Instance more_tk : TableMore (gmap RecordsByKeyId ()) () RecordsByKeyId () := map_more by_key_le.
#[local] Instance more_tn_laws : TableMoreLaws TNx () NamespaceId (N * list byte) bytes_le := map_more_laws bytes_le.
#[local] Instance more_td_laws : TableMoreLaws TDx () NamespaceId (list byte) bytes_le := map_more_laws bytes_le.
#[local] Instance more_tr_laws : TableMoreLaws (gmap RecordsId RecordsValue) () RecordsId RecordsValue records_id_le :=
  map_more_laws records_id_le.
#[local] Instance more_tk_laws : TableMoreLaws (gmap RecordsByKeyId ()) () RecordsByKeyId () by_key_le :=
  map_more_laws by_key_le.

(** Tables without rows but for the records and the documents that are given. *)
Definition Dx : Type := DbTables (gmap RecordsId RecordsValue) (gmap RecordsByKeyId ())
  (gmap LatestPerAuthorKey LatestPerAuthorValue) TNx Multi TDx ().

Definition ex_tables (tr : gmap RecordsId RecordsValue) (tn : TNx) : Dx :=
  mkDbTables (mkTables tr ∅ ∅) tn ∅ ∅ ().

#[local] Instance ex_database : Database Dx (DbError ()) := {| begin_write := Ok; begin_read := Ok; commit := Ok |}.
#[local] Instance ex_database_laws : DatabaseLaws Dx (DbError ()).
Proof. by split. Qed.

#[local] Instance ex_keys : Ed25519 := {
  key_public sk := resize 32 x00 sk;
  key_sign sk msg := resize 32 x00 sk ++ msg;
  key_valid pk := bool_decide (length pk = 32);
  key_verify pk msg sig := bool_decide (sig = pk ++ msg);
}.
#[local] Instance ex_hash : Blake3Hash := λ bytes, [default x00 (Byte.of_N (len bytes))].

Definition ex_ns : NamespaceId := replicate 32 x07.
Definition ex_author : AuthorId := replicate 32 x01.
Definition ex_secret : NamespaceSecret := mkNamespaceSecret ex_ns.

(** A store with one document that can only be read. *)
Definition ex_store : DocStore Dx :=
  mkDocStore (mkTxStore (ex_tables ∅ {[ ex_ns := cap_raw (CapRead ex_ns) ]}) TxNone) ∅.

Lemma import_keeps_strongest_witness :
  ∃ s1 s2, in_modify 0 (import_namespace (DbErr:=()) (CapWrite ex_secret)) ex_store = (Ok ImportUpgraded, s1) ∧
    load_replica_info 0 ex_ns s1 = (Ok (info_new (CapWrite ex_secret)), s2).
Proof.
  destruct (import_keeps_strongest (DbErr:=()) 0 0 (CapWrite ex_secret) (Some (CapRead ex_ns)) ex_store)
    as (s1 & s2 & H1 & H2 & _).
  - vm_compute. reflexivity.
  - intros c0 [= <-]. vm_compute. reflexivity.
  - exists s1, s2. split; [exact H1|exact H2].
Defined.

Lemma ex_db_wf tn : db_wf (DbErr:=()) (ex_tables ∅ tn).
Proof. split; intros k v H; [destruct (lookup_empty_Some k v H)|destruct (lookup_empty_Some k v H)]. Qed.

Lemma remove_replica_outcome_witness :
  ∃ s', remove_replica (DbErr:=()) 0 ex_ns ex_store = (Ok (), s') ∧
    removed (DbErr:=()) ex_ns (now_in ex_store) (now_in s') ∧
    latest_rows (DbErr:=()) (now_in s') = latest_rows (DbErr:=()) (now_in ex_store).
Proof.
  destruct (remove_replica_outcome (DbErr:=()) 0 ex_ns ex_store) as [[Hin _]|(_ & s' & H1 & H2 & H3 & _)].
  - reflexivity.
  - exact (ex_db_wf _).
  - destruct (not_elem_of_empty (C:=gset NamespaceId) ex_ns Hin).
  - exists s'. split; [exact H1|]. split; [exact H2|exact H3].
Defined.

Lemma useful_peers_bounded_witness :
  ∃ s', in_modify 0 (register_useful_peer (DbErr:=()) 3 ex_ns [x09]) ex_store = (Ok (), s') ∧
    peers_ok (peers_of (DbErr:=()) (now_in s') ex_ns) ∧
    registered 3 [x09] (peers_of (DbErr:=()) (now_in ex_store) ex_ns) (peers_of (DbErr:=()) (now_in s') ex_ns).
Proof.
  destruct (useful_peers_bounded (DbErr:=()) 0 3 ex_ns [x09] (cap_raw (CapRead ex_ns)) ex_store)
    as (s' & H1 & H2 & H3 & _).
  - vm_compute. reflexivity.
  - split; [vm_compute; lia|]. intros r1 r2 H. destruct (not_elem_of_empty (C:=gset PeerRow) r1 H).
  - exists s'. split; [exact H1|]. split; [exact H2|exact H3].
Defined.

(** The author has an entry of time 9 at one key; one of time 4 arrives at another. *)
Definition ex_newer : RecordsId := (ex_ns, ex_author, [x01]).
Definition ex_older : RecordsId := (ex_ns, ex_author, [x02]).
Definition ex_with_newer : Dx := ex_tables {[ ex_newer := mkRecordsValue 9 [] [] 1 [x00] ]} ∅.
Definition ex_entry : SignedEntry := into_entry ex_older (mkRecordsValue 4 [] [] 1 [x00]).

Lemma latest_row_falls_back_witness :
  ∃ s' c n, put (Er:=()) ex_entry (instance_of ex_ns ex_with_newer) = Done (Ok (Inserted c)) s' [] ∧
    t_content (DbErr:=()) (get_records (after s' ex_with_newer)) !! ex_newer =
      Some (mkRecordsValue 9 [] [] 1 [x00]) ∧
    has_news_for_us (DbErr:=()) ex_ns (mkAuthorHeads {[ ex_author := 9%N ]}) (after s' ex_with_newer) =
      (Ok (Some n), after s' ex_with_newer).
Proof.
  apply (latest_row_falls_back (DbErr:=()) ex_entry ex_older ex_newer (mkRecordsValue 9 [] [] 1 [x00])
    ex_with_newer).
  - reflexivity.
  - split; reflexivity.
  - intros k v H. destruct (lookup_empty_Some k v H).
  - intros (k' & v & Hv & _ & Hp & _). change (({[ ex_newer := mkRecordsValue 9 [] [] 1 [x00] ]}
      : gmap RecordsId RecordsValue) !! (ex_older.1, k') = Some v) in Hv.
    apply lookup_singleton_Some in Hv as [Hk _]. injection Hk as <-. destruct Hp as [l Hl]. discriminate Hl.
  - reflexivity.
  - apply (lookup_singleton_eq ex_newer).
  - discriminate.
  - vm_compute. reflexivity.
Defined.
