(* ===== verification/Merkle.v ===== *)
(** * Merkle trees of the identity protocol (protocols/krikos-identity/src/merkle.rs)

    The append-only log of a provider, the sorted set of an account state, and the
    three kinds of proof about them: inclusion, consistency of two sizes of a log,
    and absence of a key from a set. The recursions on the size of a tree carry
    fuel: the number of leaves, or the number of bits of the size. *)
From stdpp Require Import base tactics list gmap countable orders sorting strings.
From Stdlib Require Import ZArith Lia Strings.Byte.
From S2P Require Import Prelude Bytes IdTypes.

Local Open Scope N_scope.

(** ** Limits (limits.rs) *)

Definition MAX_MERKLE_PROOF_HASHES : N := 64.
Definition MAX_MERKLE_SET_LEAVES : N := 2048.
Definition MAX_MERKLE_LOG_LEAVES : N := 1048576.

(** [u64::try_from] of a [usize]. *)
Definition u64_try_from (resource : string) (x : N) : result IdentityError N :=
  if x <=? usize_max then Ok x else Err (ArithmeticOverflow resource).

(** [checked_add] of a [usize]. *)
Definition usize_checked_add (resource : string) (x y : N) : result IdentityError N :=
  if x + y <=? usize_max then Ok (x + y) else Err (ArithmeticOverflow resource).

(** ** Sizes *)

(** [u64::leading_zeros]. *)
Definition leading_zeros (x : N) : N := 64 - N.size x.

Definition largest_power_of_two_less_than (value : N) : N :=
  N.shiftl 1 (64 - leading_zeros (value - 1) - 1).

Definition split_at (n : nat) : nat := N.to_nat (largest_power_of_two_less_than (N.of_nat n)).

(** ** Keys and leaves of a set *)

Record MerkleSetKey : Type := mkMerkleSetKey {
  type_tag : N;
  key_id : Digest;
}.

#[global] Instance MerkleSetKey_EqDecision : EqDecision MerkleSetKey.
Proof. solve_decision. Defined.

Definition MerkleSetKey_new (tag : N) (id : Digest) : result IdentityError MerkleSetKey :=
  if tag =? 0 then Err (ZeroValue "Merkle set leaf type tag") else Ok (mkMerkleSetKey tag id).

(** The derived order: by tag, then by identifier. *)
Definition key_tuple (k : MerkleSetKey) : N * Digest := (type_tag k, key_id k).

Definition set_key_le (k1 k2 : MerkleSetKey) : Prop :=
  lex_le N.le digest_le (key_tuple k1) (key_tuple k2).

#[global] Instance set_key_le_dec : RelDecision set_key_le.
Proof. intros k1 k2. unfold set_key_le. apply _. Defined.

Definition set_key_ltb (k1 k2 : MerkleSetKey) : bool := negb (bool_decide (set_key_le k2 k1)).

Record MerkleSetLeaf : Type := mkMerkleSetLeaf {
  leaf_key : MerkleSetKey;
  value_hash : Digest;
}.

#[global] Instance MerkleSetLeaf_EqDecision : EqDecision MerkleSetLeaf.
Proof. solve_decision. Defined.

(** ** Proofs *)

Record MerkleInclusionProof : Type := mkInclusionProof {
  leaf_index : N;
  tree_size : N;
  audit_path : list Digest;
}.

Record MerkleConsistencyProof : Type := mkConsistencyProof {
  old_size : N;
  new_size : N;
  consistency_path : list Digest;
}.

Record MerkleNeighbor : Type := mkNeighbor {
  neighbor_leaf : MerkleSetLeaf;
  neighbor_proof : MerkleInclusionProof;
}.

Record MerkleNonMembershipProof : Type := mkNonMembershipProof {
  nm_tree_size : N;
  predecessor : option MerkleNeighbor;
  successor : option MerkleNeighbor;
}.

(** [BoundedVec::new] (schema.rs). *)
Definition bounded_vec {A} (max : N) (resource : string) (values : list A)
    : result IdentityError (list A) :=
  if max <? len values then Err (limit resource (len values) max) else Ok values.

(** The loop of [inclusion_path_length]: the index left over, and the length. *)
Fixpoint inclusion_path_loop (fuel : nat) (leaf_index tree_size length : N)
    : result IdentityError (N * N) :=
  match fuel with
  | O => Ok (leaf_index, length)
  | S fuel =>
      if 1 <? tree_size then
        let split := largest_power_of_two_less_than tree_size in
        let '(leaf_index, tree_size) :=
          if split <=? leaf_index then (leaf_index - split, tree_size - split)
          else (leaf_index, split) in
        length ← usize_checked_add "Merkle proof length" length 1;
        inclusion_path_loop fuel leaf_index tree_size length
      else Ok (leaf_index, length)
  end.

Definition inclusion_path_length (leaf_index tree_size : N) : result IdentityError N :=
  '(leaf_index, length) ← inclusion_path_loop (N.size_nat tree_size) leaf_index tree_size 0;
  if negb (leaf_index =? 0) || (MAX_MERKLE_PROOF_HASHES <? length) then Err InvalidProof
  else Ok length.

Fixpoint consistency_path_length_go (fuel : nat) (old_size new_size : N) (complete_subtree : bool)
    : result IdentityError N :=
  if (old_size =? 0) || (new_size <? old_size) || (new_size =? 0) then Err InvalidProof
  else if old_size =? new_size then Ok (if complete_subtree then 0 else 1)
  else
    match fuel with
    | O => Err InvalidProof
    | S fuel =>
        let split := largest_power_of_two_less_than new_size in
        nested ← (if old_size <=? split
                  then consistency_path_length_go fuel old_size split complete_subtree
                  else consistency_path_length_go fuel (old_size - split) (new_size - split) false);
        length ← usize_checked_add "Merkle consistency proof length" nested 1;
        if MAX_MERKLE_PROOF_HASHES <? length then Err InvalidProof else Ok length
    end.

Definition consistency_path_length (old_size new_size : N) (complete_subtree : bool)
    : result IdentityError N :=
  consistency_path_length_go (N.size_nat new_size) old_size new_size complete_subtree.

(** [MerkleInclusionProof::new]. *)
Definition inclusion_proof_new (leaf_index tree_size : N) (path : list Digest)
    : result IdentityError MerkleInclusionProof :=
  path ← bounded_vec MAX_MERKLE_PROOF_HASHES "Merkle audit path" path;
  if (tree_size =? 0) || (tree_size <=? leaf_index) then Err InvalidProof else
  expected ← inclusion_path_length leaf_index tree_size;
  if negb (len path =? expected) then Err InvalidProof
  else Ok (mkInclusionProof leaf_index tree_size path).

(** [MerkleConsistencyProof::new]. *)
Definition consistency_proof_new (old_size new_size : N) (path : list Digest)
    : result IdentityError MerkleConsistencyProof :=
  path ← bounded_vec MAX_MERKLE_PROOF_HASHES "Merkle consistency path" path;
  if new_size <? old_size then Err InvalidProof else
  expected ← (if (old_size =? 0) || (old_size =? new_size) then Ok 0
              else consistency_path_length old_size new_size true);
  if negb (len path =? expected) then Err InvalidProof
  else Ok (mkConsistencyProof old_size new_size path).

(** [validate_neighbor_shape]. *)
Definition validate_neighbor_shape (size : N) (pred succ : option MerkleNeighbor)
    : result IdentityError () :=
  if size =? 0 then
    match pred, succ with
    | None, None => Ok ()
    | _, _ => Err InvalidProof
    end
  else
    let index n := leaf_index (neighbor_proof n) in
    let foreign n := negb (tree_size (neighbor_proof n) =? size) in
    if from_option foreign false pred || from_option foreign false succ then Err InvalidProof else
    match pred, succ with
    | None, None => Err InvalidProof
    | None, Some s => if index s =? 0 then Ok () else Err InvalidProof
    | Some p, None => if index p =? size - 1 then Ok () else Err InvalidProof
    | Some l, Some r =>
        if negb ((index l + 1 <=? usize_max) && (index l + 1 =? index r)) ||
           negb (set_key_ltb (leaf_key (neighbor_leaf l)) (leaf_key (neighbor_leaf r)))
        then Err InvalidProof else Ok ()
    end.

(** [MerkleNonMembershipProof::new]. *)
Definition non_membership_proof_new (size : N) (pred succ : option MerkleNeighbor)
    : result IdentityError MerkleNonMembershipProof :=
  _ ← validate_neighbor_shape size pred succ;
  Ok (mkNonMembershipProof size pred succ).

(** ** Hashes of trees *)

Section Hashes.
  Context `{HB : Blake3Hash} `{HN : !WireFormat (Digest * Digest)}
    `{HL : !WireFormat (N * Digest * Digest)}.

Definition empty_merkle_root : Digest := hash_bytes DomainMerkleEmpty [].

(** [MerkleSetLeaf::hash]. *)
Definition leaf_hash (leaf : MerkleSetLeaf) : result IdentityError Digest :=
  payload ← encode_wire (type_tag (leaf_key leaf), key_id (leaf_key leaf), value_hash leaf);
  Ok (hash_bytes DomainMerkleLeaf payload).

Definition node_hash (left right : Digest) : result IdentityError Digest :=
  payload ← encode_wire (left, right);
  Ok (hash_bytes DomainMerkleNode payload).

Fixpoint tree_hash_go (fuel : nat) (hashes : list Digest) : result IdentityError Digest :=
  match hashes, fuel with
  | [], _ => Ok empty_merkle_root
  | [hash], _ => Ok hash
  | _, O => Err InvalidProof
  | _, S fuel =>
      let split := split_at (length hashes) in
      left ← tree_hash_go fuel (take split hashes);
      right ← tree_hash_go fuel (drop split hashes);
      node_hash left right
  end.

Definition tree_hash (hashes : list Digest) : result IdentityError Digest :=
  tree_hash_go (length hashes) hashes.

Fixpoint append_inclusion_path_go (fuel : nat) (hashes : list Digest) (leaf_index : nat)
    (path : list Digest) : result IdentityError (list Digest) :=
  if bool_decide (hashes = []) || (length hashes <=? leaf_index)%nat then Err InvalidProof
  else if (length hashes =? 1)%nat then Ok path
  else
    match fuel with
    | O => Err InvalidProof
    | S fuel =>
        let split := split_at (length hashes) in
        if (leaf_index <? split)%nat then
          path ← append_inclusion_path_go fuel (take split hashes) leaf_index path;
          hash ← tree_hash (drop split hashes);
          Ok (path ++ [hash])
        else
          path ← append_inclusion_path_go fuel (drop split hashes) (leaf_index - split) path;
          hash ← tree_hash (take split hashes);
          Ok (path ++ [hash])
    end.

Definition append_inclusion_path (hashes : list Digest) (leaf_index : nat) (path : list Digest)
    : result IdentityError (list Digest) :=
  append_inclusion_path_go (length hashes) hashes leaf_index path.

Fixpoint append_consistency_path_go (fuel : nat) (old_size : nat) (hashes : list Digest)
    (complete_subtree : bool) (path : list Digest) : result IdentityError (list Digest) :=
  if (old_size =? 0)%nat || (length hashes <? old_size)%nat || bool_decide (hashes = [])
  then Err InvalidProof
  else if (old_size =? length hashes)%nat then
    if complete_subtree then Ok path else
    hash ← tree_hash hashes;
    Ok (path ++ [hash])
  else
    match fuel with
    | O => Err InvalidProof
    | S fuel =>
        let split := split_at (length hashes) in
        if (old_size <=? split)%nat then
          path ← append_consistency_path_go fuel old_size (take split hashes) complete_subtree path;
          hash ← tree_hash (drop split hashes);
          Ok (path ++ [hash])
        else
          path ← append_consistency_path_go fuel (old_size - split) (drop split hashes) false path;
          hash ← tree_hash (take split hashes);
          Ok (path ++ [hash])
    end.

Definition append_consistency_path (old_size : nat) (hashes : list Digest) (complete_subtree : bool)
    (path : list Digest) : result IdentityError (list Digest) :=
  append_consistency_path_go (length hashes) old_size hashes complete_subtree path.

End Hashes.

(** ** Verification of proofs *)

Section Verify.
  Context `{HB : Blake3Hash} `{HN : !WireFormat (Digest * Digest)}
    `{HL : !WireFormat (N * Digest * Digest)}.

Definition next_path_hash (path : list Digest) (path_index : N) : result IdentityError (Digest * N) :=
  match path !! N.to_nat path_index with
  | None => Err InvalidProof
  | Some hash =>
      path_index ← usize_checked_add "Merkle proof path index" path_index 1;
      Ok (hash, path_index)
  end.

Fixpoint root_from_inclusion_go (fuel : nat) (leaf : Digest) (leaf_index tree_size : N)
    (path : list Digest) (path_index : N) : result IdentityError (Digest * N) :=
  if (tree_size =? 0) || (tree_size <=? leaf_index) then Err InvalidProof
  else if tree_size =? 1 then Ok (leaf, path_index)
  else
    match fuel with
    | O => Err InvalidProof
    | S fuel =>
        let split := largest_power_of_two_less_than tree_size in
        if leaf_index <? split then
          '(left_hash, path_index) ← root_from_inclusion_go fuel leaf leaf_index split path path_index;
          '(right_hash, path_index) ← next_path_hash path path_index;
          root ← node_hash left_hash right_hash;
          Ok (root, path_index)
        else
          '(right_hash, path_index) ← root_from_inclusion_go fuel leaf (leaf_index - split)
            (tree_size - split) path path_index;
          '(left_hash, path_index) ← next_path_hash path path_index;
          root ← node_hash left_hash right_hash;
          Ok (root, path_index)
    end.

Definition root_from_inclusion (leaf : Digest) (leaf_index tree_size : N) (path : list Digest)
    (path_index : N) : result IdentityError (Digest * N) :=
  root_from_inclusion_go (N.size_nat tree_size) leaf leaf_index tree_size path path_index.

(** [MerkleInclusionProof::verify_leaf_hash]. *)
Definition verify_leaf_hash (proof : MerkleInclusionProof) (leaf expected_root : Digest)
    : result IdentityError () :=
  '(actual_root, path_index) ←
    root_from_inclusion leaf (leaf_index proof) (tree_size proof) (audit_path proof) 0;
  if negb (path_index =? len (audit_path proof)) || bool_decide (actual_root ≠ expected_root)
  then Err InvalidProof else Ok ().

(** [MerkleInclusionProof::verify]. *)
Definition inclusion_verify (proof : MerkleInclusionProof) (leaf : MerkleSetLeaf)
    (expected_root : Digest) : result IdentityError () :=
  hash ← leaf_hash leaf;
  verify_leaf_hash proof hash expected_root.

(** [while old_cursor & 1 == 1]. *)
Fixpoint shift_while_odd (fuel : nat) (old_cursor new_cursor : N) : N * N :=
  match fuel with
  | O => (old_cursor, new_cursor)
  | S fuel =>
      if N.land old_cursor 1 =? 1
      then shift_while_odd fuel (N.shiftr old_cursor 1) (N.shiftr new_cursor 1)
      else (old_cursor, new_cursor)
  end.

(** [while old_cursor != 0 && old_cursor & 1 == 0]. *)
Fixpoint shift_while_even (fuel : nat) (old_cursor new_cursor : N) : N * N :=
  match fuel with
  | O => (old_cursor, new_cursor)
  | S fuel =>
      if negb (old_cursor =? 0) && (N.land old_cursor 1 =? 0)
      then shift_while_even fuel (N.shiftr old_cursor 1) (N.shiftr new_cursor 1)
      else (old_cursor, new_cursor)
  end.

(** The cursors of [MerkleConsistencyProof::verify]. *)
Record Cursor : Type := mkCursor {
  old_cursor : N;
  new_cursor : N;
  old_hash : Digest;
  new_hash : Digest;
}.

(** [while path_index < self.audit_path.len()], on the rest of the path. *)
Fixpoint consistency_loop (c : Cursor) (path : list Digest) : result IdentityError Cursor :=
  match path with
  | [] => Ok c
  | sibling :: path =>
      if new_cursor c =? 0 then Err InvalidProof else
      c ← (if (N.land (old_cursor c) 1 =? 1) || (old_cursor c =? new_cursor c) then
             old_hash ← node_hash sibling (old_hash c);
             new_hash ← node_hash sibling (new_hash c);
             let '(o, n) := shift_while_even (N.size_nat (old_cursor c)) (old_cursor c) (new_cursor c) in
             Ok (mkCursor o n old_hash new_hash)
           else
             new_hash ← node_hash (new_hash c) sibling;
             Ok (mkCursor (old_cursor c) (new_cursor c) (old_hash c) new_hash));
      consistency_loop (mkCursor (N.shiftr (old_cursor c) 1) (N.shiftr (new_cursor c) 1)
        (old_hash c) (new_hash c)) path
  end.

(** [MerkleConsistencyProof::verify]. *)
Definition consistency_verify (proof : MerkleConsistencyProof) (old_root new_root : Digest)
    : result IdentityError () :=
  let path := consistency_path proof in
  if old_size proof =? 0 then
    if bool_decide (old_root ≠ empty_merkle_root) || bool_decide (path ≠ []) ||
       ((new_size proof =? 0) && bool_decide (new_root ≠ empty_merkle_root))
    then Err InvalidProof else Ok ()
  else if old_size proof =? new_size proof then
    if bool_decide (path = []) && bool_decide (old_root = new_root) then Ok () else Err InvalidProof
  else
    let '(o, n) := shift_while_odd (N.size_nat (old_size proof - 1))
      (old_size proof - 1) (new_size proof - 1) in
    '(seed, rest) ← (if o =? 0 then Ok (old_root, path)
                     else match path with
                          | [] => Err InvalidProof
                          | seed :: rest => Ok (seed, rest)
                          end);
    c ← consistency_loop (mkCursor o n seed seed) rest;
    if negb (new_cursor c =? 0) || bool_decide (old_hash c ≠ old_root) ||
       bool_decide (new_hash c ≠ new_root)
    then Err InvalidProof else Ok ().

(** [MerkleNonMembershipProof::verify]. *)
Definition non_membership_verify (proof : MerkleNonMembershipProof) (query : MerkleSetKey)
    (expected_root : Digest) : result IdentityError () :=
  _ ← validate_neighbor_shape (nm_tree_size proof) (predecessor proof) (successor proof);
  if nm_tree_size proof =? 0 then
    if bool_decide (expected_root = empty_merkle_root) then Ok () else Err InvalidProof
  else
    _ ← match predecessor proof with
        | None => Ok ()
        | Some p =>
            _ ← inclusion_verify (neighbor_proof p) (neighbor_leaf p) expected_root;
            if negb (set_key_ltb (leaf_key (neighbor_leaf p)) query) then Err InvalidProof else Ok ()
        end;
    match successor proof with
    | None => Ok ()
    | Some s =>
        _ ← inclusion_verify (neighbor_proof s) (neighbor_leaf s) expected_root;
        if negb (set_key_ltb query (leaf_key (neighbor_leaf s))) then Err InvalidProof else Ok ()
    end.

End Verify.

(** ** The append-only log *)

Record AppendOnlyMerkleLog : Type := mkLog { leaf_hashes : list Digest }.

Section Log.
  Context `{HB : Blake3Hash} `{HN : !WireFormat (Digest * Digest)}.

Definition log_new : AppendOnlyMerkleLog := mkLog [].

Definition from_leaf_hashes (hashes : list Digest) : result IdentityError AppendOnlyMerkleLog :=
  if MAX_MERKLE_LOG_LEAVES <? len hashes
  then Err (limit "provider Merkle log leaves" (len hashes) MAX_MERKLE_LOG_LEAVES)
  else Ok (mkLog hashes).

(** The index of the new leaf, and the log with it. *)
Definition append (log : AppendOnlyMerkleLog) (leaf : Digest)
    : result IdentityError (N * AppendOnlyMerkleLog) :=
  let n := len (leaf_hashes log) in
  if n =? MAX_MERKLE_LOG_LEAVES
  then Err (limit "provider Merkle log leaves" (saturating_add64 n 1) MAX_MERKLE_LOG_LEAVES)
  else
    index ← u64_try_from "provider Merkle log leaf index" n;
    Ok (index, mkLog (leaf_hashes log ++ [leaf])).

Definition log_tree_size (log : AppendOnlyMerkleLog) : result IdentityError N :=
  u64_try_from "provider Merkle log tree size" (len (leaf_hashes log)).

Definition log_root (log : AppendOnlyMerkleLog) : result IdentityError Digest :=
  tree_hash (leaf_hashes log).

Definition log_inclusion_proof (log : AppendOnlyMerkleLog) (leaf_index : N)
    : result IdentityError MerkleInclusionProof :=
  size ← log_tree_size log;
  if size <=? leaf_index then Err InvalidProof else
  path ← append_inclusion_path (leaf_hashes log) (N.to_nat leaf_index) [];
  inclusion_proof_new leaf_index size path.

Definition log_consistency_proof (log : AppendOnlyMerkleLog) (old_size : N)
    : result IdentityError MerkleConsistencyProof :=
  new_size ← log_tree_size log;
  if new_size <? old_size then Err InvalidProof
  else if (old_size =? 0) || (old_size =? new_size)
  then consistency_proof_new old_size new_size []
  else
    path ← append_consistency_path (N.to_nat old_size) (leaf_hashes log) true [];
    consistency_proof_new old_size new_size path.

End Log.

(** ** The sorted set *)

Record MerkleSet : Type := mkSet { entries : list MerkleSetLeaf }.

Definition leaf_key_le (l1 l2 : MerkleSetLeaf) : Prop := set_key_le (leaf_key l1) (leaf_key l2).

#[global] Instance leaf_key_le_dec : RelDecision leaf_key_le.
Proof. intros l1 l2. unfold leaf_key_le. apply _. Defined.

(** Whether two neighbours have the same key. *)
Fixpoint adjacent_duplicate (l : list MerkleSetLeaf) : bool :=
  match l with
  | a :: ((b :: _) as rest) => bool_decide (leaf_key a = leaf_key b) || adjacent_duplicate rest
  | _ => false
  end.

(** [slice::binary_search_by_key] on entries sorted by their keys, without
    duplicates: the position of the key, or the position to insert it at. *)
Definition binary_search (key : MerkleSetKey) (l : list MerkleSetLeaf) : result nat nat :=
  match list_find (λ e, leaf_key e = key) l with
  | Some (i, _) => Ok i
  | None => Err (length (filter (λ e, set_key_le (leaf_key e) key) l))
  end.

Section Set_.
  Context `{HB : Blake3Hash} `{HN : !WireFormat (Digest * Digest)}
    `{HL : !WireFormat (N * Digest * Digest)}.

Definition set_new (leaves : list MerkleSetLeaf) : result IdentityError MerkleSet :=
  if MAX_MERKLE_SET_LEAVES <? len leaves
  then Err (limit "Merkle set leaves" (len leaves) MAX_MERKLE_SET_LEAVES)
  else
    let sorted := merge_sort leaf_key_le leaves in
    if adjacent_duplicate sorted then Err (DuplicateElement "Merkle set leaf key")
    else Ok (mkSet sorted).

(** [MerkleSet::leaf_hashes]. *)
Definition set_leaf_hashes (s : MerkleSet) : result IdentityError (list Digest) :=
  collect (leaf_hash <$> entries s).

Definition set_root (s : MerkleSet) : result IdentityError Digest :=
  hashes ← set_leaf_hashes s;
  tree_hash hashes.

Definition inclusion_proof_at (s : MerkleSet) (leaf_index : nat)
    : result IdentityError MerkleInclusionProof :=
  hashes ← set_leaf_hashes s;
  path ← append_inclusion_path hashes leaf_index [];
  index ← u64_try_from "Merkle leaf index" (N.of_nat leaf_index);
  size ← u64_try_from "Merkle tree size" (len hashes);
  inclusion_proof_new index size path.

Definition set_inclusion_proof (s : MerkleSet) (key : MerkleSetKey)
    : result IdentityError MerkleInclusionProof :=
  match binary_search key (entries s) with
  | Err _ => Err (InvalidRelationship "Merkle inclusion query is absent")
  | Ok index => inclusion_proof_at s index
  end.

(** The neighbour at an index of the entries, which must exist. *)
Definition neighbor_at (s : MerkleSet) (i : nat) : result IdentityError (option MerkleNeighbor) :=
  match entries s !! i with
  | None => Ok None
  | Some leaf =>
      proof ← inclusion_proof_at s i;
      Ok (Some (mkNeighbor leaf proof))
  end.

Definition non_membership_proof (s : MerkleSet) (query : MerkleSetKey)
    : result IdentityError MerkleNonMembershipProof :=
  match binary_search query (entries s) with
  | Ok _ => Err (InvalidRelationship "Merkle non-membership query is present")
  | Err insertion =>
      size ← u64_try_from "Merkle tree size" (len (entries s));
      pred ← (if (insertion =? 0)%nat then Ok None else neighbor_at s (insertion - 1));
      succ ← (if (insertion =? length (entries s))%nat then Ok None else neighbor_at s insertion);
      non_membership_proof_new size pred succ
  end.

Definition set_consistency_proof (s : MerkleSet) (old_size : N)
    : result IdentityError MerkleConsistencyProof :=
  new_size ← u64_try_from "Merkle tree size" (len (entries s));
  if new_size <? old_size then Err InvalidProof
  else if (old_size =? 0) || (old_size =? new_size)
  then consistency_proof_new old_size new_size []
  else
    hashes ← set_leaf_hashes s;
    path ← append_consistency_path (N.to_nat old_size) hashes true [];
    consistency_proof_new old_size new_size path.

End Set_.
