(* ===== verification/MerkleFacts.v ===== *)
(** * Facts about Merkle trees

    The arithmetic of the split of a tree, the recursion equations of the hashes
    and paths without their fuel, and what a proof of inclusion shows. *)
From stdpp Require Import base tactics list gmap countable orders sorting strings.
From Stdlib Require Import ZArith Lia Strings.Byte.
From S2P Require Import Prelude Bytes IdTypes Merkle.

Local Open Scope N_scope.

(** ** The split *)

Lemma power_log v : 1 < v →
  largest_power_of_two_less_than v = 2 ^ N.min (N.log2 (v - 1)) 63.
Proof.
  intros Hv. unfold largest_power_of_two_less_than, leading_zeros.
  rewrite N.size_log2 by lia. rewrite N.shiftl_1_l. f_equal. lia.
Qed.

Lemma power_bounds v : 1 < v →
  0 < largest_power_of_two_less_than v ∧ largest_power_of_two_less_than v < v.
Proof.
  intros Hv. rewrite power_log by done.
  assert (Hp : 2 ^ N.min (N.log2 (v - 1)) 63 ≤ 2 ^ N.log2 (v - 1)) by (apply N.pow_le_mono_r; lia).
  pose proof (N.log2_spec (v - 1)). assert (0 < 2 ^ N.min (N.log2 (v - 1)) 63); [|lia].
  pose proof (N.pow_nonzero 2 (N.min (N.log2 (v - 1)) 63)). lia.
Qed.

(** The left part is a complete tree, at least as large as the right one. *)
Lemma power_spec v : 1 < v → v ≤ usize_max →
  ∃ t, largest_power_of_two_less_than v = 2 ^ t ∧ 2 ^ t < v ∧ v ≤ 2 ^ (t + 1) ∧ t < 64.
Proof.
  intros Hv Hmax. exists (N.log2 (v - 1)). rewrite power_log by done.
  assert (Hlog : N.log2 (v - 1) < 64) by (apply N.log2_lt_pow2; unfold usize_max in *; lia).
  rewrite N.min_l by lia. pose proof (N.log2_spec (v - 1)) as Hs.
  rewrite N.add_1_r. lia.
Qed.

(** The size of the left part is determined by the bounds. *)
Lemma power_unique v t : t < 64 → 2 ^ t < v → v ≤ 2 ^ (t + 1) →
  largest_power_of_two_less_than v = 2 ^ t.
Proof.
  intros Ht Hlo Hhi. assert (0 < 2 ^ t) by (apply N.neq_0_lt_0, N.pow_nonzero; lia).
  rewrite power_log by lia. f_equal.
  assert (N.log2 (v - 1) = t) as ->; [|lia].
  apply N.log2_unique; [lia|]. rewrite <-N.add_1_r. lia.
Qed.

Lemma split_bounds n : (2 ≤ n)%nat → (0 < split_at n < n)%nat.
Proof.
  intros Hn. unfold split_at. pose proof (power_bounds (N.of_nat n)). lia.
Qed.

Lemma split_at_N n : N.of_nat (split_at n) = largest_power_of_two_less_than (N.of_nat n).
Proof. unfold split_at. by rewrite N2Nat.id. Qed.

(** ** Hashes of trees *)

(** Lists that fit in memory. *)
Definition sized {A} (l : list A) : Prop := len l ≤ usize_max.

Lemma sized_take {A} (l : list A) n : sized l → sized (take n l).
Proof. unfold sized, len. rewrite length_take. lia. Qed.

Lemma sized_drop {A} (l : list A) n : sized l → sized (drop n l).
Proof. unfold sized, len. rewrite length_drop. lia. Qed.

#[export] Hint Resolve sized_take sized_drop : merkle.

(** Induction along the splits of a tree. *)
Lemma split_ind {A} (P : list A → Prop) :
  P [] → (∀ h, P [h]) →
  (∀ l, (2 ≤ length l)%nat → P (take (split_at (length l)) l) → P (drop (split_at (length l)) l) → P l) →
  ∀ l, P l.
Proof.
  intros H0 H1 H2. assert (Hn : ∀ n l, (length l ≤ n)%nat → P l); [|eauto].
  induction n as [|n IH]; intros l Hl.
  - destruct l; [done|simpl in Hl; lia].
  - destruct l as [|a [|b l]]; [done..|]. set (l' := a :: b :: l) in *.
    assert (H2l : (2 ≤ length l')%nat) by (simpl; lia).
    pose proof (split_bounds _ H2l). apply H2; [done|apply IH..].
    + rewrite length_take. lia.
    + rewrite length_drop. lia.
Qed.

Section Hashes.
  Context `{HB : Blake3Hash} `{HN : !WireFormat (Digest * Digest)}
    `{HNL : !WireLaws (Digest * Digest)}.

(** The hash of an interior node, and of a tree. *)
Definition node (l r : Digest) : Digest :=
  hash_bytes DomainMerkleNode (default [] (to_stdvec (l, r))).

Definition root (l : list Digest) : Digest :=
  match tree_hash l with Ok d => d | Err _ => empty_merkle_root end.

Lemma node_hash_Ok l r : node_hash l r = Ok (node l r).
Proof.
  unfold node_hash, node, encode_wire. destruct (law_encodes (l, r)) as [bytes ->]. done.
Qed.

Lemma node_inj a b c d : node a b = node c d → (a = c ∧ b = d) ∨ collision.
Proof.
  unfold node. destruct (law_encodes (a, b)) as [x Hx], (law_encodes (c, d)) as [y Hy].
  rewrite Hx, Hy. simpl. intros [[_ ->]|]%hash_bytes_inj; [left|by right].
  assert ((a, b) = (c, d)) by (eapply encode_wire_inj; unfold encode_wire; by rewrite ?Hx, ?Hy).
  naive_solver.
Qed.

Lemma tree_hash_go_fuel fuel l : (length l ≤ fuel)%nat → tree_hash_go fuel l = tree_hash l.
Proof.
  unfold tree_hash. enough (H : ∀ f1 f2 l, (length l ≤ f1)%nat → (length l ≤ f2)%nat →
    tree_hash_go f1 l = tree_hash_go f2 l) by (intros; apply H; lia).
  clear. induction f1 as [|f1 IH]; intros f2 l H1 H2.
  - destruct l; [|simpl in H1; lia]. by destruct f2.
  - destruct l as [|a [|b l]]; [by destruct f2..|]. destruct f2 as [|f2]; [simpl in H2; lia|].
    set (l' := a :: b :: l) in *. assert (H2l : (2 ≤ length l')%nat) by (simpl; lia).
    pose proof (split_bounds _ H2l). cbn [tree_hash_go l']. fold l'.
    rewrite (IH f2 (take _ l')), (IH f2 (drop _ l')); [done|..];
      rewrite ?length_take, ?length_drop; lia.
Qed.

Lemma tree_hash_split l :
  (2 ≤ length l)%nat →
  tree_hash l = (l1 ← tree_hash (take (split_at (length l)) l);
                 l2 ← tree_hash (drop (split_at (length l)) l); node_hash l1 l2).
Proof.
  intros Hl. pose proof (split_bounds _ Hl). unfold tree_hash at 1.
  destruct (length l) as [|n] eqn:Hlen; [lia|]. destruct l as [|a [|b l]]; [simpl in *; lia..|].
  set (l' := a :: b :: l) in *. cbn [tree_hash_go l']. fold l'. rewrite Hlen.
  rewrite !tree_hash_go_fuel; [done|..]; rewrite ?length_take, ?length_drop; lia.
Qed.

Lemma tree_hash_Ok l : tree_hash l = Ok (root l).
Proof.
  unfold root. enough (∃ d, tree_hash l = Ok d) as [d ->] by done.
  induction l as [|h|l Hl [d1 H1] [d2 H2]] using split_ind; [by eexists..|].
  rewrite tree_hash_split, H1, H2 by done. simpl. rewrite node_hash_Ok. by eexists.
Qed.

Lemma root_nil : root [] = empty_merkle_root.
Proof. done. Qed.

Lemma root_singleton h : root [h] = h.
Proof. done. Qed.

Lemma root_split l :
  (2 ≤ length l)%nat →
  root l = node (root (take (split_at (length l)) l)) (root (drop (split_at (length l)) l)).
Proof.
  intros Hl. assert (Ok (E:=IdentityError) (root l) = Ok (node (root (take (split_at (length l)) l))
    (root (drop (split_at (length l)) l)))) as Heq; [|congruence].
  by rewrite <-tree_hash_Ok, tree_hash_split, !tree_hash_Ok, <-node_hash_Ok by done.
Qed.

End Hashes.

(** ** Fuel of the recursions on sizes *)

Lemma halves v f : 1 < v → v ≤ usize_max → v ≤ 2 ^ N.of_nat (S f) →
  largest_power_of_two_less_than v ≤ 2 ^ N.of_nat f ∧
  v - largest_power_of_two_less_than v ≤ 2 ^ N.of_nat f.
Proof.
  intros Hv Hmax Hf. destruct (power_spec v Hv Hmax) as (t & -> & Hlo & Hhi & _).
  assert (Ht : t ≤ N.of_nat f).
  { assert (Hlt : 2 ^ t < 2 ^ N.of_nat (S f)) by lia. apply N.pow_lt_mono_r_iff in Hlt; lia. }
  pose proof (N.pow_le_mono_r 2 t (N.of_nat f)). rewrite N.add_1_r, N.pow_succ_r' in Hhi. lia.
Qed.

Lemma size_pow n : n ≤ 2 ^ N.of_nat (N.size_nat n).
Proof.
  destruct n as [|p]; [done|]. apply N.lt_le_incl.
  assert (Hsz : N.of_nat (N.size_nat (N.pos p)) = N.size (N.pos p)).
  { simpl. induction p as [p IH|p IH|]; simpl; lia. }
  rewrite Hsz. apply N.size_gt.
Qed.

Lemma half_bounds v : 1 < v → v ≤ usize_max →
  largest_power_of_two_less_than v ≤ usize_max ∧ v - largest_power_of_two_less_than v ≤ usize_max.
Proof. intros Hv Hmax. pose proof (power_bounds v Hv). lia. Qed.

Lemma small_size n : n ≤ 2 ^ N.of_nat 0 → n = 0 ∨ n = 1.
Proof. change (2 ^ N.of_nat 0) with 1. lia. Qed.

Section Inclusion.
  Context `{HB : Blake3Hash} `{HN : !WireFormat (Digest * Digest)}
    `{HNL : !WireLaws (Digest * Digest)}.

Lemma root_from_inclusion_fuel fuel leaf i n path idx :
  n ≤ usize_max → n ≤ 2 ^ N.of_nat fuel →
  root_from_inclusion_go fuel leaf i n path idx = root_from_inclusion leaf i n path idx.
Proof.
  unfold root_from_inclusion. enough (H : ∀ f1 f2 i n idx, n ≤ usize_max →
    n ≤ 2 ^ N.of_nat f1 → n ≤ 2 ^ N.of_nat f2 →
    root_from_inclusion_go f1 leaf i n path idx = root_from_inclusion_go f2 leaf i n path idx)
    by (intros; apply H; auto using size_pow).
  clear. induction f1 as [|f1 IH]; intros f2 i n idx Hmax H1 H2.
  - apply small_size in H1 as [-> | ->]; [by destruct f2|]. destruct f2; simpl; by destruct (_ <=? _).
  - destruct f2 as [|f2].
    { apply small_size in H2 as [-> | ->]; [done|]. simpl. by destruct (_ <=? _). }
    cbn [root_from_inclusion_go]. destruct ((n =? 0) || (n <=? i)) eqn:Hn; [done|].
    destruct (N.eqb_spec n 1); [done|]. assert (Hn1 : 1 < n) by (destruct (N.eqb_spec n 0); [done|lia]).
    destruct (halves n f1) as [Ha1 Hb1], (halves n f2) as [Ha2 Hb2], (half_bounds n) as [??]; [done..|].
    by rewrite (IH f2 i), (IH f2 (i - _)).
Qed.

Lemma root_from_inclusion_one leaf path idx :
  root_from_inclusion leaf 0 1 path idx = Ok (leaf, idx).
Proof. done. Qed.

Lemma root_from_inclusion_split leaf i n path idx :
  1 < n → n ≤ usize_max → i < n →
  root_from_inclusion leaf i n path idx =
    let k := largest_power_of_two_less_than n in
    if i <? k then
      '(l, idx) ← root_from_inclusion leaf i k path idx;
      '(r, idx) ← next_path_hash path idx;
      Ok (node l r, idx)
    else
      '(r, idx) ← root_from_inclusion leaf (i - k) (n - k) path idx;
      '(l, idx) ← next_path_hash path idx;
      Ok (node l r, idx).
Proof.
  intros Hn Hmax Hi. rewrite <-(root_from_inclusion_fuel (S (N.size_nat n))).
  2: done.
  2: { pose proof (size_pow n). etrans; [done|]. apply N.pow_le_mono_r; lia. }
  cbn [root_from_inclusion_go].
  rewrite (proj2 (N.eqb_neq n 0)), (proj2 (N.eqb_neq n 1)), (proj2 (N.leb_gt n i)) by lia. cbn [orb].
  destruct (halves n (N.size_nat n)) as [Ha Hb], (half_bounds n) as [??]; try done.
  { pose proof (size_pow n). etrans; [done|]. apply N.pow_le_mono_r; lia. }
  rewrite !root_from_inclusion_fuel by done. unfold mbind, result_bind.
  destruct (i <? _); destruct (root_from_inclusion _ _ _ _ _) as [[l j]|]; try done;
    destruct (next_path_hash path j) as [[r j']|]; try done; by rewrite node_hash_Ok.
Qed.

(** The parts of a split list. *)
Lemma len_take_split {A} (l : list A) :
  (2 ≤ length l)%nat → len (take (split_at (length l)) l) = largest_power_of_two_less_than (len l).
Proof.
  intros Hl. pose proof (split_bounds _ Hl). unfold len. rewrite length_take, Nat.min_l by lia.
  apply split_at_N.
Qed.

Lemma len_drop_split {A} (l : list A) :
  (2 ≤ length l)%nat →
  len (drop (split_at (length l)) l) = len l - largest_power_of_two_less_than (len l).
Proof.
  intros Hl. pose proof (split_bounds _ Hl). unfold len. rewrite length_drop.
  rewrite <-split_at_N. lia.
Qed.

Lemma power_len {A} (l : list A) :
  largest_power_of_two_less_than (len l) = N.of_nat (split_at (length l)).
Proof. by rewrite split_at_N. Qed.

Lemma len_gt1 {A} (l : list A) : (2 ≤ length l)%nat → 1 < len l.
Proof. unfold len. lia. Qed.

Lemma Ok_pair_inj {E A B} (a c : A) (b d : B) : Ok (E:=E) (a, b) = Ok (c, d) → a = c ∧ b = d.
Proof. by intros [= -> ->]. Qed.

(** A path that leads to the root of a tree leads there from its leaf. *)
Lemma root_from_inclusion_sound l h i path idx idx' :
  sized l → i < len l →
  root_from_inclusion h i (len l) path idx = Ok (root l, idx') →
  l !! N.to_nat i = Some h ∨ collision.
Proof.
  revert i idx idx'. induction l as [|x|l Hl IH1 IH2] using split_ind; intros i idx idx' Hs Hi.
  - unfold len in Hi. simpl in Hi. lia.
  - assert (i = 0) as -> by (unfold len in Hi; simpl in Hi; lia).
    change (len [x]) with 1. rewrite root_from_inclusion_one, root_singleton. intros [= <- _]. by left.
  - pose proof (split_bounds _ Hl). pose proof (len_gt1 l Hl).
    rewrite root_from_inclusion_split by done. cbv zeta. rewrite root_split by done.
    rewrite <-len_drop_split, <-len_take_split by done. set (k := split_at (length l)) in *.
    assert (Hk : len (take k l) = N.of_nat k) by (unfold len; rewrite length_take; lia).
    destruct (N.ltb_spec i (len (take k l))) as [Hik|Hik]; unfold mbind, result_bind.
    + destruct (root_from_inclusion _ _ _ _ _) as [[a j]|] eqn:Hr; [|done].
      destruct (next_path_hash path j) as [[b j']|]; [|done].
      intros [Heq _]%Ok_pair_inj. apply node_inj in Heq as [[-> _]|]; [|by right].
      apply IH1 in Hr as [Hr|]; [|by right|by apply sized_take|done]. left.
      rewrite lookup_take in Hr. case_decide; done.
    + destruct (root_from_inclusion _ _ _ _ _) as [[a j]|] eqn:Hr; [|done].
      destruct (next_path_hash path j) as [[b j']|]; [|done].
      intros [Heq _]%Ok_pair_inj. apply node_inj in Heq as [[_ ->]|]; [|by right].
      assert (Hd : len (drop k l) = len l - N.of_nat k) by (unfold len; rewrite length_drop; lia).
      apply IH2 in Hr as [Hr|]; [|by right|by apply sized_drop|lia]. left.
      rewrite lookup_drop in Hr. rewrite <-Hr. f_equal. lia.
Qed.

Lemma append_inclusion_path_fuel fuel l i p :
  (length l ≤ fuel)%nat → append_inclusion_path_go fuel l i p = append_inclusion_path l i p.
Proof.
  unfold append_inclusion_path. enough (H : ∀ f1 f2 l i, (length l ≤ f1)%nat → (length l ≤ f2)%nat →
    append_inclusion_path_go f1 l i p = append_inclusion_path_go f2 l i p) by (intros; apply H; lia).
  clear. induction f1 as [|f1 IH]; intros f2 l i H1 H2.
  - destruct l; [|simpl in H1; lia]. by destruct f2.
  - destruct l as [|a [|b l]]; [by destruct f2..|]. destruct f2 as [|f2]; [simpl in H2; lia|].
    set (l' := a :: b :: l) in *. assert (H2l : (2 ≤ length l')%nat) by (simpl; lia).
    pose proof (split_bounds _ H2l). cbn [append_inclusion_path_go].
    rewrite (IH f2 (take _ l')), (IH f2 (drop _ l')); [done|..];
      rewrite ?length_take, ?length_drop; lia.
Qed.

Lemma append_inclusion_path_split l i p :
  (2 ≤ length l)%nat → (i < length l)%nat →
  append_inclusion_path l i p =
    let k := split_at (length l) in
    if (i <? k)%nat then
      p ← append_inclusion_path (take k l) i p; Ok (p ++ [root (drop k l)])
    else
      p ← append_inclusion_path (drop k l) (i - k) p; Ok (p ++ [root (take k l)]).
Proof.
  intros Hl Hi. pose proof (split_bounds _ Hl).
  rewrite <-(append_inclusion_path_fuel (S (length l))) by lia. cbn [append_inclusion_path_go].
  rewrite bool_decide_eq_false_2 by (intros ->; simpl in Hl; lia). cbn [orb].
  rewrite (proj2 (Nat.leb_gt (length l) i)), (proj2 (Nat.eqb_neq (length l) 1)) by lia.
  rewrite !append_inclusion_path_fuel by (rewrite ?length_take, ?length_drop; lia).
  by rewrite !tree_hash_Ok.
Qed.

Lemma next_path_hash_app pre h rest :
  len pre + 1 ≤ usize_max → next_path_hash (pre ++ h :: rest) (len pre) = Ok (h, len pre + 1).
Proof.
  intros Hle. unfold next_path_hash, usize_checked_add, len.
  rewrite Nat2N.id, list_lookup_middle by done. unfold len in Hle.
  by rewrite (proj2 (N.leb_le _ _)).
Qed.

(** The path of a leaf, from the bottom. *)
Definition inc_path (l : list Digest) (i : nat) : list Digest :=
  match append_inclusion_path l i [] with Ok p => p | Err _ => [] end.

Lemma append_inclusion_path_Ok l i p :
  (i < length l)%nat → append_inclusion_path l i p = Ok (p ++ inc_path l i).
Proof.
  intros Hi. unfold inc_path.
  enough (∃ q, ∀ p, append_inclusion_path l i p = Ok (p ++ q)) as [q Hq] by (by rewrite !Hq).
  revert i Hi. clear p. induction l as [|x|l Hl IH1 IH2] using split_ind; intros i Hi; [simpl in Hi; lia|..].
  { exists []. intros p. simpl in Hi. assert (i = 0%nat) as -> by lia. by rewrite app_nil_r. }
  pose proof (split_bounds _ Hl). set (k := split_at (length l)) in *.
  destruct (Nat.ltb_spec i k) as [Hik|Hik].
  - destruct (IH1 i) as [q Hq]; [rewrite length_take; lia|]. exists (q ++ [root (drop k l)]). intros p.
    rewrite append_inclusion_path_split by done. cbv zeta. fold k. rewrite (proj2 (Nat.ltb_lt _ _)) by done.
    rewrite Hq. simpl. by rewrite app_assoc.
  - destruct (IH2 (i - k)%nat) as [q Hq]; [rewrite length_drop; lia|].
    exists (q ++ [root (take k l)]). intros p.
    rewrite append_inclusion_path_split by done. cbv zeta. fold k. rewrite (proj2 (Nat.ltb_ge _ _)) by done.
    rewrite Hq. simpl. by rewrite app_assoc.
Qed.

Lemma inc_path_split l i :
  (2 ≤ length l)%nat → (i < length l)%nat →
  inc_path l i =
    let k := split_at (length l) in
    if (i <? k)%nat then inc_path (take k l) i ++ [root (drop k l)]
    else inc_path (drop k l) (i - k) ++ [root (take k l)].
Proof.
  intros Hl Hi. pose proof (split_bounds _ Hl). cbv zeta. unfold inc_path at 1.
  rewrite append_inclusion_path_split by done. cbv zeta. set (k := split_at (length l)) in *.
  destruct (Nat.ltb_spec i k); rewrite append_inclusion_path_Ok; try done;
    rewrite ?length_take, ?length_drop; lia.
Qed.

(** The path of a leaf leads to the root. *)
Lemma root_from_inclusion_complete l i h pre rest :
  sized l → l !! i = Some h → len pre + len (inc_path l i) ≤ usize_max →
  root_from_inclusion h (N.of_nat i) (len l) (pre ++ inc_path l i ++ rest) (len pre) =
    Ok (root l, len pre + len (inc_path l i)).
Proof.
  revert i rest. induction l as [|x|l Hl IH1 IH2] using split_ind; intros i rest Hs Hi Hlen; [done|..].
  { pose proof (lookup_lt_Some _ _ _ Hi) as Hlt. simpl in Hlt. assert (i = 0%nat) as -> by lia.
    simpl in Hi. simplify_eq. change (inc_path [h] 0) with (@nil Digest).
    change (len (@nil Digest)) with 0. by rewrite N.add_0_r. }
  pose proof (lookup_lt_Some _ _ _ Hi). pose proof (split_bounds _ Hl). pose proof (len_gt1 l Hl).
  rewrite inc_path_split in * by done. cbv zeta in *.
  rewrite root_from_inclusion_split by (done || (unfold len; lia)). cbv zeta.
  rewrite <-len_drop_split, <-len_take_split by done. rewrite (root_split l) by done.
  set (k := split_at (length l)) in *.
  assert (Hk : len (take k l) = N.of_nat k) by (unfold len; rewrite length_take; lia).
  rewrite Hk. destruct (Nat.ltb_spec i k) as [Hik|Hik].
  - rewrite (proj2 (N.ltb_lt _ _)) by lia. rewrite <-Hk, <-app_assoc. unfold len in Hlen.
    rewrite length_app in Hlen. simpl in Hlen. rewrite IH1; [|by apply sized_take|by rewrite lookup_take, decide_True|unfold len; lia].
    set (q := inc_path (take k l) i) in *. cbn. rewrite (app_assoc pre q).
    assert (Hq : len pre + len q = len (pre ++ q)) by (unfold len; rewrite length_app; lia).
    rewrite Hq, next_path_hash_app by (unfold len; rewrite length_app; lia). cbn.
    do 2 f_equal. unfold len. rewrite !length_app. simpl. lia.
  - rewrite (proj2 (N.ltb_ge _ _)) by lia. rewrite <-app_assoc. unfold len in Hlen.
    rewrite length_app in Hlen. simpl in Hlen. replace (N.of_nat i - N.of_nat k) with (N.of_nat (i - k)) by lia.
    rewrite IH2; [|by apply sized_drop|rewrite lookup_drop; rewrite <-Hi; f_equal; lia|unfold len; lia].
    set (q := inc_path (drop k l) (i - k)) in *. cbn. rewrite (app_assoc pre q).
    assert (Hq : len pre + len q = len (pre ++ q)) by (unfold len; rewrite length_app; lia).
    rewrite Hq, next_path_hash_app by (unfold len; rewrite length_app; lia). cbn.
    do 2 f_equal. unfold len. rewrite !length_app. simpl. lia.
Qed.

(** *** Lengths of paths *)

Lemma inc_path_singleton x i : (i < length [x])%nat → i = 0%nat ∧ inc_path [x] i = [].
Proof. simpl. intros Hi. assert (i = 0%nat) as -> by lia. done. Qed.

Lemma len_snoc {A} (l : list A) x : len (l ++ [x]) = len l + 1.
Proof. unfold len. rewrite length_app. simpl. lia. Qed.

Lemma inc_path_length l i f :
  sized l → (i < length l)%nat → len l ≤ 2 ^ N.of_nat f → len (inc_path l i) ≤ N.of_nat f.
Proof.
  revert i f. induction l as [|x|l Hl IH1 IH2] using split_ind; intros i f Hs Hi Hf; [simpl in Hi; lia|..].
  { apply inc_path_singleton in Hi as [-> ->]. unfold len. simpl. lia. }
  pose proof (split_bounds _ Hl). pose proof (len_gt1 l Hl). destruct f as [|f].
  { apply small_size in Hf. lia. }
  destruct (halves (len l) f) as [Ha Hb]; [done..|].
  rewrite inc_path_split by done. cbv zeta.
  rewrite <-len_drop_split in Hb by done. rewrite <-len_take_split in Ha by done.
  destruct (Nat.ltb_spec i (split_at (length l))); rewrite len_snoc.
  - assert (len (inc_path (take (split_at (length l)) l) i) ≤ N.of_nat f); [|lia].
    apply IH1; [by apply sized_take|rewrite length_take; lia|done].
  - assert (len (inc_path (drop (split_at (length l)) l) (i - split_at (length l))) ≤ N.of_nat f); [|lia].
    apply IH2; [by apply sized_drop|rewrite length_drop; lia|done].
Qed.

Lemma inclusion_path_loop_spec l i f acc :
  sized l → (i < length l)%nat → len l ≤ 2 ^ N.of_nat f → acc + len (inc_path l i) ≤ usize_max →
  inclusion_path_loop f (N.of_nat i) (len l) acc = Ok (0, acc + len (inc_path l i)).
Proof.
  revert i f acc. induction l as [|x|l Hl IH1 IH2] using split_ind;
    intros i f acc Hs Hi Hf Hacc; [simpl in Hi; lia|..].
  { apply inc_path_singleton in Hi as [-> ->]. rewrite N.add_0_r. by destruct f. }
  pose proof (split_bounds _ Hl). pose proof (len_gt1 l Hl). destruct f as [|f].
  { apply small_size in Hf. lia. }
  destruct (halves (len l) f) as [Ha Hb]; [done..|].
  rewrite inc_path_split in * by done. cbv zeta in *.
  rewrite <-len_drop_split in Hb by done. rewrite <-len_take_split in Ha by done.
  cbn [inclusion_path_loop]. rewrite (proj2 (N.ltb_lt _ _)) by done. unfold usize_checked_add.
  rewrite power_len. 
  set (k := split_at (length l)) in *. destruct (Nat.ltb_spec i k) as [Hik|Hik]; rewrite len_snoc in *.
  - rewrite (proj2 (N.leb_gt _ _)), (proj2 (N.leb_le _ _)) by lia. cbn.
    assert (Hk : N.of_nat k = len (take k l)) by (unfold len; rewrite length_take; lia).
    rewrite Hk, IH1; auto with merkle; [by rewrite <-N.add_assoc, (N.add_comm 1)|rewrite length_take; lia|lia].
  - rewrite !(proj2 (N.leb_le _ _)) by lia. cbn.
    assert (Hk : len l - N.of_nat k = len (drop k l)) by (unfold len; rewrite length_drop; lia).
    replace (N.of_nat i - N.of_nat k) with (N.of_nat (i - k)) by lia.
    rewrite Hk, IH2; auto with merkle; [by rewrite <-N.add_assoc, (N.add_comm 1)|rewrite length_drop; lia|lia].
Qed.

Lemma sized_pow64 {A} (l : list A) : sized l → len l ≤ 2 ^ N.of_nat 64.
Proof. unfold sized, usize_max. change (N.of_nat 64) with 64. lia. Qed.

Lemma inclusion_path_length_Ok l i :
  sized l → (i < length l)%nat →
  inclusion_path_length (N.of_nat i) (len l) = Ok (len (inc_path l i)) ∧
  len (inc_path l i) ≤ MAX_MERKLE_PROOF_HASHES.
Proof.
  intros Hs Hi.
  assert (Hle : len (inc_path l i) ≤ MAX_MERKLE_PROOF_HASHES).
  { apply (inc_path_length l i 64); auto using sized_pow64. }
  split; [|done]. unfold inclusion_path_length.
  rewrite inclusion_path_loop_spec; [|done..|apply size_pow|].
  2: { unfold MAX_MERKLE_PROOF_HASHES in Hle. unfold usize_max. lia. }
  cbn. by rewrite (proj2 (N.ltb_ge _ _)).
Qed.

(** A proof for every leaf can be made, and it verifies. *)
Lemma inclusion_proof_Ok l i h :
  sized l → l !! i = Some h →
  ∃ proof, inclusion_proof_new (N.of_nat i) (len l) (inc_path l i) = Ok proof ∧
    verify_leaf_hash proof h (root l) = Ok () ∧ leaf_index proof = N.of_nat i ∧
    tree_size proof = len l.
Proof.
  intros Hs Hi. pose proof (lookup_lt_Some _ _ _ Hi) as Hlt.
  destruct (inclusion_path_length_Ok l i Hs Hlt) as [Hlen Hle].
  exists (mkInclusionProof (N.of_nat i) (len l) (inc_path l i)). split; [|split; [|done]].
  - unfold inclusion_proof_new, bounded_vec. rewrite (proj2 (N.ltb_ge _ _)) by done. cbn.
    rewrite (proj2 (N.eqb_neq _ _)), (proj2 (N.leb_gt _ _)) by (unfold len; lia). cbn.
    rewrite Hlen. cbn. by rewrite N.eqb_refl.
  - unfold verify_leaf_hash. cbn [leaf_index tree_size audit_path].
    pose proof (root_from_inclusion_complete l i h [] [] Hs Hi) as Hr.
    rewrite app_nil_r, app_nil_l in Hr. change (len (@nil Digest)) with 0 in Hr.
    rewrite Hr by (unfold MAX_MERKLE_PROOF_HASHES, usize_max in *; lia). cbn.
    rewrite N.add_0_l, N.eqb_refl, bool_decide_eq_false_2; [done|]. by intros [].
Qed.

(** A proof that verifies against the root of a tree of its size is for the leaf at
    its index. *)
Lemma verify_leaf_hash_sound l proof h :
  sized l → tree_size proof = len l → verify_leaf_hash proof h (root l) = Ok () →
  l !! N.to_nat (leaf_index proof) = Some h ∨ collision.
Proof.
  intros Hs Hsize. unfold verify_leaf_hash. rewrite Hsize.
  destruct (root_from_inclusion _ _ _ _ _) as [[r j]|] eqn:Hr; [|done]. cbn.
  case_bool_decide as Hroot; [by rewrite orb_true_r|].
  assert (r = root l) as -> by (by destruct (decide (r = root l)); [|destruct Hroot]).
  intros _. apply root_from_inclusion_sound in Hr; [done..|].
  destruct (N.lt_ge_cases (leaf_index proof) (len l)) as [|Hge]; [done|].
  exfalso. revert Hr. unfold root_from_inclusion.
  destruct (N.size_nat (len l)); simpl; by rewrite (proj2 (N.leb_le _ _)), orb_true_r.
Qed.

End Inclusion.
