(* ===== verification/MerkleConsistency.v ===== *)
(** * Consistency proofs of a log

    The verifier walks two cursors from the leaves to the root; the prover follows
    the splits of the tree from the root. A [route] is the list of turns that both
    take: the verifier is shown to fold the path along it, and the fold to relate
    the root of the old tree to the root of the new one. *)
From stdpp Require Import base tactics list gmap countable orders sorting strings.
From Stdlib Require Import ZArith Lia Strings.Byte.
From S2P Require Import Prelude Bytes IdTypes Merkle MerkleFacts.

Local Open Scope N_scope.

(** ** Shifting *)

Lemma land_1_odd x : (N.land x 1 =? 1) = N.odd x.
Proof. by destruct x as [|[]]. Qed.

Lemma land_1_even x : (N.land x 1 =? 0) = N.even x.
Proof. by destruct x as [|[]]. Qed.

Lemma odd_odd x : N.odd (2 * x + 1) = true.
Proof. apply N.odd_spec. by exists x. Qed.

Lemma odd_even x : N.odd (2 * x) = false.
Proof. rewrite <-N.negb_even, (proj2 (N.even_spec (2 * x))); [done|]. by exists x. Qed.

Lemma half_odd x : N.shiftr (2 * x + 1) 1 = x.
Proof. rewrite N.shiftr_div_pow2. symmetry. by apply (N.div_unique _ _ _ 1). Qed.

Lemma half_even x : N.shiftr (2 * x) 1 = x.
Proof. rewrite N.shiftr_div_pow2. symmetry. apply (N.div_unique _ _ _ 0); [done|]. change (2 ^ 1) with 2. lia. Qed.

Lemma pow_pos t : 0 < 2 ^ t.
Proof. apply N.neq_0_lt_0, N.pow_nonzero. lia. Qed.

#[export] Hint Resolve pow_pos : merkle.

Lemma pow_S t : 2 ^ (t + 1) = 2 * 2 ^ t.
Proof. rewrite N.add_1_r. apply N.pow_succ_r'. Qed.

Lemma pow_le_inv a b : 2 ^ a ≤ 2 ^ b → a ≤ b.
Proof. apply N.pow_le_mono_r_iff. lia. Qed.

Lemma pow_lt_inv a b : 2 ^ a < 2 ^ b → a < b.
Proof. apply N.pow_lt_mono_r_iff. lia. Qed.

Lemma div_pow_add x y t z : z ≤ t → (x + 2 ^ t * y) / 2 ^ z = x / 2 ^ z + 2 ^ (t - z) * y.
Proof.
  intros Hz. replace (2 ^ t) with (2 ^ z * 2 ^ (t - z)) by (rewrite <-N.pow_add_r; f_equal; lia).
  rewrite <-N.mul_assoc, (N.mul_comm (2 ^ z)), N.div_add; [done|]. pose proof (pow_pos z). lia.
Qed.

(** A number is an even number followed by ones. *)
Lemma trailing_ones x : ∃ z q, x = 2 ^ z * (2 * q) + (2 ^ z - 1).
Proof.
  induction x as [|x IH|x IH] using N.binary_ind.
  - exists 0, 0. done.
  - exists 0, x. change (2 ^ 0) with 1. lia.
  - destruct IH as (z & q & ->). exists (z + 1), q. rewrite pow_S.
    pose proof (pow_pos z). lia.
Qed.

(** A positive number is an odd number followed by zeros. *)
Lemma trailing_zeros x : 0 < x → ∃ z q, x = 2 ^ z * (2 * q + 1).
Proof.
  induction x as [|x IH|x IH] using N.binary_ind; intros Hx.
  - lia.
  - destruct IH as (z & q & ->); [lia|]. exists (z + 1), q. rewrite pow_S. lia.
  - exists 0, x. change (2 ^ 0) with 1. lia.
Qed.

Lemma shift_while_odd_spec fuel z q n :
  2 ^ z * (2 * q) + (2 ^ z - 1) < 2 ^ N.of_nat fuel →
  shift_while_odd fuel (2 ^ z * (2 * q) + (2 ^ z - 1)) n = (2 * q, n / 2 ^ z).
Proof.
  revert z n. induction fuel as [|fuel IH]; intros z n Hf.
  - change (2 ^ N.of_nat 0) with 1 in Hf. pose proof (pow_pos z).
    destruct (N.eq_dec z 0) as [->|Hz].
    + change (2 ^ 0) with 1 in *. rewrite N.div_1_r. simpl. f_equal. lia.
    + exfalso. assert (Hz' : 2 ^ 1 ≤ 2 ^ z) by (apply N.pow_le_mono_r; lia).
      change (2 ^ 1) with 2 in Hz'. lia.
  - cbn [shift_while_odd]. rewrite land_1_odd. destruct (N.eq_dec z 0) as [->|Hz].
    + change (2 ^ 0) with 1. rewrite N.div_1_r.
      replace (1 * (2 * q) + (1 - 1)) with (2 * q) by lia. by rewrite odd_even.
    + replace z with (N.succ (z - 1)) in * by lia. set (y := z - 1) in *. rewrite N.pow_succ_r' in *.
      pose proof (pow_pos y).
      replace (2 * 2 ^ y * (2 * q) + (2 * 2 ^ y - 1)) with (2 * (2 ^ y * (2 * q) + (2 ^ y - 1)) + 1) in * by lia.
      rewrite odd_odd, half_odd, IH.
      * f_equal. rewrite N.shiftr_div_pow2, N.div_div; [done|done|lia].
      * rewrite Nat2N.inj_succ, N.pow_succ_r' in Hf. lia.
Qed.

Lemma shift_while_even_spec fuel z q n :
  2 ^ z * (2 * q + 1) < 2 ^ N.of_nat fuel →
  shift_while_even fuel (2 ^ z * (2 * q + 1)) n = (2 * q + 1, n / 2 ^ z).
Proof.
  revert z n. induction fuel as [|fuel IH]; intros z n Hf; pose proof (pow_pos z).
  - change (2 ^ N.of_nat 0) with 1 in Hf. lia.
  - cbn [shift_while_even]. rewrite land_1_even, <-N.negb_odd.
    rewrite (proj2 (N.eqb_neq _ 0)) by lia. cbn [negb andb]. destruct (N.eq_dec z 0) as [->|Hz].
    + change (2 ^ 0) with 1. rewrite N.div_1_r, N.mul_1_l, odd_odd. done.
    + replace z with (N.succ (z - 1)) in * by lia. set (y := z - 1) in *. rewrite N.pow_succ_r' in *.
      rewrite <-N.mul_assoc in *. rewrite odd_even, half_even. cbn [negb]. rewrite IH.
      * f_equal. rewrite N.shiftr_div_pow2, N.div_div; [done|done|]. pose proof (pow_pos y). lia.
      * rewrite Nat2N.inj_succ, N.pow_succ_r' in Hf. lia.
Qed.

Lemma size_pow_lt n : n < 2 ^ N.of_nat (N.size_nat n).
Proof.
  destruct n as [|p]; [done|].
  assert (Hsz : N.of_nat (N.size_nat (N.pos p)) = N.size (N.pos p)).
  { simpl. induction p as [p IH|p IH|]; simpl; lia. }
  rewrite Hsz. apply N.size_gt.
Qed.

(** ** The cursors *)

Section Cursors.
  Context `{HB : Blake3Hash} `{HN : !WireFormat (Digest * Digest)}
    `{HNL : !WireLaws (Digest * Digest)}.

(** The sibling is to the left of both nodes. *)
Lemma loop_both z q n oh nh s p :
  n ≠ 0 → z = 0 ∨ 2 ^ z * (2 * q + 1) = n →
  consistency_loop (mkCursor (2 ^ z * (2 * q + 1)) n oh nh) (s :: p) =
    consistency_loop (mkCursor q (n / 2 ^ (z + 1)) (node s oh) (node s nh)) p.
Proof.
  intros Hn Hz. cbn [consistency_loop new_cursor old_cursor old_hash new_hash].
  rewrite (proj2 (N.eqb_neq n 0)) by done. rewrite land_1_odd.
  assert (Hcond : N.odd (2 ^ z * (2 * q + 1)) || (2 ^ z * (2 * q + 1) =? n) = true).
  { destruct Hz as [->|Hz]; [|by rewrite (proj2 (N.eqb_eq _ _) Hz), orb_true_r].
    change (2 ^ 0) with 1. by rewrite N.mul_1_l, odd_odd. }
  rewrite Hcond, !node_hash_Ok. cbn [mbind result_bind].
  rewrite shift_while_even_spec by apply size_pow_lt. cbn [mbind result_bind old_cursor new_cursor old_hash new_hash].
  rewrite half_odd, N.shiftr_div_pow2, N.div_div, pow_S, (N.mul_comm 2); [done|..|done].
  pose proof (pow_pos z). lia.
Qed.

(** The sibling is to the right of the new node. *)
Lemma loop_right i n oh nh s p :
  n ≠ 0 → 2 * i ≠ n →
  consistency_loop (mkCursor (2 * i) n oh nh) (s :: p) =
    consistency_loop (mkCursor i (n / 2) oh (node nh s)) p.
Proof.
  intros Hn Hi. cbn [consistency_loop new_cursor old_cursor old_hash new_hash].
  rewrite (proj2 (N.eqb_neq n 0)) by done. rewrite land_1_odd, odd_even.
  rewrite (proj2 (N.eqb_neq _ n)) by done. cbn [orb]. rewrite node_hash_Ok.
  cbn [mbind result_bind old_cursor new_cursor old_hash new_hash].
  by rewrite half_even, N.shiftr_div_pow2.
Qed.

(** The walk in a complete tree, done in a tree it is the left part of. *)
Lemma loop_left_part p t i J oh nh c :
  i < 2 ^ t → 2 ^ t ≤ J → J < 2 ^ (t + 1) →
  consistency_loop (mkCursor i (2 ^ t - 1) oh nh) p = Ok c → new_cursor c = 0 →
  consistency_loop (mkCursor i J oh nh) p = Ok (mkCursor 0 1 (old_hash c) (new_hash c)).
Proof.
  revert t i J oh nh. induction p as [|s p IH]; intros t i J oh nh Hi HJ HJ' Hc H0.
  - injection Hc as <-. cbn in *. destruct (N.eq_dec t 0) as [->|Ht].
    + change (2 ^ 0) with 1 in *. change (2 ^ (0 + 1)) with 2 in HJ'.
      assert (i = 0) as -> by lia. by assert (J = 1) as -> by lia.
    + exfalso. assert (Ht2 : 2 ^ 1 ≤ 2 ^ t) by (apply N.pow_le_mono_r; lia).
      change (2 ^ 1) with 2 in Ht2. lia.
  - destruct (N.eq_dec t 0) as [->|Ht]; [done|].
    replace t with (t - 1 + 1) in * by lia. set (y := t - 1) in *. rewrite !pow_S in *.
    pose proof (pow_pos y). pose proof (N.div_mod' J 2). assert (J mod 2 < 2) by (by apply N.mod_lt).
    assert (Hy : (2 * 2 ^ y - 1) / 2 = 2 ^ y - 1) by (symmetry; apply (N.div_unique _ _ _ 1); lia).
    destruct (N.Even_or_Odd i) as [[i' ->]|[i' ->]].
    + rewrite loop_right in Hc |- * by lia. rewrite Hy in Hc.
      apply (IH y); [lia|lia| |exact Hc|exact H0].
      rewrite pow_S. by apply N.Div0.div_lt_upper_bound.
    + replace (2 * i' + 1) with (2 ^ 0 * (2 * i' + 1)) in * by (change (2 ^ 0) with 1; lia).
      rewrite loop_both in Hc |- * by (lia || auto). change (2 ^ (0 + 1)) with 2 in *. change (2 ^ 0) with 1 in *.
      rewrite Hy in Hc. apply (IH y); [lia|lia| |exact Hc|exact H0].
      rewrite pow_S. by apply N.Div0.div_lt_upper_bound.
Qed.

Lemma loop_end i oh nh s p : consistency_loop (mkCursor i 0 oh nh) (s :: p) = Err InvalidProof.
Proof. done. Qed.

Lemma div_add_pow x t z : z ≤ t → (x + 2 ^ t) / 2 ^ z = x / 2 ^ z + 2 ^ (t - z).
Proof. intros Hz. pose proof (div_pow_add x 1 t z Hz) as H. by rewrite !N.mul_1_r in H. Qed.

Lemma div_lt_pow x t z : z ≤ t → x < 2 ^ t → x / 2 ^ z < 2 ^ (t - z).
Proof.
  intros Hz Hx. apply N.Div0.div_lt_upper_bound. rewrite <-N.pow_add_r.
  by replace (z + (t - z)) with t by lia.
Qed.

Lemma div_odd_part z q : 2 ^ z * (2 * q + 1) / 2 ^ (z + 1) = q.
Proof. symmetry. pose proof (pow_pos z). apply (N.div_unique _ _ _ (2 ^ z)); rewrite pow_S; lia. Qed.

(** The walk in a tree, done in a tree it is the right part of. *)
Lemma loop_right_part p t i j oh nh c :
  i ≤ j → j < 2 ^ t →
  consistency_loop (mkCursor i j oh nh) p = Ok c → new_cursor c = 0 →
  ∃ t', consistency_loop (mkCursor (i + 2 ^ t) (j + 2 ^ t) oh nh) p =
    Ok (mkCursor (2 ^ t') (2 ^ t') (old_hash c) (new_hash c)).
Proof.
  revert t i j oh nh. induction p as [|s p IH]; intros t i j oh nh Hij Hj Hc H0.
  { injection Hc as <-. cbn in *. exists t. assert (i = 0) as -> by lia. by subst j. }
  destruct (N.eq_dec j 0) as [->|Hj0]; [by rewrite loop_end in Hc|]. pose proof (pow_pos t).
  assert (Hcases : (∃ i', i = 2 * i' ∧ i ≠ j) ∨ (∃ z q, i = 2 ^ z * (2 * q + 1) ∧ (z = 0 ∨ i = j))).
  { destruct (N.Even_or_Odd i) as [[i' ->]|[q ->]].
    - destruct (N.eq_dec (2 * i') j) as [He|]; [|by eauto]. right.
      destruct (trailing_zeros (2 * i')) as (z & q & Hz); [lia|]. exists z, q. auto.
    - right. exists 0, q. split; [change (2 ^ 0) with 1; lia|by left]. }
  destruct Hcases as [(i' & -> & Hne)|(z & q & -> & Hz)].
  - assert (Ht : t ≠ 0) by (intros ->; change (2 ^ 0) with 1 in Hj; lia).
    rewrite loop_right in Hc by lia.
    assert (Hp : 2 ^ t = 2 * 2 ^ (t - 1)) by (rewrite <-pow_S; f_equal; lia).
    replace (2 * i' + 2 ^ t) with (2 * (i' + 2 ^ (t - 1))) by lia.
    rewrite loop_right by lia. pose proof (div_add_pow j t 1) as Hd. change (2 ^ 1) with 2 in Hd.
    rewrite Hd by lia. apply IH; [..|exact Hc|exact H0].
    + apply N.div_le_lower_bound; lia.
    + pose proof (div_lt_pow j t 1) as Hlt. change (2 ^ 1) with 2 in Hlt. apply Hlt; [lia|done].
  - pose proof (pow_pos z). assert (Hzt : z + 1 ≤ t).
    { assert (Hlt : 2 ^ z < 2 ^ t) by lia. apply N.pow_lt_mono_r_iff in Hlt; lia. }
    assert (Hp : 2 ^ t = 2 ^ z * (2 * 2 ^ (t - (z + 1)))).
    { rewrite N.mul_assoc, (N.mul_comm _ 2), <-pow_S, <-N.pow_add_r. f_equal. lia. }
    rewrite loop_both in Hc by (lia || (destruct Hz; auto)).
    replace (2 ^ z * (2 * q + 1) + 2 ^ t) with (2 ^ z * (2 * (q + 2 ^ (t - (z + 1))) + 1)) by lia.
    rewrite loop_both by (lia || (destruct Hz as [|Hz]; [by left|right; rewrite <-Hz; lia])).
    rewrite div_add_pow by done. apply IH; [..|exact Hc|exact H0].
    + rewrite <-(div_odd_part z q) at 1. by apply N.Div0.div_le_mono.
    + by apply div_lt_pow.
Qed.

End Cursors.

(** ** Routes *)

(** The turns from the subtree where the old tree ends to the root, from the
    bottom: whether the subtree is the right part. *)
Inductive route : N → N → list bool → Prop :=
| route_done t : t < 64 → route (2 ^ t) (2 ^ t) []
| route_left m n ds :
    m < n → m ≤ largest_power_of_two_less_than n →
    route m (largest_power_of_two_less_than n) ds → route m n (ds ++ [false])
| route_right m n ds :
    largest_power_of_two_less_than n < m → m < n →
    route (m - largest_power_of_two_less_than n) (n - largest_power_of_two_less_than n) ds →
    route m n (ds ++ [true]).

Lemma route_exists m n : 0 < m → m < n → n ≤ usize_max → ∃ ds, route m n ds.
Proof.
  revert m. induction n as [n IH] using (well_founded_induction N.lt_wf_0). intros m Hm Hmn Hmax.
  destruct (power_spec n) as (t & Hp & Hlo & Hhi & Ht); [lia|done|]. pose proof (pow_pos t).
  destruct (N.lt_trichotomy m (2 ^ t)) as [Hlt|[->|Hgt]].
  - destruct (IH (2 ^ t) Hlo m) as [ds Hds]; [lia..|]. exists (ds ++ [false]).
    apply route_left; rewrite ?Hp; lia || done.
  - exists ([] ++ [false]). apply route_left; rewrite ?Hp; [lia..|by apply route_done].
  - destruct (IH (n - 2 ^ t) ltac:(lia) (m - 2 ^ t)) as [ds Hds]; [lia..|]. exists (ds ++ [true]).
    apply route_right; rewrite ?Hp; lia || done.
Qed.

Lemma route_bounds m n ds : route m n ds → 0 < m ∧ m ≤ n.
Proof.
  induction 1 as [t Ht|m n ds ?? _ IH|m n ds ?? _ IH]; [pose proof (pow_pos t); lia|lia..].
Qed.

(** The old size is a power of two exactly if there is no right turn. *)
Lemma route_pow m n ds :
  route m n ds → n ≤ usize_max → existsb Datatypes.id ds = false ↔ ∃ t, m = 2 ^ t.
Proof.
  induction 1 as [t Ht|m n ds Hmn Hle Hr IH|m n ds Hlt Hmn Hr IH]; intros Hmax.
  - split; [by exists t|done].
  - rewrite existsb_app, orb_false_iff, IH by (pose proof (power_bounds n); pose proof (route_bounds _ _ _ Hr); lia).
    naive_solver.
  - rewrite existsb_app. simpl. split; [by rewrite orb_true_r|]. intros [u ->].
    destruct (power_spec n) as (t & Hp & Hlo & Hhi & Ht); [pose proof (pow_pos u); lia|done|].
    rewrite Hp in Hlt. assert (2 ^ u < 2 ^ (t + 1)) as H2 by lia.
    apply N.pow_lt_mono_r_iff in Hlt, H2; lia.
Qed.

Lemma route_length m n ds f : route m n ds → n ≤ usize_max → n ≤ 2 ^ N.of_nat f → len ds ≤ N.of_nat f.
Proof.
  intros Hr. revert f. induction Hr as [t Ht|m n ds Hmn Hle Hr IH|m n ds Hlt Hmn Hr IH]; intros f Hmax Hf.
  - unfold len. simpl. lia.
  - pose proof (route_bounds _ _ _ Hr). destruct f as [|f]; [apply small_size in Hf; lia|].
    destruct (halves n f) as [Ha _]; [lia|done..|]. rewrite len_snoc.
    assert (len ds ≤ N.of_nat f); [|lia]. apply IH; [|done]. pose proof (power_bounds n). lia.
  - pose proof (route_bounds _ _ _ Hr). destruct f as [|f]; [apply small_size in Hf; lia|].
    destruct (halves n f) as [_ Hb]; [lia|done..|]. rewrite len_snoc.
    assert (len ds ≤ N.of_nat f); [|lia]. apply IH; [|done]. lia.
Qed.

Section Routes.
  Context `{HB : Blake3Hash} `{HN : !WireFormat (Digest * Digest)}
    `{HNL : !WireLaws (Digest * Digest)}.

(** The hashes of the old and of the new tree, along a route. *)
Definition turn (hashes : Digest * Digest) (ds : bool * Digest) : Digest * Digest :=
  let '(o, w) := hashes in
  let '(d, s) := ds in
  if (d : bool) then (node s o, node s w) else (o, node w s).

Definition along (ds : list bool) (path : list Digest) (seed : Digest) : Digest * Digest :=
  foldl turn (seed, seed) (zip ds path).

Lemma along_snoc ds path d s seed :
  length path = length ds → along (ds ++ [d]) (path ++ [s]) seed = turn (along ds path seed) (d, s).
Proof. intros Hlen. unfold along. by rewrite zip_with_app, foldl_app by done. Qed.

Lemma split_last {A} (l : list A) n : length l = S n → ∃ l' x, l = l' ++ [x] ∧ length l' = n.
Proof.
  intros Hl. destruct l as [|x l' _] using rev_ind; [done|]. rewrite length_app in Hl. simpl in Hl.
  exists l', x. split; [done|lia].
Qed.

(** Appending a sibling appends a step. *)
Lemma consistency_loop_app c p q :
  consistency_loop c (p ++ q) = (c ← consistency_loop c p; consistency_loop c q).
Proof.
  revert c. induction p as [|s p IH]; intros c; [done|].
  cbn [app consistency_loop]. destruct (new_cursor c =? 0); [done|].
  unfold mbind, result_bind. destruct (if _ || _ then _ else _) as [c'|e]; [|done]. apply IH.
Qed.

Lemma odd_part_unique z q z' q' : 2 ^ z * (2 * q + 1) = 2 ^ z' * (2 * q' + 1) → z = z' ∧ q = q'.
Proof.
  assert (Hlt : ∀ z q z' q', z < z' → 2 ^ z * (2 * q + 1) ≠ 2 ^ z' * (2 * q' + 1)).
  { clear. intros z q z' q' Hz Heq. replace z' with (z + (z' - z - 1 + 1)) in Heq by lia.
    rewrite N.pow_add_r, <-N.mul_assoc in Heq. pose proof (pow_pos z).
    apply N.mul_cancel_l in Heq; [|lia]. rewrite pow_S in Heq. lia. }
  intros Heq. destruct (N.lt_trichotomy z z') as [?|[->|?]]; [by edestruct Hlt| |by edestruct Hlt].
  pose proof (pow_pos z'). apply N.mul_cancel_l in Heq; lia.
Qed.

Lemma pow_odd_part t z q : 2 ^ t = 2 ^ z * (2 * q + 1) → z = t ∧ q = 0.
Proof. intros Heq. destruct (odd_part_unique z q t 0); lia. Qed.

Lemma div_ones t z : z ≤ t → (2 ^ t - 1) / 2 ^ z = 2 ^ (t - z) - 1.
Proof.
  intros Hz. symmetry. pose proof (pow_pos z). pose proof (pow_pos (t - z)).
  assert (2 ^ t = 2 ^ z * 2 ^ (t - z)) by (rewrite <-N.pow_add_r; f_equal; lia).
  apply (N.div_unique _ _ _ (2 ^ z - 1)); [lia|]. rewrite N.mul_sub_distr_l. nia.
Qed.

Lemma div_trailing z q : (2 ^ z * (2 * q) + (2 ^ z - 1)) / 2 ^ z = 2 * q.
Proof. symmetry. pose proof (pow_pos z). apply (N.div_unique _ _ _ (2 ^ z - 1)); lia. Qed.

(** The last step from the left part, and from the right part. *)
Lemma last_left oh nh s :
  consistency_loop (mkCursor 0 1 oh nh) [s] = Ok (mkCursor 0 0 oh (node nh s)).
Proof. change 0 with (2 * 0) at 1. by rewrite loop_right. Qed.

Lemma last_right t oh nh s :
  consistency_loop (mkCursor (2 ^ t) (2 ^ t) oh nh) [s] = Ok (mkCursor 0 0 (node s oh) (node s nh)).
Proof.
  pose proof (pow_pos t). replace (2 ^ t) with (2 ^ t * (2 * 0 + 1)) at 1 by lia.
  rewrite loop_both by lia. rewrite N.div_small; [done|]. rewrite pow_S. lia.
Qed.

(** The verifier folds the path along the route. *)
Lemma loop_along m n ds :
  route m n ds → n ≤ usize_max → ∀ z q, m - 1 = 2 ^ z * (2 * q) + (2 ^ z - 1) →
  ∀ path seed, length path = length ds →
  ∃ i, consistency_loop (mkCursor (2 * q) ((n - 1) / 2 ^ z) seed seed) path =
    Ok (mkCursor i 0 (along ds path seed).1 (along ds path seed).2).
Proof.
  induction 1 as [t Ht|m n ds Hmn Hle Hr IH|m n ds Hlt Hmn Hr IH]; intros Hmax z q Hm path seed Hlen.
  - destruct path; [|done]. pose proof (pow_pos t). pose proof (pow_pos z).
    destruct (pow_odd_part t z q) as [-> ->]; [lia|].
    exists 0. rewrite N.div_small by lia. done.
  - rewrite length_app, Nat.add_1_r in Hlen. apply split_last in Hlen as (p & s & -> & Hlen).
    pose proof (route_bounds _ _ _ Hr). rewrite along_snoc by done.
    destruct (power_spec n) as (t & Hp & Hlo & Hhi & Ht); [lia|done|]. rewrite Hp in *.
    destruct (IH ltac:(lia) z q Hm p seed Hlen) as [i Hi].
    assert (Hzt : z ≤ t) by (pose proof (pow_pos z); apply pow_le_inv; lia).
    rewrite div_ones in Hi by done. apply (loop_left_part _ _ _ ((n - 1) / 2 ^ z)) in Hi; [..|done].
    + exists 0. rewrite consistency_loop_app, Hi. cbn [mbind result_bind old_hash new_hash].
      rewrite last_left. by destruct (along ds p seed).
    + rewrite <-(div_trailing z q), <-Hm. apply div_lt_pow; lia.
    + replace (n - 1) with (n - 1 - 2 ^ t + 2 ^ t) by lia. rewrite div_add_pow by done. apply N.le_add_l.
    + replace (t - z + 1) with (t + 1 - z) by lia. apply div_lt_pow; lia.
  - rewrite length_app, Nat.add_1_r in Hlen. apply split_last in Hlen as (p & s & -> & Hlen).
    pose proof (route_bounds _ _ _ Hr). rewrite along_snoc by done.
    destruct (power_spec n) as (t & Hp & Hlo & Hhi & Ht); [lia|done|]. rewrite Hp in *. rewrite pow_S in Hhi.
    destruct (trailing_ones (m - 2 ^ t - 1)) as (z' & q' & Hm').
    pose proof (pow_pos z'). pose proof (pow_pos t). assert (Hzt : z' < t) by (apply pow_lt_inv; nia).
    assert (Hpt : 2 ^ t = 2 ^ z' * (2 * 2 ^ (t - z' - 1))).
    { rewrite N.mul_assoc, (N.mul_comm _ 2), <-pow_S, <-N.pow_add_r. f_equal. lia. }
    destruct (IH ltac:(lia) z' q' Hm' p seed Hlen) as [i Hi].
    assert (Hzq : z = z' ∧ q = q' + 2 ^ (t - z' - 1)).
    { apply odd_part_unique. pose proof (pow_pos z). nia. }
    destruct Hzq as [-> ->].
    apply (loop_right_part _ (t - z')) in Hi as [t' Hi]; [..|done].
    + exists 0. replace (n - 1) with (n - 2 ^ t - 1 + 2 ^ t) by lia. rewrite div_add_pow by lia.
      replace (2 * (q' + 2 ^ (t - z' - 1))) with (2 * q' + 2 ^ (t - z'))
        by (replace (t - z') with (t - z' - 1 + 1) at 1 by lia; rewrite pow_S; lia).
      rewrite consistency_loop_app, Hi. cbn [mbind result_bind old_hash new_hash].
      rewrite last_right. by destruct (along ds p seed).
    + rewrite <-(div_trailing z' q'), <-Hm'. apply N.Div0.div_le_mono. lia.
    + apply div_lt_pow; lia.
Qed.

(** *** Lengths *)

Lemma consistency_path_length_route m n ds f b :
  route m n ds → n ≤ usize_max → n ≤ 2 ^ N.of_nat f → len ds < MAX_MERKLE_PROOF_HASHES →
  consistency_path_length_go f m n b = Ok (len ds + if b && negb (existsb Datatypes.id ds) then 0 else 1).
Proof.
  intros Hr. revert f b. induction Hr as [t Ht|m n ds Hmn Hle Hr IH|m n ds Hlt Hmn Hr IH];
    intros f b Hmax Hf Hlen.
  { pose proof (pow_pos t). destruct f; cbn [consistency_path_length_go];
      rewrite (proj2 (N.eqb_neq _ 0)), N.ltb_irrefl, N.eqb_refl by lia; by destruct b. }
  all: pose proof (route_bounds _ _ _ Hr); destruct f as [|f]; [apply small_size in Hf; lia|].
  all: destruct (halves n f) as [Ha Hb]; [lia|done..|]; rewrite len_snoc in *.
  all: cbn [consistency_path_length_go].
  all: rewrite !(proj2 (N.eqb_neq _ _)), (proj2 (N.ltb_ge _ _)) by lia; cbn [orb].
  all: unfold MAX_MERKLE_PROOF_HASHES, usize_checked_add in *.
  - rewrite (proj2 (N.leb_le _ _)) by done. rewrite IH by (pose proof (power_bounds n); lia).
    rewrite existsb_app. cbn [existsb Datatypes.id orb]. rewrite orb_false_r. cbn [mbind result_bind].
    set (x := if b && _ then 0 else 1). assert (x ≤ 1) by (subst x; destruct (b && _); lia).
    rewrite (proj2 (N.leb_le _ _)) by (unfold usize_max; lia). cbn [mbind result_bind].
    rewrite (proj2 (N.ltb_ge _ _)) by lia. f_equal. lia.
  - rewrite (proj2 (N.leb_gt _ _)) by done. rewrite IH by lia.
    rewrite existsb_app. cbn [existsb Datatypes.id orb]. rewrite orb_true_r, andb_false_r. cbn [mbind result_bind andb].
    rewrite (proj2 (N.leb_le _ _)) by (unfold usize_max; lia). cbn [mbind result_bind].
    rewrite (proj2 (N.ltb_ge _ _)) by lia. done.
Qed.

(** *** Roots *)

Lemma root_take_split (l : list Digest) (m k : nat) :
  (m ≤ length l)%nat → (2 ≤ m)%nat → split_at m = k →
  root (take m l) = node (root (take k l)) (root (take (m - k) (drop k l))).
Proof.
  intros Hm H2 Hk. pose proof (split_bounds m H2).
  assert (Hlen : length (take m l) = m) by (rewrite length_take; lia).
  rewrite root_split by lia. rewrite Hlen, Hk, take_take, Nat.min_l by lia.
  rewrite take_drop_commute. by replace (k + (m - k))%nat with m by lia.
Qed.

Lemma split_at_pow m t : t < 64 → 2 ^ t < m → m ≤ 2 ^ (t + 1) → split_at (N.to_nat m) = N.to_nat (2 ^ t).
Proof. intros ???. unfold split_at. by rewrite N2Nat.id, (power_unique m t). Qed.

(** If the new hash along a route is the root of a tree, the old hash is the root
    of the old tree. *)
Lemma along_sound m n ds :
  route m n ds → ∀ l path seed, sized l → len l = n → length path = length ds →
  (along ds path seed).2 = root l →
  (along ds path seed).1 = root (take (N.to_nat m) l) ∨ collision.
Proof.
  induction 1 as [t Ht|m n ds Hmn Hle Hr IH|m n ds Hlt Hmn Hr IH]; intros l path seed Hs Hl Hlen.
  { destruct path; [|done]. cbn. intros ->. left. rewrite take_ge; [done|]. unfold len in Hl. lia. }
  all: rewrite length_app, Nat.add_1_r in Hlen; apply split_last in Hlen as (p & s & -> & Hlen).
  all: rewrite along_snoc by done; destruct (along ds p seed) as [o w] eqn:Ha; cbn.
  all: pose proof (route_bounds _ _ _ Hr).
  all: assert (H2 : (2 ≤ length l)%nat) by (unfold len in Hl; lia); pose proof (split_bounds _ H2).
  all: rewrite (root_split l) by done; set (k := split_at (length l)) in *.
  all: assert (Hk : N.of_nat k = largest_power_of_two_less_than n) by (subst k n; by rewrite <-power_len).
  all: intros [[Hs1 Hs2]|]%node_inj; [|by right].
  - destruct (IH (take k l) p seed) as [Ho|]; [by apply sized_take| |done|by rewrite Ha| |by right].
    + unfold len. rewrite length_take. lia.
    + left. rewrite Ha in Ho. cbn in Ho. rewrite Ho, take_take, Nat.min_l by lia. done.
  - destruct (IH (drop k l) p seed) as [Ho|]; [by apply sized_drop| |done|by rewrite Ha| |by right].
    + unfold len in *. rewrite length_drop. lia.
    + left. rewrite Ha in Ho. cbn in Ho. rewrite Ho, Hs1.
      destruct (power_spec n) as (t & Hp & Hlo & Hhi & Ht); [lia|by rewrite <-Hl|].
      rewrite (root_take_split l (N.to_nat m) k); [do 3 f_equal; lia|unfold len in Hl; lia|lia|].
      rewrite (split_at_pow m t); lia.
Qed.

(** The prover's path: the hash of the subtree where the old tree ends, unless it
    is the old tree, and the siblings along the route. *)
Lemma append_consistency_route m n ds :
  route m n ds → ∀ l f, sized l → len l = n → (length l ≤ f)%nat →
  ∃ seed q, length q = length ds ∧
    (∀ b p, append_consistency_path_go f (N.to_nat m) l b p =
       Ok (p ++ (if b && negb (existsb Datatypes.id ds) then [] else [seed]) ++ q)) ∧
    along ds q seed = (root (take (N.to_nat m) l), root l) ∧
    (existsb Datatypes.id ds = false → seed = root (take (N.to_nat m) l)).
Proof.
  induction 1 as [t Ht|m n ds Hmn Hle Hr IH|m n ds Hlt Hmn Hr IH]; intros l f Hs Hl Hf.
  { pose proof (pow_pos t). exists (root l), []. unfold len in Hl.
    rewrite take_ge by lia. split; [done|]. split; [|done]. intros b p.
    destruct f; cbn [append_consistency_path_go];
      rewrite (proj2 (Nat.eqb_neq _ 0)), (proj2 (Nat.ltb_ge _ _)), bool_decide_eq_false_2
        by (lia || (intros ->; simpl in Hl; lia)); cbn [orb];
      rewrite (proj2 (Nat.eqb_eq _ _)) by lia; destruct b; cbn [andb negb existsb];
      rewrite ?app_nil_r, ?tree_hash_Ok; done. }
  all: pose proof (route_bounds _ _ _ Hr).
  all: assert (H2 : (2 ≤ length l)%nat) by (unfold len in Hl; lia); pose proof (split_bounds _ H2).
  all: destruct f as [|f]; [lia|]; set (k := split_at (length l)) in *.
  all: assert (Hk : N.of_nat k = largest_power_of_two_less_than n) by (subst k n; by rewrite <-power_len).
  all: unfold len in Hl.
  - destruct (IH (take k l) f) as (seed & q & Hlen & Happ & Hal & Hseed);
      [by apply sized_take|unfold len; rewrite length_take; lia|rewrite length_take; lia|].
    rewrite take_take, Nat.min_l in Hal, Hseed by lia.
    exists seed, (q ++ [root (drop k l)]). rewrite !length_app, Hlen. split; [done|]. split; [|split].
    + intros b p. cbn [append_consistency_path_go].
      rewrite (proj2 (Nat.eqb_neq _ 0)), (proj2 (Nat.ltb_ge _ _)), bool_decide_eq_false_2
        by (lia || (intros ->; simpl in Hl; lia)). cbn [orb].
      rewrite (proj2 (Nat.eqb_neq _ _)) by lia. fold k. rewrite (proj2 (Nat.leb_le _ _)) by lia.
      rewrite Happ, tree_hash_Ok. cbn [mbind result_bind]. rewrite existsb_app. cbn. by rewrite orb_false_r, <-!app_assoc.
    + rewrite along_snoc, Hal by done. cbn. by rewrite (root_split l).
    + rewrite existsb_app, orb_false_iff. intros [? _]. auto.
  - destruct (IH (drop k l) f) as (seed & q & Hlen & Happ & Hal & Hseed);
      [by apply sized_drop|unfold len; rewrite length_drop; lia|rewrite length_drop; lia|].
    exists seed, (q ++ [root (take k l)]). rewrite !length_app, Hlen. split; [done|]. split; [|split].
    + intros b p. cbn [append_consistency_path_go].
      rewrite (proj2 (Nat.eqb_neq _ 0)), (proj2 (Nat.ltb_ge _ _)), bool_decide_eq_false_2
        by (lia || (intros ->; simpl in Hl; lia)). cbn [orb].
      rewrite (proj2 (Nat.eqb_neq _ _)) by lia. fold k. rewrite (proj2 (Nat.leb_gt _ _)) by lia.
      replace (N.to_nat m - k)%nat with (N.to_nat (m - largest_power_of_two_less_than n)) by lia.
      rewrite Happ, tree_hash_Ok. cbn [mbind result_bind]. rewrite existsb_app. cbn.
      by rewrite orb_true_r, andb_false_r, <-!app_assoc.
    + rewrite along_snoc, Hal by done. cbn. rewrite (root_split l) by done. fold k.
      destruct (power_spec n) as (t & Hp & Hlo & Hhi & Ht); [lia|unfold sized, len in Hs; lia|].
      rewrite (root_take_split l (N.to_nat m) k); [do 4 f_equal; lia|lia|lia|].
      rewrite (split_at_pow m t); lia.
    + rewrite existsb_app. cbn. by rewrite orb_true_r.
Qed.

(** ** Proofs *)

(** The path of a proof, cut into its seed and the siblings. *)
Definition seed_of (ds : list bool) (old_root : Digest) (path : list Digest) : option (Digest * list Digest) :=
  if existsb Datatypes.id ds then
    match path with [] => None | seed :: rest => Some (seed, rest) end
  else Some (old_root, path).

(** The verifier accepts exactly if the hashes along the route are the roots. *)
Lemma consistency_verify_along m n ds path old_root new_root :
  route m n ds → m < n → n ≤ usize_max →
  len path = len ds + (if existsb Datatypes.id ds then 1 else 0) →
  consistency_verify (mkConsistencyProof m n path) old_root new_root = Ok () ↔
  ∃ seed rest, seed_of ds old_root path = Some (seed, rest) ∧ length rest = length ds ∧
    along ds rest seed = (old_root, new_root).
Proof.
  intros Hr Hmn Hmax Hlen. pose proof (route_bounds _ _ _ Hr).
  unfold consistency_verify. cbn [old_size new_size consistency_path].
  rewrite !(proj2 (N.eqb_neq _ _)) by lia.
  destruct (trailing_ones (m - 1)) as (z & q & Hm). rewrite Hm, shift_while_odd_spec by apply size_pow_lt.
  assert (Hq : (2 * q =? 0) = negb (existsb Datatypes.id ds)).
  { pose proof (pow_pos z). destruct (existsb Datatypes.id ds) eqn:He; cbn.
    - apply N.eqb_neq. intros Hq. assert (m = 2 ^ z) as -> by lia.
      by rewrite (proj2 (route_pow _ _ _ Hr Hmax) (ex_intro _ z eq_refl)) in He.
    - destruct (proj1 (route_pow _ _ _ Hr Hmax) He) as [t ->].
      destruct (pow_odd_part t z q) as [_ ->]; [lia|done]. }
  rewrite Hq. unfold seed_of.

  assert (Hcore : ∀ seed rest, length rest = length ds →
    (c ← consistency_loop (mkCursor (2 * q) ((n - 1) / 2 ^ z) seed seed) rest;
     if negb (new_cursor c =? 0) || bool_decide (old_hash c ≠ old_root) ||
        bool_decide (new_hash c ≠ new_root) then Err InvalidProof else Ok ()) = Ok () ↔
    along ds rest seed = (old_root, new_root)).
  { intros seed rest Hl. destruct (loop_along _ _ _ Hr Hmax z q Hm rest seed Hl) as [i ->].
    destruct (along ds rest seed) as [o w]. cbn.
    destruct (bool_decide_reflect (o ≠ old_root)) as [Ho|Ho%dec_stable];
      [split; [done|congruence]|].
    destruct (bool_decide_reflect (w ≠ new_root)) as [Hw|Hw%dec_stable];
      [split; [done|congruence]|]. by subst. }
  unfold len in Hlen. destruct (existsb Datatypes.id ds); cbn [negb].
  - destruct path as [|seed rest]; simpl in Hlen; [lia|]. cbn [mbind result_bind].
    rewrite Hcore by lia. split; [intros ?; exists seed, rest; split_and!; [done|lia|done]|].
    by intros (? & ? & [= <- <-] & _ & ?).
  - cbn [mbind result_bind]. rewrite Hcore by lia.
    split; [intros ?; exists old_root, path; split_and!; [done|lia|done]|].
    by intros (? & ? & [= <- <-] & _ & ?).
Qed.

(** A log of at most 2^63 leaves has routes that fit in a proof. *)
Lemma short_route m n ds :
  route m n ds → n ≤ 2 ^ 63 → len ds < MAX_MERKLE_PROOF_HASHES.
Proof.
  intros Hr Hn. assert (len ds ≤ N.of_nat 63); [|unfold MAX_MERKLE_PROOF_HASHES; lia].
  apply (route_length m n); [done|unfold usize_max; lia|done].
Qed.

Lemma consistency_path_length_Ok m n ds :
  route m n ds → m < n → n ≤ 2 ^ 63 →
  consistency_path_length m n true = Ok (len ds + if existsb Datatypes.id ds then 1 else 0).
Proof.
  intros Hr Hmn Hn. pose proof (short_route _ _ _ Hr Hn). unfold consistency_path_length.
  rewrite (consistency_path_length_route _ _ _ _ _ Hr);
    [by destruct (existsb _ _)|unfold usize_max; lia|apply size_pow|done].
Qed.

(** The proofs the code can build have a path of the length of the route. *)
Lemma consistency_proof_new_Ok m n path proof ds :
  route m n ds → m < n → n ≤ 2 ^ 63 →
  consistency_proof_new m n path = Ok proof ↔
  proof = mkConsistencyProof m n path ∧ len path = len ds + (if existsb Datatypes.id ds then 1 else 0).
Proof.
  intros Hr Hmn Hn. pose proof (route_bounds _ _ _ Hr). pose proof (short_route _ _ _ Hr Hn).
  unfold consistency_proof_new, bounded_vec.
  destruct (N.ltb_spec MAX_MERKLE_PROOF_HASHES (len path)); cbn [mbind result_bind].
  { split; [done|]. intros [_ ?]. destruct (existsb _ _); lia. }
  rewrite (proj2 (N.ltb_ge _ _)), !(proj2 (N.eqb_neq _ _)) by lia. cbn [orb].
  rewrite (consistency_path_length_Ok _ _ _ Hr) by done. cbn [mbind result_bind].
  destruct (N.eqb_spec (len path) (len ds + if existsb Datatypes.id ds then 1 else 0)); cbn [negb]; naive_solver.
Qed.

Lemma sized_63 {A} (l : list A) : len l ≤ 2 ^ 63 → sized l.
Proof. unfold sized, usize_max. lia. Qed.

(** A proof that verifies against the root of a list is about a prefix of it. *)
Lemma consistency_verify_sound l proof path m old_root :
  consistency_proof_new m (len l) path = Ok proof → 0 < m → len l ≤ 2 ^ 63 →
  consistency_verify proof old_root (root l) = Ok () →
  old_root = root (take (N.to_nat m) l) ∨ collision.
Proof.
  intros Hp Hm Hn Hv. destruct (N.lt_trichotomy m (len l)) as [Hlt|[->|Hgt]].
  - destruct (route_exists m (len l)) as [ds Hr]; [done..|unfold usize_max; lia|].
    apply (consistency_proof_new_Ok _ _ _ _ ds) in Hp as [-> Hlen]; [|done..].
    apply (consistency_verify_along _ _ ds) in Hv as (seed & rest & Hs & Hl & Ha);
      [|done..|unfold usize_max; lia|done].
    destruct (along_sound _ _ _ Hr l rest seed) as [Ho|]; [by apply sized_63|done..|by rewrite Ha| |by right].
    left. by rewrite <-Ho, Ha.
  - left. revert Hp Hv. unfold consistency_proof_new, bounded_vec, consistency_verify.
    destruct (MAX_MERKLE_PROOF_HASHES <? len path); [done|]. cbn [mbind result_bind].
    rewrite N.ltb_irrefl, N.eqb_refl, orb_true_r. cbn [mbind result_bind].
    destruct (negb _); [done|]. intros [= <-]. cbn [old_size new_size consistency_path].
    rewrite (proj2 (N.eqb_neq _ _)), N.eqb_refl by lia.
    destruct (bool_decide_reflect (path = [])), (bool_decide_reflect (old_root = root l)) as [->|]; try done.
    intros _. by rewrite take_ge by (unfold len; lia).
  - exfalso. revert Hp. unfold consistency_proof_new, bounded_vec. destruct (MAX_MERKLE_PROOF_HASHES <? len path); [done|].
    cbn [mbind result_bind]. by rewrite (proj2 (N.ltb_lt _ _)).
Qed.

(** The prover's proof is built and verifies. *)
Lemma consistency_proof_complete l m :
  0 < m → m < len l → len l ≤ 2 ^ 63 →
  ∃ path proof, append_consistency_path (N.to_nat m) l true [] = Ok path ∧
    consistency_proof_new m (len l) path = Ok proof ∧
    consistency_verify proof (root (take (N.to_nat m) l)) (root l) = Ok ().
Proof.
  intros Hm Hlt Hn. destruct (route_exists m (len l)) as [ds Hr]; [done..|unfold usize_max; lia|].
  destruct (append_consistency_route _ _ _ Hr l (length l)) as (seed & q & Hlen & Happ & Hal & Hseed);
    [by apply sized_63|done..|].
  eexists _, (mkConsistencyProof m (len l) _). split; [apply Happ|].
  assert (Hpl : len ([] ++ (if true && negb (existsb Datatypes.id ds) then [] else [seed]) ++ q) =
    len ds + (if existsb Datatypes.id ds then 1 else 0))
    by (unfold len; destruct (existsb _ _); cbn; rewrite Hlen; lia).
  split; [by apply (consistency_proof_new_Ok _ _ _ _ ds)|].
  apply (consistency_verify_along _ _ ds); [done..|unfold usize_max; lia|done|].
  exists seed, q. split_and!; [|done..]. unfold seed_of.
  destruct (existsb _ _); cbn; [done|]. by rewrite Hseed.
Qed.

End Routes.
