(* ===== verification/MerkleSets.v ===== *)
(** * Facts about Merkle sets

    What an audit path shows when the size it claims is not that of the tree: the
    domains of the hashes keep its turns inside the tree, so that paths of
    neighbours lead to neighbours. Then the order of the entries of a set, and
    the proofs its operations build. *)
From stdpp Require Import base tactics list gmap countable orders sorting strings.
From Stdlib Require Import ZArith Lia Strings.Byte.
From S2P Require Import Prelude Bytes IdTypes Merkle MerkleFacts.

Local Open Scope N_scope.

Section Climbs.
  Context `{HB : Blake3Hash} `{HN : !WireFormat (Digest * Digest)}
    `{HNL : !WireLaws (Digest * Digest)} `{HL : !WireFormat (N * Digest * Digest)}
    `{HLL : !WireLaws (N * Digest * Digest)}.

(** The hash [r] is reached from the leaf [h] by the turns of index [i] of size [n]. *)
Inductive climbs (h : Digest) : N → N → Digest → Prop :=
| climbs_leaf : climbs h 0 1 h
| climbs_left i n l r :
    1 < n → i < largest_power_of_two_less_than n →
    climbs h i (largest_power_of_two_less_than n) l → climbs h i n (node l r)
| climbs_right i n l r :
    1 < n → largest_power_of_two_less_than n ≤ i → i < n →
    climbs h (i - largest_power_of_two_less_than n) (n - largest_power_of_two_less_than n) r →
    climbs h i n (node l r).

Lemma climbs_bounds h i n r : climbs h i n r → i < n.
Proof. induction 1; [lia| |done]. pose proof (power_bounds n). lia. Qed.

Lemma root_from_inclusion_range h i n path idx r :
  root_from_inclusion h i n path idx = Ok r → i < n.
Proof.
  unfold root_from_inclusion. destruct (N.leb_spec n i) as [Hle|]; [|done].
  destruct (N.size_nat n); simpl; by rewrite (proj2 (N.leb_le _ _)), orb_true_r.
Qed.

Lemma root_from_inclusion_climbs h i n path idx r idx' :
  n ≤ usize_max → root_from_inclusion h i n path idx = Ok (r, idx') → climbs h i n r.
Proof.
  revert i idx r idx'. induction n as [n IH] using (well_founded_induction N.lt_wf_0).
  intros i idx r idx' Hmax Hr. pose proof (root_from_inclusion_range _ _ _ _ _ _ Hr) as Hi.
  destruct (N.lt_trichotomy n 1) as [?|[->|Hn]]; [lia| |].
  { assert (i = 0) as -> by lia. rewrite root_from_inclusion_one in Hr.
    apply Ok_pair_inj in Hr as [<- _]. constructor. }
  rewrite root_from_inclusion_split in Hr by done. cbv zeta in Hr. pose proof (power_bounds n Hn).
  destruct (N.ltb_spec i (largest_power_of_two_less_than n)); unfold mbind, result_bind in Hr.
  all: destruct (root_from_inclusion _ _ _ _ _) as [[a j]|] eqn:Ha; [|done].
  all: destruct (next_path_hash path j) as [[b j']|]; [|done].
  all: apply Ok_pair_inj in Hr as [<- _].
  - apply climbs_left; [done..|]. eapply IH; [| |done]; lia.
  - apply climbs_right; [done..|]. eapply IH; [| |done]; lia.
Qed.

Lemma verify_leaf_hash_climbs proof h r :
  tree_size proof ≤ usize_max → verify_leaf_hash proof h r = Ok () →
  climbs h (leaf_index proof) (tree_size proof) r.
Proof.
  intros Hmax. unfold verify_leaf_hash.
  destruct (root_from_inclusion _ _ _ _ _) as [[r' j]|] eqn:Hr; [|done]. cbn.
  case_bool_decide as Hne; [by rewrite orb_true_r|]. subst r'. intros _.
  by eapply root_from_inclusion_climbs.
Qed.

(** ** Hashes of leaves are not hashes of trees *)

Definition is_leaf_hash (h : Digest) : Prop := ∃ payload, h = hash_bytes DomainMerkleLeaf payload.

Lemma leaf_hash_is leaf h : leaf_hash leaf = Ok h → is_leaf_hash h.
Proof. unfold leaf_hash. destruct (encode_wire _); [|done]. cbn. intros [= <-]. by eexists. Qed.

Lemma leaf_hash_Ok leaf : ∃ h, leaf_hash leaf = Ok h.
Proof.
  unfold leaf_hash. destruct (encode_wire_Ok (type_tag (leaf_key leaf), key_id (leaf_key leaf), value_hash leaf))
    as [bytes ->]. by eexists.
Qed.

Lemma leaf_hash_inj l1 l2 h : leaf_hash l1 = Ok h → leaf_hash l2 = Ok h → l1 = l2 ∨ collision.
Proof.
  unfold leaf_hash. destruct (encode_wire (_, _, value_hash l1)) as [b1|] eqn:H1; [|done].
  destruct (encode_wire (_, _, value_hash l2)) as [b2|] eqn:H2; [|done]. cbn.
  intros [= <-] Heq. assert (hash_bytes DomainMerkleLeaf b2 = hash_bytes DomainMerkleLeaf b1) as Hh by congruence.
  apply hash_bytes_inj in Hh as [[_ ->]|]; [left|by right].
  pose proof (encode_wire_inj _ _ _ H1 H2) as Ht. destruct l1 as [[] ?], l2 as [[] ?]. naive_solver.
Qed.

Lemma leaf_not_node h l r : is_leaf_hash h → h = node l r → collision.
Proof. intros [p ->] Heq. by apply hash_bytes_inj in Heq as [[? _]|]. Qed.

Lemma leaf_not_empty h : is_leaf_hash h → h = empty_merkle_root → collision.
Proof. intros [p ->] Heq. by apply hash_bytes_inj in Heq as [[? _]|]. Qed.

Lemma node_not_empty l r : node l r = empty_merkle_root → collision.
Proof. intros Heq. by apply hash_bytes_inj in Heq as [[? _]|]. Qed.

(** A root of leaf hashes that is the hash of a node, of a leaf, or of no tree. *)
Lemma root_is_node l a b :
  Forall is_leaf_hash l → root l = node a b →
  ((2 ≤ length l)%nat ∧ a = root (take (split_at (length l)) l) ∧ b = root (drop (split_at (length l)) l))
  ∨ collision.
Proof.
  intros Hl. destruct l as [|x [|y l]].
  - rewrite root_nil. intros Heq%eq_sym. right. by eapply node_not_empty.
  - rewrite root_singleton. apply Forall_cons_1 in Hl as [Hx _]. intros Heq. right. by eapply leaf_not_node.
  - rewrite root_split by (simpl; lia). intros [[<- <-]|]%node_inj; [|by right].
    left. split; [simpl; lia|done].
Qed.

Lemma root_is_leaf l h :
  Forall is_leaf_hash l → is_leaf_hash h → root l = h → l = [h] ∨ collision.
Proof.
  intros Hl Hh. destruct l as [|x [|y l]].
  - rewrite root_nil. intros Heq%eq_sym. right. by eapply leaf_not_empty.
  - rewrite root_singleton. intros ->. by left.
  - rewrite root_split by (simpl; lia). intros Heq%eq_sym. right. by eapply leaf_not_node.
Qed.

Lemma root_is_empty l : Forall is_leaf_hash l → root l = empty_merkle_root → l = [] ∨ collision.
Proof.
  intros Hl. destruct l as [|x [|y l]]; [by left|..].
  - rewrite root_singleton. apply Forall_cons_1 in Hl as [Hx _]. intros Heq. right. by eapply leaf_not_empty.
  - rewrite root_split by (simpl; lia). intros Heq. right. by eapply node_not_empty.
Qed.

(** A root of leaf hashes determines them, whatever the sizes of the trees. *)
Lemma leaf_root_inj l1 : ∀ l2, Forall is_leaf_hash l1 → Forall is_leaf_hash l2 → root l1 = root l2 →
  l1 = l2 ∨ collision.
Proof.
  induction l1 as [|x|l Hlen IHt IHd] using split_ind; intros l2 H1 H2 Heq.
  - rewrite root_nil in Heq. symmetry in Heq. by apply root_is_empty in Heq as [->|]; [left|right|].
  - rewrite root_singleton in Heq. apply Forall_cons_1 in H1 as [Hx _]. symmetry in Heq.
    by apply root_is_leaf in Heq as [->|]; [left|right|..].
  - rewrite (root_split l) in Heq by done. symmetry in Heq.
    apply root_is_node in Heq as [(Hl2 & Ha & Hb)|]; [|by right|done].
    destruct (IHt (take (split_at (length l2)) l2)) as [Ht|]; [by apply Forall_take..|done| |by right].
    destruct (IHd (drop (split_at (length l2)) l2)) as [Hd|]; [by apply Forall_drop..|done| |by right].
    left. rewrite <-(take_drop (split_at (length l)) l), Ht, Hd. apply take_drop.
Qed.

(** ** Where the turns of a path lead *)

(** The tree under a turn. *)
Lemma under_node l a b :
  Forall is_leaf_hash l → root l = node a b →
  (∃ l1 l2, l = l1 ++ l2 ∧ root l1 = a ∧ root l2 = b ∧ Forall is_leaf_hash l1 ∧ Forall is_leaf_hash l2)
  ∨ collision.
Proof.
  intros Hl [(_ & -> & ->)|]%root_is_node; [left|by right|done].
  exists (take (split_at (length l)) l), (drop (split_at (length l)) l).
  rewrite take_drop. split_and!; auto using Forall_take, Forall_drop.
Qed.

Lemma climbs_member h i n r : is_leaf_hash h → climbs h i n r →
  ∀ l, Forall is_leaf_hash l → root l = r → h ∈ l ∨ collision.
Proof.
  intros Hh. induction 1 as [|i n a b _ _ Hc IH|i n a b _ _ _ Hc IH]; intros l Hl Hr.
  - apply root_is_leaf in Hr as [->|]; [left; set_solver|by right|done..].
  - apply under_node in Hr as [(l1 & l2 & -> & H1 & H2 & ? & ?)|]; [|by right|done].
    destruct (IH l1) as [|]; [done..|left; set_solver|by right].
  - apply under_node in Hr as [(l1 & l2 & -> & H1 & H2 & ? & ?)|]; [|by right|done].
    destruct (IH l2) as [|]; [done..|left; set_solver|by right].
Qed.

(** The first index leads to the first leaf, whatever the size. *)
Lemma climbs_first h i n r : is_leaf_hash h → climbs h i n r → i = 0 →
  ∀ l, Forall is_leaf_hash l → root l = r → head l = Some h ∨ collision.
Proof.
  intros Hh. induction 1 as [|i n a b Hn Hi Hc IH|i n a b Hn Hi Hin Hc IH]; intros Hi0 l Hl Hr.
  - apply root_is_leaf in Hr as [->|]; [by left|by right|done..].
  - apply under_node in Hr as [(l1 & l2 & -> & H1 & H2 & ? & ?)|]; [|by right|done].
    destruct (IH Hi0 l1) as [Hd|]; [done..|left|by right]. by destruct l1.
  - pose proof (power_bounds n Hn). lia.
Qed.

(** The last index leads to the last leaf. *)
Lemma climbs_last h i n r : is_leaf_hash h → climbs h i n r → i = n - 1 →
  ∀ l, Forall is_leaf_hash l → root l = r → last l = Some h ∨ collision.
Proof.
  intros Hh. induction 1 as [|i n a b Hn Hi Hc IH|i n a b Hn Hi Hin Hc IH]; intros Hi0 l Hl Hr.
  - apply root_is_leaf in Hr as [->|]; [by left|by right|done..].
  - pose proof (power_bounds n Hn). lia.
  - apply under_node in Hr as [(l1 & l2 & -> & H1 & H2 & ? & ?)|]; [|by right|done].
    destruct (IH ltac:(lia) l2) as [Hd|]; [done..|left|by right]. by rewrite last_app, Hd.
Qed.

Lemma climbs_node_inv h i n a b :
  1 < n → climbs h i n (node a b) →
  let k := largest_power_of_two_less_than n in
  (i < k ∧ climbs h i k a) ∨ (k ≤ i ∧ climbs h (i - k) (n - k) b) ∨ collision.
Proof.
  intros Hn Hc. remember (node a b) as r eqn:Hr.
  destruct Hc as [|i n a' b' _ Hi Hc|i n a' b' _ Hi _ Hc]; [lia|..];
    apply node_inj in Hr as [[-> ->]|]; auto.
Qed.

(** Neighbouring indices lead to neighbouring leaves. *)
Lemma climbs_adjacent h h' i n r : is_leaf_hash h → is_leaf_hash h' →
  climbs h i n r → climbs h' (i + 1) n r →
  ∀ l, Forall is_leaf_hash l → root l = r → (∃ l1 l2, l = l1 ++ h :: h' :: l2) ∨ collision.
Proof.
  intros Hh Hh' Hc. induction Hc as [|i n a b Hn Hi Hc IH|i n a b Hn Hi Hin Hc IH];
    intros Hc' l Hl Hr.
  - apply climbs_bounds in Hc'. lia.
  - apply under_node in Hr as [(l1 & l2 & -> & H1 & H2 & ? & ?)|]; [|by right|done].
    apply climbs_node_inv in Hc' as [[Hi' Hc2]|[[Hi' Hc2]|]]; [..|by right|done].
    + destruct (IH Hc2 l1) as [(k1 & k2 & ->)|]; [assumption..|left|by right].
      exists k1, (k2 ++ l2). by rewrite <-app_assoc.
    + destruct (climbs_last _ _ _ _ Hh Hc ltac:(lia) l1) as [Hla|]; [done..| |by right].
      destruct (climbs_first _ _ _ _ Hh' Hc2 ltac:(lia) l2) as [Hhd|]; [done..|left|by right].
      apply last_Some in Hla as [k1 ->]. destruct l2 as [|? k2]; simplify_eq/=.
      exists k1, k2. by rewrite <-app_assoc.
  - apply under_node in Hr as [(l1 & l2 & -> & H1 & H2 & ? & ?)|]; [|by right|done].
    apply climbs_node_inv in Hc' as [[Hi' _]|[[Hi' Hc2]|]]; [lia| |by right|done].
    rewrite N.add_sub_swap in Hc2 by lia.
    destruct (IH Hc2 l2) as [(k1 & k2 & ->)|]; [assumption..|left|by right].
    exists (l1 ++ k1), k2. by rewrite <-app_assoc.
Qed.

End Climbs.

(** ** The entries of a set *)

#[global] Instance set_key_le_TotalOrder : TotalOrder set_key_le.
Proof.
  unfold set_key_le. split; [split; [split|]|].
  - intros k. reflexivity.
  - intros k1 k2 k3. apply transitivity.
  - intros [t1 d1] [t2 d2] H1 H2. assert ((t1, d1) = (t2, d2)) as [= -> ->]; [|done].
    by apply (anti_symm (lex_le N.le digest_le)).
  - intros [t1 d1] [t2 d2]. unfold strict. cbn.
    destruct (trichotomy (strict (lex_le N.le digest_le)) (t1, d1) (t2, d2)) as [H|[[= -> ->]|H]];
      [by left|by right; left|by right; right].
Qed.

Lemma set_key_ltb_spec k1 k2 : set_key_ltb k1 k2 = true ↔ strict set_key_le k1 k2.
Proof.
  unfold set_key_ltb. rewrite negb_true_iff, bool_decide_eq_false. split; [|by intros [_ ?]].
  intros Hn. split; [|done]. by destruct (total set_key_le k1 k2).
Qed.

(** The entries are in the strict order of their keys. *)
Definition key_lt (e1 e2 : MerkleSetLeaf) : Prop := strict set_key_le (leaf_key e1) (leaf_key e2).

#[global] Instance key_lt_trans : Transitive key_lt.
Proof. intros e1 e2 e3. unfold key_lt. apply (transitivity (R:=strict set_key_le)). Qed.

Lemma key_lt_ne e1 e2 : key_lt e1 e2 → leaf_key e1 ≠ leaf_key e2.
Proof. intros [_ Hn] Heq. apply Hn. by rewrite Heq. Qed.

#[global] Instance leaf_key_le_trans : Transitive leaf_key_le.
Proof. intros e1 e2 e3. unfold leaf_key_le. apply transitivity. Qed.

#[global] Instance leaf_key_le_total : Total leaf_key_le.
Proof. intros e1 e2. unfold leaf_key_le. apply (total set_key_le). Qed.

(** Sorted entries without adjacent duplicates have no duplicates. *)
Lemma strictly_sorted l :
  Sorted leaf_key_le l → adjacent_duplicate l = false ↔ StronglySorted key_lt l.
Proof.
  intros Hs. split.
  - intros Hd. apply Sorted_StronglySorted; [apply _|]. induction Hs as [|a l Hs IH Hhd]; [constructor|].
    destruct l as [|b l]; [repeat constructor|]. cbn in Hd. apply orb_false_iff in Hd as [Hne Hd].
    apply bool_decide_eq_false in Hne. apply HdRel_inv in Hhd. constructor; [by apply IH|constructor].
    split; [done|]. intros Hle. by apply Hne, (anti_symm set_key_le).
  - intros Hss. clear Hs. induction Hss as [|a l Hss IH Hf]; [done|].
    destruct l as [|b l]; [done|]. cbn. apply orb_false_iff. split; [|done].
    apply bool_decide_eq_false, key_lt_ne. by apply Forall_cons_1 in Hf as [? _].
Qed.

Lemma sorted_keys_NoDup l : StronglySorted key_lt l → NoDup (leaf_key <$> l).
Proof.
  induction 1 as [|a l Hss IH Hf]; [constructor|]. cbn. constructor; [|done].
  rewrite list_elem_of_fmap. intros (b & Heq & Hb). rewrite Forall_forall in Hf.
  by apply (key_lt_ne a b); [apply Hf|].
Qed.

Lemma NoDup_keys_strictly l :
  Sorted leaf_key_le l → NoDup (leaf_key <$> l) → StronglySorted key_lt l.
Proof.
  intros Hs Hnd. apply strictly_sorted; [done|]. clear Hs. induction l as [|a [|b l] IH]; [done..|].
  cbn. apply orb_false_iff. apply NoDup_cons in Hnd as [Hn Hnd]. split; [|by apply IH].
  apply bool_decide_eq_false. intros Heq. apply Hn. rewrite Heq. left.
Qed.

(** The well-formed sets: those [MerkleSet::new] builds. *)
Definition set_wf (s : MerkleSet) : Prop :=
  StronglySorted key_lt (entries s) ∧ len (entries s) ≤ MAX_MERKLE_SET_LEAVES.

Lemma set_new_Ok leaves s :
  set_new leaves = Ok s ↔
  len leaves ≤ MAX_MERKLE_SET_LEAVES ∧ NoDup (leaf_key <$> leaves) ∧
  s = mkSet (merge_sort leaf_key_le leaves).
Proof.
  assert (Hperm : merge_sort leaf_key_le leaves ≡ₚ leaves) by apply merge_sort_Permutation.
  assert (Hs : Sorted leaf_key_le (merge_sort leaf_key_le leaves)) by apply Sorted_merge_sort, _.
  unfold set_new. destruct (N.ltb_spec MAX_MERKLE_SET_LEAVES (len leaves)); [split; [done|lia]|].
  destruct (adjacent_duplicate _) eqn:Hd.
  - split; [done|]. intros (_ & Hnd & _). rewrite <-Hperm in Hnd.
    apply NoDup_keys_strictly, strictly_sorted in Hnd; congruence.
  - apply strictly_sorted in Hd; [|done]. apply sorted_keys_NoDup in Hd. rewrite Hperm in Hd.
    split; [intros [= <-]|intros (_ & _ & ->)]; done.
Qed.

Lemma set_new_wf leaves s : set_new leaves = Ok s → set_wf s ∧ entries s ≡ₚ leaves.
Proof.
  intros (Hl & Hnd & ->)%set_new_Ok. cbn.
  assert (Hperm : merge_sort leaf_key_le leaves ≡ₚ leaves) by apply merge_sort_Permutation.
  split; [split; cbn|done].
  - apply NoDup_keys_strictly; [apply Sorted_merge_sort, _|by rewrite Hperm].
  - unfold len in *. by rewrite Hperm.
Qed.

Lemma binary_search_spec key l : StronglySorted key_lt l →
  match binary_search key l with
  | Ok i => ∃ e, l !! i = Some e ∧ leaf_key e = key
  | Err i => ∃ l1 l2, l = l1 ++ l2 ∧ i = length l1 ∧
      Forall (λ e, strict set_key_le (leaf_key e) key) l1 ∧
      Forall (λ e, strict set_key_le key (leaf_key e)) l2
  end.
Proof.
  intros Hss. unfold binary_search. destruct (list_find _ l) as [[i e]|] eqn:Hf.
  { apply list_find_Some in Hf as (Hi & He & _). by exists e. }
  apply list_find_None in Hf. induction Hss as [|a l Hss IH Ha]; [by exists [], []|].
  apply Forall_cons_1 in Hf as [Hne Hf]. rewrite filter_cons. case_decide as Hle.
  - destruct (IH Hf) as (l1 & l2 & -> & Hlen & H1 & H2). exists (a :: l1), l2.
    split_and!; [done|cbn; by rewrite Hlen| |done]. constructor; [|done].
    split; [done|]. intros ?. by apply Hne, (anti_symm set_key_le).
  - exists [], (a :: l). assert (Hlt : strict set_key_le key (leaf_key a)).
    { split; [|done]. by destruct (total set_key_le key (leaf_key a)). }
    assert (Hall : Forall (λ e, strict set_key_le key (leaf_key e)) l).
    { eapply Forall_impl; [exact Ha|]. intros e He. by etrans. }
    split_and!; [done| |constructor|by constructor]. cbn. apply length_zero_iff_nil, filter_none.
    rewrite Forall_forall in Hall. intros e He. by apply Hall in He as [_ ?].
Qed.

(** ** The proofs of a set *)

Section Proofs.
  Context `{HB : Blake3Hash} `{HN : !WireFormat (Digest * Digest)}
    `{HNL : !WireLaws (Digest * Digest)} `{HL : !WireFormat (N * Digest * Digest)}
    `{HLL : !WireLaws (N * Digest * Digest)}.

Definition hashes_of (es : list MerkleSetLeaf) (hs : list Digest) : Prop :=
  Forall2 (λ e h, leaf_hash e = Ok h) es hs.

Lemma set_hashes s : ∃ hs, set_leaf_hashes s = Ok hs ∧ hashes_of (entries s) hs.
Proof.
  unfold set_leaf_hashes, hashes_of. enough (∃ hs, Forall2 (λ e h, leaf_hash e = Ok h) (entries s) hs) as [hs Hhs].
  { exists hs. split; [by apply collect_fmap_Ok|done]. }
  induction (entries s) as [|e es [hs IH]]; [by exists []|].
  destruct (leaf_hash_Ok e) as [h Hh]. exists (h :: hs). by constructor.
Qed.

Lemma set_root_Ok s hs :
  set_leaf_hashes s = Ok hs → set_root s = Ok (root hs).
Proof. intros Hh. unfold set_root. rewrite Hh. cbn. apply tree_hash_Ok. Qed.

Lemma hashes_leaf es hs : hashes_of es hs → Forall is_leaf_hash hs.
Proof. induction 1; constructor; eauto using leaf_hash_is. Qed.

Lemma hashes_len es hs : hashes_of es hs → len hs = len es.
Proof. intros H. unfold len. by rewrite (Forall2_length _ _ _ H). Qed.

Lemma set_sized s hs : set_wf s → hashes_of (entries s) hs → sized hs.
Proof.
  intros [_ Hs] Hh. apply hashes_len in Hh. unfold sized. rewrite Hh.
  unfold usize_max, MAX_MERKLE_SET_LEAVES in *. lia.
Qed.

Lemma u64_try_from_Ok resource x : x ≤ usize_max → u64_try_from resource x = Ok x.
Proof. intros Hx. unfold u64_try_from. by rewrite (proj2 (N.leb_le _ _)). Qed.

Lemma set_len s : set_wf s → len (entries s) ≤ usize_max.
Proof. intros [_ Hs]. unfold usize_max, MAX_MERKLE_SET_LEAVES in *. lia. Qed.

(** The proof for an entry, which verifies against the root. *)
Lemma inclusion_proof_at_Ok s i e r :
  set_wf s → entries s !! i = Some e → set_root s = Ok r →
  ∃ proof, inclusion_proof_at s i = Ok proof ∧ inclusion_verify proof e r = Ok () ∧
    leaf_index proof = N.of_nat i ∧ tree_size proof = len (entries s).
Proof.
  intros Hwf Hi Hr. destruct (set_hashes s) as (hs & Heq & Hhs). pose proof (set_sized s hs Hwf Hhs) as Hs.
  rewrite (set_root_Ok _ _ Heq) in Hr. assert (r = root hs) as -> by congruence.
  destruct (Forall2_lookup_l _ _ _ _ _ Hhs Hi) as (h & Hh & He). pose proof (lookup_lt_Some _ _ _ Hh).
  destruct (inclusion_proof_Ok hs i h Hs Hh) as (proof & Hp & Hv & Hidx & Hsz). exists proof.
  rewrite <-(hashes_len _ _ Hhs). split_and!; [|unfold inclusion_verify; by rewrite He|done..].
  unfold inclusion_proof_at. rewrite Heq. cbn [mbind result_bind].
  rewrite append_inclusion_path_Ok by done. cbn [mbind result_bind app].
  unfold sized, len in Hs. rewrite !u64_try_from_Ok by (unfold len; lia). done.
Qed.

Lemma neighbor_at_Ok s i e r :
  set_wf s → entries s !! i = Some e → set_root s = Ok r →
  ∃ proof, neighbor_at s i = Ok (Some (mkNeighbor e proof)) ∧ inclusion_verify proof e r = Ok () ∧
    leaf_index proof = N.of_nat i ∧ tree_size proof = len (entries s).
Proof.
  intros Hwf Hi Hr. destruct (inclusion_proof_at_Ok s i e r Hwf Hi Hr) as (proof & Hp & Hrest).
  exists proof. split; [|done]. unfold neighbor_at. rewrite Hi, Hp. done.
Qed.

(** An inclusion proof that verifies is for an entry, whatever its size. *)
Lemma inclusion_verify_member s proof leaf r :
  set_root s = Ok r → tree_size proof ≤ usize_max →
  inclusion_verify proof leaf r = Ok () → leaf ∈ entries s ∨ collision.
Proof.
  intros Hr Hmax. destruct (set_hashes s) as (hs & Heq & Hhs). rewrite (set_root_Ok _ _ Heq) in Hr.
  assert (r = root hs) as -> by congruence. unfold inclusion_verify.
  destruct (leaf_hash_Ok leaf) as [h Hh]. rewrite Hh. cbn [mbind result_bind].
  intros Hc%verify_leaf_hash_climbs; [|done].
  destruct (climbs_member _ _ _ _ (leaf_hash_is _ _ Hh) Hc hs) as [Hin|];
    [by eapply hashes_leaf|done| |by right].
  apply list_elem_of_lookup in Hin as [i Hi]. destruct (Forall2_lookup_r _ _ _ _ _ Hhs Hi) as (e & He & Hle).
  destruct (leaf_hash_inj _ _ _ Hh Hle) as [->|]; [left|by right]. by eapply list_elem_of_lookup_2.
Qed.

(** The root determines the entries. *)
Lemma hashes_inj es1 es2 hs : hashes_of es1 hs → hashes_of es2 hs → es1 = es2 ∨ collision.
Proof.
  unfold hashes_of. intros H. revert es2. induction H as [|e h es1 hs He _ IH]; intros es2 H2.
  { apply Forall2_nil_inv_r in H2 as ->. by left. }
  apply Forall2_cons_inv_r in H2 as (e' & es2' & He' & H2 & ->).
  destruct (leaf_hash_inj _ _ _ He He') as [->|]; [|by right]. by destruct (IH es2' H2) as [->|]; [left|right].
Qed.

Lemma set_root_inj s1 s2 r : set_root s1 = Ok r → set_root s2 = Ok r → entries s1 = entries s2 ∨ collision.
Proof.
  destruct (set_hashes s1) as (h1 & E1 & H1), (set_hashes s2) as (h2 & E2 & H2).
  rewrite (set_root_Ok _ _ E1), (set_root_Ok _ _ E2). intros [= <-] [= Heq].
  destruct (leaf_root_inj h1 h2) as [->|]; [by eapply hashes_leaf..|done| |by right]. by eapply hashes_inj.
Qed.

(** ** Absent keys *)

(** A key in the gap between two parts of the entries. *)
Lemma gap_absent q l1 l2 :
  StronglySorted key_lt (l1 ++ l2) →
  (∀ e, last l1 = Some e → strict set_key_le (leaf_key e) q) →
  (∀ e, head l2 = Some e → strict set_key_le q (leaf_key e)) →
  ∀ e, e ∈ l1 ++ l2 → leaf_key e ≠ q.
Proof.
  intros Hss H1 H2 e He <-. apply StronglySorted_app in Hss as (_ & Hs1 & Hs2).
  apply elem_of_app in He as [He|He].
  - destruct l1 as [|x l1 _] using rev_ind; [by apply not_elem_of_nil in He|].
    destruct (H1 x (last_snoc _ _)) as [_ Hn]. apply Hn. apply elem_of_app in He as [He|He].
    + by apply (StronglySorted_app_1_elem_of _ _ _ e x) in Hs1 as [? _]; [|done|left].
    + apply list_elem_of_singleton in He as ->. reflexivity.
  - destruct l2 as [|x l2]; [by apply not_elem_of_nil in He|].
    destruct (H2 x eq_refl) as [_ Hn]. apply Hn. apply StronglySorted_cons in Hs2 as [Hx _].
    apply elem_of_cons in He as [->|He]; [reflexivity|]. rewrite Forall_forall in Hx. by apply Hx.
Qed.

(** The leaf of a hash among the hashes of the entries. *)
Lemma entry_of_hash es hs leaf h i :
  hashes_of es hs → hs !! i = Some h → leaf_hash leaf = Ok h → es !! i = Some leaf ∨ collision.
Proof.
  intros Hhs Hi Hl. destruct (Forall2_lookup_r _ _ _ _ _ Hhs Hi) as (e & He & Hle).
  destruct (leaf_hash_inj _ _ _ Hl Hle) as [->|]; auto.
Qed.

(** What a neighbour of a proof shows. *)
Lemma inclusion_verify_climbs proof leaf r :
  tree_size proof ≤ usize_max → inclusion_verify proof leaf r = Ok () →
  ∃ h, leaf_hash leaf = Ok h ∧ is_leaf_hash h ∧ climbs h (leaf_index proof) (tree_size proof) r.
Proof.
  intros Hmax. unfold inclusion_verify. destruct (leaf_hash_Ok leaf) as [h Hh]. rewrite Hh.
  cbn [mbind result_bind]. intros Hc%verify_leaf_hash_climbs; [|done]. exists h.
  eauto using leaf_hash_is.
Qed.

Lemma first_neighbor es hs n :
  hashes_of es hs → tree_size (neighbor_proof n) ≤ usize_max → leaf_index (neighbor_proof n) = 0 →
  inclusion_verify (neighbor_proof n) (neighbor_leaf n) (root hs) = Ok () →
  head es = Some (neighbor_leaf n) ∨ collision.
Proof.
  intros Hhs Hmax Hi Hv. apply inclusion_verify_climbs in Hv as (h & Hl & Hh & Hc); [|done].
  destruct (climbs_first _ _ _ _ Hh Hc Hi hs) as [Hd|]; [by eapply hashes_leaf|done| |by right].
  rewrite head_lookup in Hd. rewrite head_lookup. eapply entry_of_hash; done.
Qed.

Lemma last_neighbor es hs n :
  hashes_of es hs → tree_size (neighbor_proof n) ≤ usize_max →
  leaf_index (neighbor_proof n) = tree_size (neighbor_proof n) - 1 →
  inclusion_verify (neighbor_proof n) (neighbor_leaf n) (root hs) = Ok () →
  last es = Some (neighbor_leaf n) ∨ collision.
Proof.
  intros Hhs Hmax Hi Hv. apply inclusion_verify_climbs in Hv as (h & Hl & Hh & Hc); [|done].
  destruct (climbs_last _ _ _ _ Hh Hc Hi hs) as [Hd|]; [by eapply hashes_leaf|done| |by right].
  rewrite last_lookup in Hd. rewrite last_lookup, (Forall2_length _ _ _ Hhs). eapply entry_of_hash; done.
Qed.

Lemma adjacent_neighbors es hs p n :
  hashes_of es hs → tree_size (neighbor_proof p) ≤ usize_max →
  tree_size (neighbor_proof n) = tree_size (neighbor_proof p) →
  leaf_index (neighbor_proof n) = leaf_index (neighbor_proof p) + 1 →
  inclusion_verify (neighbor_proof p) (neighbor_leaf p) (root hs) = Ok () →
  inclusion_verify (neighbor_proof n) (neighbor_leaf n) (root hs) = Ok () →
  (∃ l1 l2, es = l1 ++ neighbor_leaf p :: neighbor_leaf n :: l2) ∨ collision.
Proof.
  intros Hhs Hmax Hsz Hi Hp Hn.
  apply inclusion_verify_climbs in Hp as (h & Hl & Hh & Hc); [|done].
  apply inclusion_verify_climbs in Hn as (h' & Hl' & Hh' & Hc'); [|by rewrite Hsz].
  rewrite Hsz, Hi in Hc'.
  destruct (climbs_adjacent _ _ _ _ _ Hh Hh' Hc Hc' hs) as [(k1 & k2 & ->)|];
    [by eapply hashes_leaf|done| |by right].
  apply Forall2_app_inv_r in Hhs as (l1 & es2 & H1 & H2 & ->).
  apply Forall2_cons_inv_r in H2 as (e & es3 & He & H2 & ->).
  apply Forall2_cons_inv_r in H2 as (e' & l2 & He' & _ & ->).
  destruct (leaf_hash_inj _ _ _ Hl He) as [->|]; [|by right].
  destruct (leaf_hash_inj _ _ _ Hl' He') as [->|]; [left|by right]. by exists l1, l2.
Qed.

(** The cases of a shape that is accepted. *)
Inductive neighbors (n : N) : option MerkleNeighbor → option MerkleNeighbor → Prop :=
| neighbors_none : n = 0 → neighbors n None None
| neighbors_first s :
    0 < n → tree_size (neighbor_proof s) = n → leaf_index (neighbor_proof s) = 0 →
    neighbors n None (Some s)
| neighbors_last p :
    0 < n → tree_size (neighbor_proof p) = n → leaf_index (neighbor_proof p) = n - 1 →
    neighbors n (Some p) None
| neighbors_both p s :
    0 < n → tree_size (neighbor_proof p) = n → tree_size (neighbor_proof s) = n →
    leaf_index (neighbor_proof s) = leaf_index (neighbor_proof p) + 1 →
    leaf_index (neighbor_proof p) + 1 ≤ usize_max →
    strict set_key_le (leaf_key (neighbor_leaf p)) (leaf_key (neighbor_leaf s)) →
    neighbors n (Some p) (Some s).

Lemma check_Ok {E} (b : bool) (e : E) : (if b then Ok () else Err e) = Ok () ↔ b = true.
Proof. destruct b; naive_solver. Qed.

Lemma validate_neighbor_shape_Ok n pred succ :
  validate_neighbor_shape n pred succ = Ok () ↔ neighbors n pred succ.
Proof.
  unfold validate_neighbor_shape. destruct (N.eqb_spec n 0) as [->|Hn].
  { destruct pred, succ; split; first [done|by constructor|inversion 1; lia]. }
  rewrite guard_Ok. destruct pred as [p|], succ as [s|]; cbn;
    rewrite ?guard_Ok, ?check_Ok, ?orb_false_iff, ?negb_false_iff, ?andb_true_iff, ?N.eqb_eq,
      ?N.leb_le, ?set_key_ltb_spec.
  - split; [|inversion 1; subst; split_and!; (lia || done)].
    intros [[Hp Hs] [[Hi Hj] Hk]]. constructor; (lia || done).
  - split; [intros [[Hp _] Hi]; constructor; [lia|done..]|]. inversion 1; subst; split_and!; done.
  - split; [intros [Hp Hi]; constructor; [lia|done..]|]. inversion 1; subst; split_and!; done.
  - split; [by intros [_ ?]|]. by inversion 1.
Qed.

(** The checks on the neighbours. *)
Definition below (q : MerkleSetKey) (r : Digest) (n : MerkleNeighbor) : Prop :=
  inclusion_verify (neighbor_proof n) (neighbor_leaf n) r = Ok () ∧
  strict set_key_le (leaf_key (neighbor_leaf n)) q.

Definition above (q : MerkleSetKey) (r : Digest) (n : MerkleNeighbor) : Prop :=
  inclusion_verify (neighbor_proof n) (neighbor_leaf n) r = Ok () ∧
  strict set_key_le q (leaf_key (neighbor_leaf n)).

Lemma guarded_check {E} (c : result E ()) (b : bool) (e : E) (P : Prop) :
  (b = true ↔ P) → (_ ← c; if negb b then Err e else Ok ()) = Ok () ↔ c = Ok () ∧ P.
Proof. intros Hb. destruct c as [[]|], b; cbn; naive_solver. Qed.

Lemma bind_check {E} (c d : result E ()) : (_ ← c; d) = Ok () ↔ c = Ok () ∧ d = Ok ().
Proof. destruct c as [[]|]; cbn; naive_solver. Qed.

Lemma non_membership_verify_Ok proof q r :
  non_membership_verify proof q r = Ok () ↔
  neighbors (nm_tree_size proof) (predecessor proof) (successor proof) ∧
  (nm_tree_size proof = 0 → r = empty_merkle_root) ∧
  (∀ n, predecessor proof = Some n → below q r n) ∧ (∀ n, successor proof = Some n → above q r n).
Proof.
  unfold non_membership_verify. rewrite bind_check, validate_neighbor_shape_Ok.
  destruct proof as [n pred succ]. cbn [nm_tree_size predecessor successor].
  split; intros [Hs Hrest]; (split; [exact Hs|]).
  - destruct (N.eqb_spec n 0) as [->|Hn].
    { case_bool_decide; [|done]. inversion Hs; subst; try lia. naive_solver. }
    apply bind_check in Hrest as [Hp Hn']. split; [done|]. split.
    + intros p ->. by apply (guarded_check _ _ _ _ (set_key_ltb_spec _ _)) in Hp.
    + intros p ->. by apply (guarded_check _ _ _ _ (set_key_ltb_spec _ _)) in Hn'.
  - destruct Hrest as (H0 & Hp & Hn'). destruct (N.eqb_spec n 0) as [->|Hn].
    { rewrite bool_decide_eq_true_2; auto. }
    apply bind_check. split.
    + destruct pred; [|done]. apply (guarded_check _ _ _ _ (set_key_ltb_spec _ _)). by apply Hp.
    + destruct succ; [|done]. apply (guarded_check _ _ _ _ (set_key_ltb_spec _ _)). by apply Hn'.
Qed.

(** A proof of absence that verifies is right, whatever the size it claims. *)
Lemma non_membership_absent s proof q r :
  set_wf s → set_root s = Ok r → nm_tree_size proof ≤ usize_max →
  non_membership_verify proof q r = Ok () →
  (∀ e, e ∈ entries s → leaf_key e ≠ q) ∨ collision.
Proof.
  intros [Hss _] Hr Hmax. destruct (set_hashes s) as (hs & Heq & Hhs).
  rewrite (set_root_Ok _ _ Heq) in Hr. assert (r = root hs) as -> by congruence. clear Hr Heq.
  rewrite non_membership_verify_Ok. destruct proof as [n pred succ].
  cbn [nm_tree_size predecessor successor] in *. intros (Hn & H0 & Hp & Hs).
  destruct Hn as [->|x Hpos Hsz Hi|x Hpos Hsz Hi|x y Hpos Hsz Hsz' Hi _ _].
  - destruct (root_is_empty hs) as [->|]; [by eapply hashes_leaf|auto| |by right].
    left. inversion Hhs. set_solver.
  - destruct (Hs x eq_refl) as [Hv Hlt]. destruct (first_neighbor (entries s) hs x Hhs) as [Hd|];
      [lia|done..| |by right]. left.
    apply (gap_absent q [] (entries s) Hss); [done|]. rewrite Hd. by intros e [= <-].
  - destruct (Hp x eq_refl) as [Hv Hlt]. destruct (last_neighbor (entries s) hs x Hhs) as [Hd|];
      [lia|lia|done| |by right]. left.
    intros e Hin. apply (gap_absent q (entries s) []); [by rewrite app_nil_r|rewrite Hd; by intros ? [= <-]|
      done|by rewrite app_nil_r].
  - destruct (Hp x eq_refl) as [Hv Hlt], (Hs y eq_refl) as [Hv' Hlt'].
    destruct (adjacent_neighbors (entries s) hs x y) as [(l1 & l2 & He)|]; [done|lia|lia|done..| |by right].
    left. rewrite cons_middle, app_assoc in He.
    rewrite He in *. apply gap_absent; [done|rewrite last_snoc; by intros e [= <-]|by intros e [= <-]].
Qed.

(** The neighbour of an entry of a set. *)
Definition neighbor_for (s : MerkleSet) (r : Digest) (i : N) (leaf : option MerkleSetLeaf)
    (n : option MerkleNeighbor) : Prop :=
  match leaf with
  | None => n = None
  | Some e => ∃ proof, n = Some (mkNeighbor e proof) ∧ inclusion_verify proof e r = Ok () ∧
      leaf_index proof = i ∧ tree_size proof = len (entries s)
  end.

Lemma predecessor_Ok s r l1 l2 :
  set_wf s → set_root s = Ok r → entries s = l1 ++ l2 →
  ∃ n, (if (length l1 =? 0)%nat then Ok None else neighbor_at s (length l1 - 1)) = Ok n ∧
    neighbor_for s r (len l1 - 1) (last l1) n.
Proof.
  intros Hwf Hr He. destruct l1 as [|e l1 _] using rev_ind; [by exists None|].
  rewrite (proj2 (Nat.eqb_neq _ _)) by (rewrite length_app; simpl; lia). rewrite last_snoc.
  destruct (neighbor_at_Ok s (length l1) e r) as (proof & Hn & Hv & Hi & Hsz); [done| |done|].
  { rewrite He, <-app_assoc. cbn. by apply list_lookup_middle. }
  rewrite length_app. cbn [length]. replace (length l1 + 1 - 1)%nat with (length l1) by lia.
  eexists. split; [done|]. exists proof. split_and!; [done..| |done].
  rewrite Hi. unfold len. rewrite length_app. simpl. lia.
Qed.

Lemma successor_Ok s r l1 l2 :
  set_wf s → set_root s = Ok r → entries s = l1 ++ l2 →
  ∃ n, (if (length l1 =? length (entries s))%nat then Ok None else neighbor_at s (length l1)) = Ok n ∧
    neighbor_for s r (len l1) (head l2) n.
Proof.
  intros Hwf Hr He. pose proof (f_equal length He) as Hl. rewrite length_app in Hl.
  destruct l2 as [|e l2]; simpl in Hl.
  { exists None. by rewrite Hl, Nat.add_0_r, Nat.eqb_refl. }
  rewrite (proj2 (Nat.eqb_neq _ _)) by lia.
  destruct (neighbor_at_Ok s (length l1) e r) as (proof & Hn & Hv & Hi & Hsz); [done| |done|].
  { rewrite He. by apply list_lookup_middle. }
  eexists. split; [done|]. by exists proof.
Qed.

Lemma absent_verifies s q r l1 l2 pred succ :
  set_wf s → set_root s = Ok r → entries s = l1 ++ l2 →
  Forall (λ e, strict set_key_le (leaf_key e) q) l1 →
  Forall (λ e, strict set_key_le q (leaf_key e)) l2 →
  neighbor_for s r (len l1 - 1) (last l1) pred → neighbor_for s r (len l1) (head l2) succ →
  non_membership_verify (mkNonMembershipProof (len (entries s)) pred succ) q r = Ok ().
Proof.
  intros Hwf Hr He H1 H2 Hp Hs. apply non_membership_verify_Ok. cbn [nm_tree_size predecessor successor].
  assert (Hlen : len (entries s) = len l1 + len l2) by (rewrite He; unfold len; rewrite length_app; lia).
  pose proof (set_len s Hwf) as Hmax. split_and!.
  - destruct l1 as [|e l1 _] using rev_ind; destruct l2 as [|e2 l2]; rewrite ?last_snoc in Hp; cbn in Hp, Hs; subst.
    + by constructor.
    + destruct Hs as (proof & -> & _ & Hi & Hsz). unfold len in Hlen. simpl in Hlen.
      constructor; [unfold len; lia|done..].
    + destruct Hp as (proof & -> & _ & Hi & Hsz). rewrite len_snoc in *.
      constructor; cbn; [lia|done|]. rewrite Hi, Hlen. unfold len. simpl. lia.
    + destruct Hp as (proof & -> & _ & Hi & Hsz), Hs as (proof2 & -> & _ & Hi2 & Hsz2).
      rewrite len_snoc in *. constructor; cbn; [lia|done|done|lia|lia|].
      apply Forall_app in H1 as [_ [H1 _]%Forall_cons_1]. apply Forall_cons_1 in H2 as [H2 _]. by etrans.
  - intros H0. assert (entries s = []) as Hnil by (apply length_zero_iff_nil; unfold len in H0; lia).
    unfold set_root, set_leaf_hashes in Hr. rewrite Hnil in Hr. cbn in Hr. congruence.
  - intros n ->. destruct (last l1) as [e|] eqn:Hla; [|done]. destruct Hp as (proof & [= ->] & Hv & _).
    split; [done|]. apply last_Some in Hla as [k ->]. by apply Forall_app in H1 as [_ [H1 _]%Forall_cons_1].
  - intros n ->. destruct l2 as [|e l2]; [done|]. destruct Hs as (proof & [= ->] & Hv & _).
    split; [done|]. by apply Forall_cons_1 in H2 as [H2 _].
Qed.

(** A proof of absence is built for every absent key, and verifies. *)
Lemma non_membership_proof_Ok s q r :
  set_wf s → set_root s = Ok r → (∀ e, e ∈ entries s → leaf_key e ≠ q) →
  ∃ proof, non_membership_proof s q = Ok proof ∧ non_membership_verify proof q r = Ok ().
Proof.
  intros Hwf Hr Habs. pose proof (binary_search_spec q _ (proj1 Hwf)) as Hb.
  unfold non_membership_proof. destruct (binary_search q (entries s)) as [i|i].
  { destruct Hb as (e & He & Hk). exfalso. by eapply (Habs e), Hk; apply list_elem_of_lookup_2 in He. }
  destruct Hb as (l1 & l2 & He & -> & H1 & H2). rewrite u64_try_from_Ok by (by apply set_len).
  cbn [mbind result_bind].
  destruct (predecessor_Ok s r l1 l2) as (pred & -> & Hp); [done..|]. cbn [mbind result_bind].
  destruct (successor_Ok s r l1 l2) as (succ & -> & Hs); [done..|]. cbn [mbind result_bind].
  unfold non_membership_proof_new.
  enough (Hv : non_membership_verify (mkNonMembershipProof (len (entries s)) pred succ) q r = Ok ()).
  { eexists. split; [|exact Hv]. apply non_membership_verify_Ok in Hv as [Hv _].
    cbn in Hv. apply validate_neighbor_shape_Ok in Hv. by rewrite Hv. }
  by apply (absent_verifies s q r l1 l2).
Qed.

End Proofs.
