(* ===== verification/MerkleProps.v ===== *)
(** * Properties of the Merkle trees *)
From stdpp Require Import base tactics list gmap countable orders sorting strings.
From Stdlib Require Import ZArith Lia Strings.Byte.
From S2P Require Import Prelude Bytes IdTypes Merkle MerkleFacts MerkleConsistency MerkleSets ExampleWire.

Local Open Scope N_scope.

(** ** Lemmas *)

Section Lemmas.
  Context `{HB : Blake3Hash} `{HN : !WireFormat (Digest * Digest)}
    `{HNL : !WireLaws (Digest * Digest)}.

(** Trees of one size with the same root have the same leaves. *)
Lemma root_inj l1 l2 :
  length l1 = length l2 → root l1 = root l2 → l1 = l2 ∨ collision.
Proof.
  revert l2. induction l1 as [|x|l1 Hl IH1 IH2] using split_ind; intros l2 Hlen Hr.
  - left. by destruct l2.
  - destruct l2 as [|y [|]]; try done. rewrite !root_singleton in Hr. left. by rewrite Hr.
  - rewrite (root_split l1), (root_split l2) in Hr by lia. rewrite <-Hlen in Hr.
    set (k := split_at (length l1)) in *. apply node_inj in Hr as [[H1 H2]|]; [|by right].
    destruct (IH1 (take k l2)) as [Ht|]; [by rewrite !length_take, Hlen|done| |by right].
    destruct (IH2 (drop k l2)) as [Hd|]; [by rewrite !length_drop, Hlen|done| |by right].
    left. by rewrite <-(take_drop k l1), <-(take_drop k l2), Ht, Hd.
Qed.

Lemma from_leaf_hashes_Ok l log :
  from_leaf_hashes l = Ok log ↔ len l ≤ MAX_MERKLE_LOG_LEAVES ∧ log = mkLog l.
Proof.
  unfold from_leaf_hashes. destruct (N.ltb_spec MAX_MERKLE_LOG_LEAVES (len l)); [split; [done|lia]|].
  split; [by intros [= <-]|by intros [_ ->]].
Qed.

Lemma log_63 {A} (l : list A) : len l ≤ MAX_MERKLE_LOG_LEAVES → len l ≤ 2 ^ 63.
Proof. unfold MAX_MERKLE_LOG_LEAVES. lia. Qed.

(** Lists whose roots a consistency proof between their sizes relates. *)
Lemma consistency_prefix l1 l2 path proof :
  len l2 ≤ MAX_MERKLE_LOG_LEAVES → consistency_proof_new (len l1) (len l2) path = Ok proof →
  consistency_verify proof (root l1) (root l2) = Ok () → l1 `prefix_of` l2 ∨ collision.
Proof.
  intros Hmax Hp Hv. destruct l1 as [|x l1]; [left; apply prefix_nil|]. set (l := x :: l1) in *.
  assert (Hpos : 0 < len l) by (unfold len; simpl; lia).
  assert (Hle : len l ≤ len l2).
  { destruct (N.leb_spec (len l) (len l2)); [done|]. revert Hp. unfold consistency_proof_new, bounded_vec.
    destruct (MAX_MERKLE_PROOF_HASHES <? len path); [done|]. cbn. by rewrite (proj2 (N.ltb_lt _ _)). }
  destruct (consistency_verify_sound l2 proof path (len l) (root l)) as [Hr|]; [done..|by apply log_63|done| |by right].
  unfold len in *. rewrite Nat2N.id in Hr. apply root_inj in Hr as [Hr|]; [left|by right|].
  - rewrite Hr. apply prefix_take.
  - rewrite length_take. lia.
Qed.

Lemma log_tree_size_Ok l : len l ≤ MAX_MERKLE_LOG_LEAVES → log_tree_size (mkLog l) = Ok (len l).
Proof. intros Hl. apply u64_try_from_Ok. unfold usize_max, MAX_MERKLE_LOG_LEAVES in *. cbn. lia. Qed.

(** A size and itself, or no leaves: the path is empty. *)
Lemma trivial_consistency m n :
  m = 0 ∨ m = n → m ≤ n → consistency_proof_new m n [] = Ok (mkConsistencyProof m n []).
Proof.
  intros Hm Hle. unfold consistency_proof_new, bounded_vec. cbn [len length].
  rewrite (proj2 (N.ltb_ge n m)) by done.
  assert ((m =? 0) || (m =? n) = true) as ->
    by (destruct Hm as [-> | ->]; rewrite N.eqb_refl; [done|by rewrite orb_true_r]).
  done.
Qed.

Lemma trivial_verify l m :
  m = 0 ∨ m = len l →
  consistency_verify (mkConsistencyProof m (len l) []) (root (take (N.to_nat m) l)) (root l) = Ok ().
Proof.
  intros Hm. unfold consistency_verify. cbn [old_size new_size consistency_path].
  destruct (N.eqb_spec m 0) as [->|Hne].
  - cbn [N.to_nat take]. rewrite root_nil, bool_decide_eq_false_2 by (by intros []). cbn.
    destruct (N.eqb_spec (len l) 0) as [H0|]; [|done].
    assert (l = []) as -> by (apply length_zero_iff_nil; unfold len in H0; lia).
    rewrite root_nil, bool_decide_eq_false_2 by (by intros []). done.
  - destruct Hm as [|Hm]; [done|]. rewrite Hm, N.eqb_refl. unfold len. rewrite Nat2N.id, take_ge by done.
    rewrite !bool_decide_eq_true_2 by done. done.
Qed.

End Lemmas.

#[global] Instance key_lt_antisymm : AntiSymm (=) key_lt.
Proof. intros e1 e2 [H1 Hn] [H2 _]. by destruct Hn. Qed.

Lemma set_new_perm leaves1 leaves2 s :
  leaves1 ≡ₚ leaves2 → set_new leaves1 = Ok s → set_new leaves2 = Ok s.
Proof.
  intros Hperm Hs1. pose proof (set_new_wf _ _ Hs1) as [[Hss1 _] Hp1].
  apply set_new_Ok in Hs1 as (Hmax & Hnd & ->).
  assert (Hs2 : set_new leaves2 = Ok (mkSet (merge_sort leaf_key_le leaves2))).
  { apply set_new_Ok. split_and!; [unfold len in *; by rewrite <-Hperm|by rewrite <-Hperm|done]. }
  pose proof (set_new_wf _ _ Hs2) as [[Hss2 _] Hp2]. cbn [entries] in *. rewrite Hs2. do 2 f_equal.
  apply (StronglySorted_unique key_lt); [done..|]. by rewrite Hp1, Hp2, Hperm.
Qed.

(** ** The append-only log *)

Section Log.
  Context `{HB : Blake3Hash} `{HN : !WireFormat (Digest * Digest)}
    `{HNL : !WireLaws (Digest * Digest)}.

(** C15. A log is append-only: if a consistency proof between the sizes of two logs
    verifies against their roots, the leaves of the old log are a prefix of the
    leaves of the new one, unless two inputs of the hash collide. *)
Theorem log_append_only old new path proof old_root new_root :
  len (leaf_hashes new) ≤ MAX_MERKLE_LOG_LEAVES →
  consistency_proof_new (len (leaf_hashes old)) (len (leaf_hashes new)) path = Ok proof →
  log_root old = Ok old_root → log_root new = Ok new_root →
  consistency_verify proof old_root new_root = Ok () →
  leaf_hashes old `prefix_of` leaf_hashes new ∨ collision.
Proof.
  destruct old as [l1], new as [l2]. unfold log_root. cbn [leaf_hashes]. rewrite !tree_hash_Ok.
  intros Hmax Hp [= <-] [= <-]. by apply (consistency_prefix l1 l2 path proof).
Qed.

(** Every log proves its consistency with each of its earlier states: the
    proof for the size of a prefix is built, and verifies against the two roots. *)
Theorem log_consistency_complete l1 l2 old new :
  from_leaf_hashes l1 = Ok old → from_leaf_hashes (l1 ++ l2) = Ok new →
  ∃ old_root new_root proof, log_root old = Ok old_root ∧ log_root new = Ok new_root ∧
    log_consistency_proof new (len l1) = Ok proof ∧
    consistency_verify proof old_root new_root = Ok ().
Proof.
  intros [_ ->]%from_leaf_hashes_Ok [Hmax ->]%from_leaf_hashes_Ok. unfold log_root. cbn [leaf_hashes].
  set (l := l1 ++ l2) in *. exists (root l1), (root l).
  assert (Hle : len l1 ≤ len l) by (unfold l, len; rewrite length_app; lia).
  assert (Htake : take (N.to_nat (len l1)) l = l1) by (unfold l, len; by rewrite Nat2N.id, take_app_length).
  unfold log_consistency_proof. rewrite log_tree_size_Ok by done. cbn [mbind result_bind leaf_hashes].
  rewrite (proj2 (N.ltb_ge _ _)) by done.
  destruct (decide (len l1 = 0 ∨ len l1 = len l)) as [Ht|Ht].
  - exists (mkConsistencyProof (len l1) (len l) []). rewrite !tree_hash_Ok.
    assert ((len l1 =? 0) || (len l1 =? len l) = true) as ->
      by (apply orb_true_iff; rewrite !N.eqb_eq; done).
    pose proof (trivial_verify l (len l1) Ht) as Hv. rewrite Htake in Hv.
    rewrite trivial_consistency by done. done.
  - rewrite !(proj2 (N.eqb_neq _ _)) by tauto. cbn [orb].
    destruct (consistency_proof_complete l (len l1)) as (path & proof & Happ & Hp & Hv);
      [lia|lia|by apply log_63|]. rewrite Htake in Hv. exists proof. rewrite !tree_hash_Ok, Happ. done.
Qed.

(** An inclusion proof is built for every leaf of a log and verifies against
    its root; and a proof for the size of the log verifies only for the leaf at
    its index, unless two inputs of the hash collide. *)
Theorem log_inclusion_exact l log :
  from_leaf_hashes l = Ok log →
  ∃ r, log_root log = Ok r ∧
    (∀ i h, l !! i = Some h →
       ∃ proof, log_inclusion_proof log (N.of_nat i) = Ok proof ∧ verify_leaf_hash proof h r = Ok ()) ∧
    (∀ proof h, tree_size proof = len l → verify_leaf_hash proof h r = Ok () →
       l !! N.to_nat (leaf_index proof) = Some h ∨ collision).
Proof.
  intros [Hmax ->]%from_leaf_hashes_Ok. exists (root l). split; [apply tree_hash_Ok|].
  pose proof (sized_63 l (log_63 l Hmax)) as Hs. split.
  - intros i h Hi. destruct (inclusion_proof_Ok l i h Hs Hi) as (proof & Hp & Hv & _). exists proof.
    split; [|done]. pose proof (lookup_lt_Some _ _ _ Hi). unfold log_inclusion_proof.
    rewrite log_tree_size_Ok by done. cbn [mbind result_bind leaf_hashes].
    rewrite (proj2 (N.leb_gt _ _)) by (unfold len; lia).
    rewrite Nat2N.id, append_inclusion_path_Ok by done. done.
  - intros proof h Hsz Hv. by apply verify_leaf_hash_sound.
Qed.

(** An append gives the leaf the next index and keeps every leaf before it; it
    fails exactly when the log is full, so that no log exceeds its bound. *)
Theorem append_outcome log leaf :
  len (leaf_hashes log) ≤ MAX_MERKLE_LOG_LEAVES →
  match append log leaf with
  | Ok (index, log') =>
      index = len (leaf_hashes log) ∧ leaf_hashes log' = leaf_hashes log ++ [leaf] ∧
      len (leaf_hashes log') ≤ MAX_MERKLE_LOG_LEAVES
  | Err e =>
      len (leaf_hashes log) = MAX_MERKLE_LOG_LEAVES ∧
      e = limit "provider Merkle log leaves" (MAX_MERKLE_LOG_LEAVES + 1) MAX_MERKLE_LOG_LEAVES
  end.
Proof.
  intros Hmax. unfold append. destruct (N.eqb_spec (len (leaf_hashes log)) MAX_MERKLE_LOG_LEAVES) as [Heq|Hne].
  { by rewrite Heq. }
  rewrite u64_try_from_Ok by (unfold usize_max, MAX_MERKLE_LOG_LEAVES in *; lia). cbn [mbind result_bind leaf_hashes].
  rewrite len_snoc. split_and!; [done..|]. lia.
Qed.

End Log.

(** ** The sorted set *)

Section Sets.
  Context `{HB : Blake3Hash} `{HN : !WireFormat (Digest * Digest)}
    `{HNL : !WireLaws (Digest * Digest)} `{HL : !WireFormat (N * Digest * Digest)}
    `{HLL : !WireLaws (N * Digest * Digest)}.

(** A leaf with an inclusion proof that verifies against the root of a set is
    a leaf of the set, whatever size the proof claims, unless two inputs of the
    hash collide: an interior node is not accepted for a leaf. *)
Theorem set_inclusion_sound leaves s r proof leaf :
  set_new leaves = Ok s → set_root s = Ok r → tree_size proof ≤ usize_max →
  inclusion_verify proof leaf r = Ok () → leaf ∈ leaves ∨ collision.
Proof.
  intros [Hwf Hperm]%set_new_wf Hr Hsz Hv.
  destruct (inclusion_verify_member s proof leaf r Hr Hsz Hv); [left|by right]. by rewrite <-Hperm.
Qed.

(** C16. A key with a proof of absence that verifies against the root of a set is
    the key of no leaf of the set, whatever size the proof claims, unless two
    inputs of the hash collide. *)
Theorem set_absence_sound leaves s r proof query :
  set_new leaves = Ok s → set_root s = Ok r → nm_tree_size proof ≤ usize_max →
  non_membership_verify proof query r = Ok () →
  (∀ leaf, leaf ∈ leaves → leaf_key leaf ≠ query) ∨ collision.
Proof.
  intros [Hwf Hperm]%set_new_wf Hr Hsz Hv.
  destruct (non_membership_absent s proof query r Hwf Hr Hsz Hv) as [Ha|]; [left|by right].
  intros leaf. rewrite <-Hperm. apply Ha.
Qed.

(** Every key of a set is answered: with an inclusion proof that verifies for
    its leaf if it is present, and with a proof of absence that verifies if it is
    not; the other request is refused. *)
Theorem set_answers_every_key leaves s key :
  set_new leaves = Ok s →
  ∃ r, set_root s = Ok r ∧
    ((∃ leaf proof, leaf ∈ leaves ∧ leaf_key leaf = key ∧
        set_inclusion_proof s key = Ok proof ∧ inclusion_verify proof leaf r = Ok () ∧
        non_membership_proof s key = Err (InvalidRelationship "Merkle non-membership query is present"))
     ∨ ((∀ leaf, leaf ∈ leaves → leaf_key leaf ≠ key) ∧
        set_inclusion_proof s key = Err (InvalidRelationship "Merkle inclusion query is absent") ∧
        ∃ proof, non_membership_proof s key = Ok proof ∧ non_membership_verify proof key r = Ok ())).
Proof.
  intros [Hwf Hperm]%set_new_wf. destruct (set_hashes s) as (hs & Heq & _).
  pose proof (set_root_Ok s hs Heq) as Hr. exists (root hs). split; [done|].
  pose proof (binary_search_spec key _ (proj1 Hwf)) as Hb.
  destruct (binary_search key (entries s)) as [i|i] eqn:Hs.
  - left. destruct Hb as (e & He & Hk).
    destruct (inclusion_proof_at_Ok s i e _ Hwf He Hr) as (proof & Hp & Hv & _). exists e, proof.
    split_and!; [|done| |done|].
    + rewrite <-Hperm. by eapply list_elem_of_lookup_2.
    + unfold set_inclusion_proof. by rewrite Hs.
    + unfold non_membership_proof. by rewrite Hs.
  - right. destruct Hb as (l1 & l2 & He & -> & H1 & H2).
    assert (Habs : ∀ e, e ∈ entries s → leaf_key e ≠ key).
    { rewrite He. intros e [Hin|Hin]%elem_of_app Heqk; rewrite Forall_forall in H1, H2.
      - apply H1 in Hin as [_ Hn]. apply Hn. by rewrite Heqk.
      - apply H2 in Hin as [_ Hn]. apply Hn. by rewrite Heqk. }
    split_and!; [intros leaf; rewrite <-Hperm; apply Habs| |by apply non_membership_proof_Ok].
    unfold set_inclusion_proof. by rewrite Hs.
Qed.

(** A set, and so its root, does not depend on the order of the leaves it is
    made of, nor does the error when it is refused. *)
Theorem set_new_canonical leaves1 leaves2 :
  leaves1 ≡ₚ leaves2 → set_new leaves1 = set_new leaves2.
Proof.
  intros Hperm. assert (Hlen : len leaves1 = len leaves2) by (unfold len; by rewrite Hperm).
  destruct (set_new leaves1) as [s1|e1] eqn:H1, (set_new leaves2) as [s2|e2] eqn:H2.
  - rewrite (set_new_perm _ _ _ Hperm H1) in H2. done.
  - by rewrite (set_new_perm _ _ _ Hperm H1) in H2.
  - symmetry in Hperm. by rewrite (set_new_perm _ _ _ Hperm H2) in H1.
  - revert H1 H2. unfold set_new. rewrite Hlen. destruct (MAX_MERKLE_SET_LEAVES <? len leaves2); [congruence|].
    destruct (adjacent_duplicate _), (adjacent_duplicate _); congruence.
Qed.

End Sets.

(** ** Hashes and encodings *)

(** Digests of different domains, or of different payloads in one domain,
    differ, unless two inputs of the hash collide. *)
Theorem hash_domains_separated `{Blake3Hash} d1 p1 d2 p2 :
  hash_bytes d1 p1 = hash_bytes d2 p2 → (d1 = d2 ∧ p1 = p2) ∨ collision.
Proof. apply hash_bytes_inj. Qed.

(** C38. Decoding accepts exactly the canonical encodings within the limit: bytes
    decode to a value if and only if the value encodes to these bytes. *)
Theorem canonical_codec_exact `{WireLaws A} resource (a : A) bytes :
  from_canonical_bytes (H:=wire_codec resource) bytes = Ok a ↔
  to_canonical_bytes (H:=wire_codec resource) a = Ok bytes.
Proof. apply canonical_bijection. Qed.

(** ** Examples *)

Import ExampleWire.

Definition dig (b : byte) : Digest := mkDigest Blake3_256 [b].
Definition ex_leaf (tag : N) (b : byte) : MerkleSetLeaf := mkMerkleSetLeaf (mkMerkleSetKey tag (dig b)) (dig xff).

Definition ok {E A} (d : A) (r : result E A) : A := match r with Ok a => a | Err _ => d end.

(** A set of three leaves. *)
Definition ex_leaves : list MerkleSetLeaf := [ex_leaf 2 x00; ex_leaf 1 x07; ex_leaf 1 x03].
Definition ex_set : MerkleSet := ok (mkSet []) (set_new ex_leaves).
Definition ex_root : Digest := ok empty_merkle_root (set_root ex_set).
Definition ex_inclusion : MerkleInclusionProof :=
  ok (mkInclusionProof 0 0 []) (set_inclusion_proof ex_set (mkMerkleSetKey 1 (dig x07))).
Definition ex_absence : MerkleNonMembershipProof :=
  ok (mkNonMembershipProof 0 None None) (non_membership_proof ex_set (mkMerkleSetKey 1 (dig x05))).

(** A log of five leaves, and the log of its first three. *)
Definition ex_hashes : list Digest := [dig x01; dig x02; dig x03; dig x04; dig x05].
Definition ex_log : AppendOnlyMerkleLog := mkLog ex_hashes.
Definition ex_old : AppendOnlyMerkleLog := mkLog (take 3 ex_hashes).
Definition ex_path : list Digest := ok [] (append_consistency_path 3 ex_hashes true []).
Definition ex_consistency : MerkleConsistencyProof := ok (mkConsistencyProof 0 0 []) (log_consistency_proof ex_log 3).

Ltac evaluate := vm_compute; first [reflexivity | discriminate].

Lemma log_append_only_witness :
  leaf_hashes ex_old `prefix_of` leaf_hashes ex_log ∨ collision.
Proof.
  apply (log_append_only ex_old ex_log ex_path ex_consistency
    (ok empty_merkle_root (log_root ex_old)) (ok empty_merkle_root (log_root ex_log))); evaluate.
Defined.

Lemma log_consistency_complete_witness :
  ∃ old_root new_root proof, log_root ex_old = Ok old_root ∧ log_root ex_log = Ok new_root ∧
    log_consistency_proof ex_log 3 = Ok proof ∧ consistency_verify proof old_root new_root = Ok ().
Proof. apply (log_consistency_complete (take 3 ex_hashes) (drop 3 ex_hashes) ex_old ex_log); evaluate. Defined.

Lemma log_inclusion_exact_witness :
  ∃ r, log_root ex_log = Ok r ∧
    (∀ i h, ex_hashes !! i = Some h →
       ∃ proof, log_inclusion_proof ex_log (N.of_nat i) = Ok proof ∧ verify_leaf_hash proof h r = Ok ()) ∧
    (∀ proof h, tree_size proof = len ex_hashes → verify_leaf_hash proof h r = Ok () →
       ex_hashes !! N.to_nat (leaf_index proof) = Some h ∨ collision).
Proof. apply (log_inclusion_exact ex_hashes ex_log). evaluate. Defined.

Lemma append_outcome_witness :
  match append ex_log (dig x06) with
  | Ok (index, log') => index = 5 ∧ leaf_hashes log' = ex_hashes ++ [dig x06] ∧
      len (leaf_hashes log') ≤ MAX_MERKLE_LOG_LEAVES
  | Err e => False ∧ e = limit "provider Merkle log leaves" (MAX_MERKLE_LOG_LEAVES + 1) MAX_MERKLE_LOG_LEAVES
  end.
Proof. exact (append_outcome ex_log (dig x06) ltac:(evaluate)). Defined.

Lemma set_inclusion_sound_witness : ex_leaf 1 x07 ∈ ex_leaves ∨ collision.
Proof. apply (set_inclusion_sound ex_leaves ex_set ex_root ex_inclusion (ex_leaf 1 x07)); evaluate. Defined.

Lemma set_absence_sound_witness :
  (∀ leaf, leaf ∈ ex_leaves → leaf_key leaf ≠ mkMerkleSetKey 1 (dig x05)) ∨ collision.
Proof. apply (set_absence_sound ex_leaves ex_set ex_root ex_absence); evaluate. Defined.

Lemma set_answers_every_key_witness :
  let key := mkMerkleSetKey 1 (dig x07) in
  ∃ r, set_root ex_set = Ok r ∧
    ((∃ leaf proof, leaf ∈ ex_leaves ∧ leaf_key leaf = key ∧
        set_inclusion_proof ex_set key = Ok proof ∧ inclusion_verify proof leaf r = Ok () ∧
        non_membership_proof ex_set key = Err (InvalidRelationship "Merkle non-membership query is present"))
     ∨ ((∀ leaf, leaf ∈ ex_leaves → leaf_key leaf ≠ key) ∧
        set_inclusion_proof ex_set key = Err (InvalidRelationship "Merkle inclusion query is absent") ∧
        ∃ proof, non_membership_proof ex_set key = Ok proof ∧ non_membership_verify proof key r = Ok ())).
Proof. apply (set_answers_every_key ex_leaves ex_set). evaluate. Defined.

Lemma set_new_canonical_witness : set_new ex_leaves = set_new (reverse ex_leaves).
Proof. apply (set_new_canonical ex_leaves (reverse ex_leaves)). symmetry. apply reverse_Permutation. Defined.

Lemma hash_domains_separated_witness :
  (DomainMerkleLeaf = DomainMerkleLeaf ∧ [x01] = [x01]) ∨ collision.
Proof. apply (hash_domains_separated DomainMerkleLeaf [x01] DomainMerkleLeaf [x01]). reflexivity. Defined.

Lemma canonical_codec_exact_witness :
  from_canonical_bytes (H:=wire_codec "digest") (put_bytes [x05]) = Ok (dig x05) ↔
  to_canonical_bytes (H:=wire_codec "digest") (dig x05) = Ok (put_bytes [x05]).
Proof. apply (canonical_codec_exact "digest" (dig x05) (put_bytes [x05])). Defined.

