(* ===== verification/SortedVec.v ===== *)
(** * Vectors sorted by a key

    The identity protocol keeps its sets as vectors in strictly ascending order of
    a key: an input is sorted or checked with [windows(2)], elements are found and
    inserted with [binary_search_by_key]. *)
From stdpp Require Import base tactics list sorting orders strings.
From Stdlib Require Import ZArith Lia.
From S2P Require Import Prelude Bytes IdTypes.

Section Order.
  Context {K : Type} `{!EqDecision K} (R : relation K) `{!RelDecision R} `{!TotalOrder R}.

(** [Ord::cmp]. *)
Definition order (x y : K) : comparison :=
  if bool_decide (x = y) then Eq else if bool_decide (R x y) then Lt else Gt.

Context {A : Type} (key : A → K).

Definition key_le (a b : A) : Prop := R (key a) (key b).

#[local] Instance key_le_dec : RelDecision key_le.
Proof. intros a b. unfold key_le. apply _. Defined.

(** Strictly ascending keys. *)
Definition ascending (l : list A) : Prop := StronglySorted (λ a b, strict R (key a) (key b)) l.

(** [sort_unstable_by_key]. *)
Definition sort_by (l : list A) : list A := merge_sort key_le l.

(** The check of neighbours in [windows(2)]: equal keys, then descending ones. *)
Fixpoint check_ascending (resource : string) (l : list A) : result IdentityError () :=
  match l with
  | a :: ((b :: _) as rest) =>
      match order (key a) (key b) with
      | Eq => Err (DuplicateElement resource)
      | Gt => Err NonCanonical
      | Lt => check_ascending resource rest
      end
  | _ => Ok ()
  end.

(** [binary_search_by_key] on ascending keys: the position of the key, or the
    position to insert it at. *)
Definition search (k : K) (l : list A) : result nat nat :=
  match list_find (λ a, key a = k) l with
  | Some (i, _) => Ok i
  | None => Err (length (filter (λ a, R (key a) k) l))
  end.

(** [Vec::insert]. *)
Definition insert_at (i : nat) (a : A) (l : list A) : list A := take i l ++ a :: drop i l.

(** [binary_search_by_key(k).ok().map(|index| &l[index])]. *)
Definition get_by (k : K) (l : list A) : option A :=
  match search k l with Ok i => l !! i | Err _ => None end.

(** ** Facts *)

Lemma order_spec x y :
  match order x y with Eq => x = y | Lt => strict R x y | Gt => strict R y x end.
Proof.
  unfold order. case_bool_decide as He; [done|]. case_bool_decide as Hr.
  - split; [done|]. intros ?. by apply He, (anti_symm R).
  - split; [|done]. by destruct (total R x y).
Qed.

Lemma order_Lt x y : order x y = Lt ↔ strict R x y.
Proof.
  pose proof (order_spec x y) as H. destruct (order x y); split; try done.
  - subst. by intros [? []].
  - intros [? Hn]. by destruct H as [? _].
Qed.

#[local] Instance strict_key_trans : Transitive (λ a b : A, strict R (key a) (key b)).
Proof. intros a b c H1 H2. by etrans. Qed.

Lemma check_ascending_Ok resource l : check_ascending resource l = Ok () ↔ ascending l.
Proof.
  unfold ascending. split.
  - intros H. apply Sorted_StronglySorted; [apply _|]. induction l as [|a [|b l] IH]; [by repeat constructor..|].
    cbn in H. pose proof (order_spec (key a) (key b)) as Ho. destruct (order _ _); [done| |done].
    constructor; [by apply IH|by constructor].
  - induction 1 as [|a l Hss IH Ha]; [done|]. destruct l as [|b l]; [done|]. cbn.
    apply Forall_cons_1 in Ha as [Hab _]. by rewrite (proj2 (order_Lt _ _) Hab).
Qed.

Lemma ascending_NoDup l : ascending l → NoDup (key <$> l).
Proof.
  induction 1 as [|a l Hss IH Ha]; [constructor|]. cbn. constructor; [|done].
  rewrite list_elem_of_fmap. intros (b & Heq & Hb). rewrite Forall_forall in Ha.
  destruct (Ha _ Hb) as [_ []]. by rewrite Heq.
Qed.

Lemma ascending_inj l a b : ascending l → a ∈ l → b ∈ l → key a = key b → a = b.
Proof.
  intros Hs [i Hi]%list_elem_of_lookup [j Hj]%list_elem_of_lookup Heq.
  assert (i = j) as <-; [|congruence].
  eapply NoDup_lookup; [exact (ascending_NoDup _ Hs)|by rewrite list_lookup_fmap, Hi|].
  rewrite list_lookup_fmap, Hj. simpl. by rewrite Heq.
Qed.

#[local] Instance key_le_total : Total key_le.
Proof. intros a b. unfold key_le. apply (total R). Qed.

#[local] Instance key_le_trans : Transitive key_le.
Proof. intros a b c. unfold key_le. apply transitivity. Qed.

Lemma sort_by_Permutation l : sort_by l ≡ₚ l.
Proof. apply merge_sort_Permutation. Qed.

Lemma sort_by_sorted l : StronglySorted key_le (sort_by l).
Proof. apply (StronglySorted_merge_sort key_le). Qed.

(** A sorted list whose keys are distinct is in strictly ascending order. *)
Lemma NoDup_ascending l : StronglySorted key_le l → NoDup (key <$> l) → ascending l.
Proof.
  induction 1 as [|a l Hss IH Ha]; intros Hnd; [constructor|].
  cbn in Hnd. apply NoDup_cons in Hnd as [Hn Hnd]. constructor; [by apply IH|].
  rewrite Forall_forall in *. intros b Hb. split; [by apply Ha|]. intros Hba.
  apply Hn. rewrite list_elem_of_fmap. exists b. split; [|done].
  apply (anti_symm R); [by apply Ha|done].
Qed.

Lemma sort_by_ascending l : NoDup (key <$> l) → ascending (sort_by l).
Proof.
  intros Hnd. apply NoDup_ascending; [apply sort_by_sorted|by rewrite sort_by_Permutation].
Qed.

(** There is one list in ascending order with given elements. *)
Lemma ascending_unique l1 l2 : ascending l1 → ascending l2 → l1 ≡ₚ l2 → l1 = l2.
Proof.
  revert l2. induction l1 as [|a l1 IH]; intros l2 H1 H2 Hp.
  { by apply Permutation_nil_l in Hp as ->. }
  destruct l2 as [|b l2]; [by apply Permutation_nil_r in Hp|].
  apply StronglySorted_cons in H1 as [Ha H1]. apply StronglySorted_cons in H2 as [Hb H2].
  rewrite Forall_forall in Ha, Hb. assert (a = b) as ->.
  { assert (Hin : a ∈ b :: l2) by (rewrite <-Hp; left).
    assert (Hin' : b ∈ a :: l1) by (rewrite Hp; left).
    apply elem_of_cons in Hin as [|Hin]; [done|]. apply elem_of_cons in Hin' as [|Hin']; [done|].
    destruct (Ha _ Hin') as [? []]. by destruct (Hb _ Hin) as [? _]. }
  f_equal. apply IH; [done..|]. by apply Permutation_cons_inv in Hp.
Qed.

Lemma ascending_ext l1 l2 : ascending l1 → ascending l2 → (∀ a, a ∈ l1 ↔ a ∈ l2) → l1 = l2.
Proof.
  intros H1 H2 Hext. apply ascending_unique; [done..|].
  apply NoDup_Permutation; [eapply NoDup_fmap_1, ascending_NoDup; done..|done].
Qed.

Lemma sort_by_ascending_id l : ascending l → sort_by l = l.
Proof.
  intros H. apply ascending_unique; [|done|apply sort_by_Permutation].
  by apply sort_by_ascending, ascending_NoDup.
Qed.

(** The order of the input does not matter, unless two elements have the same key. *)
Lemma sort_by_proper l1 l2 : l1 ≡ₚ l2 → NoDup (key <$> l1) → sort_by l1 = sort_by l2.
Proof.
  intros Hp Hnd. apply ascending_unique; [by apply sort_by_ascending| |].
  - apply sort_by_ascending. by rewrite <-Hp.
  - by rewrite !sort_by_Permutation.
Qed.

Lemma check_sort_by resource l :
  check_ascending resource (sort_by l) = Ok () ↔ NoDup (key <$> l).
Proof.
  rewrite check_ascending_Ok. split; [|apply sort_by_ascending].
  intros H%ascending_NoDup. by rewrite sort_by_Permutation in H.
Qed.

(** *** Searching *)

Lemma search_split k l : ascending l →
  match search k l with
  | Ok i => ∃ a, l !! i = Some a ∧ key a = k
  | Err i => ∃ l1 l2, l = l1 ++ l2 ∧ i = length l1 ∧
      Forall (λ a, strict R (key a) k) l1 ∧ Forall (λ a, strict R k (key a)) l2
  end.
Proof.
  intros Hss. unfold search. destruct (list_find _ l) as [[i a]|] eqn:Hf.
  { apply list_find_Some in Hf as (Hi & Ha & _). by exists a. }
  apply list_find_None in Hf. induction Hss as [|a l Hss IH Ha]; [by exists [], []|].
  apply Forall_cons_1 in Hf as [Hne Hf]. rewrite filter_cons. case_decide as Hle.
  - destruct (IH Hf) as (l1 & l2 & -> & Hlen & H1 & H2). exists (a :: l1), l2.
    split_and!; [done|cbn; by rewrite Hlen| |done]. constructor; [|done].
    split; [done|]. intros ?. by apply Hne, (anti_symm R).
  - exists [], (a :: l). assert (Hlt : strict R k (key a)).
    { split; [|done]. by destruct (total R k (key a)). }
    assert (Hall : Forall (λ b, strict R k (key b)) l).
    { eapply Forall_impl; [exact Ha|]. intros b Hb. by etrans. }
    split_and!; [done| |constructor|by constructor]. cbn. apply length_zero_iff_nil, filter_none.
    rewrite Forall_forall in Hall. intros b Hb. by apply Hall in Hb as [_ ?].
Qed.

Lemma search_Ok k l i : search k l = Ok i → ∃ a, l !! i = Some a ∧ key a = k.
Proof.
  unfold search. destruct (list_find _ l) as [[j a]|] eqn:Hf; [|done]. intros [= <-].
  apply list_find_Some in Hf as (Hi & Ha & _). by exists a.
Qed.

Lemma search_Err k l i : search k l = Err i → ∀ a, a ∈ l → key a ≠ k.
Proof.
  unfold search. destruct (list_find _ l) as [[j a]|] eqn:Hf; [done|]. intros _.
  apply list_find_None in Hf. by rewrite Forall_forall in Hf.
Qed.

Lemma get_by_Some k l a : ascending l → get_by k l = Some a ↔ a ∈ l ∧ key a = k.
Proof.
  intros Hs. unfold get_by. split.
  - destruct (search k l) as [i|i] eqn:Hk; [|done]. intros Hi.
    apply search_Ok in Hk as (b & Hb & <-). simplify_eq.
    split; [by eapply list_elem_of_lookup_2|done].
  - intros [Ha Hka]. destruct (search k l) as [i|i] eqn:Hk.
    + apply search_Ok in Hk as (b & Hb & Hkb). rewrite Hb. f_equal.
      apply (ascending_inj l); [done|by eapply list_elem_of_lookup_2|done|congruence].
    + by destruct (search_Err _ _ _ Hk a Ha).
Qed.

Lemma get_by_None k l : get_by k l = None ↔ ∀ a, a ∈ l → key a ≠ k.
Proof.
  unfold get_by. destruct (search k l) as [i|i] eqn:Hk.
  - apply search_Ok in Hk as (b & Hb & Hkb). rewrite Hb. split; [done|].
    intros H. by destruct (H b); [eapply list_elem_of_lookup_2|].
  - split; [|done]. intros _. by apply (search_Err _ _ _ Hk).
Qed.

Lemma get_by_key k l a : get_by k l = Some a → a ∈ l ∧ key a = k.
Proof.
  unfold get_by. destruct (search k l) as [i|i] eqn:Hk; [|done]. intros Hi.
  apply search_Ok in Hk as (b & Hb & <-). simplify_eq. split; [by eapply list_elem_of_lookup_2|done].
Qed.

Lemma search_Err_get k l i : search k l = Err i → get_by k l = None.
Proof. intros H. unfold get_by. by rewrite H. Qed.

Lemma insert_at_Permutation i a l : insert_at i a l ≡ₚ a :: l.
Proof. unfold insert_at. by rewrite <-Permutation_middle, take_drop. Qed.

Lemma insert_at_ascending k l i a :
  ascending l → search k l = Err i → key a = k → ascending (insert_at i a l).
Proof.
  intros Hs Hk <-. pose proof (search_split (key a) l Hs) as Hsp. rewrite Hk in Hsp.
  destruct Hsp as (l1 & l2 & -> & -> & H1 & H2). unfold insert_at, ascending in *.
  rewrite take_app_length, drop_app_length. apply StronglySorted_app in Hs as (Hx & Hs1 & Hs2).
  apply StronglySorted_app. split_and!; [|done|by constructor].
  intros x y Hxin Hyin. apply elem_of_cons in Hyin as [->|Hyin].
  - rewrite Forall_forall in H1. by apply H1.
  - by apply Hx.
Qed.

Lemma delete_Permutation i (l : list A) a : l !! i = Some a → l ≡ₚ a :: delete i l.
Proof. intros H. by rewrite delete_take_drop, Permutation_middle, take_drop_middle. Qed.

Lemma sublist_ascending l1 l2 : l1 `sublist_of` l2 → ascending l2 → ascending l1.
Proof.
  unfold ascending. induction 1 as [|a l1 l2 Hs IH|a l1 l2 Hs IH]; intros H; [done|..].
  - apply StronglySorted_cons in H as [Ha H]. constructor; [by apply IH|].
    rewrite Forall_forall in *. intros b Hb. apply Ha.
    eapply elem_of_submseteq; [exact Hb|by apply sublist_submseteq].
  - apply StronglySorted_cons in H as [_ H]. by apply IH.
Qed.

Lemma delete_ascending i l : ascending l → ascending (delete i l).
Proof.
  apply sublist_ascending. rewrite delete_take_drop. rewrite <-(take_drop i l) at 3.
  apply sublist_app; [done|]. destruct (drop i l) as [|x k] eqn:Hd.
  - rewrite <-Nat.add_1_r, <-drop_drop, Hd. done.
  - rewrite <-Nat.add_1_r, <-drop_drop, Hd. simpl. by apply sublist_cons.
Qed.

(** Replacing an element by one with the same key. *)
Lemma update_ascending i l a b :
  ascending l → l !! i = Some a → key b = key a → ascending (<[i:=b]> l).
Proof.
  intros Hs Hi Hk. unfold ascending in *. rewrite <-(take_drop_middle l i a Hi) in Hs.
  rewrite insert_take_drop by (by eapply lookup_lt_Some).
  apply StronglySorted_app in Hs as (Hx & H1 & H2). apply StronglySorted_cons in H2 as [Ha H2].
  apply StronglySorted_app. split_and!; [|done|].
  - intros x y Hxin Hyin. apply elem_of_cons in Hyin as [->|Hyin].
    + rewrite Hk. apply Hx; [done|left].
    + apply Hx; [done|by right].
  - constructor; [done|]. eapply Forall_impl; [exact Ha|]. intros y Hy. by rewrite Hk.
Qed.

(** The elements after an update, an insertion and a removal. *)
Lemma update_elem i l a b x : ascending l → l !! i = Some a →
  x ∈ <[i:=b]> l ↔ x = b ∨ x ∈ l ∧ key x ≠ key a.
Proof.
  intros Hs Hi. pose proof (ascending_NoDup l Hs) as Hnd.
  rewrite insert_take_drop by (by eapply lookup_lt_Some).
  rewrite <-(take_drop_middle l i a Hi) in Hnd |- * at 3.
  rewrite !elem_of_app, !elem_of_cons. rewrite fmap_app, fmap_cons in Hnd.
  apply NoDup_app in Hnd as (_ & Hd & Hnd). apply NoDup_cons in Hnd as [Hn _].
  assert (H1 : x ∈ take i l → key x ≠ key a).
  { intros Hx Heq. apply (Hd (key x)); [by apply list_elem_of_fmap_2|rewrite Heq; left]. }
  assert (H2 : x ∈ drop (S i) l → key x ≠ key a).
  { intros Hx Heq. apply Hn. rewrite <-Heq. by apply list_elem_of_fmap_2. }
  naive_solver.
Qed.

Lemma delete_elem i l a x : ascending l → l !! i = Some a →
  x ∈ delete i l ↔ x ∈ l ∧ key x ≠ key a.
Proof.
  intros Hs Hi. pose proof (ascending_NoDup l Hs) as Hnd.
  pose proof (delete_Permutation i l a Hi) as Hp.
  assert (Hel : x ∈ l ↔ x = a ∨ x ∈ delete i l).
  { by rewrite Hp, elem_of_cons at 1. }
  rewrite Hp, fmap_cons in Hnd at 1. apply NoDup_cons in Hnd as [Hn _].
  assert (x ∈ delete i l → key x ≠ key a); [|naive_solver].
  intros Hx Heq. apply Hn. rewrite <-Heq. by apply list_elem_of_fmap_2.
Qed.

Lemma fmap_ascending (f : A → A) l :
  (∀ a, key (f a) = key a) → ascending l → ascending (f <$> l).
Proof.
  intros Hf. induction 1 as [|a l Hss IH Ha]; [constructor|]. cbn. constructor; [done|].
  apply Forall_fmap. eapply Forall_impl; [exact Ha|]. intros b Hb. simpl. by rewrite !Hf.
Qed.

End Order.
