(* ===== verification/IdKeys.v ===== *)
(** * Scalars, extensions, keys and descriptors of the identity protocol
      (protocols/krikos-identity/src: types.rs, schema.rs, extension.rs, keys.rs)

    An identifier is the digest of the canonical encoding of the object it names.
    The encoding is that of the postcard crate and the operations on curve points
    are those of the dalek crates; both are classes. *)
From stdpp Require Import base tactics list sorting orders strings countable.
From Stdlib Require Import ZArith Lia Strings.Byte.
From S2P Require Import Prelude Bytes IdTypes SortedVec.

Local Open Scope N_scope.

(** ** Limits (limits.rs) *)

Definition MAX_CONTROLLERS : N := 64.
Definition MAX_POLICY_RULES : N := 64.
Definition MAX_ALGORITHM_PUBLIC_KEY_BYTES : N := 4 * 1024.
Definition MAX_ALGORITHM_SIGNATURE_BYTES : N := 8 * 1024.
Definition MAX_TRANSPARENCY_PROVIDERS : N := 16.
Definition MAX_RECOVERY_GUARDIANS : N := 16.
Definition MAX_EXTENSIONS : N := 32.
Definition MAX_EXTENSION_VALUE_BYTES : N := 16 * 1024.
Definition MAX_TOTAL_EXTENSION_BYTES : N := 64 * 1024.
Definition u32_max : N := 2 ^ 32 - 1.

(** ** Checked arithmetic and bounds *)

(** [u64::checked_add] and [usize::checked_add] with their error. *)
Definition checked_add (resource : string) (x y : N) : result IdentityError N :=
  if x + y <=? usize_max then Ok (x + y) else Err (ArithmeticOverflow resource).

(** [validate_nonempty_bounded_set]. *)
Definition validate_nonempty_bounded_set (resource : string) (length maximum : N)
    : result IdentityError () :=
  if length =? 0 then Err (EmptyCollection resource)
  else if maximum <? length then Err (limit resource length maximum)
  else Ok ().

(** [BoundedVec::new] and [BoundedBytes::new]. *)
Definition bounded {A} (resource : string) (maximum : N) (values : list A)
    : result IdentityError (list A) :=
  if maximum <? len values then Err (limit resource (len values) maximum) else Ok values.

(** Whether two elements at different positions are related. *)
Fixpoint any_pair {A} (p : A → A → bool) (l : list A) : bool :=
  match l with
  | [] => false
  | a :: l => existsb (p a) l || any_pair p l
  end.

(** ** Operation kinds (types.rs) *)

Inductive OperationKind : Type :=
| OpAuthorizeDevice
| OpUpdateDeviceAuthorization
| OpUpdateDeviceMetadata
| OpSuspendDevice
| OpReinstateDevice
| OpRevokeDevice
| OpRotateDeviceKeys
| OpAddController
| OpRemoveController
| OpChangeControlPolicy
| OpChangeRecoveryPolicy
| OpChangeProviderPolicy
| OpBeginRecovery
| OpVetoRecovery
| OpCancelRecovery
| OpFinalizeRecovery
| OpResolveFork
| OpBeginCryptoMigration
| OpActivateCryptoMigration
| OpRetireCryptoSuite
| OpUpgradeProtocol
| OpRetireAccount.

#[global] Instance OperationKind_EqDecision : EqDecision OperationKind.
Proof. solve_decision. Defined.

(** [OperationKind::code]. *)
Definition operation_code (kind : OperationKind) : N :=
  match kind with
  | OpAuthorizeDevice => 1
  | OpUpdateDeviceAuthorization => 2
  | OpUpdateDeviceMetadata => 3
  | OpSuspendDevice => 4
  | OpReinstateDevice => 5
  | OpRevokeDevice => 6
  | OpRotateDeviceKeys => 7
  | OpAddController => 8
  | OpRemoveController => 9
  | OpChangeControlPolicy => 10
  | OpChangeRecoveryPolicy => 11
  | OpChangeProviderPolicy => 12
  | OpBeginRecovery => 13
  | OpVetoRecovery => 14
  | OpCancelRecovery => 15
  | OpFinalizeRecovery => 16
  | OpResolveFork => 17
  | OpBeginCryptoMigration => 18
  | OpActivateCryptoMigration => 19
  | OpRetireCryptoSuite => 20
  | OpUpgradeProtocol => 21
  | OpRetireAccount => 22
  end.

Definition RESERVED_PUBLISH_CHECKPOINT_CODE : N := 23.

(** The variants in the order of their declaration, by which the derived [Ord]
    compares. *)
Definition operation_variants : list OperationKind :=
  [OpAuthorizeDevice; OpUpdateDeviceAuthorization; OpUpdateDeviceMetadata; OpSuspendDevice;
   OpReinstateDevice; OpRevokeDevice; OpRotateDeviceKeys; OpAddController; OpRemoveController;
   OpChangeControlPolicy; OpChangeRecoveryPolicy; OpChangeProviderPolicy; OpBeginRecovery;
   OpVetoRecovery; OpCancelRecovery; OpFinalizeRecovery; OpResolveFork; OpBeginCryptoMigration;
   OpActivateCryptoMigration; OpRetireCryptoSuite; OpUpgradeProtocol; OpRetireAccount].

Definition operation_rank (kind : OperationKind) : N :=
  match list_find (λ k, k = kind) operation_variants with
  | Some (i, _) => N.of_nat i
  | None => len operation_variants
  end.

Definition operation_le (a b : OperationKind) : Prop := operation_rank a <= operation_rank b.

#[global] Instance operation_le_dec : RelDecision operation_le.
Proof. intros a b. unfold operation_le. apply _. Defined.

(** [OperationKind::from_code]. *)
Definition operation_from_code (code : N) : result IdentityError OperationKind :=
  match code with
  | 1 => Ok OpAuthorizeDevice
  | 2 => Ok OpUpdateDeviceAuthorization
  | 3 => Ok OpUpdateDeviceMetadata
  | 4 => Ok OpSuspendDevice
  | 5 => Ok OpReinstateDevice
  | 6 => Ok OpRevokeDevice
  | 7 => Ok OpRotateDeviceKeys
  | 8 => Ok OpAddController
  | 9 => Ok OpRemoveController
  | 10 => Ok OpChangeControlPolicy
  | 11 => Ok OpChangeRecoveryPolicy
  | 12 => Ok OpChangeProviderPolicy
  | 13 => Ok OpBeginRecovery
  | 14 => Ok OpVetoRecovery
  | 15 => Ok OpCancelRecovery
  | 16 => Ok OpFinalizeRecovery
  | 17 => Ok OpResolveFork
  | 18 => Ok OpBeginCryptoMigration
  | 19 => Ok OpActivateCryptoMigration
  | 20 => Ok OpRetireCryptoSuite
  | 21 => Ok OpUpgradeProtocol
  | 22 => Ok OpRetireAccount
  | _ => if code =? RESERVED_PUBLISH_CHECKPOINT_CODE
         then Err (ReservedCodepoint "account operation" code)
         else Err (UnsupportedCodepoint "account operation" code)
  end.

(** ** Extensions (extension.rs) *)

Record Extension : Type := mkExtension {
  ext_code : N;
  ext_critical : bool;
  ext_value : list byte;
}.

#[global] Instance Extension_EqDecision : EqDecision Extension.
Proof. solve_decision. Defined.

Notation Extensions := (list Extension).

Definition extension_new (code : N) (critical : bool) (value : list byte)
    : result IdentityError Extension :=
  if code =? 0 then Err (InvalidExtensionCode code)
  else if MAX_EXTENSION_VALUE_BYTES <? len value
  then Err (limit "extension value bytes" (len value) MAX_EXTENSION_VALUE_BYTES)
  else Ok (mkExtension code critical value).

Fixpoint extensions_ordered (es : Extensions) : result IdentityError () :=
  match es with
  | a :: ((b :: _) as rest) =>
      if ext_code a =? ext_code b then Err (DuplicateExtension (ext_code a))
      else if ext_code b <? ext_code a then Err NonCanonical
      else extensions_ordered rest
  | _ => Ok ()
  end.

Fixpoint extensions_total (total : N) (es : Extensions) : result IdentityError () :=
  match es with
  | [] => Ok ()
  | e :: es =>
      total ← checked_add "total extension bytes" total (len (ext_value e));
      if MAX_TOTAL_EXTENSION_BYTES <? total
      then Err (limit "total extension bytes" total MAX_TOTAL_EXTENSION_BYTES)
      else extensions_total total es
  end.

Definition extensions_from_sorted (es : Extensions) : result IdentityError Extensions :=
  if MAX_EXTENSIONS <? len es then Err (limit "extension fields" (len es) MAX_EXTENSIONS) else
  _ ← extensions_ordered es;
  _ ← extensions_total 0 es;
  Ok es.

(** [Extensions::new]. *)
Definition extensions_new (es : Extensions) : result IdentityError Extensions :=
  if MAX_EXTENSIONS <? len es then Err (limit "extension fields" (len es) MAX_EXTENSIONS)
  else extensions_from_sorted (sort_by N.le ext_code es).

Fixpoint codes_ascending (codes : list N) : bool :=
  match codes with
  | a :: ((b :: _) as rest) => (a <? b) && codes_ascending rest
  | _ => true
  end.

(** [Extensions::validate_critical]: a critical field must be known. *)
Definition validate_critical (known_codes : list N) (es : Extensions) : result IdentityError () :=
  if MAX_EXTENSIONS <? len known_codes
  then Err (limit "known extension codes" (len known_codes) MAX_EXTENSIONS)
  else if negb (codes_ascending known_codes) then Err NonCanonical
  else
    match list_find (λ e, ext_critical e = true ∧ get_by N.le id (ext_code e) known_codes = None) es with
    | Some (_, e) => Err (UnknownCriticalExtension (ext_code e))
    | None => Ok ()
    end.

(** ** Keys (types.rs, schema.rs) *)

(** What the code uses of the curve crates: whether bytes are a compressed point
    of the Edwards curve, whether that point is weak, strict verification of a
    signature, and the product of a point of the Montgomery curve with a clamped
    scalar. *)
Class Curve : Type := {
  verifying_key : list byte → bool;
  key_is_weak : list byte → bool;
  verify_strict : list byte → list byte → list byte → bool;
  mul_clamped : list byte → list byte → list byte;
}.

(** [SigningPublicKey], [AgreementPublicKey] and [ProtocolSignature]: one
    algorithm each, so the bytes. *)
Record SigningPublicKey : Type := mkSigningKey { signing_bytes_of : list byte }.
Record AgreementPublicKey : Type := mkAgreementKey { agreement_bytes_of : list byte }.
Record ProtocolSignature : Type := mkProtocolSignature { signature_bytes_of : list byte }.
Record AlgorithmPublicKey : Type := mkAlgorithmKey { ak_code : N; ak_bytes : list byte }.
Record AlgorithmSignature : Type := mkAlgorithmSignature { as_code : N; as_bytes : list byte }.

#[global] Instance SigningPublicKey_EqDecision : EqDecision SigningPublicKey.
Proof. solve_decision. Defined.
#[global] Instance AgreementPublicKey_EqDecision : EqDecision AgreementPublicKey.
Proof. solve_decision. Defined.
#[global] Instance ProtocolSignature_EqDecision : EqDecision ProtocolSignature.
Proof. solve_decision. Defined.
#[global] Instance AlgorithmPublicKey_EqDecision : EqDecision AlgorithmPublicKey.
Proof. solve_decision. Defined.
#[global] Instance AlgorithmSignature_EqDecision : EqDecision AlgorithmSignature.
Proof. solve_decision. Defined.

Definition ED25519_CODE : N := 1.

Section Keys.
  Context `{HC : Curve}.

(** [SigningPublicKey::ed25519]. *)
Definition signing_key_ed25519 (bytes : list byte) : result IdentityError SigningPublicKey :=
  if negb (verifying_key bytes) then Err (InvalidPublicKey KindSignature)
  else if key_is_weak bytes then Err (InvalidPublicKey KindSignature)
  else Ok (mkSigningKey bytes).

(** From the last byte to the first. *)
Fixpoint big_endian_less_than (xs ys : list byte) : bool :=
  match xs, ys with
  | x :: xs, y :: ys =>
      if Byte.to_N x <? Byte.to_N y then true
      else if Byte.to_N y <? Byte.to_N x then false
      else big_endian_less_than xs ys
  | _, _ => false
  end.

Definition little_endian_less_than (xs ys : list byte) : bool :=
  big_endian_less_than (rev xs) (rev ys).

Definition FIELD_MODULUS : list byte := [xed] ++ replicate 30 xff ++ [x7f].

Definition x25519_public_key_is_valid (bytes : list byte) : bool :=
  if negb (little_endian_less_than bytes FIELD_MODULUS) then false
  else negb (bool_decide (mul_clamped bytes (replicate 32 x42) = replicate 32 x00)).

(** [AgreementPublicKey::x25519]. *)
Definition agreement_key_x25519 (bytes : list byte) : result IdentityError AgreementPublicKey :=
  if x25519_public_key_is_valid bytes then Ok (mkAgreementKey bytes)
  else Err (InvalidPublicKey KindAgreement).

(** [AlgorithmPublicKey::new]. *)
Definition algorithm_key_new (code : N) (bytes : list byte) : result IdentityError AlgorithmPublicKey :=
  if code =? 0 then Err (ZeroValue "signature algorithm code") else
  if bool_decide (bytes = []) then Err (EmptyCollection "algorithm public key bytes") else
  bytes ← bounded "algorithm public key bytes" MAX_ALGORITHM_PUBLIC_KEY_BYTES bytes;
  _ ← (if code =? ED25519_CODE then
         if len bytes =? 32 then (_ ← signing_key_ed25519 bytes; Ok ())
         else Err (InvalidPublicKey KindSignature)
       else Ok ());
  Ok (mkAlgorithmKey code bytes).

(** [AlgorithmSignature::new]. *)
Definition algorithm_signature_new (code : N) (bytes : list byte)
    : result IdentityError AlgorithmSignature :=
  if code =? 0 then Err (ZeroValue "signature algorithm code") else
  if bool_decide (bytes = []) then Err (EmptyCollection "algorithm signature bytes") else
  bytes ← bounded "algorithm signature bytes" MAX_ALGORITHM_SIGNATURE_BYTES bytes;
  _ ← (if (code =? ED25519_CODE) && negb (len bytes =? 64) then Err InvalidEncoding else Ok ());
  Ok (mkAlgorithmSignature code bytes).

End Keys.

(** ** Descriptors (keys.rs) *)

Inductive ControllerClass : Type :=
| PersonalDevice
| HardwareSecurityKey
| OfflineRecovery
| GuardianAccount
| Institutional.

#[global] Instance ControllerClass_EqDecision : EqDecision ControllerClass.
Proof. solve_decision. Defined.

(** [ControllerClass::code]. *)
Definition class_code (class : ControllerClass) : N :=
  match class with
  | PersonalDevice => 1
  | HardwareSecurityKey => 2
  | OfflineRecovery => 3
  | GuardianAccount => 4
  | Institutional => 5
  end.

Inductive ControllerScope : Type :=
| AllV1Operations
| Operations (operations : list OperationKind).

#[global] Instance ControllerScope_EqDecision : EqDecision ControllerScope.
Proof. solve_decision. Defined.

Definition from_sorted_operations (operations : list OperationKind)
    : result IdentityError ControllerScope :=
  _ ← validate_nonempty_bounded_set "controller operation scope" (len operations) MAX_POLICY_RULES;
  _ ← check_ascending N.le operation_code "controller operation scope" operations;
  Ok (Operations operations).

(** [ControllerScope::operations]. *)
Definition scope_operations (operations : list OperationKind) : result IdentityError ControllerScope :=
  from_sorted_operations (sort_by N.le operation_code operations).

(** [ControllerScope::allows]. *)
Definition scope_allows (scope : ControllerScope) (operation : OperationKind) : bool :=
  match scope with
  | AllV1Operations => true
  | Operations operations =>
      match search N.le operation_code (operation_code operation) operations with
      | Ok _ => true
      | Err _ => false
      end
  end.

Record ControllerDescriptor : Type := mkController {
  cd_signing_key : SigningPublicKey;
  cd_class : ControllerClass;
  cd_weight : N;
  cd_scope : ControllerScope;
  cd_extensions : Extensions;
}.

Record ProviderDescriptor : Type := mkProvider {
  pd_signing_key : SigningPublicKey;
  pd_extensions : Extensions;
}.

(** [EndpointPublicKey] is a signing key in the role of an endpoint key. *)
Record DeviceDescriptor : Type := mkDevice {
  dd_application_signing_key : SigningPublicKey;
  dd_agreement_key : AgreementPublicKey;
  dd_endpoint_key : SigningPublicKey;
  dd_extensions : Extensions;
}.

#[global] Instance ControllerDescriptor_EqDecision : EqDecision ControllerDescriptor.
Proof. solve_decision. Defined.
#[global] Instance ProviderDescriptor_EqDecision : EqDecision ProviderDescriptor.
Proof. solve_decision. Defined.
#[global] Instance DeviceDescriptor_EqDecision : EqDecision DeviceDescriptor.
Proof. solve_decision. Defined.

(** [ControllerDescriptor::new]. *)
Definition controller_new (signing_key : SigningPublicKey) (class : ControllerClass) (weight : N)
    (scope : ControllerScope) (extensions : Extensions) : result IdentityError ControllerDescriptor :=
  _ ← validate_critical [] extensions;
  Ok (mkController signing_key class weight scope extensions).

(** [ProviderDescriptor::new]. *)
Definition provider_new (signing_key : SigningPublicKey) (extensions : Extensions)
    : result IdentityError ProviderDescriptor :=
  _ ← validate_critical [] extensions;
  Ok (mkProvider signing_key extensions).

(** [DeviceDescriptor::new]: the three keys differ. *)
Definition device_new (application : SigningPublicKey) (agreement : AgreementPublicKey)
    (endpoint : SigningPublicKey) (extensions : Extensions) : result IdentityError DeviceDescriptor :=
  let application_bytes := signing_bytes_of application in
  let agreement_bytes := agreement_bytes_of agreement in
  let endpoint_bytes := signing_bytes_of endpoint in
  if bool_decide (application_bytes = endpoint_bytes)
     || bool_decide (application_bytes = agreement_bytes)
     || bool_decide (endpoint_bytes = agreement_bytes)
  then Err (InvalidRelationship "device public-key role separation") else
  _ ← validate_critical [] extensions;
  Ok (mkDevice application agreement endpoint extensions).

(** The encodings of the crate. *)
Class KeyWire : Type := {
  wire_controller :: WireFormat ControllerDescriptor;
  wire_provider :: WireFormat ProviderDescriptor;
  wire_device :: WireFormat DeviceDescriptor;
  wire_signing_key :: WireFormat SigningPublicKey;
  wire_algorithm_key :: WireFormat AlgorithmPublicKey;
}.

(** The codec of a type with a limit of its own. *)
Definition limited_codec {A} `{WireFormat A} (maximum : N) (resource : string) : CanonicalCodec A := {|
  RESOURCE := resource;
  MAX_ENCODED_BYTES := maximum;
  encode_canonical := encode_wire;
  decode_canonical := decode_wire;
|}.

(** [derive] of an identifier. *)
Definition derive `{Blake3Hash} {A} `{CanonicalCodec A} (domain : HashDomain) (body : A)
    : result IdentityError Digest :=
  bytes ← to_canonical_bytes body;
  Ok (hash_bytes domain bytes).

Section Ids.
  Context `{HB : Blake3Hash} `{HKW : !KeyWire}.

#[export] Instance controller_codec : CanonicalCodec ControllerDescriptor :=
  wire_codec "controller descriptor bytes".
#[export] Instance provider_codec : CanonicalCodec ProviderDescriptor :=
  wire_codec "provider descriptor bytes".
#[export] Instance device_codec : CanonicalCodec DeviceDescriptor :=
  wire_codec "device descriptor bytes".
#[export] Instance signing_key_codec : CanonicalCodec SigningPublicKey :=
  wire_codec "signing public key bytes".
#[export] Instance algorithm_key_codec : CanonicalCodec AlgorithmPublicKey :=
  wire_codec "algorithm public key bytes".

Definition controller_id (d : ControllerDescriptor) : result IdentityError Digest :=
  derive DomainControllerDescriptor d.

Definition provider_id (d : ProviderDescriptor) : result IdentityError Digest :=
  derive DomainProvider d.

Definition device_id (d : DeviceDescriptor) : result IdentityError Digest :=
  derive DomainDeviceDescriptor d.

(** [ControllerKeyId::for_signing_key] and [ControllerKeyId::for_algorithm_key]. *)
Definition key_id_for_signing_key (key : SigningPublicKey) : result IdentityError Digest :=
  derive DomainControllerKey key.

Definition key_id_for_algorithm_key (key : AlgorithmPublicKey) : result IdentityError Digest :=
  derive DomainControllerKey key.

End Ids.
