(* ===== verification/IdPolicy.v ===== *)
(** * Control, provider and recovery policies
      (protocols/krikos-identity/src/policy.rs)

    A control policy has one rule per operation: who may authorise it, with what
    weight, how fresh the evidence must be and how long it is delayed. *)
From stdpp Require Import base tactics list sorting orders strings countable.
From Stdlib Require Import ZArith Lia Strings.Byte.
From S2P Require Import Prelude Bytes IdTypes SortedVec IdKeys.

Local Open Scope N_scope.

(** ** Selectors *)

(** [ControllerIdSet::from_sorted]; [compare_controller_ids] compares digests by
    their algorithm, of which there is one, and their bytes. *)
Definition id_set_from_sorted (identifiers : list Digest) : result IdentityError (list Digest) :=
  _ ← validate_nonempty_bounded_set "controller selector identifiers" (len identifiers) MAX_CONTROLLERS;
  _ ← check_ascending digest_le id "controller selector identifiers" identifiers;
  Ok identifiers.

(** [ControllerIdSet::new]. *)
Definition id_set_new (identifiers : list Digest) : result IdentityError (list Digest) :=
  id_set_from_sorted (sort_by digest_le id identifiers).

(** [ControllerIdSet::contains]. *)
Definition id_set_contains (identifiers : list Digest) (identifier : Digest) : bool :=
  match search digest_le id identifier identifiers with Ok _ => true | Err _ => false end.

(** [ControllerClassSet::from_sorted]. *)
Definition class_set_from_sorted (classes : list ControllerClass)
    : result IdentityError (list ControllerClass) :=
  _ ← validate_nonempty_bounded_set "controller selector classes" (len classes) MAX_CONTROLLERS;
  _ ← check_ascending N.le class_code "controller selector classes" classes;
  Ok classes.

(** [ControllerClassSet::new]. *)
Definition class_set_new (classes : list ControllerClass) : result IdentityError (list ControllerClass) :=
  class_set_from_sorted (sort_by N.le class_code classes).

(** [ControllerClassSet::contains]. *)
Definition class_set_contains (classes : list ControllerClass) (class : ControllerClass) : bool :=
  match search N.le class_code (class_code class) classes with Ok _ => true | Err _ => false end.

Inductive ControllerSelector : Type :=
| AnyActive
| ControllerIds (identifiers : list Digest)
| ControllerClasses (classes : list ControllerClass).

#[global] Instance ControllerSelector_EqDecision : EqDecision ControllerSelector.
Proof. solve_decision. Defined.

(** [ControllerSelector::explicit_ids]. *)
Definition explicit_ids (selector : ControllerSelector) : option (list Digest) :=
  match selector with ControllerIds identifiers => Some identifiers | _ => None end.

(** ** Rules *)

Record ProviderFreshness : Type := mkFreshness { pf_required : N; pf_maximum_age : N }.

#[global] Instance ProviderFreshness_EqDecision : EqDecision ProviderFreshness.
Proof. solve_decision. Defined.

(** [ProviderFreshness::new]. *)
Definition freshness_new (required maximum_age : N) : result IdentityError ProviderFreshness :=
  if MAX_TRANSPARENCY_PROVIDERS <? required
  then Err (limit "provider freshness quorum" required MAX_TRANSPARENCY_PROVIDERS)
  else if maximum_age =? 0 then Err (ZeroValue "provider freshness maximum age")
  else Ok (mkFreshness required maximum_age).

Inductive FreshnessRequirement : Type :=
| LatestKnown
| RequireProviderQuorum (requirement : ProviderFreshness).

#[global] Instance FreshnessRequirement_EqDecision : EqDecision FreshnessRequirement.
Proof. solve_decision. Defined.

Record PolicyRule : Type := mkRule {
  pr_operation : OperationKind;
  pr_required_weight : N;
  pr_eligible_controllers : ControllerSelector;
  pr_freshness : FreshnessRequirement;
  pr_delay : option N;
  pr_extensions : Extensions;
}.

#[global] Instance PolicyRule_EqDecision : EqDecision PolicyRule.
Proof. solve_decision. Defined.

(** [PolicyRule::new]. *)
Definition rule_new (operation : OperationKind) (required_weight : N)
    (eligible_controllers : ControllerSelector) (freshness : FreshnessRequirement)
    (delay : option N) (extensions : Extensions) : result IdentityError PolicyRule :=
  if bool_decide (delay = Some 0) then Err (ZeroValue "policy delay") else
  _ ← validate_critical [] extensions;
  Ok (mkRule operation required_weight eligible_controllers freshness delay extensions).

Definition rule_code (r : PolicyRule) : N := operation_code (pr_operation r).

(** ** Control policies *)

Record ControlPolicy : Type := mkControlPolicy {
  cp_rules : list PolicyRule;
  cp_default_deny : bool;
  cp_extensions : Extensions;
}.

#[global] Instance ControlPolicy_EqDecision : EqDecision ControlPolicy.
Proof. solve_decision. Defined.

(** [ControlPolicy::from_sorted]. *)
Definition control_policy_from_sorted (rules : list PolicyRule) (default_deny : bool)
    (extensions : Extensions) : result IdentityError ControlPolicy :=
  _ ← validate_nonempty_bounded_set "control policy rules" (len rules) MAX_POLICY_RULES;
  if negb default_deny then Err (InvalidPolicy "non-default-deny control") else
  _ ← check_ascending N.le rule_code "control policy rules" rules;
  _ ← validate_critical [] extensions;
  Ok (mkControlPolicy rules default_deny extensions).

(** [ControlPolicy::new]. *)
Definition control_policy_new (rules : list PolicyRule) (extensions : Extensions)
    : result IdentityError ControlPolicy :=
  control_policy_from_sorted (sort_by N.le rule_code rules) true extensions.

(** [ControlPolicy::rule_for]: the rules were sorted by the code of the operation
    and are searched by the derived order of the operation. *)
Definition rule_for (p : ControlPolicy) (operation : OperationKind) : option PolicyRule :=
  get_by operation_le pr_operation operation (cp_rules p).

(** ** Provider policies *)

Record ReplicatedProviderPolicy : Type := mkReplicated {
  rp_providers : list ProviderDescriptor;
  rp_sufficient_threshold : N;
  rp_preferred_replication : N;
  rp_maximum_evidence_age : N;
}.

Inductive ProviderMode : Type :=
| LocalOnly
| Replicated (policy : ReplicatedProviderPolicy).

Record ProviderPolicy : Type := mkProviderPolicy {
  pp_policy_version : N;
  pp_mode : ProviderMode;
  pp_extensions : Extensions;
}.

#[global] Instance ReplicatedProviderPolicy_EqDecision : EqDecision ReplicatedProviderPolicy.
Proof. solve_decision. Defined.
#[global] Instance ProviderMode_EqDecision : EqDecision ProviderMode.
Proof. solve_decision. Defined.
#[global] Instance ProviderPolicy_EqDecision : EqDecision ProviderPolicy.
Proof. solve_decision. Defined.

(** [ProviderPolicy::from_mode]. *)
Definition provider_policy_from_mode (policy_version : N) (mode : ProviderMode)
    (extensions : Extensions) : result IdentityError ProviderPolicy :=
  _ ← validate_critical [] extensions;
  Ok (mkProviderPolicy policy_version mode extensions).

(** ** Recovery policies *)

(** [GuardianSetRoot::new]. *)
Definition guardian_set_root_new (digest : Digest) : result IdentityError Digest :=
  if bool_decide (digest_bytes digest = replicate 32 x00)
  then Err (InvalidIdentifier "guardian set root")
  else Ok digest.

Record ControllerThreshold : Type := mkControllerThreshold {
  ct_selector : ControllerSelector;
  ct_required_weight : N;
}.

Record GuardianThreshold : Type := mkGuardianThreshold {
  gt_guardian_set_root : Digest;
  gt_guardian_count : N;
  gt_total_weight : N;
  gt_required_weight : N;
}.

Inductive RecoveryAuthority : Type :=
| RecoverByControllers (threshold : ControllerThreshold)
| RecoverByGuardians (threshold : GuardianThreshold).

Record RecoveryPolicy : Type := mkRecoveryPolicy {
  ry_policy_version : N;
  ry_authority : RecoveryAuthority;
  ry_delay : N;
  ry_lifetime : N;
  ry_extensions : Extensions;
}.

#[global] Instance ControllerThreshold_EqDecision : EqDecision ControllerThreshold.
Proof. solve_decision. Defined.
#[global] Instance GuardianThreshold_EqDecision : EqDecision GuardianThreshold.
Proof. solve_decision. Defined.
#[global] Instance RecoveryAuthority_EqDecision : EqDecision RecoveryAuthority.
Proof. solve_decision. Defined.
#[global] Instance RecoveryPolicy_EqDecision : EqDecision RecoveryPolicy.
Proof. solve_decision. Defined.

(** [GuardianThreshold::new]. *)
Definition guardian_threshold_new (root : Digest) (guardian_count total_weight required_weight : N)
    : result IdentityError GuardianThreshold :=
  if guardian_count =? 0 then Err (ZeroValue "recovery guardian count")
  else if MAX_RECOVERY_GUARDIANS <? guardian_count
  then Err (limit "recovery guardian count" guardian_count MAX_RECOVERY_GUARDIANS)
  else if total_weight =? 0 then Err (ZeroValue "recovery guardian total weight")
  else
    let maximum_total := guardian_count * u32_max in
    if usize_max <? maximum_total
    then Err (ArithmeticOverflow "recovery guardian maximum total weight")
    else if (total_weight <? guardian_count) || (maximum_total <? total_weight)
            || (total_weight <? required_weight)
    then Err UnsatisfiableThreshold
    else Ok (mkGuardianThreshold root guardian_count total_weight required_weight).

(** [RecoveryPolicy::new]. *)
Definition recovery_policy_new (policy_version : N) (authority : RecoveryAuthority)
    (delay lifetime : N) (extensions : Extensions) : result IdentityError RecoveryPolicy :=
  if delay =? 0 then Err (ZeroValue "recovery delay")
  else if lifetime =? 0 then Err (ZeroValue "recovery lifetime")
  else if lifetime <=? delay then Err (InvalidPolicy "recovery finalization window")
  else
    _ ← validate_critical [] extensions;
    Ok (mkRecoveryPolicy policy_version authority delay lifetime extensions).

(** ** Serialised forms

    The [Serialize] and [Deserialize] implementations of the module: what is handed
    to postcard, and what is made of what postcard reads. *)

Definition SelectorWire : Type := N * option (list Digest) * option (list N).

Definition selector_serialize (s : ControllerSelector) : SelectorWire :=
  match s with
  | AnyActive => (1, None, None)
  | ControllerIds identifiers => (2, Some identifiers, None)
  | ControllerClasses classes => (3, None, Some (class_code <$> classes))
  end.

(** [ControllerClass::from_code]. *)
Definition class_from_code (code : N) : result IdentityError ControllerClass :=
  match code with
  | 1 => Ok PersonalDevice
  | 2 => Ok HardwareSecurityKey
  | 3 => Ok OfflineRecovery
  | 4 => Ok GuardianAccount
  | 5 => Ok Institutional
  | _ => Err (UnsupportedCodepoint "controller class" code)
  end.

(** An optional field that is read when it is present. *)
Definition option_deserialize {A B} (f : A → result IdentityError B) (o : option A)
    : result IdentityError (option B) :=
  match o with None => Ok None | Some a => b ← f a; Ok (Some b) end.

Definition selector_deserialize (w : SelectorWire) : result IdentityError ControllerSelector :=
  let '(code, identifiers, classes) := w in
  identifiers ← option_deserialize id_set_from_sorted identifiers;
  classes ← option_deserialize
    (λ codes, classes ← collect (class_from_code <$> codes); class_set_from_sorted classes) classes;
  match code, identifiers, classes with
  | 1, None, None => Ok AnyActive
  | 2, Some identifiers, None => Ok (ControllerIds identifiers)
  | 3, None, Some classes => Ok (ControllerClasses classes)
  | 1, _, _ | 2, _, _ | 3, _, _ => Err (InvalidRelationship "controller selector payload")
  | _, _, _ => Err (UnsupportedCodepoint "controller selector" code)
  end.

(** [RequiredWeight::new] and the other non-zero scalars. *)
Definition nonzero (resource : string) (value : N) : result IdentityError N :=
  if value =? 0 then Err (ZeroValue resource) else Ok value.

Definition FreshnessWire : Type := N * option (N * N).

Definition freshness_serialize (f : FreshnessRequirement) : FreshnessWire :=
  match f with
  | LatestKnown => (1, None)
  | RequireProviderQuorum r => (2, Some (pf_required r, pf_maximum_age r))
  end.

Definition freshness_deserialize (w : FreshnessWire) : result IdentityError FreshnessRequirement :=
  let '(code, requirement) := w in
  requirement ← option_deserialize
    (λ '(required, maximum_age), required ← nonzero "provider quorum" required;
                                 freshness_new required maximum_age) requirement;
  match code, requirement with
  | 1, None => Ok LatestKnown
  | 2, Some requirement => Ok (RequireProviderQuorum requirement)
  | 1, _ | 2, _ => Err (InvalidRelationship "freshness requirement payload")
  | _, _ => Err (UnsupportedCodepoint "freshness requirement" code)
  end.

Definition ExtensionsWire : Type := list (N * bool * list byte).

Definition extensions_serialize (es : Extensions) : ExtensionsWire :=
  (λ e, (ext_code e, ext_critical e, ext_value e)) <$> es.

Definition extensions_deserialize (w : ExtensionsWire) : result IdentityError Extensions :=
  es ← collect ((λ '(code, critical, value), extension_new code critical value) <$> w);
  extensions_from_sorted es.

Definition RuleWire : Type := N * N * SelectorWire * FreshnessWire * option N * ExtensionsWire.

Definition rule_serialize (r : PolicyRule) : RuleWire :=
  (operation_code (pr_operation r), pr_required_weight r,
   selector_serialize (pr_eligible_controllers r), freshness_serialize (pr_freshness r),
   pr_delay r, extensions_serialize (pr_extensions r)).

Definition rule_deserialize (w : RuleWire) : result IdentityError PolicyRule :=
  let '(operation, required_weight, selector, freshness, delay, extensions) := w in
  operation ← operation_from_code operation;
  required_weight ← nonzero "required authorization weight" required_weight;
  selector ← selector_deserialize selector;
  freshness ← freshness_deserialize freshness;
  extensions ← extensions_deserialize extensions;
  rule_new operation required_weight selector freshness delay extensions.

Definition ControlPolicyWire : Type := N * list RuleWire * bool * ExtensionsWire.

Definition control_policy_serialize (p : ControlPolicy) : ControlPolicyWire :=
  (1, rule_serialize <$> cp_rules p, cp_default_deny p, extensions_serialize (cp_extensions p)).

(** [ProtocolVersion::new]. *)
Definition protocol_version_new (version : N) : result IdentityError () :=
  if version =? 1 then Ok () else Err (UnsupportedVersion version).

Definition control_policy_deserialize (w : ControlPolicyWire) : result IdentityError ControlPolicy :=
  let '(version, rules, default_deny, extensions) := w in
  _ ← protocol_version_new version;
  rules ← collect (rule_deserialize <$> rules);
  extensions ← extensions_deserialize extensions;
  control_policy_from_sorted rules default_deny extensions.

(** The encodings of the crate. *)
Class PolicyWire : Type := {
  wire_control_policy :: WireFormat ControlPolicyWire;
  wire_provider_policy :: WireFormat ProviderPolicy;
  wire_recovery_policy :: WireFormat RecoveryPolicy;
}.

Section Policies.
  Context `{HB : Blake3Hash} `{HKW : !KeyWire} `{HPW : !PolicyWire}.

(** A control policy is encoded by its serialised form. *)
#[export] Instance control_policy_format : WireFormat ControlPolicy := {
  to_stdvec p := to_stdvec (control_policy_serialize p);
  take_from_bytes bytes :=
    match take_from_bytes bytes with
    | Some (w, rest) =>
        match control_policy_deserialize w with Ok p => Some (p, rest) | Err _ => None end
    | None => None
    end;
}.

#[export] Instance control_policy_codec : CanonicalCodec ControlPolicy :=
  wire_codec "control policy bytes".
#[export] Instance provider_policy_codec : CanonicalCodec ProviderPolicy :=
  wire_codec "provider policy bytes".
#[export] Instance recovery_policy_codec : CanonicalCodec RecoveryPolicy :=
  wire_codec "recovery policy bytes".

Definition control_policy_id (p : ControlPolicy) : result IdentityError Digest :=
  derive DomainControlPolicy p.

Definition provider_policy_id (p : ProviderPolicy) : result IdentityError Digest :=
  derive DomainProviderPolicy p.

Definition recovery_policy_id (p : RecoveryPolicy) : result IdentityError Digest :=
  derive DomainRecoveryPolicy p.

(** ** Checks against the active controllers *)

(** [ControllerSelector::matches_controller]. *)
Definition matches_controller (selector : ControllerSelector) (d : ControllerDescriptor)
    : result IdentityError bool :=
  match selector with
  | AnyActive => Ok true
  | ControllerIds identifiers =>
      identifier ← controller_id d;
      Ok (id_set_contains identifiers identifier)
  | ControllerClasses classes => Ok (class_set_contains classes (cd_class d))
  end.

(** The inner loop of [validate_active_controllers]. *)
Fixpoint no_duplicate_of (controller : ControllerDescriptor) (identifier : Digest)
    (others : list ControllerDescriptor) : result IdentityError () :=
  match others with
  | [] => Ok ()
  | other :: others =>
      if bool_decide (cd_signing_key controller = cd_signing_key other)
      then Err DuplicateSigningKey
      else
        other_id ← controller_id other;
        if bool_decide (identifier = other_id)
        then Err (DuplicateElement "active controller identifiers")
        else no_duplicate_of controller identifier others
  end.

Fixpoint no_duplicates (controllers : list ControllerDescriptor) : result IdentityError () :=
  match controllers with
  | [] => Ok ()
  | controller :: others =>
      identifier ← controller_id controller;
      _ ← no_duplicate_of controller identifier others;
      no_duplicates others
  end.

Definition validate_active_controllers (controllers : list ControllerDescriptor)
    : result IdentityError () :=
  _ ← validate_nonempty_bounded_set "active controllers" (len controllers) MAX_CONTROLLERS;
  no_duplicates controllers.

Fixpoint controller_found (identifier : Digest) (controllers : list ControllerDescriptor)
    : result IdentityError bool :=
  match controllers with
  | [] => Ok false
  | controller :: controllers =>
      other ← controller_id controller;
      if bool_decide (other = identifier) then Ok true else controller_found identifier controllers
  end.

Fixpoint all_found (identifiers : list Digest) (controllers : list ControllerDescriptor)
    : result IdentityError () :=
  match identifiers with
  | [] => Ok ()
  | identifier :: identifiers =>
      found ← controller_found identifier controllers;
      if (found : bool) then all_found identifiers controllers
      else Err (InvalidRelationship "controller selector active membership")
  end.

Definition validate_explicit_controller_references (selector : ControllerSelector)
    (controllers : list ControllerDescriptor) : result IdentityError () :=
  match explicit_ids selector with
  | None => Ok ()
  | Some identifiers => all_found identifiers controllers
  end.

Fixpoint eligible_weight_from (total : N) (selector : ControllerSelector) (operation : OperationKind)
    (controllers : list ControllerDescriptor) : result IdentityError N :=
  match controllers with
  | [] => Ok total
  | controller :: controllers =>
      matching ← matches_controller selector controller;
      total ← (if (matching : bool) && scope_allows (cd_scope controller) operation
               then checked_add "eligible controller weight" total (cd_weight controller)
               else Ok total);
      eligible_weight_from total selector operation controllers
  end.

Definition eligible_weight (selector : ControllerSelector) (operation : OperationKind)
    (controllers : list ControllerDescriptor) : result IdentityError N :=
  eligible_weight_from 0 selector operation controllers.

(** Recovery is authorised by the recovery policy. *)
Definition is_recovery_operation (operation : OperationKind) : bool :=
  match operation with
  | OpBeginRecovery | OpCancelRecovery | OpFinalizeRecovery => true
  | _ => false
  end.

Fixpoint rules_satisfiable (rules : list PolicyRule) (controllers : list ControllerDescriptor)
    : result IdentityError () :=
  match rules with
  | [] => Ok ()
  | rule :: rules =>
      if is_recovery_operation (pr_operation rule) then rules_satisfiable rules controllers else
      _ ← validate_explicit_controller_references (pr_eligible_controllers rule) controllers;
      total ← eligible_weight (pr_eligible_controllers rule) (pr_operation rule) controllers;
      if total <? pr_required_weight rule then Err UnsatisfiableThreshold
      else rules_satisfiable rules controllers
  end.

(** [ControlPolicy::validate_satisfiable]. *)
Definition validate_satisfiable (p : ControlPolicy) (controllers : list ControllerDescriptor)
    : result IdentityError () :=
  _ ← validate_active_controllers controllers;
  rules_satisfiable (cp_rules p) controllers.

Fixpoint threshold_reachable (operations : list OperationKind) (t : ControllerThreshold)
    (controllers : list ControllerDescriptor) : result IdentityError () :=
  match operations with
  | [] => Ok ()
  | operation :: operations =>
      total ← eligible_weight (ct_selector t) operation controllers;
      if total <? ct_required_weight t then Err UnsatisfiableThreshold
      else threshold_reachable operations t controllers
  end.

(** [ControllerThreshold::validate_satisfiable]. *)
Definition threshold_validate_satisfiable (t : ControllerThreshold)
    (controllers : list ControllerDescriptor) : result IdentityError () :=
  _ ← validate_active_controllers controllers;
  _ ← validate_explicit_controller_references (ct_selector t) controllers;
  threshold_reachable [OpBeginRecovery; OpCancelRecovery] t controllers.

(** [RecoveryPolicy::validate_controller_authority]. *)
Definition validate_controller_authority (p : RecoveryPolicy)
    (controllers : list ControllerDescriptor) : result IdentityError () :=
  match ry_authority p with
  | RecoverByControllers threshold => threshold_validate_satisfiable threshold controllers
  | RecoverByGuardians _ => Ok ()
  end.

(** ** Sorted providers *)

(** The descriptors with their identifiers. *)
Definition identified (providers : list ProviderDescriptor)
    : result IdentityError (list (Digest * ProviderDescriptor)) :=
  collect ((λ p, identifier ← provider_id p; Ok (identifier, p)) <$> providers).

(** The windows of [validate_sorted_providers]. *)
Fixpoint providers_ascending (providers : list ProviderDescriptor) : result IdentityError () :=
  match providers with
  | a :: ((b :: _) as rest) =>
      left_id ← provider_id a;
      right_id ← provider_id b;
      match order digest_le left_id right_id with
      | Eq => Err (DuplicateElement "provider policy providers")
      | Gt => Err NonCanonical
      | Lt => providers_ascending rest
      end
  | _ => Ok ()
  end.

Definition validate_sorted_providers (providers : list ProviderDescriptor) : result IdentityError () :=
  if any_pair (λ p q, bool_decide (pd_signing_key p = pd_signing_key q)) providers
  then Err DuplicateSigningKey
  else providers_ascending providers.

Definition sort_providers (providers : list ProviderDescriptor)
    : result IdentityError (list ProviderDescriptor) :=
  keyed ← identified providers;
  let providers := (sort_by digest_le fst keyed).*2 in
  _ ← validate_sorted_providers providers;
  Ok providers.

(** [ReplicatedProviderPolicy::from_sorted]. *)
Definition replicated_from_sorted (providers : list ProviderDescriptor)
    (sufficient preferred maximum_evidence_age : N) : result IdentityError ReplicatedProviderPolicy :=
  _ ← validate_nonempty_bounded_set "provider policy providers" (len providers)
        MAX_TRANSPARENCY_PROVIDERS;
  _ ← validate_sorted_providers providers;
  if (preferred <? sufficient) || (len providers <? preferred)
  then Err (InvalidPolicy "provider threshold")
  else if maximum_evidence_age =? 0 then Err (ZeroValue "provider maximum evidence age")
  else Ok (mkReplicated providers sufficient preferred maximum_evidence_age).

(** [ReplicatedProviderPolicy::new]. *)
Definition replicated_new (providers : list ProviderDescriptor)
    (sufficient preferred maximum_evidence_age : N) : result IdentityError ReplicatedProviderPolicy :=
  if MAX_TRANSPARENCY_PROVIDERS <? len providers
  then Err (limit "provider policy providers" (len providers) MAX_TRANSPARENCY_PROVIDERS)
  else
    providers ← sort_providers providers;
    replicated_from_sorted providers sufficient preferred maximum_evidence_age.

(** [ProviderPolicy::replicated]. *)
Definition provider_policy_replicated (policy_version : N) (providers : list ProviderDescriptor)
    (sufficient preferred maximum_evidence_age : N) (extensions : Extensions)
    : result IdentityError ProviderPolicy :=
  replicated ← replicated_new providers sufficient preferred maximum_evidence_age;
  provider_policy_from_mode policy_version (Replicated replicated) extensions.

End Policies.
