(* ===== verification/IdPolicyProps.v ===== *)
(** * Well-formed policies, and what the checks of policy.rs decide

    The well-formedness of extensions, selectors, rules and policies, that each
    reader accepts exactly what is written of a well-formed value, and what the
    checks against the active controllers compute. *)
From stdpp Require Import base tactics list gmap countable orders sorting strings.
From Stdlib Require Import ZArith Lia Strings.Byte.
From S2P Require Import Prelude Bytes IdTypes ExampleWire SortedVec IdKeys IdPolicy.

Local Open Scope N_scope.

(** ** Readers *)

(** [f] reads what [g] writes of the values that satisfy [W], and nothing else. *)
Definition reads_exactly {A B} (W : A → Prop) (g : A → B) (f : B → result IdentityError A) : Prop :=
  ∀ w a, f w = Ok a ↔ W a ∧ g a = w.

Lemma collect_exact {A B} (W : A → Prop) (g : A → B) f :
  reads_exactly W g f → reads_exactly (Forall W) (fmap g) (λ l, collect (f <$> l)).
Proof.
  intros Hf l k. rewrite collect_fmap_Ok. split.
  - induction 1 as [|w a l k Hw _ [IH <-]]; [done|]. apply Hf in Hw as [? <-].
    split; [by constructor|done].
  - intros [Hk <-]. induction Hk as [|a k Ha _ IH]; cbn; constructor; [by apply Hf|exact IH].
Qed.

Lemma option_exact {A B} (W : A → Prop) (g : A → B) f :
  reads_exactly W g f →
  reads_exactly (λ o, ∀ a, o = Some a → W a) (fmap g) (option_deserialize f).
Proof.
  intros Hf [w|] o; cbn.
  - rewrite bind_Ok. setoid_rewrite Ok_inj_iff. split.
    + intros (a & [Ha <-]%Hf & <-). split; [by intros ? [= <-]|done].
    + destruct o as [a|]; [|by intros [_ [=]]]. intros [Ha [= <-]].
      exists a. split; [|done]. apply Hf. by split; [apply Ha|].
  - rewrite Ok_inj_iff. destruct o; naive_solver.
Qed.

(** ** Operation kinds *)

Lemma operation_code_rank k : operation_code k = operation_rank k + 1.
Proof. by destruct k. Qed.

Lemma operation_code_inj k1 k2 : operation_code k1 = operation_code k2 → k1 = k2.
Proof. destruct k1, k2; done. Qed.

#[global] Instance operation_le_TotalOrder : TotalOrder operation_le.
Proof.
  split; [split; [split|]|].
  - intros k. unfold operation_le. lia.
  - intros k1 k2 k3. unfold operation_le. lia.
  - intros k1 k2 H1 H2. apply operation_code_inj. rewrite !operation_code_rank.
    unfold operation_le in *. lia.
  - intros k1 k2. unfold strict, operation_le. destruct (decide (k1 = k2)) as [->|Hn]; [by right; left|].
    assert (operation_rank k1 ≠ operation_rank k2).
    { intros He. apply Hn, operation_code_inj. rewrite !operation_code_rank. lia. }
    destruct (N.lt_total (operation_rank k1) (operation_rank k2)) as [|[|]]; [left|done|right; right]; lia.
Qed.

Lemma operation_from_code_exact : reads_exactly (λ _, True) operation_code operation_from_code.
Proof.
  intros w k. split; [|intros [_ <-]; by destruct k].
  intros H. split; [done|]. unfold operation_from_code in H.
  repeat match goal with
  | H : match ?p with _ => _ end = Ok _ |- _ => destruct p
  | H : (if ?b then _ else _) = Ok _ |- _ => destruct b
  end; by simplify_eq.
Qed.

Lemma class_code_inj c1 c2 : class_code c1 = class_code c2 → c1 = c2.
Proof. destruct c1, c2; done. Qed.

Lemma class_from_code_exact : reads_exactly (λ _, True) class_code class_from_code.
Proof.
  intros w k. split; [|intros [_ <-]; by destruct k].
  intros H. split; [done|]. unfold class_from_code in H.
  repeat match goal with
  | H : match ?p with _ => _ end = Ok _ |- _ => destruct p
  end; by simplify_eq.
Qed.

(** The order of the codes and the derived order agree. *)
Lemma rules_ascending_derived rules :
  ascending N.le rule_code rules → ascending operation_le pr_operation rules.
Proof.
  induction 1 as [|r rules _ IH Hr]; constructor; [exact IH|].
  rewrite Forall_forall in *. intros r' Hr'. destruct (Hr r' Hr') as [H1 H2]. unfold rule_code in *.
  rewrite !operation_code_rank in *. unfold strict, operation_le. lia.
Qed.

(** ** Well-formed values: what the constructors of the module accept *)

Definition bounded_set {A} (maximum : N) (l : list A) : Prop := 0 < len l ≤ maximum.

Definition value_bytes (es : Extensions) : N := foldr (λ e n, len (ext_value e) + n) 0 es.

Definition wf_extension (e : Extension) : Prop :=
  ext_code e ≠ 0 ∧ len (ext_value e) ≤ MAX_EXTENSION_VALUE_BYTES.

Record wf_extensions (es : Extensions) : Prop := {
  we_count : len es ≤ MAX_EXTENSIONS;
  we_ascending : ascending N.le ext_code es;
  we_total : value_bytes es ≤ MAX_TOTAL_EXTENSION_BYTES;
}.

(** No field has to be understood. *)
Definition no_critical (es : Extensions) : Prop := Forall (λ e, ext_critical e = false) es.

Definition wf_selector (s : ControllerSelector) : Prop :=
  match s with
  | AnyActive => True
  | ControllerIds ids => bounded_set MAX_CONTROLLERS ids ∧ ascending digest_le id ids
  | ControllerClasses cs => bounded_set MAX_CONTROLLERS cs ∧ ascending N.le class_code cs
  end.

Definition wf_freshness (f : FreshnessRequirement) : Prop :=
  match f with
  | LatestKnown => True
  | RequireProviderQuorum r =>
      0 < pf_required r ≤ MAX_TRANSPARENCY_PROVIDERS ∧ pf_maximum_age r ≠ 0
  end.

Record wf_rule (r : PolicyRule) : Prop := {
  wr_weight : pr_required_weight r ≠ 0;
  wr_selector : wf_selector (pr_eligible_controllers r);
  wr_freshness : wf_freshness (pr_freshness r);
  wr_delay : pr_delay r ≠ Some 0;
  wr_extensions : wf_extensions (pr_extensions r) ∧ Forall wf_extension (pr_extensions r);
  wr_critical : no_critical (pr_extensions r);
}.

Record wf_policy (p : ControlPolicy) : Prop := {
  wp_count : bounded_set MAX_POLICY_RULES (cp_rules p);
  wp_rules : Forall wf_rule (cp_rules p);
  wp_ascending : ascending N.le rule_code (cp_rules p);
  wp_default_deny : cp_default_deny p = true;
  wp_extensions : wf_extensions (cp_extensions p) ∧ Forall wf_extension (cp_extensions p);
  wp_critical : no_critical (cp_extensions p);
}.

(** ** What the checks decide *)

Lemma validate_set_Ok {A} resource (l : list A) maximum :
  validate_nonempty_bounded_set resource (len l) maximum = Ok () ↔ bounded_set maximum l.
Proof.
  unfold validate_nonempty_bounded_set, bounded_set. rewrite !guard_Ok, N.eqb_neq, N.ltb_ge.
  split; [intros (? & ? & _)|intros [??]; split_and!]; try done; lia.
Qed.

Lemma validate_critical_Ok es : validate_critical [] es = Ok () ↔ no_critical es.
Proof.
  unfold validate_critical, no_critical. cbn. rewrite Forall_forall.
  destruct (list_find _ es) as [[i e]|] eqn:Hf.
  - apply list_find_Some in Hf as (Hi & [Hc _] & _). split; [done|].
    intros H. rewrite (H e) in Hc; [done|]. by eapply list_elem_of_lookup_2.
  - apply list_find_None in Hf. rewrite Forall_forall in Hf. split; [|done]. intros _ e He.
    destruct (ext_critical e) eqn:Hc; [|done]. by destruct (Hf e He).
Qed.

Lemma extension_new_exact :
  reads_exactly wf_extension (λ e, (ext_code e, ext_critical e, ext_value e))
    (λ '(code, critical, value), extension_new code critical value).
Proof.
  intros [[code critical] value] [c b v]. unfold extension_new, wf_extension. cbn.
  rewrite !guard_Ok, N.eqb_neq, N.ltb_ge, Ok_inj_iff. naive_solver.
Qed.

Lemma extensions_ordered_Ok es : extensions_ordered es = Ok () ↔ ascending N.le ext_code es.
Proof.
  rewrite <-(check_ascending_Ok N.le ext_code "").
  induction es as [|a [|b es] IH]; [done..|]. cbn [extensions_ordered check_ascending].
  pose proof (order_spec N.le (ext_code a) (ext_code b)) as Ho. unfold strict in Ho.
  rewrite guard_Ok, guard_Ok, N.eqb_neq, N.ltb_ge, IH.
  destruct (order _ _ _); [split; [lia|done]|..].
  - split; [by intros (_ & _ & ?)|]. intros ?. split_and!; [lia..|done].
  - split; [lia|done].
Qed.

Lemma extensions_total_Ok total es : total ≤ MAX_TOTAL_EXTENSION_BYTES →
  extensions_total total es = Ok () ↔ total + value_bytes es ≤ MAX_TOTAL_EXTENSION_BYTES.
Proof.
  revert total. induction es as [|e es IH]; intros total Ht; cbn.
  { split; [intros _; lia|done]. }
  rewrite bind_Ok. unfold checked_add. split.
  - intros (t & Hadd & [Hle%N.ltb_ge Hrest]%guard_Ok). destruct (_ <=? _); simplify_eq.
    apply IH in Hrest; [|done]. fold (value_bytes es). lia.
  - fold (value_bytes es). intros Hle. exists (total + len (ext_value e)). split.
    + rewrite (proj2 (N.leb_le _ _)); [done|]. unfold MAX_TOTAL_EXTENSION_BYTES, usize_max in *. lia.
    + apply guard_Ok. rewrite N.ltb_ge, IH; lia.
Qed.

Lemma extensions_from_sorted_Ok es es' :
  extensions_from_sorted es = Ok es' ↔ wf_extensions es ∧ es = es'.
Proof.
  unfold extensions_from_sorted. rewrite guard_Ok, !unit_bind_Ok, N.ltb_ge, Ok_inj_iff.
  rewrite extensions_ordered_Ok, extensions_total_Ok by done. rewrite N.add_0_l.
  split; [by intros (? & ? & ? & ?)|by intros [[] ?]].
Qed.

Lemma extensions_deserialize_exact :
  reads_exactly (λ es, wf_extensions es ∧ Forall wf_extension es)
    extensions_serialize extensions_deserialize.
Proof.
  intros w es. unfold extensions_deserialize. rewrite bind_Ok. setoid_rewrite extensions_from_sorted_Ok.
  pose proof (collect_exact _ _ _ extension_new_exact w) as Hc. cbn beta in Hc. setoid_rewrite Hc.
  unfold extensions_serialize. naive_solver.
Qed.

Lemma id_set_from_sorted_Ok ids ids' :
  id_set_from_sorted ids = Ok ids' ↔ wf_selector (ControllerIds ids') ∧ ids' = ids.
Proof.
  unfold id_set_from_sorted.
  rewrite !unit_bind_Ok, validate_set_Ok, (check_ascending_Ok digest_le id), Ok_inj_iff.
  cbn. naive_solver.
Qed.

Lemma class_set_from_sorted_Ok cs cs' :
  class_set_from_sorted cs = Ok cs' ↔ wf_selector (ControllerClasses cs') ∧ cs' = cs.
Proof.
  unfold class_set_from_sorted.
  rewrite !unit_bind_Ok, validate_set_Ok, (check_ascending_Ok N.le class_code), Ok_inj_iff.
  cbn. naive_solver.
Qed.

Lemma selector_deserialize_exact : reads_exactly wf_selector selector_serialize selector_deserialize.
Proof.
  intros [[code ids] classes] s. unfold selector_deserialize.
  assert (Hids : reads_exactly (λ l, wf_selector (ControllerIds l)) id id_set_from_sorted).
  { intros w l. apply id_set_from_sorted_Ok. }
  assert (Hcls : reads_exactly (λ l, wf_selector (ControllerClasses l)) (fmap class_code)
    (λ codes, classes ← collect (class_from_code <$> codes); class_set_from_sorted classes)).
  { intros w l. rewrite bind_Ok. setoid_rewrite class_set_from_sorted_Ok.
    setoid_rewrite (collect_exact _ _ _ class_from_code_exact w). split.
    - intros (l' & [_ <-] & ? & ->). done.
    - intros [? <-]. exists l. split_and!; [by apply Forall_true|done..]. }
  rewrite bind_Ok. setoid_rewrite bind_Ok.
  setoid_rewrite (option_exact _ _ _ Hids ids). setoid_rewrite (option_exact _ _ _ Hcls classes).
  split.
  - intros (oi & [Hi <-] & oc & [Hc <-] & H).
    repeat match goal with
    | H : match ?p with _ => _ end = Ok _ |- _ => destruct p
    end; simplify_eq; split; try done; [by apply Hc|by apply Hi].
  - intros [Hs Hw]. destruct s as [|l|l]; cbn in Hw; simplify_eq.
    + exists None. split; [done|]. exists None. done.
    + exists (Some l). split; [split; [by intros ? [= <-]|done]|]. by exists None.
    + exists None. split; [done|]. exists (Some l). split; [split; [by intros ? [= <-]|done]|done].
Qed.

Lemma freshness_deserialize_exact :
  reads_exactly wf_freshness freshness_serialize freshness_deserialize.
Proof.
  intros [code r] f. unfold freshness_deserialize.
  assert (Hr : reads_exactly (λ r, wf_freshness (RequireProviderQuorum r))
    (λ r, (pf_required r, pf_maximum_age r))
    (λ '(required, maximum_age), required ← nonzero "provider quorum" required;
                                 freshness_new required maximum_age)).
  { intros [q age] [q' age']. rewrite bind_Ok. unfold nonzero, freshness_new. cbn.
    setoid_rewrite guard_Ok. setoid_rewrite guard_Ok. setoid_rewrite Ok_inj_iff.
    setoid_rewrite N.eqb_neq. setoid_rewrite N.ltb_ge. split.
    - intros (? & [? <-] & ? & ? & [= <- <-]). split; [split; [lia|done]|done].
    - intros [[??] [= <- <-]]. exists q'. split_and!; try done; lia. }
  rewrite bind_Ok. setoid_rewrite (option_exact _ _ _ Hr r). split.
  - intros (o & [Ho <-] & H).
    repeat match goal with
    | H : match ?p with _ => _ end = Ok _ |- _ => destruct p
    end; simplify_eq; split; try done. by apply Ho.
  - intros [Hf Hw]. destruct f as [|q]; cbn in Hw; simplify_eq; [by exists None|].
    exists (Some q). split; [split; [by intros ? [= <-]|done]|done].
Qed.

Lemma nonzero_Ok resource v w : nonzero resource v = Ok w ↔ v ≠ 0 ∧ v = w.
Proof. unfold nonzero. by rewrite guard_Ok, N.eqb_neq, Ok_inj_iff. Qed.

Lemma rule_new_Ok k w s f d es r : rule_new k w s f d es = Ok r ↔
  d ≠ Some 0 ∧ no_critical es ∧ mkRule k w s f d es = r.
Proof.
  unfold rule_new. by rewrite guard_Ok, bool_decide_eq_false, unit_bind_Ok, validate_critical_Ok,
    Ok_inj_iff.
Qed.

Lemma rule_deserialize_exact : reads_exactly wf_rule rule_serialize rule_deserialize.
Proof.
  intros [[[[[k w] s] f] d] es] r. unfold rule_deserialize, rule_serialize.
  rewrite bind_Ok. setoid_rewrite bind_Ok. setoid_rewrite bind_Ok. setoid_rewrite bind_Ok.
  setoid_rewrite bind_Ok. setoid_rewrite rule_new_Ok. setoid_rewrite nonzero_Ok. split.
  - intros (k' & [_ <-]%operation_from_code_exact & w' & [Hw <-] & s' &
      [Hs <-]%selector_deserialize_exact & f' & [Hf <-]%freshness_deserialize_exact & es' &
      [Hes <-]%extensions_deserialize_exact & Hd & Hc & <-). by split; [constructor|].
  - destruct r as [k' w' s' f' d' es']. cbn. intros [[??????] [= <- <- <- <- <- <-]]. cbn in *.
    exists k'. split; [by apply operation_from_code_exact|].
    exists w'. split; [done|]. exists s'. split; [by apply selector_deserialize_exact|].
    exists f'. split; [by apply freshness_deserialize_exact|].
    exists es'. split; [by apply extensions_deserialize_exact|done].
Qed.

Lemma control_policy_from_sorted_Ok rules deny es p :
  control_policy_from_sorted rules deny es = Ok p ↔
  bounded_set MAX_POLICY_RULES rules ∧ deny = true ∧ ascending N.le rule_code rules ∧
  no_critical es ∧ mkControlPolicy rules deny es = p.
Proof.
  unfold control_policy_from_sorted.
  rewrite unit_bind_Ok, guard_Ok, !unit_bind_Ok, validate_set_Ok, (check_ascending_Ok N.le rule_code),
    validate_critical_Ok, Ok_inj_iff. by rewrite negb_false_iff.
Qed.

(** ** Active controllers *)

Section Controllers.
  Context `{HB : Blake3Hash} `{HKW : !KeyWire}.

#[local] Arguments controller_id : simpl never.

(** The controllers [s] selects, the descriptor [c] having the identifier [i]. *)
Definition selects (s : ControllerSelector) (i : Digest) (c : ControllerDescriptor) : Prop :=
  match s with
  | AnyActive => True
  | ControllerIds ids => i ∈ ids
  | ControllerClasses classes => cd_class c ∈ classes
  end.

Definition permits (scope : ControllerScope) (operation : OperationKind) : Prop :=
  match scope with AllV1Operations => True | Operations ops => operation ∈ ops end.

#[export] Instance selects_dec s i c : Decision (selects s i c).
Proof. destruct s; cbn; apply _. Defined.

#[export] Instance permits_dec scope operation : Decision (permits scope operation).
Proof. destruct scope; cbn; apply _. Defined.

(** The weight of the selected controllers whose scope has the operation. *)
Fixpoint selected_weight (s : ControllerSelector) (operation : OperationKind)
    (ids : list Digest) (cs : list ControllerDescriptor) : N :=
  match ids, cs with
  | i :: ids, c :: cs =>
      (if decide (selects s i c ∧ permits (cd_scope c) operation) then cd_weight c else 0)
      + selected_weight s operation ids cs
  | _, _ => 0
  end.

Lemma search_elem {K A} `{!EqDecision K} (R : relation K) `{!RelDecision R} (key : A → K) k l :
  (match search R key k l with Ok _ => true | Err _ => false end) = bool_decide (k ∈ key <$> l).
Proof.
  destruct (search R key k l) as [i|i] eqn:Hk; symmetry.
  - apply bool_decide_eq_true. apply search_Ok in Hk as (a & Ha & <-).
    apply list_elem_of_fmap_2, (list_elem_of_lookup_2 _ _ _ Ha).
  - apply bool_decide_eq_false. intros (a & -> & Ha)%list_elem_of_fmap.
    by apply (search_Err R key _ _ _ Hk a Ha).
Qed.

Lemma matches_controller_spec s c i : controller_id c = Ok i →
  matches_controller s c = Ok (bool_decide (selects s i c)).
Proof.
  intros Hi. destruct s as [|ids|classes]; cbn; [done|..].
  - rewrite Hi. cbn. f_equal. unfold id_set_contains. rewrite search_elem, list_fmap_id.
    by apply bool_decide_ext.
  - f_equal. unfold class_set_contains. rewrite search_elem. apply bool_decide_ext.
    rewrite list_elem_of_fmap. split; [|by exists (cd_class c)].
    by intros (? & <-%class_code_inj & ?).
Qed.

Lemma scope_allows_spec scope operation :
  scope_allows scope operation = bool_decide (permits scope operation).
Proof.
  destruct scope as [|ops]; [done|]. cbn. rewrite search_elem. apply bool_decide_ext.
  rewrite list_elem_of_fmap. split; [|by exists operation].
  by intros (? & <-%operation_code_inj & ?).
Qed.

(** The sum cannot overflow: there are at most [MAX_CONTROLLERS] 32-bit weights. *)
Lemma eligible_weight_from_Ok s operation total cs ids :
  Forall2 (λ c i, controller_id c = Ok i) cs ids →
  Forall (λ c, cd_weight c ≤ u32_max) cs →
  total + len cs * u32_max ≤ usize_max →
  eligible_weight_from total s operation cs = Ok (total + selected_weight s operation ids cs).
Proof.
  intros H. revert total. induction H as [|c i cs ids Hi _ IH]; intros total Hw Hmax; cbn.
  { by rewrite N.add_0_r. }
  apply Forall_cons in Hw as [Hc Hw].
  assert (Hlen : len (c :: cs) = 1 + len cs) by (unfold len; cbn [length]; lia).
  rewrite Hlen in Hmax. rewrite (matches_controller_spec _ _ _ Hi), scope_allows_spec. cbn [mbind result_bind].
  rewrite <-bool_decide_and. case_bool_decide as Hs.
  - rewrite decide_True by done. unfold checked_add. rewrite (proj2 (N.leb_le _ _)) by lia. cbn [mbind result_bind].
    rewrite IH by (done || lia). f_equal; lia.
  - rewrite decide_False by done. cbn [mbind result_bind]. rewrite IH by (done || lia). f_equal; lia.
Qed.

Lemma no_duplicate_of_Ok c i cs : no_duplicate_of c i cs = Ok () ↔
  ∃ ids, Forall2 (λ c i, controller_id c = Ok i) cs ids ∧
    cd_signing_key c ∉ cd_signing_key <$> cs ∧ i ∉ ids.
Proof.
  induction cs as [|c' cs IH]; cbn.
  { split; [|done]. intros _. exists []. split_and!; [done|by apply not_elem_of_nil..]. }
  rewrite guard_Ok, bind_Ok, bool_decide_eq_false. setoid_rewrite guard_Ok.
  setoid_rewrite bool_decide_eq_false. setoid_rewrite IH. split.
  - intros (Hk & i' & Hi' & Hne & ids & Hids & Hkeys & Hn). exists (i' :: ids).
    rewrite !not_elem_of_cons. split_and!; [by constructor|done..].
  - intros (ids' & Hids & Hk & Hn). inversion Hids as [|? i' ? ids Hi' Hr]; subst.
    apply not_elem_of_cons in Hk as [Hk Hks], Hn as [Hn Hns].
    split; [done|]. exists i'. split_and!; [done..|]. by exists ids.
Qed.

Lemma no_duplicates_Ok cs : no_duplicates cs = Ok () ↔
  ∃ ids, Forall2 (λ c i, controller_id c = Ok i) cs ids ∧
    NoDup (cd_signing_key <$> cs) ∧ NoDup ids.
Proof.
  induction cs as [|c cs IH]; cbn.
  { split; [|done]. intros _. exists []. split_and!; constructor. }
  rewrite bind_Ok. setoid_rewrite unit_bind_Ok. setoid_rewrite no_duplicate_of_Ok. setoid_rewrite IH. split.
  - intros (i & Hi & (ids & Hids & Hk & Hn) & ids' & Hids' & Hks & Hns).
    assert (ids = ids') as <-.
    { clear -Hids Hids'. revert ids' Hids'. induction Hids as [|???? H _ IH]; inversion 1; subst; [done|].
      f_equal; [congruence|by apply IH]. }
    exists (i :: ids). split_and!; by constructor.
  - intros (ids' & Hids & Hks & Hns). inversion Hids as [|? i ? ids Hi Hr]; subst.
    apply NoDup_cons in Hks as [Hk Hks], Hns as [Hn Hns].
    exists i. split_and!; [done|by exists ids|by exists ids].
Qed.

Lemma controller_found_spec i cs ids : Forall2 (λ c i, controller_id c = Ok i) cs ids →
  controller_found i cs = Ok (bool_decide (i ∈ ids)).
Proof.
  induction 1 as [|c j cs ids Hj _ IH]; cbn.
  { by rewrite bool_decide_eq_false_2 by apply not_elem_of_nil. }
  rewrite Hj. cbn. destruct (decide (j = i)) as [->|He].
  - rewrite bool_decide_eq_true_2 by done. by rewrite bool_decide_eq_true_2 by (by apply elem_of_cons; left).
  - rewrite bool_decide_eq_false_2 by done. rewrite IH. f_equal. apply bool_decide_ext. rewrite elem_of_cons. naive_solver.
Qed.

Lemma all_found_Ok l cs ids : Forall2 (λ c i, controller_id c = Ok i) cs ids →
  all_found l cs = Ok () ↔ l ⊆ ids.
Proof.
  intros Hids. induction l as [|i l IH]; cbn; [split; [intros _; apply list_subseteq_nil|done]|].
  rewrite (controller_found_spec _ _ _ Hids). cbn. case_bool_decide as Hi.
  - rewrite IH. split; [intros H x [->|Hx]%elem_of_cons; [done|by apply H]|].
    intros H x Hx. apply H, elem_of_cons. by right.
  - split; [done|]. intros H. destruct Hi. apply H, elem_of_cons. by left.
Qed.

Lemma rules_satisfiable_Ok rules cs ids :
  Forall2 (λ c i, controller_id c = Ok i) cs ids →
  bounded_set MAX_CONTROLLERS cs → Forall (λ c, cd_weight c ≤ u32_max) cs →
  rules_satisfiable rules cs = Ok () ↔
  ∀ r, r ∈ rules → is_recovery_operation (pr_operation r) = false →
    (∀ l, explicit_ids (pr_eligible_controllers r) = Some l → l ⊆ ids) ∧
    pr_required_weight r ≤ selected_weight (pr_eligible_controllers r) (pr_operation r) ids cs.
Proof.
  intros Hids Hb Hw. setoid_rewrite <-Forall_forall.
  induction rules as [|r rules IH]; cbn; [by split; constructor|]. rewrite Forall_cons, <-IH.
  destruct (is_recovery_operation _); [naive_solver|].
  rewrite unit_bind_Ok. unfold eligible_weight, validate_explicit_controller_references.
  rewrite (eligible_weight_from_Ok _ _ _ _ _ Hids Hw), N.add_0_l
    by (unfold bounded_set, MAX_CONTROLLERS, u32_max, usize_max in *; lia).
  cbn [mbind result_bind]. rewrite guard_Ok, N.ltb_ge.
  destruct (explicit_ids _) as [l|]; [rewrite (all_found_Ok _ _ _ Hids)|]; naive_solver.
Qed.

End Controllers.

(** * Properties of the control policies

    The serialised form, the lookup of rules and the check that a policy can be
    satisfied, with a concrete policy. *)

(** C20. What is read as a control policy is a well-formed policy, every
    well-formed policy is read back from its serialised form, and that form is the
    only one it is read from: one to [MAX_POLICY_RULES] rules in strictly ascending
    order of their operation, each with a non-zero weight, a canonical selector, a
    bounded freshness and no delay of zero, default deny, and no critical
    extension. *)
Theorem control_policy_typed : ∀ w p,
  control_policy_deserialize w = Ok p ↔ wf_policy p ∧ control_policy_serialize p = w.
Proof.
  intros [[[version rules] deny] es] p.
  unfold control_policy_deserialize, control_policy_serialize, protocol_version_new.
  rewrite unit_bind_Ok, bind_Ok. setoid_rewrite bind_Ok. setoid_rewrite control_policy_from_sorted_Ok.
  pose proof (collect_exact _ _ _ rule_deserialize_exact rules) as Hc. cbn beta in Hc.
  setoid_rewrite Hc. setoid_rewrite (extensions_deserialize_exact es). split.
  - intros (Hv & rs & [Hrs <-] & es' & [Hes <-] & Hb & -> & Ha & Hn & <-).
    destruct (N.eqb_spec version 1); simplify_eq. by split; [constructor|].
  - destruct p as [rs d es']. cbn. intros [[??????] [= <- <- <- <-]]. cbn in *.
    split; [done|]. exists rs. split; [done|]. by exists es'.
Qed.

(** A policy made from a list of rules has, for an operation, exactly the rule
    the list has for it, and none when the list has none, whatever the order of the
    list. The rules are sorted by the code of the operation and searched by the
    derived order of the operation kinds. *)
Theorem control_policy_lookup : ∀ rules es p, control_policy_new rules es = Ok p →
  (∀ operation r, rule_for p operation = Some r ↔ r ∈ rules ∧ pr_operation r = operation) ∧
  (∀ rules', rules' ≡ₚ rules → control_policy_new rules' es = Ok p).
Proof.
  intros rules es p Hnew. unfold control_policy_new in *. pose proof Hnew as Hp.
  apply control_policy_from_sorted_Ok in Hp as (Hb & _ & Ha & Hn & <-). split.
  - intros operation r. unfold rule_for. cbn [cp_rules].
    rewrite (get_by_Some operation_le pr_operation) by (by apply rules_ascending_derived).
    by rewrite (sort_by_Permutation N.le rule_code rules).
  - intros rules' Hr. rewrite <-Hnew. f_equal. apply (sort_by_proper N.le rule_code); [done|].
    apply (ascending_NoDup N.le rule_code) in Ha. rewrite (sort_by_Permutation N.le rule_code rules) in Ha. by rewrite Hr.
Qed.

Section Satisfiable.
  Context `{HB : Blake3Hash} `{HKW : !KeyWire}.

(** C21. A policy is found satisfiable exactly when the controllers are one to
    [MAX_CONTROLLERS], with distinct signing keys and identifiers, and for every
    rule that is not of a recovery the controllers it names are active and the
    controllers it selects, whose scope has the operation, together have the weight
    it requires. With weights of 32 bits the sum never overflows. *)
Theorem satisfiable_exact : ∀ p cs, Forall (λ c, cd_weight c ≤ u32_max) cs →
  validate_satisfiable p cs = Ok () ↔
  ∃ ids, collect (controller_id <$> cs) = Ok ids ∧
    bounded_set MAX_CONTROLLERS cs ∧ NoDup (cd_signing_key <$> cs) ∧ NoDup ids ∧
    ∀ r, r ∈ cp_rules p → is_recovery_operation (pr_operation r) = false →
      (∀ l, explicit_ids (pr_eligible_controllers r) = Some l → l ⊆ ids) ∧
      pr_required_weight r ≤ selected_weight (pr_eligible_controllers r) (pr_operation r) ids cs.
Proof.
  intros p cs Hw. unfold validate_satisfiable, validate_active_controllers.
  rewrite !unit_bind_Ok, validate_set_Ok, no_duplicates_Ok. setoid_rewrite collect_fmap_Ok. split.
  - intros [[Hb (ids & Hids & Hk & Hn)] Hr]. exists ids. split_and!; try done.
    by apply rules_satisfiable_Ok.
  - intros (ids & Hids & Hb & Hk & Hn & Hr). split; [split; [done|by exists ids]|].
    by apply (rules_satisfiable_Ok _ _ ids).
Qed.

End Satisfiable.

(** ** Examples *)

Module PolicyExample.

(** An encoding of descriptors by their key and weight. *)
#[export] Instance key_wire : KeyWire := {
  wire_controller := {|
    to_stdvec c := Some (ExampleWire.put_bytes (signing_bytes_of (cd_signing_key c))
                         ++ ExampleWire.put_nat (N.to_nat (cd_weight c)));
    take_from_bytes _ := None |};
  wire_provider := {| to_stdvec p := Some (signing_bytes_of (pd_signing_key p));
                      take_from_bytes _ := None |};
  wire_device := {| to_stdvec d := Some (signing_bytes_of (dd_endpoint_key d));
                    take_from_bytes _ := None |};
  wire_signing_key := {| to_stdvec k := Some (signing_bytes_of k); take_from_bytes _ := None |};
  wire_algorithm_key := {| to_stdvec k := Some (ak_bytes k); take_from_bytes _ := None |};
}.

Definition controllers : list ControllerDescriptor :=
  [mkController (mkSigningKey [x01]) PersonalDevice 2 AllV1Operations [];
   mkController (mkSigningKey [x02]) HardwareSecurityKey 3 (Operations [OpRevokeDevice]) []].

Definition revoke : PolicyRule := mkRule OpRevokeDevice 5 AnyActive LatestKnown None [].
Definition add : PolicyRule :=
  mkRule OpAddController 2 (ControllerClasses [PersonalDevice]) LatestKnown (Some 7) [].

End PolicyExample.

Lemma control_policy_lookup_witness :
  (∀ operation r,
    rule_for (mkControlPolicy [PolicyExample.revoke; PolicyExample.add] true []) operation = Some r ↔
    r ∈ [PolicyExample.add; PolicyExample.revoke] ∧ pr_operation r = operation) ∧
  rule_for (mkControlPolicy [PolicyExample.revoke; PolicyExample.add] true []) OpRetireAccount = None.
Proof.
  split; [|vm_compute; reflexivity].
  apply (control_policy_lookup [PolicyExample.add; PolicyExample.revoke] []). vm_compute. reflexivity.
Defined.

Lemma satisfiable_exact_witness :
  let p := mkControlPolicy [PolicyExample.revoke; PolicyExample.add] true [] in
  ∃ ids, collect (controller_id (HB:=ExampleWire.hash_id) (HKW:=PolicyExample.key_wire) <$> PolicyExample.controllers) = Ok ids ∧
    ∀ r, r ∈ cp_rules p → is_recovery_operation (pr_operation r) = false →
      pr_required_weight r ≤
      selected_weight (pr_eligible_controllers r) (pr_operation r) ids PolicyExample.controllers.
Proof.
  intros p.
  assert (Hv : validate_satisfiable (HB:=ExampleWire.hash_id) (HKW:=PolicyExample.key_wire) p PolicyExample.controllers = Ok ())
    by (vm_compute; reflexivity).
  apply (satisfiable_exact (HB:=ExampleWire.hash_id) (HKW:=PolicyExample.key_wire)) in Hv as (ids & Hids & _ & _ & _ & H).
  - exists ids. split; [exact Hids|]. intros r Hr Hn. exact (proj2 (H r Hr Hn)).
  - repeat constructor; vm_compute; discriminate.
Defined.
