(* ===== verification/IdProviders.v ===== *)
(** * Heads and receipts of transparency providers
      (protocols/krikos-identity/src/checkpoint.rs)

    A provider keeps an append-only log and signs heads of it. A receipt shows that
    an entry is in the log under a signed head. *)
From stdpp Require Import base tactics list gmap countable orders sorting strings.
From Stdlib Require Import ZArith Lia Strings.Byte.
From S2P Require Import Prelude Bytes IdTypes ExampleWire Merkle MerkleFacts MerkleConsistency MerkleSets MerkleProps SortedVec IdKeys IdPolicy IdPolicyProps.

Local Open Scope N_scope.

Inductive ProviderLogSubject : Type :=
| SubjectCheckpoint (checkpoint_id : Digest)
| SubjectEventIntent (proposal_id : Digest).

Record ProviderLogEntryBody : Type := mkLogEntry {
  le_provider_id : Digest;
  le_log_id : Digest;
  le_account_id : Digest;
  le_subject : ProviderLogSubject;
  le_observed_at : N;
  le_extensions : Extensions;
}.

Record ProviderHeadBody : Type := mkHeadBody {
  hb_provider_id : Digest;
  hb_log_id : Digest;
  hb_key_version : N;
  hb_tree_size : N;
  hb_tree_root : Digest;
  hb_observed_at : N;
  hb_extensions : Extensions;
}.

Record SignedProviderHead : Type := mkSignedHead {
  sh_body : ProviderHeadBody;
  sh_signature : ProtocolSignature;
}.

Record ProviderEquivocationEvidence : Type := mkEquivocation {
  eq_first : SignedProviderHead;
  eq_second : SignedProviderHead;
}.

Record InclusionReceipt : Type := mkReceipt {
  ir_entry : ProviderLogEntryBody;
  ir_leaf_index : N;
  ir_audit_path : list Digest;
  ir_signed_head : SignedProviderHead;
}.

#[global] Instance ProviderLogSubject_EqDecision : EqDecision ProviderLogSubject.
Proof. solve_decision. Defined.
#[global] Instance ProviderLogEntryBody_EqDecision : EqDecision ProviderLogEntryBody.
Proof. solve_decision. Defined.
#[global] Instance ProviderHeadBody_EqDecision : EqDecision ProviderHeadBody.
Proof. solve_decision. Defined.
#[global] Instance SignedProviderHead_EqDecision : EqDecision SignedProviderHead.
Proof. solve_decision. Defined.
#[global] Instance InclusionReceipt_EqDecision : EqDecision InclusionReceipt.
Proof. solve_decision. Defined.

(** [ProviderKeyVersion::GENESIS]. *)
Definition PROVIDER_KEY_GENESIS : N := 0.

Definition PROVIDER_HEAD_SIGNATURE_DOMAIN : list byte :=
  String.list_byte_of_string "KRIKOS-ID/provider-head-signature/v1".

(** [ProviderLogEntryBody::new]. *)
Definition log_entry_new (provider_id log_id account_id : Digest) (subject : ProviderLogSubject)
    (observed_at : N) (extensions : Extensions) : result IdentityError ProviderLogEntryBody :=
  _ ← validate_critical [] extensions;
  Ok (mkLogEntry provider_id log_id account_id subject observed_at extensions).

(** [ProviderHeadBody::new]. *)
Definition head_body_new (provider_id log_id : Digest) (key_version tree_size : N)
    (tree_root : Digest) (observed_at : N) (extensions : Extensions)
    : result IdentityError ProviderHeadBody :=
  if MAX_MERKLE_LOG_LEAVES <? tree_size
  then Err (limit "provider Merkle log tree size" tree_size MAX_MERKLE_LOG_LEAVES) else
  _ ← validate_critical [] extensions;
  Ok (mkHeadBody provider_id log_id key_version tree_size tree_root observed_at extensions).

(** [InclusionReceipt::provider_id]. *)
Definition receipt_provider_id (r : InclusionReceipt) : Digest := le_provider_id (ir_entry r).

(** [InclusionReceipt::new]. *)
Definition receipt_new (entry : ProviderLogEntryBody) (leaf_index : N) (audit_path : list Digest)
    (signed_head : SignedProviderHead) : result IdentityError InclusionReceipt :=
  let head := sh_body signed_head in
  if bool_decide (le_provider_id entry ≠ hb_provider_id head)
     || bool_decide (le_log_id entry ≠ hb_log_id head)
  then Err (InvalidRelationship "provider receipt entry/head")
  else if hb_tree_size head <=? leaf_index
  then Err (InvalidRelationship "provider receipt leaf index/tree size")
  else
    audit_path ← bounded "Merkle audit path" MAX_MERKLE_PROOF_HASHES audit_path;
    Ok (mkReceipt entry leaf_index audit_path signed_head).

(** [ProviderReceipts::from_sorted]. *)
Definition receipts_from_sorted (receipts : list InclusionReceipt)
    : result IdentityError (list InclusionReceipt) :=
  receipts ← bounded "provider receipts" MAX_TRANSPARENCY_PROVIDERS receipts;
  _ ← check_ascending digest_le receipt_provider_id "provider receipts" receipts;
  match receipts with
  | [] => Ok receipts
  | first :: rest =>
      if existsb (λ r, bool_decide (le_account_id (ir_entry r) ≠ le_account_id (ir_entry first))
                       || bool_decide (le_subject (ir_entry r) ≠ le_subject (ir_entry first))) rest
      then Err (InvalidRelationship "provider receipt subject set")
      else Ok receipts
  end.

(** [ProviderReceipts::new]. *)
Definition receipts_new (receipts : list InclusionReceipt) : result IdentityError (list InclusionReceipt) :=
  receipts_from_sorted (sort_by digest_le receipt_provider_id receipts).

(** [ProviderEquivocationEvidence::from_heads]. *)
Definition equivocation_from_heads (first second : SignedProviderHead)
    : result IdentityError ProviderEquivocationEvidence :=
  let a := sh_body first in
  let b := sh_body second in
  if bool_decide (hb_provider_id a ≠ hb_provider_id b) || bool_decide (hb_log_id a ≠ hb_log_id b)
     || negb (hb_tree_size a =? hb_tree_size b) || bool_decide (hb_tree_root a = hb_tree_root b)
  then Err (InvalidRelationship "provider equivocation head pair")
  else Ok (mkEquivocation first second).

(** ** Verification *)

(** The encodings of the module. *)
Class ProviderWire : Type := {
  wire_log_entry :: WireFormat ProviderLogEntryBody;
  wire_head_body :: WireFormat ProviderHeadBody;
}.

Section Verify.
  Context `{HB : Blake3Hash} `{HC : Curve} `{HKW : !KeyWire} `{HPW : !ProviderWire}.
  Context `{HN : !WireFormat (Digest * Digest)}.

#[export] Instance log_entry_codec : CanonicalCodec ProviderLogEntryBody :=
  wire_codec "provider log entry bytes".
#[export] Instance head_body_codec : CanonicalCodec ProviderHeadBody :=
  wire_codec "provider head bytes".

(** [PublicKey::from_bytes], [Signature::try_from] and [PublicKey::verify]. *)
Definition verify_ed25519 (public_key signature message : list byte) : result IdentityError () :=
  if negb (len public_key =? 32) || negb (verifying_key public_key) || negb (len signature =? 64)
     || negb (verify_strict public_key message signature)
  then Err InvalidSignature else Ok ().

(** [ProviderLogEntryBody::merkle_leaf_hash]. *)
Definition merkle_leaf_hash (entry : ProviderLogEntryBody) : result IdentityError Digest :=
  bytes ← to_canonical_bytes entry;
  Ok (hash_bytes DomainProviderLogEntry bytes).

(** [ProviderHeadBody::signing_bytes]. *)
Definition signing_bytes (head : ProviderHeadBody) : result IdentityError (list byte) :=
  body ← to_canonical_bytes head;
  length ← checked_add "provider head signing message length" (len PROVIDER_HEAD_SIGNATURE_DOMAIN) 1;
  _ ← checked_add "provider head signing message length" length (len body);
  Ok (PROVIDER_HEAD_SIGNATURE_DOMAIN ++ [x00] ++ body).

(** [SignedProviderHead::verify]. *)
Definition head_verify (head : SignedProviderHead) (provider : ProviderDescriptor)
    : result IdentityError () :=
  let body := sh_body head in
  identifier ← provider_id provider;
  if bool_decide (identifier ≠ hb_provider_id body)
  then Err (InvalidRelationship "provider head configured descriptor")
  else if negb (hb_key_version body =? PROVIDER_KEY_GENESIS)
  then Err (InvalidRelationship "provider head signing key version")
  else if (hb_tree_size body =? 0) && bool_decide (hb_tree_root body ≠ empty_merkle_root)
  then Err InvalidProof
  else
    let key := signing_bytes_of (pd_signing_key provider) in
    let signature := signature_bytes_of (sh_signature head) in
    if negb (len key =? 32) || negb (verifying_key key) || negb (len signature =? 64)
    then Err InvalidSignature else
    message ← signing_bytes body;
    verify_ed25519 key signature message.

(** [ProviderEquivocationEvidence::new] and [verify]. *)
Definition equivocation_new (provider : ProviderDescriptor) (first second : SignedProviderHead)
    : result IdentityError ProviderEquivocationEvidence :=
  _ ← head_verify first provider;
  _ ← head_verify second provider;
  equivocation_from_heads first second.

Definition equivocation_verify (evidence : ProviderEquivocationEvidence)
    (provider : ProviderDescriptor) : result IdentityError () :=
  _ ← equivocation_new provider (eq_first evidence) (eq_second evidence);
  Ok ().

Definition verify_provider_head_progression (provider : ProviderDescriptor)
    (older newer : SignedProviderHead) (proof : MerkleConsistencyProof) : result IdentityError () :=
  _ ← head_verify older provider;
  _ ← head_verify newer provider;
  let o := sh_body older in
  let n := sh_body newer in
  if bool_decide (hb_provider_id o ≠ hb_provider_id n) || bool_decide (hb_log_id o ≠ hb_log_id n)
  then Err (InvalidRelationship "provider head progression log")
  else if (hb_tree_size n <? hb_tree_size o) || (hb_observed_at n <? hb_observed_at o)
  then Err ProviderRollback
  else if (hb_tree_size n =? hb_tree_size o) && bool_decide (hb_tree_root n ≠ hb_tree_root o)
  then Err ProviderEquivocation
  else if negb (old_size proof =? hb_tree_size o) || negb (new_size proof =? hb_tree_size n)
  then Err InvalidProof
  else consistency_verify proof (hb_tree_root o) (hb_tree_root n).

(** [InclusionReceipt::verify]. *)
Definition receipt_verify (r : InclusionReceipt) (provider : ProviderDescriptor)
    : result IdentityError () :=
  let entry := ir_entry r in
  let head := sh_body (ir_signed_head r) in
  _ ← head_verify (ir_signed_head r) provider;
  if bool_decide (le_provider_id entry ≠ hb_provider_id head)
     || bool_decide (le_log_id entry ≠ hb_log_id head)
  then Err (InvalidRelationship "provider receipt entry/head")
  else if hb_observed_at head <? le_observed_at entry
  then Err (InvalidRelationship "provider head observation time")
  else
    proof ← inclusion_proof_new (ir_leaf_index r) (hb_tree_size head) (ir_audit_path r);
    leaf ← merkle_leaf_hash entry;
    verify_leaf_hash proof leaf (hb_tree_root head).

(** [configured_provider] (verifier.rs). *)
Fixpoint configured_provider (providers : list ProviderDescriptor) (identifier : Digest)
    : result IdentityError (option ProviderDescriptor) :=
  match providers with
  | [] => Ok None
  | provider :: providers =>
      other ← provider_id provider;
      if bool_decide (other = identifier) then Ok (Some provider)
      else configured_provider providers identifier
  end.

End Verify.

(** * A receipt outlives the head it was issued under

    The signed heads of a provider are tied to logs by their roots; the Merkle
    proofs are those of Merkle. *)

Section Providers.
  Context `{HB : Blake3Hash} `{HC : Curve} `{HKW : !KeyWire} `{HPW : !ProviderWire}.
  Context `{HN : !WireFormat (Digest * Digest)} `{HNL : !WireLaws (Digest * Digest)}.

(** The provider signed the encoding of the head, after the domain. *)
Definition signed_by (provider : ProviderDescriptor) (head : SignedProviderHead) : Prop :=
  provider_id provider = Ok (hb_provider_id (sh_body head)) ∧
  ∃ body, to_canonical_bytes (sh_body head) = Ok body ∧
    verify_strict (signing_bytes_of (pd_signing_key provider))
      (PROVIDER_HEAD_SIGNATURE_DOMAIN ++ [x00] ++ body) (signature_bytes_of (sh_signature head)) = true.

(** The head commits to a log: its size and its root. *)
Definition commits (head : SignedProviderHead) (log : AppendOnlyMerkleLog) : Prop :=
  hb_tree_size (sh_body head) = len (leaf_hashes log) ∧
  log_root log = Ok (hb_tree_root (sh_body head)).

Lemma head_verify_Ok head provider : head_verify head provider = Ok () → signed_by provider head.
Proof.
  unfold head_verify, signed_by. rewrite bind_Ok. intros (id & Hid & Hv). revert Hv.
  rewrite !guard_Ok, bool_decide_eq_false, bind_Ok. unfold verify_ed25519, signing_bytes.
  intros (->%dec_stable & _ & _ & _ & m & Hm & Hv). split; [done|].
  apply bind_Ok in Hm as (body & Hb & Hm). apply bind_Ok in Hm as (n & _ & Hm).
  apply bind_Ok in Hm as (n' & _ & [= <-]). exists body. split; [done|].
  apply guard_Ok in Hv as [[_ Hv%negb_false_iff]%orb_false_iff _]. done.
Qed.

(** A receipt that verifies under a head is for the leaf at its index. *)
Lemma receipt_verify_sound r provider log :
  commits (ir_signed_head r) log → len (leaf_hashes log) ≤ MAX_MERKLE_LOG_LEAVES →
  receipt_verify r provider = Ok () →
  signed_by provider (ir_signed_head r) ∧ receipt_provider_id r = hb_provider_id (sh_body (ir_signed_head r)) ∧
  le_observed_at (ir_entry r) ≤ hb_observed_at (sh_body (ir_signed_head r)) ∧
  ∃ leaf, merkle_leaf_hash (ir_entry r) = Ok leaf ∧
    (leaf_hashes log !! N.to_nat (ir_leaf_index r) = Some leaf ∨ collision).
Proof.
  intros [Hsize Hroot] Hmax. unfold receipt_verify. rewrite unit_bind_Ok, !guard_Ok.
  intros (Hh%head_verify_Ok & [Hp _]%orb_false_iff & Ht%N.ltb_ge & Hv).
  apply bool_decide_eq_false, dec_stable in Hp.
  apply bind_Ok in Hv as (proof & Hproof & Hv). apply bind_Ok in Hv as (leaf & Hleaf & Hv).
  split_and!; [done..|]. exists leaf. split; [done|].
  unfold log_root in Hroot. rewrite tree_hash_Ok in Hroot. injection Hroot as Hroot.
  rewrite <-Hroot in Hv. unfold inclusion_proof_new in Hproof.
  apply bind_Ok in Hproof as (path & _ & Hproof). apply guard_Ok in Hproof as [_ Hproof].
  apply bind_Ok in Hproof as (n & _ & Hproof). apply guard_Ok in Hproof as [_ [= <-]].
  apply verify_leaf_hash_sound in Hv; [done|by apply sized_63, log_63|done].
Qed.

(** C24. A provider cannot take back an entry: a receipt that verifies under a head
    of a log, and a verified progression of that head to a newer one, put the entry
    at its index in the newer log as well, and the older log is a prefix of the
    newer. Both heads are signed by the provider, in order of time. Two inputs of
    the hash that collide are the exception. *)
Theorem receipt_survives_progression provider r newer path proof old new :
  commits (ir_signed_head r) old → commits newer new →
  len (leaf_hashes new) ≤ MAX_MERKLE_LOG_LEAVES →
  consistency_proof_new (len (leaf_hashes old)) (len (leaf_hashes new)) path = Ok proof →
  receipt_verify r provider = Ok () →
  verify_provider_head_progression provider (ir_signed_head r) newer proof = Ok () →
  signed_by provider (ir_signed_head r) ∧ signed_by provider newer ∧
  le_observed_at (ir_entry r) ≤ hb_observed_at (sh_body newer) ∧
  ((∃ leaf, merkle_leaf_hash (ir_entry r) = Ok leaf ∧
      leaf_hashes new !! N.to_nat (ir_leaf_index r) = Some leaf) ∧
    leaf_hashes old `prefix_of` leaf_hashes new ∨ collision).
Proof.
  intros Ho Hn Hmax Hp Hr. unfold verify_provider_head_progression.
  rewrite !unit_bind_Ok, !guard_Ok.
  intros (_ & Hnew%head_verify_Ok & _ & [Hle%N.ltb_ge Ht%N.ltb_ge]%orb_false_iff & _ & _ & Hv).
  destruct Hn as [Hns Hnr], (id Ho) as [Hos Hor]. rewrite Hns, Hos in Hle.
  destruct (receipt_verify_sound r provider old) as (Hs & _ & Hobs & leaf & Hleaf & Hin); [done|lia|done|].
  split_and!; [done..|lia|]. unfold log_root in *. rewrite tree_hash_Ok in Hor, Hnr.
  injection Hor as Hor. injection Hnr as Hnr. rewrite <-Hor, <-Hnr in Hv.
  destruct (consistency_prefix _ _ _ _ Hmax Hp Hv) as [Hpre|]; [|by right].
  destruct Hin as [Hin|]; [left|by right]. split; [|done]. exists leaf. split; [done|].
  by eapply prefix_lookup_Some.
Qed.

End Providers.

(** ** An example *)

Module ProviderExample.
Import ExampleWire.

(** Signatures made of the key and of the end of the message. *)
Definition sign (key message : list byte) : list byte :=
  key ++ take 32 (reverse message ++ replicate 32 x00).

#[export] Instance curve : Curve := {
  verifying_key _ := true;
  key_is_weak _ := false;
  verify_strict key message signature := bool_decide (signature = sign key message);
  mul_clamped _ _ := [];
}.

(** An encoding of entries by their time, of heads by their log. *)
#[export] Instance provider_wire : ProviderWire := {
  wire_log_entry := {| to_stdvec e := Some (put_nat (N.to_nat (le_observed_at e)));
                       take_from_bytes _ := None |};
  wire_head_body := {| to_stdvec h := Some (put_nat (N.to_nat (hb_tree_size h))
                                      ++ put_bytes (digest_bytes (hb_tree_root h)));
                       take_from_bytes _ := None |};
}.

#[local] Existing Instance PolicyExample.key_wire.

Definition provider : ProviderDescriptor := mkProvider (mkSigningKey (replicate 32 x07)) [].
Definition id_of_provider : Digest := ok (dig x00) (provider_id provider).
Definition entry : ProviderLogEntryBody :=
  mkLogEntry id_of_provider (dig x02) (dig x03) (SubjectEventIntent (dig x04)) 5 [].
Definition leaf : Digest := ok (dig x00) (merkle_leaf_hash entry).
Definition older : AppendOnlyMerkleLog := mkLog [dig x0a; leaf; dig x0b].
Definition newer : AppendOnlyMerkleLog := mkLog [dig x0a; leaf; dig x0b; dig x0c; dig x0d].

Definition head (log : AppendOnlyMerkleLog) (observed_at : N) : SignedProviderHead :=
  let body := mkHeadBody id_of_provider (dig x02) 0 (len (leaf_hashes log))
    (ok empty_merkle_root (log_root log)) observed_at [] in
  mkSignedHead body (mkProtocolSignature
    (sign (replicate 32 x07) (ok [] (signing_bytes body)))).

Definition receipt : InclusionReceipt :=
  mkReceipt entry 1 (audit_path (ok (mkInclusionProof 0 0 []) (log_inclusion_proof older 1))) (head older 6).
Definition proof : MerkleConsistencyProof :=
  ok (mkConsistencyProof 0 0 []) (log_consistency_proof newer 3).

End ProviderExample.

Import ExampleWire ProviderExample.

Lemma receipt_survives_progression_witness :
  (∃ leaf, merkle_leaf_hash entry = Ok leaf ∧ leaf_hashes newer !! 1%nat = Some leaf) ∧
  leaf_hashes older `prefix_of` leaf_hashes newer ∨ collision.
Proof.
  refine (proj2 (proj2 (proj2 (receipt_survives_progression (HKW:=PolicyExample.key_wire)
    provider receipt (head newer 8) (consistency_path proof) proof older newer _ _ _ _ _ _))));
    [split; evaluate..|evaluate|evaluate|evaluate|evaluate].
Defined.
