(* ===== verification/IdFacts.v ===== *)
(** * What it takes for the checks the identity types share to succeed *)
From stdpp Require Import base tactics list gmap countable orders sorting strings.
From Stdlib Require Import ZArith Lia Strings.Byte.
From S2P Require Import Prelude Bytes IdTypes SortedVec IdKeys.

Local Open Scope N_scope.

Lemma bounded_Ok {A} resource maximum (l l' : list A) :
  bounded resource maximum l = Ok l' ↔ l' = l ∧ len l ≤ maximum.
Proof. unfold bounded. rewrite guard_Ok, N.ltb_ge, Ok_inj_iff. naive_solver. Qed.

Lemma checked_add_Ok resource x y z :
  checked_add resource x y = Ok z ↔ z = x + y ∧ x + y ≤ usize_max.
Proof. unfold checked_add. destruct (N.leb_spec (x + y) usize_max); naive_solver lia. Qed.

(** No two elements at different positions are related. *)
Lemma any_pair_false {A} (p : A → A → bool) l :
  any_pair p l = false ↔ StronglySorted (λ x y, p x y = false) l.
Proof.
  induction l as [|a l IH]; cbn; [split; [constructor|done]|].
  rewrite orb_false_iff, IH, StronglySorted_cons.
  assert (existsb (p a) l = false ↔ Forall (λ y, p a y = false) l) as ->; [|tauto].
  clear IH. induction l as [|b l IH]; cbn; [done|]. by rewrite orb_false_iff, Forall_cons, IH.
Qed.

Lemma existsb_false {A} (p : A → bool) l : existsb p l = false ↔ Forall (λ x, p x = false) l.
Proof. induction l as [|b l IH]; cbn; [done|]. by rewrite orb_false_iff, Forall_cons, IH. Qed.

Lemma forallb_true {A} (p : A → bool) l : forallb p l = true ↔ Forall (λ x, p x = true) l.
Proof. induction l as [|b l IH]; cbn; [done|]. by rewrite andb_true_iff, Forall_cons, IH. Qed.

(** Keys that differ pairwise. *)
Lemma sorted_NoDup {A K} (f : A → K) l : StronglySorted (λ x y, f x ≠ f y) l → NoDup (f <$> l).
Proof.
  induction 1 as [|a l _ IH Ha]; cbn; constructor; [|done].
  rewrite list_elem_of_fmap. intros (b & Heq & Hb). rewrite Forall_forall in Ha. by apply (Ha b).
Qed.

Lemma StronglySorted_impl {A} (R S : relation A) l :
  (∀ x y, R x y → S x y) → StronglySorted R l → StronglySorted S l.
Proof. intros HRS. induction 1; constructor; eauto using Forall_impl. Qed.

Lemma negb_eqb_false x y : negb (x =? y) = false ↔ x = y.
Proof. by rewrite negb_false_iff, N.eqb_eq. Qed.

Lemma bool_ne_false `{EqDecision A} (x y : A) : bool_decide (x ≠ y) = false ↔ x = y.
Proof. rewrite bool_decide_eq_false. split; [apply dec_stable|naive_solver]. Qed.

(** Sums of numbers. *)
Fixpoint sum_with {A} (f : A → N) (l : list A) : N :=
  match l with [] => 0 | a :: l => f a + sum_with f l end.
