(* ===== verification/IdApprovals.v ===== *)
(** * Approvals of controllers (protocols/krikos-identity/src/event.rs)

    A controller approves an event or a checkpoint with one signature per active
    cryptographic suite. Approvals are sorted by their controller and signatures by
    their key, and both are merged when an event arrives more than once. *)
From stdpp Require Import base tactics list gmap countable orders sorting strings.
From Stdlib Require Import ZArith Lia Strings.Byte.
From S2P Require Import Prelude Bytes IdTypes SortedVec IdKeys IdFacts.

Local Open Scope N_scope.

Definition MAX_AUTHORIZATION_SIGNATURES : N := 64.
Definition MAX_ACTIVE_CRYPTO_SUITES : N := 2.

Record KeyedSignature : Type := mkKeyed {
  ks_crypto_suite_id : Digest;
  ks_controller_key_id : Digest;
  ks_signature : AlgorithmSignature;
}.

(** [KeyedSignature::sort_key]. *)
Definition sort_key (s : KeyedSignature) : Digest * Digest :=
  (ks_crypto_suite_id s, ks_controller_key_id s).

(** The order of tuples. *)
Definition sort_key_le : relation (Digest * Digest) := lex_le digest_le digest_le.

Inductive ControllerApprovalSubject : Type :=
| ApproveEvent (event_id admission_evidence_id : Digest)
| ApproveCheckpoint (checkpoint_id : Digest).

Record ControllerApprovalBody : Type := mkApprovalBody {
  ab_controller_id : Digest;
  ab_subject : ControllerApprovalSubject;
  ab_extensions : Extensions;
}.

Record SignedControllerApproval : Type := mkApproval {
  sa_body : ControllerApprovalBody;
  sa_signatures : list KeyedSignature;
}.

#[global] Instance KeyedSignature_EqDecision : EqDecision KeyedSignature.
Proof. solve_decision. Defined.
#[global] Instance ControllerApprovalSubject_EqDecision : EqDecision ControllerApprovalSubject.
Proof. solve_decision. Defined.
#[global] Instance ControllerApprovalBody_EqDecision : EqDecision ControllerApprovalBody.
Proof. solve_decision. Defined.
#[global] Instance SignedControllerApproval_EqDecision : EqDecision SignedControllerApproval.
Proof. solve_decision. Defined.
#[global] Instance sort_key_le_dec : RelDecision sort_key_le.
Proof. unfold sort_key_le. apply _. Defined.
#[global] Instance sort_key_le_TotalOrder : TotalOrder sort_key_le.
Proof. unfold sort_key_le. apply _. Qed.

(** [ControllerApprovalBody::event]. *)
Definition approve_event (controller_id event_id admission_evidence_id : Digest)
    (extensions : Extensions) : result IdentityError ControllerApprovalBody :=
  _ ← validate_critical [] extensions;
  Ok (mkApprovalBody controller_id (ApproveEvent event_id admission_evidence_id) extensions).

(** [ControllerApprovalBody::checkpoint]. *)
Definition approve_checkpoint (controller_id checkpoint_id : Digest) (extensions : Extensions)
    : result IdentityError ControllerApprovalBody :=
  _ ← validate_critical [] extensions;
  Ok (mkApprovalBody controller_id (ApproveCheckpoint checkpoint_id) extensions).

(** [ControllerApprovalBody::checkpoint_id]. *)
Definition body_checkpoint_id (b : ControllerApprovalBody) : option Digest :=
  match ab_subject b with
  | ApproveCheckpoint id => Some id
  | ApproveEvent _ _ => None
  end.

(** [ControllerApprovalBody::event_subject]. *)
Definition event_subject (b : ControllerApprovalBody) : option (Digest * Digest) :=
  match ab_subject b with
  | ApproveEvent event_id admission_evidence_id => Some (event_id, admission_evidence_id)
  | ApproveCheckpoint _ => None
  end.

(** [approval.body().controller_id()]. *)
Definition approval_controller_id (a : SignedControllerApproval) : Digest :=
  ab_controller_id (sa_body a).

(** [SignedControllerApproval::from_sorted]. *)
Definition approval_from_sorted (body : ControllerApprovalBody) (signatures : list KeyedSignature)
    : result IdentityError SignedControllerApproval :=
  if bool_decide (signatures = []) then Err (EmptyCollection "controller approval signatures") else
  signatures ← bounded "controller approval signatures" MAX_ACTIVE_CRYPTO_SUITES signatures;
  _ ← check_ascending sort_key_le sort_key "controller approval signatures" signatures;
  Ok (mkApproval body signatures).

(** [SignedControllerApproval::new]. *)
Definition approval_new (body : ControllerApprovalBody) (signatures : list KeyedSignature)
    : result IdentityError SignedControllerApproval :=
  approval_from_sorted body (sort_by sort_key_le sort_key signatures).

(** The loop of [SignedControllerApproval::merge]: [previous] is the last signature
    that was kept. *)
Fixpoint keep_distinct (previous : option KeyedSignature) (signatures : list KeyedSignature)
    : result IdentityError (list KeyedSignature) :=
  match signatures with
  | [] => Ok []
  | s :: signatures =>
      match previous with
      | Some p =>
          if bool_decide (sort_key p = sort_key s) then
            if bool_decide (p ≠ s) then Err InvalidSignature else keep_distinct previous signatures
          else cons s <$> keep_distinct (Some s) signatures
      | None => cons s <$> keep_distinct (Some s) signatures
      end
  end.

(** [SignedControllerApproval::merge]. *)
Definition approval_merge (a b : SignedControllerApproval)
    : result IdentityError SignedControllerApproval :=
  if bool_decide (sa_body a ≠ sa_body b)
  then Err (InvalidRelationship "merged controller approval body") else
  merged ← keep_distinct None (sort_by sort_key_le sort_key (sa_signatures a ++ sa_signatures b));
  approval_from_sorted (sa_body a) merged.

(** [ControllerApprovals::from_sorted]. *)
Definition approvals_from_sorted (approvals : list SignedControllerApproval)
    : result IdentityError (list SignedControllerApproval) :=
  approvals ← bounded "controller approvals" MAX_AUTHORIZATION_SIGNATURES approvals;
  _ ← check_ascending digest_le approval_controller_id "controller approvals" approvals;
  Ok approvals.

(** [ControllerApprovals::new]. *)
Definition approvals_new (approvals : list SignedControllerApproval)
    : result IdentityError (list SignedControllerApproval) :=
  approvals_from_sorted (sort_by digest_le approval_controller_id approvals).

(** The loop of [ControllerApprovals::merge]. *)
Fixpoint merge_loop (merged others : list SignedControllerApproval)
    : result IdentityError (list SignedControllerApproval) :=
  match others with
  | [] => Ok merged
  | incoming :: others =>
      match search digest_le approval_controller_id (approval_controller_id incoming) merged with
      | Ok index =>
          match merged !! index with
          | Some retained =>
              a ← approval_merge retained incoming;
              merge_loop (<[index := a]> merged) others
          | None => Err StorageCorruption  (* not reached: the index was found *)
          end
      | Err index => merge_loop (insert_at index incoming merged) others
      end
  end.

(** [ControllerApprovals::merge]. *)
Definition approvals_merge (a b : list SignedControllerApproval)
    : result IdentityError (list SignedControllerApproval) :=
  merged ← merge_loop a b;
  approvals_from_sorted merged.

(** * Merging the approvals of controllers is their union

    [signed l body s]: the set [l] has the signature [s] over [body]. A canonical set
    is determined by what it says is signed, and merging two sets succeeds exactly
    when their union has a canonical set. *)

(** ** Canonical values *)

Definition approval_wf (a : SignedControllerApproval) : Prop :=
  approval_from_sorted (sa_body a) (sa_signatures a) = Ok a.

(** What the loop of the merge keeps: sorted, every approval canonical. *)
Definition approvals_sorted (l : list SignedControllerApproval) : Prop :=
  ascending digest_le approval_controller_id l ∧ Forall approval_wf l.

Definition approvals_wf (l : list SignedControllerApproval) : Prop :=
  Forall approval_wf l ∧ approvals_from_sorted l = Ok l.

Definition signed (l : list SignedControllerApproval) (body : ControllerApprovalBody)
    (s : KeyedSignature) : Prop :=
  ∃ a, a ∈ l ∧ sa_body a = body ∧ s ∈ sa_signatures a.

(** ** The signatures of one approval *)

Lemma approval_from_sorted_Ok body sigs a : approval_from_sorted body sigs = Ok a ↔
  a = mkApproval body sigs ∧ sigs ≠ [] ∧ len sigs ≤ MAX_ACTIVE_CRYPTO_SUITES ∧
  ascending sort_key_le sort_key sigs.
Proof.
  unfold approval_from_sorted. rewrite guard_Ok, bool_decide_eq_false, bind_Ok.
  setoid_rewrite bounded_Ok. setoid_rewrite unit_bind_Ok.
  setoid_rewrite (check_ascending_Ok sort_key_le sort_key). setoid_rewrite Ok_inj_iff. naive_solver.
Qed.

Lemma approval_wf_Ok a : approval_wf a ↔
  sa_signatures a ≠ [] ∧ len (sa_signatures a) ≤ MAX_ACTIVE_CRYPTO_SUITES ∧
  ascending sort_key_le sort_key (sa_signatures a).
Proof. unfold approval_wf. rewrite approval_from_sorted_Ok. destruct a. naive_solver. Qed.

(** The loop of the merge keeps one of each signature; it fails when two
    different signatures claim the same key. *)
Lemma keep_distinct_from p l : StronglySorted (key_le sort_key_le sort_key) (p :: l) →
  match keep_distinct (Some p) l with
  | Ok m => ascending sort_key_le sort_key (p :: m) ∧ ∀ s, s ∈ p :: m ↔ s ∈ p :: l
  | Err _ => ∃ s t, s ∈ p :: l ∧ t ∈ p :: l ∧ sort_key s = sort_key t ∧ s ≠ t
  end.
Proof.
  revert p. induction l as [|s l IH]; intros p Hs; cbn [keep_distinct].
  { split; [repeat constructor|done]. }
  inversion_clear Hs as [|? ? Hs' Hall]. apply Forall_cons in Hall as [Hps Hall].
  destruct (decide (sort_key p = sort_key s)) as [Hk|Hk].
  - rewrite bool_decide_true by done. destruct (decide (p = s)) as [->|Hne].
    + rewrite bool_decide_false by naive_solver. specialize (IH s Hs').
      destruct (keep_distinct (Some s) l) as [m|e].
      * destruct IH as [Ha Hm]. split; [done|]. intros t. rewrite Hm, !elem_of_cons. naive_solver.
      * destruct IH as (u & v & Hu & Hv & Huv). exists u, v. split_and!; [by right..|apply Huv|apply Huv].
    + rewrite bool_decide_true by done. exists p, s. split_and!; [left|right; left|done..].
  - rewrite bool_decide_false by done. specialize (IH s Hs').
    destruct (keep_distinct (Some s) l) as [m|e]; cbn [fmap result_fmap].
    + destruct IH as [Ha Hm]. split; [constructor; [done|]|].
      2: { intros t. by rewrite (elem_of_cons _ t p), Hm, <-elem_of_cons. }
      apply Forall_forall. intros t Ht%Hm.
      assert (Hlt : strict sort_key_le (sort_key p) (sort_key s)).
      { split; [done|]. intros ?. by apply Hk, (anti_symm sort_key_le). }
      apply elem_of_cons in Ht as [->|Ht]; [done|].
      inversion_clear Hs' as [|? ? _ Hst]. rewrite Forall_forall in Hst.
      destruct Hlt as [Hle Hnle]. specialize (Hst t Ht). unfold key_le in Hst.
      split; [by etrans|]. intros ?. apply Hnle. by etrans.
    + destruct IH as (u & v & Hu & Hv & Huv). exists u, v. split_and!; [by right..|apply Huv|apply Huv].
Qed.

Lemma keep_distinct_sorted l m :
  keep_distinct None (sort_by sort_key_le sort_key l) = Ok m ↔
  ascending sort_key_le sort_key m ∧ ∀ s, s ∈ m ↔ s ∈ l.
Proof.
  assert (Hel : ∀ s, s ∈ sort_by sort_key_le sort_key l ↔ s ∈ l).
  { intros s. by rewrite (sort_by_Permutation sort_key_le sort_key l). }
  assert (Hs : StronglySorted (key_le sort_key_le sort_key) (sort_by sort_key_le sort_key l)).
  { apply (sort_by_sorted sort_key_le sort_key). }
  setoid_rewrite <-Hel. clear Hel. revert Hs.
  destruct (sort_by sort_key_le sort_key l) as [|p l']; intros Hs.
  { cbn. rewrite Ok_inj_iff. split.
    - intros <-. split; [constructor|done].
    - intros [_ Hm]. destruct m as [|s m]; [done|]. assert (Hin : s ∈ s :: m) by left.
      by apply Hm, elem_of_nil in Hin. }
  cbn [keep_distinct]. pose proof (keep_distinct_from p l' Hs) as Hk.
  destruct (keep_distinct (Some p) l') as [m'|e]; cbn [fmap result_fmap].
  - destruct Hk as [Ha Hm]. rewrite Ok_inj_iff. split; [by intros <-|].
    intros [Ha' Hm']. eapply (ascending_ext sort_key_le sort_key); [done..|].
    intros s. by rewrite Hm, Hm'.
  - split; [done|]. intros [Ha Hm]. destruct Hk as (s & t & Hs1 & Ht & Hk & []).
    by apply (ascending_inj sort_key_le sort_key m); [done|apply Hm..|].
Qed.

(** Merging two approvals takes their union. *)
Lemma approval_merge_Ok a b c : approval_wf a → approval_wf b →
  approval_merge a b = Ok c ↔ approval_wf c ∧ sa_body c = sa_body a ∧ sa_body c = sa_body b ∧
    ∀ s, s ∈ sa_signatures c ↔ s ∈ sa_signatures a ∨ s ∈ sa_signatures b.
Proof.
  intros _ _. unfold approval_merge.
  rewrite guard_Ok, bool_decide_eq_false, bind_Ok, approval_wf_Ok.
  setoid_rewrite keep_distinct_sorted. setoid_rewrite approval_from_sorted_Ok.
  setoid_rewrite elem_of_app. destruct c as [body sigs]. cbn. split.
  - intros (Hb%dec_stable & m & [Ha Hm] & [= -> ->] & Hrest). naive_solver.
  - intros ((Hne & Hlen & Ha) & Hb1 & Hb2 & Hel). split; [intros []; congruence|]. exists sigs.
    subst. split_and!; done.
Qed.

(** ** Sets of approvals *)

Lemma approvals_wf_Ok l : approvals_wf l ↔
  approvals_sorted l ∧ len l ≤ MAX_AUTHORIZATION_SIGNATURES.
Proof.
  unfold approvals_wf, approvals_sorted, approvals_from_sorted.
  rewrite bind_Ok. setoid_rewrite bounded_Ok. setoid_rewrite unit_bind_Ok.
  setoid_rewrite (check_ascending_Ok digest_le approval_controller_id). naive_solver.
Qed.

(** An approval of a sorted set is found by any signature over its body. *)
Lemma signed_inv l a body s : approvals_sorted l → a ∈ l →
  approval_controller_id a = ab_controller_id body → signed l body s →
  sa_body a = body ∧ s ∈ sa_signatures a.
Proof.
  intros [Hs _] Ha Hc (b & Hb & <- & Hin).
  by rewrite (ascending_inj digest_le approval_controller_id l a b).
Qed.

Lemma approval_signature a : approval_wf a → ∃ s, s ∈ sa_signatures a.
Proof.
  intros [Hne _]%approval_wf_Ok. destruct (sa_signatures a) as [|s l]; [done|]. exists s. left.
Qed.

Lemma approval_ext a b : approval_wf a → approval_wf b → sa_body a = sa_body b →
  (∀ s, s ∈ sa_signatures a ↔ s ∈ sa_signatures b) → a = b.
Proof.
  intros (_ & _ & Ha)%approval_wf_Ok (_ & _ & Hb)%approval_wf_Ok Hbody Hext.
  pose proof (ascending_ext sort_key_le sort_key _ _ Ha Hb Hext). destruct a, b. naive_solver.
Qed.

(** A sorted set is determined by what it says is signed. *)
Lemma signed_sub l1 l2 a : approvals_sorted l1 → approvals_sorted l2 →
  (∀ body s, signed l1 body s ↔ signed l2 body s) → a ∈ l1 → a ∈ l2.
Proof.
  intros H1 H2 Hext Ha. pose proof (proj2 H1) as Hw1. pose proof (proj2 H2) as Hw2.
  rewrite Forall_forall in Hw1, Hw2. destruct (approval_signature a (Hw1 a Ha)) as [s Hs].
  destruct (proj1 (Hext (sa_body a) s)) as (b & Hb & Hbody & _); [by exists a|].
  assert (a = b) as ->; [|done]. apply approval_ext; [auto..|done|]. intros t. split; intros Ht.
  - apply (signed_inv l2 b (sa_body a)); [done..| |apply Hext; by exists a].
    by unfold approval_controller_id; rewrite Hbody.
  - apply (signed_inv l1 a (sa_body b)); [done..| |apply Hext; by exists b].
    by unfold approval_controller_id; rewrite Hbody.
Qed.

Lemma signed_ext l1 l2 : approvals_sorted l1 → approvals_sorted l2 →
  (∀ body s, signed l1 body s ↔ signed l2 body s) → l1 = l2.
Proof.
  intros H1 H2 Hext. apply (ascending_ext digest_le approval_controller_id); [apply H1|apply H2|].
  intros a. split; eapply signed_sub; [done..|]. by symmetry.
Qed.

(** One step of the loop adds the signatures of one approval. *)
Lemma merge_step_found ms i x o a : approvals_sorted ms → approval_wf o →
  ms !! i = Some x → approval_controller_id x = approval_controller_id o →
  approval_merge x o = Ok a →
  approvals_sorted (<[i := a]> ms) ∧
  ∀ body s, signed (<[i := a]> ms) body s ↔ signed ms body s ∨ signed [o] body s.
Proof.
  intros [Hs Hw] Ho Hi Hc Hm. assert (Hx : x ∈ ms) by by eapply list_elem_of_lookup_2.
  rewrite (approval_merge_Ok x o a) in Hm by (rewrite ?Forall_forall in Hw; auto).
  destruct Hm as (Ha & Hb1 & Hb2 & Hel). split; [split|].
  - eapply (update_ascending digest_le approval_controller_id); [done..|].
    unfold approval_controller_id. by rewrite Hb1.
  - by apply Forall_insert.
  - intros body s. unfold signed. setoid_rewrite list_elem_of_singleton.
    setoid_rewrite (update_elem digest_le approval_controller_id i ms x a _ Hs Hi). split.
    + intros (b & [->|[Hb _]] & <- & Hin); [|naive_solver].
      apply Hel in Hin as [Hin|Hin]; naive_solver.
    + intros [(b & Hb & <- & Hin)|(b & -> & <- & Hin)]; [|naive_solver].
      destruct (decide (approval_controller_id b = approval_controller_id x)); [|naive_solver].
      assert (b = x) as -> by by apply (ascending_inj digest_le approval_controller_id ms).
      exists a. rewrite Hel. naive_solver.
Qed.

Lemma merge_step_new ms i o : approvals_sorted ms → approval_wf o →
  search digest_le approval_controller_id (approval_controller_id o) ms = Err i →
  approvals_sorted (insert_at i o ms) ∧
  ∀ body s, signed (insert_at i o ms) body s ↔ signed ms body s ∨ signed [o] body s.
Proof.
  intros [Hs Hw] Ho Hi. split; [split|].
  - by eapply (insert_at_ascending digest_le approval_controller_id).
  - rewrite insert_at_Permutation. by constructor.
  - intros body s. unfold signed. setoid_rewrite (insert_at_Permutation i o ms).
    setoid_rewrite list_elem_of_singleton. setoid_rewrite elem_of_cons. naive_solver.
Qed.

Lemma signed_cons o os body s : signed (o :: os) body s ↔ signed [o] body s ∨ signed os body s.
Proof.
  unfold signed. setoid_rewrite list_elem_of_singleton. setoid_rewrite elem_of_cons. naive_solver.
Qed.

Lemma merge_loop_sound ms os m : approvals_sorted ms → Forall approval_wf os →
  merge_loop ms os = Ok m →
  approvals_sorted m ∧ ∀ body s, signed m body s ↔ signed ms body s ∨ signed os body s.
Proof.
  revert ms. induction os as [|o os IH]; intros ms Hs Hos Hm; cbn in Hm.
  { injection Hm as <-. split; [done|]. intros body s. unfold signed at 3.
    setoid_rewrite elem_of_nil. naive_solver. }
  apply Forall_cons in Hos as [Ho Hos]. setoid_rewrite signed_cons.
  destruct (search _ _ _ ms) as [i|i] eqn:Hi.
  - apply (search_Ok digest_le approval_controller_id) in Hi as (x & Hi & Hc).
    rewrite Hi in Hm. apply bind_Ok in Hm as (a & Ha & Hm).
    destruct (merge_step_found ms i x o a) as [Hs' Hu]; [done..|].
    destruct (IH _ Hs' Hos Hm) as [? Hu']. split; [done|]. intros body s.
    rewrite Hu', Hu. tauto.
  - destruct (merge_step_new ms i o) as [Hs' Hu]; [done..|].
    destruct (IH _ Hs' Hos Hm) as [? Hu']. split; [done|]. intros body s. rewrite Hu', Hu. tauto.
Qed.

(** Two approvals of one controller that have a common canonical set merge. *)
Lemma approval_merge_exists ms os x o m : approvals_sorted ms → approvals_sorted os →
  x ∈ ms → o ∈ os → approval_controller_id x = approval_controller_id o → approvals_sorted m →
  (∀ body s, signed m body s ↔ signed ms body s ∨ signed os body s) →
  ∃ a, approval_merge x o = Ok a.
Proof.
  intros Hms Hos Hx Ho Hc Hm Hu. pose proof (proj2 Hms) as Hw1. pose proof (proj2 Hos) as Hw2.
  pose proof (proj2 Hm) as Hw. rewrite Forall_forall in Hw1, Hw2, Hw.
  destruct (approval_signature x) as [s Hs]; [auto|].
  destruct (approval_signature o) as [t Ht]; [auto|].
  assert (signed m (sa_body x) s) as (z & Hz & Hzx & _) by (apply Hu; left; by exists x).
  assert (Hcz : approval_controller_id z = approval_controller_id x).
  { unfold approval_controller_id. by rewrite Hzx. }
  destruct (signed_inv m z (sa_body o) t) as [Hzo _]; [done..| |apply Hu; right; by exists o|].
  { by rewrite Hcz, Hc. }
  exists z. apply approval_merge_Ok; [auto..|]. split_and!; [auto..|]. intros u. split.
  - intros Hin. destruct (proj1 (Hu (sa_body z) u)) as [Hsg|Hsg]; [by exists z|left|right].
    + by apply (signed_inv ms x (sa_body z)).
    + apply (signed_inv os o (sa_body z)); [done..| |done]. by rewrite <-Hc, <-Hcz.
  - intros Hin. apply (signed_inv m z (sa_body z)); [done..|]. apply Hu.
    destruct Hin as [Hin|Hin]; [left; by exists x|right; by exists o].
Qed.

Lemma approvals_sorted_cons o os : approvals_sorted (o :: os) → approval_wf o ∧ approvals_sorted os.
Proof.
  intros [Hs Hw]. apply Forall_cons in Hw as [Ho Hw]. apply StronglySorted_cons in Hs as [_ Hs].
  by repeat split.
Qed.

Lemma merge_loop_complete ms os m : approvals_sorted ms → approvals_sorted os →
  approvals_sorted m → (∀ body s, signed m body s ↔ signed ms body s ∨ signed os body s) →
  merge_loop ms os = Ok m.
Proof.
  revert ms. induction os as [|o os IH]; intros ms Hms Hos Hm Hu; cbn.
  { f_equal. apply signed_ext; [done..|]. intros body s. rewrite Hu. unfold signed at 3.
    setoid_rewrite elem_of_nil. naive_solver. }
  destruct (approvals_sorted_cons o os Hos) as [Ho Hos'].
  destruct (search _ _ _ ms) as [i|i] eqn:Hi.
  - apply (search_Ok digest_le approval_controller_id) in Hi as (x & Hi & Hc). rewrite Hi.
    destruct (approval_merge_exists ms (o :: os) x o m) as [a Ha]; try done.
    { by eapply list_elem_of_lookup_2. } { left. }
    rewrite Ha. cbn. destruct (merge_step_found ms i x o a) as [Hs' Hu']; [done..|].
    apply IH; [done..|]. intros body s. rewrite Hu, Hu', signed_cons. tauto.
  - destruct (merge_step_new ms i o) as [Hs' Hu']; [done..|].
    apply IH; [done..|]. intros body s. rewrite Hu, Hu', signed_cons. tauto.
Qed.

(** C25. Merging two canonical sets of approvals yields the canonical set of exactly
    the signatures of both, and succeeds whenever there is such a set within the
    limits. Hence merging is commutative and idempotent, and associative where all
    the merges succeed. *)
Theorem approvals_merge_union a b c : approvals_wf a → approvals_wf b →
  approvals_merge a b = Ok c ↔
  approvals_wf c ∧ ∀ body s, signed c body s ↔ signed a body s ∨ signed b body s.
Proof.
  intros [Ha _]%approvals_wf_Ok [Hb _]%approvals_wf_Ok. unfold approvals_merge. rewrite bind_Ok. split.
  - intros (m & Hm & Hc). destruct (merge_loop_sound a b m) as [Hs Hu]; [done|apply Hb|done|].
    unfold approvals_from_sorted in Hc. apply bind_Ok in Hc as (m' & [-> Hlen]%bounded_Ok & Hc).
    apply unit_bind_Ok in Hc as [_ [= <-]]. by rewrite approvals_wf_Ok.
  - intros [Hc Hu]. exists c. split; [|apply Hc].
    apply merge_loop_complete; [done..| |done]. by apply approvals_wf_Ok.
Qed.

Module ApprovalsExample.

Definition dig (b : byte) : Digest := mkDigest Blake3_256 [b].
Definition body (controller : byte) : ControllerApprovalBody :=
  mkApprovalBody (dig controller) (ApproveEvent (dig x01) (dig x02)) [].
Definition keyed (key : byte) : KeyedSignature :=
  mkKeyed (dig x03) (dig key) (mkAlgorithmSignature 2 [key]).
Definition one : list SignedControllerApproval :=
  [mkApproval (body x01) [keyed x05]; mkApproval (body x02) [keyed x06]].
Definition two : list SignedControllerApproval :=
  [mkApproval (body x00) [keyed x04]; mkApproval (body x02) [keyed x05; keyed x06]].
Definition both : list SignedControllerApproval :=
  [mkApproval (body x00) [keyed x04]; mkApproval (body x01) [keyed x05];
   mkApproval (body x02) [keyed x05; keyed x06]].

End ApprovalsExample.

Lemma approvals_merge_union_witness :
  approvals_merge ApprovalsExample.one ApprovalsExample.two = Ok ApprovalsExample.both ∧
  ∀ body s, signed ApprovalsExample.both body s ↔
    signed ApprovalsExample.one body s ∨ signed ApprovalsExample.two body s.
Proof.
  split; [vm_compute; reflexivity|].
  apply (approvals_merge_union ApprovalsExample.one ApprovalsExample.two ApprovalsExample.both);
    [split; [repeat constructor|]; vm_compute; reflexivity..|vm_compute; reflexivity].
Defined.
