(* ===== verification/IdGuardians.v ===== *)
(** * Guardians of an account (protocols/krikos-identity/src/recovery.rs)

    A recovery policy commits to a hidden set of guardians by the root of a Merkle
    set. A guardian approves a recovery with a signature and an opening that shows
    its grant in the set; the approvals that verify add up to an authority. *)
From stdpp Require Import base tactics list gmap countable orders sorting strings.
From Stdlib Require Import ZArith Lia Strings.Byte.
From S2P Require Import Prelude Bytes IdTypes Merkle SortedVec IdKeys IdPolicy IdProviders.

Local Open Scope N_scope.

Definition GUARDIAN_GRANT_LEAF_TYPE_TAG : N := 1.
Definition GUARDIAN_GRANT_LEAF_BODY_CODE : N := 1.
Definition GUARDIAN_GRANT_LEAF_VALUE_CODE : N := 2.
Definition GUARDIAN_APPROVAL_SIGNATURE_DOMAIN : list byte :=
  String.list_byte_of_string "KRIKOS-ID/guardian-approval/v1".
Definition MAX_ACCOUNT_EVENT_BYTES : N := 256 * 1024.

Record GuardianGrant : Type := mkGrant {
  gg_protected_account_id : Digest;
  gg_recovery_policy_id : Digest;
  gg_guardian_account_id : Digest;
  gg_guardian_signing_key : SigningPublicKey;
  gg_weight : N;
  gg_valid_from_epoch : N;
  gg_expires_at : option N;
  gg_extensions : Extensions;
}.

Record GuardianGrantOpening : Type := mkOpening {
  go_guardian_grant_id : Digest;
  go_grant : GuardianGrant;
  go_blinding : list byte;
  go_guardian_set_root : Digest;
  go_leaf_index : N;
  go_audit_path : list Digest;
  go_extensions : Extensions;
}.

Inductive GuardianApprovalDecision : Type :=
| DecideBegin
| DecideCancel.

Record GuardianApprovalBody : Type := mkGuardianBody {
  gb_protected_account_id : Digest;
  gb_recovery_id : Digest;
  gb_decision : GuardianApprovalDecision;
  gb_guardian_grant_id : Digest;
  gb_account_epoch : N;
  gb_approved_at : N;
  gb_extensions : Extensions;
}.

Record SignedGuardianApproval : Type := mkGuardianApproval {
  ga_body : GuardianApprovalBody;
  ga_opening : GuardianGrantOpening;
  ga_signature : ProtocolSignature;
}.

Record GuardianAuthorityContext : Type := mkContext {
  gc_protected_account_id : Digest;
  gc_recovery_id : Digest;
  gc_recovery_policy_id : Digest;
  gc_recovery_policy_version : N;
  gc_account_epoch : N;
  gc_decision : GuardianApprovalDecision;
  gc_authority_time : N;
}.

Record VerifiedGuardianAuthority : Type := mkVerifiedAuthority {
  va_context : GuardianAuthorityContext;
  va_guardian_set_root : Digest;
  va_approval_count : N;
  va_total_weight : N;
}.

#[global] Instance GuardianGrant_EqDecision : EqDecision GuardianGrant.
Proof. solve_decision. Defined.
#[global] Instance GuardianGrantOpening_EqDecision : EqDecision GuardianGrantOpening.
Proof. solve_decision. Defined.
#[global] Instance GuardianApprovalDecision_EqDecision : EqDecision GuardianApprovalDecision.
Proof. solve_decision. Defined.
#[global] Instance GuardianApprovalBody_EqDecision : EqDecision GuardianApprovalBody.
Proof. solve_decision. Defined.
#[global] Instance SignedGuardianApproval_EqDecision : EqDecision SignedGuardianApproval.
Proof. solve_decision. Defined.

(** [GuardianGrant::try_new]. *)
Definition grant_new (protected_account_id recovery_policy_id guardian_account_id : Digest)
    (guardian_signing_key : SigningPublicKey) (weight valid_from_epoch : N)
    (expires_at : option N) (extensions : Extensions) : result IdentityError GuardianGrant :=
  if bool_decide (expires_at = Some 0) then Err (ZeroValue "guardian grant expiry") else
  _ ← validate_critical [] extensions;
  Ok (mkGrant protected_account_id recovery_policy_id guardian_account_id guardian_signing_key
        weight valid_from_epoch expires_at extensions).

(** [GuardianApprovalBody::try_new]. *)
Definition guardian_body_new (protected_account_id recovery_id : Digest)
    (decision : GuardianApprovalDecision) (guardian_grant_id : Digest)
    (account_epoch approved_at : N) (extensions : Extensions)
    : result IdentityError GuardianApprovalBody :=
  if approved_at =? 0 then Err (ZeroValue "guardian approval time") else
  _ ← validate_critical [] extensions;
  Ok (mkGuardianBody protected_account_id recovery_id decision guardian_grant_id account_epoch
        approved_at extensions).

(** [SignedGuardianApproval::try_new]. *)
Definition guardian_approval_new (body : GuardianApprovalBody) (opening : GuardianGrantOpening)
    (signature : ProtocolSignature) : result IdentityError SignedGuardianApproval :=
  let grant := go_grant opening in
  if bool_decide (gb_guardian_grant_id body ≠ go_guardian_grant_id opening)
  then Err (InvalidIdentifier "guardian approval grant")
  else if bool_decide (gb_protected_account_id body ≠ gg_protected_account_id grant)
  then Err (InvalidRelationship "guardian approval protected account")
  else if gb_account_epoch body <? gg_valid_from_epoch grant
  then Err (InvalidRelationship "guardian grant start epoch")
  else if match gg_expires_at grant with Some expiry => expiry <=? gb_approved_at body | None => false end
  then Err (InvalidRelationship "expired guardian grant")
  else Ok (mkGuardianApproval body opening signature).

Definition guardian_grant_id_of (a : SignedGuardianApproval) : Digest :=
  gb_guardian_grant_id (ga_body a).

(** The subject all approvals of a set share. *)
Definition same_subject (a first : SignedGuardianApproval) : bool :=
  bool_decide (gb_protected_account_id (ga_body a) = gb_protected_account_id (ga_body first))
  && bool_decide (gb_recovery_id (ga_body a) = gb_recovery_id (ga_body first))
  && bool_decide (gb_decision (ga_body a) = gb_decision (ga_body first))
  && bool_decide (go_guardian_set_root (ga_opening a) = go_guardian_set_root (ga_opening first))
  && bool_decide (gg_recovery_policy_id (go_grant (ga_opening a)) =
                  gg_recovery_policy_id (go_grant (ga_opening first))).

(** Two approvals of one guardian. *)
Definition same_guardian (a b : SignedGuardianApproval) : bool :=
  let left_grant := go_grant (ga_opening a) in
  let right_grant := go_grant (ga_opening b) in
  bool_decide (gg_guardian_account_id left_grant = gg_guardian_account_id right_grant)
  || bool_decide (gg_guardian_signing_key left_grant = gg_guardian_signing_key right_grant)
  || (go_leaf_index (ga_opening a) =? go_leaf_index (ga_opening b)).

(** [GuardianApprovalSet::from_sorted]. *)
Definition guardian_set_from_sorted (approvals : list SignedGuardianApproval)
    : result IdentityError (list SignedGuardianApproval) :=
  if bool_decide (approvals = []) then Err (EmptyCollection "guardian recovery approvals") else
  values ← bounded "guardian recovery approvals" MAX_RECOVERY_GUARDIANS approvals;
  _ ← check_ascending digest_le guardian_grant_id_of "guardian recovery approvals" values;
  match values with
  | [] => Err (EmptyCollection "guardian recovery approvals")  (* not reached: checked above *)
  | first :: rest =>
      if existsb (λ a, negb (same_subject a first)) rest
      then Err (InvalidRelationship "guardian approval set subject")
      else if any_pair same_guardian values then Err (DuplicateElement "guardian authority")
      else Ok values
  end.

(** [GuardianApprovalSet::try_new]. *)
Definition guardian_set_new (approvals : list SignedGuardianApproval)
    : result IdentityError (list SignedGuardianApproval) :=
  guardian_set_from_sorted (sort_by digest_le guardian_grant_id_of approvals).

(** The loop of [GuardianApprovalSet::merge]. *)
Fixpoint guardian_merge_loop (merged others : list SignedGuardianApproval)
    : result IdentityError (list SignedGuardianApproval) :=
  match others with
  | [] => Ok merged
  | approval :: others =>
      match list_find (λ c, guardian_grant_id_of c = guardian_grant_id_of approval) merged with
      | Some (_, existing) =>
          if bool_decide (existing = approval) then guardian_merge_loop merged others
          else Err (InvalidRelationship "conflicting guardian approval")
      | None =>
          if len merged =? MAX_RECOVERY_GUARDIANS
          then Err (limit "guardian recovery approvals" (len merged + 1) MAX_RECOVERY_GUARDIANS)
          else guardian_merge_loop (merged ++ [approval]) others
      end
  end.

(** [GuardianApprovalSet::merge]: sets are not empty, and their subject is that of
    their first approval. *)
Definition guardian_set_merge (a b : list SignedGuardianApproval)
    : result IdentityError (list SignedGuardianApproval) :=
  match a, b with
  | x :: _, y :: _ =>
      if negb (same_subject y x) then Err (InvalidRelationship "guardian approval merge subject")
      else merged ← guardian_merge_loop a b; guardian_set_new merged
  | _, _ => Err (EmptyCollection "guardian recovery approvals")  (* not reached *)
  end.

(** [GuardianAuthorityContext::try_new]. *)
Definition context_new (protected_account_id recovery_id recovery_policy_id : Digest)
    (recovery_policy_version account_epoch : N) (decision : GuardianApprovalDecision)
    (authority_time : N) : result IdentityError GuardianAuthorityContext :=
  if authority_time =? 0 then Err (ZeroValue "guardian authority time") else
  Ok (mkContext protected_account_id recovery_id recovery_policy_id recovery_policy_version
        account_epoch decision authority_time).

(** ** Identifiers and verification *)

(** The version of the protocol in encodings. *)
Definition PROTOCOL_V1 : N := 1.

(** What is hashed to the blinded leaf of a grant. *)
Definition LeafBody : Type :=
  N * N * Digest * Digest * SigningPublicKey * N * N * option N * Extensions * list byte.

(** The encodings of the module. *)
Class GuardianWire : Type := {
  wire_leaf_body :: WireFormat LeafBody;
  wire_leaf_value :: WireFormat (N * Digest);
  wire_grant :: WireFormat (N * GuardianGrant * list byte);
  wire_guardian_body :: WireFormat GuardianApprovalBody;
}.

Section Guardians.
  Context `{HB : Blake3Hash} `{HC : Curve} `{HPW : !PolicyWire} `{HGW : !GuardianWire}.
  Context `{HN : !WireFormat (Digest * Digest)} `{HL : !WireFormat (N * Digest * Digest)}.

(** [GuardianGrant::blinded_merkle_leaf]. *)
Definition blinded_merkle_leaf (grant : GuardianGrant) (blinding : list byte)
    : result IdentityError MerkleSetLeaf :=
  leaf_body ← encode_wire (GUARDIAN_GRANT_LEAF_BODY_CODE, PROTOCOL_V1,
    gg_protected_account_id grant, gg_guardian_account_id grant, gg_guardian_signing_key grant,
    gg_weight grant, gg_valid_from_epoch grant, gg_expires_at grant, gg_extensions grant, blinding);
  let leaf_id := hash_bytes DomainGuardianGrant leaf_body in
  value_body ← encode_wire (GUARDIAN_GRANT_LEAF_VALUE_CODE, leaf_id);
  let value_hash := hash_bytes DomainGuardianGrant value_body in
  key ← MerkleSetKey_new GUARDIAN_GRANT_LEAF_TYPE_TAG leaf_id;
  Ok (mkMerkleSetLeaf key value_hash).

(** [GuardianGrantOpening::derive_grant_id]. *)
Definition derive_grant_id (grant : GuardianGrant) (blinding : list byte)
    : result IdentityError Digest :=
  encoded ← encode_wire (PROTOCOL_V1, grant, blinding);
  Ok (hash_bytes DomainGuardianGrant encoded).

(** [GuardianGrantOpening::from_wire]. *)
Definition opening_from_wire (guardian_grant_id : Digest) (grant : GuardianGrant)
    (blinding : list byte) (guardian_set_root : Digest) (leaf_index : N)
    (audit_path : list Digest) (extensions : Extensions) : result IdentityError GuardianGrantOpening :=
  if MAX_RECOVERY_GUARDIANS <=? leaf_index
  then Err (limit "guardian membership leaf index" leaf_index (MAX_RECOVERY_GUARDIANS - 1)) else
  expected ← derive_grant_id grant blinding;
  if bool_decide (guardian_grant_id ≠ expected)
  then Err (InvalidIdentifier "guardian grant opening") else
  _ ← validate_critical [] extensions;
  audit_path ← bounded "guardian membership audit path" MAX_MERKLE_PROOF_HASHES audit_path;
  Ok (mkOpening guardian_grant_id grant blinding guardian_set_root leaf_index audit_path extensions).

(** [GuardianGrantOpening::try_new]. *)
Definition opening_new (grant : GuardianGrant) (blinding : list byte) (guardian_set_root : Digest)
    (leaf_index : N) (audit_path : list Digest) (extensions : Extensions)
    : result IdentityError GuardianGrantOpening :=
  guardian_grant_id ← derive_grant_id grant blinding;
  opening_from_wire guardian_grant_id grant blinding guardian_set_root leaf_index audit_path extensions.

(** [GuardianApprovalBody::signing_bytes]. *)
Definition guardian_signing_bytes (b : GuardianApprovalBody) : result IdentityError (list byte) :=
  body ← encode_wire b;
  length ← checked_add "guardian approval signing message bytes" (len GUARDIAN_APPROVAL_SIGNATURE_DOMAIN) 1;
  _ ← checked_add "guardian approval signing message bytes" length (len body);
  Ok (GUARDIAN_APPROVAL_SIGNATURE_DOMAIN ++ [x00] ++ body).

(** [GuardianApprovalSet::total_weight], from a sum so far. *)
Fixpoint guardian_total_weight (total : N) (approvals : list SignedGuardianApproval)
    : result IdentityError N :=
  match approvals with
  | [] => Ok total
  | a :: approvals =>
      total ← checked_add "guardian approval weight" total (gg_weight (go_grant (ga_opening a)));
      guardian_total_weight total approvals
  end.

(** [GuardianApprovalSet::validate_threshold]; a set is not empty. *)
Definition validate_threshold (approvals : list SignedGuardianApproval) (policy : RecoveryPolicy)
    : result IdentityError () :=
  match approvals with
  | [] => Err (EmptyCollection "guardian recovery approvals")  (* not reached *)
  | first :: _ =>
      id ← recovery_policy_id policy;
      if bool_decide (id ≠ gg_recovery_policy_id (go_grant (ga_opening first)))
      then Err (InvalidRelationship "guardian approval recovery policy") else
      match ry_authority policy with
      | RecoverByControllers _ =>
          Err (InvalidRelationship "guardian approvals for controller recovery policy")
      | RecoverByGuardians threshold =>
          if bool_decide (gt_guardian_set_root threshold ≠ go_guardian_set_root (ga_opening first))
             || (gt_guardian_count threshold <? len approvals)
          then Err UnsatisfiableThreshold else
          total ← guardian_total_weight 0 approvals;
          if total <? gt_required_weight threshold then Err UnsatisfiableThreshold else Ok ()
      end
  end.

(** One turn of the loop of [verify_guardian_authority]. *)
Definition verify_guardian_approval (threshold : GuardianThreshold)
    (context : GuardianAuthorityContext) (approval : SignedGuardianApproval)
    : result IdentityError () :=
  let body := ga_body approval in
  let opening := ga_opening approval in
  let grant := go_grant opening in
  if bool_decide (gb_protected_account_id body ≠ gc_protected_account_id context)
     || bool_decide (gb_recovery_id body ≠ gc_recovery_id context)
     || bool_decide (gb_decision body ≠ gc_decision context)
     || negb (gb_account_epoch body =? gc_account_epoch context)
     || bool_decide (gb_guardian_grant_id body ≠ go_guardian_grant_id opening)
     || bool_decide (gg_protected_account_id grant ≠ gc_protected_account_id context)
     || bool_decide (gg_recovery_policy_id grant ≠ gc_recovery_policy_id context)
  then Err (InvalidRelationship "guardian approval projected pre-state")
  else if (gc_authority_time context <? gb_approved_at body)
     || (gc_account_epoch context <? gg_valid_from_epoch grant)
     || match gg_expires_at grant with
        | Some expiry => expiry <=? gc_authority_time context
        | None => false
        end
  then Err StaleEvidence
  else
    proof ← inclusion_proof_new (go_leaf_index opening) (gt_guardian_count threshold)
      (go_audit_path opening);
    leaf ← blinded_merkle_leaf grant (go_blinding opening);
    _ ← inclusion_verify proof leaf (gt_guardian_set_root threshold);
    let key := signing_bytes_of (gg_guardian_signing_key grant) in
    let signature := signature_bytes_of (ga_signature approval) in
    if negb (len key =? 32) || negb (verifying_key key) || negb (len signature =? 64)
    then Err InvalidSignature else
    message ← guardian_signing_bytes body;
    verify_ed25519 key signature message.

(** The loop of [verify_guardian_authority], from a sum so far. *)
Fixpoint guardian_authority_loop (threshold : GuardianThreshold)
    (context : GuardianAuthorityContext) (total : N) (approvals : list SignedGuardianApproval)
    : result IdentityError N :=
  match approvals with
  | [] => Ok total
  | approval :: approvals =>
      _ ← verify_guardian_approval threshold context approval;
      total ← checked_add "verified guardian approval weight" total
                (gg_weight (go_grant (ga_opening approval)));
      guardian_authority_loop threshold context total approvals
  end.

(** [verify_guardian_authority]; a set of approvals is not empty. *)
Definition verify_guardian_authority (policy : RecoveryPolicy)
    (approvals : list SignedGuardianApproval) (context : GuardianAuthorityContext)
    : result IdentityError VerifiedGuardianAuthority :=
  id ← recovery_policy_id policy;
  if bool_decide (id ≠ gc_recovery_policy_id context)
     || negb (ry_policy_version policy =? gc_recovery_policy_version context)
  then Err PolicyVersionMismatch else
  match ry_authority policy, approvals with
  | RecoverByControllers _, _ =>
      Err (InvalidRelationship "guardian approvals for controller recovery policy")
  | RecoverByGuardians _, [] => Err (EmptyCollection "guardian recovery approvals")  (* not reached *)
  | RecoverByGuardians threshold, first :: _ =>
      if bool_decide (gb_protected_account_id (ga_body first) ≠ gc_protected_account_id context)
         || bool_decide (gb_recovery_id (ga_body first) ≠ gc_recovery_id context)
         || bool_decide (gb_decision (ga_body first) ≠ gc_decision context)
         || bool_decide (gg_recovery_policy_id (go_grant (ga_opening first)) ≠ gc_recovery_policy_id context)
      then Err (InvalidRelationship "guardian approval authority subject")
      else if bool_decide (go_guardian_set_root (ga_opening first) ≠ gt_guardian_set_root threshold)
         || (gt_guardian_count threshold <? len approvals)
      then Err InvalidProof else
      total_weight ← guardian_authority_loop threshold context 0 approvals;
      if total_weight <? gt_required_weight threshold then Err UnsatisfiableThreshold
      else if gt_total_weight threshold <? total_weight then Err InvalidProof
      else if 2 ^ 16 - 1 <? len approvals
      then Err (ArithmeticOverflow "verified guardian approval count")
      else Ok (mkVerifiedAuthority context (gt_guardian_set_root threshold) (len approvals) total_weight)
  end.

End Guardians.
