(* ===== verification/IdGuardiansProps.v ===== *)
(** * What a verified authority of guardians shows

    The root of a recovery policy is that of a Merkle set of blinded grants. *)
From stdpp Require Import base tactics list gmap countable orders sorting strings.
From Stdlib Require Import ZArith Lia Strings.Byte.
From S2P Require Import Prelude Bytes IdTypes ExampleWire Merkle MerkleFacts MerkleConsistency MerkleSets MerkleProps SortedVec IdKeys IdFacts IdPolicy IdPolicyProps IdProviders IdGuardians.

Local Open Scope N_scope.

Definition guardian_weight (a : SignedGuardianApproval) : N := gg_weight (go_grant (ga_opening a)).

Section Guardians.
  Context `{HB : Blake3Hash} `{HC : Curve} `{HPW : !PolicyWire} `{HGW : !GuardianWire}.
  Context `{HN : !WireFormat (Digest * Digest)} `{HL : !WireFormat (N * Digest * Digest)}.
  Context `{HNL : !WireLaws (Digest * Digest)} `{HLL : !WireLaws (N * Digest * Digest)}.
  Context `{HBL : !WireLaws LeafBody}.

(** What an approval has to say, and when. *)
Record decides (context : GuardianAuthorityContext) (a : SignedGuardianApproval) : Prop := {
  decides_account : gb_protected_account_id (ga_body a) = gc_protected_account_id context;
  decides_recovery : gb_recovery_id (ga_body a) = gc_recovery_id context;
  decides_decision : gb_decision (ga_body a) = gc_decision context;
  decides_epoch : gb_account_epoch (ga_body a) = gc_account_epoch context;
  decides_time : gb_approved_at (ga_body a) ≤ gc_authority_time context;
  decides_valid : gg_valid_from_epoch (go_grant (ga_opening a)) ≤ gc_account_epoch context;
  decides_unexpired : ∀ expiry, gg_expires_at (go_grant (ga_opening a)) = Some expiry →
    gc_authority_time context < expiry;
}.

(** The guardian of the grant signed the encoding of the body, after the domain. *)
Definition guardian_signed (a : SignedGuardianApproval) : Prop :=
  ∃ body, encode_wire (ga_body a) = Ok body ∧
    verify_strict (signing_bytes_of (gg_guardian_signing_key (go_grant (ga_opening a))))
      (GUARDIAN_APPROVAL_SIGNATURE_DOMAIN ++ [x00] ++ body)
      (signature_bytes_of (ga_signature a)) = true.

Definition blinded (a : SignedGuardianApproval) (leaf : MerkleSetLeaf) : Prop :=
  blinded_merkle_leaf (go_grant (ga_opening a)) (go_blinding (ga_opening a)) = Ok leaf.

Lemma verify_ed25519_Ok key signature message :
  verify_ed25519 key signature message = Ok () → verify_strict key message signature = true.
Proof. unfold verify_ed25519. rewrite guard_Ok, !orb_false_iff, !negb_false_iff. tauto. Qed.

Lemma guardian_approval_Ok threshold context a leaves s :
  gt_guardian_count threshold ≤ usize_max →
  set_new leaves = Ok s → set_root s = Ok (gt_guardian_set_root threshold) →
  verify_guardian_approval threshold context a = Ok () →
  decides context a ∧ guardian_signed a ∧ ∃ leaf, blinded a leaf ∧ (leaf ∈ leaves ∨ collision).
Proof.
  intros Hc [Hwf Hperm]%set_new_wf Hr. unfold verify_guardian_approval.
  rewrite !guard_Ok, !orb_false_iff, !bool_ne_false, !negb_eqb_false, !N.ltb_ge.
  intros (((((((? & ?) & ?) & ?) & ?) & ?) & ?) & ((? & ?) & Hexp) & Hok).
  apply bind_Ok in Hok as (proof & Hp & Hok). apply bind_Ok in Hok as (leaf & Hleaf & Hok).
  apply unit_bind_Ok in Hok as [Hv Hok]. apply guard_Ok in Hok as [_ Hok].
  apply bind_Ok in Hok as (message & Hm & Hs%verify_ed25519_Ok). split_and!.
  - split; try done. intros expiry He. rewrite He in Hexp. by apply N.leb_gt in Hexp.
  - unfold guardian_signing_bytes in Hm. apply bind_Ok in Hm as (body & Hb & Hm).
    apply bind_Ok in Hm as (n & _ & Hm). apply bind_Ok in Hm as (n' & _ & [= <-]). by exists body.
  - exists leaf. split; [done|].
    destruct (inclusion_verify_member s proof leaf _ Hr) as [Hin|]; [|done| |by right].
    + revert Hp. unfold inclusion_proof_new. rewrite bind_Ok. intros (path & _ & Hp).
      apply guard_Ok in Hp as [_ Hp]. apply bind_Ok in Hp as (n & _ & Hp).
      by apply guard_Ok in Hp as [_ [= <-]].
    + left. by rewrite <-Hperm.
Qed.

Lemma guardian_authority_loop_Ok threshold context total approvals total' :
  guardian_authority_loop threshold context total approvals = Ok total' →
  Forall (λ a, verify_guardian_approval threshold context a = Ok ()) approvals ∧
  total' = total + sum_with guardian_weight approvals.
Proof.
  revert total. induction approvals as [|a approvals IH]; intros total H; cbn in *.
  { injection H as <-. split; [constructor|lia]. }
  apply unit_bind_Ok in H as [Ha H]. apply bind_Ok in H as (t & [-> _]%checked_add_Ok & H).
  destruct (IH _ H) as [Hall ->]. split; [by constructor|]. unfold guardian_weight at 2. lia.
Qed.

(** Different guardians have different leaves. *)
Lemma blinded_key a leaf : blinded a leaf →
  ∃ body, key_id (leaf_key leaf) = hash_bytes DomainGuardianGrant body ∧
    ∃ code version protected key weight epoch expiry extensions blinding,
      encode_wire ((code, version, protected, gg_guardian_account_id (go_grant (ga_opening a)), key,
        weight, epoch, expiry, extensions, blinding) : LeafBody) = Ok body.
Proof.
  unfold blinded, blinded_merkle_leaf. intros Ha. apply bind_Ok in Ha as (x & Hx & Ha).
  apply bind_Ok in Ha as (v & _ & Ha). apply bind_Ok in Ha as (k & Hk & Ha).
  unfold MerkleSetKey_new in Hk. apply guard_Ok in Hk as [_ Hk]. exists x. split; [|by repeat eexists].
  assert (leaf = mkMerkleSetLeaf k (hash_bytes DomainGuardianGrant v)) as -> by congruence.
  assert (k = mkMerkleSetKey GUARDIAN_GRANT_LEAF_TYPE_TAG (hash_bytes DomainGuardianGrant x)) as -> by congruence.
  done.
Qed.

Lemma blinded_inj a b leaf : blinded a leaf → blinded b leaf →
  gg_guardian_account_id (go_grant (ga_opening a)) = gg_guardian_account_id (go_grant (ga_opening b)) ∨
  collision.
Proof.
  intros (x & Hx & Ha)%blinded_key (y & Hy & Hb)%blinded_key. rewrite Hx in Hy.
  apply hash_bytes_inj in Hy as [[_ ->]|]; [left|by right].
  destruct Ha as (? & ? & ? & ? & ? & ? & ? & ? & ? & Ha), Hb as (? & ? & ? & ? & ? & ? & ? & ? & ? & Hb).
  pose proof (encode_wire_inj _ _ _ Ha Hb) as Ht. congruence.
Qed.

Lemma blinded_leaves approvals leaves :
  (∀ a, a ∈ approvals → ∃ leaf, blinded a leaf ∧ (leaf ∈ leaves ∨ collision)) →
  (∃ ls, Forall2 blinded approvals ls ∧ ls ⊆ leaves) ∨ collision.
Proof.
  induction approvals as [|a approvals IH]; intros Hall.
  { left. exists []. split; [constructor|intros l Hl; by apply elem_of_nil in Hl]. }
  destruct IH as [(ls & H2 & Hsub)|]; [intros b Hb; apply Hall; by right| |by right].
  destruct (Hall a) as (l & Hl & [Hin|]); [left| |by right]. left. exists (l :: ls).
  split; [by constructor|]. intros l' [->|Hl']%elem_of_cons; auto.
Qed.

Lemma blinded_NoDup approvals ls :
  StronglySorted (λ a b, same_guardian a b = false) approvals → Forall2 blinded approvals ls →
  NoDup ls ∨ collision.
Proof.
  intros Hs H2. revert Hs. induction H2 as [|a l approvals ls Ha H2 IH]; intros Hs; [left; constructor|].
  apply StronglySorted_cons in Hs as [Hall Hs]. destruct (IH Hs) as [Hnd|]; [|by right].
  destruct (decide (l ∈ ls)) as [Hin|]; [|left; by constructor].
  apply list_elem_of_lookup in Hin as [i Hi].
  destruct (Forall2_lookup_r _ _ _ _ _ H2 Hi) as (b & Hb & Hbl).
  destruct (blinded_inj a b l Ha Hbl) as [Heq|]; [|by right]. exfalso.
  assert (Hd : same_guardian a b = false).
  { rewrite Forall_forall in Hall. apply Hall. by eapply list_elem_of_lookup_2. }
  revert Hd. unfold same_guardian. by rewrite bool_decide_true.
Qed.

(** C23. A verified authority of guardians is real: its approvals come from grants
    that are different leaves of the set the recovery policy commits to, each is
    signed with the key of its grant over the account, the recovery, the decision
    and the epoch in question, no grant has expired at the authority time, and the
    weights of the grants add up to at least what the policy requires. Two inputs
    of the hash that collide are the exception. *)
Theorem guardian_authority_sound policy threshold approvals context authority leaves s :
  ry_authority policy = RecoverByGuardians threshold →
  gt_guardian_count threshold ≤ MAX_RECOVERY_GUARDIANS →
  set_new leaves = Ok s → set_root s = Ok (gt_guardian_set_root threshold) →
  guardian_set_from_sorted approvals = Ok approvals →
  verify_guardian_authority policy approvals context = Ok authority →
  (∀ a, a ∈ approvals → decides context a ∧ guardian_signed a) ∧
  gt_required_weight threshold ≤ sum_with guardian_weight approvals ≤ gt_total_weight threshold ∧
  ((∃ ls, Forall2 blinded approvals ls ∧ NoDup ls ∧ ls ⊆ leaves) ∨ collision).
Proof.
  intros Hauth Hcount Hset Hroot Hcanon Hv.
  assert (Hpairs : StronglySorted (λ a b, same_guardian a b = false) approvals).
  { revert Hcanon. unfold guardian_set_from_sorted. rewrite guard_Ok. intros [_ Hc].
    apply bind_Ok in Hc as (v & [-> _]%bounded_Ok & Hc). apply unit_bind_Ok in Hc as [_ Hc].
    destruct approvals; [constructor|]. rewrite !guard_Ok in Hc. apply any_pair_false. by destruct Hc as (_ & ? & _). }
  revert Hv. unfold verify_guardian_authority. rewrite Hauth, bind_Ok.
  intros (id & _ & Hv). apply guard_Ok in Hv as [_ Hv]. destruct approvals as [|first rest]; [done|].
  rewrite !guard_Ok, bind_Ok in Hv. destruct Hv as (_ & _ & total & Hloop & Hv).
  rewrite !guard_Ok, !N.ltb_ge in Hv. destruct Hv as (Hreq & Htot & _).
  apply guardian_authority_loop_Ok in Hloop as [Hall ->]. rewrite N.add_0_l in *.
  set (approvals := first :: rest) in *. clearbody approvals.
  assert (Hok : ∀ a, a ∈ approvals → decides context a ∧ guardian_signed a ∧
    ∃ leaf, blinded a leaf ∧ (leaf ∈ leaves ∨ collision)).
  { intros a Ha. rewrite Forall_forall in Hall.
    apply (guardian_approval_Ok threshold context a leaves s); [|by auto..].
    unfold MAX_RECOVERY_GUARDIANS, usize_max in *. lia. }
  split; [intros a Ha; by destruct (Hok a Ha) as (? & ? & _)|]. split; [done|].
  destruct (blinded_leaves approvals leaves) as [(ls & H2 & Hsub)|]; [| |by right].
  { intros a Ha. by destruct (Hok a Ha) as (_ & _ & ?). }
  destruct (blinded_NoDup approvals ls Hpairs H2); [left|by right]. by exists ls.
Qed.

End Guardians.

(** ** An example *)

Module GuardianExample.
Import ExampleWire ProviderExample.

#[export] Instance wire_key : WireFormat SigningPublicKey := wire_via signing_bytes_of mkSigningKey.
#[export] Instance wire_key_laws : WireLaws SigningPublicKey.
Proof. apply wire_via_laws. by intros []. Qed.

Definition to_number (o : option N) : N := match o with None => 0 | Some n => N.succ n end.
Definition from_number (n : N) : option N := if n =? 0 then None else Some (N.pred n).

#[export] Instance wire_option : WireFormat (option N) := wire_via to_number from_number.
#[export] Instance wire_option_laws : WireLaws (option N).
Proof.
  apply wire_via_laws. intros [n|]; [|done]. unfold to_number, from_number.
  rewrite (proj2 (N.eqb_neq _ _)) by lia. by rewrite N.pred_succ.
Qed.

Definition to_triple (e : Extension) : N * N * list byte :=
  (ext_code e, N.b2n (ext_critical e), ext_value e).
Definition from_triple (t : N * N * list byte) : Extension :=
  mkExtension t.1.1 (negb (t.1.2 =? 0)) t.2.

#[export] Instance wire_extension : WireFormat Extension := wire_via to_triple from_triple.
#[export] Instance wire_extension_laws : WireLaws Extension.
Proof. apply wire_via_laws. by intros [? [] ?]. Qed.

#[export] Instance guardian_wire : GuardianWire := {
  wire_leaf_body := _;
  wire_leaf_value := _;
  wire_grant := {| to_stdvec '(v, g, b) := Some (put_bytes (digest_bytes (gg_guardian_account_id g)) ++ b);
                   take_from_bytes _ := None |};
  wire_guardian_body := {| to_stdvec b := Some (put_bytes (digest_bytes (gb_recovery_id b))
                             ++ put_nat (N.to_nat (gb_account_epoch b)));
                           take_from_bytes _ := None |};
}.
#[export] Instance wire_leaf_body_laws : WireLaws LeafBody.
Proof. unfold LeafBody. apply _. Qed.

(** An encoding of policies by their version. *)
#[export] Instance policy_wire : PolicyWire := {
  wire_control_policy := {| to_stdvec _ := Some []; take_from_bytes _ := None |};
  wire_provider_policy := {| to_stdvec p := Some (put_nat (N.to_nat (pp_policy_version p)));
                             take_from_bytes _ := None |};
  wire_recovery_policy := {| to_stdvec p := Some (put_nat (N.to_nat (ry_policy_version p)));
                             take_from_bytes _ := None |};
}.

Definition account : Digest := dig x21.
Definition recovery : Digest := dig x22.
Definition policy_id : Digest := hash_bytes DomainRecoveryPolicy (put_nat 3).

(** Two guardians of weights 2 and 3. *)
Definition grant (b : byte) (weight : N) : GuardianGrant :=
  mkGrant account policy_id (dig b) (mkSigningKey (replicate 32 b)) weight 1 (Some 50) [].
Definition blinding : list byte := [x07].
Definition leaf_of (g : GuardianGrant) : MerkleSetLeaf :=
  ok (mkMerkleSetLeaf (mkMerkleSetKey 0 account) account) (blinded_merkle_leaf g blinding).
Definition leaves : list MerkleSetLeaf := [leaf_of (grant x31 2); leaf_of (grant x32 3)].
Definition guardians : MerkleSet := ok (mkSet []) (set_new leaves).
Definition guardian_root : Digest := ok account (set_root guardians).
Definition threshold : GuardianThreshold := mkGuardianThreshold guardian_root 2 5 4.
Definition policy : RecoveryPolicy := mkRecoveryPolicy 3 (RecoverByGuardians threshold) 10 20 [].
Definition context : GuardianAuthorityContext := mkContext account recovery policy_id 3 7 DecideBegin 40.

Definition approve (b : byte) (weight : N) : SignedGuardianApproval :=
  let g := grant b weight in
  let grant_id := ok account (derive_grant_id g blinding) in
  let proof := ok (mkInclusionProof 0 0 []) (set_inclusion_proof guardians (leaf_key (leaf_of g))) in
  let body := mkGuardianBody account recovery DecideBegin grant_id 7 30 [] in
  mkGuardianApproval body
    (mkOpening grant_id g blinding guardian_root (leaf_index proof) (audit_path proof) [])
    (mkProtocolSignature (sign (replicate 32 b) (ok [] (guardian_signing_bytes body)))).

Definition approvals : list SignedGuardianApproval :=
  ok [] (guardian_set_new [approve x32 3; approve x31 2]).

End GuardianExample.

Import ExampleWire ProviderExample GuardianExample.

Lemma guardian_authority_sound_witness :
  4 ≤ sum_with guardian_weight approvals ≤ 5 ∧
  ((∃ ls, Forall2 blinded approvals ls ∧ NoDup ls ∧ ls ⊆ leaves) ∨ collision).
Proof.
  refine (proj2 (guardian_authority_sound (HC:=curve) (HPW:=policy_wire) (HGW:=guardian_wire)
    policy threshold approvals context (mkVerifiedAuthority context guardian_root 2 5) leaves guardians
    _ _ _ _ _ _)); evaluate.
Defined.
