(* ===== verification/IdCapability.v ===== *)
(** * Capability grants and chains of delegations
      (protocols/krikos-identity/src/capability.rs)

    A grant names an action on resources, under constraints. A holder passes a
    narrower grant on, and a chain of such delegations starts at a root. *)
From stdpp Require Import base tactics list gmap countable orders sorting strings.
From Stdlib Require Import ZArith Lia Strings.Byte.
From S2P Require Import Prelude Bytes IdTypes SortedVec IdKeys.

Local Open Scope N_scope.

Definition MAX_CAPABILITY_NAME_BYTES : N := 128.
Definition MAX_RESOURCE_SELECTOR_BYTES : N := 1024.
Definition MAX_RESOURCE_PATH_SEGMENTS : N := 64.
Definition MAX_CONSTRAINTS_PER_CAPABILITY : N := 32.
Definition MAX_DELEGATION_DEPTH : N := 8.

(** ** Names and resources *)

(** [CapabilityNamespace::new] and [CapabilityAction::new]: the bytes of a text. *)
Definition capability_name_new (resource : string) (value : list byte)
    : result IdentityError (list byte) :=
  if bool_decide (value = []) then Err (EmptyCollection resource)
  else if MAX_CAPABILITY_NAME_BYTES <? len value
  then Err (limit resource (len value) MAX_CAPABILITY_NAME_BYTES)
  else Ok value.

(** [ResourceSegment::new]. *)
Definition segment_new (bytes : list byte) : result IdentityError (list byte) :=
  if bool_decide (bytes = []) then Err (EmptyCollection "resource path segment bytes")
  else bounded "resource path segment bytes" MAX_RESOURCE_SELECTOR_BYTES bytes.

(** [varint_len]: the loop shifts by seven bits. *)
Fixpoint varint_len_go (fuel : nat) (value length : N) : N :=
  match fuel with
  | O => length
  | S fuel => if 128 <=? value then varint_len_go fuel (N.shiftr value 7) (length + 1) else length
  end.

Definition varint_len (value : N) : N := varint_len_go (N.size_nat value) value 1.

Notation ResourcePath := (list (list byte)).

(** The loop of [ResourcePath::validate_selector_size], from a length so far. *)
Fixpoint selector_size_loop (encoded_len : N) (segments : list (list byte))
    : result IdentityError () :=
  match segments with
  | [] => Ok ()
  | segment :: segments =>
      encoded_len ← checked_add "resource selector bytes" encoded_len (varint_len (len segment));
      encoded_len ← checked_add "resource selector bytes" encoded_len (len segment);
      if MAX_RESOURCE_SELECTOR_BYTES <? encoded_len
      then Err (limit "resource selector bytes" encoded_len MAX_RESOURCE_SELECTOR_BYTES)
      else selector_size_loop encoded_len segments
  end.

Definition validate_selector_size (path : ResourcePath) : result IdentityError () :=
  encoded_len ← checked_add "resource selector bytes" 1 (varint_len (len path));
  selector_size_loop encoded_len path.

(** [ResourcePath::from_segments]. *)
Definition path_from_segments (segments : list (list byte)) : result IdentityError ResourcePath :=
  if bool_decide (segments = []) then Err (EmptyCollection "resource path segments")
  else if MAX_RESOURCE_PATH_SEGMENTS <? len segments
  then Err (limit "resource path segments" (len segments) MAX_RESOURCE_PATH_SEGMENTS)
  else _ ← validate_selector_size segments; Ok segments.

(** [ResourcePath::new]. *)
Definition path_new (segments : list (list byte)) : result IdentityError ResourcePath :=
  if bool_decide (segments = []) then Err (EmptyCollection "resource path segments")
  else if MAX_RESOURCE_PATH_SEGMENTS <? len segments
  then Err (limit "resource path segments" (len segments) MAX_RESOURCE_PATH_SEGMENTS)
  else segments ← collect (segment_new <$> segments); path_from_segments segments.

(** [ResourcePath::starts_with]. *)
Definition path_starts_with (path prefix : ResourcePath) : bool :=
  (len prefix <=? len path) && forallb (λ '(s, p), bool_decide (s = p)) (zip path prefix).

Inductive ResourceSelector : Type :=
| ExactPath (path : ResourcePath)
| PathPrefix (path : ResourcePath).

(** [ResourceSelector::exact] and [ResourceSelector::prefix]. *)
Definition selector_exact (path : ResourcePath) : result IdentityError ResourceSelector :=
  _ ← validate_selector_size path; Ok (ExactPath path).

Definition selector_prefix (path : ResourcePath) : result IdentityError ResourceSelector :=
  _ ← validate_selector_size path; Ok (PathPrefix path).

(** ** Grants *)

Inductive CapabilityConstraint : Type :=
| AccountEpochAtLeast (epoch : N)
| AccountEpochAtMost (epoch : N)
| ValidFrom (timestamp : N).

Definition constraint_code (c : CapabilityConstraint) : N :=
  match c with AccountEpochAtLeast _ => 1 | AccountEpochAtMost _ => 2 | ValidFrom _ => 3 end.

(** [CapabilityConstraint::value]. *)
Definition constraint_number (c : CapabilityConstraint) : N :=
  match c with AccountEpochAtLeast n | AccountEpochAtMost n | ValidFrom n => n end.

Inductive DelegationPermission : Type :=
| NotDelegable
| Delegable (remaining : N).

(** [DelegationDepth::new]. *)
Definition delegation_depth_new (depth : N) : result IdentityError N :=
  if depth =? 0 then Err (ZeroValue "delegation depth")
  else if MAX_DELEGATION_DEPTH <? depth
  then Err (LimitExceeded "delegation depth" depth MAX_DELEGATION_DEPTH)
  else Ok depth.

Record CapabilityGrant : Type := mkCapability {
  cg_namespace : list byte;
  cg_action : list byte;
  cg_resource : ResourceSelector;
  cg_constraints : list CapabilityConstraint;
  cg_delegation : DelegationPermission;
  cg_expires_at : option N;
  cg_extensions : Extensions;
}.

#[global] Instance ResourceSelector_EqDecision : EqDecision ResourceSelector.
Proof. solve_decision. Defined.
#[global] Instance CapabilityConstraint_EqDecision : EqDecision CapabilityConstraint.
Proof. solve_decision. Defined.
#[global] Instance DelegationPermission_EqDecision : EqDecision DelegationPermission.
Proof. solve_decision. Defined.
#[global] Instance CapabilityGrant_EqDecision : EqDecision CapabilityGrant.
Proof. solve_decision. Defined.

(** The number of the first constraint of a code. *)
Fixpoint find_constraint (code : N) (constraints : list CapabilityConstraint) : option N :=
  match constraints with
  | [] => None
  | c :: constraints =>
      if constraint_code c =? code then Some (constraint_number c) else find_constraint code constraints
  end.

(** [CapabilityGrant::from_sorted]. *)
Definition capability_from_sorted (namespace action : list byte) (resource : ResourceSelector)
    (constraints : list CapabilityConstraint) (delegation : DelegationPermission)
    (expires_at : option N) (extensions : Extensions) : result IdentityError CapabilityGrant :=
  if MAX_CONSTRAINTS_PER_CAPABILITY <? len constraints
  then Err (limit "capability constraints" (len constraints) MAX_CONSTRAINTS_PER_CAPABILITY) else
  _ ← check_ascending N.le constraint_code "capability constraints" constraints;
  if match find_constraint 1 constraints, find_constraint 2 constraints with
     | Some minimum, Some maximum => maximum <? minimum
     | _, _ => false
     end
  then Err (InvalidCapability "minimum account epoch exceeds maximum account epoch")
  else if existsb (λ c, match c, expires_at with
                        | ValidFrom valid_from, Some expires_at => expires_at <? valid_from
                        | _, _ => false
                        end) constraints
  then Err (InvalidCapability "valid-from time exceeds expiration time")
  else
    _ ← validate_critical [] extensions;
    Ok (mkCapability namespace action resource constraints delegation expires_at extensions).

(** [CapabilityGrant::new]. *)
Definition capability_new (namespace action : list byte) (resource : ResourceSelector)
    (constraints : list CapabilityConstraint) (delegation : DelegationPermission)
    (expires_at : option N) (extensions : Extensions) : result IdentityError CapabilityGrant :=
  if MAX_CONSTRAINTS_PER_CAPABILITY <? len constraints
  then Err (limit "capability constraints" (len constraints) MAX_CONSTRAINTS_PER_CAPABILITY)
  else capability_from_sorted namespace action resource
         (sort_by N.le constraint_code constraints) delegation expires_at extensions.

(** ** Delegations *)

Record AuthorizationContext : Type := mkAuthContext {
  ac_account_id : Digest;
  ac_epoch : N;
  ac_checkpoint_id : Digest;
}.

Record CapabilityRoot : Type := mkRoot {
  cr_authorization_context : AuthorizationContext;
  cr_holder : Digest;
  cr_grant : CapabilityGrant;
  cr_extensions : Extensions;
}.

Record DelegationBody : Type := mkDelegationBody {
  db_parent_grant_id : Digest;
  db_child_grant : CapabilityGrant;
  db_issuer : Digest;
  db_subject : Digest;
  db_authorization_context : AuthorizationContext;
  db_issued_at : N;
  db_nonce : list byte;
  db_extensions : Extensions;
}.

Record SignedDelegation : Type := mkDelegation {
  sd_body : DelegationBody;
  sd_signature : ProtocolSignature;
}.

Record DelegationChain : Type := mkChain {
  dc_root : CapabilityRoot;
  dc_links : list SignedDelegation;
}.

(** ** Narrowing *)

Definition validate_resource_narrowing (parent child : ResourceSelector)
    : result IdentityError bool :=
  let broadened := Err (InvalidDelegation "delegation broadens its resource selector") in
  match parent, child with
  | ExactPath parent, ExactPath child => if bool_decide (parent = child) then Ok false else broadened
  | PathPrefix parent, PathPrefix child =>
      if path_starts_with child parent then Ok (bool_decide (parent ≠ child)) else broadened
  | PathPrefix parent, ExactPath child => if path_starts_with child parent then Ok true else broadened
  | ExactPath _, PathPrefix _ => broadened
  end.

(** One turn of the loop of [validate_constraint_narrowing]. *)
Definition constraint_narrowing_at (code : N) (parent child : list CapabilityConstraint)
    : result IdentityError bool :=
  match find_constraint code parent, find_constraint code child with
  | Some _, None => Err (InvalidDelegation "delegation removes a parent constraint")
  | Some parent_value, Some child_value =>
      if (code =? 1) || (code =? 3) then
        if child_value <? parent_value
        then Err (InvalidDelegation "delegation weakens a lower-bound constraint")
        else Ok (parent_value <? child_value)
      else if code =? 2 then
        if parent_value <? child_value
        then Err (InvalidDelegation "delegation weakens an upper-bound constraint")
        else Ok (child_value <? parent_value)
      else Err (InvalidDelegation "delegation has an invalid constraint relationship")
  | None, Some _ => Ok true
  | None, None => Ok false
  end.

Definition validate_constraint_narrowing (parent child : list CapabilityConstraint)
    : result IdentityError bool :=
  first ← constraint_narrowing_at 1 parent child;
  second ← constraint_narrowing_at 2 parent child;
  third ← constraint_narrowing_at 3 parent child;
  Ok (first || second || third).

Definition validate_expiration_narrowing (parent child : option N) : result IdentityError bool :=
  match parent, child with
  | None, None => Ok false
  | None, Some _ => Ok true
  | Some _, None => Err (InvalidDelegation "delegation removes parent expiration")
  | Some parent, Some child =>
      if child <=? parent then Ok (child <? parent)
      else Err (InvalidDelegation "delegation extends parent expiration")
  end.

Definition validate_permission_narrowing (parent child : DelegationPermission)
    : result IdentityError bool :=
  match parent, child with
  | NotDelegable, _ => Err (InvalidDelegation "parent grant is not delegable")
  | Delegable _, NotDelegable => Ok true
  | Delegable parent, Delegable child =>
      if child <? parent then Ok true
      else Err (InvalidDelegation "delegation remaining depth does not decrease")
  end.

Definition validate_narrowing (parent child : CapabilityGrant) : result IdentityError () :=
  if bool_decide (cg_namespace parent ≠ cg_namespace child)
     || bool_decide (cg_action parent ≠ cg_action child)
  then Err (InvalidDelegation "delegation changes capability namespace or action") else
  resource ← validate_resource_narrowing (cg_resource parent) (cg_resource child);
  constraint ← validate_constraint_narrowing (cg_constraints parent) (cg_constraints child);
  expiration ← validate_expiration_narrowing (cg_expires_at parent) (cg_expires_at child);
  permission ← validate_permission_narrowing (cg_delegation parent) (cg_delegation child);
  if negb (resource || constraint || expiration || permission)
  then Err (InvalidDelegation "delegation child does not strictly narrow its parent")
  else Ok ().

(** ** Chains *)

(** The encodings of the module. *)
Class CapabilityWire : Type := {
  wire_capability :: WireFormat CapabilityGrant;
  wire_delegation :: WireFormat DelegationBody;
}.

Section Chains.
  Context `{HB : Blake3Hash} `{HCW : !CapabilityWire}.

#[export] Instance capability_codec : CanonicalCodec CapabilityGrant :=
  wire_codec "capability grant bytes".
#[export] Instance delegation_codec : CanonicalCodec DelegationBody :=
  wire_codec "capability delegation body bytes".

Definition capability_grant_id (g : CapabilityGrant) : result IdentityError Digest :=
  derive DomainCapabilityGrant g.

Definition delegation_id (d : SignedDelegation) : result IdentityError Digest :=
  derive DomainCapabilityDelegation (sd_body d).

(** [CapabilityRoot::new]. *)
Definition root_new (context : AuthorizationContext) (holder : Digest) (grant : CapabilityGrant)
    (extensions : Extensions) : result IdentityError CapabilityRoot :=
  _ ← validate_critical [] extensions;
  Ok (mkRoot context holder grant extensions).

(** [DelegationBody::new]. *)
Definition delegation_body_new (parent_grant_id : Digest) (child_grant : CapabilityGrant)
    (issuer subject : Digest) (context : AuthorizationContext) (issued_at : N)
    (nonce : list byte) (extensions : Extensions) : result IdentityError DelegationBody :=
  if bool_decide (issuer = subject)
  then Err (InvalidDelegation "delegation issuer and subject are identical") else
  child_id ← capability_grant_id child_grant;
  if bool_decide (parent_grant_id = child_id)
  then Err (InvalidDelegation "delegation child repeats its parent grant") else
  _ ← validate_critical [] extensions;
  Ok (mkDelegationBody parent_grant_id child_grant issuer subject context issued_at nonce extensions).

(** The loop of [DelegationChain::validate]: the holder, its grant with its
    identifier, and what was seen. *)
Fixpoint validate_links (root_account : Digest) (holder : Digest) (grant : CapabilityGrant)
    (grant_id : Digest) (seen_devices seen_grants seen_delegations : list Digest)
    (links : list SignedDelegation) : result IdentityError () :=
  match links with
  | [] => Ok ()
  | link :: links =>
      let body := sd_body link in
      if bool_decide (ac_account_id (db_authorization_context body) ≠ root_account)
      then Err (InvalidDelegation "delegation chain crosses account contexts")
      else if bool_decide (db_issuer body ≠ holder)
      then Err (InvalidDelegation "delegation issuer does not hold the parent grant")
      else if bool_decide (db_parent_grant_id body ≠ grant_id)
      then Err (InvalidDelegation "delegation parent grant is out of semantic order")
      else if bool_decide (db_subject body ∈ seen_devices)
      then Err (InvalidDelegation "delegation chain contains a device cycle")
      else
        _ ← validate_narrowing grant (db_child_grant body);
        child_grant_id ← capability_grant_id (db_child_grant body);
        if bool_decide (child_grant_id ∈ seen_grants)
        then Err (InvalidDelegation "delegation chain repeats a grant identifier") else
        delegation_id ← delegation_id link;
        if bool_decide (delegation_id ∈ seen_delegations)
        then Err (InvalidDelegation "delegation chain repeats a delegation identifier") else
        validate_links root_account (db_subject body) (db_child_grant body) child_grant_id
          (seen_devices ++ [db_subject body]) (seen_grants ++ [child_grant_id])
          (seen_delegations ++ [delegation_id]) links
  end.

(** [DelegationChain::validate]. *)
Definition chain_validate (c : DelegationChain) : result IdentityError () :=
  let root := dc_root c in
  grant_id ← capability_grant_id (cr_grant root);
  validate_links (ac_account_id (cr_authorization_context root)) (cr_holder root) (cr_grant root)
    grant_id [cr_holder root] [grant_id] [] (dc_links c).

(** [DelegationChain::new]. *)
Definition chain_new (root : CapabilityRoot) (links : list SignedDelegation)
    : result IdentityError DelegationChain :=
  if bool_decide (links = []) then Err (EmptyCollection "delegation chain links")
  else if MAX_DELEGATION_DEPTH <? len links
  then Err (limit "delegation chain links" (len links) MAX_DELEGATION_DEPTH)
  else _ ← chain_validate (mkChain root links); Ok (mkChain root links).

(** [DelegationChain::leaf_grant] and [DelegationChain::leaf_holder]. *)
Definition leaf_grant (c : DelegationChain) : CapabilityGrant :=
  match last (dc_links c) with
  | Some link => db_child_grant (sd_body link)
  | None => cr_grant (dc_root c)
  end.

Definition leaf_holder (c : DelegationChain) : Digest :=
  match last (dc_links c) with
  | Some link => db_subject (sd_body link)
  | None => cr_holder (dc_root c)
  end.

End Chains.
