(* ===== verification/IdCapVerifier.v ===== *)
(** * Deciding capability requests
      (protocols/krikos-identity/src/capability_verifier.rs)

    A request is allowed by a grant that is installed for the device, or by the last
    grant of a chain of delegations; everything else is denied with a reason. The
    facts about the account are those of a view the evaluator is given. *)
From stdpp Require Import base tactics list gmap countable orders sorting strings.
From Stdlib Require Import ZArith Lia Strings.Byte.
From S2P Require Import Prelude Bytes IdTypes SortedVec IdKeys IdCapability.

Local Open Scope N_scope.

Definition MAX_CAPABILITIES_PER_DEVICE : N := 128.

Inductive CapabilityDeviceStatus : Type :=
| StatusUnknown
| StatusActive
| StatusSuspended
| StatusRevoked.

Inductive DelegationSignatureStatus : Type :=
| SignatureVerified
| SignatureInvalid
| SignatureUnavailable.

(** The trait [DelegationSignatureVerifier]. *)
Class DelegationSignatureVerifier : Type := {
  verify_delegation : SignedDelegation → DelegationSignatureStatus;
}.

(** The trait [CapabilityStateView]. *)
Class CapabilityStateView : Type := {
  view_authorization_context : AuthorizationContext;
  device_status : Digest → CapabilityDeviceStatus;
  root_grants : Digest → list CapabilityGrant;
  is_grant_revoked : Digest → bool;
  is_delegation_revoked : Digest → bool;
  recognizes_authorization_context : AuthorizationContext → bool;
  authorization_context_precedes_or_equals : AuthorizationContext → AuthorizationContext → bool;
  authorization_context_timestamp : AuthorizationContext → option N;
  device_status_at : Digest → AuthorizationContext → CapabilityDeviceStatus;
  held_grant_at : Digest → Digest → AuthorizationContext → bool;
}.

Record CapabilityRequest : Type := mkRequest {
  rq_authorization_context : AuthorizationContext;
  rq_application_id : Digest;
  rq_device_id : Digest;
  rq_namespace : list byte;
  rq_action : list byte;
  rq_resource : ResourcePath;
  rq_evaluated_at : N;
}.

Inductive CapabilityProof : Type :=
| DirectProof
| DelegatedProof (chain : DelegationChain).

Inductive CapabilityDenialReason : Type :=
| DenyAccountMismatch
| DenyEpochMismatch
| DenyCheckpointMismatch
| DenyUnknownDevice
| DenyDeviceSuspended
| DenyDeviceRevoked
| DenyStateViewLimitExceeded
| DenyNoMatchingGrant
| DenyNamespaceNotGranted
| DenyActionNotGranted
| DenyResourceNotGranted
| DenyConstraintUnsatisfied
| DenyGrantExpired
| DenyGrantRevoked
| DenyParentGrantRevoked
| DenyDelegationRevoked
| DenyInvalidDelegationChain
| DenyUnrecognizedAuthorizationContext
| DenyDelegationNotYetValid
| DenyAuthorizationContextRollback
| DenyIssuerNotActiveAtIssuance
| DenyParentGrantNotHeldAtIssuance
| DenyParentGrantInvalidAtIssuance
| DenyRootGrantNotHeldAtContext
| DenyRootHolderNotActiveAtContext
| DenyRootContextTimestampUnavailable
| DenyRootGrantInvalidAtContext
| DenyDelegationContextTimestampUnavailable
| DenyDelegationIssuedBeforeContext
| DenyDelegationIssuanceRollback
| DenyInvalidDelegationSignature
| DenySignatureVerificationUnavailable
| DenyInvalidCapabilityEvidence.

Inductive CapabilityOutcome : Type :=
| Allowed (grant_id : Digest) (delegation_id : option Digest)
| Denied (reason : CapabilityDenialReason).

Record CapabilityDecision : Type := mkDecision {
  de_authorization_context : AuthorizationContext;
  de_application_id : Digest;
  de_device_id : Digest;
  de_outcome : CapabilityOutcome;
}.

#[global] Instance CapabilityDeviceStatus_EqDecision : EqDecision CapabilityDeviceStatus.
Proof. solve_decision. Defined.
#[global] Instance CapabilityDenialReason_EqDecision : EqDecision CapabilityDenialReason.
Proof. solve_decision. Defined.

(** ** Grants *)

Definition selector_contains (selector : ResourceSelector) (resource : ResourcePath) : bool :=
  match selector with
  | ExactPath expected => bool_decide (expected = resource)
  | PathPrefix prefix => path_starts_with resource prefix
  end.

Definition constraints_hold (constraints : list CapabilityConstraint) (epoch evaluated_at : N) : bool :=
  forallb (λ c, match c with
                | AccountEpochAtLeast minimum => minimum <=? epoch
                | AccountEpochAtMost maximum => epoch <=? maximum
                | ValidFrom valid_from => valid_from <=? evaluated_at
                end) constraints.

Definition grant_is_valid_at (grant : CapabilityGrant) (epoch evaluated_at : N) : bool :=
  constraints_hold (cg_constraints grant) epoch evaluated_at
  && match cg_expires_at grant with Some expires_at => evaluated_at <? expires_at | None => true end.

Definition grant_mismatch (grant : CapabilityGrant) (request : CapabilityRequest)
    : option CapabilityDenialReason :=
  if bool_decide (cg_namespace grant ≠ rq_namespace request) then Some DenyNamespaceNotGranted
  else if bool_decide (cg_action grant ≠ rq_action request) then Some DenyActionNotGranted
  else if negb (selector_contains (cg_resource grant) (rq_resource request))
  then Some DenyResourceNotGranted
  else if negb (constraints_hold (cg_constraints grant)
                  (ac_epoch (rq_authorization_context request)) (rq_evaluated_at request))
  then Some DenyConstraintUnsatisfied
  else if match cg_expires_at grant with
          | Some expires_at => expires_at <=? rq_evaluated_at request
          | None => false
          end
  then Some DenyGrantExpired
  else None.

Definition mismatch_priority (reason : CapabilityDenialReason) : N :=
  match reason with
  | DenyNoMatchingGrant => 0
  | DenyNamespaceNotGranted => 1
  | DenyActionNotGranted => 2
  | DenyResourceNotGranted => 3
  | DenyConstraintUnsatisfied => 4
  | DenyGrantExpired => 5
  | DenyGrantRevoked => 6
  | _ => 0
  end.

(** ** Narrowing *)

Definition resource_narrowing (parent child : ResourceSelector) : option bool :=
  match parent, child with
  | ExactPath parent, ExactPath child => if bool_decide (parent = child) then Some false else None
  | PathPrefix parent, PathPrefix child =>
      if path_starts_with child parent then Some (bool_decide (parent ≠ child)) else None
  | PathPrefix parent, ExactPath child => if path_starts_with child parent then Some true else None
  | ExactPath _, PathPrefix _ => None
  end.

Fixpoint constraint_value (constraints : list CapabilityConstraint) (code : N) : option N :=
  match constraints with
  | [] => None
  | c :: constraints =>
      match c with
      | AccountEpochAtLeast epoch => if code =? 1 then Some epoch else constraint_value constraints code
      | AccountEpochAtMost epoch => if code =? 2 then Some epoch else constraint_value constraints code
      | ValidFrom timestamp => if code =? 3 then Some timestamp else constraint_value constraints code
      end
  end.

(** One turn of the loop of [constraint_narrowing]. *)
Definition constraint_narrows (code : N) (parent child : list CapabilityConstraint) : option bool :=
  match constraint_value parent code, constraint_value child code with
  | Some _, None => None
  | Some parent_value, Some child_value =>
      if ((code =? 1) || (code =? 3)) && (parent_value <=? child_value)
      then Some (parent_value <? child_value)
      else if (code =? 2) && (child_value <=? parent_value) then Some (child_value <? parent_value)
      else None
  | None, Some _ => Some true
  | None, None => Some false
  end.

Definition constraint_narrowing (parent child : list CapabilityConstraint) : option bool :=
  first ← constraint_narrows 1 parent child;
  second ← constraint_narrows 2 parent child;
  third ← constraint_narrows 3 parent child;
  Some (first || second || third).

Definition expiration_narrowing (parent child : option N) : option bool :=
  match parent, child with
  | None, None => Some false
  | None, Some _ => Some true
  | Some _, None => None
  | Some parent, Some child => if child <=? parent then Some (child <? parent) else None
  end.

Definition permission_narrowing (parent child : DelegationPermission) : option bool :=
  match parent, child with
  | NotDelegable, _ => None
  | Delegable _, NotDelegable => Some true
  | Delegable parent, Delegable child => if child <? parent then Some true else None
  end.

Definition is_strict_narrowing (parent child : CapabilityGrant) : bool :=
  if bool_decide (cg_namespace parent ≠ cg_namespace child)
     || bool_decide (cg_action parent ≠ cg_action child)
  then false else
  match resource_narrowing (cg_resource parent) (cg_resource child),
        constraint_narrowing (cg_constraints parent) (cg_constraints child),
        expiration_narrowing (cg_expires_at parent) (cg_expires_at child),
        permission_narrowing (cg_delegation parent) (cg_delegation child) with
  | Some resource_strict, Some constraint_strict, Some expiration_strict, Some permission_strict =>
      resource_strict || constraint_strict || expiration_strict || permission_strict
  | _, _, _, _ => false
  end.

(** ** Evaluation *)

(** [CapabilityDecision::allowed] and [CapabilityDecision::denied]. *)
Definition decide_allowed (request : CapabilityRequest) (grant_id : Digest)
    (delegation_id : option Digest) : CapabilityDecision :=
  mkDecision (rq_authorization_context request) (rq_application_id request)
    (rq_device_id request) (Allowed grant_id delegation_id).

Definition decide_denied (request : CapabilityRequest) (reason : CapabilityDenialReason)
    : CapabilityDecision :=
  mkDecision (rq_authorization_context request) (rq_application_id request)
    (rq_device_id request) (Denied reason).

(** A step that denies the request with a reason. *)
Notation checked := (result CapabilityDenialReason).

(** A denial unless a condition holds. *)
Definition require (condition : bool) (reason : CapabilityDenialReason) : checked () :=
  if condition then Ok () else Err reason.

(** An identifier that has to be derived. *)
Definition evidence {A} (r : result IdentityError A) : checked A :=
  match r with Ok a => Ok a | Err _ => Err DenyInvalidCapabilityEvidence end.

(** [contexts_are_monotonic]. *)
Definition contexts_are_monotonic (ancestor descendant : AuthorizationContext) : bool :=
  if bool_decide (ac_account_id ancestor ≠ ac_account_id descendant)
     || (ac_epoch descendant <? ac_epoch ancestor)
  then false else ac_epoch ancestor <=? ac_epoch descendant.

Definition validate_device_status (status : CapabilityDeviceStatus) : checked () :=
  match status with
  | StatusActive => Ok ()
  | StatusUnknown => Err DenyUnknownDevice
  | StatusSuspended => Err DenyDeviceSuspended
  | StatusRevoked => Err DenyDeviceRevoked
  end.

(** The variables of the loop over the links of a chain. *)
Record ChainState : Type := mkChainState {
  cs_holder : Digest;
  cs_grant : CapabilityGrant;
  cs_grant_id : Digest;
  cs_context : AuthorizationContext;
  cs_issued_at : N;
  cs_delegation_id : option Digest;
  cs_devices : list Digest;
  cs_grants : list Digest;
  cs_delegations : list Digest;
}.

Section Evaluate.
  Context `{HB : Blake3Hash} `{HCW : !CapabilityWire}.
  Context `{HV : CapabilityStateView} `{HS : DelegationSignatureVerifier}.

Definition validate_current_context (request : CapabilityRequest) : checked () :=
  let requested := rq_authorization_context request in
  let current := view_authorization_context in
  _ ← require (bool_decide (ac_account_id requested = ac_account_id current)) DenyAccountMismatch;
  _ ← require (ac_epoch requested =? ac_epoch current) DenyEpochMismatch;
  require (bool_decide (ac_checkpoint_id requested = ac_checkpoint_id current)) DenyCheckpointMismatch.

Definition context_is_usable (context : AuthorizationContext) (request : CapabilityRequest) : bool :=
  bool_decide (ac_account_id context = ac_account_id (rq_authorization_context request))
  && contexts_are_monotonic context (rq_authorization_context request)
  && recognizes_authorization_context context
  && authorization_context_precedes_or_equals context (rq_authorization_context request).

(** The loop of [evaluate_direct]: the best reason so far. *)
Fixpoint direct_loop (request : CapabilityRequest) (best : CapabilityDenialReason)
    (grants : list CapabilityGrant) : checked (Digest * option Digest) :=
  match grants with
  | [] => Err best
  | grant :: grants =>
      grant_id ← evidence (capability_grant_id grant);
      let next mismatch :=
        direct_loop request
          (if mismatch_priority best <? mismatch_priority mismatch then mismatch else best) grants in
      match grant_mismatch grant request with
      | Some reason => next reason
      | None => if is_grant_revoked grant_id then next DenyGrantRevoked else Ok (grant_id, None)
      end
  end.

Definition evaluate_direct (request : CapabilityRequest) : checked (Digest * option Digest) :=
  let grants := root_grants (rq_device_id request) in
  _ ← require (len grants <=? MAX_CAPABILITIES_PER_DEVICE) DenyStateViewLimitExceeded;
  direct_loop request DenyNoMatchingGrant grants.

(** One turn of the loop of [evaluate_delegated]. *)
Definition check_link (request : CapabilityRequest) (s : ChainState) (is_leaf : bool)
    (link : SignedDelegation) : checked ChainState :=
  let body := sd_body link in
  let context := db_authorization_context body in
  _ ← require (bool_decide (db_issuer body = cs_holder s)
               && bool_decide (db_parent_grant_id body = cs_grant_id s)) DenyInvalidDelegationChain;
  _ ← require (context_is_usable context request) DenyUnrecognizedAuthorizationContext;
  _ ← require (contexts_are_monotonic (cs_context s) context
               && authorization_context_precedes_or_equals (cs_context s) context)
        DenyAuthorizationContextRollback;
  context_timestamp ← match authorization_context_timestamp context with
                      | Some timestamp => Ok timestamp
                      | None => Err DenyDelegationContextTimestampUnavailable
                      end;
  _ ← require (context_timestamp <=? db_issued_at body) DenyDelegationIssuedBeforeContext;
  _ ← require (cs_issued_at s <=? db_issued_at body) DenyDelegationIssuanceRollback;
  _ ← require (bool_decide (device_status_at (db_issuer body) context = StatusActive))
        DenyIssuerNotActiveAtIssuance;
  _ ← require (held_grant_at (db_issuer body) (cs_grant_id s) context) DenyParentGrantNotHeldAtIssuance;
  _ ← require (grant_is_valid_at (cs_grant s) (ac_epoch context) (db_issued_at body))
        DenyParentGrantInvalidAtIssuance;
  _ ← require (negb (is_grant_revoked (cs_grant_id s))) DenyParentGrantRevoked;
  _ ← require (bool_decide (db_subject body ∉ cs_devices s)) DenyInvalidDelegationChain;
  _ ← validate_device_status (device_status (db_subject body));
  _ ← require (is_strict_narrowing (cs_grant s) (db_child_grant body)) DenyInvalidDelegationChain;
  child_grant_id ← evidence (capability_grant_id (db_child_grant body));
  delegation_id ← evidence (delegation_id link);
  _ ← require (bool_decide (child_grant_id ∉ cs_grants s)
               && bool_decide (delegation_id ∉ cs_delegations s)) DenyInvalidDelegationChain;
  _ ← require (negb (is_delegation_revoked delegation_id)) DenyDelegationRevoked;
  _ ← match verify_delegation link with
      | SignatureVerified => Ok ()
      | SignatureInvalid => Err DenyInvalidDelegationSignature
      | SignatureUnavailable => Err DenySignatureVerificationUnavailable
      end;
  _ ← require (negb (is_grant_revoked child_grant_id))
        (if is_leaf then DenyGrantRevoked else DenyParentGrantRevoked);
  Ok (mkChainState (db_subject body) (db_child_grant body) child_grant_id context
        (db_issued_at body) (Some delegation_id) (cs_devices s ++ [db_subject body])
        (cs_grants s ++ [child_grant_id]) (cs_delegations s ++ [delegation_id])).

Fixpoint check_links (request : CapabilityRequest) (s : ChainState) (links : list SignedDelegation)
    : checked ChainState :=
  match links with
  | [] => Ok s
  | link :: links =>
      s ← check_link request s (bool_decide (links = [])) link;
      check_links request s links
  end.

(** The checks of [evaluate_delegated] on the root of a chain, and the loop's
    first state. *)
Definition check_root (request : CapabilityRequest) (root : CapabilityRoot) : checked ChainState :=
  let context := cr_authorization_context root in
  _ ← require (context_is_usable context request) DenyUnrecognizedAuthorizationContext;
  _ ← validate_device_status (device_status (cr_holder root));
  let grants := root_grants (cr_holder root) in
  _ ← require (len grants <=? MAX_CAPABILITIES_PER_DEVICE) DenyStateViewLimitExceeded;
  root_grant_id ← evidence (capability_grant_id (cr_grant root));
  installed ← evidence (collect (capability_grant_id <$> grants));
  _ ← require (bool_decide (root_grant_id ∈ installed)) DenyNoMatchingGrant;
  _ ← require (negb (is_grant_revoked root_grant_id)) DenyParentGrantRevoked;
  _ ← require (held_grant_at (cr_holder root) root_grant_id context) DenyRootGrantNotHeldAtContext;
  _ ← require (bool_decide (device_status_at (cr_holder root) context = StatusActive))
        DenyRootHolderNotActiveAtContext;
  context_time ← match authorization_context_timestamp context with
                 | Some timestamp => Ok timestamp
                 | None => Err DenyRootContextTimestampUnavailable
                 end;
  _ ← require (grant_is_valid_at (cr_grant root) (ac_epoch context) context_time)
        DenyRootGrantInvalidAtContext;
  Ok (mkChainState (cr_holder root) (cr_grant root) root_grant_id context context_time None
        [cr_holder root] [root_grant_id] []).

Definition evaluate_delegated (request : CapabilityRequest) (chain : DelegationChain)
    : checked (Digest * option Digest) :=
  let links := dc_links chain in
  _ ← require (negb (bool_decide (links = [])) && (len links <=? MAX_DELEGATION_DEPTH))
        DenyInvalidDelegationChain;
  s ← check_root request (dc_root chain);
  s ← check_links request s links;
  _ ← require (cs_issued_at s <=? rq_evaluated_at request) DenyDelegationNotYetValid;
  _ ← require (bool_decide (cs_holder s = rq_device_id request)
               && bool_decide (leaf_holder chain = rq_device_id request)) DenyInvalidDelegationChain;
  match grant_mismatch (cs_grant s) request with
  | Some reason => Err reason
  | None => Ok (cs_grant_id s, cs_delegation_id s)
  end.

Definition evaluate_capability (request : CapabilityRequest) (proof : CapabilityProof)
    : CapabilityDecision :=
  let outcome :=
    _ ← validate_current_context request;
    _ ← validate_device_status (device_status (rq_device_id request));
    match proof with
    | DirectProof => evaluate_direct request
    | DelegatedProof chain => evaluate_delegated request chain
    end in
  match outcome with
  | Ok (grant_id, delegation_id) => decide_allowed request grant_id delegation_id
  | Err reason => decide_denied request reason
  end.

End Evaluate.
