(* ===== verification/IdCapabilityProps.v ===== *)
(** * Capabilities are narrowed, never widened

    The two implementations of narrowing agree, and a request that is allowed is
    allowed by a grant installed for an active device, however long the chain. *)
From stdpp Require Import base tactics list gmap countable orders sorting strings.
From Stdlib Require Import ZArith Lia Strings.Byte.
From S2P Require Import Prelude Bytes IdTypes ExampleWire SortedVec IdKeys IdFacts IdProviders IdGuardiansProps MerkleProps IdCapability IdCapVerifier.

Local Open Scope N_scope.

(** ** The two implementations of narrowing *)

Definition to_option {E A} (r : result E A) : option A :=
  match r with Ok a => Some a | Err _ => None end.

Lemma constraint_value_find constraints code :
  constraint_value constraints code = find_constraint code constraints.
Proof.
  induction constraints as [|c l IH]; [done|].
  destruct c; cbn [constraint_value find_constraint constraint_code constraint_number];
    rewrite (N.eqb_sym code), IH; done.
Qed.

Lemma resource_narrowing_same p c :
  resource_narrowing p c = to_option (validate_resource_narrowing p c).
Proof.
  destruct p, c; cbn; try done; try (by destruct (path_starts_with _ _)). by case_bool_decide.
Qed.

Lemma constraint_narrows_same code p c : code = 1 ∨ code = 2 ∨ code = 3 →
  constraint_narrows code p c = to_option (constraint_narrowing_at code p c).
Proof.
  intros Hcode. unfold constraint_narrows, constraint_narrowing_at. rewrite !constraint_value_find.
  destruct (find_constraint code p) as [x|], (find_constraint code c) as [y|]; try done.
  destruct Hcode as [->|[->| ->]]; cbn; destruct (N.ltb_spec y x), (N.leb_spec x y); try lia; try done;
    destruct (N.ltb_spec x y), (N.leb_spec y x); try lia; done.
Qed.

Lemma constraint_narrowing_same p c :
  constraint_narrowing p c = to_option (validate_constraint_narrowing p c).
Proof.
  unfold constraint_narrowing, validate_constraint_narrowing. rewrite !constraint_narrows_same by auto.
  destruct (constraint_narrowing_at 1 p c); [cbn|done].
  destruct (constraint_narrowing_at 2 p c); [cbn|done].
  by destruct (constraint_narrowing_at 3 p c).
Qed.

Lemma expiration_narrowing_same p c :
  expiration_narrowing p c = to_option (validate_expiration_narrowing p c).
Proof. destruct p, c; cbn; try done. by destruct (_ <=? _). Qed.

Lemma permission_narrowing_same p c :
  permission_narrowing p c = to_option (validate_permission_narrowing p c).
Proof. destruct p, c; cbn; try done. by destruct (_ <? _). Qed.

(** The evaluator and the constructor of chains have the same notion of a
    narrower grant, though they implement it twice. *)
Theorem narrowing_agrees parent child :
  is_strict_narrowing parent child = true ↔ validate_narrowing parent child = Ok ().
Proof.
  unfold is_strict_narrowing, validate_narrowing.
  rewrite resource_narrowing_same, constraint_narrowing_same, expiration_narrowing_same,
    permission_narrowing_same.
  destruct (_ || _); [done|]. destruct (validate_resource_narrowing _ _); [cbn|done].
  destruct (validate_constraint_narrowing _ _); [cbn|done].
  destruct (validate_expiration_narrowing _ _); [cbn|done].
  destruct (validate_permission_narrowing _ _); [cbn|done]. by destruct (_ || _ || _ || _).
Qed.

(** ** What a narrower grant permits *)

(** A grant as its constructor makes it. *)
Definition grant_wf (g : CapabilityGrant) : Prop :=
  capability_from_sorted (cg_namespace g) (cg_action g) (cg_resource g) (cg_constraints g)
    (cg_delegation g) (cg_expires_at g) (cg_extensions g) = Ok g.

Lemma grant_wf_ascending g : grant_wf g → ascending N.le constraint_code (cg_constraints g).
Proof.
  unfold grant_wf, capability_from_sorted. rewrite guard_Ok, unit_bind_Ok.
  intros (_ & H & _). by apply (check_ascending_Ok N.le constraint_code) in H.
Qed.

Lemma path_starts_with_spec path prefix : path_starts_with path prefix = true ↔ prefix `prefix_of` path.
Proof.
  unfold path_starts_with, len. rewrite andb_true_iff, N.leb_le, forallb_true. split.
  - intros [Hlen Hall]. revert path Hlen Hall.
    induction prefix as [|x prefix IH]; intros path Hlen Hall; [apply prefix_nil|].
    destruct path as [|y path]; cbn in *; [lia|]. apply Forall_cons in Hall as [Hxy Hall].
    apply bool_decide_eq_true in Hxy as ->. apply prefix_cons, IH; [lia|done].
  - intros [k ->]. rewrite length_app. split; [lia|].
    induction prefix as [|x prefix IH]; cbn; [by destruct k|]. constructor; [|done].
    by apply bool_decide_eq_true.
Qed.

Lemma selector_narrows p c b path : resource_narrowing p c = Some b →
  selector_contains c path = true → selector_contains p path = true.
Proof.
  destruct p as [p|p], c as [c|c]; cbn; try done.
  - case_bool_decide; by subst.
  - destruct (path_starts_with c p) eqn:Hp; [|done]. rewrite bool_decide_eq_true. by intros _ <-.
  - destruct (path_starts_with c p) eqn:Hp; [|done]. intros _ Hc%path_starts_with_spec.
    apply path_starts_with_spec in Hp. apply path_starts_with_spec. by trans c.
Qed.

Lemma find_constraint_Some code l n : find_constraint code l = Some n →
  ∃ c, c ∈ l ∧ constraint_code c = code ∧ constraint_number c = n.
Proof.
  induction l as [|c l IH]; [done|]. cbn. destruct (N.eqb_spec (constraint_code c) code) as [Hc|Hc].
  - intros [= <-]. exists c. by split; [left|].
  - intros (c' & Hin & ?)%IH. exists c'. by split; [right|].
Qed.

Lemma find_constraint_elem l c : ascending N.le constraint_code l → c ∈ l →
  find_constraint (constraint_code c) l = Some (constraint_number c).
Proof.
  induction l as [|c' l IH]; intros Hs Hin; [by apply elem_of_nil in Hin|]. cbn.
  apply elem_of_cons in Hin as [->|Hin]; [by rewrite N.eqb_refl|].
  apply StronglySorted_cons in Hs as [Hall Hs]. rewrite Forall_forall in Hall.
  destruct (Hall c Hin) as [_ Hne]. rewrite (proj2 (N.eqb_neq _ _)); [by apply IH|].
  intros Heq. apply Hne. by rewrite Heq.
Qed.

(** What it takes for a constraint to hold. *)
Definition constraint_holds (epoch evaluated_at : N) (c : CapabilityConstraint) : bool :=
  match c with
  | AccountEpochAtLeast minimum => minimum <=? epoch
  | AccountEpochAtMost maximum => epoch <=? maximum
  | ValidFrom valid_from => valid_from <=? evaluated_at
  end.

Lemma constraint_code_cases c :
  constraint_code c = 1 ∨ constraint_code c = 2 ∨ constraint_code c = 3.
Proof. destruct c; cbn; auto. Qed.

Lemma constraint_narrows_Some p c code b : constraint_narrowing p c = Some b →
  code = 1 ∨ code = 2 ∨ code = 3 → is_Some (constraint_narrows code p c).
Proof.
  unfold constraint_narrowing. intros H Hcode. destruct (constraint_narrows 1 p c) eqn:H1; [|done].
  cbn in H. destruct (constraint_narrows 2 p c) eqn:H2; [|done]. cbn in H.
  destruct (constraint_narrows 3 p c) eqn:H3; [|done].
  destruct Hcode as [->|[->| ->]]; by eexists.
Qed.

Lemma constraints_narrow p c b epoch time : ascending N.le constraint_code p →
  constraint_narrowing p c = Some b →
  constraints_hold c epoch time = true → constraints_hold p epoch time = true.
Proof.
  intros Hp Hn Hc. unfold constraints_hold in *. rewrite forallb_true, Forall_forall in *. intros x Hx.
  destruct (constraint_narrows_Some p c (constraint_code x) b Hn (constraint_code_cases x)) as [b' Hb].
  unfold constraint_narrows in Hb. rewrite !constraint_value_find, (find_constraint_elem p x Hp Hx) in Hb.
  destruct (find_constraint _ c) as [n|] eqn:Hf; [|done].
  apply find_constraint_Some in Hf as (y & Hy & Hcode & <-). specialize (Hc y Hy).
  destruct x, y; try done; cbn in *; destruct (_ <=? _) eqn:Hle in Hb; try done; cbn in *;
    rewrite ?N.leb_le in *; lia.
Qed.

(** What a narrower grant permits, the grant permits. *)
Lemma narrowing_attenuates parent child request : grant_wf parent →
  is_strict_narrowing parent child = true →
  grant_mismatch child request = None → grant_mismatch parent request = None.
Proof.
  intros Hwf%grant_wf_ascending. unfold is_strict_narrowing, grant_mismatch.
  destruct (_ || _) eqn:Hname; [done|]. apply orb_false_iff in Hname as [Hn Ha].
  apply bool_ne_false in Hn as ->, Ha as ->.
  destruct (resource_narrowing _ _) as [r|] eqn:Hr; [|done].
  destruct (constraint_narrowing _ _) as [k|] eqn:Hk; [|done].
  destruct (expiration_narrowing _ _) as [e|] eqn:He; [|done]. intros _.
  destruct (bool_decide (cg_namespace child ≠ _)); [done|].
  destruct (bool_decide (cg_action child ≠ _)); [done|].
  destruct (selector_contains (cg_resource child) _) eqn:Hs; [|done].
  rewrite (selector_narrows _ _ _ _ Hr Hs). cbn.
  destruct (constraints_hold (cg_constraints child) _ _) eqn:Hc; [|done].
  rewrite (constraints_narrow _ _ _ _ _ Hwf Hk Hc). cbn.
  destruct (cg_expires_at parent) as [x|], (cg_expires_at child) as [y|]; cbn in He; try done.
  destruct (N.leb_spec y x); [|done]. destruct (N.leb_spec y (rq_evaluated_at request)); [done|].
  intros _. by rewrite (proj2 (N.leb_gt _ _)) by lia.
Qed.

(** ** Decisions *)

Section Decisions.
  Context `{HB : Blake3Hash} `{HCW : !CapabilityWire} `{HWL : !WireLaws CapabilityGrant}.
  Context `{HV : CapabilityStateView} `{HS : DelegationSignatureVerifier}.

(** Which devices are entitled to which grants: those with a grant of their own, and
    those that an entitled device passed a strictly narrower one to, by a signed link
    that was good when it was issued and that nobody has revoked since. *)
Inductive entitled : Digest → CapabilityGrant → Prop :=
| entitled_root holder grant id :
    device_status holder = StatusActive → grant ∈ root_grants holder →
    capability_grant_id grant = Ok id → is_grant_revoked id = false →
    entitled holder grant
| entitled_link parent parent_id link edge_id child_id :
    entitled (db_issuer (sd_body link)) parent →
    capability_grant_id parent = Ok parent_id → db_parent_grant_id (sd_body link) = parent_id →
    device_status_at (db_issuer (sd_body link)) (db_authorization_context (sd_body link)) = StatusActive →
    held_grant_at (db_issuer (sd_body link)) parent_id (db_authorization_context (sd_body link)) = true →
    grant_is_valid_at parent (ac_epoch (db_authorization_context (sd_body link)))
      (db_issued_at (sd_body link)) = true →
    is_strict_narrowing parent (db_child_grant (sd_body link)) = true →
    delegation_id link = Ok edge_id → is_delegation_revoked edge_id = false →
    verify_delegation link = SignatureVerified →
    capability_grant_id (db_child_grant (sd_body link)) = Ok child_id →
    is_grant_revoked child_id = false →
    device_status (db_subject (sd_body link)) = StatusActive →
    entitled (db_subject (sd_body link)) (db_child_grant (sd_body link)).

(** A grant that an active device has of its own. *)
Definition installed (grant : CapabilityGrant) : Prop :=
  ∃ holder id, device_status holder = StatusActive ∧ grant ∈ root_grants holder ∧
    capability_grant_id grant = Ok id ∧ is_grant_revoked id = false.

(** A grant that permits no request its source does not permit. *)
Definition within (grant source : CapabilityGrant) : Prop :=
  ∀ request, grant_mismatch grant request = None → grant_mismatch source request = None.

Record chain_ok (s : ChainState) : Prop := {
  chain_entitled : entitled (cs_holder s) (cs_grant s);
  chain_wf : grant_wf (cs_grant s);
  chain_id : capability_grant_id (cs_grant s) = Ok (cs_grant_id s);
  chain_unrevoked : is_grant_revoked (cs_grant_id s) = false;
  chain_source : ∃ source, installed source ∧ within (cs_grant s) source;
}.

Lemma require_Ok c reason : require c reason = Ok () ↔ c = true.
Proof. unfold require. destruct c; naive_solver. Qed.

Lemma evidence_Ok {A} (r : result IdentityError A) a : evidence r = Ok a ↔ r = Ok a.
Proof. unfold evidence. destruct r; naive_solver. Qed.

Lemma device_status_Ok status : validate_device_status status = Ok () ↔ status = StatusActive.
Proof. destruct status; naive_solver. Qed.

Lemma capability_grant_id_inj g1 g2 id :
  capability_grant_id g1 = Ok id → capability_grant_id g2 = Ok id → g1 = g2 ∨ collision.
Proof.
  unfold capability_grant_id, derive. intros H1 H2.
  apply bind_Ok in H1 as (x & Hx & H1). apply bind_Ok in H2 as (y & Hy & H2).
  assert (hash_bytes DomainCapabilityGrant x = hash_bytes DomainCapabilityGrant y) as Heq by congruence.
  apply hash_bytes_inj in Heq as [[_ ->]|]; [left|by right].
  apply bind_Ok in Hx as (x' & Hx & [_ [= ->]]%guard_Ok). apply bind_Ok in Hy as (y' & Hy & [_ [= ->]]%guard_Ok).
  by eapply encode_wire_inj.
Qed.

Lemma check_root_ok request root s : grant_wf (cr_grant root) →
  check_root request root = Ok s → chain_ok s ∧ cs_holder s = cr_holder root ∨ collision.
Proof.
  intros Hwf. unfold check_root. rewrite !unit_bind_Ok, !require_Ok, device_status_Ok.
  intros (_ & Hst & _ & Hok). apply bind_Ok in Hok as (id & Hid%evidence_Ok & Hok).
  apply bind_Ok in Hok as (ids & Hids%evidence_Ok & Hok).
  rewrite !unit_bind_Ok, !require_Ok, bool_decide_eq_true, negb_true_iff in Hok.
  destruct Hok as (Hin & Hrev & _ & _ & Hok). apply bind_Ok in Hok as (t & _ & Hok).
  apply unit_bind_Ok in Hok as [_ [= <-]].
  apply collect_fmap_Ok in Hids. apply list_elem_of_lookup in Hin as [i Hi].
  destruct (Forall2_lookup_r _ _ _ _ _ Hids Hi) as (g & Hg%list_elem_of_lookup_2 & Hgid).
  destruct (capability_grant_id_inj g (cr_grant root) id Hgid Hid) as [->|]; [left|by right].
  split; [|done]. split; cbn; [by econstructor|done..|]. exists (cr_grant root).
  split; [by exists (cr_holder root), id|by intros ?].
Qed.

Lemma check_link_ok request s is_leaf link s' : chain_ok s →
  grant_wf (db_child_grant (sd_body link)) →
  check_link request s is_leaf link = Ok s' → chain_ok s'.
Proof.
  intros [Hent Hwf Hid Hrev (source & Hsource & Hwithin)] Hchild. unfold check_link.
  rewrite !unit_bind_Ok, !require_Ok, andb_true_iff, !bool_decide_eq_true.
  intros ([Hissuer Hparent] & _ & _ & Hok). apply bind_Ok in Hok as (t & _ & Hok).
  rewrite !unit_bind_Ok, !require_Ok, device_status_Ok, bool_decide_eq_true in Hok.
  destruct Hok as (_ & _ & Hat & Hheld & Hvalid & _ & _ & Hst & Hnarrow & Hok).
  apply bind_Ok in Hok as (cid & Hcid%evidence_Ok & Hok).
  apply bind_Ok in Hok as (did & Hdid%evidence_Ok & Hok).
  rewrite !unit_bind_Ok, !require_Ok, !negb_true_iff in Hok.
  destruct Hok as (_ & Hdrev & Hsig & Hcrev & [= <-]).
  destruct (verify_delegation link) eqn:Hver; try done.
  split; cbn; [|done..|].
  - rewrite <-Hissuer in Hent. by econstructor.
  - exists source. split; [done|]. intros r Hr. apply Hwithin. by eapply narrowing_attenuates.
Qed.

Lemma check_links_ok request links s s' : chain_ok s →
  Forall (λ link, grant_wf (db_child_grant (sd_body link))) links →
  check_links request s links = Ok s' → chain_ok s'.
Proof.
  intros Hs Hwf. revert s Hs. induction Hwf as [|link links Hl _ IH]; intros s Hs; cbn.
  - by intros [= <-].
  - intros Hok. apply bind_Ok in Hok as (s1 & H1 & Hok). eauto using check_link_ok.
Qed.

Lemma direct_loop_ok request grants best r : direct_loop request best grants = Ok r →
  ∃ grant, grant ∈ grants ∧ capability_grant_id grant = Ok r.1 ∧
    is_grant_revoked r.1 = false ∧ grant_mismatch grant request = None.
Proof.
  revert best. induction grants as [|g l IH]; intros best; cbn; [done|].
  intros Hok. apply bind_Ok in Hok as (id & Hid%evidence_Ok & Hok).
  destruct (grant_mismatch g request) eqn:Hm; [|destruct (is_grant_revoked id) eqn:Hrev].
  1,2: destruct (IH _ Hok) as (g' & Hin & Hrest); exists g'; by split; [right|].
  exists g. injection Hok as <-. split; [by left|done].
Qed.

(** The grants of a proof come from the constructors of grants. *)
Definition proof_wf (p : CapabilityProof) : Prop :=
  match p with
  | DirectProof => True
  | DelegatedProof chain =>
      grant_wf (cr_grant (dc_root chain)) ∧
      Forall (λ link, grant_wf (db_child_grant (sd_body link))) (dc_links chain)
  end.

Lemma evaluate_direct_ok request r : evaluate_direct request = Ok r →
  device_status (rq_device_id request) = StatusActive →
  ∃ grant, capability_grant_id grant = Ok r.1 ∧ entitled (rq_device_id request) grant ∧
    is_grant_revoked r.1 = false ∧ grant_mismatch grant request = None ∧ installed grant.
Proof.
  unfold evaluate_direct. rewrite unit_bind_Ok. intros [_ Hok] Hst.
  apply direct_loop_ok in Hok as (g & Hin & Hid & Hrev & Hm). exists g.
  split_and!; [done|by econstructor|done..|]. by exists (rq_device_id request), r.1.
Qed.

Lemma evaluate_delegated_ok request chain r : proof_wf (DelegatedProof chain) →
  evaluate_delegated request chain = Ok r →
  (∃ grant source, capability_grant_id grant = Ok r.1 ∧ entitled (rq_device_id request) grant ∧
    is_grant_revoked r.1 = false ∧ grant_mismatch grant request = None ∧
    installed source ∧ within grant source) ∨ collision.
Proof.
  intros [Hroot Hlinks]. unfold evaluate_delegated. rewrite unit_bind_Ok. intros [_ Hok].
  apply bind_Ok in Hok as (s0 & H0 & Hok). apply bind_Ok in Hok as (s & Hs & Hok).
  rewrite !unit_bind_Ok, !require_Ok, andb_true_iff, !bool_decide_eq_true in Hok.
  destruct Hok as (_ & [Hholder _] & Hok).
  destruct (grant_mismatch (cs_grant s) request) eqn:Hm; [done|]. injection Hok as <-.
  destruct (check_root_ok _ _ _ Hroot H0) as [[Hs0 _]|]; [left|by right].
  destruct (check_links_ok _ _ _ _ Hs0 Hlinks Hs) as [Hent _ Hid Hrev (source & Hsource & Hin)].
  exists (cs_grant s), source. rewrite Hholder in Hent. done.
Qed.

(** C22. Access control over delegations: a request that is allowed comes from a device
    that is active now, in the state the verifier knows, by a grant that permits the
    request and is not revoked, which the device has of its own or was passed along
    signed links, every one of them between active devices, strictly narrower than the
    one before it, from a device that held the grant when it issued the link. And some
    active device has, of its own and not revoked, a grant that permits the request
    too: a chain gives nobody more than its root has. Otherwise, two texts of the same
    hash are at hand. *)
Theorem capability_sound request proof grant_id delegation_id : proof_wf proof →
  de_outcome (evaluate_capability request proof) = Allowed grant_id delegation_id →
  (ac_account_id (rq_authorization_context request) = ac_account_id view_authorization_context ∧
   ac_epoch (rq_authorization_context request) = ac_epoch view_authorization_context ∧
   ac_checkpoint_id (rq_authorization_context request) = ac_checkpoint_id view_authorization_context ∧
   device_status (rq_device_id request) = StatusActive ∧
   ∃ grant source, capability_grant_id grant = Ok grant_id ∧ is_grant_revoked grant_id = false ∧
     grant_mismatch grant request = None ∧ entitled (rq_device_id request) grant ∧
     installed source ∧ grant_mismatch source request = None) ∨ collision.
Proof.
  intros Hwf. unfold evaluate_capability. destruct (x ← _; _) as [[gid did]|reason] eqn:Hok; [|done].
  intros [= <- <-]. rewrite !unit_bind_Ok, device_status_Ok in Hok. destruct Hok as (Hctx & Hst & Hok).
  unfold validate_current_context in Hctx.
  rewrite !unit_bind_Ok, !require_Ok, !bool_decide_eq_true, N.eqb_eq in Hctx.
  destruct Hctx as (Ha & He & Hc). destruct proof as [|chain].
  - left. split_and!; [done..|].
    destruct (evaluate_direct_ok _ _ Hok Hst) as (g & Hid & Hent & Hrev & Hm & Hin). by exists g, g.
  - destruct (evaluate_delegated_ok _ _ _ Hwf Hok) as [(g & src & Hid & Hent & Hrev & Hm & Hin & Hw)|];
      [left|by right].
    split_and!; [done..|]. exists g, src. by split_and!; try apply Hw.
Qed.

End Decisions.

Module CapabilityExample.
Import ExampleWire ProviderExample GuardianExample.

Definition from_selector (s : ResourceSelector) : N * list (list byte) :=
  match s with ExactPath p => (0, p) | PathPrefix p => (1, p) end.
Definition to_selector (t : N * list (list byte)) : ResourceSelector :=
  if t.1 =? 0 then ExactPath t.2 else PathPrefix t.2.

#[export] Instance wire_selector : WireFormat ResourceSelector := wire_via from_selector to_selector.
#[export] Instance wire_selector_laws : WireLaws ResourceSelector.
Proof. apply wire_via_laws. by intros []. Qed.

Definition from_constraint (c : CapabilityConstraint) : N * N := (constraint_code c, constraint_number c).
Definition to_constraint (t : N * N) : CapabilityConstraint :=
  if t.1 =? 1 then AccountEpochAtLeast t.2 else if t.1 =? 2 then AccountEpochAtMost t.2 else ValidFrom t.2.

#[export] Instance wire_constraint : WireFormat CapabilityConstraint := wire_via from_constraint to_constraint.
#[export] Instance wire_constraint_laws : WireLaws CapabilityConstraint.
Proof. apply wire_via_laws. by intros []. Qed.

Definition from_permission (p : DelegationPermission) : option N :=
  match p with NotDelegable => None | Delegable n => Some n end.
Definition to_permission (o : option N) : DelegationPermission :=
  match o with None => NotDelegable | Some n => Delegable n end.

#[export] Instance wire_permission : WireFormat DelegationPermission := wire_via from_permission to_permission.
#[export] Instance wire_permission_laws : WireLaws DelegationPermission.
Proof. apply wire_via_laws. by intros []. Qed.

Notation grant_parts := (list byte * list byte * ResourceSelector * list CapabilityConstraint
  * DelegationPermission * option N * list Extension)%type.

Definition from_grant (g : CapabilityGrant) : grant_parts :=
  (cg_namespace g, cg_action g, cg_resource g, cg_constraints g, cg_delegation g, cg_expires_at g,
   cg_extensions g).
Definition to_grant (t : grant_parts) : CapabilityGrant :=
  let '(n, a, r, c, d, e, x) := t in mkCapability n a r c d e x.

Definition wire_capability_grant : WireFormat CapabilityGrant := wire_via from_grant to_grant.

#[export] Instance capability_wire : CapabilityWire := {
  wire_capability := wire_capability_grant;
  wire_delegation := {| to_stdvec b := to_stdvec (db_parent_grant_id b, from_grant (db_child_grant b));
                        take_from_bytes _ := None |};
}.
#[export] Instance wire_capability_laws : WireLaws CapabilityGrant (H:=wire_capability).
Proof. apply (wire_via_laws from_grant to_grant). by intros []. Qed.

(** The phone may write to all notes, and passes the shared ones on to the laptop. *)
Definition phone : Digest := dig x41.
Definition laptop : Digest := dig x42.
Definition now : AuthorizationContext := mkAuthContext (dig x21) 3 (dig x22).

Definition notes : CapabilityGrant :=
  mkCapability [x01] [x02] (PathPrefix [[x0a]]) [AccountEpochAtLeast 2] (Delegable 2) None [].
Definition shared_notes : CapabilityGrant :=
  mkCapability [x01] [x02] (PathPrefix [[x0a]; [x0b]]) [AccountEpochAtLeast 2] NotDelegable (Some 90) [].
Definition notes_id : Digest := ok phone (capability_grant_id notes).
Definition shared_id : Digest := ok phone (capability_grant_id shared_notes).

Definition link : SignedDelegation :=
  mkDelegation (mkDelegationBody notes_id shared_notes phone laptop now 50 [x01] [])
    (mkProtocolSignature [x07]).
Definition chain : DelegationChain := mkChain (mkRoot now phone notes []) [link].
Definition request : CapabilityRequest :=
  mkRequest now (dig x51) laptop [x01] [x02] [[x0a]; [x0b]; [x0c]] 60.

#[export] Instance view : CapabilityStateView := {
  view_authorization_context := now;
  device_status d := if bool_decide (d = phone ∨ d = laptop) then StatusActive else StatusUnknown;
  root_grants d := if bool_decide (d = phone) then [notes] else [];
  is_grant_revoked _ := false;
  is_delegation_revoked _ := false;
  recognizes_authorization_context _ := true;
  authorization_context_precedes_or_equals _ _ := true;
  authorization_context_timestamp _ := Some 40;
  device_status_at _ _ := StatusActive;
  held_grant_at _ _ _ := true;
}.

#[export] Instance verifier : DelegationSignatureVerifier := {
  verify_delegation l :=
    if bool_decide (signature_bytes_of (sd_signature l) = [x07]) then SignatureVerified else SignatureInvalid;
}.

Definition edge_id : option Digest :=
  match delegation_id link with Ok id => Some id | Err _ => None end.

End CapabilityExample.

Import ExampleWire CapabilityExample.

Lemma capability_sound_witness :
  de_outcome (evaluate_capability request (DelegatedProof chain)) = Allowed shared_id edge_id ∧
  ∃ grant source, capability_grant_id grant = Ok shared_id ∧ is_grant_revoked shared_id = false ∧
    grant_mismatch grant request = None ∧ entitled laptop grant ∧
    installed source ∧ grant_mismatch source request = None.
Proof.
  split; [evaluate|].
  destruct (capability_sound (HCW:=capability_wire) (HWL:=wire_capability_laws)
    request (DelegatedProof chain) shared_id edge_id) as [(_ & _ & _ & _ & Hex)|Hc].
  - split; [|constructor; [|constructor]]; evaluate.
  - evaluate.
  - exact Hex.
  - destruct (no_collision Hc).
Defined.
