(* ===== verification/IdDevices.v ===== *)
(** * Device authorisations and device operations
      (protocols/krikos-identity/src/device.rs)

    A protocol version of an object has one value and is left out. *)
From stdpp Require Import base tactics list gmap countable orders sorting strings.
From Stdlib Require Import ZArith Lia Strings.Byte.
From S2P Require Import Prelude Bytes IdTypes SortedVec IdKeys IdCapability IdCapVerifier.

Local Open Scope N_scope.

Inductive DeviceClass : Type :=
| GeneralPurpose
| HardwareBacked
| ApplicationOnly
| Service.

(** [DeviceClass::code] and [DeviceClass::from_code]. *)
Definition device_class_code (class : DeviceClass) : N :=
  match class with
  | GeneralPurpose => 1
  | HardwareBacked => 2
  | ApplicationOnly => 3
  | Service => 4
  end.

Definition device_class_from_code (code : N) : result IdentityError DeviceClass :=
  match code with
  | 1 => Ok GeneralPurpose
  | 2 => Ok HardwareBacked
  | 3 => Ok ApplicationOnly
  | 4 => Ok Service
  | _ => Err (UnsupportedCodepoint "device class" code)
  end.

(** [BlindedMetadataCommitment]: its bytes, of which at least eight are distinct. *)
Record BlindedMetadataCommitment : Type := mkCommitment { commitment_bytes : list byte }.

Definition commitment_new (bytes : list byte) : result IdentityError BlindedMetadataCommitment :=
  if len (remove_dups bytes) <? 8
  then Err (InvalidRelationship "blinded metadata commitment entropy profile")
  else Ok (mkCommitment bytes).

Record DeviceAuthorization : Type := mkDeviceAuthorization {
  da_device_id : Digest;
  da_descriptor : DeviceDescriptor;
  da_device_class : DeviceClass;
  da_metadata_commitment : option BlindedMetadataCommitment;
  da_capabilities : list CapabilityGrant;
  da_authorization_epoch : N;
  da_extensions : Extensions;
}.

Record DeviceAuthorizationUpdate : Type := mkDeviceUpdate {
  du_device_id : Digest;
  du_device_class : DeviceClass;
  du_capabilities : list CapabilityGrant;
  du_authorization_epoch : N;
  du_extensions : Extensions;
}.

Record DeviceMetadataUpdate : Type := mkMetadataUpdate {
  mu_device_id : Digest;
  mu_metadata_commitment : option BlindedMetadataCommitment;
  mu_extensions : Extensions;
}.

(** [SuspendDevice] and [ReinstateDevice]. *)
Record SimpleDeviceOperation : Type := mkSimpleDevice {
  so_device_id : Digest;
  so_extensions : Extensions;
}.

Record RevokeDevice : Type := mkRevokeDevice {
  rv_device_id : Digest;
  rv_reason_code : option N;
  rv_extensions : Extensions;
}.

Record RotateDeviceKeys : Type := mkRotate {
  rt_old_device_id : Digest;
  rt_new_authorization : DeviceAuthorization;
  rt_extensions : Extensions;
}.

#[global] Instance DeviceClass_EqDecision : EqDecision DeviceClass.
Proof. solve_decision. Defined.
#[global] Instance BlindedMetadataCommitment_EqDecision : EqDecision BlindedMetadataCommitment.
Proof. solve_decision. Defined.
#[global] Instance DeviceAuthorization_EqDecision : EqDecision DeviceAuthorization.
Proof. solve_decision. Defined.
#[global] Instance DeviceAuthorizationUpdate_EqDecision : EqDecision DeviceAuthorizationUpdate.
Proof. solve_decision. Defined.
#[global] Instance DeviceMetadataUpdate_EqDecision : EqDecision DeviceMetadataUpdate.
Proof. solve_decision. Defined.
#[global] Instance SimpleDeviceOperation_EqDecision : EqDecision SimpleDeviceOperation.
Proof. solve_decision. Defined.
#[global] Instance RevokeDevice_EqDecision : EqDecision RevokeDevice.
Proof. solve_decision. Defined.
#[global] Instance RotateDeviceKeys_EqDecision : EqDecision RotateDeviceKeys.
Proof. solve_decision. Defined.

(** ** Construction *)

(** [DeviceMetadataUpdate::new]. *)
Definition metadata_update_new (device_id : Digest) (commitment : option BlindedMetadataCommitment)
    (extensions : Extensions) : result IdentityError DeviceMetadataUpdate :=
  _ ← validate_critical [] extensions;
  Ok (mkMetadataUpdate device_id commitment extensions).

(** [SuspendDevice::new] and [ReinstateDevice::new]. *)
Definition simple_device_new (device_id : Digest) (extensions : Extensions)
    : result IdentityError SimpleDeviceOperation :=
  _ ← validate_critical [] extensions;
  Ok (mkSimpleDevice device_id extensions).

(** [RevokeDevice::new]. *)
Definition revoke_device_new (device_id : Digest) (reason_code : option N) (extensions : Extensions)
    : result IdentityError RevokeDevice :=
  _ ← validate_critical [] extensions;
  Ok (mkRevokeDevice device_id reason_code extensions).

(** [RotateDeviceKeys::new]. *)
Definition rotate_new (old_device_id : Digest) (new_authorization : DeviceAuthorization)
    (extensions : Extensions) : result IdentityError RotateDeviceKeys :=
  if bool_decide (old_device_id = da_device_id new_authorization)
  then Err (InvalidRelationship "device key rotation identifiers") else
  _ ← validate_critical [] extensions;
  Ok (mkRotate old_device_id new_authorization extensions).

Section Authorizations.
  Context `{HB : Blake3Hash} `{HKW : !KeyWire} `{HCW : !CapabilityWire}.

(** [validate_capabilities]: the grants with their identifiers, sorted unless they
    were read from the wire. *)
Definition validate_capabilities (capabilities : list CapabilityGrant) (canonical_wire : bool)
    : result IdentityError (list CapabilityGrant) :=
  if MAX_CAPABILITIES_PER_DEVICE <? len capabilities
  then Err (limit "device capability grants" (len capabilities) MAX_CAPABILITIES_PER_DEVICE) else
  keyed ← collect ((λ grant, id ← capability_grant_id grant; Ok (id, grant)) <$> capabilities);
  let keyed := if canonical_wire then keyed else sort_by digest_le fst keyed in
  _ ← check_ascending digest_le fst "device capability grants" keyed;
  bounded "device capability grants" MAX_CAPABILITIES_PER_DEVICE (snd <$> keyed).

(** [DeviceAuthorization::from_fields]. *)
Definition authorization_from_fields (device_id : Digest) (descriptor : DeviceDescriptor)
    (device_class : DeviceClass) (commitment : option BlindedMetadataCommitment)
    (capabilities : list CapabilityGrant) (authorization_epoch : N) (extensions : Extensions)
    (canonical_wire : bool) : result IdentityError DeviceAuthorization :=
  id ← IdKeys.device_id descriptor;
  if bool_decide (id ≠ device_id) then Err (InvalidIdentifier "device descriptor") else
  capabilities ← validate_capabilities capabilities canonical_wire;
  _ ← validate_critical [] extensions;
  Ok (mkDeviceAuthorization device_id descriptor device_class commitment capabilities
        authorization_epoch extensions).

(** [DeviceAuthorization::new]. *)
Definition authorization_new (device_id : Digest) (descriptor : DeviceDescriptor)
    (device_class : DeviceClass) (commitment : option BlindedMetadataCommitment)
    (capabilities : list CapabilityGrant) (authorization_epoch : N) (extensions : Extensions)
    : result IdentityError DeviceAuthorization :=
  authorization_from_fields device_id descriptor device_class commitment capabilities
    authorization_epoch extensions false.

(** [DeviceAuthorizationUpdate::from_fields]. *)
Definition update_from_fields (device_id : Digest) (device_class : DeviceClass)
    (capabilities : list CapabilityGrant) (authorization_epoch : N) (extensions : Extensions)
    (canonical_wire : bool) : result IdentityError DeviceAuthorizationUpdate :=
  capabilities ← validate_capabilities capabilities canonical_wire;
  _ ← validate_critical [] extensions;
  Ok (mkDeviceUpdate device_id device_class capabilities authorization_epoch extensions).

(** [DeviceAuthorizationUpdate::new]. *)
Definition update_new (device_id : Digest) (device_class : DeviceClass)
    (capabilities : list CapabilityGrant) (authorization_epoch : N) (extensions : Extensions)
    : result IdentityError DeviceAuthorizationUpdate :=
  update_from_fields device_id device_class capabilities authorization_epoch extensions false.

End Authorizations.
