(* ===== verification/IdEvidence.v ===== *)
(** * Evidence for the admission of an event
      (protocols/krikos-identity/src/event.rs)

    Approvals of an intent, freshness of the preceding checkpoint, and the
    observation that starts a delay. *)
From stdpp Require Import base tactics list gmap countable orders sorting strings.
From Stdlib Require Import ZArith Lia Strings.Byte.
From S2P Require Import Prelude Bytes IdTypes SortedVec IdKeys IdProviders IdApprovals.

Local Open Scope N_scope.

(** ** Approvals of an intent *)

Record EventIntentApprovalBody : Type := mkIntentBody {
  ib_controller_id : Digest;
  ib_proposal_id : Digest;
  ib_extensions : Extensions;
}.

Record SignedEventIntentApproval : Type := mkIntentApproval {
  ia_body : EventIntentApprovalBody;
  ia_signatures : list KeyedSignature;
}.

(** [EventIntentApprovals] is a list of approvals. *)
Notation EventIntentApprovals := (list SignedEventIntentApproval).

#[global] Instance EventIntentApprovalBody_EqDecision : EqDecision EventIntentApprovalBody.
Proof. solve_decision. Defined.
#[global] Instance SignedEventIntentApproval_EqDecision : EqDecision SignedEventIntentApproval.
Proof. solve_decision. Defined.

(** [EventIntentApprovalBody::new]. *)
Definition intent_body_new (controller_id proposal_id : Digest) (extensions : Extensions)
    : result IdentityError EventIntentApprovalBody :=
  _ ← validate_critical [] extensions;
  Ok (mkIntentBody controller_id proposal_id extensions).

(** [SignedEventIntentApproval::from_sorted]. *)
Definition intent_approval_from_sorted (body : EventIntentApprovalBody)
    (signatures : list KeyedSignature) : result IdentityError SignedEventIntentApproval :=
  if bool_decide (signatures = []) then Err (EmptyCollection "event intent signatures") else
  signatures ← bounded "event intent signatures" MAX_ACTIVE_CRYPTO_SUITES signatures;
  _ ← check_ascending sort_key_le sort_key "event intent signatures" signatures;
  Ok (mkIntentApproval body signatures).

(** [SignedEventIntentApproval::new]. *)
Definition intent_approval_new (body : EventIntentApprovalBody) (signatures : list KeyedSignature)
    : result IdentityError SignedEventIntentApproval :=
  intent_approval_from_sorted body (sort_by sort_key_le sort_key signatures).

Definition intent_controller_id (a : SignedEventIntentApproval) : Digest :=
  ib_controller_id (ia_body a).

Definition intent_proposal_id (a : SignedEventIntentApproval) : Digest :=
  ib_proposal_id (ia_body a).

(** [EventIntentApprovals::from_sorted]. *)
Definition intents_from_sorted (approvals : list SignedEventIntentApproval)
    : result IdentityError EventIntentApprovals :=
  match approvals with
  | [] => Err (EmptyCollection "event intent approvals")
  | first :: _ =>
      approvals ← bounded "event intent approvals" MAX_AUTHORIZATION_SIGNATURES approvals;
      _ ← check_ascending digest_le intent_controller_id "event intent controllers" approvals;
      if existsb (λ a, bool_decide (intent_proposal_id a ≠ intent_proposal_id first)) approvals
      then Err (InvalidRelationship "event intent proposal set")
      else Ok approvals
  end.

(** [EventIntentApprovals::new]. *)
Definition intents_new (approvals : list SignedEventIntentApproval)
    : result IdentityError EventIntentApprovals :=
  intents_from_sorted (sort_by digest_le intent_controller_id approvals).

(** [EventIntentApprovals::proposal_id]: a set of approvals is not empty. *)
Definition intents_proposal_id (approvals : EventIntentApprovals) : option Digest :=
  intent_proposal_id <$> head approvals.

(** ** Freshness and delays *)

(** [ProviderReceipts] is a list of receipts. *)
Notation ProviderReceipts := (list InclusionReceipt).

Inductive FreshnessEvidence : Type :=
| FreshLocalKnown (checkpoint_id : Digest)
| FreshProviderQuorum (checkpoint_id provider_policy_id : Digest) (receipts : ProviderReceipts).

Inductive DelayEvidence : Type :=
| NoDelay
| DelayProviderQuorum (provider_policy_id : Digest) (required_quorum observed_at : N)
    (intent_approvals : EventIntentApprovals) (receipts : ProviderReceipts)
| DelayGuardianRecovery (provider_policy_id : Digest) (required_quorum observed_at : N)
    (proposal_id : Digest) (receipts : ProviderReceipts).

#[global] Instance FreshnessEvidence_EqDecision : EqDecision FreshnessEvidence.
Proof. solve_decision. Defined.
#[global] Instance DelayEvidence_EqDecision : EqDecision DelayEvidence.
Proof. solve_decision. Defined.

Definition receipt_subject (r : InclusionReceipt) : ProviderLogSubject := le_subject (ir_entry r).
Definition receipt_observed_at (r : InclusionReceipt) : N := le_observed_at (ir_entry r).

(** [FreshnessEvidence::provider_quorum]. *)
Definition freshness_provider_quorum (checkpoint_id provider_policy_id : Digest)
    (receipts : ProviderReceipts) : result IdentityError FreshnessEvidence :=
  if bool_decide (receipts = []) then Err (EmptyCollection "freshness provider receipts")
  else if existsb (λ r, bool_decide (receipt_subject r ≠ SubjectCheckpoint checkpoint_id)) receipts
  then Err (InvalidRelationship "freshness checkpoint receipts")
  else Ok (FreshProviderQuorum checkpoint_id provider_policy_id receipts).

(** [FreshnessEvidence::checkpoint_id], [provider_policy_id] and [provider_receipts]. *)
Definition freshness_checkpoint_id (f : FreshnessEvidence) : Digest :=
  match f with FreshLocalKnown id | FreshProviderQuorum id _ _ => id end.

Definition freshness_policy_id (f : FreshnessEvidence) : option Digest :=
  match f with FreshLocalKnown _ => None | FreshProviderQuorum _ id _ => Some id end.

Definition freshness_receipts (f : FreshnessEvidence) : option ProviderReceipts :=
  match f with FreshLocalKnown _ => None | FreshProviderQuorum _ _ receipts => Some receipts end.

(** The time that a quorum of the observations does not exceed: they are sorted and
    indexed with [quorum - 1], which the caller has checked to be in range. *)
Definition quorum_time (quorum : N) (observations : list N) : N :=
  List.nth (N.to_nat (quorum - 1)) (sort_by N.le id observations) 0.

(** [DelayEvidence::provider_quorum]. *)
Definition delay_provider_quorum (provider_policy_id : Digest) (required_quorum : N)
    (intent_approvals : EventIntentApprovals) (receipts : ProviderReceipts)
    : result IdentityError DelayEvidence :=
  if bool_decide (receipts = []) then Err (EmptyCollection "delay provider receipts")
  else if existsb (λ r, bool_decide
            (Some (receipt_subject r) ≠ SubjectEventIntent <$> intents_proposal_id intent_approvals))
            receipts
  then Err (InvalidRelationship "delay proposal intent receipts")
  else if len receipts <? required_quorum then Err UnsatisfiableThreshold
  else Ok (DelayProviderQuorum provider_policy_id required_quorum
             (quorum_time required_quorum (receipt_observed_at <$> receipts))
             intent_approvals receipts).

(** [DelayEvidence::guardian_recovery]. *)
Definition delay_guardian_recovery (provider_policy_id : Digest) (required_quorum : N)
    (receipts : ProviderReceipts) : result IdentityError DelayEvidence :=
  match receipts with
  | [] => Err (EmptyCollection "guardian recovery delay provider receipts")
  | first :: _ =>
      match receipt_subject first with
      | SubjectEventIntent proposal_id =>
          if existsb (λ r, bool_decide (receipt_subject r ≠ SubjectEventIntent proposal_id)) receipts
          then Err (InvalidRelationship "guardian recovery delay proposal receipts")
          else if len receipts <? required_quorum then Err UnsatisfiableThreshold
          else Ok (DelayGuardianRecovery provider_policy_id required_quorum
                     (quorum_time required_quorum (receipt_observed_at <$> receipts))
                     proposal_id receipts)
      | _ => Err (InvalidRelationship "guardian recovery delay receipt subject")
      end
  end.

(** The accessors of [DelayEvidence]. *)
Definition delay_proposal_id (d : DelayEvidence) : option Digest :=
  match d with
  | NoDelay => None
  | DelayProviderQuorum _ _ _ intents _ => intents_proposal_id intents
  | DelayGuardianRecovery _ _ _ proposal_id _ => Some proposal_id
  end.

Definition delay_policy_id (d : DelayEvidence) : option Digest :=
  match d with
  | NoDelay => None
  | DelayProviderQuorum id _ _ _ _ | DelayGuardianRecovery id _ _ _ _ => Some id
  end.

Definition delay_observed_at (d : DelayEvidence) : option N :=
  match d with
  | NoDelay => None
  | DelayProviderQuorum _ _ t _ _ | DelayGuardianRecovery _ _ t _ _ => Some t
  end.

Definition delay_required_quorum (d : DelayEvidence) : option N :=
  match d with
  | NoDelay => None
  | DelayProviderQuorum _ q _ _ _ | DelayGuardianRecovery _ q _ _ _ => Some q
  end.

Definition delay_intent_approvals (d : DelayEvidence) : option EventIntentApprovals :=
  match d with
  | DelayProviderQuorum _ _ _ intents _ => Some intents
  | NoDelay | DelayGuardianRecovery _ _ _ _ _ => None
  end.

Definition is_guardian_recovery (d : DelayEvidence) : bool :=
  match d with DelayGuardianRecovery _ _ _ _ _ => true | _ => false end.

Definition delay_receipts (d : DelayEvidence) : option ProviderReceipts :=
  match d with
  | NoDelay => None
  | DelayProviderQuorum _ _ _ _ receipts | DelayGuardianRecovery _ _ _ _ receipts => Some receipts
  end.

(** ** Admission *)

Record AdmissionEvidence : Type := mkAdmission {
  ae_proposal_id : Digest;
  ae_preceding_checkpoint : Digest;
  ae_provider_policy_id : Digest;
  ae_freshness : FreshnessEvidence;
  ae_delay : DelayEvidence;
  ae_extensions : Extensions;
}.

#[global] Instance AdmissionEvidence_EqDecision : EqDecision AdmissionEvidence.
Proof. solve_decision. Defined.

(** An identifier that is there differs from another one. *)
Definition some_other (o : option Digest) (id : Digest) : bool :=
  match o with Some other => bool_decide (other ≠ id) | None => false end.

(** [AdmissionEvidence::new]. *)
Definition admission_new (proposal_id preceding_checkpoint provider_policy_id : Digest)
    (freshness : FreshnessEvidence) (delay : DelayEvidence) (extensions : Extensions)
    : result IdentityError AdmissionEvidence :=
  if bool_decide (freshness_checkpoint_id freshness ≠ preceding_checkpoint)
  then Err (InvalidRelationship "admission preceding/freshness checkpoint")
  else if some_other (delay_proposal_id delay) proposal_id
  then Err (InvalidRelationship "admission delayed proposal")
  else if some_other (freshness_policy_id freshness) provider_policy_id
          || some_other (delay_policy_id delay) provider_policy_id
  then Err (InvalidRelationship "admission provider policy")
  else
    _ ← validate_critical [] extensions;
    Ok (mkAdmission proposal_id preceding_checkpoint provider_policy_id freshness delay extensions).
