(* ===== verification/IdMigration.v ===== *)
(** * Migration of the cryptographic suite, upgrades and retirement
      (protocols/krikos-identity/src/crypto_migration.rs)

    A protocol version of an object has one value and is left out. *)
From stdpp Require Import base tactics list gmap countable orders sorting strings.
From Stdlib Require Import ZArith Lia Strings.Byte.
From S2P Require Import Prelude Bytes IdTypes SortedVec IdKeys IdGuardians.

Local Open Scope N_scope.

(** The codes of the algorithms of the first version. *)
Definition BLAKE3_256_CODE : N := 1.
Definition X25519_CODE : N := 1.
Definition BLAKE3_DERIVE_KEY_CODE : N := 1.
Definition XCHACHA20_POLY1305_CODE : N := 1.

(** ** Suites *)

Record CryptoSuiteDescriptor : Type := mkSuite {
  su_suite_code : N;
  su_hash_code : N;
  su_signature_code : N;
  su_agreement_code : N;
  su_kdf_code : N;
  su_aead_code : N;
  su_extensions : Extensions;
}.

#[global] Instance CryptoSuiteDescriptor_EqDecision : EqDecision CryptoSuiteDescriptor.
Proof. solve_decision. Defined.

Definition validate_nonzero_code (code : N) (resource : string) : result IdentityError () :=
  if code =? 0 then Err (ZeroValue resource) else Ok ().

(** [CryptoSuiteDescriptor::from_canonical_wire]. *)
Definition suite_new (suite_code hash_code signature_code agreement_code kdf_code aead_code : N)
    (extensions : Extensions) : result IdentityError CryptoSuiteDescriptor :=
  _ ← validate_nonzero_code suite_code "cryptographic suite code";
  _ ← validate_nonzero_code hash_code "hash algorithm code";
  _ ← validate_nonzero_code signature_code "signature algorithm code";
  _ ← validate_nonzero_code agreement_code "agreement algorithm code";
  _ ← validate_nonzero_code kdf_code "key derivation algorithm code";
  _ ← validate_nonzero_code aead_code "authenticated encryption algorithm code";
  _ ← validate_critical [] extensions;
  Ok (mkSuite suite_code hash_code signature_code agreement_code kdf_code aead_code extensions).

(** [CryptoSuiteDescriptor::v1]. *)
Definition suite_v1 : result IdentityError CryptoSuiteDescriptor :=
  suite_new 1 BLAKE3_256_CODE ED25519_CODE X25519_CODE BLAKE3_DERIVE_KEY_CODE
    XCHACHA20_POLY1305_CODE [].

Definition permits_v1_in_place_migration (s : CryptoSuiteDescriptor) : bool :=
  (su_hash_code s =? BLAKE3_256_CODE)
  && (su_agreement_code s =? X25519_CODE)
  && (su_kdf_code s =? BLAKE3_DERIVE_KEY_CODE)
  && (su_aead_code s =? XCHACHA20_POLY1305_CODE).

(** ** Migrations *)

Record ControllerKeyBinding : Type := mkBinding {
  kb_controller_id : Digest;
  kb_old_key_id : Digest;
  kb_new_signing_key : AlgorithmPublicKey;
  kb_extensions : Extensions;
}.

Record CryptoMigrationBody : Type := mkMigration {
  mg_account_id : Digest;
  mg_from_suite_id : Digest;
  mg_to_suite : CryptoSuiteDescriptor;
  mg_bindings : list ControllerKeyBinding;
  mg_successor_account_id : option Digest;
  mg_nonce : list byte;
  mg_extensions : Extensions;
}.

Record ControllerKeyBindingProof : Type := mkBindingProof {
  bp_migration_id : Digest;
  bp_controller_id : Digest;
  bp_old_key_signature : AlgorithmSignature;
  bp_new_key_signature : AlgorithmSignature;
}.

Record BeginCryptoMigration : Type := mkBeginMigration {
  bm_migration : CryptoMigrationBody;
  bm_proofs : list ControllerKeyBindingProof;
  bm_extensions : Extensions;
}.

Record ActivateCryptoMigration : Type := mkActivate {
  am_migration_id : Digest;
  am_begin_event_id : Digest;
  am_extensions : Extensions;
}.

Inductive RetireCryptoSuiteMode : Type :=
| AbortCandidate
| RetirePrevious.

Record RetireCryptoSuite : Type := mkRetireSuite {
  rs_migration_id : Digest;
  rs_mode : RetireCryptoSuiteMode;
  rs_phase_event_id : Digest;
  rs_successor_account_id : option Digest;
  rs_extensions : Extensions;
}.

(** The compatibility of an upgrade has one value and is left out. *)
Record ProtocolUpgrade : Type := mkUpgrade {
  pu_from_major : N;
  pu_to_major : N;
  pu_specification_digest : Digest;
  pu_successor_account_id : option Digest;
  pu_extensions : Extensions;
}.

Record RetireAccount : Type := mkRetireAccount {
  ra_successor_account_id : option Digest;
  ra_reason_code : option N;
  ra_extensions : Extensions;
}.

#[global] Instance ControllerKeyBinding_EqDecision : EqDecision ControllerKeyBinding.
Proof. solve_decision. Defined.
#[global] Instance CryptoMigrationBody_EqDecision : EqDecision CryptoMigrationBody.
Proof. solve_decision. Defined.
#[global] Instance ControllerKeyBindingProof_EqDecision : EqDecision ControllerKeyBindingProof.
Proof. solve_decision. Defined.
#[global] Instance BeginCryptoMigration_EqDecision : EqDecision BeginCryptoMigration.
Proof. solve_decision. Defined.
#[global] Instance ActivateCryptoMigration_EqDecision : EqDecision ActivateCryptoMigration.
Proof. solve_decision. Defined.
#[global] Instance RetireCryptoSuiteMode_EqDecision : EqDecision RetireCryptoSuiteMode.
Proof. solve_decision. Defined.
#[global] Instance RetireCryptoSuite_EqDecision : EqDecision RetireCryptoSuite.
Proof. solve_decision. Defined.
#[global] Instance ProtocolUpgrade_EqDecision : EqDecision ProtocolUpgrade.
Proof. solve_decision. Defined.
#[global] Instance RetireAccount_EqDecision : EqDecision RetireAccount.
Proof. solve_decision. Defined.

(** [ControllerKeyBinding::from_canonical_wire]. *)
Definition binding_new (controller_id old_key_id : Digest) (new_signing_key : AlgorithmPublicKey)
    (extensions : Extensions) : result IdentityError ControllerKeyBinding :=
  _ ← validate_critical [] extensions;
  Ok (mkBinding controller_id old_key_id new_signing_key extensions).

(** The inner loop over the bindings after one of them. *)
Fixpoint binding_distinct (binding : ControllerKeyBinding) (others : list ControllerKeyBinding)
    : result IdentityError () :=
  match others with
  | [] => Ok ()
  | other :: others =>
      if bool_decide (kb_old_key_id binding = kb_old_key_id other)
      then Err (DuplicateElement "old controller key identifiers")
      else if bool_decide (kb_new_signing_key binding = kb_new_signing_key other)
      then Err DuplicateSigningKey
      else binding_distinct binding others
  end.

Fixpoint bindings_distinct (to_suite : CryptoSuiteDescriptor) (bindings : list ControllerKeyBinding)
    : result IdentityError () :=
  match bindings with
  | [] => Ok ()
  | binding :: others =>
      _ ← binding_distinct binding others;
      if negb (ak_code (kb_new_signing_key binding) =? su_signature_code to_suite)
      then Err (InvalidRelationship "migration signing key algorithm")
      else bindings_distinct to_suite others
  end.

(** [ControllerKeyBindingProofSet::from_canonical_wire] and [try_new]. *)
Definition proofs_from_sorted (proofs : list ControllerKeyBindingProof)
    : result IdentityError (list ControllerKeyBindingProof) :=
  if bool_decide (proofs = []) then Err (EmptyCollection "controller key binding proofs") else
  _ ← check_ascending digest_le bp_controller_id "controller key binding proofs" proofs;
  Ok proofs.

Definition proofs_new (proofs : list ControllerKeyBindingProof)
    : result IdentityError (list ControllerKeyBindingProof) :=
  proofs ← bounded "controller key binding proofs" MAX_CONTROLLERS proofs;
  proofs ← bounded "controller key binding proofs" MAX_CONTROLLERS
             (sort_by digest_le bp_controller_id proofs);
  proofs_from_sorted proofs.

(** [ActivateCryptoMigration::from_canonical_wire]. *)
Definition activate_new (migration_id begin_event_id : Digest) (extensions : Extensions)
    : result IdentityError ActivateCryptoMigration :=
  _ ← validate_critical [] extensions;
  Ok (mkActivate migration_id begin_event_id extensions).

(** [RetireCryptoSuite::from_canonical_wire]. *)
Definition retire_suite_new (migration_id : Digest) (mode : RetireCryptoSuiteMode)
    (phase_event_id : Digest) (successor_account_id : option Digest) (extensions : Extensions)
    : result IdentityError RetireCryptoSuite :=
  if bool_decide (mode = AbortCandidate) && bool_decide (successor_account_id ≠ None)
  then Err (InvalidRelationship "aborted migration successor account") else
  _ ← validate_critical [] extensions;
  Ok (mkRetireSuite migration_id mode phase_event_id successor_account_id extensions).

(** [ProtocolUpgrade::from_canonical_wire]. *)
Definition upgrade_new (from_major to_major : N) (specification_digest : Digest)
    (successor_account_id : option Digest) (extensions : Extensions)
    : result IdentityError ProtocolUpgrade :=
  if to_major <=? from_major
  then Err (InvalidRelationship "protocol upgrade major versions") else
  _ ← validate_critical [] extensions;
  Ok (mkUpgrade from_major to_major specification_digest successor_account_id extensions).

(** [RetireAccount::from_canonical_wire]. *)
Definition retire_account_new (successor_account_id : option Digest) (reason_code : option N)
    (extensions : Extensions) : result IdentityError RetireAccount :=
  _ ← validate_critical [] extensions;
  Ok (mkRetireAccount successor_account_id reason_code extensions).

(** ** Identifiers *)

(** The encodings of the module. *)
Class MigrationWire : Type := {
  wire_suite :: WireFormat CryptoSuiteDescriptor;
  wire_migration :: WireFormat CryptoMigrationBody;
}.

Section Migrations.
  Context `{HB : Blake3Hash} `{HMW : !MigrationWire}.

#[export] Instance suite_codec : CanonicalCodec CryptoSuiteDescriptor :=
  wire_codec "cryptographic suite descriptor bytes".
#[export] Instance migration_codec : CanonicalCodec CryptoMigrationBody :=
  limited_codec MAX_ACCOUNT_EVENT_BYTES "cryptographic migration body bytes".

Definition crypto_suite_id (s : CryptoSuiteDescriptor) : result IdentityError Digest :=
  derive DomainCryptoSuite s.

Definition crypto_migration_id (m : CryptoMigrationBody) : result IdentityError Digest :=
  derive DomainCryptoMigration m.

(** [CryptoMigrationBody::from_canonical_wire]. *)
Definition migration_from_sorted (account_id from_suite_id : Digest) (to_suite : CryptoSuiteDescriptor)
    (bindings : list ControllerKeyBinding) (successor_account_id : option Digest)
    (nonce : list byte) (extensions : Extensions) : result IdentityError CryptoMigrationBody :=
  if bool_decide (bindings = []) then Err (EmptyCollection "controller key bindings") else
  _ ← check_ascending digest_le kb_controller_id "controller key bindings" bindings;
  _ ← bindings_distinct to_suite bindings;
  if forallb (λ b, bool_decide (b = x00)) nonce
  then Err (ZeroValue "cryptographic migration nonce")
  else if bool_decide (successor_account_id = Some account_id)
  then Err (InvalidRelationship "migration successor account")
  else if bool_decide (successor_account_id = None) && negb (permits_v1_in_place_migration to_suite)
  then Err (InvalidRelationship "in-place cryptographic migration suite")
  else
    to_suite_id ← crypto_suite_id to_suite;
    if bool_decide (from_suite_id = to_suite_id)
    then Err (InvalidRelationship "cryptographic migration suites") else
    _ ← validate_critical [] extensions;
    Ok (mkMigration account_id from_suite_id to_suite bindings successor_account_id nonce extensions).

(** [CryptoMigrationBody::try_new]. *)
Definition migration_new (account_id from_suite_id : Digest) (to_suite : CryptoSuiteDescriptor)
    (bindings : list ControllerKeyBinding) (successor_account_id : option Digest)
    (nonce : list byte) (extensions : Extensions) : result IdentityError CryptoMigrationBody :=
  bindings ← bounded "controller key bindings" MAX_CONTROLLERS bindings;
  bindings ← bounded "controller key bindings" MAX_CONTROLLERS
               (sort_by digest_le kb_controller_id bindings);
  migration_from_sorted account_id from_suite_id to_suite bindings successor_account_id nonce extensions.

(** The loop over the bindings and their proofs. *)
Fixpoint proofs_cover (migration_id : Digest) (to_suite : CryptoSuiteDescriptor)
    (pairs : list (ControllerKeyBinding * ControllerKeyBindingProof)) : result IdentityError () :=
  match pairs with
  | [] => Ok ()
  | (binding, proof) :: pairs =>
      if bool_decide (kb_controller_id binding ≠ bp_controller_id proof)
         || bool_decide (bp_migration_id proof ≠ migration_id)
      then Err (InvalidRelationship "migration binding proof coverage")
      else if negb (as_code (bp_new_key_signature proof) =? su_signature_code to_suite)
      then Err (InvalidRelationship "migration binding proof signature algorithm")
      else proofs_cover migration_id to_suite pairs
  end.

(** [BeginCryptoMigration::from_canonical_wire]. *)
Definition begin_migration_new (migration : CryptoMigrationBody)
    (proofs : list ControllerKeyBindingProof) (extensions : Extensions)
    : result IdentityError BeginCryptoMigration :=
  migration_id ← crypto_migration_id migration;
  if negb (len (mg_bindings migration) =? len proofs)
  then Err (InvalidRelationship "migration binding proof coverage") else
  _ ← proofs_cover migration_id (mg_to_suite migration) (zip (mg_bindings migration) proofs);
  _ ← validate_critical [] extensions;
  Ok (mkBeginMigration migration proofs extensions).

End Migrations.
