(* ===== verification/IdRecovery.v ===== *)
(** * Recovery operations and the resolution of forks
      (protocols/krikos-identity/src/recovery.rs)

    A protocol version of an object has one value and is left out. *)
From stdpp Require Import base tactics list gmap countable orders sorting strings.
From Stdlib Require Import ZArith Lia Strings.Byte.
From S2P Require Import Prelude Bytes IdTypes SortedVec IdKeys IdPolicy IdProviders IdGuardians IdEvidence.

Local Open Scope N_scope.

Definition MAX_DEVICES : N := 1024.
Definition MAX_FORK_HEADS : N := 16.

(** ** The plan of a recovery *)

Record RecoveryAuthorityPlan : Type := mkPlan {
  pl_account_id : Digest;
  pl_prior_checkpoint_id : Digest;
  pl_prior_event_head : Digest;
  pl_recovery_policy_id : Digest;
  pl_recovery_policy_version : N;
  pl_nonce : list byte;
  pl_replacement_controllers : list ControllerDescriptor;
  pl_replacement_control_policy : ControlPolicy;
  pl_replacement_recovery_policy : RecoveryPolicy;
  pl_retained_devices : list Digest;
  pl_expires_at : N;
  pl_extensions : Extensions;
}.

Record RecoveryProposal : Type := mkProposal {
  rp_plan : RecoveryAuthorityPlan;
  rp_extensions : Extensions;
}.

(** [RecoveryThresholdEvidence]: the policy it names, and the approvals of guardians
    if the policy asks for them. *)
Record RecoveryThresholdEvidence : Type := mkThresholdEvidence {
  te_recovery_policy_id : Digest;
  te_recovery_policy_version : N;
  te_guardian_approvals : option (list SignedGuardianApproval);
}.

Record BeginRecovery : Type := mkBegin {
  br_recovery_id : Digest;
  br_proposal : RecoveryProposal;
  br_threshold_evidence : RecoveryThresholdEvidence;
  br_extensions : Extensions;
}.

Record VetoRecovery : Type := mkVeto {
  vr_expected_pending_recovery : Digest;
  vr_control_policy_id : Digest;
  vr_freshness : FreshnessEvidence;
  vr_extensions : Extensions;
}.

Record CancelRecovery : Type := mkCancel {
  cn_expected_pending_recovery : Digest;
  cn_threshold_evidence : RecoveryThresholdEvidence;
  cn_freshness : FreshnessEvidence;
  cn_extensions : Extensions;
}.

Record RecoveryDelayAnchor : Type := mkAnchor {
  an_account_id : Digest;
  an_recovery_id : Digest;
  an_begin_proposal_id : Digest;
  an_provider_policy_id : Digest;
  an_required_quorum : N;
  an_observed_at : N;
  an_receipts : ProviderReceipts;
  an_extensions : Extensions;
}.

Record FinalizeRecovery : Type := mkFinalize {
  fr_expected_pending_recovery : Digest;
  fr_delay_anchor : RecoveryDelayAnchor;
  fr_finalized_at : N;
  fr_extensions : Extensions;
}.

Inductive ForkCommonAncestor : Type :=
| AncestorGenesis (anchor : Digest)
| AncestorEvent (event_id : Digest).

Record ForkDescriptor : Type := mkForkDescriptor {
  fd_account_id : Digest;
  fd_common_ancestor : ForkCommonAncestor;
  fd_heads : list Digest;
  fd_extensions : Extensions;
}.

Record ResolveFork : Type := mkResolveFork {
  rf_fork_id : Digest;
  rf_fork : ForkDescriptor;
  rf_selected_head : Digest;
  rf_revoked_controllers : list Digest;
  rf_revoked_devices : list Digest;
  rf_extensions : Extensions;
}.

#[global] Instance RecoveryAuthorityPlan_EqDecision : EqDecision RecoveryAuthorityPlan.
Proof. solve_decision. Defined.
#[global] Instance RecoveryProposal_EqDecision : EqDecision RecoveryProposal.
Proof. solve_decision. Defined.
#[global] Instance RecoveryThresholdEvidence_EqDecision : EqDecision RecoveryThresholdEvidence.
Proof. solve_decision. Defined.
#[global] Instance BeginRecovery_EqDecision : EqDecision BeginRecovery.
Proof. solve_decision. Defined.
#[global] Instance VetoRecovery_EqDecision : EqDecision VetoRecovery.
Proof. solve_decision. Defined.
#[global] Instance CancelRecovery_EqDecision : EqDecision CancelRecovery.
Proof. solve_decision. Defined.
#[global] Instance RecoveryDelayAnchor_EqDecision : EqDecision RecoveryDelayAnchor.
Proof. solve_decision. Defined.
#[global] Instance FinalizeRecovery_EqDecision : EqDecision FinalizeRecovery.
Proof. solve_decision. Defined.
#[global] Instance ForkCommonAncestor_EqDecision : EqDecision ForkCommonAncestor.
Proof. solve_decision. Defined.
#[global] Instance ForkDescriptor_EqDecision : EqDecision ForkDescriptor.
Proof. solve_decision. Defined.
#[global] Instance ResolveFork_EqDecision : EqDecision ResolveFork.
Proof. solve_decision. Defined.

(** [validate_strictly_sorted] on identifiers. *)
Definition validate_strictly_sorted (values : list Digest) (resource : string)
    : result IdentityError () :=
  check_ascending digest_le id resource values.

(** [<[T]>::binary_search] on a sorted list of identifiers. *)
Definition sorted_contains (id : Digest) (ids : list Digest) : bool := id_set_contains ids id.

(** ** Evidence and operations *)

(** [RecoveryThresholdEvidence::controller_policy]. *)
Definition threshold_controller_policy (policy_id : Digest) (version : N) : RecoveryThresholdEvidence :=
  mkThresholdEvidence policy_id version None.

(** What the accessors of a set of approvals, which is not empty, read of its first. *)
Definition first_approval (p : SignedGuardianApproval → bool) (approvals : list SignedGuardianApproval)
    : bool :=
  match approvals with first :: _ => p first | [] => false end.

(** [RecoveryThresholdEvidence::guardian_approvals]. *)
Definition threshold_guardian_approvals (policy_id : Digest) (version : N)
    (approvals : list SignedGuardianApproval) : result IdentityError RecoveryThresholdEvidence :=
  if first_approval (λ a, bool_decide (gg_recovery_policy_id (go_grant (ga_opening a)) ≠ policy_id))
       approvals
  then Err (InvalidRelationship "guardian evidence recovery policy")
  else Ok (mkThresholdEvidence policy_id version (Some approvals)).

(** [RecoveryProposal::try_new]. *)
Definition proposal_new (plan : RecoveryAuthorityPlan) (extensions : Extensions)
    : result IdentityError RecoveryProposal :=
  _ ← validate_critical [] extensions;
  Ok (mkProposal plan extensions).

(** [VetoRecovery::try_new]. *)
Definition veto_new (expected_pending_recovery control_policy_id : Digest)
    (freshness : FreshnessEvidence) (extensions : Extensions) : result IdentityError VetoRecovery :=
  _ ← validate_critical [] extensions;
  Ok (mkVeto expected_pending_recovery control_policy_id freshness extensions).

(** [CancelRecovery::try_new]. *)
Definition cancel_new (expected_pending_recovery : Digest) (evidence : RecoveryThresholdEvidence)
    (freshness : FreshnessEvidence) (extensions : Extensions) : result IdentityError CancelRecovery :=
  if match te_guardian_approvals evidence with
     | Some approvals =>
         first_approval (λ a, bool_decide (gb_recovery_id (ga_body a) ≠ expected_pending_recovery)
                              || bool_decide (gb_decision (ga_body a) ≠ DecideCancel)) approvals
     | None => false
     end
  then Err (InvalidRelationship "cancel guardian approval subject") else
  _ ← validate_critical [] extensions;
  Ok (mkCancel expected_pending_recovery evidence freshness extensions).

(** The loop of [RecoveryDelayAnchor::derive_observed_at]. *)
Fixpoint anchor_observations (account_id begin_proposal_id : Digest) (receipts : ProviderReceipts)
    : result IdentityError (list N) :=
  match receipts with
  | [] => Ok []
  | receipt :: receipts =>
      if bool_decide (le_account_id (ir_entry receipt) ≠ account_id)
         || bool_decide (receipt_subject receipt ≠ SubjectEventIntent begin_proposal_id)
      then Err (InvalidRelationship "recovery delay receipt subject") else
      observations ← anchor_observations account_id begin_proposal_id receipts;
      Ok (receipt_observed_at receipt :: observations)
  end.

Definition derive_observed_at (account_id begin_proposal_id : Digest) (required_quorum : N)
    (receipts : ProviderReceipts) : result IdentityError N :=
  if len receipts <? required_quorum then Err UnsatisfiableThreshold else
  observations ← anchor_observations account_id begin_proposal_id receipts;
  Ok (quorum_time required_quorum observations).

(** [RecoveryDelayAnchor::from_wire] and [RecoveryDelayAnchor::try_new]. *)
Definition anchor_from_wire (account_id recovery_id begin_proposal_id provider_policy_id : Digest)
    (required_quorum observed_at : N) (receipts : ProviderReceipts) (extensions : Extensions)
    : result IdentityError RecoveryDelayAnchor :=
  expected ← derive_observed_at account_id begin_proposal_id required_quorum receipts;
  if negb (observed_at =? expected)
  then Err (InvalidRelationship "recovery delay anchor timestamp") else
  _ ← validate_critical [] extensions;
  Ok (mkAnchor account_id recovery_id begin_proposal_id provider_policy_id required_quorum
        observed_at receipts extensions).

Definition anchor_new (account_id recovery_id begin_proposal_id provider_policy_id : Digest)
    (required_quorum : N) (receipts : ProviderReceipts) (extensions : Extensions)
    : result IdentityError RecoveryDelayAnchor :=
  observed_at ← derive_observed_at account_id begin_proposal_id required_quorum receipts;
  anchor_from_wire account_id recovery_id begin_proposal_id provider_policy_id required_quorum
    observed_at receipts extensions.

(** [FinalizeRecovery::try_new]. *)
Definition finalize_new (expected_pending_recovery : Digest) (anchor : RecoveryDelayAnchor)
    (finalized_at : N) (extensions : Extensions) : result IdentityError FinalizeRecovery :=
  if bool_decide (expected_pending_recovery ≠ an_recovery_id anchor)
  then Err (InvalidRelationship "finalize recovery delay anchor")
  else if finalized_at <? an_observed_at anchor
  then Err (InvalidRelationship "finalize recovery time")
  else
    _ ← validate_critical [] extensions;
    Ok (mkFinalize expected_pending_recovery anchor finalized_at extensions).

(** ** Forks *)

(** [ForkDescriptor::from_sorted] and [ForkDescriptor::try_new]. *)
Definition fork_from_sorted (account_id : Digest) (ancestor : ForkCommonAncestor)
    (heads : list Digest) (extensions : Extensions) : result IdentityError ForkDescriptor :=
  if len heads <? 2 then Err (EmptyCollection "fork branch heads") else
  _ ← validate_strictly_sorted heads "fork branch heads";
  if match ancestor with AncestorEvent event_id => sorted_contains event_id heads | _ => false end
  then Err (InvalidRelationship "fork ancestor/head") else
  _ ← validate_critical [] extensions;
  heads ← bounded "fork branch heads" MAX_FORK_HEADS heads;
  Ok (mkForkDescriptor account_id ancestor heads extensions).

Definition fork_new (account_id : Digest) (ancestor : ForkCommonAncestor) (heads : list Digest)
    (extensions : Extensions) : result IdentityError ForkDescriptor :=
  fork_from_sorted account_id ancestor (sort_by digest_le id heads) extensions.

(** ** Identifiers *)

(** The encodings of the module. *)
Class RecoveryWire : Type := {
  wire_proposal :: WireFormat RecoveryProposal;
  wire_fork :: WireFormat (ForkCommonAncestor * list Digest);
}.

Section Recovery.
  Context `{HB : Blake3Hash} `{HKW : !KeyWire} `{HPW : !PolicyWire} `{HRW : !RecoveryWire}.

#[export] Instance proposal_codec : CanonicalCodec RecoveryProposal :=
  limited_codec MAX_ACCOUNT_EVENT_BYTES "recovery proposal bytes".

Definition recovery_id (p : RecoveryProposal) : result IdentityError Digest :=
  derive DomainRecovery p.

(** [ForkDescriptor::fork_id]. *)
Definition fork_id (d : ForkDescriptor) : result IdentityError Digest :=
  encoded ← encode_wire (fd_common_ancestor d, fd_heads d);
  Ok (hash_bytes DomainFork encoded).

(** Two neighbours with the same identifier. *)
Fixpoint equal_neighbors (identified : list (Digest * ControllerDescriptor)) : bool :=
  match identified with
  | p :: ((q :: _) as rest) => bool_decide (p.1 = q.1) || equal_neighbors rest
  | _ => false
  end.

(** [sorted_controller_descriptors]. *)
Definition sorted_controller_descriptors (controllers : list ControllerDescriptor)
    : result IdentityError (list ControllerDescriptor) :=
  if bool_decide (controllers = []) then Err (EmptyCollection "replacement controllers")
  else if MAX_CONTROLLERS <? len controllers
  then Err (limit "replacement controllers" (len controllers) MAX_CONTROLLERS) else
  identified ← collect ((λ c, id ← controller_id c; Ok (id, c)) <$> controllers);
  let identified := sort_by digest_le fst identified in
  if equal_neighbors identified
  then Err (DuplicateElement "replacement controller identifiers")
  else if any_pair (λ p q, bool_decide (cd_signing_key p.2 = cd_signing_key q.2)) identified
  then Err DuplicateSigningKey
  else Ok (snd <$> identified).

(** The first loop of [validate_sorted_controller_descriptors]. *)
Fixpoint controllers_ascending (previous : option Digest) (controllers : list ControllerDescriptor)
    : result IdentityError () :=
  match controllers with
  | [] => Ok ()
  | controller :: controllers =>
      id ← controller_id controller;
      match previous with
      | Some previous =>
          match order digest_le previous id with
          | Eq => Err (DuplicateElement "replacement controller identifiers")
          | Gt => Err NonCanonical
          | Lt => controllers_ascending (Some id) controllers
          end
      | None => controllers_ascending (Some id) controllers
      end
  end.

Definition validate_sorted_controller_descriptors (controllers : list ControllerDescriptor)
    : result IdentityError () :=
  if bool_decide (controllers = []) then Err (EmptyCollection "replacement controllers")
  else if MAX_CONTROLLERS <? len controllers
  then Err (limit "replacement controllers" (len controllers) MAX_CONTROLLERS) else
  _ ← controllers_ascending None controllers;
  if any_pair (λ p q, bool_decide (cd_signing_key p = cd_signing_key q)) controllers
  then Err DuplicateSigningKey else Ok ().

(** [RecoveryAuthorityPlan::from_sorted]. *)
Definition plan_from_sorted (account_id prior_checkpoint_id prior_event_head policy_id : Digest)
    (policy_version : N) (nonce : list byte) (controllers : list ControllerDescriptor)
    (control_policy : ControlPolicy) (recovery_policy : RecoveryPolicy)
    (retained_devices : list Digest) (expires_at : N) (extensions : Extensions)
    : result IdentityError RecoveryAuthorityPlan :=
  if bool_decide (nonce = replicate 32 x00) then Err (ZeroValue "recovery nonce")
  else if expires_at =? 0 then Err (ZeroValue "recovery expiry") else
  _ ← validate_sorted_controller_descriptors controllers;
  _ ← validate_strictly_sorted retained_devices "retained recovery devices";
  retained_devices ← bounded "retained recovery devices" MAX_DEVICES retained_devices;
  _ ← validate_satisfiable control_policy controllers;
  _ ← validate_controller_authority recovery_policy controllers;
  if ry_policy_version recovery_policy <? policy_version
  then Err (InvalidRelationship "recovery policy version rollback") else
  _ ← (if ry_policy_version recovery_policy =? policy_version then
         replacement_id ← recovery_policy_id recovery_policy;
         if bool_decide (replacement_id ≠ policy_id)
         then Err (InvalidRelationship "same-version replacement recovery policy") else Ok ()
       else Ok ());
  _ ← validate_critical [] extensions;
  controllers ← bounded "replacement controllers" MAX_CONTROLLERS controllers;
  Ok (mkPlan account_id prior_checkpoint_id prior_event_head policy_id policy_version nonce
        controllers control_policy recovery_policy retained_devices expires_at extensions).

(** [RecoveryAuthorityPlan::try_new]. *)
Definition plan_new (account_id prior_checkpoint_id prior_event_head policy_id : Digest)
    (policy_version : N) (nonce : list byte) (controllers : list ControllerDescriptor)
    (control_policy : ControlPolicy) (recovery_policy : RecoveryPolicy)
    (retained_devices : list Digest) (expires_at : N) (extensions : Extensions)
    : result IdentityError RecoveryAuthorityPlan :=
  controllers ← sorted_controller_descriptors controllers;
  plan_from_sorted account_id prior_checkpoint_id prior_event_head policy_id policy_version nonce
    controllers control_policy recovery_policy (sort_by digest_le id retained_devices)
    expires_at extensions.

(** [BeginRecovery::from_wire]; the slot of the pending recovery it expects is empty. *)
Definition begin_from_wire (expected_pending_recovery : option Digest) (id : Digest)
    (proposal : RecoveryProposal) (evidence : RecoveryThresholdEvidence) (extensions : Extensions)
    : result IdentityError BeginRecovery :=
  if bool_decide (expected_pending_recovery ≠ None)
  then Err (InvalidRelationship "begin recovery occupied slot")
  else if bool_decide (te_recovery_policy_id evidence ≠ pl_recovery_policy_id (rp_plan proposal))
       || negb (te_recovery_policy_version evidence =? pl_recovery_policy_version (rp_plan proposal))
  then Err (InvalidRelationship "begin recovery policy evidence") else
  derived ← recovery_id proposal;
  if bool_decide (derived ≠ id) then Err (InvalidIdentifier "begin recovery proposal")
  else if match te_guardian_approvals evidence with
          | Some approvals =>
              first_approval (λ a, bool_decide (gb_recovery_id (ga_body a) ≠ id)
                || bool_decide (gb_protected_account_id (ga_body a) ≠ pl_account_id (rp_plan proposal))
                || bool_decide (gb_decision (ga_body a) ≠ DecideBegin)) approvals
          | None => false
          end
  then Err (InvalidRelationship "begin guardian approval subject") else
  _ ← validate_critical [] extensions;
  Ok (mkBegin id proposal evidence extensions).

(** [BeginRecovery::try_new]. *)
Definition begin_new (proposal : RecoveryProposal) (evidence : RecoveryThresholdEvidence)
    (extensions : Extensions) : result IdentityError BeginRecovery :=
  id ← recovery_id proposal;
  begin_from_wire None id proposal evidence extensions.

(** [ResolveFork::from_sorted] and [ResolveFork::try_new]. *)
Definition resolve_from_sorted (id : Digest) (fork : ForkDescriptor) (selected_head : Digest)
    (revoked_controllers revoked_devices : list Digest) (extensions : Extensions)
    : result IdentityError ResolveFork :=
  derived ← fork_id fork;
  if bool_decide (derived ≠ id) then Err (InvalidIdentifier "fork resolution descriptor")
  else if negb (sorted_contains selected_head (fd_heads fork))
  then Err (InvalidRelationship "fork selected branch") else
  _ ← validate_strictly_sorted revoked_controllers "fork controller revocations";
  _ ← validate_strictly_sorted revoked_devices "fork device revocations";
  _ ← validate_critical [] extensions;
  revoked_controllers ← bounded "fork controller revocations" MAX_CONTROLLERS revoked_controllers;
  revoked_devices ← bounded "fork device revocations" MAX_DEVICES revoked_devices;
  Ok (mkResolveFork id fork selected_head revoked_controllers revoked_devices extensions).

Definition resolve_new (fork : ForkDescriptor) (selected_head : Digest)
    (revoked_controllers revoked_devices : list Digest) (extensions : Extensions)
    : result IdentityError ResolveFork :=
  id ← fork_id fork;
  resolve_from_sorted id fork selected_head (sort_by digest_le (λ x, x) revoked_controllers)
    (sort_by digest_le (λ x, x) revoked_devices) extensions.

End Recovery.
