(* ===== verification/IdEvents.v ===== *)
(** * Account events and genesis
      (protocols/krikos-identity/src: event.rs, genesis.rs)

    An event has a body, which names the operation and the events before it, the
    evidence for its admission, and the approvals of controllers. *)
From stdpp Require Import base tactics list gmap countable orders sorting strings.
From Stdlib Require Import ZArith Lia Strings.Byte.
From S2P Require Import Prelude Bytes IdTypes SortedVec IdKeys IdPolicy IdApprovals IdGuardians IdDevices IdEvidence IdRecovery IdMigration.

Local Open Scope N_scope.

(** ** Predecessors and operations *)

Inductive EventPredecessors : Type :=
| PredGenesis (anchor : Digest)
| PredEvents (event_ids : list Digest).

(** [EventPredecessors::events_from_sorted] and [EventPredecessors::events]. *)
Definition events_from_sorted (event_ids : list Digest) : result IdentityError EventPredecessors :=
  if bool_decide (event_ids = []) then Err (EmptyCollection "event predecessors") else
  event_ids ← bounded "event predecessors" MAX_FORK_HEADS event_ids;
  _ ← check_ascending digest_le id "event predecessors" event_ids;
  Ok (PredEvents event_ids).

Definition predecessors_events (event_ids : list Digest) : result IdentityError EventPredecessors :=
  events_from_sorted (sort_by digest_le id event_ids).

Definition genesis_anchor_of (p : EventPredecessors) : option Digest :=
  match p with PredGenesis anchor => Some anchor | PredEvents _ => None end.

Definition event_heads (p : EventPredecessors) : option (list Digest) :=
  match p with PredGenesis _ => None | PredEvents event_ids => Some event_ids end.

Inductive AccountOperation : Type :=
| AuthorizeDevice (authorization : DeviceAuthorization)
| UpdateDeviceAuthorization (update : DeviceAuthorizationUpdate)
| UpdateDeviceMetadata (update : DeviceMetadataUpdate)
| SuspendDevice (suspend : SimpleDeviceOperation)
| ReinstateDevice (reinstate : SimpleDeviceOperation)
| RevokeDeviceOp (revoke : RevokeDevice)
| RotateDeviceKeysOp (rotation : RotateDeviceKeys)
| AddController (descriptor : ControllerDescriptor)
| RemoveController (controller_id : Digest)
| ChangeControlPolicy (policy : ControlPolicy)
| ChangeRecoveryPolicy (policy : RecoveryPolicy)
| ChangeProviderPolicy (policy : ProviderPolicy)
| BeginRecoveryOp (begin : BeginRecovery)
| VetoRecoveryOp (veto : VetoRecovery)
| CancelRecoveryOp (cancel : CancelRecovery)
| FinalizeRecoveryOp (finalize : FinalizeRecovery)
| ResolveForkOp (resolution : ResolveFork)
| BeginCryptoMigrationOp (begin : BeginCryptoMigration)
| ActivateCryptoMigrationOp (activate : ActivateCryptoMigration)
| RetireCryptoSuiteOp (retire : RetireCryptoSuite)
| UpgradeProtocol (upgrade : ProtocolUpgrade)
| RetireAccountOp (retire : RetireAccount).

(** [AccountOperation::kind]. *)
Definition operation_kind (operation : AccountOperation) : OperationKind :=
  match operation with
  | AuthorizeDevice _ => OpAuthorizeDevice
  | UpdateDeviceAuthorization _ => OpUpdateDeviceAuthorization
  | UpdateDeviceMetadata _ => OpUpdateDeviceMetadata
  | SuspendDevice _ => OpSuspendDevice
  | ReinstateDevice _ => OpReinstateDevice
  | RevokeDeviceOp _ => OpRevokeDevice
  | RotateDeviceKeysOp _ => OpRotateDeviceKeys
  | AddController _ => OpAddController
  | RemoveController _ => OpRemoveController
  | ChangeControlPolicy _ => OpChangeControlPolicy
  | ChangeRecoveryPolicy _ => OpChangeRecoveryPolicy
  | ChangeProviderPolicy _ => OpChangeProviderPolicy
  | BeginRecoveryOp _ => OpBeginRecovery
  | VetoRecoveryOp _ => OpVetoRecovery
  | CancelRecoveryOp _ => OpCancelRecovery
  | FinalizeRecoveryOp _ => OpFinalizeRecovery
  | ResolveForkOp _ => OpResolveFork
  | BeginCryptoMigrationOp _ => OpBeginCryptoMigration
  | ActivateCryptoMigrationOp _ => OpActivateCryptoMigration
  | RetireCryptoSuiteOp _ => OpRetireCryptoSuite
  | UpgradeProtocol _ => OpUpgradeProtocol
  | RetireAccountOp _ => OpRetireAccount
  end.

Record EventBody : Type := mkEventBody {
  eb_account_id : Digest;
  eb_sequence : N;
  eb_resulting_epoch : N;
  eb_predecessors : EventPredecessors;
  eb_operation : AccountOperation;
  eb_created_at : N;
  eb_nonce : list byte;
  eb_extensions : Extensions;
}.

(** [ControllerApprovals] is a list of approvals. *)
Record AuthorizedEvent : Type := mkEvent {
  ev_body : EventBody;
  ev_admission_evidence : AdmissionEvidence;
  ev_approvals : list SignedControllerApproval;
}.

Record AccountGenesis : Type := mkGenesis {
  gn_account_nonce : list byte;
  gn_created_at : N;
  gn_initial_policy : ControlPolicy;
  gn_initial_controllers : list ControllerDescriptor;
  gn_initial_recovery_policy : RecoveryPolicy;
  gn_initial_provider_policy : ProviderPolicy;
  gn_extensions : Extensions;
}.

#[global] Instance EventPredecessors_EqDecision : EqDecision EventPredecessors.
Proof. solve_decision. Defined.
#[global] Instance AccountOperation_EqDecision : EqDecision AccountOperation.
Proof. solve_decision. Defined.
#[global] Instance EventBody_EqDecision : EqDecision EventBody.
Proof. solve_decision. Defined.
#[global] Instance AuthorizedEvent_EqDecision : EqDecision AuthorizedEvent.
Proof. solve_decision. Defined.

(** ** Construction and identifiers *)

(** The encodings of the module; an admitted event is identified by its body and
    the identifier of its evidence. *)
Class EventWire : Type := {
  wire_event_body :: WireFormat EventBody;
  wire_admitted_event :: WireFormat (EventBody * Digest);
  wire_admission :: WireFormat AdmissionEvidence;
  wire_event :: WireFormat AuthorizedEvent;
  wire_genesis :: WireFormat AccountGenesis;
}.

Section Events.
  Context `{HB : Blake3Hash} `{HEW : !EventWire}.

#[export] Instance event_body_codec : CanonicalCodec EventBody :=
  limited_codec MAX_ACCOUNT_EVENT_BYTES "account event body bytes".
#[export] Instance admission_codec : CanonicalCodec AdmissionEvidence :=
  wire_codec "admission evidence bytes".
#[export] Instance event_codec : CanonicalCodec AuthorizedEvent :=
  limited_codec MAX_ACCOUNT_EVENT_BYTES "authorized account event bytes".
#[export] Instance genesis_codec : CanonicalCodec AccountGenesis :=
  wire_codec "account genesis bytes".

(** [EventBody::proposal_id], [EventBody::admitted_event_id] and
    [AdmissionEvidence::admission_evidence_id]. *)
Definition proposal_id (b : EventBody) : result IdentityError Digest :=
  derive DomainAccountProposal b.

Definition admitted_event_id (b : EventBody) (admission_evidence_id : Digest)
    : result IdentityError Digest :=
  bytes ← encode_wire (b, admission_evidence_id);
  Ok (hash_bytes DomainAccountEvent bytes).

Definition admission_evidence_id (e : AdmissionEvidence) : result IdentityError Digest :=
  derive DomainAdmissionEvidence e.

(** [AdmissionEvidence::event_id_for_body] and [AuthorizedEvent::event_id]. *)
Definition event_id_for_body (e : AdmissionEvidence) (b : EventBody) : result IdentityError Digest :=
  id ← proposal_id b;
  if bool_decide (ae_proposal_id e ≠ id)
  then Err (InvalidRelationship "authorized event admission subject") else
  evidence_id ← admission_evidence_id e;
  admitted_event_id b evidence_id.

Definition event_id (e : AuthorizedEvent) : result IdentityError Digest :=
  event_id_for_body (ev_admission_evidence e) (ev_body e).

(** The predecessors an operation asks for. *)
Definition validate_operation_predecessors (account_id : Digest) (sequence : N)
    (predecessors : EventPredecessors) (operation : AccountOperation) : result IdentityError () :=
  let one_head :=
    match event_heads predecessors with Some heads => len heads =? 1 | None => true end in
  match operation with
  | ResolveForkOp resolution =>
      if bool_decide (fd_account_id (rf_fork resolution) ≠ account_id)
         || bool_decide (event_heads predecessors ≠ Some (fd_heads (rf_fork resolution)))
      then Err InvalidPredecessor else Ok ()
  | BeginRecoveryOp begin =>
      let plan := rp_plan (br_proposal begin) in
      if bool_decide (pl_account_id plan ≠ account_id) then Err AccountMismatch
      else if (sequence =? 1)
           || bool_decide (event_heads predecessors ≠ Some [pl_prior_event_head plan])
      then Err InvalidPredecessor else Ok ()
  | BeginCryptoMigrationOp begin =>
      if bool_decide (mg_account_id (bm_migration begin) ≠ account_id) then Err AccountMismatch
      else if negb one_head then Err InvalidPredecessor else Ok ()
  | _ => if negb one_head then Err InvalidPredecessor else Ok ()
  end.

(** [EventBody::new]. *)
Definition event_body_new (account_id : Digest) (sequence resulting_epoch : N)
    (predecessors : EventPredecessors) (operation : AccountOperation) (created_at : N)
    (nonce : list byte) (extensions : Extensions) : result IdentityError EventBody :=
  if sequence =? 0 then Err InvalidSequence
  else if bool_decide (nonce = replicate 16 x00) then Err (ZeroValue "account event nonce")
  else if if sequence =? 1 then bool_decide (genesis_anchor_of predecessors = None)
          else bool_decide (event_heads predecessors = None)
  then Err InvalidPredecessor else
  _ ← validate_operation_predecessors account_id sequence predecessors operation;
  _ ← validate_critical [] extensions;
  let body := mkEventBody account_id sequence resulting_epoch predecessors operation created_at
                nonce extensions in
  encoded ← encode_wire body;
  if MAX_ACCOUNT_EVENT_BYTES <? len encoded
  then Err (limit "account event body bytes" (len encoded) MAX_ACCOUNT_EVENT_BYTES)
  else Ok body.

(** Operations whose authority is not that of the approvals of the event. *)
Definition requires_empty_controller_approvals (operation : AccountOperation) : bool :=
  match operation with
  | BeginRecoveryOp begin =>
      bool_decide (te_guardian_approvals (br_threshold_evidence begin) ≠ None)
  | CancelRecoveryOp cancel =>
      bool_decide (te_guardian_approvals (cn_threshold_evidence cancel) ≠ None)
  | FinalizeRecoveryOp _ => true
  | _ => false
  end.

(** [AuthorizedEvent::new]. *)
Definition event_new (body : EventBody) (evidence : AdmissionEvidence)
    (approvals : list SignedControllerApproval) : result IdentityError AuthorizedEvent :=
  id ← event_id_for_body evidence body;
  if match eb_operation body with
     | BeginRecoveryOp begin =>
         bool_decide (ae_preceding_checkpoint evidence ≠ pl_prior_checkpoint_id (rp_plan (br_proposal begin)))
     | _ => false
     end
  then Err (InvalidRelationship "begin recovery admission checkpoint")
  else if negb (Bool.eqb (bool_decide (approvals = []))
                  (requires_empty_controller_approvals (eb_operation body)))
  then Err (InvalidRelationship "authorized event controller approval cardinality") else
  evidence_id ← admission_evidence_id evidence;
  if existsb (λ a, bool_decide (event_subject (sa_body a) ≠ Some (id, evidence_id))) approvals
  then Err (InvalidRelationship "authorized event approval subject") else
  let event := mkEvent body evidence approvals in
  encoded ← encode_wire event;
  if MAX_ACCOUNT_EVENT_BYTES <? len encoded
  then Err (limit "authorized account event bytes" (len encoded) MAX_ACCOUNT_EVENT_BYTES)
  else Ok event.

(** [AccountGenesis::account_id] and [AccountGenesis::genesis_anchor]. *)
Definition account_id (g : AccountGenesis) : result IdentityError Digest := derive DomainAccountId g.
Definition genesis_anchor (g : AccountGenesis) : result IdentityError Digest :=
  derive DomainGenesisAnchor g.

End Events.

Section Genesis.
  Context `{HB : Blake3Hash} `{HKW : !KeyWire} `{HPW : !PolicyWire}.

(** The check of neighbours in [AccountGenesis::from_sorted]. *)
Fixpoint initial_ascending (controllers : list ControllerDescriptor) : result IdentityError () :=
  match controllers with
  | a :: ((b :: _) as rest) =>
      left_id ← controller_id a;
      right_id ← controller_id b;
      match order digest_le left_id right_id with
      | Eq => Err (DuplicateElement "initial controller identifiers")
      | Gt => Err NonCanonical
      | Lt => initial_ascending rest
      end
  | _ => Ok ()
  end.

(** [AccountGenesis::from_sorted]. *)
Definition genesis_from_sorted (nonce : list byte) (created_at : N) (policy : ControlPolicy)
    (controllers : list ControllerDescriptor) (recovery_policy : RecoveryPolicy)
    (provider_policy : ProviderPolicy) (extensions : Extensions)
    : result IdentityError AccountGenesis :=
  if bool_decide (nonce = replicate 32 x00) then Err (ZeroValue "account nonce")
  else if bool_decide (controllers = []) then Err (EmptyCollection "initial controllers") else
  controllers ← bounded "initial controllers" MAX_CONTROLLERS controllers;
  _ ← initial_ascending controllers;
  if any_pair (λ p q, bool_decide (cd_signing_key p = cd_signing_key q)) controllers
  then Err DuplicateSigningKey
  else if negb (pp_policy_version provider_policy =? 0)
  then Err (InvalidPolicy "genesis provider version")
  else if negb (ry_policy_version recovery_policy =? 0)
  then Err (InvalidPolicy "genesis recovery version") else
  _ ← validate_satisfiable policy controllers;
  _ ← validate_controller_authority recovery_policy controllers;
  _ ← validate_critical [] extensions;
  Ok (mkGenesis nonce created_at policy controllers recovery_policy provider_policy extensions).

(** [AccountGenesis::new]. *)
Definition genesis_new (nonce : list byte) (created_at : N) (policy : ControlPolicy)
    (controllers : list ControllerDescriptor) (recovery_policy : RecoveryPolicy)
    (provider_policy : ProviderPolicy) (extensions : Extensions)
    : result IdentityError AccountGenesis :=
  if MAX_CONTROLLERS <? len controllers
  then Err (limit "initial controllers" (len controllers) MAX_CONTROLLERS) else
  identified ← collect ((λ c, id ← controller_id c; Ok (id, c)) <$> controllers);
  genesis_from_sorted nonce created_at policy (snd <$> sort_by digest_le fst identified)
    recovery_policy provider_policy extensions.

End Genesis.
