(* ===== verification/IdAccount.v ===== *)
(** * The projected state of an account: devices and controllers
      (protocols/krikos-identity/src/state.rs)

    The fields of an account that its events change. Operations either give the next
    state or an error; on an error the caller keeps the state it had. *)
From stdpp Require Import base tactics list gmap countable orders sorting strings.
From Stdlib Require Import ZArith Lia Strings.Byte.
From S2P Require Import Prelude Bytes IdTypes SortedVec IdKeys IdPolicy IdProviders IdApprovals IdGuardians IdCapability IdDevices IdEvidence IdRecovery IdMigration IdEvents.

Local Open Scope N_scope.

Definition MAX_HISTORY_PAGE_EVENTS : N := 256.

(** ** State *)

Record PendingRecoveryObservation : Type := mkObservation {
  po_admission_evidence_id : Digest;
  po_provider_policy_id : Digest;
  po_required_quorum : N;
  po_observed_at : N;
  po_delay_deadline : N;
  po_lifetime_deadline : N;
  po_receipts : ProviderReceipts;
}.

Record PendingRecovery : Type := mkPending {
  pr_recovery_id : Digest;
  pr_proposal : RecoveryProposal;
  pr_pre_control_policy_id : Digest;
  pr_begin_event_id : Digest;
  pr_begin_proposal_id : Digest;
  pr_begin_observation : PendingRecoveryObservation;
}.

Record MigrationKey : Type := mkMigrationKey {
  mk_controller_id : Digest;
  mk_key : AlgorithmPublicKey;
}.

Record RetiredCryptoSuite : Type := mkRetiredSuite {
  rc_suite_id : Digest;
  rc_retired_at : N;
}.

Record StableCrypto : Type := mkStable {
  sc_suite : CryptoSuiteDescriptor;
  sc_migrated_keys : list MigrationKey;
  sc_retired_suites : list RetiredCryptoSuite;
  sc_key_tombstones : list AlgorithmPublicKey;
}.

Inductive CryptoProjection : Type :=
| Stable (stable : StableCrypto)
| Candidate (previous : StableCrypto) (migration : CryptoMigrationBody) (begin_event_id : Digest)
| Dual (previous : StableCrypto) (migration : CryptoMigrationBody)
    (begin_event_id activation_event_id : Digest).

Inductive RetirementProjection : Type :=
| RetiredAccount (retire : RetireAccount)
| RetiredByMigration (migration_id successor_account_id : Digest) (retired_at : N).

Inductive ProjectionLifecycle : Type :=
| LifeActive
| LifeRecoveryPending
| LifeForked
| LifeMigrationPending
| LifeMigrationDual
| LifeUpgradePending
| LifeRetired.

Record ProjectedController : Type := mkProjectedController {
  pc_id : Digest;
  pc_descriptor : ControllerDescriptor;
}.

Inductive ProjectedDeviceLifecycle : Type :=
| DeviceIsActive
| DeviceIsSuspended
| DeviceIsRevoked.

Record ProjectedDevice : Type := mkProjectedDevice {
  dv_id : Digest;
  dv_descriptor : DeviceDescriptor;
  dv_class : DeviceClass;
  dv_metadata_commitment : option BlindedMetadataCommitment;
  dv_capabilities : list CapabilityGrant;
  dv_authorization_epoch : N;
  dv_lifecycle : ProjectedDeviceLifecycle;
}.

(** [AccountState] without its history: the lineage and the branches of a fork. *)
Record Projection : Type := mkProjection {
  p_account_id : Digest;
  p_genesis_anchor : Digest;
  p_protocol_major : N;
  p_sequence : N;
  p_epoch : N;
  p_heads : list Digest;
  p_active_controllers : list ProjectedController;
  p_revoked_controllers : list ProjectedController;
  p_devices : list ProjectedDevice;
  p_control_policy : ControlPolicy;
  p_control_policy_id : Digest;
  p_recovery_policy : RecoveryPolicy;
  p_recovery_policy_id : Digest;
  p_provider_policy : ProviderPolicy;
  p_provider_policy_id : Digest;
  p_pending_recovery : option PendingRecovery;
  p_crypto : CryptoProjection;
  p_upgrade : option ProtocolUpgrade;
  p_retirement : option RetirementProjection;
  p_lifecycle : ProjectionLifecycle;
}.

#[global] Instance PendingRecoveryObservation_EqDecision : EqDecision PendingRecoveryObservation.
Proof. solve_decision. Defined.
#[global] Instance PendingRecovery_EqDecision : EqDecision PendingRecovery.
Proof. solve_decision. Defined.
#[global] Instance MigrationKey_EqDecision : EqDecision MigrationKey.
Proof. solve_decision. Defined.
#[global] Instance RetiredCryptoSuite_EqDecision : EqDecision RetiredCryptoSuite.
Proof. solve_decision. Defined.
#[global] Instance StableCrypto_EqDecision : EqDecision StableCrypto.
Proof. solve_decision. Defined.
#[global] Instance CryptoProjection_EqDecision : EqDecision CryptoProjection.
Proof. solve_decision. Defined.
#[global] Instance RetirementProjection_EqDecision : EqDecision RetirementProjection.
Proof. solve_decision. Defined.
#[global] Instance ProjectionLifecycle_EqDecision : EqDecision ProjectionLifecycle.
Proof. solve_decision. Defined.
#[global] Instance ProjectedController_EqDecision : EqDecision ProjectedController.
Proof. solve_decision. Defined.
#[global] Instance ProjectedDeviceLifecycle_EqDecision : EqDecision ProjectedDeviceLifecycle.
Proof. solve_decision. Defined.
#[global] Instance ProjectedDevice_EqDecision : EqDecision ProjectedDevice.
Proof. solve_decision. Defined.
#[global] Instance Projection_EqDecision : EqDecision Projection.
Proof. solve_decision. Defined.

(** ** Assignments *)

Definition set_lifecycle (l : ProjectionLifecycle) (s : Projection) : Projection :=
  mkProjection (p_account_id s) (p_genesis_anchor s) (p_protocol_major s) (p_sequence s) (p_epoch s)
    (p_heads s) (p_active_controllers s) (p_revoked_controllers s) (p_devices s)
    (p_control_policy s) (p_control_policy_id s) (p_recovery_policy s) (p_recovery_policy_id s)
    (p_provider_policy s) (p_provider_policy_id s) (p_pending_recovery s) (p_crypto s)
    (p_upgrade s) (p_retirement s) l.

Definition set_position (sequence epoch : N) (heads : list Digest) (s : Projection) : Projection :=
  mkProjection (p_account_id s) (p_genesis_anchor s) (p_protocol_major s) sequence epoch
    heads (p_active_controllers s) (p_revoked_controllers s) (p_devices s)
    (p_control_policy s) (p_control_policy_id s) (p_recovery_policy s) (p_recovery_policy_id s)
    (p_provider_policy s) (p_provider_policy_id s) (p_pending_recovery s) (p_crypto s)
    (p_upgrade s) (p_retirement s) (p_lifecycle s).

Definition set_controllers (active revoked : list ProjectedController) (s : Projection) : Projection :=
  mkProjection (p_account_id s) (p_genesis_anchor s) (p_protocol_major s) (p_sequence s) (p_epoch s)
    (p_heads s) active revoked (p_devices s)
    (p_control_policy s) (p_control_policy_id s) (p_recovery_policy s) (p_recovery_policy_id s)
    (p_provider_policy s) (p_provider_policy_id s) (p_pending_recovery s) (p_crypto s)
    (p_upgrade s) (p_retirement s) (p_lifecycle s).

Definition set_devices (devices : list ProjectedDevice) (s : Projection) : Projection :=
  mkProjection (p_account_id s) (p_genesis_anchor s) (p_protocol_major s) (p_sequence s) (p_epoch s)
    (p_heads s) (p_active_controllers s) (p_revoked_controllers s) devices
    (p_control_policy s) (p_control_policy_id s) (p_recovery_policy s) (p_recovery_policy_id s)
    (p_provider_policy s) (p_provider_policy_id s) (p_pending_recovery s) (p_crypto s)
    (p_upgrade s) (p_retirement s) (p_lifecycle s).

Definition set_control_policy (policy : ControlPolicy) (id : Digest) (s : Projection) : Projection :=
  mkProjection (p_account_id s) (p_genesis_anchor s) (p_protocol_major s) (p_sequence s) (p_epoch s)
    (p_heads s) (p_active_controllers s) (p_revoked_controllers s) (p_devices s)
    policy id (p_recovery_policy s) (p_recovery_policy_id s)
    (p_provider_policy s) (p_provider_policy_id s) (p_pending_recovery s) (p_crypto s)
    (p_upgrade s) (p_retirement s) (p_lifecycle s).

Definition set_recovery_policy (policy : RecoveryPolicy) (id : Digest) (s : Projection) : Projection :=
  mkProjection (p_account_id s) (p_genesis_anchor s) (p_protocol_major s) (p_sequence s) (p_epoch s)
    (p_heads s) (p_active_controllers s) (p_revoked_controllers s) (p_devices s)
    (p_control_policy s) (p_control_policy_id s) policy id
    (p_provider_policy s) (p_provider_policy_id s) (p_pending_recovery s) (p_crypto s)
    (p_upgrade s) (p_retirement s) (p_lifecycle s).

Definition set_provider_policy (policy : ProviderPolicy) (id : Digest) (s : Projection) : Projection :=
  mkProjection (p_account_id s) (p_genesis_anchor s) (p_protocol_major s) (p_sequence s) (p_epoch s)
    (p_heads s) (p_active_controllers s) (p_revoked_controllers s) (p_devices s)
    (p_control_policy s) (p_control_policy_id s) (p_recovery_policy s) (p_recovery_policy_id s)
    policy id (p_pending_recovery s) (p_crypto s)
    (p_upgrade s) (p_retirement s) (p_lifecycle s).

Definition set_pending (pending : option PendingRecovery) (s : Projection) : Projection :=
  mkProjection (p_account_id s) (p_genesis_anchor s) (p_protocol_major s) (p_sequence s) (p_epoch s)
    (p_heads s) (p_active_controllers s) (p_revoked_controllers s) (p_devices s)
    (p_control_policy s) (p_control_policy_id s) (p_recovery_policy s) (p_recovery_policy_id s)
    (p_provider_policy s) (p_provider_policy_id s) pending (p_crypto s)
    (p_upgrade s) (p_retirement s) (p_lifecycle s).

Definition set_crypto (crypto : CryptoProjection) (s : Projection) : Projection :=
  mkProjection (p_account_id s) (p_genesis_anchor s) (p_protocol_major s) (p_sequence s) (p_epoch s)
    (p_heads s) (p_active_controllers s) (p_revoked_controllers s) (p_devices s)
    (p_control_policy s) (p_control_policy_id s) (p_recovery_policy s) (p_recovery_policy_id s)
    (p_provider_policy s) (p_provider_policy_id s) (p_pending_recovery s) crypto
    (p_upgrade s) (p_retirement s) (p_lifecycle s).

Definition set_upgrade (major : N) (upgrade : option ProtocolUpgrade) (s : Projection) : Projection :=
  mkProjection (p_account_id s) (p_genesis_anchor s) major (p_sequence s) (p_epoch s)
    (p_heads s) (p_active_controllers s) (p_revoked_controllers s) (p_devices s)
    (p_control_policy s) (p_control_policy_id s) (p_recovery_policy s) (p_recovery_policy_id s)
    (p_provider_policy s) (p_provider_policy_id s) (p_pending_recovery s) (p_crypto s)
    upgrade (p_retirement s) (p_lifecycle s).

Definition set_retirement (retirement : option RetirementProjection) (s : Projection) : Projection :=
  mkProjection (p_account_id s) (p_genesis_anchor s) (p_protocol_major s) (p_sequence s) (p_epoch s)
    (p_heads s) (p_active_controllers s) (p_revoked_controllers s) (p_devices s)
    (p_control_policy s) (p_control_policy_id s) (p_recovery_policy s) (p_recovery_policy_id s)
    (p_provider_policy s) (p_provider_policy_id s) (p_pending_recovery s) (p_crypto s)
    (p_upgrade s) retirement (p_lifecycle s).

(** ** Keys *)

(** The bytes of the keys of a device. *)
Definition device_keys (d : DeviceDescriptor) : list (list byte) :=
  [signing_bytes_of (dd_application_signing_key d); agreement_bytes_of (dd_agreement_key d);
   signing_bytes_of (dd_endpoint_key d)].

Definition device_descriptors_reuse_key (a b : DeviceDescriptor) : bool :=
  existsb (λ k, existsb (λ k', bool_decide (k = k')) (device_keys b)) (device_keys a).

Definition device_descriptor_reuses_controller_key (d : DeviceDescriptor) (key : SigningPublicKey)
    : bool :=
  bool_decide (dd_application_signing_key d = key)
  || bool_decide (agreement_bytes_of (dd_agreement_key d) = signing_bytes_of key)
  || bool_decide (dd_endpoint_key d = key).

Definition controller_key (c : ProjectedController) : SigningPublicKey :=
  cd_signing_key (pc_descriptor c).

Definition stable_reuses (stable : StableCrypto) (candidate : list byte) : bool :=
  existsb (λ k, bool_decide (ak_bytes (mk_key k) = candidate)) (sc_migrated_keys stable)
  || existsb (λ k, bool_decide (ak_bytes k = candidate)) (sc_key_tombstones stable).

Definition crypto_retains_key_material (s : Projection) (candidate : list byte) : bool :=
  match p_crypto s with
  | Stable stable => stable_reuses stable candidate
  | Candidate previous migration _ | Dual previous migration _ _ =>
      stable_reuses previous candidate
      || existsb (λ b, bool_decide (ak_bytes (kb_new_signing_key b) = candidate)) (mg_bindings migration)
  end.

(** ** Devices *)

(** [AccountState::device_mut]: the position of the device and the device. *)
Definition device_mut (s : Projection) (id : Digest) : result IdentityError (nat * ProjectedDevice) :=
  match search digest_le dv_id id (p_devices s) with
  | Ok index =>
      match p_devices s !! index with
      | Some device => Ok (index, device)
      | None => Err StorageCorruption  (* not reached: the index was found *)
      end
  | Err _ => Err DeviceNotAuthorized
  end.

Definition put_device (s : Projection) (index : nat) (device : ProjectedDevice) : Projection :=
  set_devices (<[index := device]> (p_devices s)) s.

Definition set_device_lifecycle (l : ProjectedDeviceLifecycle) (d : ProjectedDevice) : ProjectedDevice :=
  mkProjectedDevice (dv_id d) (dv_descriptor d) (dv_class d) (dv_metadata_commitment d)
    (dv_capabilities d) (dv_authorization_epoch d) l.

Definition set_device_metadata (m : option BlindedMetadataCommitment) (d : ProjectedDevice)
    : ProjectedDevice :=
  mkProjectedDevice (dv_id d) (dv_descriptor d) (dv_class d) m
    (dv_capabilities d) (dv_authorization_epoch d) (dv_lifecycle d).

Definition validate_new_device_descriptor (s : Projection) (descriptor : DeviceDescriptor)
    : result IdentityError () :=
  if existsb (λ d, device_descriptors_reuse_key (dv_descriptor d) descriptor) (p_devices s)
  then Err (InvalidRelationship "retained device public-key reuse")
  else if existsb (λ c, device_descriptor_reuses_controller_key descriptor (controller_key c))
            (p_active_controllers s ++ p_revoked_controllers s)
  then Err (InvalidRelationship "controller/device public-key role separation")
  else if existsb (crypto_retains_key_material s) (device_keys descriptor)
  then Err (InvalidRelationship "device/cryptographic key tombstone separation")
  else Ok ().

Definition authorize_device (s : Projection) (authorization : DeviceAuthorization)
    (resulting_epoch : N) : result IdentityError Projection :=
  if negb (da_authorization_epoch authorization =? resulting_epoch) then Err InvalidEpoch else
  match search digest_le dv_id (da_device_id authorization) (p_devices s) with
  | Ok index =>
      match dv_lifecycle <$> p_devices s !! index with
      | Some DeviceIsRevoked => Err DeviceRevoked
      | _ => Err (InvalidRelationship "duplicate active device authorization")
      end
  | Err index =>
      _ ← validate_new_device_descriptor s (da_descriptor authorization);
      if MAX_DEVICES <=? len (p_devices s)
      then Err (limit "projected devices" (len (p_devices s) + 1) MAX_DEVICES)
      else Ok (set_devices (insert_at index
                 (mkProjectedDevice (da_device_id authorization) (da_descriptor authorization)
                    (da_device_class authorization) (da_metadata_commitment authorization)
                    (da_capabilities authorization) (da_authorization_epoch authorization)
                    DeviceIsActive) (p_devices s)) s)
  end.

Definition update_device_authorization (s : Projection) (update : DeviceAuthorizationUpdate)
    (resulting_epoch : N) : result IdentityError Projection :=
  if negb (du_authorization_epoch update =? resulting_epoch) then Err InvalidEpoch else
  '(index, device) ← device_mut s (du_device_id update);
  if bool_decide (dv_lifecycle device = DeviceIsRevoked) then Err DeviceRevoked
  else Ok (put_device s index
             (mkProjectedDevice (dv_id device) (dv_descriptor device) (du_device_class update)
                (dv_metadata_commitment device) (du_capabilities update)
                (du_authorization_epoch update) (dv_lifecycle device))).

(** The branches of [AccountState::apply_operation] on one device. *)
Definition update_device_metadata (s : Projection) (update : DeviceMetadataUpdate)
    : result IdentityError Projection :=
  '(index, device) ← device_mut s (mu_device_id update);
  Ok (put_device s index (set_device_metadata (mu_metadata_commitment update) device)).

Definition suspend_device (s : Projection) (suspend : SimpleDeviceOperation)
    : result IdentityError Projection :=
  '(index, device) ← device_mut s (so_device_id suspend);
  match dv_lifecycle device with
  | DeviceIsActive => Ok (put_device s index (set_device_lifecycle DeviceIsSuspended device))
  | DeviceIsSuspended => Err DeviceSuspended
  | DeviceIsRevoked => Err DeviceRevoked
  end.

Definition reinstate_device (s : Projection) (reinstate : SimpleDeviceOperation)
    : result IdentityError Projection :=
  '(index, device) ← device_mut s (so_device_id reinstate);
  match dv_lifecycle device with
  | DeviceIsSuspended => Ok (put_device s index (set_device_lifecycle DeviceIsActive device))
  | DeviceIsActive => Err (InvalidRelationship "reinstate active device")
  | DeviceIsRevoked => Err DeviceRevoked
  end.

Definition revoke_device (s : Projection) (id : Digest) : result IdentityError Projection :=
  '(index, device) ← device_mut s id;
  if bool_decide (dv_lifecycle device = DeviceIsRevoked) then Err DeviceRevoked
  else Ok (put_device s index (set_device_lifecycle DeviceIsRevoked device)).

Definition rotate_device_keys (s : Projection) (rotation : RotateDeviceKeys) (resulting_epoch : N)
    : result IdentityError Projection :=
  s ← revoke_device s (rt_old_device_id rotation);
  authorize_device s (rt_new_authorization rotation) resulting_epoch.

(** ** Controllers *)

Definition active_controller (s : Projection) (id : Digest) : option ProjectedController :=
  get_by digest_le pc_id id (p_active_controllers s).

Definition revoked_controller (s : Projection) (id : Digest) : option ProjectedController :=
  get_by digest_le pc_id id (p_revoked_controllers s).

Definition active_controller_descriptors (s : Projection) : list ControllerDescriptor :=
  pc_descriptor <$> p_active_controllers s.

Section Controllers.
  Context `{HB : Blake3Hash} `{HC : Curve} `{HKW : !KeyWire} `{HPW : !PolicyWire} `{HMW : !MigrationWire}.

(** The key a controller is enrolled with after a migration. *)
Definition enrollment_key (s : Projection) (descriptor : ControllerDescriptor)
    : result IdentityError (option AlgorithmPublicKey) :=
  match p_crypto s with
  | Stable stable =>
      v1 ← suite_v1;
      if bool_decide (sc_suite stable ≠ v1) || bool_decide (sc_migrated_keys stable ≠ []) then
        let code := su_signature_code (sc_suite stable) in
        if negb (code =? ED25519_CODE)
        then Err (UnsupportedPolicyFeature "post-migration controller enrollment for non-Ed25519 suites")
        else
          key ← algorithm_key_new code (signing_bytes_of (cd_signing_key descriptor));
          if existsb (λ k, (ak_code (mk_key k) =? ak_code key)
                           && bool_decide (ak_bytes (mk_key k) = ak_bytes key)) (sc_migrated_keys stable)
          then Err DuplicateSigningKey
          else Ok (Some key)
      else Ok None
  | Candidate _ _ _ | Dual _ _ _ _ =>
      Err (InvalidRelationship "controller enrollment cryptographic migration phase")
  end.

(** The insertion of the key after the controller. *)
Definition enroll_key (s : Projection) (id : Digest) (key : option AlgorithmPublicKey)
    : result IdentityError Projection :=
  match key, p_crypto s with
  | None, _ => Ok s
  | Some key, Stable stable =>
      match search digest_le mk_controller_id id (sc_migrated_keys stable) with
      | Ok _ => Err StorageCorruption
      | Err index =>
          Ok (set_crypto (Stable (mkStable (sc_suite stable)
                (insert_at index (mkMigrationKey id key) (sc_migrated_keys stable))
                (sc_retired_suites stable) (sc_key_tombstones stable))) s)
      end
  | Some _, _ => Err StorageCorruption
  end.

Definition add_controller (s : Projection) (descriptor : ControllerDescriptor)
    : result IdentityError Projection :=
  id ← controller_id descriptor;
  let key := cd_signing_key descriptor in
  if crypto_retains_key_material s (signing_bytes_of key) then Err DuplicateSigningKey else
  migrated_key ← enrollment_key s descriptor;
  if bool_decide (revoked_controller s id ≠ None) then Err RevokedController
  else if bool_decide (active_controller s id ≠ None)
  then Err (InvalidRelationship "duplicate active controller")
  else if existsb (λ c, bool_decide (controller_key c = key))
            (p_active_controllers s ++ p_revoked_controllers s)
  then Err DuplicateSigningKey
  else if existsb (λ d, device_descriptor_reuses_controller_key (dv_descriptor d) key) (p_devices s)
  then Err (InvalidRelationship "controller/device public-key role separation") else
  count ← checked_add "projected controller count" (len (p_active_controllers s))
            (len (p_revoked_controllers s));
  count ← checked_add "projected controller count" count 1;
  if MAX_CONTROLLERS <? count then Err (limit "projected controllers" count MAX_CONTROLLERS) else
  match search digest_le pc_id id (p_active_controllers s) with
  | Ok _ => Err StorageCorruption
  | Err index =>
      enroll_key
        (set_controllers (insert_at index (mkProjectedController id descriptor) (p_active_controllers s))
           (p_revoked_controllers s) s) id migrated_key
  end.

(** The insertion of a controller among the revoked ones. *)
Definition insert_revoked (revoked : list ProjectedController) (c : ProjectedController)
    : result IdentityError (list ProjectedController) :=
  match search digest_le pc_id (pc_id c) revoked with
  | Ok _ => Err StorageCorruption
  | Err index => Ok (insert_at index c revoked)
  end.

Definition remove_controller (s : Projection) (id : Digest) : result IdentityError Projection :=
  if bool_decide (revoked_controller s id ≠ None) then Err RevokedController else
  match search digest_le pc_id id (p_active_controllers s) with
  | Err _ => Err UnknownController
  | Ok index =>
      match p_active_controllers s !! index with
      | None => Err StorageCorruption  (* not reached: the index was found *)
      | Some removed =>
          let active := delete index (p_active_controllers s) in
          if bool_decide (active = []) then Err UnsatisfiableThreshold else
          let descriptors := pc_descriptor <$> active in
          _ ← validate_satisfiable (p_control_policy s) descriptors;
          _ ← validate_controller_authority (p_recovery_policy s) descriptors;
          revoked ← insert_revoked (p_revoked_controllers s) removed;
          Ok (set_controllers active revoked s)
      end
  end.

(** ** Policies *)

Definition change_control_policy (s : Projection) (policy : ControlPolicy)
    : result IdentityError Projection :=
  _ ← validate_satisfiable policy (active_controller_descriptors s);
  id ← control_policy_id policy;
  Ok (set_control_policy policy id s).

Definition change_recovery_policy (s : Projection) (policy : RecoveryPolicy)
    : result IdentityError Projection :=
  next ← checked_add "recovery policy version" (ry_policy_version (p_recovery_policy s)) 1;
  if negb (ry_policy_version policy =? next) then Err PolicyVersionMismatch else
  _ ← validate_controller_authority policy (active_controller_descriptors s);
  id ← recovery_policy_id policy;
  Ok (set_recovery_policy policy id s).

Definition change_provider_policy (s : Projection) (policy : ProviderPolicy)
    : result IdentityError Projection :=
  next ← checked_add "provider policy version" (pp_policy_version (p_provider_policy s)) 1;
  if negb (pp_policy_version policy =? next) then Err PolicyVersionMismatch else
  id ← provider_policy_id policy;
  Ok (set_provider_policy policy id s).

End Controllers.
