(* ===== verification/IdAccountOps.v ===== *)
(** * The operations of an account: recovery, migration, and the dispatch
      (protocols/krikos-identity/src: state.rs, verifier.rs) *)
From stdpp Require Import base tactics list gmap countable orders sorting strings.
From Stdlib Require Import ZArith Lia Strings.Byte.
From S2P Require Import Prelude Bytes IdTypes SortedVec IdKeys IdPolicy IdProviders IdApprovals IdGuardians IdCapability IdDevices IdEvidence IdRecovery IdMigration IdEvents IdAccount.

Local Open Scope N_scope.

Record VerificationKey : Type := mkVerificationKey {
  vk_crypto_suite_id : Digest;
  vk_controller_key_id : Digest;
  vk_algorithm_code : N;
  vk_public_key : list byte;
}.

Definition verification_sort_key (k : VerificationKey) : Digest * Digest :=
  (vk_crypto_suite_id k, vk_controller_key_id k).

(** The order of [key_tombstones]: by the code, then by the bytes. *)
Definition tombstone_key (k : AlgorithmPublicKey) : N * list byte := (ak_code k, ak_bytes k).
Definition tombstone_le : relation (N * list byte) := lex_le N.le bytes_le.

#[global] Instance tombstone_le_dec : RelDecision tombstone_le.
Proof. unfold tombstone_le. apply _. Defined.
#[global] Instance tombstone_le_TotalOrder : TotalOrder tombstone_le.
Proof. unfold tombstone_le. apply _. Qed.

(** [Vec::dedup_by] on keys. *)
Fixpoint dedup (keys : list AlgorithmPublicKey) : list AlgorithmPublicKey :=
  match keys with
  | a :: ((b :: _) as rest) =>
      if bool_decide (tombstone_key a = tombstone_key b) then dedup rest else a :: dedup rest
  | _ => keys
  end.

(** The encodings of the objects of an account, and those that are signed. *)
Class AccountWire : Type := {
  wire_keys :: KeyWire;
  wire_policies :: PolicyWire;
  wire_providers :: ProviderWire;
  wire_guardians :: GuardianWire;
  wire_capabilities :: CapabilityWire;
  wire_migrations :: MigrationWire;
  wire_recoveries :: RecoveryWire;
  wire_events :: EventWire;
  wire_merkle_node :: WireFormat (Digest * Digest);
  wire_merkle_leaf :: WireFormat (N * Digest * Digest);
  wire_identifier :: WireFormat Digest;
  wire_approval_body :: WireFormat ControllerApprovalBody;
  wire_intent_body :: WireFormat EventIntentApprovalBody;
}.

(** The receipts whose provider is configured, each of them verified; the loop that
    [finalize_recovery], [validate_freshness] and [validate_recovery_intent_observation]
    have in common. *)
Section Receipts.
  Context `{HB : Blake3Hash} `{HC : Curve} `{HAW : !AccountWire}.

Fixpoint configured_receipts (account_id : Digest) (providers : list ProviderDescriptor)
    (check : InclusionReceipt → result IdentityError ()) (receipts : ProviderReceipts)
    : result IdentityError ProviderReceipts :=
  match receipts with
  | [] => Ok []
  | receipt :: receipts =>
      if bool_decide (le_account_id (ir_entry receipt) ≠ account_id) then Err AccountMismatch else
      _ ← check receipt;
      provider ← configured_provider providers (receipt_provider_id receipt);
      match provider with
      | None => configured_receipts account_id providers check receipts
      | Some provider =>
          _ ← receipt_verify receipt provider;
          configured ← configured_receipts account_id providers check receipts;
          Ok (receipt :: configured)
      end
  end.

End Receipts.

Definition receipt_head_time (r : InclusionReceipt) : N := hb_observed_at (sh_body (ir_signed_head r)).

Section Operations.
  Context `{HB : Blake3Hash} `{HC : Curve} `{HAW : !AccountWire}.

#[export] Instance identifier_codec : CanonicalCodec Digest := wire_codec "CryptoMigrationId bytes".

(** ** Recovery *)

(** [PendingRecoveryObservation::from_admission]. *)
Definition observation_from_admission (evidence : AdmissionEvidence) (policy : RecoveryPolicy)
    : result IdentityError PendingRecoveryObservation :=
  let delay := ae_delay evidence in
  match delay_policy_id delay, delay_required_quorum delay, delay_observed_at delay,
        delay_receipts delay with
  | Some provider_policy_id, Some required_quorum, Some observed_at, Some receipts =>
      id ← admission_evidence_id evidence;
      delay_deadline ← checked_add "timestamp milliseconds" observed_at (ry_delay policy);
      lifetime_deadline ← checked_add "timestamp milliseconds" observed_at (ry_lifetime policy);
      Ok (mkObservation id provider_policy_id required_quorum observed_at delay_deadline
            lifetime_deadline receipts)
  | _, _, _, _ => Err FreshnessUnavailable
  end.

Definition receipt_entries_match (begin completion : ProviderReceipts) : bool :=
  (len begin =? len completion)
  && forallb (λ '(b, c), bool_decide (receipt_provider_id b = receipt_provider_id c)
                         && bool_decide (ir_entry b = ir_entry c)
                         && (ir_leaf_index b =? ir_leaf_index c)) (zip begin completion).

Definition matches_completion_anchor (o : PendingRecoveryObservation) (anchor : RecoveryDelayAnchor)
    : bool :=
  bool_decide (po_provider_policy_id o = an_provider_policy_id anchor)
  && (po_required_quorum o =? an_required_quorum anchor)
  && (po_observed_at o =? an_observed_at anchor)
  && receipt_entries_match (po_receipts o) (an_receipts anchor).

Definition require_v1_recovery_crypto (s : Projection) : result IdentityError () :=
  let unsupported := Err (UnsupportedPolicyFeature "recovery under a migrated cryptographic suite") in
  match p_crypto s with
  | Stable stable =>
      v1 ← suite_v1;
      if bool_decide (sc_suite stable = v1) && bool_decide (sc_migrated_keys stable = [])
      then Ok () else unsupported
  | Candidate _ _ _ | Dual _ _ _ _ => unsupported
  end.

Definition begin_recovery (s : Projection) (begin : BeginRecovery) (evidence : AdmissionEvidence)
    (event_id begin_proposal_id : Digest) : result IdentityError Projection :=
  _ ← require_v1_recovery_crypto s;
  if bool_decide (p_pending_recovery s ≠ None) then Err RecoveryPending else
  let plan := rp_plan (br_proposal begin) in
  match p_heads s with
  | [] => Err InvalidPredecessor
  | current_head :: _ =>
      if bool_decide (pl_account_id plan ≠ p_account_id s) then Err AccountMismatch
      else if bool_decide (pl_prior_event_head plan ≠ current_head) then Err InvalidPredecessor
      else if bool_decide (pl_recovery_policy_id plan ≠ p_recovery_policy_id s)
           || negb (pl_recovery_policy_version plan =? ry_policy_version (p_recovery_policy s))
           || bool_decide (te_recovery_policy_id (br_threshold_evidence begin) ≠ p_recovery_policy_id s)
           || negb (te_recovery_policy_version (br_threshold_evidence begin)
                    =? ry_policy_version (p_recovery_policy s))
      then Err PolicyVersionMismatch else
      observation ← observation_from_admission evidence (p_recovery_policy s);
      Ok (set_lifecycle LifeRecoveryPending
            (set_pending (Some (mkPending (br_recovery_id begin) (br_proposal begin)
               (p_control_policy_id s) event_id begin_proposal_id observation)) s))
  end.

Definition veto_recovery (s : Projection) (veto : VetoRecovery) : result IdentityError Projection :=
  match p_pending_recovery s with
  | None => Err (InvalidRelationship "veto without pending recovery")
  | Some pending =>
      if bool_decide (vr_expected_pending_recovery veto ≠ pr_recovery_id pending)
      then Err (InvalidRelationship "veto pending recovery compare-and-set")
      else if bool_decide (vr_control_policy_id veto ≠ pr_pre_control_policy_id pending)
      then Err PolicyVersionMismatch
      else Ok (set_lifecycle LifeActive (set_pending None s))
  end.

Definition cancel_recovery (s : Projection) (cancel : CancelRecovery)
    : result IdentityError Projection :=
  match p_pending_recovery s with
  | None => Err (InvalidRelationship "cancel without pending recovery")
  | Some pending =>
      if bool_decide (cn_expected_pending_recovery cancel ≠ pr_recovery_id pending)
      then Err (InvalidRelationship "cancel pending recovery compare-and-set")
      else if bool_decide (te_recovery_policy_id (cn_threshold_evidence cancel) ≠ p_recovery_policy_id s)
           || negb (te_recovery_policy_version (cn_threshold_evidence cancel)
                    =? ry_policy_version (p_recovery_policy s))
      then Err PolicyVersionMismatch
      else Ok (set_lifecycle LifeActive (set_pending None s))
  end.

(** The first loop of [install_recovery_plan]. *)
Fixpoint replacements_fresh (s : Projection) (descriptors : list ControllerDescriptor)
    : result IdentityError () :=
  match descriptors with
  | [] => Ok ()
  | descriptor :: descriptors =>
      id ← controller_id descriptor;
      let key := cd_signing_key descriptor in
      if bool_decide (revoked_controller s id ≠ None) then Err RevokedController
      else if existsb (λ c, bool_decide (pc_id c ≠ id) && bool_decide (controller_key c = key))
                (p_active_controllers s)
      then Err DuplicateSigningKey
      else if existsb (λ c, bool_decide (controller_key c = key)) (p_revoked_controllers s)
      then Err DuplicateSigningKey
      else if existsb (λ d, device_descriptor_reuses_controller_key (dv_descriptor d) key) (p_devices s)
      then Err (InvalidRelationship "controller/device public-key role separation")
      else replacements_fresh s descriptors
  end.

(** The loop that revokes the controllers that are not replaced. *)
Fixpoint insert_all_revoked (revoked : list ProjectedController) (removed : list ProjectedController)
    : result IdentityError (list ProjectedController) :=
  match removed with
  | [] => Ok revoked
  | controller :: removed =>
      revoked ← insert_revoked revoked controller;
      insert_all_revoked revoked removed
  end.

(** The loop that checks the retained devices. *)
Fixpoint retained_active (devices : list ProjectedDevice) (retained : list Digest)
    : result IdentityError () :=
  match retained with
  | [] => Ok ()
  | id :: retained =>
      match search digest_le dv_id id devices with
      | Err _ => Err DeviceNotAuthorized
      | Ok index =>
          if bool_decide (dv_lifecycle <$> devices !! index = Some DeviceIsRevoked) then Err DeviceRevoked
          else retained_active devices retained
      end
  end.

(** The descriptors with their identifiers. *)
Definition projected_controllers (descriptors : list ControllerDescriptor)
    : result IdentityError (list ProjectedController) :=
  collect ((λ d, id ← controller_id d; Ok (mkProjectedController id d)) <$> descriptors).

Definition install_recovery_plan (s : Projection) (plan : RecoveryAuthorityPlan)
    : result IdentityError Projection :=
  let replacements := pl_replacement_controllers plan in
  let retained := pl_retained_devices plan in
  _ ← replacements_fresh s replacements;
  replacement_ids ← collect (controller_id <$> replacements);
  let removed := filter (λ c, sorted_contains (pc_id c) replacement_ids = false)
                   (p_active_controllers s) in
  revoked ← insert_all_revoked (p_revoked_controllers s) removed;
  count ← checked_add "recovery controller tombstones" (len replacements) (len revoked);
  if MAX_CONTROLLERS <? count
  then Err (limit "recovery controller tombstones" count MAX_CONTROLLERS) else
  active ← projected_controllers replacements;
  _ ← retained_active (p_devices s) retained;
  let devices := (λ d, if bool_decide (dv_lifecycle d ≠ DeviceIsRevoked)
                          && negb (sorted_contains (dv_id d) retained)
                       then set_device_lifecycle DeviceIsRevoked d else d) <$> p_devices s in
  control_id ← control_policy_id (pl_replacement_control_policy plan);
  recovery_id ← recovery_policy_id (pl_replacement_recovery_policy plan);
  Ok (set_recovery_policy (pl_replacement_recovery_policy plan) recovery_id
        (set_control_policy (pl_replacement_control_policy plan) control_id
           (set_devices devices (set_controllers active revoked s)))).

(** [event.event_id() == Ok(id)]. *)
Definition has_event_id (id : Digest) (e : AuthorizedEvent) : bool :=
  match event_id e with Ok other => bool_decide (other = id) | Err _ => false end.

(** The events of the lineage; the evidence of the begin event is that of the
    pending recovery. *)
Definition begin_evidence_intact (lineage : list AuthorizedEvent) (pending : PendingRecovery)
    : result IdentityError () :=
  match List.find (has_event_id (pr_begin_event_id pending)) lineage with
  | None => Ok ()
  | Some event =>
      id ← admission_evidence_id (ev_admission_evidence event);
      if bool_decide (id ≠ po_admission_evidence_id (pr_begin_observation pending))
      then Err StorageCorruption else Ok ()
  end.

(** The quorum of providers that the policies ask for. *)
Definition finalize_quorum (s : Projection)
    : result IdentityError (ReplicatedProviderPolicy * N) :=
  match pp_mode (p_provider_policy s) with
  | LocalOnly => Err FreshnessUnavailable
  | Replicated policy =>
      match rule_for (p_control_policy s) OpFinalizeRecovery with
      | None => Err AuthorizationDenied
      | Some rule =>
          let freshness_quorum :=
            match pr_freshness rule with
            | LatestKnown => 0
            | RequireProviderQuorum requirement => pf_required requirement
            end in
          Ok (policy, rp_sufficient_threshold policy `max` freshness_quorum)
      end
  end.

(** The receipts of a completed delay, and the time they attest. *)
Definition completion_time (s : Projection) (pending : PendingRecovery) (anchor : RecoveryDelayAnchor)
    (policy : ReplicatedProviderPolicy) : result IdentityError N :=
  let required := an_required_quorum anchor in
  let subject r :=
    if bool_decide (receipt_subject r ≠ SubjectEventIntent (pr_begin_proposal_id pending))
    then Err (InvalidRelationship "recovery delay receipt subject") else Ok () in
  configured ← configured_receipts (p_account_id s) (rp_providers policy) subject (an_receipts anchor);
  if len configured <? required then Err FreshnessUnavailable
  else if negb (quorum_time required (receipt_observed_at <$> configured) =? an_observed_at anchor)
  then Err (InvalidRelationship "configured-provider recovery delay observation anchor") else
  let deadline := po_delay_deadline (pr_begin_observation pending) in
  let times := filter (λ t, deadline <= t) (receipt_head_time <$> configured) in
  if len times <? required then Err DelayNotElapsed
  else Ok (quorum_time required times).

Definition finalize_recovery (s : Projection) (lineage : list AuthorizedEvent)
    (finalize : FinalizeRecovery) (provider_authority_time : option N)
    : result IdentityError Projection :=
  _ ← require_v1_recovery_crypto s;
  match p_pending_recovery s with
  | None => Err (InvalidRelationship "finalize without pending recovery")
  | Some pending =>
      let observation := pr_begin_observation pending in
      let anchor := fr_delay_anchor finalize in
      _ ← begin_evidence_intact lineage pending;
      if bool_decide (fr_expected_pending_recovery finalize ≠ pr_recovery_id pending)
      then Err (InvalidRelationship "finalize pending recovery compare-and-set")
      else if bool_decide (an_account_id anchor ≠ p_account_id s)
           || bool_decide (an_recovery_id anchor ≠ pr_recovery_id pending)
      then Err AccountMismatch
      else if bool_decide (an_begin_proposal_id anchor ≠ pr_begin_proposal_id pending)
      then Err (InvalidRelationship "recovery begin proposal delay anchor")
      else if bool_decide (po_provider_policy_id observation ≠ p_provider_policy_id s)
      then Err StorageCorruption
      else if bool_decide (an_provider_policy_id anchor ≠ p_provider_policy_id s)
      then Err PolicyVersionMismatch else
      '(policy, minimum) ← finalize_quorum s;
      if an_required_quorum anchor <? minimum then Err FreshnessUnavailable
      else if negb (matches_completion_anchor observation anchor)
      then Err (InvalidRelationship "recovery begin observation binding") else
      nested ← completion_time s pending anchor policy;
      let time := match provider_authority_time with Some outer => outer `max` nested | None => nested end in
      let plan := rp_plan (pr_proposal pending) in
      if (po_lifetime_deadline observation <? time) || (pl_expires_at plan <? time)
      then Err StaleEvidence else
      s ← install_recovery_plan s plan;
      Ok (set_lifecycle LifeActive (set_pending None s))
  end.

(** ** Keys of controllers *)

(** [verify_algorithm_signature] (verifier.rs). *)
Definition verify_algorithm_signature (code : N) (public_key : list byte)
    (signature : AlgorithmSignature) (message : list byte) : result IdentityError () :=
  if negb (as_code signature =? code) then Err InvalidSignature
  else if code =? 1 then verify_ed25519 public_key (as_bytes signature) message
  else Err (UnsupportedAlgorithm KindSignature code).

Definition stable_verification_keys (stable : StableCrypto) (controller : ProjectedController)
    : result IdentityError (list VerificationKey) :=
  if bool_decide (sc_migrated_keys stable = []) then
    let key := controller_key controller in
    suite_id ← crypto_suite_id (sc_suite stable);
    key_id ← key_id_for_signing_key key;
    Ok [mkVerificationKey suite_id key_id ED25519_CODE (signing_bytes_of key)]
  else
    match get_by digest_le mk_controller_id (pc_id controller) (sc_migrated_keys stable) with
    | None => Err (InvalidRelationship "migrated controller verification key")
    | Some migrated =>
        suite_id ← crypto_suite_id (sc_suite stable);
        key_id ← key_id_for_algorithm_key (mk_key migrated);
        Ok [mkVerificationKey suite_id key_id (ak_code (mk_key migrated)) (ak_bytes (mk_key migrated))]
    end.

(** [AccountState::verification_keys]. *)
Definition verification_keys (s : Projection) (id : Digest)
    : result IdentityError (list VerificationKey) :=
  match active_controller s id with
  | None => Err UnknownController
  | Some controller =>
      match p_crypto s with
      | Stable stable | Candidate stable _ _ => stable_verification_keys stable controller
      | Dual previous migration _ _ =>
          keys ← stable_verification_keys previous controller;
          match get_by digest_le kb_controller_id id (mg_bindings migration) with
          | None => Err (InvalidRelationship "dual migration controller binding")
          | Some binding =>
              let key := kb_new_signing_key binding in
              suite_id ← crypto_suite_id (mg_to_suite migration);
              key_id ← key_id_for_algorithm_key key;
              Ok (sort_by sort_key_le verification_sort_key
                    (keys ++ [mkVerificationKey suite_id key_id (ak_code key) (ak_bytes key)]))
          end
      end
  end.

Definition stable_suite_keys (stable : StableCrypto) (active revoked : list ProjectedController)
    : result IdentityError (list AlgorithmPublicKey) :=
  if bool_decide (sc_migrated_keys stable ≠ []) then Ok (mk_key <$> sc_migrated_keys stable)
  else collect ((λ c, algorithm_key_new (su_signature_code (sc_suite stable))
                        (signing_bytes_of (controller_key c))) <$> (active ++ revoked)).

Definition migration_key_reuses_retained_material (candidate : AlgorithmPublicKey)
    (stable : StableCrypto) (active revoked : list ProjectedController)
    (devices : list ProjectedDevice) : bool :=
  stable_reuses stable (ak_bytes candidate)
  || existsb (λ c, bool_decide (signing_bytes_of (controller_key c) = ak_bytes candidate))
       (active ++ revoked)
  || existsb (λ d, existsb (λ k, bool_decide (k = ak_bytes candidate)) (device_keys (dv_descriptor d)))
       devices.

(** ** Migration *)

(** One turn of the loop of [begin_crypto_migration]. *)
Definition migration_proof_valid (s : Projection) (previous : StableCrypto) (migration_id : Digest)
    (message : list byte) (controller : ProjectedController) (binding : ControllerKeyBinding)
    (proof : ControllerKeyBindingProof) : result IdentityError () :=
  let new_key := kb_new_signing_key binding in
  if bool_decide (kb_controller_id binding ≠ pc_id controller)
     || bool_decide (bp_controller_id proof ≠ pc_id controller)
     || bool_decide (bp_migration_id proof ≠ migration_id)
  then Err (InvalidRelationship "migration controller proof coverage")
  else if migration_key_reuses_retained_material new_key previous (p_active_controllers s)
            (p_revoked_controllers s) (p_devices s)
  then Err DuplicateSigningKey else
  keys ← verification_keys s (pc_id controller);
  match keys with
  | [current] =>
      if bool_decide (kb_old_key_id binding ≠ vk_controller_key_id current)
      then Err (InvalidRelationship "migration old controller key") else
      _ ← verify_algorithm_signature (vk_algorithm_code current) (vk_public_key current)
            (bp_old_key_signature proof) message;
      verify_algorithm_signature (ak_code new_key) (ak_bytes new_key)
        (bp_new_key_signature proof) message
  | _ => Err (InvalidRelationship "migration old controller key")
  end.

Fixpoint migration_proofs_valid (s : Projection) (previous : StableCrypto) (migration_id : Digest)
    (message : list byte)
    (entries : list (ProjectedController * ControllerKeyBinding * ControllerKeyBindingProof))
    : result IdentityError () :=
  match entries with
  | [] => Ok ()
  | (controller, binding, proof) :: entries =>
      _ ← migration_proof_valid s previous migration_id message controller binding proof;
      migration_proofs_valid s previous migration_id message entries
  end.

Definition begin_crypto_migration (s : Projection) (begin : BeginCryptoMigration) (event_id : Digest)
    : result IdentityError Projection :=
  match p_crypto s with
  | Candidate _ _ _ | Dual _ _ _ _ => Err (InvalidRelationship "nested cryptographic migration")
  | Stable previous =>
      let migration := bm_migration begin in
      let bindings := mg_bindings migration in
      let proofs := bm_proofs begin in
      let active := p_active_controllers s in
      migration_id ← crypto_migration_id migration;
      if bool_decide (mg_account_id migration ≠ p_account_id s) then Err AccountMismatch else
      suite_id ← crypto_suite_id (sc_suite previous);
      if bool_decide (mg_from_suite_id migration ≠ suite_id)
      then Err (InvalidRelationship "migration active suite") else
      candidate_suite_id ← crypto_suite_id (mg_to_suite migration);
      if existsb (λ r, bool_decide (rc_suite_id r = candidate_suite_id)) (sc_retired_suites previous)
      then Err (InvalidRelationship "retired cryptographic suite reuse") else
      retiring ← stable_suite_keys previous active (p_revoked_controllers s);
      tombstones ← checked_add "cryptographic key tombstones" (len (sc_key_tombstones previous))
                     (len retiring);
      if MAX_HISTORY_PAGE_EVENTS <? tombstones
      then Err (limit "cryptographic key tombstones" tombstones MAX_HISTORY_PAGE_EVENTS)
      else if MAX_HISTORY_PAGE_EVENTS <=? len (sc_retired_suites previous)
      then Err (limit "retired cryptographic suites" (len (sc_retired_suites previous) + 1)
                  MAX_HISTORY_PAGE_EVENTS)
      else if negb (len bindings =? len active) || negb (len proofs =? len active)
      then Err (InvalidRelationship "complete controller migration binding set") else
      message ← to_canonical_bytes migration_id;
      _ ← migration_proofs_valid s previous migration_id message (zip (zip active bindings) proofs);
      Ok (set_lifecycle LifeMigrationPending (set_crypto (Candidate previous migration event_id) s))
  end.

Definition activate_crypto_migration (s : Projection) (activate : ActivateCryptoMigration)
    (event_id : Digest) : result IdentityError Projection :=
  match p_crypto s with
  | Candidate previous migration begin_event_id =>
      id ← crypto_migration_id migration;
      if bool_decide (am_migration_id activate ≠ id)
         || bool_decide (am_begin_event_id activate ≠ begin_event_id)
      then Err (InvalidRelationship "activate migration compare-and-set")
      else Ok (set_lifecycle LifeMigrationDual
                 (set_crypto (Dual previous migration begin_event_id event_id) s))
  | _ => Err (InvalidRelationship "activate without candidate migration")
  end.

(** The suite after the previous one is retired. *)
Definition retired_previous (s : Projection) (previous : StableCrypto)
    (migration : CryptoMigrationBody) (resulting_epoch : N) : result IdentityError StableCrypto :=
  suite_id ← crypto_suite_id (sc_suite previous);
  keys ← stable_suite_keys previous (p_active_controllers s) (p_revoked_controllers s);
  Ok (mkStable (mg_to_suite migration)
        ((λ b, mkMigrationKey (kb_controller_id b) (kb_new_signing_key b)) <$> mg_bindings migration)
        (sc_retired_suites previous ++ [mkRetiredSuite suite_id resulting_epoch])
        (dedup (sort_by tombstone_le tombstone_key (sc_key_tombstones previous ++ keys)))).

Definition retire_crypto_suite (s : Projection) (retire : RetireCryptoSuite) (resulting_epoch : N)
    : result IdentityError Projection :=
  match p_crypto s, rs_mode retire with
  | Candidate previous migration begin_event_id, AbortCandidate =>
      id ← crypto_migration_id migration;
      if bool_decide (rs_migration_id retire ≠ id)
         || bool_decide (rs_phase_event_id retire ≠ begin_event_id)
         || bool_decide (rs_successor_account_id retire ≠ None)
      then Err (InvalidRelationship "abort candidate migration compare-and-set")
      else Ok (set_lifecycle LifeActive (set_crypto (Stable previous) s))
  | Dual previous migration _ activation_event_id, RetirePrevious =>
      id ← crypto_migration_id migration;
      if bool_decide (rs_migration_id retire ≠ id)
         || bool_decide (rs_phase_event_id retire ≠ activation_event_id)
         || bool_decide (rs_successor_account_id retire ≠ mg_successor_account_id migration)
      then Err (InvalidRelationship "retire previous suite compare-and-set") else
      stable ← retired_previous s previous migration resulting_epoch;
      let s := set_crypto (Stable stable) s in
      Ok match rs_successor_account_id retire with
         | Some successor =>
             set_lifecycle LifeRetired
               (set_retirement (Some (RetiredByMigration (rs_migration_id retire) successor
                                        resulting_epoch)) s)
         | None => set_lifecycle LifeActive s
         end
  | _, _ => Err (InvalidRelationship "cryptographic suite retirement phase")
  end.

(** ** The dispatch *)

(** [AccountState::validate_lifecycle_gate]. *)
Definition validate_lifecycle_gate (s : Projection) (operation : AccountOperation)
    : result IdentityError () :=
  match p_lifecycle s, operation with
  | LifeActive, _ => Ok ()
  | LifeRecoveryPending, (VetoRecoveryOp _ | CancelRecoveryOp _ | FinalizeRecoveryOp _) => Ok ()
  | LifeRecoveryPending, _ => Err RecoveryPending
  | LifeMigrationPending, (ActivateCryptoMigrationOp _ | RetireCryptoSuiteOp _) => Ok ()
  | LifeMigrationDual, RetireCryptoSuiteOp _ => Ok ()
  | (LifeMigrationPending | LifeMigrationDual), _ =>
      Err (InvalidRelationship "cryptographic migration phase operation")
  | LifeUpgradePending, _ => Err (UnsupportedVersion (p_protocol_major s))
  | LifeRetired, _ => Err AccountRetired
  | LifeForked, _ => Err AccountForked
  end.

(** [AccountState::apply_operation]. *)
Definition apply_operation (s : Projection) (lineage : list AuthorizedEvent) (event : AuthorizedEvent)
    (event_id : Digest) (provider_authority_time : option N) : result IdentityError Projection :=
  let body := ev_body event in
  let epoch := eb_resulting_epoch body in
  match eb_operation body with
  | AuthorizeDevice authorization => authorize_device s authorization epoch
  | UpdateDeviceAuthorization update => update_device_authorization s update epoch
  | UpdateDeviceMetadata update => update_device_metadata s update
  | SuspendDevice suspend => suspend_device s suspend
  | ReinstateDevice reinstate => reinstate_device s reinstate
  | RevokeDeviceOp revoke => revoke_device s (rv_device_id revoke)
  | RotateDeviceKeysOp rotation => rotate_device_keys s rotation epoch
  | AddController descriptor => add_controller s descriptor
  | RemoveController id => remove_controller s id
  | ChangeControlPolicy policy => change_control_policy s policy
  | ChangeRecoveryPolicy policy => change_recovery_policy s policy
  | ChangeProviderPolicy policy => change_provider_policy s policy
  | BeginRecoveryOp begin =>
      begin_proposal_id ← proposal_id body;
      begin_recovery s begin (ev_admission_evidence event) event_id begin_proposal_id
  | VetoRecoveryOp veto => veto_recovery s veto
  | CancelRecoveryOp cancel => cancel_recovery s cancel
  | FinalizeRecoveryOp finalize => finalize_recovery s lineage finalize provider_authority_time
  | ResolveForkOp _ => Err InvalidPredecessor
  | BeginCryptoMigrationOp begin => begin_crypto_migration s begin event_id
  | ActivateCryptoMigrationOp activate => activate_crypto_migration s activate event_id
  | RetireCryptoSuiteOp retire => retire_crypto_suite s retire epoch
  | UpgradeProtocol upgrade =>
      if negb (pu_from_major upgrade =? p_protocol_major s)
      then Err (UnsupportedVersion (pu_from_major upgrade))
      else Ok (set_lifecycle LifeUpgradePending (set_upgrade (pu_to_major upgrade) (Some upgrade) s))
  | RetireAccountOp retire =>
      Ok (set_lifecycle LifeRetired (set_retirement (Some (RetiredAccount retire)) s))
  end.

(** [AccountState::operation_kind_advances_epoch]. *)
Definition operation_kind_advances_epoch (kind : OperationKind) : option bool :=
  match kind with
  | OpUpdateDeviceMetadata | OpBeginCryptoMigration => Some false
  | OpRetireCryptoSuite => None
  | _ => Some true
  end.

Definition operation_changes_epoch (operation : AccountOperation) : bool :=
  match operation_kind_advances_epoch (operation_kind operation) with
  | Some changes => changes
  | None =>
      match operation with
      | RetireCryptoSuiteOp retire => bool_decide (rs_mode retire = RetirePrevious)
      | _ => false
      end
  end.

Definition expected_epoch (s : Projection) (operation : AccountOperation) : result IdentityError N :=
  if operation_changes_epoch operation then checked_add "account epoch" (p_epoch s) 1
  else Ok (p_epoch s).

Inductive ProjectionEffect : Type :=
| PublishAccountEvent (event_id : Digest)
| RotateGroupKeys (event_id : Digest) (epoch : N)
| NotifyAccountChanged (event_id : Digest)
| NotifyForkDetected (event_id : Digest).

Definition transition_effects (event_id : Digest) (epoch : N) (changes_epoch : bool)
    : list ProjectionEffect :=
  [PublishAccountEvent event_id]
  ++ (if changes_epoch then [RotateGroupKeys event_id epoch] else [])
  ++ [NotifyAccountChanged event_id].

(** [AccountState::from_genesis]. *)
Definition from_genesis (genesis : AccountGenesis) : result IdentityError Projection :=
  active ← projected_controllers (gn_initial_controllers genesis);
  account_id ← account_id genesis;
  genesis_anchor ← genesis_anchor genesis;
  control_id ← control_policy_id (gn_initial_policy genesis);
  recovery_id ← recovery_policy_id (gn_initial_recovery_policy genesis);
  provider_id ← provider_policy_id (gn_initial_provider_policy genesis);
  suite ← suite_v1;
  Ok (mkProjection account_id genesis_anchor 1 0 0 [] active [] []
        (gn_initial_policy genesis) control_id (gn_initial_recovery_policy genesis) recovery_id
        (gn_initial_provider_policy genesis) provider_id None
        (Stable (mkStable suite [] [] [])) None None LifeActive).

End Operations.
