(* ===== verification/IdVerifier.v ===== *)
(** * The authorization of an event against the state that precedes it
      (protocols/krikos-identity/src: verifier.rs, and [apply_new_linear] of state.rs)

    An event is accepted against two projections: the lineage it extends and the
    authority that governs it.  Its position, its epoch, the freshness and the delay of
    its provider evidence, and the weight of the controllers (or guardians) that signed
    it are checked before the operation is applied. *)
From stdpp Require Import base tactics list gmap countable orders sorting strings.
From Stdlib Require Import ZArith Lia Strings.Byte.
From S2P Require Import Prelude Bytes IdTypes SortedVec IdKeys IdPolicy IdProviders IdApprovals IdGuardians IdCapability IdDevices IdEvidence IdRecovery IdMigration IdEvents IdAccount IdAccountOps.

Local Open Scope N_scope.

(** [VerifiedEventIntent]. *)
Record VerifiedEventIntent : Type := mkVerifiedIntent {
  vi_account_id : Digest;
  vi_proposal_id : Digest;
}.

Section Verifier.
  Context `{HB : Blake3Hash} `{HC : Curve} `{HAW : !AccountWire}.

#[export] Instance approval_body_codec : CanonicalCodec ControllerApprovalBody :=
  wire_codec "controller approval body bytes".
#[export] Instance intent_body_codec : CanonicalCodec EventIntentApprovalBody :=
  wire_codec "event intent approval body bytes".

(** ** Signatures and weights *)

Definition approval_controller (s : Projection) (id : Digest)
    : result IdentityError ProjectedController :=
  match active_controller s id with
  | Some controller => Ok controller
  | None => Err (if bool_decide (revoked_controller s id ≠ None) then RevokedController
                 else UnknownController)
  end.

(** The loop over the expected keys in [verify_controller_approval] and in
    [validate_intent_threshold].  The former tests the code of the signature before
    [verify_algorithm_signature] does so, with the same error. *)
Fixpoint keys_signed (keys : list VerificationKey) (signatures : list KeyedSignature)
    (message : list byte) : result IdentityError () :=
  match keys with
  | [] => Ok ()
  | expected :: keys =>
      match List.find (λ s, bool_decide (ks_crypto_suite_id s = vk_crypto_suite_id expected)
                            && bool_decide (ks_controller_key_id s = vk_controller_key_id expected))
              signatures with
      | None => Err InvalidSignature
      | Some signature =>
          _ ← verify_algorithm_signature (vk_algorithm_code expected) (vk_public_key expected)
                (ks_signature signature) message;
          keys_signed keys signatures message
      end
  end.

Definition verify_controller_approval (s : Projection) (approval : SignedControllerApproval)
    : result IdentityError () :=
  signed_bytes ← to_canonical_bytes (sa_body approval);
  keys ← verification_keys s (approval_controller_id approval);
  if negb (len (sa_signatures approval) =? len keys) then Err InvalidSignature
  else keys_signed keys (sa_signatures approval) signed_bytes.

(** [!scope.allows(operation) || !selector.matches_controller(descriptor)?]. *)
Definition ineligible (selector : ControllerSelector) (operation : OperationKind)
    (descriptor : ControllerDescriptor) : result IdentityError bool :=
  if negb (scope_allows (cd_scope descriptor) operation) then Ok true
  else matching ← matches_controller selector descriptor; Ok (negb matching).

(** The loop of [validate_approvals] and of [verify_checkpoint_approvals]. *)
Fixpoint approvals_weight (s : Projection) (selector : ControllerSelector) (operation : OperationKind)
    (resource : string) (previous : option Digest) (total : N)
    (approvals : list SignedControllerApproval) : result IdentityError N :=
  match approvals with
  | [] => Ok total
  | approval :: approvals =>
      let id := approval_controller_id approval in
      if bool_decide (previous = Some id) then Err DuplicateSigner else
      controller ← approval_controller s id;
      refused ← ineligible selector operation (pc_descriptor controller);
      if refused : bool then Err IneligibleController else
      _ ← verify_controller_approval s approval;
      total ← checked_add resource total (cd_weight (pc_descriptor controller));
      approvals_weight s selector operation resource (Some id) total approvals
  end.

Definition validate_approvals (s : Projection) (event : AuthorizedEvent) (rule : PolicyRule)
    : result IdentityError () :=
  total ← approvals_weight s (pr_eligible_controllers rule)
            (operation_kind (eb_operation (ev_body event))) "controller authorization weight"
            None 0 (ev_approvals event);
  if total <? pr_required_weight rule then Err AuthorizationDenied else Ok ().

Definition verify_checkpoint_approvals (s : Projection) (approvals : list SignedControllerApproval)
    : result IdentityError () :=
  match rule_for (p_control_policy s) OpChangeProviderPolicy with
  | None => Err AuthorizationDenied
  | Some rule =>
      total ← approvals_weight s (pr_eligible_controllers rule) OpChangeProviderPolicy
                "checkpoint controller authorization weight" None 0 approvals;
      if total <? pr_required_weight rule then Err AuthorizationDenied else Ok ()
  end.

(** The loop of [validate_intent_threshold]. *)
Fixpoint intents_weight (s : Projection) (selector : ControllerSelector) (operation : OperationKind)
    (previous : option Digest) (total : N) (approvals : EventIntentApprovals)
    : result IdentityError N :=
  match approvals with
  | [] => Ok total
  | approval :: approvals =>
      let id := ib_controller_id (ia_body approval) in
      if bool_decide (previous = Some id) then Err DuplicateSigner else
      controller ← approval_controller s id;
      refused ← ineligible selector operation (pc_descriptor controller);
      if refused : bool then Err IneligibleController else
      keys ← verification_keys s id;
      if negb (len keys =? len (ia_signatures approval)) then Err InvalidSignature else
      signed_bytes ← to_canonical_bytes (ia_body approval);
      _ ← keys_signed keys (ia_signatures approval) signed_bytes;
      total ← checked_add "event intent authorization weight" total
                (cd_weight (pc_descriptor controller));
      intents_weight s selector operation (Some id) total approvals
  end.

Definition validate_intent_threshold (s : Projection) (body : EventBody)
    (approvals : EventIntentApprovals) (selector : ControllerSelector) (required_weight : N)
    : result IdentityError () :=
  total ← intents_weight s selector (operation_kind (eb_operation body)) None 0 approvals;
  if total <? required_weight then Err AuthorizationDenied else Ok ().

(** The loop of [validate_recovery_authority] under a threshold of controllers. *)
Fixpoint recovery_weight (s : Projection) (selector : ControllerSelector) (operation : OperationKind)
    (previous : option Digest) (total : N) (approvals : list SignedControllerApproval)
    : result IdentityError N :=
  match approvals with
  | [] => Ok total
  | approval :: approvals =>
      let id := approval_controller_id approval in
      if bool_decide (previous = Some id) then Err DuplicateSigner else
      controller ← approval_controller s id;
      matching ← matches_controller selector (pc_descriptor controller);
      if (matching : bool) && scope_allows (cd_scope (pc_descriptor controller)) operation then
        total ← checked_add "controller recovery weight" total (cd_weight (pc_descriptor controller));
        _ ← verify_controller_approval s approval;
        recovery_weight s selector operation (Some id) total approvals
      else Err IneligibleController
  end.

(** ** Recovery authority *)

(** The evidence, the identifier and the decision of a recovery operation. *)
Definition recovery_subject (operation : AccountOperation)
    : option (RecoveryThresholdEvidence * Digest * GuardianApprovalDecision) :=
  match operation with
  | BeginRecoveryOp begin => Some (br_threshold_evidence begin, br_recovery_id begin, DecideBegin)
  | CancelRecoveryOp cancel =>
      Some (cn_threshold_evidence cancel, cn_expected_pending_recovery cancel, DecideCancel)
  | _ => None
  end.

Definition other_recovery_policy (s : Projection) (evidence : RecoveryThresholdEvidence) : bool :=
  bool_decide (te_recovery_policy_id evidence ≠ p_recovery_policy_id s)
  || negb (te_recovery_policy_version evidence =? ry_policy_version (p_recovery_policy s)).

(** The authority of the guardians at a time. *)
Definition guardians_authorize (s : Projection) (evidence : RecoveryThresholdEvidence)
    (recovery_id : Digest) (decision : GuardianApprovalDecision) (time : N)
    : result IdentityError () :=
  match te_guardian_approvals evidence with
  | None => Err AuthorizationDenied
  | Some approvals =>
      context ← context_new (p_account_id s) recovery_id (p_recovery_policy_id s)
                  (ry_policy_version (p_recovery_policy s)) (p_epoch s) decision time;
      _ ← verify_guardian_authority (p_recovery_policy s) approvals context;
      Ok ()
  end.

Definition validate_recovery_authority (s : Projection) (event : AuthorizedEvent)
    (provider_authority_time : option N) : result IdentityError () :=
  let operation := eb_operation (ev_body event) in
  match recovery_subject operation with
  | None => Ok ()
  | Some (evidence, recovery_id, decision) =>
      if other_recovery_policy s evidence then Err PolicyVersionMismatch else
      match ry_authority (p_recovery_policy s) with
      | RecoverByControllers threshold =>
          if bool_decide (te_guardian_approvals evidence ≠ None)
          then Err (InvalidRelationship "guardian evidence for controller recovery authority") else
          total ← recovery_weight s (ct_selector threshold) (operation_kind operation) None 0
                    (ev_approvals event);
          if total <? ct_required_weight threshold then Err AuthorizationDenied else Ok ()
      | RecoverByGuardians _ =>
          if bool_decide (ev_approvals event ≠ [])
          then Err (InvalidRelationship "guardian recovery controller approvals")
          else if bool_decide (te_guardian_approvals evidence = None) then Err AuthorizationDenied
          else match provider_authority_time with
               | None => Err FreshnessUnavailable
               | Some time => guardians_authorize s evidence recovery_id decision time
               end
      end
  end.

Definition validate_recovery_intent_authority (s : Projection) (body : EventBody)
    (intents : EventIntentApprovals) : result IdentityError () :=
  match recovery_subject (eb_operation body) with
  | None => Err (InvalidRelationship "non-recovery event under recovery intent authority")
  | Some (evidence, _, _) =>
      if other_recovery_policy s evidence then Err PolicyVersionMismatch else
      match ry_authority (p_recovery_policy s) with
      | RecoverByControllers threshold =>
          if bool_decide (te_guardian_approvals evidence ≠ None)
          then Err (InvalidRelationship "guardian evidence for controller recovery intent")
          else validate_intent_threshold s body intents (ct_selector threshold)
                 (ct_required_weight threshold)
      | RecoverByGuardians _ => Err FreshnessUnavailable
      end
  end.

(** ** Freshness and delays *)

Definition validate_intent_approvals (s : Projection) (event : AuthorizedEvent) (rule : PolicyRule)
    : result IdentityError () :=
  let body := ev_body event in
  let delay := ae_delay (ev_admission_evidence event) in
  let threshold selector required_weight proposal :=
    match delay_intent_approvals delay with
    | None => Err FreshnessUnavailable
    | Some intents =>
        if bool_decide (intents_proposal_id intents ≠ Some proposal)
        then Err (InvalidRelationship "delayed intent proposal")
        else validate_intent_threshold s body intents selector required_weight
    end in
  proposal ← proposal_id body;
  match delay_receipts delay with
  | None => Err FreshnessUnavailable
  | Some receipts =>
      if existsb (λ r, bool_decide (receipt_subject r ≠ SubjectEventIntent proposal)) receipts
      then Err (InvalidRelationship "delayed intent receipt subject") else
      match eb_operation body, ry_authority (p_recovery_policy s) with
      | (BeginRecoveryOp _ | CancelRecoveryOp _), RecoverByControllers t =>
          if is_guardian_recovery delay
          then Err (InvalidRelationship "guardian delay evidence under controller recovery policy")
          else threshold (ct_selector t) (ct_required_weight t) proposal
      | (BeginRecoveryOp _ | CancelRecoveryOp _), RecoverByGuardians _ =>
          if negb (is_guardian_recovery delay)
          then Err (InvalidRelationship "guardian recovery delay evidence shape")
          else Ok ()
      | _, _ =>
          if is_guardian_recovery delay
          then Err (InvalidRelationship "guardian delay evidence for ordinary operation")
          else threshold (pr_eligible_controllers rule) (pr_required_weight rule) proposal
      end
  end.

(** The loop over the freshness receipts: those that are not older than
    [maximum_age], and whether a configured one is. *)
Fixpoint fresh_receipts (s : Projection) (providers : list ProviderDescriptor) (maximum_age : N)
    (receipts : ProviderReceipts) : result IdentityError (ProviderReceipts * bool) :=
  match receipts with
  | [] => Ok ([], false)
  | receipt :: receipts =>
      if bool_decide (le_account_id (ir_entry receipt) ≠ p_account_id s) then Err AccountMismatch else
      provider ← configured_provider providers (receipt_provider_id receipt);
      match provider with
      | None => fresh_receipts s providers maximum_age receipts
      | Some provider =>
          _ ← receipt_verify receipt provider;
          if receipt_head_time receipt <? receipt_observed_at receipt
          then Err (InvalidRelationship "provider head observation time") else
          '(valid, stale) ← fresh_receipts s providers maximum_age receipts;
          if maximum_age <? receipt_head_time receipt - receipt_observed_at receipt
          then Ok (valid, true) else Ok (receipt :: valid, stale)
      end
  end.

(** The freshness part of [validate_freshness]: the receipts, the quorum of the rule
    and the authority time. *)
Definition rule_freshness (s : Projection) (event : AuthorizedEvent) (rule : PolicyRule)
    : result IdentityError (ProviderReceipts * N * option N) :=
  let freshness := ae_freshness (ev_admission_evidence event) in
  match pr_freshness rule with
  | LatestKnown => Ok ([], 0, None)
  | RequireProviderQuorum requirement =>
      match freshness_receipts freshness with
      | None => Err FreshnessUnavailable
      | Some receipts =>
          if bool_decide (freshness_policy_id freshness ≠ Some (p_provider_policy_id s))
          then Err PolicyVersionMismatch else
          match pp_mode (p_provider_policy s) with
          | LocalOnly => Err FreshnessUnavailable
          | Replicated policy =>
              let required := pf_required requirement `max` rp_sufficient_threshold policy in
              let maximum_age := pf_maximum_age requirement `min` rp_maximum_evidence_age policy in
              '(valid, stale) ← fresh_receipts s (rp_providers policy) maximum_age receipts;
              if len valid <? required
              then Err (if stale : bool then StaleEvidence else FreshnessUnavailable)
              else Ok (valid, pf_required requirement,
                       Some (quorum_time required (receipt_head_time <$> valid)))
          end
      end
  end.

(** The delay evidence and the quorum of configured providers behind its anchor, which
    [validate_freshness] and [validate_recovery_intent_observation] check alike: the
    anchor, the quorum and the receipts of the configured providers. *)
Definition delay_quorum (s : Projection) (event : AuthorizedEvent) (rule_quorum : N)
    (resource : string) : result IdentityError (N * N * ProviderReceipts) :=
  let delay := ae_delay (ev_admission_evidence event) in
  match delay_observed_at delay with
  | None => Err FreshnessUnavailable
  | Some anchor =>
      if bool_decide (delay_policy_id delay ≠ Some (p_provider_policy_id s))
      then Err PolicyVersionMismatch else
      match pp_mode (p_provider_policy s), delay_required_quorum delay, delay_receipts delay with
      | Replicated policy, Some declared, Some receipts =>
          let minimum := rp_sufficient_threshold policy `max` rule_quorum in
          if declared <? minimum then Err FreshnessUnavailable else
          let required := minimum `max` declared in
          configured ← configured_receipts (p_account_id s) (rp_providers policy) (λ _, Ok ()) receipts;
          if len configured <? required then Err FreshnessUnavailable
          else if negb (quorum_time required (receipt_observed_at <$> configured) =? anchor)
          then Err (InvalidRelationship resource)
          else Ok (anchor, required, configured)
      | _, _, _ => Err FreshnessUnavailable
      end
  end.

Definition validate_recovery_intent_observation (s : Projection) (event : AuthorizedEvent)
    (rule : PolicyRule) (rule_quorum : N) (provider_authority_time : option N)
    : result IdentityError (option N) :=
  '(_, required, configured) ← delay_quorum s event rule_quorum
                                 "configured-provider recovery intent observation anchor";
  _ ← validate_intent_approvals s event rule;
  let start := quorum_time required (receipt_head_time <$> configured) in
  Ok (Some match provider_authority_time with
           | None => start
           | Some freshness_time => freshness_time `max` start
           end).

Definition requires_recovery_observation (s : Projection) (operation : AccountOperation) : bool :=
  match operation, ry_authority (p_recovery_policy s) with
  | BeginRecoveryOp _, _ | CancelRecoveryOp _, RecoverByGuardians _ => true
  | _, _ => false
  end.

Definition validate_freshness (s : Projection) (event : AuthorizedEvent) (rule : PolicyRule)
    : result IdentityError (option N) :=
  '(valid, rule_quorum, time) ← rule_freshness s event rule;
  if requires_recovery_observation s (eb_operation (ev_body event))
  then validate_recovery_intent_observation s event rule rule_quorum time else
  match pr_delay rule with
  | None =>
      if bool_decide (delay_observed_at (ae_delay (ev_admission_evidence event)) = None) then Ok time
      else Err (InvalidRelationship "unexpected policy delay evidence")
  | Some delay =>
      '(anchor, required, configured) ← delay_quorum s event rule_quorum
                                          "configured-provider delay observation anchor";
      _ ← validate_intent_approvals s event rule;
      deadline ← checked_add "timestamp milliseconds" anchor delay;
      let completion := if bool_decide (pr_freshness rule = LatestKnown) then configured else valid in
      let elapsed := filter (λ t, deadline <= t) (receipt_head_time <$> completion) in
      if len elapsed <? required then Err DelayNotElapsed
      else Ok (Some (quorum_time required elapsed))
  end.

(** ** Events and intents *)

Definition validate_body_predecessors (s : Projection) (body : EventBody) : result IdentityError () :=
  if p_sequence s =? 0 then
    if bool_decide (genesis_anchor_of (eb_predecessors body) ≠ Some (p_genesis_anchor s))
    then Err InvalidPredecessor else Ok ()
  else if bool_decide (event_heads (eb_predecessors body) ≠ Some (p_heads s))
  then Err InvalidPredecessor else Ok ().

(** The position of a body, its account and its epoch. *)
Definition validate_position (s : Projection) (body : EventBody) : result IdentityError () :=
  if bool_decide (eb_account_id body ≠ p_account_id s) then Err AccountMismatch else
  next ← checked_add "account sequence" (p_sequence s) 1;
  if negb (eb_sequence body =? next) then Err InvalidSequence else
  validate_body_predecessors s body.

Definition validate_epoch (s : Projection) (body : EventBody) : result IdentityError () :=
  epoch ← expected_epoch s (eb_operation body);
  if negb (eb_resulting_epoch body =? epoch) then Err InvalidEpoch else Ok ().

Definition validate_event (lineage authority : Projection) (event : AuthorizedEvent)
    (expected_epoch : N) : result IdentityError (option N) :=
  let body := ev_body event in
  let evidence := ev_admission_evidence event in
  _ ← validate_position lineage body;
  if negb (eb_resulting_epoch body =? expected_epoch) then Err InvalidEpoch else
  proposal ← proposal_id body;
  if bool_decide (ae_proposal_id evidence ≠ proposal)
  then Err (InvalidRelationship "projected event admission subject")
  else if bool_decide (ae_provider_policy_id evidence ≠ p_provider_policy_id authority)
  then Err PolicyVersionMismatch else
  match rule_for (p_control_policy authority) (operation_kind (eb_operation body)) with
  | None => Err AuthorizationDenied
  | Some rule =>
      _ ← match eb_operation body with
          | BeginRecoveryOp _ | FinalizeRecoveryOp _ => require_v1_recovery_crypto authority
          | _ => Ok ()
          end;
      time ← validate_freshness authority event rule;
      _ ← match eb_operation body with
          | BeginRecoveryOp _ | CancelRecoveryOp _ => validate_recovery_authority authority event time
          | FinalizeRecoveryOp _ =>
              if bool_decide (ev_approvals event ≠ [])
              then Err (InvalidRelationship "finalize recovery controller approvals") else Ok ()
          | _ => validate_approvals authority event rule
          end;
      Ok time
  end.

Definition verify_event_intent (s : Projection) (body : EventBody) (intents : EventIntentApprovals)
    : result IdentityError VerifiedEventIntent :=
  _ ← validate_position s body;
  _ ← validate_epoch s body;
  proposal ← proposal_id body;
  if bool_decide (intents_proposal_id intents ≠ Some proposal)
  then Err (InvalidRelationship "event intent proposal") else
  match rule_for (p_control_policy s) (operation_kind (eb_operation body)) with
  | None => Err AuthorizationDenied
  | Some rule =>
      if bool_decide (pr_delay rule = None)
         && negb (match eb_operation body with BeginRecoveryOp _ => true | _ => false end)
      then Err (InvalidRelationship "provider event intent without policy delay") else
      _ ← match eb_operation body with
          | BeginRecoveryOp _ | CancelRecoveryOp _ => validate_recovery_intent_authority s body intents
          | FinalizeRecoveryOp _ => Err AuthorizationDenied
          | _ => validate_intent_threshold s body intents (pr_eligible_controllers rule)
                   (pr_required_weight rule)
          end;
      Ok (mkVerifiedIntent (p_account_id s) proposal)
  end.

Definition verify_guardian_recovery_intent (s : Projection) (body : EventBody) (observed_at : N)
    : result IdentityError VerifiedEventIntent :=
  _ ← validate_position s body;
  _ ← validate_epoch s body;
  if bool_decide (rule_for (p_control_policy s) (operation_kind (eb_operation body)) = None)
  then Err AuthorizationDenied else
  match recovery_subject (eb_operation body) with
  | None => Err (InvalidRelationship "guardian recovery intent operation")
  | Some (evidence, recovery_id, decision) =>
      if other_recovery_policy s evidence then Err PolicyVersionMismatch else
      match ry_authority (p_recovery_policy s) with
      | RecoverByControllers _ =>
          Err (InvalidRelationship "guardian intent under controller recovery policy")
      | RecoverByGuardians _ =>
          _ ← guardians_authorize s evidence recovery_id decision observed_at;
          proposal ← proposal_id body;
          Ok (mkVerifiedIntent (p_account_id s) proposal)
      end
  end.

(** [AccountState::apply_new_linear] on the projection: the projection after the event
    and the effects of the transition.  [lineage] is the retained events, among which
    [finalize_recovery] looks for the event that began the recovery. *)
Definition apply_new_linear (s : Projection) (lineage : list AuthorizedEvent) (event : AuthorizedEvent)
    (event_id : Digest) : result IdentityError (Projection * list ProjectionEffect) :=
  let body := ev_body event in
  _ ← validate_lifecycle_gate s (eb_operation body);
  epoch ← expected_epoch s (eb_operation body);
  time ← validate_event s s event epoch;
  applied ← apply_operation s lineage event event_id time;
  let applied := set_position (eb_sequence body) (eb_resulting_epoch body) [event_id] applied in
  Ok (applied, transition_effects event_id (p_epoch applied)
                 (operation_changes_epoch (eb_operation body))).

End Verifier.
