(* ===== verification/IdAccountFacts.v ===== *)
(** * The invariant of an account and what preserves it

    [account_ok] relates the parts of a projection: the controllers, the policies they
    satisfy, the devices, the keys that never change hands, the phase of a migration
    and the lifecycle. *)
From stdpp Require Import base tactics list gmap countable orders sorting strings.
From Stdlib Require Import ZArith Lia Strings.Byte.
From S2P Require Import Prelude Bytes IdTypes SortedVec IdKeys IdFacts IdPolicy IdPolicyProps IdProviders IdApprovals IdGuardians IdCapability IdDevices IdEvidence IdRecovery IdMigration IdEvents IdAccount IdAccountOps IdVerifier.

Local Open Scope N_scope.

Lemma Ok_injective {E A} (a b : A) : (Ok a : result E A) = Ok b → a = b.
Proof. by intros [= ->]. Qed.

(** One check of a computation that succeeded. *)
Ltac ok_step H :=
  lazymatch type of H with
  | (_ ≫= _) = Ok _ => let y := fresh "y" in let Hy := fresh "Hy" in apply bind_Ok in H as (y & Hy & H)
  | (if _ then Err _ else _) = Ok _ => let Hc := fresh "Hc" in apply guard_Ok in H as [Hc H]
  end; cbv beta in H.
Ltac ok_steps H := repeat ok_step H; try (apply Ok_injective in H).

Lemma sum_with_proper {A} (f : A → N) l1 l2 : l1 ≡ₚ l2 → sum_with f l1 = sum_with f l2.
Proof. induction 1; cbn; lia. Qed.

Lemma sum_with_fmap {A B} (f : B → N) (g : A → B) l : sum_with f (g <$> l) = sum_with (λ a, f (g a)) l.
Proof. induction l as [|a l IH]; [done|]. cbn. by rewrite <-IH. Qed.

Section Account.
  Context `{HB : Blake3Hash} `{HC : Curve} `{HAW : !AccountWire}.

#[local] Arguments controller_id : simpl never.
#[local] Arguments device_id : simpl never.
#[local] Arguments suite_v1 : simpl never.

(** ** Controllers *)

Definition enrolled (c : ProjectedController) : Prop :=
  controller_id (pc_descriptor c) = Ok (pc_id c) ∧ cd_weight (pc_descriptor c) ≤ u32_max.

Record controllers_ok (active revoked : list ProjectedController) : Prop := {
  co_active : ascending digest_le pc_id active;
  co_revoked : ascending digest_le pc_id revoked;
  co_enrolled : Forall enrolled (active ++ revoked);
  co_ids : NoDup (pc_id <$> active ++ revoked);
  co_keys : NoDup (controller_key <$> active ++ revoked);
  co_bound : len (active ++ revoked) ≤ MAX_CONTROLLERS;
  co_some : active ≠ [];
}.

(** The weight a rule finds among the controllers. *)
Definition voting_weight (selector : ControllerSelector) (operation : OperationKind)
    (active : list ProjectedController) : N :=
  sum_with (λ c, if decide (selects selector (pc_id c) (pc_descriptor c)
                            ∧ permits (cd_scope (pc_descriptor c)) operation)
                 then cd_weight (pc_descriptor c) else 0) active.

Lemma selected_voting selector operation active :
  selected_weight selector operation (pc_id <$> active) (pc_descriptor <$> active)
  = voting_weight selector operation active.
Proof. induction active as [|c active IH]; [done|]. cbn. by rewrite IH. Qed.

Lemma enrolled_ids active : Forall enrolled active →
  Forall2 (λ c i, controller_id c = Ok i) (pc_descriptor <$> active) (pc_id <$> active).
Proof. induction 1 as [|c active [Hc _] _ IH]; cbn; by constructor. Qed.

Lemma enrolled_weights active : Forall enrolled active →
  Forall (λ c, cd_weight c ≤ u32_max) (pc_descriptor <$> active).
Proof. intros H. apply Forall_fmap. eapply Forall_impl; [exact H|]. by intros c [_ ?]. Qed.

Record electorate (active : list ProjectedController) : Prop := {
  el_enrolled : Forall enrolled active;
  el_ids : NoDup (pc_id <$> active);
  el_keys : NoDup (controller_key <$> active);
  el_bound : len active ≤ MAX_CONTROLLERS;
  el_some : active ≠ [];
}.

Lemma controllers_electorate active revoked : controllers_ok active revoked → electorate active.
Proof.
  intros [? ? He Hi Hk Hb ?]. rewrite !fmap_app in *. split; try done.
  - by apply Forall_app in He as [? _].
  - by apply NoDup_app in Hi as [? _].
  - by apply NoDup_app in Hk as [? _].
  - unfold len in *. rewrite length_app in Hb. lia.
Qed.

Lemma electorate_bounded active : electorate active → bounded_set MAX_CONTROLLERS (pc_descriptor <$> active).
Proof.
  intros [_ _ _ Hb Hs]. unfold bounded_set, len in *. rewrite length_fmap. split; [|done].
  destruct active; [done|]. cbn. lia.
Qed.

Lemma electorate_valid active : electorate active →
  validate_active_controllers (pc_descriptor <$> active) = Ok ().
Proof.
  intros H. unfold validate_active_controllers. rewrite unit_bind_Ok, validate_set_Ok, no_duplicates_Ok.
  split; [by apply electorate_bounded|]. exists (pc_id <$> active). split_and!.
  - apply enrolled_ids, H.
  - rewrite <-list_fmap_compose. apply H.
  - apply H.
Qed.

(** The controllers a selector names are there, and the weight is reached. *)
Definition reaches (active : list ProjectedController) (selector : ControllerSelector)
    (operation : OperationKind) (required : N) : Prop :=
  (∀ l, explicit_ids selector = Some l → l ⊆ pc_id <$> active) ∧
  required ≤ voting_weight selector operation active.

Lemma satisfiable_reaches p active : electorate active →
  validate_satisfiable p (pc_descriptor <$> active) = Ok () ↔
  ∀ r, r ∈ cp_rules p → is_recovery_operation (pr_operation r) = false →
    reaches active (pr_eligible_controllers r) (pr_operation r) (pr_required_weight r).
Proof.
  intros H. unfold validate_satisfiable. rewrite unit_bind_Ok.
  rewrite (rules_satisfiable_Ok _ _ (pc_id <$> active))
    by (apply enrolled_ids, H || by apply electorate_bounded || apply enrolled_weights, H).
  setoid_rewrite selected_voting. rewrite (electorate_valid active H). naive_solver.
Qed.

Lemma eligible_voting selector operation active : electorate active →
  eligible_weight selector operation (pc_descriptor <$> active)
  = Ok (voting_weight selector operation active).
Proof.
  intros H. unfold eligible_weight.
  rewrite (eligible_weight_from_Ok _ _ _ _ (pc_id <$> active)), N.add_0_l, selected_voting; [done|..].
  - apply enrolled_ids, H.
  - apply enrolled_weights, H.
  - pose proof (electorate_bounded active H) as [_ Hb].
    unfold MAX_CONTROLLERS, u32_max, usize_max in *. lia.
Qed.

Lemma references_found selector active : electorate active →
  validate_explicit_controller_references selector (pc_descriptor <$> active) = Ok () ↔
  ∀ l, explicit_ids selector = Some l → l ⊆ pc_id <$> active.
Proof.
  intros H. unfold validate_explicit_controller_references.
  destruct (explicit_ids selector) as [l|]; [|naive_solver].
  rewrite (all_found_Ok _ _ _ (enrolled_ids active (el_enrolled _ H))). naive_solver.
Qed.

Lemma authority_reaches p active : electorate active →
  validate_controller_authority p (pc_descriptor <$> active) = Ok () ↔
  match ry_authority p with
  | RecoverByGuardians _ => True
  | RecoverByControllers t =>
      reaches active (ct_selector t) OpBeginRecovery (ct_required_weight t) ∧
      reaches active (ct_selector t) OpCancelRecovery (ct_required_weight t)
  end.
Proof.
  intros H. unfold validate_controller_authority. destruct (ry_authority p) as [t|t]; [|done].
  unfold threshold_validate_satisfiable, reaches. rewrite !unit_bind_Ok, (references_found _ _ H),
    (electorate_valid _ H). cbn [threshold_reachable]. rewrite !(eligible_voting _ _ _ H).
  cbn [mbind result_bind]. rewrite !guard_Ok, !N.ltb_ge. naive_solver.
Qed.

(** One more controller keeps what was reached. *)
Lemma reaches_more active active' c selector operation required : active' ≡ₚ c :: active →
  reaches active selector operation required → reaches active' selector operation required.
Proof.
  intros Hp [Hl Hw]. split.
  - intros l Hs. etrans; [by apply Hl|]. intros i Hi. rewrite Hp. by right.
  - unfold voting_weight in *. rewrite (sum_with_proper _ _ _ Hp). cbn. lia.
Qed.

Lemma satisfiable_more p active active' c : electorate active → electorate active' →
  active' ≡ₚ c :: active →
  validate_satisfiable p (pc_descriptor <$> active) = Ok () →
  validate_satisfiable p (pc_descriptor <$> active') = Ok ().
Proof.
  intros H H' Hp. rewrite (satisfiable_reaches p active H), (satisfiable_reaches p active' H').
  intros Hr r Hin Hrec. by eapply reaches_more, Hr.
Qed.

Lemma authority_more p active active' c : electorate active → electorate active' →
  active' ≡ₚ c :: active →
  validate_controller_authority p (pc_descriptor <$> active) = Ok () →
  validate_controller_authority p (pc_descriptor <$> active') = Ok ().
Proof.
  intros H H' Hp. rewrite (authority_reaches p active H), (authority_reaches p active' H').
  destruct (ry_authority p) as [t|t]; [|done]. intros [??]. split; by eapply reaches_more.
Qed.

(** ** The parts of the invariant *)

Record policies_ok (s : Projection) : Prop := {
  py_control_id : control_policy_id (p_control_policy s) = Ok (p_control_policy_id s);
  py_recovery_id : recovery_policy_id (p_recovery_policy s) = Ok (p_recovery_policy_id s);
  py_provider_id : provider_policy_id (p_provider_policy s) = Ok (p_provider_policy_id s);
  py_satisfiable :
    validate_satisfiable (p_control_policy s) (active_controller_descriptors s) = Ok ();
  py_authority :
    validate_controller_authority (p_recovery_policy s) (active_controller_descriptors s) = Ok ();
}.

(** The key material the cryptographic state retains. *)
Definition stable_material (stable : StableCrypto) : list (list byte) :=
  ((λ k, ak_bytes (mk_key k)) <$> sc_migrated_keys stable) ++ (ak_bytes <$> sc_key_tombstones stable).

Definition crypto_material (crypto : CryptoProjection) : list (list byte) :=
  match crypto with
  | Stable stable => stable_material stable
  | Candidate previous migration _ | Dual previous migration _ _ =>
      stable_material previous ++ ((λ b, ak_bytes (kb_new_signing_key b)) <$> mg_bindings migration)
  end.

(** Devices share keys neither with each other, nor with a controller, nor with the
    cryptographic state. *)
Record devices_ok (devices : list ProjectedDevice) (controllers : list ProjectedController)
    (crypto : CryptoProjection) : Prop := {
  do_ascending : ascending digest_le dv_id devices;
  do_bound : len devices ≤ MAX_DEVICES;
  do_ids : ∀ d, d ∈ devices → device_id (dv_descriptor d) = Ok (dv_id d);
  do_distinct : ∀ d1 d2 k, d1 ∈ devices → d2 ∈ devices → dv_id d1 ≠ dv_id d2 →
    k ∈ device_keys (dv_descriptor d1) → k ∉ device_keys (dv_descriptor d2);
  do_controllers : ∀ d c, d ∈ devices → c ∈ controllers →
    signing_bytes_of (controller_key c) ∉ device_keys (dv_descriptor d);
  do_crypto : ∀ d k, d ∈ devices → k ∈ device_keys (dv_descriptor d) → k ∉ crypto_material crypto;
}.

(** Either no migration was completed, or every active controller has a key of the
    current suite. *)
Record stable_ok (active : list ProjectedController) (stable : StableCrypto) : Prop := {
  so_ascending : ascending digest_le mk_controller_id (sc_migrated_keys stable);
  so_initial : sc_migrated_keys stable = [] →
    suite_v1 = Ok (sc_suite stable) ∧ sc_retired_suites stable = [] ∧ sc_key_tombstones stable = [];
  so_covers : sc_migrated_keys stable ≠ [] →
    pc_id <$> active ⊆ mk_controller_id <$> sc_migrated_keys stable;
}.

Definition migration_ok (active : list ProjectedController) (migration : CryptoMigrationBody) : Prop :=
  ascending digest_le kb_controller_id (mg_bindings migration) ∧
  pc_id <$> active ⊆ kb_controller_id <$> mg_bindings migration.

Definition crypto_ok (active : list ProjectedController) (crypto : CryptoProjection) : Prop :=
  match crypto with
  | Stable stable => stable_ok active stable
  | Candidate previous migration _ | Dual previous migration _ _ =>
      stable_ok active previous ∧ migration_ok active migration
  end.

(** A plan as its constructor makes it. *)
Definition plan_built (p : RecoveryAuthorityPlan) : Prop :=
  plan_from_sorted (pl_account_id p) (pl_prior_checkpoint_id p) (pl_prior_event_head p)
    (pl_recovery_policy_id p) (pl_recovery_policy_version p) (pl_nonce p)
    (pl_replacement_controllers p) (pl_replacement_control_policy p)
    (pl_replacement_recovery_policy p) (pl_retained_devices p) (pl_expires_at p)
    (pl_extensions p) = Ok p
  ∧ Forall (λ c, cd_weight c ≤ u32_max) (pl_replacement_controllers p).

Definition pending_ok (s : Projection) : Prop :=
  ∀ pending, p_pending_recovery s = Some pending →
    let plan := rp_plan (pr_proposal pending) in
    let observation := pr_begin_observation pending in
    plan_built plan ∧ pl_account_id plan = p_account_id s ∧
    pl_recovery_policy_id plan = p_recovery_policy_id s ∧
    po_delay_deadline observation = po_observed_at observation + ry_delay (p_recovery_policy s) ∧
    po_lifetime_deadline observation = po_observed_at observation + ry_lifetime (p_recovery_policy s).

(** What is under way in each phase of the lifecycle. *)
Definition is_stable (crypto : CryptoProjection) : Prop :=
  match crypto with Stable _ => True | _ => False end.
Definition is_candidate (crypto : CryptoProjection) : Prop :=
  match crypto with Candidate _ _ _ => True | _ => False end.
Definition is_dual (crypto : CryptoProjection) : Prop :=
  match crypto with Dual _ _ _ _ => True | _ => False end.

Definition lifecycle_ok (s : Projection) : Prop :=
  let idle := p_pending_recovery s = None in
  let current := p_upgrade s = None ∧ p_retirement s = None in
  match p_lifecycle s with
  | LifeActive => idle ∧ is_stable (p_crypto s) ∧ current
  | LifeRecoveryPending => is_Some (p_pending_recovery s) ∧ is_stable (p_crypto s) ∧ current
  | LifeMigrationPending => idle ∧ is_candidate (p_crypto s) ∧ current
  | LifeMigrationDual => idle ∧ is_dual (p_crypto s) ∧ current
  | LifeUpgradePending => idle ∧ is_stable (p_crypto s) ∧ is_Some (p_upgrade s) ∧ p_retirement s = None
  | LifeRetired => idle ∧ is_stable (p_crypto s) ∧ p_upgrade s = None ∧ is_Some (p_retirement s)
  | LifeForked => False
  end.

(** The part of the invariant that every operation keeps by itself; the lifecycle is
    that of the operations the gate lets through. *)
Record authority_ok (s : Projection) : Prop := {
  ao_controllers : controllers_ok (p_active_controllers s) (p_revoked_controllers s);
  ao_policies : policies_ok s;
  ao_devices : devices_ok (p_devices s) (p_active_controllers s ++ p_revoked_controllers s) (p_crypto s);
  ao_crypto : crypto_ok (p_active_controllers s) (p_crypto s);
  ao_pending : pending_ok s;
}.

Record account_ok (s : Projection) : Prop := {
  ac_authority : authority_ok s;
  ac_lifecycle : lifecycle_ok s;
  ac_heads : length (p_heads s) = if p_sequence s =? 0 then 0%nat else 1%nat;
}.

(** The values of an operation as their constructors make them. *)
Definition authorization_built (a : DeviceAuthorization) : Prop :=
  ∃ capabilities wire,
    authorization_from_fields (da_device_id a) (da_descriptor a) (da_device_class a)
      (da_metadata_commitment a) capabilities (da_authorization_epoch a) (da_extensions a) wire = Ok a.

Definition migration_built (m : CryptoMigrationBody) : Prop :=
  migration_from_sorted (mg_account_id m) (mg_from_suite_id m) (mg_to_suite m) (mg_bindings m)
    (mg_successor_account_id m) (mg_nonce m) (mg_extensions m) = Ok m.

Definition operation_built (operation : AccountOperation) : Prop :=
  match operation with
  | AuthorizeDevice a => authorization_built a
  | RotateDeviceKeysOp r => authorization_built (rt_new_authorization r)
  | AddController d => cd_weight d ≤ u32_max
  | BeginRecoveryOp b => plan_built (rp_plan (br_proposal b))
  | BeginCryptoMigrationOp b => migration_built (bm_migration b)
  | _ => True
  end.

(** An event as its constructors make it: the approvals are in the order of their
    controllers and for this event. *)
Definition event_built (e : AuthorizedEvent) : Prop :=
  event_new (ev_body e) (ev_admission_evidence e) (ev_approvals e) = Ok e ∧
  approvals_from_sorted (ev_approvals e) = Ok (ev_approvals e).

End Account.
