(* ===== verification/IdAccountSteps.v ===== *)
(** * The operations of an account keep its invariant *)
From stdpp Require Import base tactics list gmap countable orders sorting strings.
From Stdlib Require Import ZArith Lia Strings.Byte.
From S2P Require Import Prelude Bytes IdTypes SortedVec IdKeys IdFacts IdPolicy IdPolicyProps IdProviders IdApprovals IdGuardians IdCapability IdDevices IdEvidence IdRecovery IdMigration IdEvents IdAccount IdAccountOps IdVerifier IdAccountFacts.

Local Open Scope N_scope.

Lemma ascending_keys {K A} `{!EqDecision K} (R : relation K) (key : A → K) l :
  ascending R key l ↔ ascending R id (key <$> l).
Proof.
  unfold ascending. induction l as [|a l IH]; [by split; constructor|].
  cbn. rewrite !StronglySorted_cons, IH, Forall_fmap. done.
Qed.

Section Steps.
  Context `{HB : Blake3Hash} `{HC : Curve} `{HAW : !AccountWire}.

#[local] Arguments controller_id : simpl never.
#[local] Arguments device_id : simpl never.
#[local] Arguments suite_v1 : simpl never.

(** ** Keys *)

Lemma reuse_spec a b : device_descriptors_reuse_key a b = false ↔
  ∀ k, k ∈ device_keys a → k ∉ device_keys b.
Proof.
  unfold device_descriptors_reuse_key. rewrite existsb_false, Forall_forall.
  setoid_rewrite existsb_false. setoid_rewrite Forall_forall. setoid_rewrite bool_decide_eq_false.
  naive_solver.
Qed.

Lemma signing_key_inj k1 k2 : signing_bytes_of k1 = signing_bytes_of k2 → k1 = k2.
Proof. destruct k1, k2; cbn; congruence. Qed.

Lemma reuse_controller_spec d key : device_descriptor_reuses_controller_key d key = false ↔
  signing_bytes_of key ∉ device_keys d.
Proof.
  unfold device_descriptor_reuses_controller_key, device_keys.
  rewrite !orb_false_iff, !bool_decide_eq_false, !not_elem_of_cons. split.
  - intros [[H1 H2] H3]. split_and!; [intros ?%signing_key_inj|intros ?|intros ?%signing_key_inj|apply not_elem_of_nil]; congruence.
  - intros (H1 & H2 & H3 & _). split_and!; intros ?; congruence.
Qed.

Lemma stable_reuses_spec stable k : stable_reuses stable k = false ↔ k ∉ stable_material stable.
Proof.
  unfold stable_reuses, stable_material.
  rewrite orb_false_iff, !existsb_false, !Forall_forall, not_elem_of_app, !list_elem_of_fmap.
  setoid_rewrite bool_decide_eq_false. naive_solver.
Qed.

Lemma retains_spec s k : crypto_retains_key_material s k = false ↔ k ∉ crypto_material (p_crypto s).
Proof.
  assert (Hb : ∀ l : list ControllerKeyBinding,
    existsb (λ b, bool_decide (ak_bytes (kb_new_signing_key b) = k)) l = false
    ↔ k ∉ (λ b, ak_bytes (kb_new_signing_key b)) <$> l).
  { intros l. rewrite existsb_false, Forall_forall, list_elem_of_fmap.
    setoid_rewrite bool_decide_eq_false. naive_solver. }
  unfold crypto_retains_key_material, crypto_material. destruct (p_crypto s); [apply stable_reuses_spec|..].
  all: by rewrite orb_false_iff, stable_reuses_spec, Hb, not_elem_of_app.
Qed.

(** ** Devices *)

Definition device_view (d : ProjectedDevice) : Digest * DeviceDescriptor := (dv_id d, dv_descriptor d).

(** The invariant does not see the class, the capabilities and the lifecycle. *)
Lemma devices_ok_view devices devices' controllers crypto :
  device_view <$> devices' = device_view <$> devices →
  devices_ok devices controllers crypto → devices_ok devices' controllers crypto.
Proof.
  intros Hv [Ha Hb Hi Hd Hcs Hcr].
  assert (Hin : ∀ d, d ∈ devices' → ∃ d0, d0 ∈ devices ∧ dv_id d0 = dv_id d ∧ dv_descriptor d0 = dv_descriptor d).
  { intros d Hd'. apply (list_elem_of_fmap_2 device_view) in Hd'. rewrite Hv in Hd'.
    apply list_elem_of_fmap in Hd' as (d0 & [= H1 H2] & ?). by exists d0. }
  assert (Hids : dv_id <$> devices' = dv_id <$> devices).
  { assert (∀ l : list ProjectedDevice, dv_id <$> l = fst <$> (device_view <$> l)) as Hf.
    { intros l. by rewrite <-list_fmap_compose. }
    by rewrite !Hf, Hv. }
  split.
  - apply (ascending_keys digest_le dv_id). rewrite Hids. by apply (ascending_keys digest_le dv_id).
  - unfold len in *. by rewrite <-(length_fmap dv_id), Hids, length_fmap.
  - intros d (d0 & H0 & <- & <-)%Hin. by apply Hi.
  - intros d1 d2 k (e1 & H1 & <- & <-)%Hin (e2 & H2 & <- & <-)%Hin. by apply Hd.
  - intros d c (d0 & H0 & _ & <-)%Hin. by apply Hcs.
  - intros d k (d0 & H0 & _ & <-)%Hin. by apply Hcr.
Qed.

Lemma device_mut_Ok s id i d : device_mut s id = Ok (i, d) →
  p_devices s !! i = Some d ∧ dv_id d = id.
Proof.
  unfold device_mut. destruct (search _ _ _ _) as [j|j] eqn:Hs; [|done].
  apply search_Ok in Hs as (a & Ha & Hk). rewrite Ha. by intros [= <- <-].
Qed.

Lemma put_device_view s i d d' : p_devices s !! i = Some d → device_view d' = device_view d →
  device_view <$> p_devices (put_device s i d') = device_view <$> p_devices s.
Proof.
  intros Hi Hv. cbn. rewrite list_fmap_insert, Hv. apply list_insert_id.
  by rewrite list_lookup_fmap, Hi.
Qed.

(** A state that differs in devices with the same identifiers and descriptors. *)
Definition same_devices (s s' : Projection) : Prop :=
  ∃ devices, s' = set_devices devices s ∧ device_view <$> devices = device_view <$> p_devices s.

Lemma same_devices_ok s s' : same_devices s s' → authority_ok s → authority_ok s'.
Proof.
  intros (devices & -> & Hv) [Hc [? ? ? ? ?] Hd Hcr Hp]. split; cbn; try done.
  by eapply devices_ok_view.
Qed.

Lemma put_same s id i d d' : device_mut s id = Ok (i, d) → device_view d' = device_view d →
  same_devices s (put_device s i d').
Proof.
  intros [Hi _]%device_mut_Ok Hv. eexists. split; [done|]. by apply (put_device_view s i d d').
Qed.

Lemma revoke_same s id s' : revoke_device s id = Ok s' → same_devices s s'.
Proof.
  unfold revoke_device. intros H. ok_step H. destruct y as [i d]. ok_steps H. subst.
  by eapply put_same.
Qed.

Lemma device_ops_same s s' :
  (∃ u, update_device_metadata s u = Ok s') ∨ (∃ u, suspend_device s u = Ok s') ∨
  (∃ u, reinstate_device s u = Ok s') ∨ (∃ u e, update_device_authorization s u e = Ok s') →
  same_devices s s'.
Proof.
  unfold update_device_metadata, suspend_device, reinstate_device, update_device_authorization.
  intros [[u H]|[[u H]|[[u H]|(u & e & H)]]]; repeat ok_step H; destruct y as [i d];
    repeat ok_step H; try (destruct (dv_lifecycle d); try discriminate H);
    apply Ok_injective in H as <-; by eapply put_same.
Qed.

Lemma authorization_built_id a : authorization_built a →
  device_id (da_descriptor a) = Ok (da_device_id a).
Proof.
  intros (caps & wire & H). unfold authorization_from_fields in H. ok_step H. ok_step H. bool_hyps.
  apply dec_stable in Hc. by rewrite <-Hc.
Qed.

Lemma new_descriptor_Ok s d u : validate_new_device_descriptor s d = Ok u →
  (∀ d0 k, d0 ∈ p_devices s → k ∈ device_keys (dv_descriptor d0) → k ∉ device_keys d) ∧
  (∀ c, c ∈ p_active_controllers s ++ p_revoked_controllers s →
    signing_bytes_of (controller_key c) ∉ device_keys d) ∧
  (∀ k, k ∈ device_keys d → k ∉ crypto_material (p_crypto s)).
Proof.
  intros H. unfold validate_new_device_descriptor in H. repeat ok_step H.
  rewrite existsb_false, Forall_forall in Hc. rewrite existsb_false, Forall_forall in Hc0.
  rewrite existsb_false, Forall_forall in Hc1. split_and!.
  - intros d0 k Hd0. apply reuse_spec. by apply Hc.
  - intros c Hin. apply reuse_controller_spec. by apply Hc0.
  - intros k Hk. apply retains_spec. by apply Hc1.
Qed.

Lemma authorize_Ok s a epoch s' : authorize_device s a epoch = Ok s' →
  ∃ i, search digest_le dv_id (da_device_id a) (p_devices s) = Err i ∧
    validate_new_device_descriptor s (da_descriptor a) = Ok () ∧
    len (p_devices s) < MAX_DEVICES ∧ da_authorization_epoch a = epoch ∧
    s' = set_devices (insert_at i
           (mkProjectedDevice (da_device_id a) (da_descriptor a) (da_device_class a)
              (da_metadata_commitment a) (da_capabilities a) (da_authorization_epoch a)
              DeviceIsActive) (p_devices s)) s.
Proof.
  intros H. unfold authorize_device in H. ok_step H. destruct (search _ _ _ _) as [j|j] eqn:Hs.
  { by destruct (dv_lifecycle <$> _) as [[]|]. }
  ok_steps H. destruct y. bool_hyps. exists j. by split_and!.
Qed.

Lemma authorize_ok s a epoch s' : authorization_built a → authorize_device s a epoch = Ok s' →
  authority_ok s → authority_ok s'.
Proof.
  intros Hid%authorization_built_id (j & Hs & (H1 & H2 & H3)%new_descriptor_Ok & Hlen & _ & ->)%authorize_Ok
    [Hc [? ? ? ? ?] [Ha Hbd Hi Hd Hcs Hcr] Hk Hp].
  set (new := mkProjectedDevice _ _ _ _ _ _ _).
  assert (Hin : ∀ d, d ∈ insert_at j new (p_devices s) ↔ d = new ∨ d ∈ p_devices s).
  { intros d. by rewrite insert_at_Permutation, elem_of_cons. }
  split; cbn; try done. split.
  - by apply (insert_at_ascending digest_le dv_id (da_device_id a)).
  - unfold len in *. rewrite insert_at_Permutation. cbn [length]. lia.
  - intros d [->|Hd0]%Hin; [|by apply Hi]. done.
  - intros d1 d2 k [->|Hd1]%Hin [->|Hd2]%Hin Hne Hk1; [done| |by apply (H1 d1)|by apply (Hd d1)].
    intros Hk2. by apply (H1 d2 k).
  - intros d c [->|Hd0]%Hin Hin'; [by apply H2|by apply Hcs].
  - intros d k [->|Hd0]%Hin Hkin; [by apply H3|by eapply Hcr].
Qed.

(** Other controllers and other key material that no device has. *)
Lemma devices_ok_keys devices cs cs' crypto crypto' :
  (∀ c, c ∈ cs' → c ∈ cs ∨ ∀ d, d ∈ devices → signing_bytes_of (controller_key c) ∉ device_keys (dv_descriptor d)) →
  (∀ k, k ∈ crypto_material crypto' → k ∈ crypto_material crypto ∨
    ∀ d, d ∈ devices → k ∉ device_keys (dv_descriptor d)) →
  devices_ok devices cs crypto → devices_ok devices cs' crypto'.
Proof.
  intros Hcs Hk [? ? ? ? Hc Hm]. split; try done.
  - intros d c Hd [Hin|Hf]%Hcs; [by apply Hc|by apply Hf].
  - intros d k Hd Hkd [Hin|Hf]%Hk; [by apply (Hm d k)|by apply (Hf d)].
Qed.

(** ** Controllers *)

Lemma crypto_ok_subset active active' crypto :
  pc_id <$> active' ⊆ pc_id <$> active → crypto_ok active crypto → crypto_ok active' crypto.
Proof.
  intros Hsub. assert (Hst : ∀ st, stable_ok active st → stable_ok active' st).
  { intros st [? ? Hcov]. split; try done. intros Hne. etrans; [done|by apply Hcov]. }
  assert (Hm : ∀ m, migration_ok active m → migration_ok active' m).
  { intros m [??]. split; [done|]. by etrans. }
  destruct crypto; cbn; naive_solver.
Qed.

Lemma insert_revoked_Ok revoked c revoked' : insert_revoked revoked c = Ok revoked' →
  ascending digest_le pc_id revoked →
  revoked' ≡ₚ c :: revoked ∧ ascending digest_le pc_id revoked'.
Proof.
  unfold insert_revoked. destruct (search _ _ _ _) as [i|i] eqn:Hs; [done|].
  intros <-%Ok_injective Ha. split; [apply insert_at_Permutation|].
  by apply (insert_at_ascending digest_le pc_id (pc_id c)).
Qed.

(** The two lists of controllers after a permutation of them all. *)
Lemma controllers_ok_permuted active revoked active' revoked' :
  active' ++ revoked' ≡ₚ active ++ revoked →
  ascending digest_le pc_id active' → ascending digest_le pc_id revoked' → active' ≠ [] →
  controllers_ok active revoked → controllers_ok active' revoked'.
Proof.
  intros Hp ? ? ? [? ? He Hi Hk Hb ?]. split; try done.
  - by rewrite Hp.
  - by rewrite Hp.
  - by rewrite Hp.
  - unfold len in *. by rewrite Hp.
Qed.

Lemma remove_Ok s id s' : remove_controller s id = Ok s' → controllers_ok (p_active_controllers s) (p_revoked_controllers s) →
  ∃ c active revoked, s' = set_controllers active revoked s ∧ pc_id c = id ∧
    p_active_controllers s ≡ₚ c :: active ∧ revoked ≡ₚ c :: p_revoked_controllers s ∧
    ascending digest_le pc_id active ∧ ascending digest_le pc_id revoked ∧ active ≠ [] ∧
    validate_satisfiable (p_control_policy s) (pc_descriptor <$> active) = Ok () ∧
    validate_controller_authority (p_recovery_policy s) (pc_descriptor <$> active) = Ok ().
Proof.
  intros H [Ha Hr _ _ _ _ _]. unfold remove_controller in H. ok_step H.
  destruct (search _ _ _ _) as [i|i] eqn:Hs; [|done].
  apply search_Ok in Hs as (c & Hi & Hid). rewrite Hi in H. cbv zeta in H. ok_steps H. destruct y, y0.
  bool_hyps. apply insert_revoked_Ok in Hy1 as [Hp Hasc]; [|done].
  exists c, (delete i (p_active_controllers s)), y1. split_and!; try done.
  - by apply delete_Permutation.
  - by apply delete_ascending.
Qed.

Lemma remove_ok s id s' : remove_controller s id = Ok s' → authority_ok s → authority_ok s'.
Proof.
  intros H [Hc [? ? ? ? ?] Hd Hk Hp].
  apply remove_Ok in H as (c & active & revoked & -> & _ & Hpa & Hpr & ? & ? & ? & ? & ?); [|done].
  assert (Hperm : active ++ revoked ≡ₚ p_active_controllers s ++ p_revoked_controllers s).
  { rewrite Hpa, Hpr. cbn. by rewrite <-Permutation_middle. }
  split; cbn; try done.
  - by eapply controllers_ok_permuted.
  - eapply devices_ok_keys; [|by left|exact Hd]. intros c' Hin. left. by rewrite <-Hperm.
  - eapply crypto_ok_subset; [|exact Hk]. intros i Hi. rewrite Hpa. by right.
Qed.

Lemma algorithm_key_new_Ok code bytes k : algorithm_key_new code bytes = Ok k →
  ak_code k = code ∧ ak_bytes k = bytes.
Proof.
  intros H. unfold algorithm_key_new in H. ok_steps H. subst k.
  by apply bounded_Ok in Hy as [-> _].
Qed.

(** What the enrollment of a controller adds to the cryptographic state. *)
Lemma enroll_ok s d id key s' :
  enrollment_key s d = Ok key → enroll_key s id key = Ok s' →
  ∃ crypto, s' = set_crypto crypto s ∧
    (∀ k, k ∈ crypto_material crypto →
      k ∈ crypto_material (p_crypto s) ∨ k = signing_bytes_of (cd_signing_key d)) ∧
    ∀ active active', crypto_ok active (p_crypto s) →
      (∀ i, i ∈ pc_id <$> active' → i = id ∨ i ∈ pc_id <$> active) → crypto_ok active' crypto.
Proof.
  unfold enrollment_key, enroll_key. destruct (p_crypto s) as [st|st m b|st m b a] eqn:Hcr; [|done..].
  intros Hk H. ok_step Hk. destruct (_ || _) eqn:Hmig.
  - ok_steps Hk. subst key. apply algorithm_key_new_Ok in Hy0 as [_ Hbytes].
    destruct (search _ _ _ _) as [i|i] eqn:Hs; [done|]. apply Ok_injective in H. subst s'.
    eexists. split; [done|]. split.
    + intros k. cbn. unfold stable_material. cbn. rewrite !elem_of_app, !list_elem_of_fmap.
      setoid_rewrite insert_at_Permutation. setoid_rewrite elem_of_cons.
      intros [(x & -> & [->|Hx])|Hx]; naive_solver.
    + intros active active' [Ha Hi Hcov] Hsub. split; cbn.
      * by apply (insert_at_ascending digest_le mk_controller_id id).
      * intros Hnil. by destruct i, (sc_migrated_keys st).
      * intros _ j Hj. rewrite insert_at_Permutation. cbn. rewrite elem_of_cons.
        destruct (Hsub j Hj) as [->|Hj']; [by left|]. right. apply Hcov; [|done].
        intros Hnil. rewrite Hnil in *. destruct (Hi eq_refl) as [Hv1 _].
        rewrite Hv1 in Hy. apply Ok_injective in Hy. subst y. by bool_hyps; rewrite !bool_decide_eq_false_2 in Hmig by naive_solver.
  - ok_steps Hk. subst key. apply Ok_injective in H. subst s'. exists (Stable st).
    split; [destruct s; cbn in *; by subst|]. split; [by left|].
    intros active active' [Ha Hi Hcov] _. bool_hyps. by split.
Qed.

Lemma add_Ok s d s' : add_controller s d = Ok s' →
  ∃ id i key, controller_id d = Ok id ∧
    enrollment_key s d = Ok key ∧
    search digest_le pc_id id (p_active_controllers s) = Err i ∧
    (∀ c, c ∈ p_active_controllers s ++ p_revoked_controllers s →
      pc_id c ≠ id ∧ controller_key c ≠ cd_signing_key d) ∧
    (∀ v, v ∈ p_devices s → signing_bytes_of (cd_signing_key d) ∉ device_keys (dv_descriptor v)) ∧
    len (p_active_controllers s) + len (p_revoked_controllers s) + 1 ≤ MAX_CONTROLLERS ∧
    enroll_key (set_controllers (insert_at i (mkProjectedController id d) (p_active_controllers s))
      (p_revoked_controllers s) s) id key = Ok s'.
Proof.
  intros H. unfold add_controller in H. repeat ok_step H.
  destruct (search _ _ _ _) as [i|i] eqn:Hs; [done|].
  apply checked_add_Ok in Hy1 as [-> _], Hy2 as [-> _]. rewrite existsb_false, Forall_forall in Hc2.
  rewrite existsb_false, Forall_forall in Hc3. bool_hyps. apply dec_stable in Hc0, Hc1.
  unfold revoked_controller in Hc0. unfold active_controller in Hc1. rewrite get_by_None in Hc0, Hc1.
  exists y, i, y0. split_and!; try done.
  - intros c Hin. split; [apply elem_of_app in Hin as [?|?]; by auto|].
    exact (bool_decide_eq_false_1 _ (Hc2 c Hin)).
  - intros v Hv. by apply reuse_controller_spec, Hc3.
Qed.

Lemma add_ok s d s' : cd_weight d ≤ u32_max → add_controller s d = Ok s' → authority_ok s → authority_ok s'.
Proof.
  intros Hw (id & i & key & Hid & Hkey & Hs & Hfresh & Hdev & Hb & H)%add_Ok
    [Hc [? ? ? Hsat Haut] Hd Hk Hp].
  set (c := mkProjectedController id d) in *. set (active := insert_at i c (p_active_controllers s)) in *.
  eapply enroll_ok in H as (crypto & -> & Hmat & Hcr); [|exact Hkey].
  assert (Hpa : active ≡ₚ c :: p_active_controllers s) by apply insert_at_Permutation.
  assert (Hc' : controllers_ok active (p_revoked_controllers s)).
  { destruct Hc as [? ? He Hi Hks Hbd Hne]. split; try done.
    - by apply (insert_at_ascending digest_le pc_id id).
    - rewrite Hpa. by constructor.
    - rewrite Hpa. cbn. constructor; [|done]. intros (c' & Hc' & Hin)%list_elem_of_fmap.
      by destruct (Hfresh c' Hin).
    - rewrite Hpa. cbn. constructor; [|done]. intros (c' & Hc' & Hin)%list_elem_of_fmap.
      by destruct (Hfresh c' Hin).
    - unfold len in *. rewrite Hpa. cbn [length app]. rewrite length_app in *. lia.
    - intros Hnil. rewrite Hnil in Hpa. by apply Permutation_nil_cons in Hpa. }
  pose proof (controllers_electorate _ _ Hc) as Hel. pose proof (controllers_electorate _ _ Hc') as Hel'.
  split; cbn; try done.
  - split; cbn; try done.
    + by apply (satisfiable_more _ (p_active_controllers s) active c).
    + by apply (authority_more _ (p_active_controllers s) active c).
  - eapply devices_ok_keys; [| |exact Hd].
    + intros c'. rewrite Hpa. cbn. rewrite elem_of_cons. intros [->|?]; [|by left]. by right.
    + intros k [?| ->]%Hmat; [by left|by right].
  - eapply Hcr; [exact Hk|]. intros j. rewrite Hpa. cbn. by rewrite elem_of_cons.
Qed.

End Steps.
