(* ===== verification/IdAccountPhases.v ===== *)
(** * Recovery and migration keep the invariant of an account *)
From stdpp Require Import base tactics list gmap countable orders sorting strings.
From Stdlib Require Import ZArith Lia Strings.Byte.
From S2P Require Import Prelude Bytes IdTypes SortedVec IdKeys IdFacts IdPolicy IdPolicyProps IdProviders IdApprovals IdGuardians IdCapability IdDevices IdEvidence IdRecovery IdMigration IdEvents IdAccount IdAccountOps IdVerifier IdAccountFacts IdAccountSteps.

Local Open Scope N_scope.

Section Phases.
  Context `{HB : Blake3Hash} `{HC : Curve} `{HAW : !AccountWire}.

#[local] Arguments controller_id : simpl never.
#[local] Arguments device_id : simpl never.
#[local] Arguments suite_v1 : simpl never.

(** ** The plan of a recovery *)

Lemma projected_Ok cs active : projected_controllers cs = Ok active →
  pc_descriptor <$> active = cs ∧ Forall (λ c, controller_id (pc_descriptor c) = Ok (pc_id c)) active.
Proof.
  unfold projected_controllers. rewrite collect_fmap_Ok.
  induction 1 as [|d c cs active Hc _ [<- IH]]; [done|]. ok_steps Hc. subst c. by split; [|constructor].
Qed.

Lemma projected_ids cs active : projected_controllers cs = Ok active →
  collect (controller_id <$> cs) = Ok (pc_id <$> active).
Proof.
  intros [<- H]%projected_Ok. apply collect_fmap_Ok.
  induction H as [|c active Hc _ IH]; cbn; by constructor.
Qed.

Lemma controllers_ascending_Ok previous active :
  Forall (λ c, controller_id (pc_descriptor c) = Ok (pc_id c)) active →
  controllers_ascending previous (pc_descriptor <$> active) = Ok () →
  ascending digest_le pc_id active ∧
  ∀ p, previous = Some p → Forall (λ c, strict digest_le p (pc_id c)) active.
Proof.
  intros H. revert previous. induction H as [|c active Hc _ IH]; intros previous Hasc.
  { split; [constructor|]. by constructor. }
  cbn in Hasc. rewrite Hc in Hasc. cbn in Hasc.
  assert (Hrest : controllers_ascending (Some (pc_id c)) (pc_descriptor <$> active) = Ok ()
    ∧ ∀ p, previous = Some p → strict digest_le p (pc_id c)).
  { destruct previous as [p|]; [|done]. pose proof (order_spec digest_le p (pc_id c)) as Ho.
    destruct (order _ _ _); try done. split; [done|]. by intros ? [= <-]. }
  destruct Hrest as [Hrest Hp]. apply IH in Hrest as [Ha Hc']. specialize (Hc' _ eq_refl).
  split; [by constructor|]. intros p Hprev. constructor; [by apply Hp|].
  eapply Forall_impl; [exact Hc'|]. intros c' H'. etrans; [by apply Hp|done].
Qed.

Lemma sorted_descriptors_Ok cs u : validate_sorted_controller_descriptors cs = Ok u →
  cs ≠ [] ∧ len cs ≤ MAX_CONTROLLERS ∧ controllers_ascending None cs = Ok () ∧
  NoDup (cd_signing_key <$> cs).
Proof.
  intros H. unfold validate_sorted_controller_descriptors in H. repeat ok_step H. destruct y. bool_hyps.
  split_and!; try done. apply any_pair_false in Hc1. apply sorted_NoDup.
  eapply StronglySorted_impl; [|exact Hc1]. intros x z. by rewrite bool_decide_eq_false.
Qed.

Lemma plan_built_Ok p : plan_built p →
  validate_sorted_controller_descriptors (pl_replacement_controllers p) = Ok () ∧
  validate_satisfiable (pl_replacement_control_policy p) (pl_replacement_controllers p) = Ok () ∧
  validate_controller_authority (pl_replacement_recovery_policy p) (pl_replacement_controllers p) = Ok () ∧
  Forall (λ c, cd_weight c ≤ u32_max) (pl_replacement_controllers p).
Proof.
  intros [H Hw]. unfold plan_from_sorted in H. repeat ok_step H. destruct y, y2, y3. by split_and!.
Qed.

Lemma plan_electorate p active : plan_built p →
  projected_controllers (pl_replacement_controllers p) = Ok active →
  electorate active ∧ ascending digest_le pc_id active ∧
  validate_satisfiable (pl_replacement_control_policy p) (pc_descriptor <$> active) = Ok () ∧
  validate_controller_authority (pl_replacement_recovery_policy p) (pc_descriptor <$> active) = Ok ().
Proof.
  intros (Hs & Hsat & Haut & Hw)%plan_built_Ok [Hds Hids]%projected_Ok. rewrite <-Hds in *.
  apply sorted_descriptors_Ok in Hs as (Hne & Hb & Hasc & Hk).
  apply controllers_ascending_Ok in Hasc as [Ha _]; [|done]. split_and!; try done. split.
  - rewrite Forall_fmap in Hw. rewrite Forall_forall in *. intros c Hin. split; [by apply Hids|by apply Hw].
  - by apply (ascending_NoDup digest_le pc_id).
  - by rewrite <-list_fmap_compose in Hk.
  - unfold len in *. by rewrite length_fmap in *.
  - by intros ->.
Qed.

Lemma fresh_Ok s ds u : replacements_fresh s ds = Ok u → ∀ d, d ∈ ds →
  ∃ id, controller_id d = Ok id ∧
    (∀ c, c ∈ p_revoked_controllers s → pc_id c ≠ id ∧ controller_key c ≠ cd_signing_key d) ∧
    (∀ c, c ∈ p_active_controllers s → pc_id c ≠ id → controller_key c ≠ cd_signing_key d) ∧
    (∀ v, v ∈ p_devices s → signing_bytes_of (cd_signing_key d) ∉ device_keys (dv_descriptor v)).
Proof.
  induction ds as [|d ds IH]; intros H d' Hin; [by apply elem_of_nil in Hin|].
  cbn in H. ok_step H. cbv zeta in H. repeat ok_step H.
  apply elem_of_cons in Hin as [->|Hin]; [|by apply IH]. exists y. split; [done|].
  rewrite existsb_false, Forall_forall in Hc0. rewrite existsb_false, Forall_forall in Hc1.
  rewrite existsb_false, Forall_forall in Hc2. bool_hyps. apply dec_stable in Hc.
  unfold revoked_controller in Hc. rewrite get_by_None in Hc. split_and!.
  - intros c Hin. split; [by apply Hc|]. exact (bool_decide_eq_false_1 _ (Hc1 c Hin)).
  - intros c Hin Hne Hk. specialize (Hc0 c Hin). by rewrite !bool_decide_eq_true_2 in Hc0.
  - intros v Hv. by apply reuse_controller_spec, Hc2.
Qed.

Lemma insert_all_Ok revoked removed revoked' : insert_all_revoked revoked removed = Ok revoked' →
  ascending digest_le pc_id revoked →
  revoked' ≡ₚ removed ++ revoked ∧ ascending digest_le pc_id revoked'.
Proof.
  revert revoked. induction removed as [|c removed IH]; intros revoked H Ha; cbn in H.
  { by apply Ok_injective in H as <-. }
  ok_step H. apply insert_revoked_Ok in Hy as [Hp Ha']; [|done].
  apply IH in H as [Hp' ?]; [|done]. split; [|done]. by rewrite Hp', Hp, <-Permutation_middle.
Qed.

Lemma sorted_contains_spec i ids : sorted_contains i ids = bool_decide (i ∈ ids).
Proof.
  unfold sorted_contains, id_set_contains. rewrite search_elem, list_fmap_id. by apply bool_decide_ext.
Qed.

(** The controllers that a plan does not name again. *)
Definition removed_by (active current : list ProjectedController) : list ProjectedController :=
  filter (λ c, sorted_contains (pc_id c) (pc_id <$> active) = false) current.

Lemma removed_elem active current c :
  c ∈ removed_by active current ↔ c ∈ current ∧ pc_id c ∉ pc_id <$> active.
Proof.
  unfold removed_by. rewrite list_elem_of_filter, sorted_contains_spec, bool_decide_eq_false. tauto.
Qed.

(** The devices after a plan. *)
Definition recovered_device (retained : list Digest) (d : ProjectedDevice) : ProjectedDevice :=
  if bool_decide (dv_lifecycle d ≠ DeviceIsRevoked) && negb (sorted_contains (dv_id d) retained)
  then set_device_lifecycle DeviceIsRevoked d else d.

Lemma recovered_view retained (devices : list ProjectedDevice) :
  device_view <$> (recovered_device retained <$> devices) = device_view <$> devices.
Proof.
  rewrite <-list_fmap_compose. apply list_fmap_ext. intros i d _. unfold recovered_device. cbn.
  by destruct (_ && _).
Qed.

Lemma install_Ok s p s' : install_recovery_plan s p = Ok s' →
  ∃ active revoked control recovery,
    projected_controllers (pl_replacement_controllers p) = Ok active ∧
    replacements_fresh s (pl_replacement_controllers p) = Ok () ∧
    insert_all_revoked (p_revoked_controllers s) (removed_by active (p_active_controllers s)) = Ok revoked ∧
    len (active ++ revoked) ≤ MAX_CONTROLLERS ∧
    control_policy_id (pl_replacement_control_policy p) = Ok control ∧
    recovery_policy_id (pl_replacement_recovery_policy p) = Ok recovery ∧
    s' = set_recovery_policy (pl_replacement_recovery_policy p) recovery
           (set_control_policy (pl_replacement_control_policy p) control
              (set_devices (recovered_device (pl_retained_devices p) <$> p_devices s)
                 (set_controllers active revoked s))).
Proof.
  intros H. unfold install_recovery_plan in H. ok_step H. ok_step H. ok_step H. ok_step H. ok_step H.
  ok_step H. ok_step H. ok_step H. ok_steps H. destruct y. apply checked_add_Ok in Hy2 as [-> _].
  pose proof (projected_ids _ _ Hy3) as Hids. rewrite Hy0 in Hids. apply Ok_injective in Hids as ->.
  exists y3, y1, y5, y6. bool_hyps. split_and!; try done.
  apply projected_Ok in Hy3 as [Hds _]. rewrite <-Hds in Hc. unfold len in *. rewrite length_fmap in Hc.
  rewrite length_app. lia.
Qed.

(** Two lists whose elements have different images. *)
Lemma NoDup_fmap_app {A B} (f : A → B) l1 l2 : NoDup (f <$> l1) → NoDup (f <$> l2) →
  (∀ a b, a ∈ l1 → b ∈ l2 → f a ≠ f b) → NoDup (f <$> l1 ++ l2).
Proof.
  intros H1 H2 Hd. rewrite fmap_app. apply NoDup_app. split_and!; [done| |done].
  intros x (a & -> & Ha)%list_elem_of_fmap (b & Heq & Hb)%list_elem_of_fmap. by apply (Hd a b).
Qed.

Lemma install_controllers s p active revoked :
  controllers_ok (p_active_controllers s) (p_revoked_controllers s) → plan_built p →
  projected_controllers (pl_replacement_controllers p) = Ok active →
  replacements_fresh s (pl_replacement_controllers p) = Ok () →
  insert_all_revoked (p_revoked_controllers s) (removed_by active (p_active_controllers s)) = Ok revoked →
  len (active ++ revoked) ≤ MAX_CONTROLLERS →
  controllers_ok active revoked ∧
  revoked ≡ₚ removed_by active (p_active_controllers s) ++ p_revoked_controllers s.
Proof.
  intros [Ha Hr He Hi Hk _ _] Hp Hact Hf Hins Hb.
  apply insert_all_Ok in Hins as [Hperm Hr']; [|done].
  destruct (plan_electorate p active Hp Hact) as ([He' Hi' Hk' _ Hne'] & Ha' & _ & _).
  apply projected_Ok in Hact as [Hds Hids]. rewrite <-Hds in Hf.
  assert (Hsub : removed_by active (p_active_controllers s) ++ p_revoked_controllers s
                 `sublist_of` p_active_controllers s ++ p_revoked_controllers s).
  { apply sublist_app; [apply sublist_filter|done]. }
  assert (Hfresh : ∀ c c', c ∈ active → c' ∈ revoked → pc_id c ≠ pc_id c' ∧ controller_key c ≠ controller_key c').
  { intros c c' Hc Hc'. rewrite Hperm in Hc'. rewrite Forall_forall in Hids.
    destruct (fresh_Ok _ _ _ Hf (pc_descriptor c)) as (id & Hid & Hrev & Hact & _).
    { by apply list_elem_of_fmap_2. }
    rewrite (Hids c Hc) in Hid. apply Ok_injective in Hid as <-.
    apply elem_of_app in Hc' as [[Hin Hn]%removed_elem|Hin].
    - assert (pc_id c' ≠ pc_id c) by (intros Heq; apply Hn; rewrite Heq; by apply list_elem_of_fmap_2).
      split; [done|]. intros Heq. by apply (Hact c').
    - destruct (Hrev c' Hin) as [Hi1 Hk1]. unfold controller_key in *. split; congruence. }
  split; [|done]. split; try done.
  - apply Forall_app. split; [done|]. rewrite Hperm, Forall_forall in *. intros c Hc.
    by apply He, (elem_of_sublist _ _ _ Hc).
  - apply NoDup_fmap_app; [done| |]; [|intros; by apply Hfresh].
    rewrite Hperm. eapply sublist_NoDup; [exact Hi|]. by apply fmap_sublist.
  - apply NoDup_fmap_app; [done| |]; [|intros; by apply Hfresh].
    rewrite Hperm. eapply sublist_NoDup; [exact Hk|]. by apply fmap_sublist.
Qed.

Lemma require_v1_Ok s u : require_v1_recovery_crypto s = Ok u →
  ∃ stable, p_crypto s = Stable stable ∧ sc_migrated_keys stable = [].
Proof.
  unfold require_v1_recovery_crypto. destruct (p_crypto s) as [st|st m b|st m b a]; [|done..].
  intros H. ok_step H. destruct (_ && _) eqn:Hc; [|done]. bool_hyps. by exists st.
Qed.

Lemma install_ok s p s' u : install_recovery_plan s p = Ok s' → plan_built p →
  require_v1_recovery_crypto s = Ok u → p_pending_recovery s' = p_pending_recovery s →
  authority_ok s → authority_ok (set_pending None s').
Proof.
  intros (active & revoked & control & recovery & Hact & Hf & Hins & Hb & Hcid & Hrid & ->)%install_Ok
    Hp (st & Hst & Hmig)%require_v1_Ok _ [Hc [? ? ? ? ?] Hd Hk _].
  destruct (install_controllers s p active revoked) as [Hc' Hperm]; [done..|].
  destruct (plan_electorate p active Hp Hact) as (Hel & Ha & Hsat & Haut). split; cbn; try done.
  - eapply devices_ok_view; [apply recovered_view|]. eapply devices_ok_keys; [|by left|exact Hd].
    intros c. rewrite Hperm, !elem_of_app, removed_elem. intros [Hin|[[? _]|?]]; [right|by auto..].
    intros d Hdin. apply projected_Ok in Hact as [Hds _]. rewrite <-Hds in Hf.
    destruct (fresh_Ok _ _ _ Hf (pc_descriptor c)) as (id & _ & _ & _ & Hdev); [by apply list_elem_of_fmap_2|].
    by apply Hdev.
  - rewrite Hst in *. destruct Hk as [? ? _]. by split.
Qed.

Lemma observation_Ok evidence policy o : observation_from_admission evidence policy = Ok o →
  po_delay_deadline o = po_observed_at o + ry_delay policy ∧
  po_lifetime_deadline o = po_observed_at o + ry_lifetime policy.
Proof.
  unfold observation_from_admission. intros H.
  repeat match type of H with match ?x with _ => _ end = _ => destruct x; try done end.
  ok_steps H. subst o. by apply checked_add_Ok in Hy0 as [-> _], Hy1 as [-> _].
Qed.

Lemma begin_ok s b evidence event_id proposal s' : begin_recovery s b evidence event_id proposal = Ok s' →
  plan_built (rp_plan (br_proposal b)) → authority_ok s → authority_ok s'.
Proof.
  intros H Hplan [Hc [? ? ? ? ?] Hd Hk _]. unfold begin_recovery in H. ok_step H. ok_step H. cbv zeta in H.
  destruct (p_heads s) as [|head heads]; [done|]. repeat ok_step H. apply Ok_injective in H as <-.
  split; cbn; try done. intros pending [= <-]. cbn. bool_hyps.
  apply observation_Ok in Hy0 as [??]. split_and!; try done; by apply dec_stable.
Qed.

(** Ending a recovery, or the phase of an account. *)
Lemma no_pending_ok s l : authority_ok s → authority_ok (set_lifecycle l (set_pending None s)).
Proof. intros [Hc [? ? ? ? ?] Hd Hk _]. by split; cbn. Qed.

Lemma lifecycle_kept s l : authority_ok s → authority_ok (set_lifecycle l s).
Proof. intros [Hc [? ? ? ? ?] Hd Hk Hp]. by split; cbn. Qed.

Lemma veto_Ok s v s' : veto_recovery s v = Ok s' →
  is_Some (p_pending_recovery s) ∧ s' = set_lifecycle LifeActive (set_pending None s).
Proof.
  unfold veto_recovery. destruct (p_pending_recovery s); [|done]. intros H. ok_steps H. by subst.
Qed.

Lemma cancel_Ok s c s' : cancel_recovery s c = Ok s' →
  is_Some (p_pending_recovery s) ∧ s' = set_lifecycle LifeActive (set_pending None s).
Proof.
  unfold cancel_recovery. destruct (p_pending_recovery s); [|done]. intros H. ok_steps H. by subst.
Qed.

(** What a finalized recovery was checked against. *)
Record finalizes (s : Projection) (lineage : list AuthorizedEvent) (f : FinalizeRecovery)
    (outer : option N) (pending : PendingRecovery) (policy : ReplicatedProviderPolicy)
    (minimum time : N) : Prop := {
  fz_v1 : require_v1_recovery_crypto s = Ok ();
  fz_pending : p_pending_recovery s = Some pending;
  fz_intact : begin_evidence_intact lineage pending = Ok ();
  fz_expected : fr_expected_pending_recovery f = pr_recovery_id pending;
  fz_account : an_account_id (fr_delay_anchor f) = p_account_id s;
  fz_quorum : finalize_quorum s = Ok (policy, minimum);
  fz_minimum : minimum ≤ an_required_quorum (fr_delay_anchor f);
  fz_matches : matches_completion_anchor (pr_begin_observation pending) (fr_delay_anchor f) = true;
  fz_time : completion_time s pending (fr_delay_anchor f) policy = Ok time;
  fz_lifetime : match outer with Some outer => outer `max` time | None => time end
                ≤ po_lifetime_deadline (pr_begin_observation pending);
  fz_expiry : match outer with Some outer => outer `max` time | None => time end
              ≤ pl_expires_at (rp_plan (pr_proposal pending));
}.

Lemma finalize_Ok s lineage f outer s' : finalize_recovery s lineage f outer = Ok s' →
  ∃ pending policy minimum time s1, finalizes s lineage f outer pending policy minimum time ∧
    install_recovery_plan s (rp_plan (pr_proposal pending)) = Ok s1 ∧
    s' = set_lifecycle LifeActive (set_pending None s1).
Proof.
  intros H. unfold finalize_recovery in H. ok_step H. destruct y.
  destruct (p_pending_recovery s) as [pending|] eqn:Hp; [|done]. cbv zeta in H.
  repeat (ok_step H || match type of H with context[let '(_, _) := ?y in _] => destruct y as [policy minimum] end).
  apply Ok_injective in H as <-. bool_hyps. destruct y. exists pending, policy, minimum, y0, y1.
  split; [|done]. split; try done; by apply dec_stable.
Qed.

Lemma install_pending s p s' : install_recovery_plan s p = Ok s' → p_pending_recovery s' = p_pending_recovery s.
Proof. by intros (? & ? & ? & ? & _ & _ & _ & _ & _ & _ & ->)%install_Ok. Qed.

Lemma finalize_ok s lineage f outer s' : finalize_recovery s lineage f outer = Ok s' →
  authority_ok s → authority_ok s'.
Proof.
  intros (pending & policy & minimum & time & s1 & Hf & Hi & ->)%finalize_Ok Hs.
  apply lifecycle_kept. eapply install_ok; [exact Hi| |apply Hf|by eapply install_pending|done].
  by destruct (ao_pending s Hs pending (fz_pending _ _ _ _ _ _ _ _ Hf)).
Qed.

(** ** Migration *)

Lemma migration_built_ascending m : migration_built m → ascending digest_le kb_controller_id (mg_bindings m).
Proof.
  intros H. unfold migration_built, migration_from_sorted in H. ok_step H. ok_step H. destruct y.
  by apply (check_ascending_Ok digest_le kb_controller_id) in Hy.
Qed.

Lemma proofs_valid_Ok s previous id message entries : migration_proofs_valid s previous id message entries = Ok () →
  Forall (λ '(c, b, p), migration_proof_valid s previous id message c b p = Ok ()) entries.
Proof.
  induction entries as [|[[c b] p] entries IH]; intros H; [constructor|]. cbn in H. ok_step H. destruct y.
  constructor; [done|by apply IH].
Qed.

(** A binding that was accepted: for its controller, with a key no device has. *)
Lemma proof_valid_binding s previous id message c b p : migration_proof_valid s previous id message c b p = Ok () →
  kb_controller_id b = pc_id c ∧
  ∀ d, d ∈ p_devices s → ak_bytes (kb_new_signing_key b) ∉ device_keys (dv_descriptor d).
Proof.
  intros H. unfold migration_proof_valid in H. cbv zeta in H. ok_step H. ok_step H. clear H.
  unfold migration_key_reuses_retained_material in Hc0. apply orb_false_iff in Hc0 as [_ Hd].
  rewrite existsb_false, Forall_forall in Hd. bool_hyps. split; [by apply dec_stable|].
  intros d Hin Hk. specialize (Hd d Hin). rewrite existsb_false, Forall_forall in Hd.
  specialize (Hd _ Hk). by rewrite bool_decide_eq_false in Hd.
Qed.

Lemma zip_bindings (P : ProjectedController → ControllerKeyBinding → ControllerKeyBindingProof → Prop)
    active bindings proofs :
  length bindings = length active → length proofs = length active →
  Forall (λ '(c, b, p), P c b p) (zip (zip active bindings) proofs) →
  Forall2 (λ c b, ∃ p, p ∈ proofs ∧ P c b p) active bindings.
Proof.
  revert bindings proofs. induction active as [|c active IH]; intros [|b bindings] [|p proofs] Hb Hp H; try done.
  cbn in *. apply Forall_cons in H as [Hc H]. constructor; [exists p; by split; [left|]|].
  eapply Forall2_impl; [apply (IH bindings proofs); [lia..|exact H]|]. intros c' b' (p' & Hin & Hp'). exists p'. by split; [right|].
Qed.

Lemma begin_migration_Ok s b id s' : begin_crypto_migration s b id = Ok s' →
  ∃ previous migration_id message, p_crypto s = Stable previous ∧
    mg_account_id (bm_migration b) = p_account_id s ∧
    crypto_migration_id (bm_migration b) = Ok migration_id ∧
    to_canonical_bytes migration_id = Ok message ∧
    Forall2 (λ c k, ∃ p, p ∈ bm_proofs b ∧ migration_proof_valid s previous migration_id message c k p = Ok ())
      (p_active_controllers s) (mg_bindings (bm_migration b)) ∧
    s' = set_lifecycle LifeMigrationPending (set_crypto (Candidate previous (bm_migration b) id) s).
Proof.
  intros H. unfold begin_crypto_migration in H. destruct (p_crypto s) as [previous|? ? ?|? ? ? ?]; [|done..].
  cbv zeta in H. ok_steps H. destruct y5. bool_hyps. apply dec_stable in Hc.
  exists previous, y, y4. split_and!; try done. apply zip_bindings; [unfold len in *; lia..|].
  by apply proofs_valid_Ok.
Qed.

Lemma begin_migration_ok s b id s' : begin_crypto_migration s b id = Ok s' →
  migration_built (bm_migration b) → authority_ok s → authority_ok s'.
Proof.
  intros (previous & mid & message & Hcr & _ & _ & _ & Hall & ->)%begin_migration_Ok
    Hb%migration_built_ascending [Hc [? ? ? ? ?] Hd Hk Hp].
  assert (Hbind : Forall2 (λ c k, kb_controller_id k = pc_id c ∧
    ∀ d, d ∈ p_devices s → ak_bytes (kb_new_signing_key k) ∉ device_keys (dv_descriptor d))
    (p_active_controllers s) (mg_bindings (bm_migration b))).
  { eapply Forall2_impl; [exact Hall|]. intros c k (p & _ & H). by eapply proof_valid_binding. }
  split; cbn; try done.
  - eapply devices_ok_keys; [by left| |exact Hd]. rewrite Hcr. intros k. cbn.
    rewrite elem_of_app. intros [?|(x & -> & Hx)%list_elem_of_fmap]; [by left|]. right.
    apply list_elem_of_lookup in Hx as [i Hx]. by destruct (Forall2_lookup_r _ _ _ _ _ Hbind Hx) as (c & _ & _ & ?).
  - rewrite Hcr in Hk. split; [done|]. split; [done|]. intros i (c & -> & Hin)%list_elem_of_fmap.
    apply list_elem_of_lookup in Hin as [j Hj].
    destruct (Forall2_lookup_l _ _ _ _ _ Hbind Hj) as (k & Hk' & <- & _).
    apply list_elem_of_fmap_2. by eapply list_elem_of_lookup_2.
Qed.

Lemma activate_Ok s a id s' : activate_crypto_migration s a id = Ok s' →
  ∃ previous migration begin_id, p_crypto s = Candidate previous migration begin_id ∧
    s' = set_lifecycle LifeMigrationDual (set_crypto (Dual previous migration begin_id id) s).
Proof.
  unfold activate_crypto_migration. destruct (p_crypto s) as [?|previous migration b|? ? ? ?]; [done| |done].
  intros H. ok_steps H. subst. by eexists _, _, _.
Qed.

Lemma activate_ok s a id s' : activate_crypto_migration s a id = Ok s' → authority_ok s → authority_ok s'.
Proof.
  intros (previous & migration & b & Hcr & ->)%activate_Ok [Hc [? ? ? ? ?] Hd Hk Hp].
  rewrite Hcr in *. split; cbn; try done. by eapply devices_ok_keys; [left|left|exact Hd].
Qed.

Lemma dedup_elem k keys : k ∈ dedup keys → k ∈ keys.
Proof.
  induction keys as [|a [|b keys] IH]; [done..|]. cbn [dedup]. case_bool_decide; intros Hk.
  - right. by apply IH.
  - apply elem_of_cons in Hk as [->|Hk]; [left|right; by apply IH].
Qed.

Lemma suite_keys_material stable active revoked keys : stable_suite_keys stable active revoked = Ok keys →
  ∀ k, k ∈ keys → ak_bytes k ∈ stable_material stable ∨
    ∃ c, c ∈ active ++ revoked ∧ ak_bytes k = signing_bytes_of (controller_key c).
Proof.
  unfold stable_suite_keys, stable_material. case_bool_decide.
  - intros <-%Ok_injective k (x & -> & Hx)%list_elem_of_fmap. left. apply elem_of_app. left.
    by apply (list_elem_of_fmap_2 (λ k, ak_bytes (mk_key k))).
  - rewrite collect_fmap_Ok. intros Hall k [i Hi]%list_elem_of_lookup. right.
    destruct (Forall2_lookup_r _ _ _ _ _ Hall Hi) as (c & Hc & [_ ?]%algorithm_key_new_Ok).
    exists c. split; [by eapply list_elem_of_lookup_2|done].
Qed.

Lemma retired_previous_ok s previous migration epoch stable :
  retired_previous s previous migration epoch = Ok stable → p_active_controllers s ≠ [] →
  migration_ok (p_active_controllers s) migration →
  stable_ok (p_active_controllers s) stable ∧
  ∀ k, k ∈ stable_material stable → k ∈ stable_material previous ++
      ((λ b, ak_bytes (kb_new_signing_key b)) <$> mg_bindings migration) ∨
    ∃ c, c ∈ p_active_controllers s ++ p_revoked_controllers s ∧ k = signing_bytes_of (controller_key c).
Proof.
  intros H Hne [Ha Hsub]. unfold retired_previous in H. ok_steps H. subst stable.
  assert (Hids : mk_controller_id <$> ((λ b, mkMigrationKey (kb_controller_id b) (kb_new_signing_key b))
    <$> mg_bindings migration) = kb_controller_id <$> mg_bindings migration).
  { rewrite <-list_fmap_compose. done. }
  split.
  - split; cbn [sc_migrated_keys].
    + apply (ascending_keys digest_le mk_controller_id). rewrite Hids. by apply (ascending_keys digest_le kb_controller_id).
    + intros Hnil. apply fmap_nil_inv in Hnil. rewrite Hnil in Hsub. destruct (p_active_controllers s) as [|c l]; [done|].
      exfalso. apply (not_elem_of_nil (pc_id c)), Hsub. left.
    + by rewrite Hids.
  - intros k. unfold stable_material. cbn. rewrite !elem_of_app, <-list_fmap_compose.
    intros [Hk|(x & -> & Hx%dedup_elem)%list_elem_of_fmap]; [by auto|].
    rewrite sort_by_Permutation, elem_of_app in Hx. destruct Hx as [Hx|Hx].
    + left. left. right. by apply list_elem_of_fmap_2.
    + destruct (suite_keys_material _ _ _ _ Hy0 x Hx) as [Hm|?]; [|by right].
      left. left. by apply elem_of_app in Hm.
Qed.

(** What retiring a suite does: a candidate is dropped, or the previous suite is. *)
Definition aborted (s s' : Projection) : Prop :=
  ∃ previous migration begin_id, p_crypto s = Candidate previous migration begin_id ∧
    s' = set_lifecycle LifeActive (set_crypto (Stable previous) s).

Definition replaced (s s' : Projection) : Prop :=
  ∃ previous migration begin_id activation_id epoch stable,
    p_crypto s = Dual previous migration begin_id activation_id ∧
    retired_previous s previous migration epoch = Ok stable ∧
    (s' = set_lifecycle LifeActive (set_crypto (Stable stable) s) ∨
     ∃ r, s' = set_lifecycle LifeRetired (set_retirement (Some r) (set_crypto (Stable stable) s))).

Lemma retire_Ok s r epoch s' : retire_crypto_suite s r epoch = Ok s' → aborted s s' ∨ replaced s s'.
Proof.
  unfold retire_crypto_suite.
  destruct (p_crypto s) as [?|previous migration b|previous migration b a] eqn:Hcr, (rs_mode r); try done; intros H.
  - left. ok_steps H. subst. by eexists _, _, _.
  - right. ok_steps H. exists previous, migration, b, a, epoch, y0. split_and!; [done..|].
    destruct (rs_successor_account_id r) as [successor|]; subst; [right|left]; [by eexists|done].
Qed.

Lemma crypto_replaced_ok s crypto :
  (∀ k, k ∈ crypto_material crypto → k ∈ crypto_material (p_crypto s) ∨
    ∃ c, c ∈ p_active_controllers s ++ p_revoked_controllers s ∧ k = signing_bytes_of (controller_key c)) →
  crypto_ok (p_active_controllers s) crypto → authority_ok s → authority_ok (set_crypto crypto s).
Proof.
  intros Hm Hcr [Hc [? ? ? ? ?] Hd _ Hp]. split; cbn; try done.
  eapply devices_ok_keys; [by left| |exact Hd]. intros k [?|(c & Hin & ->)]%Hm; [by left|]. right.
  intros d Hdin. by apply (do_controllers _ _ _ Hd).
Qed.

Lemma retirement_kept s r : authority_ok s → authority_ok (set_retirement r s).
Proof. intros [Hc [? ? ? ? ?] Hd Hk Hp]. by split; cbn. Qed.

Lemma retire_ok s r epoch s' : retire_crypto_suite s r epoch = Ok s' → authority_ok s → authority_ok s'.
Proof.
  intros [(previous & migration & b & Hcr & ->)|(previous & migration & b & a & e & stable & Hcr & Hr & Hs')]%retire_Ok Hs.
  - apply lifecycle_kept, crypto_replaced_ok; [| |done].
    + intros k Hk. left. rewrite Hcr. cbn. apply elem_of_app. by left.
    + pose proof (ao_crypto s Hs) as Hk. rewrite Hcr in Hk. apply Hk.
  - pose proof (ao_crypto s Hs) as Hk. rewrite Hcr in Hk. destruct Hk as [_ Hm].
    apply retired_previous_ok in Hr as [Hst Hmat]; [|apply (ao_controllers s Hs)|done].
    assert (H : authority_ok (set_crypto (Stable stable) s)).
    { apply crypto_replaced_ok; [|done..]. by rewrite Hcr. }
    destruct Hs' as [->|[r' ->]]; apply lifecycle_kept; [done|by apply retirement_kept].
Qed.

End Phases.
