(* ===== verification/IdAccountExample.v ===== *)
(** * The history of an example account

    An account of two controllers authorizes a device, revokes it, and is recovered to
    another controller.  The states are those that the definitions compute. *)
From stdpp Require Import base tactics list gmap countable orders sorting strings.
From Stdlib Require Import ZArith Lia Strings.Byte.
From S2P Require Import Prelude Bytes IdTypes SortedVec Merkle MerkleSets MerkleProps ExampleWire IdKeys IdFacts IdPolicy IdPolicyProps IdProviders IdApprovals IdGuardians IdGuardiansProps IdCapability IdCapabilityProps IdDevices IdEvidence IdRecovery IdMigration IdEvents IdAccount IdAccountOps IdVerifier IdAccountFacts.

Local Open Scope N_scope.

Module AccountExample.
Import ExampleWire ProviderExample.

(** Encodings by a part of the value that tells the values of the example apart. *)
Definition by_part {A} (f : A → list byte) : WireFormat A :=
  {| to_stdvec a := Some (f a); take_from_bytes _ := None |}.
Definition number (n : N) : list byte := put_nat (N.to_nat n).

#[export] Instance account_wire : AccountWire := {
  wire_keys := PolicyExample.key_wire;
  wire_policies := {|
    wire_control_policy := by_part (λ w, number (len w.1.1.2));
    wire_provider_policy := by_part (λ p, number (pp_policy_version p));
    wire_recovery_policy := by_part (λ p, number (ry_policy_version p)) |};
  wire_providers := provider_wire;
  wire_guardians := GuardianExample.guardian_wire;
  wire_capabilities := CapabilityExample.capability_wire;
  wire_migrations := {|
    wire_suite := by_part (λ s, number (su_suite_code s));
    wire_migration := by_part (λ m, mg_nonce m) |};
  wire_recoveries := {|
    wire_proposal := by_part (λ p, pl_nonce (rp_plan p));
    wire_fork := by_part (λ f, put_bytes (concat (digest_bytes <$> f.2))) |};
  wire_events := {|
    wire_event_body := by_part (λ b, eb_nonce b);
    wire_admitted_event := by_part (λ p, eb_nonce p.1);
    wire_admission := by_part (λ a, digest_bytes (ae_preceding_checkpoint a));
    wire_event := by_part (λ e, eb_nonce (ev_body e));
    wire_genesis := by_part (λ g, gn_account_nonce g) |};
  wire_merkle_node := _;
  wire_merkle_leaf := _;
  wire_identifier := _;
  wire_approval_body := by_part (λ b, digest_bytes (ab_controller_id b));
  wire_intent_body := by_part (λ b, digest_bytes (ib_controller_id b));
}.

(** ** Genesis *)

Definition key (b : byte) : list byte := replicate 32 b.
Definition controller (b : byte) (weight : N) : ControllerDescriptor :=
  mkController (mkSigningKey (key b)) PersonalDevice weight AllV1Operations [].
Definition alice : ControllerDescriptor := controller x11 1.
Definition bob : ControllerDescriptor := controller x12 2.
Definition carol : ControllerDescriptor := controller x13 3.

Definition rule (operation : OperationKind) (weight : N) : PolicyRule :=
  mkRule operation weight AnyActive LatestKnown None [].
Definition control : ControlPolicy :=
  mkControlPolicy [rule OpAuthorizeDevice 1; rule OpRevokeDevice 2; rule OpBeginRecovery 1;
                   rule OpFinalizeRecovery 1; rule OpResolveFork 2] true [].
Definition recovery : RecoveryPolicy :=
  mkRecoveryPolicy 0 (RecoverByControllers (mkControllerThreshold AnyActive 1)) 10 100 [].
Definition providers : ProviderPolicy :=
  mkProviderPolicy 0 (Replicated (mkReplicated [provider] 1 1 50)) [].

Definition genesis : AccountGenesis :=
  mkGenesis [x01] 1 control [alice; bob] recovery providers [].
Definition account : Digest := ok (dig x00) (account_id genesis).
Definition nothing : Projection :=
  mkProjection (dig x00) (dig x00) 0 0 0 [] [] [] [] control (dig x00) recovery (dig x00) providers
    (dig x00) None (Stable (mkStable (mkSuite 0 0 0 0 0 0 []) [] [] [])) None None LifeForked.
Definition s0 : Projection := ok nothing (from_genesis genesis).

(** ** Events *)

Definition id_of (c : ControllerDescriptor) : Digest := ok (dig x00) (controller_id c).
Definition suite : Digest := ok (dig x00) (v1 ← suite_v1; crypto_suite_id v1).

Definition signature (b : byte) (message : list byte) : KeyedSignature :=
  mkKeyed suite (ok (dig x00) (key_id_for_signing_key (mkSigningKey (key b))))
    (mkAlgorithmSignature 1 (sign (key b) message)).

Definition approve (c : ControllerDescriptor) (b : byte) (body : EventBody) (evidence : AdmissionEvidence)
    : SignedControllerApproval :=
  let approval := mkApprovalBody (id_of c)
    (ApproveEvent (ok (dig x00) (event_id_for_body evidence body))
       (ok (dig x00) (admission_evidence_id evidence))) [] in
  mkApproval approval [signature b (ok [] (to_canonical_bytes approval))].

Definition body_at (s : Projection) (nonce : byte) (operation : AccountOperation) : EventBody :=
  let predecessors := if p_sequence s =? 0 then PredGenesis (p_genesis_anchor s) else PredEvents (p_heads s) in
  mkEventBody account (p_sequence s + 1) (ok 0 (expected_epoch s operation)) predecessors operation 5 [nonce] [].

Definition admitted (s : Projection) (body : EventBody) (delay : DelayEvidence) : AdmissionEvidence :=
  mkAdmission (ok (dig x00) (proposal_id body)) (dig x71) (p_provider_policy_id s) (FreshLocalKnown (dig x71))
    delay [].

(** An event that bob approves. *)
Definition event_at (s : Projection) (nonce : byte) (operation : AccountOperation) : AuthorizedEvent :=
  let body := body_at s nonce operation in
  let evidence := admitted s body NoDelay in
  mkEvent body evidence [approve bob x12 body evidence].

Definition id_of_event (e : AuthorizedEvent) : Digest := ok (dig x00) (event_id e).
Definition after (s : Projection) (e : AuthorizedEvent) : Projection * list ProjectionEffect :=
  ok (nothing, []) (apply_new_linear s [] e (id_of_event e)).

Definition phone : DeviceDescriptor :=
  mkDevice (mkSigningKey (key x31)) (mkAgreementKey (key x32)) (mkSigningKey (key x33)) [].
Definition phone_id : Digest := ok (dig x00) (device_id phone).

Definition e1 : AuthorizedEvent := event_at s0 x01
  (AuthorizeDevice (mkDeviceAuthorization phone_id phone GeneralPurpose None [] 1 [])).
Definition s1 : Projection := (after s0 e1).1.

Definition e2 : AuthorizedEvent := event_at s1 x02 (RevokeDeviceOp (mkRevokeDevice phone_id None [])).
Definition s2 : Projection := (after s1 e2).1.

(** ** Recovery *)

Definition plan : RecoveryAuthorityPlan :=
  mkPlan account (dig x71) (id_of_event e2) (p_recovery_policy_id s2) 0 [x07] [carol] control recovery [] 90 [].
Definition proposal : RecoveryProposal := mkProposal plan [].
Definition begin : BeginRecovery :=
  mkBegin (ok (dig x00) (recovery_id proposal)) proposal
    (mkThresholdEvidence (p_recovery_policy_id s2) 0 None) [].

(** The receipt of the provider: the intent observed at 20, the head at [time]. *)
Definition receipt_of (body : EventBody) (time : N) : InclusionReceipt :=
  let entry := mkLogEntry id_of_provider (dig x02) account
    (SubjectEventIntent (ok (dig x00) (proposal_id body))) 20 [] in
  let log := mkLog [ok (dig x00) (merkle_leaf_hash entry)] in
  mkReceipt entry 0 [] (head log time).

Definition intent (body : EventBody) : SignedEventIntentApproval :=
  let approval := mkIntentBody (id_of bob) (ok (dig x00) (proposal_id body)) [] in
  mkIntentApproval approval [signature x12 (ok [] (to_canonical_bytes approval))].

Definition e3 : AuthorizedEvent :=
  let body := body_at s2 x03 (BeginRecoveryOp begin) in
  let evidence := admitted s2 body
    (DelayProviderQuorum (p_provider_policy_id s2) 1 20 [intent body] [receipt_of body 21]) in
  mkEvent body evidence [approve bob x12 body evidence].
Definition s3 : Projection := (after s2 e3).1.

Definition anchor : RecoveryDelayAnchor :=
  mkAnchor account (br_recovery_id begin) (ok (dig x00) (proposal_id (ev_body e3)))
    (p_provider_policy_id s3) 1 20 [receipt_of (ev_body e3) 40] [].
Definition finalize : FinalizeRecovery := mkFinalize (br_recovery_id begin) anchor 40 [].

Definition e4 : AuthorizedEvent :=
  let body := body_at s3 x04 (FinalizeRecoveryOp finalize) in
  mkEvent body (admitted s3 body NoDelay) [].
Definition s4 : Projection := (after s3 e4).1.

End AccountExample.
