(* ===== verification/IdAccountHistory.v ===== *)
(** * Accounts: what every history of events keeps

    The invariant holds in every state an account reaches from its genesis, revoked
    controllers and devices never come back, and no controller is locked out. *)
From stdpp Require Import base tactics list gmap countable orders sorting strings.
From Stdlib Require Import ZArith Lia Strings.Byte.
From S2P Require Import Prelude Bytes IdTypes ExampleWire MerkleProps SortedVec IdKeys IdPolicy IdPolicyProps IdProviders IdFacts IdApprovals IdGuardians IdCapability IdDevices IdEvidence IdMigration IdRecovery IdEvents IdAccount IdAccountOps IdVerifier IdAccountFacts IdAccountSteps IdAccountPhases IdAccountExample.

Local Open Scope N_scope.

Section Props.
  Context `{HB : Blake3Hash} `{HC : Curve} `{HAW : !AccountWire}.

#[local] Arguments controller_id : simpl never.
#[local] Arguments device_id : simpl never.
#[local] Arguments suite_v1 : simpl never.

(** A genesis as its constructor makes it. *)
Definition genesis_built (g : AccountGenesis) : Prop :=
  genesis_from_sorted (gn_account_nonce g) (gn_created_at g) (gn_initial_policy g)
    (gn_initial_controllers g) (gn_initial_recovery_policy g) (gn_initial_provider_policy g)
    (gn_extensions g) = Ok g
  ∧ Forall (λ c, cd_weight c ≤ u32_max) (gn_initial_controllers g).

(** One event of an account, and the states its history goes through. *)
Definition applies (s s' : Projection) : Prop :=
  ∃ lineage event id effects, event_built event ∧ operation_built (eb_operation (ev_body event)) ∧
    apply_new_linear s lineage event id = Ok (s', effects).

Inductive reachable (g : AccountGenesis) : Projection → Prop :=
| reach_genesis s : from_genesis g = Ok s → reachable g s
| reach_event s s' : reachable g s → applies s s' → reachable g s'.

(** ** Genesis *)

Lemma initial_ascending_Ok active :
  Forall (λ c, controller_id (pc_descriptor c) = Ok (pc_id c)) active →
  initial_ascending (pc_descriptor <$> active) = Ok () → ascending digest_le pc_id active.
Proof.
  intros Hids H. apply (check_ascending_Ok digest_le pc_id "").
  induction Hids as [|a [|b active] Ha Hids IH]; [done..|].
  apply Forall_cons in Hids as [Hb _].
  change (initial_ascending (pc_descriptor <$> a :: b :: active)) with
    (l ← controller_id (pc_descriptor a); r ← controller_id (pc_descriptor b);
     match order digest_le l r with
     | Eq => Err (DuplicateElement "initial controller identifiers")
     | Gt => Err NonCanonical
     | Lt => initial_ascending (pc_descriptor <$> b :: active)
     end) in H.
  rewrite Ha, Hb in H. cbn [mbind result_bind] in H. cbn [check_ascending].
  destruct (order _ _ _); try done. exact (IH H).
Qed.

Lemma genesis_controllers g active : genesis_built g →
  projected_controllers (gn_initial_controllers g) = Ok active →
  controllers_ok active [] ∧
  validate_satisfiable (gn_initial_policy g) (pc_descriptor <$> active) = Ok () ∧
  validate_controller_authority (gn_initial_recovery_policy g) (pc_descriptor <$> active) = Ok ().
Proof.
  intros [H Hw] [Hds Hids]%projected_Ok. rewrite <-Hds in *. unfold genesis_from_sorted in H.
  repeat ok_step H. clear H. apply bounded_Ok in Hy as [-> Hb]. destruct y0, y1, y2. bool_hyps.
  apply initial_ascending_Ok in Hy0; [|done]. split; [|done].
  split; rewrite ?app_nil_r; try done.
  - constructor.
  - rewrite Forall_fmap in Hw. rewrite Forall_forall in *. intros c Hin. split; [by apply Hids|by apply Hw].
  - by apply (ascending_NoDup digest_le pc_id).
  - apply any_pair_false in Hc1. rewrite (list_fmap_compose pc_descriptor cd_signing_key). apply sorted_NoDup.
    eapply StronglySorted_impl; [|exact Hc1]. intros x z. by rewrite bool_decide_eq_false.
  - unfold len in *. by rewrite length_fmap in Hb.
  - intros ->. by apply Hc0.
Qed.

Lemma genesis_ok g s : genesis_built g → from_genesis g = Ok s → account_ok s.
Proof.
  intros Hg H. unfold from_genesis in H. ok_steps H. subst s.
  destruct (genesis_controllers g y Hg Hy) as (Hc & Hsat & Haut).
  split; [|done|done]. split; cbn; try done.
  - split; cbn; [constructor|unfold len, MAX_DEVICES; cbn; lia|..]; by intros ? **; exfalso; eapply not_elem_of_nil.
  - split; cbn; try done. constructor.
Qed.

(** ** Steps *)

Lemma change_control_ok s p s' : change_control_policy s p = Ok s' → authority_ok s → authority_ok s'.
Proof.
  intros H [Hc [? ? ? ? ?] Hd Hk Hp]. unfold change_control_policy in H. ok_steps H. subst s'. destruct y.
  by split; cbn.
Qed.

Lemma change_provider_ok s p s' : change_provider_policy s p = Ok s' → authority_ok s → authority_ok s'.
Proof.
  intros H [Hc [? ? ? ? ?] Hd Hk Hp]. unfold change_provider_policy in H. ok_steps H. subst s'.
  by split; cbn.
Qed.

Lemma change_recovery_ok s p s' : change_recovery_policy s p = Ok s' → p_pending_recovery s = None →
  authority_ok s → authority_ok s'.
Proof.
  intros H Hnone [Hc [? ? ? ? ?] Hd Hk Hp]. unfold change_recovery_policy in H. ok_steps H. subst s'. destruct y0.
  split; cbn; try done. intros pending. cbn. by rewrite Hnone.
Qed.

Lemma upgrade_kept s m u : authority_ok s → authority_ok (set_upgrade m u s).
Proof. intros [Hc [? ? ? ? ?] Hd Hk Hp]. by split; cbn. Qed.

Lemma position_kept s n e h : authority_ok s → authority_ok (set_position n e h s).
Proof. intros [Hc [? ? ? ? ?] Hd Hk Hp]. by split; cbn. Qed.

(** Operations that leave the phase of the account. *)
Definition same_phase (s s' : Projection) : Prop :=
  p_lifecycle s' = p_lifecycle s ∧ p_pending_recovery s' = p_pending_recovery s ∧
  p_upgrade s' = p_upgrade s ∧ p_retirement s' = p_retirement s ∧
  (is_stable (p_crypto s) → is_stable (p_crypto s')) ∧
  p_account_id s' = p_account_id s ∧ p_genesis_anchor s' = p_genesis_anchor s.

Lemma same_devices_phase s s' : same_devices s s' → same_phase s s'.
Proof. by intros (devices & -> & _). Qed.

Lemma authorize_phase s a e s' : authorize_device s a e = Ok s' → same_phase s s'.
Proof. by intros (i & _ & _ & _ & _ & ->)%authorize_Ok. Qed.

Lemma same_phase_trans s1 s2 s3 : same_phase s1 s2 → same_phase s2 s3 → same_phase s1 s3.
Proof.
  unfold same_phase. intros (-> & -> & -> & -> & H1 & -> & ->) (-> & -> & -> & -> & H2 & -> & ->).
  split_and!; auto.
Qed.

Lemma add_phase s d s' : add_controller s d = Ok s' → same_phase s s'.
Proof.
  intros (id & i & key & _ & _ & _ & _ & _ & _ & H)%add_Ok. unfold enroll_key in H. cbn in H.
  destruct key as [key|]; [|by apply Ok_injective in H as <-].
  destruct (p_crypto s) as [st|? ? ?|? ? ? ?]; [|done..].
  destruct (search _ _ _ _); [done|]. by apply Ok_injective in H as <-.
Qed.

Lemma remove_phase s id s' : remove_controller s id = Ok s' → same_phase s s'.
Proof.
  intros H. unfold remove_controller in H. ok_step H. destruct (search _ _ _ _); [|done].
  destruct (_ !! _); [|done]. cbv zeta in H. ok_steps H. by subst.
Qed.

Lemma active_phase s s' : p_lifecycle s = LifeActive → same_phase s s' → lifecycle_ok s → lifecycle_ok s'.
Proof.
  unfold lifecycle_ok. intros Ha (-> & -> & -> & -> & Hs & _). rewrite Ha. naive_solver.
Qed.

(** Each phase, by what the gate lets through and what is under way in it. *)
Ltac settle s Hg Hl :=
  unfold lifecycle_ok; cbn in *; destruct (p_lifecycle s); try done;
  destruct Hl as (? & ? & ? & ?); split_and!; done.

(** The lifecycle after each operation that changes it, for one the gate lets through. *)
Lemma phase_change_ok s lineage e id t s' :
  validate_lifecycle_gate s (eb_operation (ev_body e)) = Ok () → lifecycle_ok s →
  apply_operation s lineage e id t = Ok s' →
  match eb_operation (ev_body e) with
  | BeginRecoveryOp _ | VetoRecoveryOp _ | CancelRecoveryOp _ | FinalizeRecoveryOp _
  | BeginCryptoMigrationOp _ | ActivateCryptoMigrationOp _ | RetireCryptoSuiteOp _
  | UpgradeProtocol _ | RetireAccountOp _ => lifecycle_ok s'
  | _ => True
  end.
Proof.
  unfold lifecycle_ok at 1, apply_operation, validate_lifecycle_gate. intros Hg Hl H.
  destruct (eb_operation (ev_body e)); try done; cbn in *.
  - ok_step H. unfold begin_recovery in H. ok_step H. ok_step H. cbv zeta in H.
    destruct (p_heads s); [done|]. ok_steps H. subst s'. apply require_v1_Ok in Hy0 as (st & Hst & _).
    settle s Hg Hl.
  - apply veto_Ok in H as [Hp ->]. settle s Hg Hl.
  - apply cancel_Ok in H as [Hp ->]. settle s Hg Hl.
  - apply finalize_Ok in H as (pd & policy & minimum & time & s1 & _ & Hi & ->).
    apply install_Ok in Hi as (? & ? & ? & ? & _ & _ & _ & _ & _ & _ & ->).
    settle s Hg Hl.
  - apply begin_migration_Ok in H as (previous & ? & ? & Hcr & _ & _ & _ & _ & ->).
    rewrite Hcr in Hl. settle s Hg Hl.
  - apply activate_Ok in H as (previous & migration & b & Hcr & ->).
    rewrite Hcr in Hl. settle s Hg Hl.
  - apply retire_Ok in H as [(? & ? & ? & Hcr & ->)|(? & ? & ? & ? & ? & ? & Hcr & _ & [->|[r ->]])];
      rewrite Hcr in Hl; settle s Hg Hl.
  - ok_steps H. subst s'. settle s Hg Hl.
  - ok_steps H. subst s'. settle s Hg Hl.
Qed.

(** Operations on devices, controllers and policies. *)
Definition ordinary (operation : AccountOperation) : bool :=
  match operation with
  | BeginRecoveryOp _ | VetoRecoveryOp _ | CancelRecoveryOp _ | FinalizeRecoveryOp _
  | BeginCryptoMigrationOp _ | ActivateCryptoMigrationOp _ | RetireCryptoSuiteOp _
  | UpgradeProtocol _ | RetireAccountOp _ | ResolveForkOp _ => false
  | _ => true
  end.

Lemma ordinary_active s operation : ordinary operation = true →
  validate_lifecycle_gate s operation = Ok () → p_lifecycle s = LifeActive.
Proof. unfold validate_lifecycle_gate. by destruct (p_lifecycle s), operation. Qed.

Lemma ordinary_phase s lineage e id t s' : ordinary (eb_operation (ev_body e)) = true →
  apply_operation s lineage e id t = Ok s' → same_phase s s'.
Proof.
  unfold apply_operation. intros Ho H. destruct (eb_operation (ev_body e)); try discriminate Ho.
  - by eapply authorize_phase.
  - apply same_devices_phase, device_ops_same. eauto 7.
  - apply same_devices_phase, device_ops_same. eauto 7.
  - apply same_devices_phase, device_ops_same. eauto 7.
  - apply same_devices_phase, device_ops_same. eauto 7.
  - by eapply same_devices_phase, revoke_same.
  - unfold rotate_device_keys in H. ok_step H. eapply same_phase_trans; [|by eapply authorize_phase].
    by eapply same_devices_phase, revoke_same.
  - by eapply add_phase.
  - by eapply remove_phase.
  - unfold change_control_policy in H. ok_steps H. by subst.
  - unfold change_recovery_policy in H. ok_steps H. by subst.
  - unfold change_provider_policy in H. ok_steps H. by subst.
Qed.

Lemma operation_lifecycle s lineage e id t s' :
  validate_lifecycle_gate s (eb_operation (ev_body e)) = Ok () →
  apply_operation s lineage e id t = Ok s' → lifecycle_ok s → lifecycle_ok s'.
Proof.
  intros Hg H Hl. destruct (ordinary (eb_operation (ev_body e))) eqn:Ho.
  - eapply active_phase; [by eapply ordinary_active|by eapply ordinary_phase|done].
  - pose proof (phase_change_ok s lineage e id t s' Hg Hl H) as Hp. revert Ho Hp. unfold apply_operation in H.
    by destruct (eb_operation (ev_body e)).
Qed.

Lemma operation_authority s lineage e id t s' :
  validate_lifecycle_gate s (eb_operation (ev_body e)) = Ok () → lifecycle_ok s →
  operation_built (eb_operation (ev_body e)) →
  apply_operation s lineage e id t = Ok s' → authority_ok s → authority_ok s'.
Proof.
  unfold apply_operation. intros Hg Hl Hb H Hs. destruct (eb_operation (ev_body e)) eqn:Hop; cbn in Hb.
  - by eapply authorize_ok.
  - eapply same_devices_ok; [apply device_ops_same; eauto 7|done].
  - eapply same_devices_ok; [apply device_ops_same; eauto 7|done].
  - eapply same_devices_ok; [apply device_ops_same; eauto 7|done].
  - eapply same_devices_ok; [apply device_ops_same; eauto 7|done].
  - eapply same_devices_ok; [by eapply revoke_same|done].
  - unfold rotate_device_keys in H. ok_step H. eapply authorize_ok; [done..|].
    eapply same_devices_ok; [by eapply revoke_same|done].
  - by eapply add_ok.
  - by eapply remove_ok.
  - by eapply change_control_ok.
  - eapply change_recovery_ok; [done| |done]. apply ordinary_active in Hg; [|done].
    unfold lifecycle_ok in Hl. rewrite Hg in Hl. apply Hl.
  - by eapply change_provider_ok.
  - ok_step H. by eapply begin_ok.
  - apply veto_Ok in H as [_ ->]. by apply no_pending_ok.
  - apply cancel_Ok in H as [_ ->]. by apply no_pending_ok.
  - by eapply finalize_ok.
  - done.
  - by eapply begin_migration_ok.
  - by eapply activate_ok.
  - by eapply retire_ok.
  - ok_steps H. subst s'. by apply lifecycle_kept, upgrade_kept.
  - ok_steps H. subst s'. by apply lifecycle_kept, retirement_kept.
Qed.

(** What an accepted event was checked for, and the state after it. *)
Record accepted (s : Projection) (lineage : list AuthorizedEvent) (e : AuthorizedEvent) (id : Digest)
    (s' : Projection) (time : option N) (applied : Projection) : Prop := {
  ad_gate : validate_lifecycle_gate s (eb_operation (ev_body e)) = Ok ();
  ad_epoch : expected_epoch s (eb_operation (ev_body e)) = Ok (eb_resulting_epoch (ev_body e));
  ad_account : eb_account_id (ev_body e) = p_account_id s;
  ad_sequence : eb_sequence (ev_body e) = p_sequence s + 1;
  ad_predecessors : validate_body_predecessors s (ev_body e) = Ok ();
  ad_valid : validate_event s s e (eb_resulting_epoch (ev_body e)) = Ok time;
  ad_applied : apply_operation s lineage e id time = Ok applied;
  ad_after : s' = set_position (eb_sequence (ev_body e)) (eb_resulting_epoch (ev_body e)) [id] applied;
}.

Lemma position_Ok s body : validate_position s body = Ok () →
  eb_account_id body = p_account_id s ∧ eb_sequence body = p_sequence s + 1 ∧
  validate_body_predecessors s body = Ok ().
Proof.
  intros H. unfold validate_position in H. ok_step H. ok_step H. ok_step H.
  apply checked_add_Ok in Hy as [-> _]. bool_hyps. split_and!; [by apply dec_stable|done..].
Qed.

Lemma linear_Ok s lineage e id s' effects : apply_new_linear s lineage e id = Ok (s', effects) →
  ∃ time applied, accepted s lineage e id s' time applied ∧
    effects = transition_effects id (eb_resulting_epoch (ev_body e))
                (operation_changes_epoch (eb_operation (ev_body e))).
Proof.
  intros H. unfold apply_new_linear in H. cbv zeta in H. repeat ok_step H. destruct y.
  injection H as <- <-. pose proof Hy1 as Hv. unfold validate_event in Hv. cbv zeta in Hv.
  ok_step Hv. ok_step Hv. destruct y. apply position_Ok in Hy3 as (? & ? & ?). bool_hyps. subst y0.
  exists y1, y2. by split.
Qed.

Lemma step_ok s s' : applies s s' → account_ok s → account_ok s'.
Proof.
  intros (lineage & e & id & effects & _ & Hb & (time & applied & Ha & _)%linear_Ok) [Hs Hl _].
  destruct Ha as [Hg _ _ Hseq _ _ Happ ->]. split; cbn.
  - apply position_kept. by eapply operation_authority.
  - by eapply (operation_lifecycle s lineage e id time applied).
  - rewrite Hseq, (proj2 (N.eqb_neq _ _)) by lia. done.
Qed.

Lemma reachable_ok g s : genesis_built g → reachable g s → account_ok s.
Proof.
  intros Hg. induction 1 as [s Hs|s s' _ IH Hs]; [by eapply genesis_ok|by eapply step_ok].
Qed.

(** The state of an account satisfies its invariant at every point of its history.
    The controllers are at least one and at most [MAX_CONTROLLERS] with the revoked
    ones, no two of them share an identifier or a key; the control policy and the
    recovery policy can be satisfied by the active controllers; devices share no key
    with each other, with a controller or with the retained key material; the phase of
    a migration and the pending recovery agree with the lifecycle. *)
Theorem account_invariant : ∀ g s, genesis_built g → reachable g s → account_ok s.
Proof.
  exact reachable_ok.
Qed.

End Props.

(** ** The example account *)

Import ExampleWire ProviderExample AccountExample.

Lemma example_built : genesis_built genesis.
Proof. split; [evaluate|]. repeat constructor; evaluate. Qed.

Lemma example_step s e s' effects : event_built e → operation_built (eb_operation (ev_body e)) →
  apply_new_linear s [] e (id_of_event e) = Ok (s', effects) → applies s s'.
Proof. intros He Ho H. by exists [], e, (id_of_event e), effects. Qed.

Lemma example_first : reachable genesis s0 ∧ applies s0 s1.
Proof.
  split; [constructor; evaluate|]. apply (example_step s0 e1 s1 (after s0 e1).2); [split; evaluate| |evaluate].
  exists [], true. evaluate.
Qed.

Lemma example_second : applies s1 s2.
Proof. apply (example_step s1 e2 s2 (after s1 e2).2); [split; evaluate|done|evaluate]. Qed.

Lemma example_third : applies s2 s3.
Proof.
  apply (example_step s2 e3 s3 (after s2 e3).2); [split; evaluate| |evaluate].
  split; [evaluate|]. repeat constructor; evaluate.
Qed.

Lemma example_reachable : reachable genesis s2 ∧ reachable genesis s3.
Proof.
  destruct example_first as [H0 H1]. pose proof example_second as H2.
  assert (reachable genesis s2) by (eapply reach_event; [by eapply reach_event|done]).
  split; [done|]. eapply reach_event; [done|apply example_third].
Qed.

Lemma account_invariant_witness : account_ok s3 ∧ p_lifecycle s3 = LifeRecoveryPending.
Proof.
  split; [|evaluate]. apply (account_invariant genesis); [apply example_built|apply example_reachable].
Defined.

(** * Accounts: what their history never undoes

    Revocations are permanent, the position of an account only moves forward, and in
    every phase of a migration every active controller has keys to sign with. *)

Section History.
  Context `{HB : Blake3Hash} `{HC : Curve} `{HAW : !AccountWire}.

#[local] Arguments controller_id : simpl never.
#[local] Arguments device_id : simpl never.
#[local] Arguments suite_v1 : simpl never.
#[local] Arguments crypto_suite_id : simpl never.
#[local] Arguments key_id_for_signing_key : simpl never.
#[local] Arguments key_id_for_algorithm_key : simpl never.

(** ** Revocations *)

(** What a later state still has of an earlier one. *)
Record keeps (s s' : Projection) : Prop := {
  kp_controllers : p_revoked_controllers s ⊆ p_revoked_controllers s';
  kp_devices : ∀ d, d ∈ p_devices s → ∃ d', d' ∈ p_devices s' ∧ device_view d' = device_view d ∧
    (dv_lifecycle d = DeviceIsRevoked → dv_lifecycle d' = DeviceIsRevoked);
}.

#[export] Instance keeps_preorder : PreOrder keeps.
Proof.
  split.
  - intros s. split; [done|]. intros d Hd. by exists d.
  - intros s1 s2 s3 [Hc1 Hd1] [Hc2 Hd2]. split; [by etrans|]. intros d (d' & Hd' & Hv' & Hr')%Hd1.
    apply Hd2 in Hd' as (d'' & Hd'' & Hv'' & Hr''). exists d''. split_and!; [done|congruence|auto].
Qed.

Lemma keeps_parts s s' : p_revoked_controllers s' = p_revoked_controllers s → p_devices s' = p_devices s →
  keeps s s'.
Proof. intros H1 H2. split; rewrite ?H1, ?H2; [done|]. intros d Hd. by exists d. Qed.

Lemma put_keeps s id i d d' : ascending digest_le dv_id (p_devices s) → device_mut s id = Ok (i, d) →
  device_view d' = device_view d →
  (dv_lifecycle d = DeviceIsRevoked → dv_lifecycle d' = DeviceIsRevoked) → keeps s (put_device s i d').
Proof.
  intros Ha [Hi _]%device_mut_Ok Hv Hr. split; [done|]. cbn. intros x Hx.
  setoid_rewrite (update_elem digest_le dv_id i _ d d'); [|done..].
  destruct (decide (dv_id x = dv_id d)) as [Heq|Hne]; [|exists x; by auto].
  assert (x = d) as ->; [|exists d'; by auto].
  apply (ascending_inj digest_le dv_id (p_devices s)); [done..| |done]. by eapply list_elem_of_lookup_2.
Qed.

Lemma revoke_keeps s id s' : ascending digest_le dv_id (p_devices s) → revoke_device s id = Ok s' → keeps s s'.
Proof.
  intros Ha H. unfold revoke_device in H. ok_step H. destruct y as [i d]. ok_steps H. subst. by eapply put_keeps.
Qed.

Lemma device_ops_keep s s' : ascending digest_le dv_id (p_devices s) →
  (∃ u, update_device_metadata s u = Ok s') ∨ (∃ u, suspend_device s u = Ok s') ∨
  (∃ u, reinstate_device s u = Ok s') ∨ (∃ u e, update_device_authorization s u e = Ok s') →
  keeps s s'.
Proof.
  unfold update_device_metadata, suspend_device, reinstate_device, update_device_authorization.
  intros Ha [[u H]|[[u H]|[[u H]|(u & e & H)]]]; repeat ok_step H; destruct y as [i d];
    repeat ok_step H; try (destruct (dv_lifecycle d) eqn:Hl; try discriminate H);
    apply Ok_injective in H as <-; eapply put_keeps; try done; cbn; congruence.
Qed.

Lemma authorize_keeps s a e s' : authorize_device s a e = Ok s' → keeps s s'.
Proof.
  intros (i & _ & _ & _ & _ & ->)%authorize_Ok. split; [done|]. cbn. intros d Hd. exists d.
  split; [|done]. rewrite insert_at_Permutation. by right.
Qed.

Lemma add_keeps s d s' : add_controller s d = Ok s' → keeps s s'.
Proof.
  intros (id & i & key & _ & Hkey & _ & _ & _ & _ & H)%add_Ok.
  eapply enroll_ok in H as (crypto & -> & _); [|exact Hkey]. by apply keeps_parts.
Qed.

Lemma install_keeps s p s' : controllers_ok (p_active_controllers s) (p_revoked_controllers s) → plan_built p →
  install_recovery_plan s p = Ok s' → keeps s s'.
Proof.
  intros Hc Hp (active & revoked & control & recovery & Hact & Hf & Hins & Hb & _ & _ & ->)%install_Ok.
  destruct (install_controllers s p active revoked) as [_ Hperm]; [done..|]. split; cbn.
  - intros c Hin. rewrite Hperm. apply elem_of_app. by right.
  - intros d Hd. exists (recovered_device (pl_retained_devices p) d).
    split; [by apply list_elem_of_fmap_2|]. unfold recovered_device. by destruct (_ && _).
Qed.

(** The operations that replace neither controllers nor devices. *)
Lemma phase_keeps s lineage e id t s' : ordinary (eb_operation (ev_body e)) = false →
  match eb_operation (ev_body e) with FinalizeRecoveryOp _ => False | _ => True end →
  apply_operation s lineage e id t = Ok s' → keeps s s'.
Proof.
  unfold apply_operation. intros Ho Hf H. destruct (eb_operation (ev_body e)); try done; try discriminate Ho.
  - ok_step H. unfold begin_recovery in H. ok_step H. ok_step H. cbv zeta in H.
    destruct (p_heads s); [done|]. ok_steps H. subst. by apply keeps_parts.
  - apply veto_Ok in H as [_ ->]. by apply keeps_parts.
  - apply cancel_Ok in H as [_ ->]. by apply keeps_parts.
  - apply begin_migration_Ok in H as (? & ? & ? & _ & _ & _ & _ & _ & ->). by apply keeps_parts.
  - apply activate_Ok in H as (? & ? & ? & _ & ->). by apply keeps_parts.
  - apply retire_Ok in H as [(? & ? & ? & _ & ->)|(? & ? & ? & ? & ? & ? & _ & _ & [->|[r ->]])]; by apply keeps_parts.
  - ok_steps H. subst. by apply keeps_parts.
  - ok_steps H. subst. by apply keeps_parts.
Qed.

Lemma operation_keeps s lineage e id t s' : authority_ok s →
  apply_operation s lineage e id t = Ok s' → keeps s s'.
Proof.
  intros Hs H. pose proof (do_ascending _ _ _ (ao_devices s Hs)) as Ha.
  destruct (ordinary (eb_operation (ev_body e))) eqn:Ho.
  2: { destruct (eb_operation (ev_body e)) as [| | | | | | | | | | | | | | |f| | | | | |] eqn:Hop;
       try (apply (phase_keeps s lineage e id t); by rewrite ?Hop).
       unfold apply_operation in H. rewrite Hop in H.
       apply finalize_Ok in H as (pending & policy & minimum & time & s1 & Hf & Hi & ->).
       trans s1; [|by apply keeps_parts]. eapply install_keeps; [apply Hs| |exact Hi].
       by destruct (ao_pending s Hs pending (fz_pending _ _ _ _ _ _ _ _ Hf)). }
  unfold apply_operation in H. destruct (eb_operation (ev_body e)); try discriminate Ho.
  - by eapply authorize_keeps.
  - apply device_ops_keep; eauto 7.
  - apply device_ops_keep; eauto 7.
  - apply device_ops_keep; eauto 7.
  - apply device_ops_keep; eauto 7.
  - by eapply revoke_keeps.
  - unfold rotate_device_keys in H. ok_step H. etrans; [by eapply revoke_keeps|by eapply authorize_keeps].
  - by eapply add_keeps.
  - apply remove_Ok in H as (c & active & revoked & -> & _ & _ & Hp & _); [|apply Hs].
    split; cbn; [|intros d Hd; by exists d]. intros x Hx. rewrite Hp. by right.
  - unfold change_control_policy in H. ok_steps H. subst. by apply keeps_parts.
  - unfold change_recovery_policy in H. ok_steps H. subst. by apply keeps_parts.
  - unfold change_provider_policy in H. ok_steps H. subst. by apply keeps_parts.
Qed.

Lemma applies_keeps s s' : account_ok s → applies s s' → keeps s s'.
Proof.
  intros [Hs _ _] (lineage & e & id & effects & _ & _ & (time & applied & Ha & _)%linear_Ok).
  destruct Ha as [_ _ _ _ _ _ Happ ->]. trans applied; [by eapply operation_keeps|by apply keeps_parts].
Qed.

Lemma retired_terminal s s' : p_lifecycle s = LifeRetired → ¬ applies s s'.
Proof.
  intros Hl (lineage & e & id & effects & _ & _ & (time & applied & Ha & _)%linear_Ok).
  pose proof (ad_gate _ _ _ _ _ _ _ Ha) as Hg. unfold validate_lifecycle_gate in Hg. by rewrite Hl in Hg.
Qed.

Lemma history_ok g s s' : genesis_built g → reachable g s → rtc applies s s' →
  account_ok s' ∧ keeps s s'.
Proof.
  intros Hg Hr. induction 1 as [s|s1 s2 s3 H12 _ IH]; [split; [by eapply reachable_ok|done]|].
  destruct IH as [H3 H23]; [by eapply reach_event|]. split; [done|]. trans s2; [|done].
  apply applies_keeps; [by eapply reachable_ok|done].
Qed.


(** ** Positions *)

Lemma operation_identity s lineage e id t s' : apply_operation s lineage e id t = Ok s' →
  p_account_id s' = p_account_id s ∧ p_genesis_anchor s' = p_genesis_anchor s.
Proof.
  intros H. destruct (ordinary (eb_operation (ev_body e))) eqn:Ho.
  { by apply (ordinary_phase s lineage e id t s' Ho) in H as (_ & _ & _ & _ & _ & ? & ?). }
  unfold apply_operation in H. destruct (eb_operation (ev_body e)); try discriminate Ho; try done.
  - ok_step H. unfold begin_recovery in H. ok_step H. ok_step H. cbv zeta in H.
    destruct (p_heads s); [done|]. ok_steps H. by subst.
  - by apply veto_Ok in H as [_ ->].
  - by apply cancel_Ok in H as [_ ->].
  - apply finalize_Ok in H as (? & ? & ? & ? & s1 & _ & Hi & ->).
    by apply install_Ok in Hi as (? & ? & ? & ? & _ & _ & _ & _ & _ & _ & ->).
  - by apply begin_migration_Ok in H as (? & ? & ? & _ & _ & _ & _ & _ & ->).
  - by apply activate_Ok in H as (? & ? & ? & _ & ->).
  - by apply retire_Ok in H as [(? & ? & ? & _ & ->)|(? & ? & ? & ? & ? & ? & _ & _ & [->|[r ->]])].
  - ok_steps H. by subst.
  - ok_steps H. by subst.
Qed.

(** Accepting an event moves the account forward by exactly one position: the
    sequence number advances by one, the event is the only head, the epoch advances
    by one exactly if the operation is one that changes authority, in which case the
    keys of groups are to be rotated at the new epoch.  The identity of the account
    stays, and the event is refused ever after. *)
Theorem event_advances : ∀ s lineage e id s' effects,
  apply_new_linear s lineage e id = Ok (s', effects) →
  p_sequence s' = p_sequence s + 1 ∧ p_heads s' = [id] ∧
  p_epoch s' = p_epoch s + (if operation_changes_epoch (eb_operation (ev_body e)) then 1 else 0) ∧
  (RotateGroupKeys id (p_epoch s') ∈ effects ↔ p_epoch s' ≠ p_epoch s) ∧
  eb_account_id (ev_body e) = p_account_id s ∧ p_account_id s' = p_account_id s ∧
  p_genesis_anchor s' = p_genesis_anchor s ∧
  ∀ lineage' id' s'' effects', apply_new_linear s' lineage' e id' ≠ Ok (s'', effects').
Proof.
  intros s lineage e id s' effects (time & applied & Ha & ->)%linear_Ok.
  destruct Ha as [_ Hep Hacc Hseq _ _ Happ ->]. cbn. rewrite <-Hacc.
  assert (Hid : p_account_id applied = p_account_id s ∧ p_genesis_anchor applied = p_genesis_anchor s).
  { by eapply operation_identity. }
  destruct Hid as [-> ->]. unfold expected_epoch in Hep.
  assert (Hepoch : eb_resulting_epoch (ev_body e) = p_epoch s +
    (if operation_changes_epoch (eb_operation (ev_body e)) then 1 else 0)).
  { destruct (operation_changes_epoch _); [by apply checked_add_Ok in Hep as [-> _]|].
    apply Ok_injective in Hep. lia. }
  rewrite Hepoch. split_and!; try done.
  - unfold transition_effects. destruct (operation_changes_epoch _); cbn; rewrite !elem_of_cons, elem_of_nil.
    + split; [lia|]. intros _. by right; left.
    + split; [naive_solver|lia].
  - intros lineage' id' s'' effects' (time' & applied' & Ha' & _)%linear_Ok.
    apply ad_sequence in Ha'. cbn in Ha'. lia.
Qed.

(** ** Keys *)

Lemma stable_keys_available active st c : stable_ok active st → c ∈ active →
  match stable_verification_keys st c with
  | Ok keys => length keys = 1%nat
  | Err e => (∃ suite, crypto_suite_id suite = Err e) ∨
             (∃ key, key_id_for_signing_key key = Err e) ∨ (∃ key, key_id_for_algorithm_key key = Err e)
  end.
Proof.
  intros [Ha _ Hcov] Hin. unfold stable_verification_keys. case_bool_decide as Hnil; cbv zeta.
  - destruct (crypto_suite_id _) eqn:?; cbn; [|by eauto]. destruct (key_id_for_signing_key _) eqn:?; cbn; eauto.
  - assert (Hid : pc_id c ∈ mk_controller_id <$> sc_migrated_keys st) by by apply Hcov, list_elem_of_fmap_2.
    apply list_elem_of_fmap in Hid as (k & Hid & Hkin).
    rewrite (proj2 (get_by_Some digest_le mk_controller_id (pc_id c) (sc_migrated_keys st) k Ha)) by done.
    destruct (crypto_suite_id _) eqn:?; cbn; [|by eauto]. destruct (key_id_for_algorithm_key _) eqn:?; cbn; eauto.
Qed.

(** C18. No phase of a migration locks a controller out: in every state of a history,
    the keys an active controller signs with are known, one of them, or two while
    both suites are required.  Looking them up only fails when the identifier of a
    suite or of a key cannot be computed. *)
Theorem keys_available : ∀ g s c, genesis_built g → reachable g s → c ∈ p_active_controllers s →
  match verification_keys s (pc_id c) with
  | Ok keys => length keys = match p_crypto s with Dual _ _ _ _ => 2%nat | _ => 1%nat end
  | Err e => (∃ suite, crypto_suite_id suite = Err e) ∨
             (∃ key, key_id_for_signing_key key = Err e) ∨ (∃ key, key_id_for_algorithm_key key = Err e)
  end.
Proof.
  intros g s c Hg Hr Hin. destruct (reachable_ok g s Hg Hr) as [[Hc _ _ Hk _] _ _].
  unfold verification_keys, active_controller.
  rewrite (proj2 (get_by_Some digest_le pc_id (pc_id c) (p_active_controllers s) c (co_active _ _ Hc))) by done.
  destruct (p_crypto s) as [st|st m b|st m b a]; cbn in Hk.
  - pose proof (stable_keys_available _ st c Hk Hin) as H. destruct (stable_verification_keys st c); exact H.
  - pose proof (stable_keys_available _ st c (proj1 Hk) Hin) as H. destruct (stable_verification_keys st c); exact H.
  - pose proof (stable_keys_available _ st c (proj1 Hk) Hin) as H. destruct Hk as [_ [Ha Hsub]].
    destruct (stable_verification_keys st c) as [keys|e]; cbn; [|exact H].
    assert (Hid : pc_id c ∈ kb_controller_id <$> mg_bindings m) by by apply Hsub, list_elem_of_fmap_2.
    apply list_elem_of_fmap in Hid as (k & Hid & Hkin).
    rewrite (proj2 (get_by_Some digest_le kb_controller_id (pc_id c) (mg_bindings m) k Ha)) by done.
    destruct (crypto_suite_id (mg_to_suite m)) eqn:?; cbn; [|by eauto].
    destruct (key_id_for_algorithm_key _) eqn:?; cbn; [|by eauto].
    rewrite sort_by_Permutation, length_app, H. done.
Qed.

End History.

(** ** The example account *)

Import ExampleWire ProviderExample AccountExample.


Lemma event_advances_witness :
  p_sequence s2 = 2 ∧ ∀ lineage id s'' effects, apply_new_linear s2 lineage e2 id ≠ Ok (s'', effects).
Proof.
  destruct (event_advances s1 [] e2 (id_of_event e2) s2 (after s1 e2).2) as (Hs & _ & _ & _ & _ & _ & _ & Hr);
    [evaluate|]. split; [|exact Hr]. rewrite Hs. evaluate.
Defined.

Lemma keys_available_witness :
  ∃ keys, verification_keys s3 (id_of bob) = Ok keys ∧ length keys = 1%nat.
Proof.
  pose proof (keys_available genesis s3 (mkProjectedController (id_of bob) bob) example_built
    (proj2 example_reachable)) as H.
  assert (Hin : mkProjectedController (id_of bob) bob ∈ p_active_controllers s3).
  { apply (list_elem_of_lookup_2 _ 1%nat). evaluate. }
  assert (Hk : verification_keys s3 (id_of bob) = Ok (ok [] (verification_keys s3 (id_of bob)))) by evaluate.
  specialize (H Hin). cbn [pc_id] in H. rewrite Hk in H. eexists. split; [exact Hk|]. rewrite H. evaluate.
Defined.
