(* ===== verification/IdVerifierProps.v ===== *)
(** * Accounts: who can change them

    An event is accepted only on the authority of controllers that the policy selects,
    and a recovery is finalized only after its delay, on what the providers attest. *)
From stdpp Require Import base tactics list gmap countable orders sorting strings.
From Stdlib Require Import ZArith Lia Strings.Byte.
From S2P Require Import Prelude Bytes IdTypes SortedVec IdKeys IdFacts IdPolicy IdPolicyProps IdProviders IdApprovals IdGuardians IdCapability IdDevices IdEvidence IdRecovery IdMigration IdEvents IdAccount IdAccountOps IdVerifier IdAccountFacts IdAccountSteps IdAccountPhases MerkleProps ExampleWire IdAccountExample IdAccountHistory.

Local Open Scope N_scope.

Section Approvals.
  Context `{HB : Blake3Hash} `{HC : Curve} `{HAW : !AccountWire}.

#[local] Arguments controller_id : simpl never.

(** A signature of a list under one key, and under all keys of a controller. *)
Definition key_signed (signatures : list KeyedSignature) (message : list byte) (k : VerificationKey) : Prop :=
  ∃ s, s ∈ signatures ∧ ks_crypto_suite_id s = vk_crypto_suite_id k ∧
    ks_controller_key_id s = vk_controller_key_id k ∧ as_code (ks_signature s) = vk_algorithm_code k ∧
    verify_strict (vk_public_key k) message (as_bytes (ks_signature s)) = true.

Definition signed_by (s : Projection) (approval : SignedControllerApproval) (c : ProjectedController) : Prop :=
  ∃ keys message, verification_keys s (pc_id c) = Ok keys ∧ keys ≠ [] ∧
    to_canonical_bytes (sa_body approval) = Ok message ∧
    Forall (key_signed (sa_signatures approval) message) keys.

Lemma algorithm_signature_Ok code key signature message :
  verify_algorithm_signature code key signature message = Ok () →
  as_code signature = code ∧ verify_strict key message (as_bytes signature) = true.
Proof.
  intros H. unfold verify_algorithm_signature in H. ok_step H. bool_hyps. split; [done|].
  destruct (_ =? 1); [|done]. unfold verify_ed25519 in H. ok_step H. by bool_hyps.
Qed.

Lemma keys_signed_Ok keys signatures message : keys_signed keys signatures message = Ok () →
  Forall (key_signed signatures message) keys.
Proof.
  induction keys as [|k keys IH]; intros H; [constructor|]. cbn in H.
  destruct (List.find _ signatures) as [s|] eqn:Hf; [|done]. ok_step H. destruct y.
  constructor; [|by apply IH]. apply List.find_some in Hf as [Hin%list_elem_of_In Hm]. bool_hyps.
  apply algorithm_signature_Ok in Hy as [??]. by exists s.
Qed.

Lemma verification_keys_some s id keys : verification_keys s id = Ok keys → keys ≠ [].
Proof.
  unfold verification_keys. destruct (active_controller s id) as [c|]; [|done].
  assert (Hst : ∀ st ks, stable_verification_keys st c = Ok ks → ks ≠ []).
  { intros st ks H. unfold stable_verification_keys in H. case_bool_decide; cbv zeta in H.
    - ok_steps H. by subst.
    - destruct (get_by _ _ _ _); [|done]. ok_steps H. by subst. }
  destruct (p_crypto s) as [st|st m b|st m b a]; intros H; [by eapply Hst|by eapply Hst|].
  ok_step H. destruct (get_by _ _ _ _); [|done]. cbv zeta in H. ok_steps H. subst keys.
  intros Hnil. apply (f_equal length) in Hnil. rewrite sort_by_Permutation, length_app in Hnil. cbn in Hnil. lia.
Qed.

Lemma approval_signed s approval c : verify_controller_approval s approval = Ok () →
  approval_controller_id approval = pc_id c → signed_by s approval c.
Proof.
  intros H Hid. unfold verify_controller_approval in H. repeat ok_step H. rewrite Hid in Hy0.
  exists y0, y. split_and!; try done; [by eapply verification_keys_some|by apply keys_signed_Ok].
Qed.

(** A controller that may vote on an operation. *)
Record voter (s : Projection) (selector : ControllerSelector) (operation : OperationKind)
    (c : ProjectedController) : Prop := {
  vo_active : c ∈ p_active_controllers s;
  vo_selected : selects selector (pc_id c) (pc_descriptor c);
  vo_permitted : permits (cd_scope (pc_descriptor c)) operation;
}.

Definition weight_of (c : ProjectedController) : N := cd_weight (pc_descriptor c).

Lemma approval_controller_Ok s id c : approval_controller s id = Ok c → c ∈ p_active_controllers s ∧ pc_id c = id.
Proof.
  unfold approval_controller, active_controller. destruct (get_by _ _ _ _) as [c'|] eqn:Hg; [|done].
  intros ->%Ok_injective. by apply (get_by_key digest_le pc_id) in Hg.
Qed.

Lemma active_enrolled s c : authority_ok s → c ∈ p_active_controllers s → controller_id (pc_descriptor c) = Ok (pc_id c).
Proof.
  intros Hs Hin. pose proof (co_enrolled _ _ (ao_controllers s Hs)) as He. rewrite Forall_forall in He.
  apply He, elem_of_app. by left.
Qed.

Lemma eligible_voter s selector operation c : authority_ok s → c ∈ p_active_controllers s →
  ineligible selector operation (pc_descriptor c) = Ok false → voter s selector operation c.
Proof.
  intros Hs Hin H. unfold ineligible in H. rewrite scope_allows_spec in H. case_bool_decide; [|done]. cbn in H.
  rewrite (matches_controller_spec _ _ _ (active_enrolled s c Hs Hin)) in H. cbn in H.
  apply Ok_injective in H. bool_hyps. by split.
Qed.

(** The voters of a list of approvals, one each, and their weight. *)
Definition votes (s : Projection) (selector : ControllerSelector) (operation : OperationKind)
    (approvals : list SignedControllerApproval) (voters : list ProjectedController) : Prop :=
  Forall2 (λ a c, approval_controller_id a = pc_id c ∧ voter s selector operation c ∧ signed_by s a c)
    approvals voters.

Lemma approvals_weight_Ok s selector operation resource previous total approvals total' : authority_ok s →
  approvals_weight s selector operation resource previous total approvals = Ok total' →
  ∃ voters, votes s selector operation approvals voters ∧ total' = total + sum_with weight_of voters.
Proof.
  intros Hs. revert previous total. induction approvals as [|a approvals IH]; intros previous total H; cbn in H.
  { apply Ok_injective in H as <-. exists []. split; [constructor|cbn; lia]. }
  do 4 ok_step H. destruct y0; [done|]. ok_step H. destruct y0. ok_step H.
  apply approval_controller_Ok in Hy as [Hin Hid]. apply checked_add_Ok in Hy2 as [-> _].
  apply IH in H as (voters & Hv & ->). exists (y :: voters). split; [|cbn; unfold weight_of; lia].
  constructor; [|done]. split_and!; [done|by apply eligible_voter|by apply approval_signed].
Qed.

Lemma recovery_weight_Ok s selector operation previous total approvals total' : authority_ok s →
  recovery_weight s selector operation previous total approvals = Ok total' →
  ∃ voters, votes s selector operation approvals voters ∧ total' = total + sum_with weight_of voters.
Proof.
  intros Hs. revert previous total. induction approvals as [|a approvals IH]; intros previous total H; cbn in H.
  { apply Ok_injective in H as <-. exists []. split; [constructor|cbn; lia]. }
  do 3 ok_step H. apply approval_controller_Ok in Hy as [Hin Hid].
  rewrite (matches_controller_spec _ _ _ (active_enrolled s y Hs Hin)) in Hy0. apply Ok_injective in Hy0 as <-.
  rewrite scope_allows_spec in H. destruct (_ && _) eqn:He; [|done]. bool_hyps. do 2 ok_step H.
  apply checked_add_Ok in Hy as [-> _]. destruct y1.
  apply IH in H as (voters & Hv & ->). exists (y :: voters). split; [|cbn; unfold weight_of; lia].
  constructor; [|done]. split_and!; [done|by split|by apply approval_signed].
Qed.

Lemma event_built_subject e : event_built e → ∃ id evidence, event_id e = Ok id ∧
  ∀ a, a ∈ ev_approvals e → event_subject (sa_body a) = Some (id, evidence).
Proof.
  intros [H _]. unfold event_new in H. do 5 ok_step H. clear H.
  exists y, y0. split; [done|]. rewrite existsb_false, Forall_forall in Hc1. intros a Ha.
  by apply bool_ne_false, Hc1.
Qed.

Lemma votes_ids s selector operation approvals voters : votes s selector operation approvals voters →
  approval_controller_id <$> approvals = pc_id <$> voters.
Proof. induction 1 as [|a c approvals voters (Hid & _) _ IH]; [done|]. cbn. by rewrite Hid, IH. Qed.

Lemma votes_distinct s selector operation approvals voters : votes s selector operation approvals voters →
  approvals_from_sorted approvals = Ok approvals → NoDup (pc_id <$> voters).
Proof.
  intros <-%votes_ids H. unfold approvals_from_sorted in H. ok_step H. ok_step H. destruct y0.
  apply bounded_Ok in Hy as [-> _]. apply (check_ascending_Ok digest_le approval_controller_id) in Hy0.
  by apply (ascending_NoDup digest_le approval_controller_id).
Qed.

(** Operations that controllers approve under a rule of the control policy. *)
Definition by_policy (operation : AccountOperation) : bool :=
  match operation with
  | BeginRecoveryOp _ | CancelRecoveryOp _ | FinalizeRecoveryOp _ => false
  | _ => true
  end.

Lemma valid_event_Ok lineage s e epoch time : validate_event lineage s e epoch = Ok time →
  ∃ rule, rule_for (p_control_policy s) (operation_kind (eb_operation (ev_body e))) = Some rule ∧
    validate_freshness s e rule = Ok time ∧
    match eb_operation (ev_body e) with
    | BeginRecoveryOp _ | CancelRecoveryOp _ => validate_recovery_authority s e time
    | FinalizeRecoveryOp _ =>
        if bool_decide (ev_approvals e ≠ [])
        then Err (InvalidRelationship "finalize recovery controller approvals") else Ok ()
    | _ => validate_approvals s e rule
    end = Ok ().
Proof.
  intros H. unfold validate_event in H. cbv zeta in H. do 5 ok_step H.
  destruct (rule_for _ _) as [rule|]; [|done]. do 3 ok_step H. apply Ok_injective in H as <-.
  exists rule. by destruct y3.
Qed.

(** C4. Whoever changes an account has the authority to.  An event that is not of a
    recovery is accepted only if the policy has a rule for its operation, and distinct
    active controllers that the rule selects, each with a scope that has the operation,
    have signed this very event with every key they sign with, and together they have
    the weight that the rule requires. *)
Theorem event_authorized : ∀ g s lineage e id s' effects,
  genesis_built g → reachable g s → event_built e → by_policy (eb_operation (ev_body e)) = true →
  apply_new_linear s lineage e id = Ok (s', effects) →
  ∃ rule voters event evidence,
    rule_for (p_control_policy s) (operation_kind (eb_operation (ev_body e))) = Some rule ∧
    NoDup (pc_id <$> voters) ∧
    votes s (pr_eligible_controllers rule) (operation_kind (eb_operation (ev_body e)))
      (ev_approvals e) voters ∧
    pr_required_weight rule ≤ sum_with weight_of voters ∧
    event_id e = Ok event ∧
    ∀ a, a ∈ ev_approvals e → event_subject (sa_body a) = Some (event, evidence).
Proof.
  intros g s lineage e id s' effects Hg Hr He Hp (time & applied & Ha & _)%linear_Ok.
  pose proof (ac_authority s (reachable_ok g s Hg Hr)) as Hs.
  destruct (valid_event_Ok s s e _ time (ad_valid _ _ _ _ _ _ _ Ha)) as (rule & Hrule & _ & Hv).
  assert (Hv' : validate_approvals s e rule = Ok ()) by (by destruct (eb_operation (ev_body e))).
  unfold validate_approvals in Hv'. do 2 ok_step Hv'. bool_hyps.
  apply approvals_weight_Ok in Hy as (voters & Hvotes & ->); [|done].
  destruct (event_built_subject e He) as (event & evidence & Hid & Hsub).
  exists rule, voters, event, evidence. split_and!; try done.
  by eapply votes_distinct, He.
Qed.

End Approvals.

(** ** The example account *)

Import ExampleWire ProviderExample AccountExample.

(** The revocation of the device, which takes the weight of bob. *)
Lemma event_authorized_witness :
  ∃ rule voters, rule_for control OpRevokeDevice = Some rule ∧
    votes s1 (pr_eligible_controllers rule) OpRevokeDevice (ev_approvals e2) voters ∧
    pr_required_weight rule ≤ sum_with weight_of voters.
Proof.
  destruct (event_authorized genesis s1 [] e2 (id_of_event e2) s2 (after s1 e2).2)
    as (rule & voters & event & evidence & Hr & _ & Hv & Hw & _).
  - apply example_built.
  - destruct example_first. by eapply reach_event.
  - split; evaluate.
  - evaluate.
  - evaluate.
  - exists rule, voters. split_and!; [|exact Hv|exact Hw]. rewrite <-Hr. evaluate.
Defined.
