(* ===== verification/IdRecoveryProps.v ===== *)
(** * Accounts: recovery

    From the event that began it to the plan it installs. *)
From stdpp Require Import base tactics list gmap countable orders sorting strings.
From Stdlib Require Import ZArith Lia Strings.Byte.
From S2P Require Import Prelude Bytes IdTypes SortedVec IdKeys IdFacts IdPolicy IdPolicyProps IdProviders IdApprovals IdGuardians IdCapability IdDevices IdEvidence IdRecovery IdMigration IdEvents IdAccount IdAccountOps IdVerifier IdAccountFacts IdAccountSteps IdAccountPhases MerkleProps ExampleWire IdAccountExample IdAccountHistory IdVerifierProps.

Local Open Scope N_scope.

Section Recoveries.
  Context `{HB : Blake3Hash} `{HC : Curve} `{HAW : !AccountWire}.

#[local] Arguments controller_id : simpl never.
#[local] Arguments provider_id : simpl never.

(** ** What providers attest *)

(** A receipt of a configured provider on the account. *)
Definition attested (account : Digest) (providers : list ProviderDescriptor) (r : InclusionReceipt) : Prop :=
  le_account_id (ir_entry r) = account ∧
  ∃ provider, provider ∈ providers ∧ provider_id provider = Ok (receipt_provider_id r) ∧
    receipt_verify r provider = Ok ().

Lemma configured_provider_Ok providers id provider :
  configured_provider providers id = Ok (Some provider) → provider ∈ providers ∧ provider_id provider = Ok id.
Proof.
  induction providers as [|p providers IH]; intros H; cbn in H; [done|]. ok_step H.
  case_bool_decide as Hid.
  - injection H as ->. subst. by split; [left|].
  - apply IH in H as [??]. by split; [right|].
Qed.

Lemma configured_receipts_Ok account providers check receipts configured :
  configured_receipts account providers check receipts = Ok configured →
  configured `sublist_of` receipts ∧
  Forall (λ r, attested account providers r ∧ check r = Ok ()) configured.
Proof.
  revert configured. induction receipts as [|r receipts IH]; intros configured H; cbn in H.
  { apply Ok_injective in H as <-. by split; constructor. }
  do 3 ok_step H. destruct y. destruct y0 as [provider|].
  - do 2 ok_step H. apply Ok_injective in H as <-. destruct y. apply IH in Hy2 as [Hs Hall].
    split; [by apply sublist_skip|]. constructor; [|done]. bool_hyps. apply dec_stable in Hc.
    apply configured_provider_Ok in Hy0 as [??]. split; [split; [done|by exists provider]|done].
  - apply IH in H as [Hs Hall]. split; [by apply sublist_cons|done].
Qed.

(** A quorum of the providers of a policy has the proposal in its log, and attests a
    time that is not before the deadline. *)
Record attested_by (s : Projection) (policy : ReplicatedProviderPolicy) (proposal : Digest) (deadline : N)
    (receipts : ProviderReceipts) : Prop := {
  ab_providers : NoDup (receipt_provider_id <$> receipts);
  ab_quorum : rp_sufficient_threshold policy ≤ len receipts;
  ab_receipts : Forall (λ r, attested (p_account_id s) (rp_providers policy) r ∧
    receipt_subject r = SubjectEventIntent proposal ∧ deadline ≤ receipt_head_time r) receipts;
}.

Lemma receipts_distinct receipts : receipts_from_sorted receipts = Ok receipts →
  NoDup (receipt_provider_id <$> receipts).
Proof.
  intros H. unfold receipts_from_sorted in H. repeat ok_step H. destruct y0.
  apply bounded_Ok in Hy as [-> _].
  apply (check_ascending_Ok digest_le receipt_provider_id) in Hy0.
  by apply (ascending_NoDup digest_le receipt_provider_id).
Qed.

Lemma filter_fmap_length {A} (f : A → N) (P : N → Prop) `{∀ x, Decision (P x)} l :
  length (filter P (f <$> l)) = length (filter (λ a, P (f a)) l).
Proof.
  induction l as [|a l IH]; [done|]. rewrite fmap_cons, !filter_cons. case_decide; cbn [length]; by rewrite IH.
Qed.

Lemma completion_attested s pending anchor policy time :
  completion_time s pending anchor policy = Ok time →
  receipts_from_sorted (an_receipts anchor) = Ok (an_receipts anchor) →
  rp_sufficient_threshold policy ≤ an_required_quorum anchor →
  ∃ receipts, receipts `sublist_of` an_receipts anchor ∧
    attested_by s policy (pr_begin_proposal_id pending)
      (po_delay_deadline (pr_begin_observation pending)) receipts.
Proof.
  intros H Hd%receipts_distinct Hq. unfold completion_time in H. cbv zeta in H. repeat ok_step H. clear H.
  apply configured_receipts_Ok in Hy as [Hsub Hall]. set (deadline := po_delay_deadline _) in *.
  exists (filter (λ r, deadline <= receipt_head_time r) y).
  assert (Hs : filter (λ r, deadline <= receipt_head_time r) y `sublist_of` an_receipts anchor).
  { etrans; [apply sublist_filter|done]. }
  split; [done|]. bool_hyps. split.
  - eapply sublist_NoDup; [exact Hd|]. by apply fmap_sublist.
  - unfold len in *. rewrite filter_fmap_length in *. lia.
  - rewrite Forall_forall in *. intros r [Hr Hin]%list_elem_of_filter.
    destruct (Hall r Hin) as [Ha Hc']. split_and!; [done| |done]. ok_step Hc'. bool_hyps. by apply dec_stable.
Qed.

(** ** Who began it *)

(** The controllers that the recovery policy selects, or the guardians, have the
    weight that it requires. *)
Definition recovery_authorized (s : Projection) (e : AuthorizedEvent) (b : BeginRecovery) : Prop :=
  match ry_authority (p_recovery_policy s) with
  | RecoverByControllers t =>
      ∃ voters, votes s (ct_selector t) OpBeginRecovery (ev_approvals e) voters ∧
        NoDup (pc_id <$> voters) ∧ ct_required_weight t ≤ sum_with weight_of voters
  | RecoverByGuardians t =>
      ∃ approvals context authority, te_guardian_approvals (br_threshold_evidence b) = Some approvals ∧
        gc_protected_account_id context = p_account_id s ∧ gc_recovery_id context = br_recovery_id b ∧
        gc_decision context = DecideBegin ∧
        verify_guardian_authority (p_recovery_policy s) approvals context = Ok authority
  end.

Lemma begin_authorized s e b time : authority_ok s → event_built e → eb_operation (ev_body e) = BeginRecoveryOp b →
  validate_recovery_authority s e time = Ok () → recovery_authorized s e b.
Proof.
  intros Hs He Hop H. unfold validate_recovery_authority in H. rewrite Hop in H. cbn in H. ok_step H.
  unfold recovery_authorized. destruct (ry_authority (p_recovery_policy s)) as [t|t].
  - do 3 ok_step H. bool_hyps. apply recovery_weight_Ok in Hy as (voters & Hv & ->); [|done].
    exists voters. split_and!; [done|by eapply votes_distinct, He|done].
  - do 2 ok_step H. destruct time as [time|]; [|done]. unfold guardians_authorize in H.
    destruct (te_guardian_approvals _) as [approvals|]; [|done]. do 2 ok_step H.
    unfold context_new in Hy. ok_steps Hy. subst y.
    eexists approvals, _, _. split_and!; [done| | | |exact Hy0]; done.
Qed.

(** The state with a pending recovery is the one after the event that began it. *)
Record begun (g : AccountGenesis) (s : Projection) (pending : PendingRecovery) (s0 : Projection)
    (e : AuthorizedEvent) (b : BeginRecovery) : Prop := {
  bg_before : reachable g s0;
  bg_operation : eb_operation (ev_body e) = BeginRecoveryOp b;
  bg_applied : ∃ lineage id effects, apply_new_linear s0 lineage e id = Ok (s, effects);
  bg_recovery : br_recovery_id b = pr_recovery_id pending;
  bg_proposal : br_proposal b = pr_proposal pending;
  bg_intent : proposal_id (ev_body e) = Ok (pr_begin_proposal_id pending);
  bg_policy : p_recovery_policy s0 = p_recovery_policy s;
  bg_authorized : recovery_authorized s0 e b;
}.

(** Without a begin event, there is a pending recovery only if there was one. *)
Lemma pending_kept s lineage e id t s' :
  match eb_operation (ev_body e) with BeginRecoveryOp _ => False | _ => True end →
  apply_operation s lineage e id t = Ok s' →
  p_pending_recovery s' = None ∨
  p_pending_recovery s' = p_pending_recovery s ∧
  match eb_operation (ev_body e) with
  | VetoRecoveryOp _ | CancelRecoveryOp _ | FinalizeRecoveryOp _ => False | _ => True
  end.
Proof.
  intros Hb H. destruct (ordinary (eb_operation (ev_body e))) eqn:Ho.
  { right. apply (ordinary_phase s lineage e id t s' Ho) in H as (_ & ? & _).
    split; [done|]. by destruct (eb_operation (ev_body e)). }
  unfold apply_operation in H. destruct (eb_operation (ev_body e)); try discriminate Ho; try done.
  - left. by apply veto_Ok in H as [_ ->].
  - left. by apply cancel_Ok in H as [_ ->].
  - left. by apply finalize_Ok in H as (? & ? & ? & ? & ? & _ & _ & ->).
  - right. by apply begin_migration_Ok in H as (? & ? & ? & _ & _ & _ & _ & _ & ->).
  - right. by apply activate_Ok in H as (? & ? & ? & _ & ->).
  - right. by apply retire_Ok in H as [(? & ? & ? & _ & ->)|(? & ? & ? & ? & ? & ? & _ & _ & [->|[r ->]])].
  - right. ok_steps H. by subst.
  - right. ok_steps H. by subst.
Qed.

Lemma pending_begun g s pending : genesis_built g → reachable g s → p_pending_recovery s = Some pending →
  ∃ s0 e b, begun g s pending s0 e b.
Proof.
  intros Hg Hr Hp. destruct Hr as [s Hs|s0 s Hr (lineage & e & id & effects & Hbuilt & _ & Happ)].
  { unfold from_genesis in Hs. ok_steps Hs. by subst. }
  destruct (linear_Ok _ _ _ _ _ _ Happ) as (time & applied & Ha & _).
  destruct (reachable_ok g s0 Hg Hr) as [Hs0 Hl _].
  pose proof (ad_after _ _ _ _ _ _ _ Ha) as Hafter. pose proof (ad_applied _ _ _ _ _ _ _ Ha) as Hop.
  pose proof (ad_gate _ _ _ _ _ _ _ Ha) as Hgate.
  assert (Hpa : p_pending_recovery applied = Some pending) by by rewrite Hafter in Hp.
  destruct (eb_operation (ev_body e)) as [| | | | | | | | | | | |b| | | | | | | | |] eqn:Heq.
  13: { destruct (valid_event_Ok s0 s0 e _ time (ad_valid _ _ _ _ _ _ _ Ha)) as (rule & _ & _ & Hv).
    rewrite Heq in Hv. exists s0, e, b. unfold apply_operation in Hop. rewrite Heq in Hop. ok_step Hop.
    unfold begin_recovery in Hop. do 2 ok_step Hop. cbv zeta in Hop. destruct (p_heads s0); [done|].
    ok_steps Hop. subst applied s. injection Hp as <-.
    split; cbn; [done|done|by eexists _, _, _|done..|by eapply begin_authorized]. }
  all: exfalso; destruct (pending_kept s0 lineage e id time applied) as [Hn|[Hk Hno]];
    rewrite ?Heq in *; try done; rewrite Hpa in *; try done.
  all: unfold lifecycle_ok in Hl; unfold validate_lifecycle_gate in Hgate; rewrite <-Hk in Hl;
    destruct (p_lifecycle s0); try done; by destruct Hl.
Qed.

(** ** What it installs *)

Record recovered (s s' : Projection) (plan : RecoveryAuthorityPlan) : Prop := {
  rv_controllers : active_controller_descriptors s' = pl_replacement_controllers plan;
  rv_revoked : ∀ c, c ∈ p_active_controllers s →
    pc_id c ∈ pc_id <$> p_active_controllers s' ∨ c ∈ p_revoked_controllers s';
  rv_devices : ∀ d, d ∈ p_devices s' → dv_lifecycle d ≠ DeviceIsRevoked → dv_id d ∈ pl_retained_devices plan;
  rv_control : p_control_policy s' = pl_replacement_control_policy plan;
  rv_recovery : p_recovery_policy s' = pl_replacement_recovery_policy plan;
  rv_ended : p_pending_recovery s' = None ∧ p_lifecycle s' = LifeActive;
}.

Lemma install_recovered s p s1 n e h : authority_ok s → plan_built p → install_recovery_plan s p = Ok s1 →
  recovered s (set_position n e h (set_lifecycle LifeActive (set_pending None s1))) p.
Proof.
  intros Hs Hp (active & revoked & control & recovery & Hact & Hf & Hins & Hb & _ & _ & ->)%install_Ok.
  destruct (install_controllers s p active revoked) as [_ Hperm]; [apply Hs|done..|]. split; cbn; try done.
  - unfold active_controller_descriptors. cbn. by apply projected_Ok in Hact as [-> _].
  - intros c Hin. destruct (decide (pc_id c ∈ pc_id <$> active)) as [?|Hn]; [by left|]. right.
    rewrite Hperm. apply elem_of_app. left. by apply removed_elem.
  - intros d (d0 & -> & _)%list_elem_of_fmap. unfold recovered_device. rewrite sorted_contains_spec.
    destruct (_ && _) eqn:Hc; [done|]. intros Hl. rewrite bool_decide_eq_true_2 in Hc by done.
    cbn in Hc. bool_hyps. done.
Qed.


End Recoveries.

(** ** The example account *)

Import ExampleWire ProviderExample AccountExample.

