(* ===== verification/IdForks.v ===== *)
(** * The history of an account: replay, forks and their resolution
      (protocols/krikos-identity/src/state.rs)

    An account keeps a bounded lineage of the events it applied, each with the state it
    was validated against.  An event that conflicts with one of the lineage opens a
    fork: the branches are kept side by side and the common state stays in force until
    an event that names all heads resolves it. *)
From stdpp Require Import base tactics list gmap countable orders sorting strings.
From Stdlib Require Import ZArith Lia Strings.Byte.
From S2P Require Import Prelude Bytes IdTypes SortedVec IdKeys IdPolicy IdProviders IdApprovals IdGuardians IdCapability IdDevices IdEvidence IdRecovery IdMigration IdEvents IdAccount IdAccountOps IdVerifier.

Local Open Scope N_scope.

Definition MAX_HISTORY_PAGE_BYTES : N := 4 * 1024 * 1024.
Definition MAX_FORK_EVIDENCE_BYTES : N := 4 * 1024 * 1024.

(** ** State *)

Inductive AccountState : Type :=
| mkState (projection : Projection) (lineage : list LineageEntry) (lineage_bytes : N)
    (historical_state_required_through : option N) (fork : option ForkProjection)
with LineageEntry : Type :=
| mkEntry (pre_state : AccountState) (authority_state : option AccountState) (expected_epoch : N)
    (event : AuthorizedEvent)
with ForkBranch : Type :=
| mkBranch (transitions : list LineageEntry) (projected_state : AccountState)
with ForkProjection : Type :=
| mkFork (common_state : AccountState) (common_ancestor : ForkCommonAncestor) (conflict_sequence : N)
    (conflict_predecessors : EventPredecessors) (branches : list ForkBranch).

Definition st_projection (s : AccountState) : Projection := let '(mkState p _ _ _ _) := s in p.
Definition st_lineage (s : AccountState) : list LineageEntry := let '(mkState _ l _ _ _) := s in l.
Definition st_lineage_bytes (s : AccountState) : N := let '(mkState _ _ b _ _) := s in b.
Definition st_required_through (s : AccountState) : option N := let '(mkState _ _ _ h _) := s in h.
Definition st_fork (s : AccountState) : option ForkProjection := let '(mkState _ _ _ _ f) := s in f.

Definition en_pre_state (e : LineageEntry) : AccountState := let '(mkEntry s _ _ _) := e in s.
Definition en_authority_state (e : LineageEntry) : option AccountState := let '(mkEntry _ a _ _) := e in a.
Definition en_expected_epoch (e : LineageEntry) : N := let '(mkEntry _ _ n _) := e in n.
Definition en_event (e : LineageEntry) : AuthorizedEvent := let '(mkEntry _ _ _ v) := e in v.

Definition br_transitions (b : ForkBranch) : list LineageEntry := let '(mkBranch t _) := b in t.
Definition br_projected_state (b : ForkBranch) : AccountState := let '(mkBranch _ s) := b in s.

Definition fk_common_state (f : ForkProjection) : AccountState := let '(mkFork s _ _ _ _) := f in s.
Definition fk_common_ancestor (f : ForkProjection) : ForkCommonAncestor := let '(mkFork _ a _ _ _) := f in a.
Definition fk_branches (f : ForkProjection) : list ForkBranch := let '(mkFork _ _ _ _ b) := f in b.

Inductive ApplyDisposition : Type := Applied | Replay | ApprovalsMerged | ForkDetected.

Record ApplyOutcome : Type := mkOutcome {
  oc_disposition : ApplyDisposition;
  oc_event_id : Digest;
  oc_effects : list ProjectionEffect;
}.

#[global] Instance ApplyDisposition_EqDecision : EqDecision ApplyDisposition.
Proof. solve_decision. Defined.

(** [AccountRevision]: an account and its heads. *)
Definition frozen_heads (heads : list Digest) : result IdentityError (list Digest) :=
  if MAX_FORK_HEADS <? len heads then Err (limit "account revision heads" (len heads) MAX_FORK_HEADS) else
  _ ← check_ascending digest_le id "account revision heads" heads;
  Ok heads.

(** [AccountState::detached_snapshot]. *)
Definition detached_snapshot (s : AccountState) : AccountState :=
  mkState (st_projection s) [] 0 (st_required_through s) None.

(** The state without its lineage, which keeps the fork. *)
Definition without_lineage (s : AccountState) : AccountState :=
  mkState (st_projection s) [] 0 (st_required_through s) (st_fork s).

Definition with_event (e : LineageEntry) (event : AuthorizedEvent) : LineageEntry :=
  mkEntry (en_pre_state e) (en_authority_state e) (en_expected_epoch e) event.

(** The state an entry was authorized against. *)
Definition entry_authority (e : LineageEntry) : AccountState :=
  default (en_pre_state e) (en_authority_state e).

Definition entry_sequence (e : LineageEntry) : N := eb_sequence (ev_body (en_event e)).

Definition projection_lifecycle_code (l : ProjectionLifecycle) : N :=
  match l with
  | LifeActive => 1
  | LifeRecoveryPending => 2
  | LifeForked => 3
  | LifeMigrationPending => 4
  | LifeMigrationDual => 5
  | LifeUpgradePending => 6
  | LifeRetired => 7
  end.

(** [CanonicalProjectionView]: all fields of the projection, the lifecycle by its code. *)
Record CanonicalProjectionView : Type := mkView {
  vw_account_id : Digest;
  vw_genesis_anchor : Digest;
  vw_protocol_major : N;
  vw_sequence : N;
  vw_epoch : N;
  vw_heads : list Digest;
  vw_active_controllers : list ProjectedController;
  vw_revoked_controllers : list ProjectedController;
  vw_devices : list ProjectedDevice;
  vw_control_policy : ControlPolicy;
  vw_control_policy_id : Digest;
  vw_recovery_policy : RecoveryPolicy;
  vw_recovery_policy_id : Digest;
  vw_provider_policy : ProviderPolicy;
  vw_provider_policy_id : Digest;
  vw_pending_recovery : option PendingRecovery;
  vw_crypto : CryptoProjection;
  vw_upgrade : option ProtocolUpgrade;
  vw_retirement : option RetirementProjection;
  vw_lifecycle_code : N;
}.

Definition projection_view (p : Projection) : CanonicalProjectionView :=
  mkView (p_account_id p) (p_genesis_anchor p) (p_protocol_major p) (p_sequence p) (p_epoch p) (p_heads p)
    (p_active_controllers p) (p_revoked_controllers p) (p_devices p) (p_control_policy p)
    (p_control_policy_id p) (p_recovery_policy p) (p_recovery_policy_id p) (p_provider_policy p)
    (p_provider_policy_id p) (p_pending_recovery p) (p_crypto p) (p_upgrade p) (p_retirement p)
    (projection_lifecycle_code (p_lifecycle p)).

(** The encodings whose lengths bound the evidence. *)
Class ForkWire : Type := {
  wire_view :: WireFormat CanonicalProjectionView;
  wire_ancestor :: WireFormat ForkCommonAncestor;
  wire_predecessors :: WireFormat EventPredecessors;
}.

Section Forks.
  Context `{HB : Blake3Hash} `{HC : Curve} `{HAW : !AccountWire} `{HFW : !ForkWire}.

#[export] Instance ancestor_codec : CanonicalCodec ForkCommonAncestor :=
  wire_codec "fork common ancestor bytes".
#[export] Instance predecessors_codec : CanonicalCodec EventPredecessors :=
  wire_codec "event predecessor bytes".

(** ** The size of the evidence *)

Definition checked_evidence_add (total amount : N) : result IdentityError N :=
  checked_add "account projection evidence bytes" total amount.

Definition canonical_len {A} `{CanonicalCodec A} (a : A) : result IdentityError N :=
  bytes ← to_canonical_bytes a; Ok (len bytes).

(** [semantic_projection_bytes]: the length of the view of the projection. *)
Definition semantic_projection_bytes (p : Projection) : result IdentityError N :=
  bytes ← encode_wire (projection_view p); Ok (len bytes).

(** [account_state_evidence_bytes], with the loops over the branches of a fork and
    their transitions. *)
Fixpoint account_state_evidence_bytes (s : AccountState) (depth : N) {struct s} : result IdentityError N :=
  if MAX_HISTORY_PAGE_EVENTS <? depth
  then Err (limit "nested account projection evidence" depth MAX_HISTORY_PAGE_EVENTS) else
  match s with
  | mkState projection _ _ _ fork =>
      total ← semantic_projection_bytes projection;
      match fork with
      | None => Ok total
      | Some fork => fork_evidence_bytes fork (depth + 1) total
      end
  end
with fork_evidence_bytes (f : ForkProjection) (depth total : N) {struct f} : result IdentityError N :=
  match f with
  | mkFork common_state common_ancestor _ conflict_predecessors branches =>
      bytes ← account_state_evidence_bytes common_state depth;
      total ← checked_evidence_add total bytes;
      bytes ← canonical_len common_ancestor;
      total ← checked_evidence_add total bytes;
      bytes ← canonical_len conflict_predecessors;
      total ← checked_evidence_add total bytes;
      (fix all_branches (branches : list ForkBranch) (total : N) : result IdentityError N :=
        match branches with
        | [] => Ok total
        | branch :: branches =>
            total ← branch_evidence_bytes branch depth total;
            all_branches branches total
        end) branches total
  end
with branch_evidence_bytes (b : ForkBranch) (depth total : N) {struct b} : result IdentityError N :=
  match b with
  | mkBranch transitions projected_state =>
      bytes ← account_state_evidence_bytes projected_state depth;
      total ← checked_evidence_add total bytes;
      (fix all_transitions (transitions : list LineageEntry) (total : N) : result IdentityError N :=
        match transitions with
        | [] => Ok total
        | transition :: transitions =>
            total ← transition_evidence_bytes transition depth total;
            all_transitions transitions total
        end) transitions total
  end
with transition_evidence_bytes (e : LineageEntry) (depth total : N) {struct e} : result IdentityError N :=
  match e with
  | mkEntry pre_state authority_state _ event =>
      bytes ← canonical_len event;
      total ← checked_evidence_add total bytes;
      bytes ← account_state_evidence_bytes pre_state depth;
      total ← checked_evidence_add total bytes;
      match authority_state with
      | None => Ok total
      | Some authority =>
          bytes ← account_state_evidence_bytes authority depth;
          checked_evidence_add total bytes
      end
  end.

Definition lineage_entry_evidence_bytes (e : LineageEntry) : result IdentityError N :=
  total ← canonical_len (en_event e);
  bytes ← account_state_evidence_bytes (en_pre_state e) 0;
  total ← checked_evidence_add total bytes;
  match en_authority_state e with
  | None => Ok total
  | Some authority =>
      bytes ← account_state_evidence_bytes authority 0;
      checked_evidence_add total bytes
  end.

(** The loops of [validate_fork_evidence_bound]. *)
Fixpoint transitions_total (total : N) (transitions : list LineageEntry) : result IdentityError N :=
  match transitions with
  | [] => Ok total
  | transition :: transitions =>
      bytes ← lineage_entry_evidence_bytes transition;
      total ← checked_evidence_add total bytes;
      transitions_total total transitions
  end.

Fixpoint branches_total (total : N) (branches : list ForkBranch) : result IdentityError N :=
  match branches with
  | [] => Ok total
  | branch :: branches =>
      bytes ← account_state_evidence_bytes (br_projected_state branch) 0;
      total ← checked_evidence_add total bytes;
      total ← transitions_total total (br_transitions branch);
      branches_total total branches
  end.

Definition validate_fork_evidence_bound (common_state : AccountState) (branches : list ForkBranch)
    : result IdentityError () :=
  total ← account_state_evidence_bytes common_state 0;
  total ← branches_total total branches;
  if MAX_FORK_EVIDENCE_BYTES <? total
  then Err (limit "account fork evidence bytes" total MAX_FORK_EVIDENCE_BYTES) else Ok ().

(** ** The lineage *)

(** The loop of [retain_lineage_entry] that drops the oldest entries: the rest, its
    size, and the last sequence number that was dropped. *)
Fixpoint evict (lineage : list LineageEntry) (lineage_bytes : N) (through : option N) (entry_bytes : N)
    : result IdentityError (list LineageEntry * N * option N) :=
  match lineage with
  | [] => Ok ([], lineage_bytes, through)
  | removed :: rest =>
      full ← (if MAX_HISTORY_PAGE_EVENTS <=? len lineage then Ok true else
              sum ← checked_add "account lineage bytes" lineage_bytes entry_bytes;
              Ok (MAX_HISTORY_PAGE_BYTES <? sum));
      if full : bool then
        removed_bytes ← lineage_entry_evidence_bytes removed;
        if lineage_bytes <? removed_bytes then Err StorageCorruption
        else evict rest (lineage_bytes - removed_bytes) (Some (entry_sequence removed)) entry_bytes
      else Ok (lineage, lineage_bytes, through)
  end.

(** [AccountState::retain_lineage_entry]. *)
Definition retain_lineage_entry (s : AccountState) (entry : LineageEntry)
    : result IdentityError AccountState :=
  entry_bytes ← lineage_entry_evidence_bytes entry;
  '(lineage, bytes, through) ← evict (st_lineage s) (st_lineage_bytes s) (st_required_through s) entry_bytes;
  if MAX_HISTORY_PAGE_BYTES <? entry_bytes
  then Ok (mkState (st_projection s) lineage bytes (Some (entry_sequence entry)) (st_fork s)) else
  bytes ← checked_add "account lineage bytes" bytes entry_bytes;
  Ok (mkState (st_projection s) (lineage ++ [entry]) bytes through (st_fork s)).

Fixpoint retain_all (s : AccountState) (entries : list LineageEntry) : result IdentityError AccountState :=
  match entries with
  | [] => Ok s
  | entry :: entries => s ← retain_lineage_entry s entry; retain_all s entries
  end.

(** [AccountState::normalize_lineage_bound]. *)
Definition normalize_lineage_bound (s : AccountState) : result IdentityError AccountState :=
  retain_all (without_lineage s) (st_lineage s).

(** [AccountState::apply_new_linear]. *)
Definition apply_linear (s : AccountState) (event : AuthorizedEvent) (event_id : Digest)
    : result IdentityError (AccountState * ApplyOutcome) :=
  '(projection, effects) ← apply_new_linear (st_projection s) (en_event <$> st_lineage s) event event_id;
  epoch ← expected_epoch (st_projection s) (eb_operation (ev_body event));
  s' ← retain_lineage_entry
         (mkState projection (st_lineage s) (st_lineage_bytes s) (st_required_through s) (st_fork s))
         (mkEntry (detached_snapshot s) None epoch event);
  Ok (mkState (st_projection s') (st_lineage s') (st_lineage_bytes s') (st_required_through s') None,
      mkOutcome Applied event_id effects).

(** ** Replay *)

Definition merge_event_evidence (retained incoming : AuthorizedEvent)
    : result IdentityError AuthorizedEvent :=
  if bool_decide (ev_body retained ≠ ev_body incoming)
     || bool_decide (ev_admission_evidence retained ≠ ev_admission_evidence incoming)
  then Err (InvalidIdentifier "admitted event identity") else
  approvals ← approvals_merge (ev_approvals retained) (ev_approvals incoming);
  if bool_decide (approvals = ev_approvals retained) then Ok retained
  else event_new (ev_body retained) (ev_admission_evidence retained) approvals.

Definition validate_against (entry : LineageEntry) (event : AuthorizedEvent)
    : result IdentityError (option N) :=
  validate_event (st_projection (en_pre_state entry)) (st_projection (entry_authority entry)) event
    (en_expected_epoch entry).

(** The events of the branches with an identifier, in their order. *)
Definition fork_matches (event_id : Digest) (branches : list ForkBranch) : list LineageEntry :=
  List.filter (λ t, has_event_id event_id (en_event t)) (concat (br_transitions <$> branches)).

(** The loop that merges an event with each of them. *)
Fixpoint merge_matches (event merged : AuthorizedEvent) (entries : list LineageEntry)
    : result IdentityError AuthorizedEvent :=
  match entries with
  | [] => Ok merged
  | transition :: entries =>
      _ ← validate_against transition event;
      merged ← merge_event_evidence (en_event transition) merged;
      merge_matches event merged entries
  end.

Definition replace_matches (event_id : Digest) (merged : AuthorizedEvent) (branch : ForkBranch) : ForkBranch :=
  mkBranch ((λ t, if has_event_id event_id (en_event t) then with_event t merged else t)
              <$> br_transitions branch) (br_projected_state branch).

(** [AccountState::try_replay]. *)
Definition try_replay (s : AccountState) (event : AuthorizedEvent) (event_id : Digest)
    : result IdentityError (option (AccountState * ApplyOutcome)) :=
  match list_find (λ t, has_event_id event_id (en_event t) = true) (st_lineage s) with
  | Some (index, entry) =>
      _ ← validate_against entry event;
      merged ← merge_event_evidence (en_event entry) event;
      if bool_decide (merged = en_event entry) then Ok (Some (s, mkOutcome Replay event_id [])) else
      s' ← normalize_lineage_bound
             (mkState (st_projection s) (<[index := with_event entry merged]> (st_lineage s))
                (st_lineage_bytes s) (st_required_through s) (st_fork s));
      Ok (Some (s', mkOutcome ApprovalsMerged event_id []))
  | None =>
      match st_fork s with
      | None => Ok None
      | Some (mkFork common ancestor sequence predecessors branches) =>
          match fork_matches event_id branches with
          | [] => Ok None
          | matches =>
              merged ← merge_matches event event matches;
              if existsb (λ t, bool_decide (en_event t ≠ merged)) matches then
                let branches := replace_matches event_id merged <$> branches in
                _ ← validate_fork_evidence_bound common branches;
                Ok (Some (mkState (st_projection s) (st_lineage s) (st_lineage_bytes s)
                            (st_required_through s)
                            (Some (mkFork common ancestor sequence predecessors branches)),
                          mkOutcome ApprovalsMerged event_id []))
              else Ok (Some (s, mkOutcome Replay event_id []))
          end
      end
  end.

(** [AccountState::find_lineage_conflict]: the latest entry at the position of the event. *)
Fixpoint conflict_in (event : AuthorizedEvent) (id : Digest) (entries : list LineageEntry)
    : result IdentityError (option LineageEntry) :=
  match entries with
  | [] => Ok None
  | entry :: entries =>
      let body := ev_body (en_event entry) in
      entry_id ← event_id (en_event entry);
      if bool_decide (entry_id ≠ id)
         && bool_decide (eb_account_id body = eb_account_id (ev_body event))
         && (eb_sequence body =? eb_sequence (ev_body event))
         && bool_decide (eb_predecessors body = eb_predecessors (ev_body event))
      then Ok (Some entry) else conflict_in event id entries
  end.

Definition find_lineage_conflict (s : AccountState) (event : AuthorizedEvent) (id : Digest)
    : result IdentityError (option LineageEntry) :=
  conflict_in event id (reverse (st_lineage s)).

(** ** Branches *)

Definition fork_branch_event_id (b : ForkBranch) : result IdentityError Digest :=
  match last (br_transitions b) with
  | None => Err StorageCorruption
  | Some transition => event_id (en_event transition)
  end.

Definition fork_head_ids (branches : list ForkBranch) : result IdentityError (list Digest) :=
  collect (fork_branch_event_id <$> branches).

Definition sort_fork_branches (branches : list ForkBranch) : result IdentityError (list ForkBranch) :=
  identified ← collect ((λ b, id ← fork_branch_event_id b; Ok (id, b)) <$> branches);
  Ok (snd <$> sort_by digest_le fst identified).

Definition branch_projection (b : ForkBranch) : Projection := st_projection (br_projected_state b).

(** [Iterator::max]; there is a branch. *)
Definition max_of (values : list N) : result IdentityError N :=
  match values with [] => Err StorageCorruption | v :: values => Ok (foldl N.max v values) end.

(** The state of a fork: the common state at the position of its branches. *)
Definition forked_state (common : AccountState) (ancestor : ForkCommonAncestor) (event : AuthorizedEvent)
    (branches : list ForkBranch) : result IdentityError AccountState :=
  sequence ← max_of (p_sequence ∘ branch_projection <$> branches);
  heads ← fork_head_ids branches;
  let p := st_projection common in
  Ok (mkState (set_lifecycle LifeForked (set_position sequence (p_epoch p) heads p)) [] 0
        (st_required_through common)
        (Some (mkFork common ancestor (eb_sequence (ev_body event)) (eb_predecessors (ev_body event)) branches))).

Definition fork_outcome (event_id : Digest) : ApplyOutcome :=
  mkOutcome ForkDetected event_id [PublishAccountEvent event_id; NotifyForkDetected event_id].

(** [AccountState::revoke_controller_for_resolution]. *)
Definition revoke_controller_for_resolution (p : Projection) (id : Digest) : result IdentityError Projection :=
  if bool_decide (revoked_controller p id ≠ None) then Ok p else
  match search digest_le pc_id id (p_active_controllers p) with
  | Err _ => Err UnknownController
  | Ok index =>
      match p_active_controllers p !! index with
      | None => Err StorageCorruption  (* not reached: the index was found *)
      | Some controller =>
          revoked ← insert_revoked (p_revoked_controllers p) controller;
          Ok (set_controllers (delete index (p_active_controllers p)) revoked p)
      end
  end.

Fixpoint revoke_controllers (p : Projection) (ids : list Digest) : result IdentityError Projection :=
  match ids with
  | [] => Ok p
  | id :: ids => p ← revoke_controller_for_resolution p id; revoke_controllers p ids
  end.

Fixpoint revoke_devices (p : Projection) (ids : list Digest) : result IdentityError Projection :=
  match ids with
  | [] => Ok p
  | id :: ids =>
      '(index, device) ← device_mut p id;
      revoke_devices (put_device p index (set_device_lifecycle DeviceIsRevoked device)) ids
  end.

(** [fork_branch_event_id(branch) == Ok(head)]. *)
Definition is_selected (head : Digest) (b : ForkBranch) : bool :=
  match fork_branch_event_id b with Ok id => bool_decide (id = head) | Err _ => false end.

(** The selected branch after the revocations of a resolution. *)
Definition resolved_projection (p : Projection) (resolution : ResolveFork) : result IdentityError Projection :=
  p ← revoke_controllers p (rf_revoked_controllers resolution);
  p ← revoke_devices p (rf_revoked_devices resolution);
  if bool_decide (p_active_controllers p = []) then Err UnsatisfiableThreshold else
  _ ← validate_satisfiable (p_control_policy p) (active_controller_descriptors p);
  _ ← validate_controller_authority (p_recovery_policy p) (active_controller_descriptors p);
  Ok p.

(** [AccountState::apply_fork_resolution]. *)
Definition apply_fork_resolution (s : AccountState) (event : AuthorizedEvent) (event_id : Digest)
    : result IdentityError (AccountState * ApplyOutcome) :=
  let body := ev_body event in
  match eb_operation body with
  | ResolveForkOp resolution =>
      match st_fork s with
      | None => Err StorageCorruption
      | Some fork =>
          if bool_decide (fd_account_id (rf_fork resolution) ≠ p_account_id (st_projection s))
          then Err AccountMismatch
          else if bool_decide (fd_heads (rf_fork resolution) ≠ p_heads (st_projection s))
               || bool_decide (fd_common_ancestor (rf_fork resolution) ≠ fk_common_ancestor fork)
          then Err InvalidPredecessor else
          match List.find (is_selected (rf_selected_head resolution)) (fk_branches fork) with
          | None => Err InvalidPredecessor
          | Some selected =>
              maximum_epoch ← max_of (p_epoch ∘ branch_projection <$> fk_branches fork);
              expected ← checked_add "account epoch" maximum_epoch 1;
              _ ← validate_event (st_projection s) (st_projection (fk_common_state fork)) event expected;
              resolved ← resolved_projection (branch_projection selected) resolution;
              let resolved := set_position (eb_sequence body) (eb_resulting_epoch body) [event_id] resolved in
              s' ← retain_lineage_entry
                     (mkState resolved [] 0 (st_required_through (br_projected_state selected)) None)
                     (mkEntry (without_lineage s) (Some (detached_snapshot (fk_common_state fork)))
                        expected event);
              Ok (s', mkOutcome Applied event_id (transition_effects event_id (p_epoch resolved) true))
          end
      end
  | _ => Err AccountForked
  end.

(** The last entry of a lineage, and the state without lineage and fork. *)
Definition transition_of (s : AccountState) : result IdentityError (LineageEntry * AccountState) :=
  match last (st_lineage s) with
  | None => Err StorageCorruption
  | Some transition => Ok (transition, detached_snapshot s)
  end.

Definition is_resolution (event : AuthorizedEvent) : bool :=
  match eb_operation (ev_body event) with ResolveForkOp _ => true | _ => false end.

Definition has_fork (s : AccountState) : bool := match st_fork s with Some _ => true | None => false end.

(** [project_transition]. *)
Definition project_transition (pre_state : AccountState) (event : AuthorizedEvent) (event_id : Digest)
    : result IdentityError (LineageEntry * AccountState) :=
  '(s, _) ← (if has_fork pre_state && is_resolution event
             then apply_fork_resolution (without_lineage pre_state) event event_id
             else apply_linear (detached_snapshot pre_state) event event_id);
  transition_of s.

(** ** Opening a fork *)

(** [position(|transition| transition.event.event_id() == Ok(id))]. *)
Definition lineage_from (id : Digest) (lineage : list LineageEntry) : option (list LineageEntry) :=
  match list_find (λ t, has_event_id id (en_event t) = true) lineage with
  | Some (index, _) => Some (drop index lineage)
  | None => None
  end.

(** [AccountState::open_resolution_fork]. *)
Definition open_resolution_fork (s : AccountState) (event : AuthorizedEvent) (id : Digest)
    (conflict : LineageEntry) : result IdentityError (AccountState * ApplyOutcome) :=
  let unresolved := en_pre_state conflict in
  match st_fork unresolved with
  | None => Err StorageCorruption
  | Some original =>
      let common := detached_snapshot (fk_common_state original) in
      conflict_id ← event_id (en_event conflict);
      match lineage_from conflict_id (st_lineage s) with
      | None => Err StorageCorruption
      | Some left_transitions =>
          '(right_state, _) ← apply_fork_resolution unresolved event id;
          '(right_transition, right_state) ← transition_of right_state;
          branches ← sort_fork_branches [mkBranch left_transitions (detached_snapshot s);
                                         mkBranch [right_transition] right_state];
          _ ← validate_fork_evidence_bound common branches;
          s' ← forked_state common (fk_common_ancestor original) event branches;
          Ok (s', fork_outcome id)
      end
  end.

(** [AccountState::open_fork]. *)
Definition open_fork (s : AccountState) (event : AuthorizedEvent) (id : Digest) (conflict : LineageEntry)
    (authenticated_left_path : option (list LineageEntry))
    : result IdentityError (AccountState * ApplyOutcome) :=
  if has_fork (en_pre_state conflict) && is_resolution event
  then open_resolution_fork s event id conflict else
  let common := detached_snapshot (en_pre_state conflict) in
  let p := st_projection common in
  epoch ← expected_epoch p (eb_operation (ev_body event));
  _ ← validate_event p p event epoch;
  conflict_id ← event_id (en_event conflict);
  left_transitions ← match authenticated_left_path with
                     | Some path => Ok path
                     | None =>
                         match lineage_from conflict_id (st_lineage s) with
                         | Some path => Ok path
                         | None => Err (HistoricalStateRequired (entry_sequence conflict))
                         end
                     end;
  '(right_state, _) ← apply_linear common event id;
  '(right_transition, right_state) ← transition_of right_state;
  branches ← sort_fork_branches [mkBranch left_transitions (detached_snapshot s);
                                 mkBranch [right_transition] right_state];
  _ ← validate_fork_evidence_bound common branches;
  ancestor ← (if p_sequence p =? 0 then Ok (AncestorGenesis (p_genesis_anchor p))
              else match p_heads p with [head] => Ok (AncestorEvent head) | _ => Err StorageCorruption end);
  s' ← forked_state common ancestor event branches;
  Ok (s', fork_outcome id).

(** ** While forked *)

(** The event extends a branch. *)
Definition extends_branch (event : AuthorizedEvent) (b : ForkBranch) : bool :=
  let p := branch_projection b in
  match checked_add "account sequence" (p_sequence p) 1 with
  | Ok next => next =? eb_sequence (ev_body event)
  | Err _ => false
  end
  && bool_decide (event_heads (eb_predecessors (ev_body event)) = Some (p_heads p)).

(** The event is at the position of a transition. *)
Definition conflicts_with (event : AuthorizedEvent) (t : LineageEntry) : bool :=
  (entry_sequence t =? eb_sequence (ev_body event))
  && bool_decide (eb_predecessors (ev_body (en_event t)) = eb_predecessors (ev_body event)).

(** The first such transition, with the transitions of its branch before it. *)
Fixpoint conflicting (event : AuthorizedEvent) (branches : list ForkBranch)
    : option (list LineageEntry * LineageEntry) :=
  match branches with
  | [] => None
  | b :: branches =>
      match list_find (λ t, conflicts_with event t = true) (br_transitions b) with
      | Some (index, t) => Some (take index (br_transitions b), t)
      | None => conflicting event branches
      end
  end.

(** The branches after an event that is not their resolution. *)
Definition grow_branches (branches : list ForkBranch) (event : AuthorizedEvent) (id : Digest)
    : result IdentityError (list ForkBranch) :=
  match list_find (λ b, extends_branch event b = true) branches with
  | Some (index, parent) =>
      '(transition, projected) ← project_transition (br_projected_state parent) event id;
      Ok (<[index := mkBranch (br_transitions parent ++ [transition]) projected]> branches)
  | None =>
      match conflicting event branches with
      | None => Err AccountForked
      | Some (before, conflict) =>
          if MAX_FORK_HEADS <=? len branches
          then Err (limit "account fork heads" (len branches + 1) MAX_FORK_HEADS) else
          '(transition, projected) ← project_transition (en_pre_state conflict) event id;
          Ok (branches ++ [mkBranch (before ++ [transition]) projected])
      end
  end.

(** [AccountState::apply_while_forked]. *)
Definition apply_while_forked (s : AccountState) (event : AuthorizedEvent) (id : Digest)
    : result IdentityError (AccountState * ApplyOutcome) :=
  let p := st_projection s in
  if is_resolution event && bool_decide (event_heads (eb_predecessors (ev_body event)) = Some (p_heads p))
  then apply_fork_resolution s event id else
  match st_fork s with
  | None => Err StorageCorruption
  | Some (mkFork common ancestor sequence predecessors branches) =>
      if len branches <? 2 then Err StorageCorruption else
      branches ← grow_branches branches event id;
      branches ← sort_fork_branches branches;
      _ ← validate_fork_evidence_bound common branches;
      position ← max_of (p_sequence ∘ branch_projection <$> branches);
      heads ← fork_head_ids branches;
      Ok (mkState (set_position position (p_epoch p) heads p) (st_lineage s) (st_lineage_bytes s)
            (st_required_through s) (Some (mkFork common ancestor sequence predecessors branches)),
          fork_outcome id)
  end.

(** ** Events *)

(** The event is at or below the sequence numbers whose states were dropped. *)
Definition below_boundary (s : AccountState) (sequence : N) : bool :=
  match st_required_through s with Some through => sequence <=? through | None => false end.

(** [AccountState::validate_and_apply_inner]. *)
Definition validate_and_apply_inner (s : AccountState) (event : AuthorizedEvent)
    : result IdentityError (AccountState * ApplyOutcome) :=
  id ← event_id event;
  replayed ← try_replay s event id;
  match replayed with
  | Some outcome => Ok outcome
  | None =>
      if has_fork s then apply_while_forked s event id else
      conflict ← find_lineage_conflict s event id;
      match conflict with
      | Some conflict => open_fork s event id conflict None
      | None =>
          if bool_decide (eb_account_id (ev_body event) = p_account_id (st_projection s))
             && below_boundary s (eb_sequence (ev_body event))
          then Err (HistoricalStateRequired (eb_sequence (ev_body event)))
          else apply_linear s event id
      end
  end.

(** [AccountState::validate_and_apply]: on an error the state stays. *)
Definition validate_and_apply (s : AccountState) (event : AuthorizedEvent)
    : AccountState * result IdentityError ApplyOutcome :=
  match validate_and_apply_inner s event with
  | Ok (s', outcome) => (s', Ok outcome)
  | Err e => (s, Err e)
  end.

(** The loop of [validate_and_apply_historical_conflict] over the accepted path: the
    state it leads to and the transitions. *)
Fixpoint replay_path (s : AccountState) (bytes : N) (path : list AuthorizedEvent)
    : result IdentityError (AccountState * list LineageEntry) :=
  match path with
  | [] => Ok (s, [])
  | accepted :: path =>
      let pre_state := detached_snapshot s in
      let p := st_projection pre_state in
      epoch ← expected_epoch p (eb_operation (ev_body accepted));
      _ ← validate_event p p accepted epoch;
      id ← event_id accepted;
      '(s, _) ← apply_linear s accepted id;
      let transition := mkEntry pre_state None epoch accepted in
      size ← lineage_entry_evidence_bytes transition;
      bytes ← checked_evidence_add bytes size;
      if MAX_FORK_EVIDENCE_BYTES <? bytes
      then Err (limit "account fork evidence bytes" bytes MAX_FORK_EVIDENCE_BYTES) else
      '(s, transitions) ← replay_path s bytes path;
      Ok (s, transition :: transitions)
  end.

(** [AccountState::validate_and_apply_historical_conflict]. *)
Definition historical_conflict_inner (s historical : AccountState) (accepted_path : list AuthorizedEvent)
    (incoming : AuthorizedEvent) : result IdentityError (AccountState * ApplyOutcome) :=
  match accepted_path with
  | [] => Err StorageCorruption
  | accepted :: _ =>
      let sequence := eb_sequence (ev_body incoming) in
      let p := st_projection historical in
      if negb (below_boundary s sequence)
      then Err (InvalidRelationship "historical conflict cache boundary")
      else if bool_decide (p_account_id p ≠ p_account_id (st_projection s))
           || bool_decide (p_genesis_anchor p ≠ p_genesis_anchor (st_projection s))
      then Err AccountMismatch
      else if negb (eb_sequence (ev_body accepted) =? sequence)
           || bool_decide (eb_predecessors (ev_body accepted) ≠ eb_predecessors (ev_body incoming))
      then Err (InvalidRelationship "historical conflict event pair") else
      accepted_id ← event_id accepted;
      incoming_id ← event_id incoming;
      if bool_decide (accepted_id = incoming_id)
      then Err (InvalidRelationship "historical conflict event pair") else
      accepted_epoch ← expected_epoch p (eb_operation (ev_body accepted));
      _ ← validate_event p p accepted accepted_epoch;
      incoming_epoch ← expected_epoch p (eb_operation (ev_body incoming));
      _ ← validate_event p p incoming incoming_epoch;
      '(tip, transitions) ← replay_path (detached_snapshot historical) 0 accepted_path;
      if bool_decide (st_projection tip ≠ st_projection s) then Err StorageCorruption else
      open_fork s incoming incoming_id
        (mkEntry (detached_snapshot historical) None accepted_epoch accepted) (Some transitions)
  end.

Definition validate_and_apply_historical_conflict (s historical : AccountState)
    (accepted_path : list AuthorizedEvent) (incoming : AuthorizedEvent)
    : AccountState * result IdentityError ApplyOutcome :=
  match historical_conflict_inner s historical accepted_path incoming with
  | Ok (s', outcome) => (s', Ok outcome)
  | Err e => (s, Err e)
  end.

(** [AccountState::from_genesis], with an empty history. *)
Definition state_from_genesis (genesis : AccountGenesis) : result IdentityError AccountState :=
  p ← from_genesis genesis;
  Ok (mkState p [] 0 None None).

End Forks.
