(* ===== verification/IdForksHistory.v ===== *)
(** * Facts on the lineage of an account and on its forks *)
From stdpp Require Import base tactics list gmap countable orders sorting strings.
From Stdlib Require Import ZArith Lia Strings.Byte.
From S2P Require Import Prelude Bytes IdTypes SortedVec IdKeys IdPolicy IdPolicyProps IdProviders IdFacts IdApprovals IdGuardians IdCapability IdDevices IdEvidence IdMigration IdRecovery IdEvents IdAccount IdAccountOps IdVerifier IdAccountFacts IdAccountSteps IdAccountPhases IdAccountHistory IdForks.

Local Open Scope N_scope.

Section Facts.
  Context `{HB : Blake3Hash} `{HC : Curve} `{HAW : !AccountWire} `{HFW : !ForkWire}.

#[local] Arguments event_id : simpl never.

(** ** The lineage *)

Lemma evict_Ok l b t n l' b' t' : evict l b t n = Ok (l', b', t') → l' `suffix_of` l.
Proof.
  revert b t. induction l as [|e l IH]; intros b t H; cbn [evict] in H.
  { by injection H as <- <- <-. }
  ok_step H. destruct y; [|by injection H as <- <- <-].
  do 2 ok_step H. apply IH in H. by apply suffix_cons_r.
Qed.

(** An entry is appended to what is kept, unless it alone is too large. *)
Lemma retain_Ok s entry s' : retain_lineage_entry s entry = Ok s' →
  ∃ kept, kept `suffix_of` st_lineage s ∧ st_projection s' = st_projection s ∧ st_fork s' = st_fork s ∧
    (st_lineage s' = kept ++ [entry] ∧ (st_lineage s = [] → st_required_through s' = st_required_through s) ∨
     st_lineage s' = kept).
Proof.
  intros H. unfold retain_lineage_entry in H. do 2 ok_step H. destruct y0 as [[kept b] t].
  exists kept. pose proof (evict_Ok _ _ _ _ _ _ _ Hy0) as Hk. split; [done|].
  destruct (_ <? _); [by apply Ok_injective in H as <-; split_and!; [..|right]|].
  ok_steps H. subst s'. split_and!; [done..|]. left. split; [done|]. intros Hl. rewrite Hl in Hy0. by injection Hy0.
Qed.

(** What a linear step leaves. *)
Record linear_step (s : AccountState) (e : AuthorizedEvent) (id : Digest) (s' : AccountState)
    (effects : list ProjectionEffect) (epoch : N) (kept : list LineageEntry) : Prop := {
  ls_projection : apply_new_linear (st_projection s) (en_event <$> st_lineage s) e id
                  = Ok (st_projection s', effects);
  ls_epoch : expected_epoch (st_projection s) (eb_operation (ev_body e)) = Ok epoch;
  ls_fork : st_fork s' = None;
  ls_kept : kept `suffix_of` st_lineage s;
  ls_lineage : st_lineage s' = kept ++ [mkEntry (detached_snapshot s) None epoch e]
               ∧ (st_lineage s = [] → st_required_through s' = st_required_through s)
               ∨ st_lineage s' = kept;
}.

Lemma apply_linear_Ok s e id s' o : apply_linear s e id = Ok (s', o) →
  ∃ effects epoch kept, linear_step s e id s' effects epoch kept ∧ o = mkOutcome Applied id effects.
Proof.
  intros H. unfold apply_linear in H. ok_step H. destruct y as [p effects]. do 2 ok_step H.
  injection H as <- <-. apply retain_Ok in Hy1 as (kept & Hk & Hp & _ & Hl).
  exists effects, y, kept. split; [|done]. split; cbn in *; try done. by rewrite Hp.
Qed.

(** The lineage only matters for whether an event is refused. *)
Lemma operation_lineage s l1 l2 e id t r1 r2 : apply_operation s l1 e id t = Ok r1 →
  apply_operation s l2 e id t = Ok r2 → r1 = r2.
Proof.
  unfold apply_operation. destruct (eb_operation (ev_body e)); try congruence.
  intros (p1 & o1 & m1 & t1 & q1 & H1 & I1 & ->)%finalize_Ok (p2 & o2 & m2 & t2 & q2 & H2 & I2 & ->)%finalize_Ok.
  pose proof (fz_pending _ _ _ _ _ _ _ _ H1). pose proof (fz_pending _ _ _ _ _ _ _ _ H2). congruence.
Qed.

Lemma linear_lineage s l1 l2 e id s1 fx1 s2 fx2 : apply_new_linear s l1 e id = Ok (s1, fx1) →
  apply_new_linear s l2 e id = Ok (s2, fx2) → s1 = s2.
Proof.
  intros (t1 & a1 & H1 & _)%linear_Ok (t2 & a2 & H2 & _)%linear_Ok.
  pose proof (ad_valid _ _ _ _ _ _ _ H1) as V1. rewrite (ad_valid _ _ _ _ _ _ _ H2) in V1.
  apply Ok_injective in V1 as ->. rewrite (ad_after _ _ _ _ _ _ _ H1), (ad_after _ _ _ _ _ _ _ H2).
  by rewrite (operation_lineage _ _ _ _ _ _ _ _ (ad_applied _ _ _ _ _ _ _ H1) (ad_applied _ _ _ _ _ _ _ H2)).
Qed.

(** ** Conflicts *)

Definition at_position (event : AuthorizedEvent) (id : Digest) (t : LineageEntry) (i : Digest) : bool :=
  bool_decide (i ≠ id) && bool_decide (eb_account_id (ev_body (en_event t)) = eb_account_id (ev_body event))
  && (entry_sequence t =? eb_sequence (ev_body event))
  && bool_decide (eb_predecessors (ev_body (en_event t)) = eb_predecessors (ev_body event)).

Lemma conflict_None e id l : conflict_in e id l = Ok None ↔
  Forall (λ t, ∃ i, event_id (en_event t) = Ok i ∧ at_position e id t i = false) l.
Proof.
  induction l as [|t l IH]; [by split|]. cbn [conflict_in]. rewrite Forall_cons, <-IH, bind_Ok.
  split.
  - intros (i & Hi & H). change (_ && _ && _ && _) with (at_position e id t i) in H.
    destruct (at_position e id t i) eqn:Ha; [done|]. split; [by exists i|done].
  - intros [(i & Hi & Ha) H]. exists i. split; [done|].
    change (_ && _ && _ && _) with (at_position e id t i). by rewrite Ha.
Qed.

Lemma conflict_head e id t i l : event_id (en_event t) = Ok i → at_position e id t i = true →
  conflict_in e id (t :: l) = Ok (Some t).
Proof.
  intros Hi Ha. cbn [conflict_in]. rewrite Hi. cbn [mbind result_bind].
  change (_ && _ && _ && _) with (at_position e id t i). by rewrite Ha.
Qed.

Lemma predecessors_same s b1 b2 : validate_body_predecessors s b1 = Ok () → validate_body_predecessors s b2 = Ok () →
  eb_predecessors b1 = eb_predecessors b2.
Proof.
  unfold validate_body_predecessors. destruct (_ =? 0); rewrite !guard_Ok, !bool_ne_false;
    intros [H1 _] [H2 _]; destruct (eb_predecessors b1), (eb_predecessors b2); cbn in *; congruence.
Qed.

(** ** Events *)

Definition retained (id : Digest) (l : list LineageEntry) : Prop :=
  ∃ t, t ∈ l ∧ event_id (en_event t) = Ok id.

Lemma has_event_id_true id e : has_event_id id e = true ↔ event_id e = Ok id.
Proof.
  unfold has_event_id. destruct (event_id e) as [i|]; [|done]. rewrite bool_decide_eq_true.
  split; [by intros ->|]. by intros ?%Ok_injective.
Qed.

Lemma replay_None s e id : st_fork s = None → try_replay s e id = Ok None ↔ ¬ retained id (st_lineage s).
Proof.
  intros Hf. unfold try_replay. destruct (list_find _ _) as [[i t]|] eqn:Hl.
  - apply list_find_Some in Hl as (Ht & Hid%has_event_id_true & _). split.
    + intros H. do 2 ok_step H. case_bool_decide; [done|]. ok_step H. done.
    + intros []. exists t. split; [by eapply list_elem_of_lookup_2|done].
  - rewrite Hf. split; [|done]. intros _ (t & Hin & Hid). apply list_find_None in Hl.
    rewrite Forall_forall in Hl. apply (Hl t Hin). by apply has_event_id_true.
Qed.

Lemma open_fork_outcome s e id c path s' o : open_fork s e id c path = Ok (s', o) → o = fork_outcome id.
Proof.
  intros H. unfold open_fork in H. destruct (has_fork _ && _).
  - unfold open_resolution_fork in H. destruct (st_fork (en_pre_state c)); [|done]. cbv zeta in H. ok_step H.
    destruct (lineage_from _ _); [|done]. ok_step H. destruct y0. ok_step H. destruct y0. do 3 ok_step H.
    by injection H as <- <-.
  - cbv zeta in H. do 5 ok_step H. destruct y3. ok_step H. destruct y3. do 4 ok_step H. by injection H as <- <-.
Qed.

(** The event is new to a state without a fork. *)
Lemma replay_outcome s e id s' o : try_replay s e id = Ok (Some (s', o)) →
  oc_disposition o = Replay ∨ oc_disposition o = ApprovalsMerged.
Proof.
  unfold try_replay. intros H. destruct (list_find _ (st_lineage s)) as [[i t]|].
  - do 2 ok_step H. case_bool_decide; [injection H as _ <-; by left|]. ok_step H. injection H as _ <-. by right.
  - destruct (st_fork s) as [[? ? ? ? branches]|]; [|done]. destruct (fork_matches id branches); [done|].
    ok_step H. destruct (existsb _ _); [|injection H as _ <-; by left]. cbv zeta in H. ok_step H.
    injection H as _ <-. by right.
Qed.

Lemma inner_applied s e s' o : st_fork s = None → validate_and_apply_inner s e = Ok (s', o) →
  oc_disposition o = Applied →
  ∃ id, event_id e = Ok id ∧ ¬ retained id (st_lineage s) ∧
    find_lineage_conflict s e id = Ok None ∧ apply_linear s e id = Ok (s', o).
Proof.
  intros Hf H Ho. unfold validate_and_apply_inner in H. do 2 ok_step H. unfold has_fork in H. rewrite Hf in H.
  destruct y0 as [r|].
  { apply Ok_injective in H as ->. apply replay_outcome in Hy0. destruct Hy0; congruence. }
  ok_step H. exists y. destruct y0 as [c|].
  - apply open_fork_outcome in H as ->. done.
  - split_and!; [done|by apply (replay_None s e)|done|]. by destruct (_ && _).
Qed.

Lemma inner_forked s e s' o : st_fork s = None → validate_and_apply_inner s e = Ok (s', o) →
  oc_disposition o = ForkDetected →
  ∃ id c, event_id e = Ok id ∧ ¬ retained id (st_lineage s) ∧
    find_lineage_conflict s e id = Ok (Some c) ∧ open_fork s e id c None = Ok (s', o).
Proof.
  intros Hf H Ho. unfold validate_and_apply_inner in H. do 2 ok_step H. unfold has_fork in H. rewrite Hf in H.
  destruct y0 as [r|].
  { apply Ok_injective in H as ->. apply replay_outcome in Hy0. destruct Hy0; congruence. }
  ok_step H. destruct y0 as [c|].
  - exists y, c. split_and!; [done|by apply (replay_None s e)|done..].
  - exfalso. destruct (_ && _); [done|]. apply apply_linear_Ok in H as (? & ? & ? & _ & ->). done.
Qed.

(** What opening a fork at a state without a fork computes. *)
Definition ancestor_of (p : Projection) : result IdentityError ForkCommonAncestor :=
  if p_sequence p =? 0 then Ok (AncestorGenesis (p_genesis_anchor p))
  else match p_heads p with [head] => Ok (AncestorEvent head) | _ => Err StorageCorruption end.

Lemma open_fork_Ok s e id c s' o : open_fork s e id c None = Ok (s', o) → st_fork (en_pre_state c) = None →
  let common := detached_snapshot (en_pre_state c) in
  ∃ cid path right o1 t rs branches ancestor,
    event_id (en_event c) = Ok cid ∧ lineage_from cid (st_lineage s) = Some path ∧
    apply_linear common e id = Ok (right, o1) ∧ transition_of right = Ok (t, rs) ∧
    sort_fork_branches [mkBranch path (detached_snapshot s); mkBranch [t] rs] = Ok branches ∧
    ancestor_of (st_projection common) = Ok ancestor ∧ forked_state common ancestor e branches = Ok s'.
Proof.
  intros H Hf. unfold open_fork in H. unfold has_fork in H. rewrite Hf in H. cbn [andb] in H. cbv zeta in H.
  do 3 ok_step H. ok_step H. destruct (lineage_from _ _) as [path|] eqn:Hp; [|done]. apply Ok_injective in Hy2 as <-.
  ok_step H. destruct y2 as [right o1]. ok_step H. destruct y2 as [t rs]. do 4 ok_step H.
  injection H as <- _. eexists _, _, _, _, _, _, _, _. by split_and!.
Qed.

(** The branch of one event from a state. *)
Definition branch_of (s s' : AccountState) (epoch : N) (e : AuthorizedEvent) : ForkBranch :=
  mkBranch [mkEntry (detached_snapshot s) None epoch e]
    (mkState (st_projection s') [] 0 (st_required_through s) None).

Lemma branch_of_id s s' epoch e : fork_branch_event_id (branch_of s s' epoch e) = event_id e.
Proof. done. Qed.

Lemma sort_swap b1 b2 i1 i2 : fork_branch_event_id b1 = Ok i1 → fork_branch_event_id b2 = Ok i2 → i1 ≠ i2 →
  sort_fork_branches [b1; b2] = sort_fork_branches [b2; b1].
Proof.
  intros H1 H2 Hne.
  assert (Hs : ∀ c d i j, fork_branch_event_id c = Ok i → fork_branch_event_id d = Ok j →
    sort_fork_branches [c; d] = Ok (snd <$> sort_by digest_le fst [(i, c); (j, d)])).
  { intros c d i j Hc Hd. unfold sort_fork_branches. cbn [fmap list_fmap]. by rewrite Hc, Hd. }
  rewrite (Hs _ _ _ _ H1 H2), (Hs _ _ _ _ H2 H1).
  rewrite (sort_by_proper digest_le fst [(i1, b1); (i2, b2)] [(i2, b2); (i1, b1)]); [done|apply Permutation_swap|].
  cbn. apply NoDup_cons. split; [by rewrite list_elem_of_singleton|]. apply NoDup_singleton.
Qed.

(** The right branch of a fork at [s]. *)
Lemma right_branch s e id right o t rs s' effects epoch kept : st_fork s = None →
  apply_linear (detached_snapshot s) e id = Ok (right, o) → transition_of right = Ok (t, rs) →
  linear_step s e id s' effects epoch kept → mkBranch [t] rs = branch_of s s' epoch e.
Proof.
  intros Hf (fx & ep & k & [Hp He _ Hk Hl] & _)%apply_linear_Ok Ht [Hp' He' _ _ _].
  cbn in Hp, He, Hk. rewrite He' in He. apply Ok_injective in He as <-.
  apply suffix_nil_inv in Hk as ->. unfold transition_of in Ht.
  destruct Hl as [[Hl Hr]|Hl]; rewrite Hl in Ht; [|done]. injection Ht as <- <-.
  specialize (Hr eq_refl). cbn in Hr. unfold branch_of, detached_snapshot. cbn. rewrite Hr.
  by rewrite (linear_lineage _ _ _ _ _ _ _ _ _ Hp Hp').
Qed.

(** ** Resolutions *)

Lemma foldl_max_ge v l : v ≤ foldl N.max v l ∧ ∀ x, x ∈ l → x ≤ foldl N.max v l.
Proof.
  revert v. induction l as [|a l IH]; intros v; cbn; [split; [done|by intros x ?%not_elem_of_nil]|].
  destruct (IH (N.max v a)) as [H1 H2]. split; [lia|]. intros x [->|Hx]%elem_of_cons; [lia|by apply H2].
Qed.

Lemma max_of_Ok l m : max_of l = Ok m → ∀ x, x ∈ l → x ≤ m.
Proof.
  destruct l as [|v l]; [done|]. intros [= <-] x. destruct (foldl_max_ge v l) as [H1 H2].
  intros [->|Hx]%elem_of_cons; [done|by apply H2].
Qed.

(** What a resolution was checked for, and the state after it. *)
Record resolution_step (s : AccountState) (e : AuthorizedEvent) (id : Digest) (s' : AccountState)
    (resolution : ResolveFork) (fork : ForkProjection) (selected : ForkBranch) (time : option N)
    (resolved : Projection) : Prop := {
  rs_operation : eb_operation (ev_body e) = ResolveForkOp resolution;
  rs_fork : st_fork s = Some fork;
  rs_account : fd_account_id (rf_fork resolution) = p_account_id (st_projection s);
  rs_heads : fd_heads (rf_fork resolution) = p_heads (st_projection s);
  rs_ancestor : fd_common_ancestor (rf_fork resolution) = fk_common_ancestor fork;
  rs_selected : selected ∈ fk_branches fork;
  rs_head : fork_branch_event_id selected = Ok (rf_selected_head resolution);
  rs_epoch : ∀ b, b ∈ fk_branches fork → p_epoch (branch_projection b) < eb_resulting_epoch (ev_body e);
  rs_valid : validate_event (st_projection s) (st_projection (fk_common_state fork)) e
               (eb_resulting_epoch (ev_body e)) = Ok time;
  rs_resolved : resolved_projection (branch_projection selected) resolution = Ok resolved;
  rs_retained : retain_lineage_entry
      (mkState (set_position (eb_sequence (ev_body e)) (eb_resulting_epoch (ev_body e)) [id] resolved) [] 0
         (st_required_through (br_projected_state selected)) None)
      (mkEntry (without_lineage s) (Some (detached_snapshot (fk_common_state fork)))
         (eb_resulting_epoch (ev_body e)) e) = Ok s';
}.

Lemma valid_epoch p authority e epoch time : validate_event p authority e epoch = Ok time →
  eb_resulting_epoch (ev_body e) = epoch ∧ eb_sequence (ev_body e) = p_sequence p + 1 ∧
  validate_body_predecessors p (ev_body e) = Ok ().
Proof.
  intros H. unfold validate_event in H. cbv zeta in H. ok_step H. ok_step H. destruct y.
  apply position_Ok in Hy as (? & ? & ?). bool_hyps. by split_and!.
Qed.

Lemma resolution_Ok s e id s' o : apply_fork_resolution s e id = Ok (s', o) →
  ∃ resolution fork selected time resolved, resolution_step s e id s' resolution fork selected time resolved.
Proof.
  intros H. unfold apply_fork_resolution in H. destruct (eb_operation (ev_body e)) as [| | | | | | | | | | | | | | | |resolution| | | | |] eqn:Hop; try done.
  destruct (st_fork s) as [fork|] eqn:Hf; [|done]. do 2 (ok_step H). bool_hyps.
  destruct (List.find _ _) as [selected|] eqn:Hsel; [|done]. ok_steps H.
  apply List.find_some in Hsel as [Hin Hhead]. apply list_elem_of_In in Hin.
  apply checked_add_Ok in Hy0 as [-> _].
  destruct (valid_epoch _ _ _ _ _ Hy1) as [He _]. injection H as -> _. rewrite <-He in *.
  exists resolution, fork, selected, y1, y2. split; try done; try by apply dec_stable.
  - unfold is_selected in Hhead. destruct (fork_branch_event_id selected); [|done]. by bool_hyps; subst.
  - intros b Hb. apply (list_elem_of_fmap_2 (p_epoch ∘ branch_projection)), (max_of_Ok _ _ Hy) in Hb.
    cbn in Hb. lia.
Qed.

End Facts.

(** * Accounts: what every history keeps, forks included

    The invariant of a projection holds for every state a history retains: the one in
    force, those its lineage was validated against, and the branches of a fork. *)

Section History.
  Context `{HB : Blake3Hash} `{HC : Curve} `{HAW : !AccountWire} `{HFW : !ForkWire}.

#[local] Arguments event_id : simpl never.
#[local] Arguments retain_lineage_entry : simpl never.

(** ** The size of a lineage *)

Inductive sized : list LineageEntry → N → Prop :=
| sized_nil : sized [] 0
| sized_cons t n l b : lineage_entry_evidence_bytes t = Ok n → sized l b → sized (t :: l) (n + b).

Definition lineage_ok (l : list LineageEntry) (b : N) : Prop :=
  sized l b ∧ len l ≤ MAX_HISTORY_PAGE_EVENTS ∧ b ≤ MAX_HISTORY_PAGE_BYTES.

Lemma sized_snoc l b t n : sized l b → lineage_entry_evidence_bytes t = Ok n → sized (l ++ [t]) (b + n).
Proof.
  intros H Ht. induction H as [|u m l b Hu _ IH]; cbn.
  - rewrite N.add_comm. by constructor; [|constructor].
  - rewrite <-N.add_assoc. by constructor.
Qed.

(** Dropping entries makes room for one, or leaves none. *)
Lemma evict_sized l b through n l' b' through' : evict l b through n = Ok (l', b', through') → lineage_ok l b →
  lineage_ok l' b' ∧ (l' = [] ∨ len l' < MAX_HISTORY_PAGE_EVENTS ∧ b' + n ≤ MAX_HISTORY_PAGE_BYTES).
Proof.
  intros H (Hs & Hl & Hb). revert through H. induction Hs as [|t m l b Ht Hs IH]; intros through H; cbn [evict] in H.
  { injection H as <- <- <-. split; [|by left]. split_and!; [constructor|done..]. }
  unfold len in *. cbn [length] in *. ok_step H. destruct y; [|].
  - rewrite Ht in H. cbn [mbind result_bind] in H. destruct (_ <? _); [done|].
    rewrite (N.add_comm m b), N.add_sub in H. by apply IH in H; [|lia..].
  - injection H as <- <- <-. destruct (_ <=? _) eqn:Hc; [done|]. ok_step Hy. apply checked_add_Ok in Hy0 as [-> _].
    apply Ok_injective in Hy. apply N.ltb_ge in Hy. apply N.leb_gt in Hc. split; [|right; cbn; lia].
    split_and!; [by constructor|cbn; unfold len; cbn; lia|lia].
Qed.

(** ** The invariant *)

Inductive state_ok : AccountState → Prop :=
| linear_state_ok p l b through : account_ok p → Forall entry_ok l → lineage_ok l b →
    state_ok (mkState p l b through None)
| forked_state_ok p l b through fork : fork_ok p fork → Forall entry_ok l → lineage_ok l b →
    state_ok (mkState p l b through (Some fork))
with entry_ok : LineageEntry → Prop :=
| entry_ok_intro pre authority epoch e : state_ok pre → authority_state_ok authority →
    entry_ok (mkEntry pre authority epoch e)
with authority_state_ok : option AccountState → Prop :=
| no_authority_ok : authority_state_ok None
| some_authority_ok s : state_ok s → authority_state_ok (Some s)
with branch_ok : ForkBranch → Prop :=
| branch_ok_intro transitions s : Forall entry_ok transitions → state_ok s → st_fork s = None →
    branch_ok (mkBranch transitions s)
with fork_ok : Projection → ForkProjection → Prop :=
| fork_ok_intro common ancestor sequence predecessors branches position heads :
    state_ok common → st_fork common = None → Forall branch_ok branches →
    2 ≤ len branches ≤ MAX_FORK_HEADS → fork_head_ids branches = Ok heads →
    fork_ok (set_lifecycle LifeForked
               (set_position position (p_epoch (st_projection common)) heads (st_projection common)))
      (mkFork common ancestor sequence predecessors branches).

Lemma lineage_nil_ok : lineage_ok [] 0.
Proof. split_and!; [constructor|done..]. Qed.

Lemma linear_account s : state_ok s → st_fork s = None → account_ok (st_projection s).
Proof. by destruct 1. Qed.

Lemma state_lineage s : state_ok s → Forall entry_ok (st_lineage s) ∧ lineage_ok (st_lineage s) (st_lineage_bytes s).
Proof. by destruct 1. Qed.

Lemma detached_ok s : account_ok (st_projection s) → state_ok (detached_snapshot s).
Proof. intros H. constructor; [done|constructor|apply lineage_nil_ok]. Qed.

Lemma without_lineage_ok s : state_ok s → state_ok (without_lineage s).
Proof. destruct 1; constructor; try done; try constructor; apply lineage_nil_ok. Qed.

(** A linear event does not apply to the projection of a fork. *)
Lemma linear_source s s0 e id r : state_ok s → st_projection s0 = st_projection s →
  apply_linear s0 e id = Ok r → account_ok (st_projection s).
Proof.
  intros Hs Hp H. destruct r as [s' o]. apply apply_linear_Ok in H as (fx & ep & k & [Hl _ _ _ _] & _).
  rewrite Hp in Hl. apply linear_Ok in Hl as (t & a & [Hg _ _ _ _ _ _ _] & _).
  destruct Hs as [|? ? ? ? ? Hf]; [done|]. by destruct Hf.
Qed.

Lemma retain_keeps s entry s' : retain_lineage_entry s entry = Ok s' →
  Forall entry_ok (st_lineage s) → lineage_ok (st_lineage s) (st_lineage_bytes s) → entry_ok entry →
  Forall entry_ok (st_lineage s') ∧ lineage_ok (st_lineage s') (st_lineage_bytes s') ∧
  st_projection s' = st_projection s ∧ st_fork s' = st_fork s.
Proof.
  intros H Hl Hz He. unfold retain_lineage_entry in H. do 2 ok_step H. destruct y0 as [[kept b] t].
  pose proof (evict_Ok _ _ _ _ _ _ _ Hy0) as [drop Hd].
  assert (Forall entry_ok kept) by (rewrite Hd in Hl; by apply Forall_app in Hl as [_ ?]).
  apply evict_sized in Hy0 as [Hk Hroom]; [|done]. destruct (_ <? _) eqn:Hbig.
  { by apply Ok_injective in H as <-. }
  ok_steps H. subst s'. apply checked_add_Ok in Hy0 as [-> _]. apply N.ltb_ge in Hbig. cbn.
  split_and!; [by apply Forall_app; repeat constructor| |done..].
  destruct Hk as (Hk & ? & ?). split; [by apply sized_snoc|].
  unfold len in *. rewrite length_app. cbn. destruct Hroom as [->|[? ?]]; [|lia].
  inversion Hk; subst. cbn. unfold MAX_HISTORY_PAGE_EVENTS. lia.
Qed.

(** ** Linear steps *)

Lemma linear_keeps s e id s' o : apply_linear s e id = Ok (s', o) → operation_built (eb_operation (ev_body e)) →
  event_built e → state_ok s → state_ok s' ∧ st_fork s' = None.
Proof.
  intros H Hb He Hs. pose proof (linear_source s s e id _ Hs eq_refl H) as Ha.
  destruct (state_lineage s Hs) as [Hl Hz]. unfold apply_linear in H. ok_step H. destruct y as [p effects].
  do 2 ok_step H. injection H as <- _. split; [|done].
  apply retain_keeps in Hy1 as (Hl' & Hz' & Hp & _); [|done..|].
  - cbn in Hp. rewrite Hp. constructor; [|done..].
    apply (step_ok (st_projection s)); [|done]. by exists (en_event <$> st_lineage s), e, id, effects.
  - constructor; [by apply detached_ok|constructor].
Qed.

(** ** Resolutions *)

Lemma revoke_controllers_Ok ids p p' : revoke_controllers p ids = Ok p' →
  ascending digest_le pc_id (p_active_controllers p) → ascending digest_le pc_id (p_revoked_controllers p) →
  ∃ active revoked, p' = set_controllers active revoked p ∧
    active ++ revoked ≡ₚ p_active_controllers p ++ p_revoked_controllers p ∧
    active ⊆ p_active_controllers p ∧ ascending digest_le pc_id active ∧ ascending digest_le pc_id revoked.
Proof.
  revert p. induction ids as [|id ids IH]; intros p H Ha Hr; cbn [revoke_controllers] in H.
  { apply Ok_injective in H as <-. exists (p_active_controllers p), (p_revoked_controllers p). by destruct p. }
  ok_step H. unfold revoke_controller_for_resolution in Hy. case_bool_decide.
  { apply Ok_injective in Hy as ->. by apply IH. }
  destruct (search _ _ _ _) as [i|i]; [|done]. destruct (_ !! i) as [c|] eqn:Hi; [|done].
  ok_step Hy. apply Ok_injective in Hy as <-. apply insert_revoked_Ok in Hy0 as [Hperm Hasc]; [|done].
  pose proof (delete_Permutation _ _ _ Hi) as Hd.
  apply IH in H as (active & revoked & -> & Hp & Hsub & ? & ?); cbn in *; [|by apply delete_ascending|done].
  revert Hp Hsub Hd. generalize (delete i (p_active_controllers p)). intros rest Hp Hsub Hd.
  exists active, revoked. split_and!; [done| | |done..].
  - rewrite Hp, Hperm, Hd. cbn. by rewrite <-Permutation_middle.
  - intros x Hx. rewrite Hd. right. by apply Hsub.
Qed.

Lemma revoke_devices_same ids p p' : revoke_devices p ids = Ok p' → same_devices p p'.
Proof.
  revert p. induction ids as [|id ids IH]; intros p H; cbn [revoke_devices] in H.
  { apply Ok_injective in H as <-. exists (p_devices p). by destruct p. }
  ok_step H. destruct y as [i d]. apply IH in H as (devices & -> & Hv).
  destruct (put_same p id i d (set_device_lifecycle DeviceIsRevoked d) Hy eq_refl) as (ds & Hput & Hv').
  exists devices. rewrite Hput in *. cbn in *. split; [done|by rewrite Hv].
Qed.

Lemma resolved_ok p resolution p' : resolved_projection p resolution = Ok p' → authority_ok p →
  authority_ok p' ∧ (lifecycle_ok p → lifecycle_ok p').
Proof.
  intros H [Hc [? ? ? ? ?] Hd Hk Hp]. unfold resolved_projection in H. do 3 ok_step H. do 2 ok_step H.
  apply Ok_injective in H as <-. pose proof Hc as [? ? _ _ _ _ _].
  apply revoke_controllers_Ok in Hy as (active & revoked & -> & Hperm & Hsub & ? & ?); [|done..].
  pose proof (revoke_devices_same _ _ _ Hy0) as Hsame. pose proof Hsame as (devices & -> & _).
  split; [|done]. cbn in *. eapply same_devices_ok; [done|]. destruct y1, y2. bool_hyps. split; cbn; try done.
  - by eapply controllers_ok_permuted.
  - eapply devices_ok_keys; [|by left|exact Hd]. intros c' Hin. left. by rewrite <-Hperm.
  - eapply crypto_ok_subset; [|exact Hk]. set_solver.
Qed.

Lemma resolution_keeps s e id s' o : apply_fork_resolution s e id = Ok (s', o) → state_ok s →
  state_ok s' ∧ st_fork s' = None.
Proof.
  intros (resolution & fork & selected & time & resolved & H)%resolution_Ok Hs.
  destruct H as [_ Hf _ _ _ Hin _ _ Hv Hr Hret].
  destruct Hs as [|p l b through fork' Hok Hl Hz]; cbn in Hf; [done|]. injection Hf as ->.
  pose proof Hok as Hok'. destruct Hok' as [common ? ? ? branches ? ? Hcom Hnone Hbr _ _]. cbn in Hin.
  rewrite Forall_forall in Hbr. specialize (Hbr _ Hin). destruct Hbr as [ts ps _ Hps Hpf]. cbn in Hr.
  destruct (linear_account _ Hps Hpf) as [Ha Hli _].
  destruct (resolved_ok _ _ _ Hr Ha) as [Ha' Hli'].
  apply retain_keeps in Hret as (Hl' & Hz' & Hp & Hf'); cbn in *.
  - split; [|done]. destruct s' as [p' l' b' t' f']. cbn in *. subst p' f'. constructor; [|done..].
    split; [by apply position_kept|by apply Hli'|]. cbn.
    destruct (valid_epoch _ _ _ _ _ Hv) as (_ & -> & _). cbn. by rewrite (proj2 (N.eqb_neq _ _)) by lia.
  - constructor.
  - apply lineage_nil_ok.
  - constructor; [|constructor; by apply detached_ok, linear_account].
    constructor; [done|constructor|apply lineage_nil_ok].
Qed.

Lemma transition_keeps s t s' : transition_of s = Ok (t, s') → state_ok s → st_fork s = None →
  entry_ok t ∧ state_ok s' ∧ st_fork s' = None.
Proof.
  unfold transition_of. intros H Hs Hf. destruct (last (st_lineage s)) as [u|] eqn:Hl; [|done].
  injection H as -> <-. split_and!; [|by apply detached_ok, linear_account|done].
  destruct (state_lineage s Hs) as [Hall _]. rewrite Forall_forall in Hall. apply Hall, last_Some_elem_of, Hl.
Qed.

Lemma project_keeps s e id t s' : project_transition s e id = Ok (t, s') → event_built e →
  operation_built (eb_operation (ev_body e)) → state_ok s → entry_ok t ∧ state_ok s' ∧ st_fork s' = None.
Proof.
  unfold project_transition. intros H He Hb Hs. ok_step H. destruct y as [s1 o].
  assert (Hok : state_ok s1 ∧ st_fork s1 = None); [|destruct Hok; by apply (transition_keeps s1)].
  destruct (_ && _).
  - eapply resolution_keeps; [done|]. by apply without_lineage_ok.
  - eapply linear_keeps; [done..|]. apply detached_ok.
    by apply (linear_source s (detached_snapshot s) e id (s1, o)).
Qed.

(** ** Forks *)

Lemma sort_fork_Ok branches branches' : sort_fork_branches branches = Ok branches' → branches' ≡ₚ branches.
Proof.
  unfold sort_fork_branches. intros H. ok_steps H. subst branches'. rewrite sort_by_Permutation.
  apply collect_fmap_Ok in Hy. clear -Hy. induction Hy as [|b [i c] l k Hb _ IH]; [done|].
  cbn. rewrite IH. ok_steps Hb. by simplify_eq.
Qed.

Lemma forked_keeps common ancestor e branches s' : forked_state common ancestor e branches = Ok s' →
  state_ok common → st_fork common = None → Forall branch_ok branches →
  2 ≤ len branches ≤ MAX_FORK_HEADS → state_ok s'.
Proof.
  unfold forked_state. intros H Hc Hf Hb Hlen. do 2 ok_step H. apply Ok_injective in H as <-.
  constructor; [by constructor|constructor|apply lineage_nil_ok].
Qed.

Lemma path_keeps id l path : lineage_from id l = Some path → Forall entry_ok l → Forall entry_ok path.
Proof.
  unfold lineage_from. destruct (list_find _ _) as [[i t]|]; [|done]. intros [= <-]. apply Forall_drop.
Qed.

(** A fork of two branches. *)
Lemma two_branches common ancestor e left right branches s' :
  sort_fork_branches [left; right] = Ok branches → forked_state common ancestor e branches = Ok s' →
  branch_ok left → branch_ok right → state_ok common → st_fork common = None → state_ok s'.
Proof.
  intros Hs%sort_fork_Ok H Hl Hr Hc Hf. eapply forked_keeps; [done..| |].
  - rewrite Hs. by repeat constructor.
  - unfold len. rewrite Hs. cbn. unfold MAX_FORK_HEADS. lia.
Qed.

Lemma open_keeps s e id c path s' o : open_fork s e id c path = Ok (s', o) → event_built e →
  operation_built (eb_operation (ev_body e)) → account_ok (st_projection s) → Forall entry_ok (st_lineage s) →
  entry_ok c → (∀ l, path = Some l → Forall entry_ok l) → state_ok s'.
Proof.
  intros H He Hb Hs Hl Hc Hpath. destruct Hc as [pre authority epoch ev Hpre _]. unfold open_fork in H.
  cbn [en_pre_state en_event] in H. destruct (has_fork pre && is_resolution e).
  - unfold open_resolution_fork in H. cbn [en_pre_state en_event] in H. destruct (st_fork pre) as [original|] eqn:Hf; [|done].
    cbv zeta in H. ok_step H. destruct (lineage_from _ _) as [left|] eqn:Hleft; [|done].
    ok_step H. destruct y0 as [s1 o1]. ok_step H. destruct y0 as [t rs]. do 3 ok_step H. injection H as <- _.
    destruct (resolution_keeps _ _ _ _ _ Hy0 Hpre). destruct (transition_keeps _ _ _ Hy1) as (? & ? & ?); [done..|].
    assert (Hcom : account_ok (st_projection (fk_common_state original))).
    { destruct Hpre as [|? ? ? ? ? Hfk]; [done|]. injection Hf as ->. destruct Hfk. by apply linear_account. }
    eapply two_branches; [done..| | |by apply detached_ok|done].
    + constructor; [by eapply path_keeps|by apply detached_ok|done].
    + constructor; [by repeat constructor|done..].
  - cbv zeta in H. do 4 ok_step H. ok_step H. destruct y3 as [s1 o1]. ok_step H. destruct y3 as [t rs].
    do 4 ok_step H. injection H as <- _.
    assert (Hcom : account_ok (st_projection pre))
      by by apply (linear_source pre (detached_snapshot pre) e id (s1, o1)).
    destruct (linear_keeps _ _ _ _ _ Hy3) as [? ?]; [done..|by apply detached_ok|].
    destruct (transition_keeps _ _ _ Hy4) as (? & ? & ?); [done..|].
    eapply two_branches; [done..| | |by apply detached_ok|done].
    + constructor; [|by apply detached_ok|done]. destruct path as [l|].
      * apply Ok_injective in Hy2 as <-. by apply Hpath.
      * destruct (lineage_from _ _) eqn:Hleft; [|done]. apply Ok_injective in Hy2 as <-. by eapply path_keeps.
    + constructor; [by repeat constructor|done..].
Qed.

(** ** While forked *)

Lemma conflicting_keeps e branches before c : conflicting e branches = Some (before, c) →
  Forall branch_ok branches → Forall entry_ok before ∧ entry_ok c.
Proof.
  intros H Hb. induction Hb as [|b branches Hb Hbs IH]; cbn [conflicting] in H; [done|].
  destruct (list_find _ _) as [[i t]|] eqn:Hfind; [|by apply IH]. injection H as <- <-.
  apply list_find_Some in Hfind as (Hi & _). destruct Hb as [ts s Hts _ _]. cbn in *.
  split; [by apply Forall_take|]. by eapply Forall_lookup_1.
Qed.

Lemma grow_keeps branches e id branches' : grow_branches branches e id = Ok branches' → event_built e →
  operation_built (eb_operation (ev_body e)) → Forall branch_ok branches → len branches ≤ MAX_FORK_HEADS →
  Forall branch_ok branches' ∧ len branches ≤ len branches' ≤ MAX_FORK_HEADS.
Proof.
  unfold grow_branches, len. intros H He Hb Hbs Hlen.
  destruct (list_find _ _) as [[i parent]|] eqn:Hfind.
  - apply list_find_Some in Hfind as (Hi & _). ok_step H. destruct y as [t s]. apply Ok_injective in H as <-.
    rewrite length_insert. split; [|lia]. apply Forall_insert; [done|].
    pose proof (Forall_lookup_1 _ _ _ _ Hbs Hi) as Hp. destruct Hp as [ts ps Hts Hps _]. cbn in *.
    apply project_keeps in Hy as (? & ? & ?); [|done..]. constructor; [|done..]. by apply Forall_app; repeat constructor.
  - destruct (conflicting e branches) as [[before c]|] eqn:Hc; [|done].
    apply conflicting_keeps in Hc as [Hbe Hce]; [|done]. ok_step H. ok_step H. destruct y as [t s].
    apply Ok_injective in H as <-. destruct Hce as [pre ? ? ? Hpre _]. cbn in Hy.
    apply project_keeps in Hy as (? & ? & ?); [|done..]. rewrite length_app. cbn.
    apply N.leb_gt in Hc. split; [|lia]. apply Forall_app. split; [done|]. constructor; [|constructor].
    constructor; [|done..]. by apply Forall_app; repeat constructor.
Qed.

Lemma while_forked_keeps s e id s' o : apply_while_forked s e id = Ok (s', o) → event_built e →
  operation_built (eb_operation (ev_body e)) → state_ok s → state_ok s'.
Proof.
  unfold apply_while_forked. intros H He Hb Hs. cbv zeta in H. destruct (_ && _).
  { by eapply resolution_keeps. }
  destruct Hs as [|p l b through fork Hfork Hl Hz]; cbn [st_fork] in H; [done|].
  destruct Hfork as [common ancestor sequence predecessors branches position heads Hcom Hf Hbs Hlen Hheads].
  do 6 ok_step H. injection H as <- _. cbn.
  apply grow_keeps in Hy as [Hbs' Hlen']; [|done..|lia]. apply sort_fork_Ok in Hy0.
  assert (Forall branch_ok y0) by by rewrite Hy0. assert (len y0 = len y) by (unfold len; by rewrite Hy0).
  constructor; [|done..].
  apply (fork_ok_intro common ancestor sequence predecessors y0 y2 y3); try done. lia.
Qed.

(** ** Replays *)

Lemma with_event_ok t e : entry_ok t → entry_ok (with_event t e).
Proof. destruct 1. by constructor. Qed.

Lemma retain_all_keeps entries s s' : retain_all s entries = Ok s' → Forall entry_ok entries →
  Forall entry_ok (st_lineage s) → lineage_ok (st_lineage s) (st_lineage_bytes s) →
  Forall entry_ok (st_lineage s') ∧ lineage_ok (st_lineage s') (st_lineage_bytes s') ∧
  st_projection s' = st_projection s ∧ st_fork s' = st_fork s.
Proof.
  revert s. induction entries as [|t entries IH]; intros s H Hes Hl Hz; cbn [retain_all] in H.
  { by apply Ok_injective in H as <-. }
  apply Forall_cons in Hes as [Ht Hes]. ok_step H. apply retain_keeps in Hy as (? & ? & <- & <-); [|done..].
  by apply IH.
Qed.

(** Merged evidence keeps the identifier of its event. *)
Lemma merge_evidence_id retained incoming merged : merge_event_evidence retained incoming = Ok merged →
  event_id merged = event_id retained ∧ event_id incoming = event_id retained.
Proof.
  unfold merge_event_evidence, event_id. intros H. ok_step H. bool_hyps. apply dec_stable in H0, H1. ok_step H.
  rewrite <-H0, <-H1. split; [|done]. case_bool_decide; [by apply Ok_injective in H as ->|].
  unfold event_new in H. repeat ok_step H. by apply Ok_injective in H as <-.
Qed.

Lemma merge_matches_id e merged entries r : merge_matches e merged entries = Ok r →
  event_id r = event_id merged.
Proof.
  revert merged. induction entries as [|t entries IH]; intros merged H; cbn [merge_matches] in H.
  { by apply Ok_injective in H as ->. }
  do 2 ok_step H. apply IH in H as ->. apply merge_evidence_id in Hy0 as [-> ->]. done.
Qed.

Lemma replace_ok id e b : branch_ok b → branch_ok (replace_matches id e b).
Proof.
  destruct 1 as [ts s Hts Hs Hf]. constructor; [|done..]. apply Forall_fmap. eapply Forall_impl; [done|].
  intros t Ht. cbn. destruct (has_event_id _ _); [by apply with_event_ok|done].
Qed.

Lemma replace_head id e b : event_id e = Ok id →
  fork_branch_event_id (replace_matches id e b) = fork_branch_event_id b.
Proof.
  intros He. destruct b as [ts s]. unfold fork_branch_event_id. cbn. rewrite fmap_last.
  destruct (last ts) as [t|]; [|done]. cbn. destruct (has_event_id id (en_event t)) eqn:Ht; [|done].
  apply has_event_id_true in Ht. cbn. congruence.
Qed.

Lemma replace_heads id e branches : event_id e = Ok id →
  fork_head_ids (replace_matches id e <$> branches) = fork_head_ids branches.
Proof.
  intros He. unfold fork_head_ids. f_equal. rewrite <-list_fmap_compose. apply list_fmap_ext.
  intros i b _. by apply replace_head.
Qed.

Lemma replay_keeps s e id s' o : try_replay s e id = Ok (Some (s', o)) → event_id e = Ok id →
  state_ok s → state_ok s'.
Proof.
  unfold try_replay. intros H Hid Hs. destruct (state_lineage s Hs) as [Hl Hz].
  destruct (list_find _ (st_lineage s)) as [[i t]|] eqn:Hfind.
  - do 2 ok_step H. case_bool_decide; [by injection H as <- _|]. ok_step H. injection H as <- _.
    apply list_find_Some in Hfind as (Hi & _). unfold normalize_lineage_bound in Hy1.
    apply retain_all_keeps in Hy1 as (Hl' & Hz' & Hp & Hf); cbn in *; [|..].
    + destruct y1 as [p' l' b' t' f']. cbn in *. subst p' f'. by destruct Hs; constructor.
    + apply Forall_insert; [done|]. by eapply with_event_ok, Forall_lookup_1.
    + constructor.
    + apply lineage_nil_ok.
  - destruct Hs as [|p l b through fork Hfork ? ?]; cbn [st_fork] in H; [done|].
    destruct Hfork as [common ancestor sequence predecessors branches position heads Hcom Hf Hbs Hlen Hheads].
    destruct (fork_matches id branches) as [|t ts]; [done|]. ok_step H. apply merge_matches_id in Hy.
    destruct (existsb _ _).
    + cbv zeta in H. ok_step H. injection H as <- _. cbn. constructor; [|done..]. constructor; try done.
      * apply Forall_fmap. eapply Forall_impl; [done|]. intros. by apply replace_ok.
      * unfold len in *. by rewrite length_fmap.
      * rewrite replace_heads; [done|]. by rewrite Hy.
    + injection H as <- _. constructor; [|done..]. by constructor.
Qed.

(** ** Events *)

Lemma conflict_in_elem e id l c : conflict_in e id l = Ok (Some c) → c ∈ l.
Proof.
  induction l as [|t l IH]; cbn [conflict_in]; intros H; [done|]. cbv zeta in H. ok_step H.
  destruct (_ && _); [injection H as <-; left|right; by apply IH].
Qed.

Lemma inner_keeps s e s' o : validate_and_apply_inner s e = Ok (s', o) → event_built e →
  operation_built (eb_operation (ev_body e)) → state_ok s → state_ok s'.
Proof.
  unfold validate_and_apply_inner. intros H He Hb Hs. do 2 ok_step H. destruct y0 as [r|].
  { apply Ok_injective in H as ->. by eapply replay_keeps. }
  destruct (has_fork s) eqn:Hf; [by eapply while_forked_keeps|].
  assert (Hnone : st_fork s = None) by (unfold has_fork in Hf; by destruct (st_fork s)).
  destruct (state_lineage s Hs) as [Hl _]. ok_step H. destruct y0 as [c|].
  - eapply open_keeps; [done..|by apply linear_account|done| |done].
    apply conflict_in_elem in Hy1. rewrite elem_of_reverse in Hy1. rewrite Forall_forall in Hl. by apply Hl.
  - destruct (_ && _); [done|]. by eapply linear_keeps.
Qed.

(** A path of events of the account. *)
Definition path_built (path : list AuthorizedEvent) : Prop :=
  Forall (λ e, event_built e ∧ operation_built (eb_operation (ev_body e))) path.

Lemma path_replayed path s bytes s' ts : replay_path s bytes path = Ok (s', ts) → path_built path →
  state_ok s → st_fork s = None → Forall entry_ok ts ∧ account_ok (st_projection s').
Proof.
  revert s bytes ts. induction path as [|e path IH]; intros s bytes ts H Hp Hs Hf; cbn [replay_path] in H.
  { injection H as <- <-. split; [constructor|by apply linear_account]. }
  apply Forall_cons in Hp as [[He Hb] Hp]. cbv zeta in H. do 3 ok_step H. ok_step H. destruct y2 as [s1 o].
  do 3 ok_step H. ok_step H. destruct y4 as [s2 ts']. injection H as -> <-.
  destruct (linear_keeps _ _ _ _ _ Hy2) as [Hs1 Hf1]; [done..|].
  destruct (IH _ _ _ Hy5 Hp Hs1 Hf1) as [Hts Ht]. split; [|done]. constructor; [|done].
  constructor; [by apply detached_ok, linear_account|constructor].
Qed.

Lemma path_source s bytes e path r : replay_path (detached_snapshot s) bytes (e :: path) = Ok r →
  state_ok s → account_ok (st_projection s).
Proof.
  intros H Hs. cbn [replay_path] in H. cbv zeta in H. do 3 ok_step H. ok_step H.
  by apply (linear_source s (detached_snapshot s) e y1 y2).
Qed.

Lemma historical_keeps s historical path e s' o : historical_conflict_inner s historical path e = Ok (s', o) →
  event_built e → operation_built (eb_operation (ev_body e)) → path_built path →
  state_ok s → state_ok historical → state_ok s'.
Proof.
  unfold historical_conflict_inner. intros H He Hb Hp Hs Hh. destruct path as [|accepted path]; [done|].
  cbv zeta in H. do 11 ok_step H. destruct y5 as [tip ts]. ok_step H. destruct (state_lineage s Hs) as [Hl _].
  pose proof (path_source _ _ _ _ _ Hy5 Hh) as Ha. pose proof (detached_ok _ Ha) as Hd.
  apply path_replayed in Hy5 as [Hts Htip]; [|done..]. bool_hyps. apply dec_stable in Hc3. rewrite Hc3 in Htip.
  eapply open_keeps; [done..| |by intros l [= <-]]. constructor; [done|constructor].
Qed.

(** The states of an account from its genesis on, with the events its replicas see and
    the conflicts they find in their stores. *)
Inductive history (g : AccountGenesis) : AccountState → Prop :=
| history_genesis s : state_from_genesis g = Ok s → history g s
| history_event s e : history g s → event_built e → operation_built (eb_operation (ev_body e)) →
    history g (validate_and_apply s e).1
| history_conflict s historical path e : history g s → history g historical →
    path_built path → event_built e → operation_built (eb_operation (ev_body e)) →
    history g (validate_and_apply_historical_conflict s historical path e).1.

Lemma history_state_ok g s : genesis_built g → history g s → state_ok s.
Proof.
  intros Hg. induction 1 as [s H|s e _ IH He Hb|s h path e _ IH _ IHh Hp He Hb].
  - unfold state_from_genesis in H. ok_steps H. subst s.
    constructor; [by eapply genesis_ok|constructor|apply lineage_nil_ok].
  - unfold validate_and_apply. destruct (validate_and_apply_inner s e) as [[s' o]|] eqn:H; [|done].
    by eapply inner_keeps.
  - unfold validate_and_apply_historical_conflict.
    destruct (historical_conflict_inner s h path e) as [[s' o]|] eqn:H; [|done].
    by eapply historical_keeps.
Qed.

End History.
