(* ===== verification/IdForksProps.v ===== *)
(** * Accounts: forks

    Replicas that see two conflicting events in different orders hold the same fork; a
    fork leaves the authority of the account where it was, and only a resolution that
    names all of its heads ends it. *)
From stdpp Require Import base tactics list gmap countable orders sorting strings.
From Stdlib Require Import ZArith Lia Strings.Byte.
From S2P Require Import Prelude Bytes IdTypes SortedVec IdKeys IdFacts IdPolicy IdPolicyProps IdProviders IdApprovals IdGuardians IdCapability IdDevices IdEvidence IdRecovery IdMigration IdEvents IdAccount IdAccountOps IdVerifier IdAccountFacts IdAccountSteps IdAccountPhases MerkleProps ExampleWire IdAccountExample IdAccountHistory IdForks IdForksHistory.

Local Open Scope N_scope.

Section Props.
  Context `{HB : Blake3Hash} `{HC : Curve} `{HAW : !AccountWire} `{HFW : !ForkWire}.

#[local] Arguments event_id : simpl never.

(** ** Convergence *)

(** Two events that apply to the same state are at the same position. *)
Lemma same_position s e1 e2 i1 i2 s1 s2 fx1 fx2 l1 l2 ep1 :
  apply_new_linear (st_projection s) l1 e1 i1 = Ok (s1, fx1) →
  apply_new_linear (st_projection s) l2 e2 i2 = Ok (s2, fx2) → i1 ≠ i2 →
  at_position e2 i2 (mkEntry (detached_snapshot s) None ep1 e1) i1 = true ∧
  eb_sequence (ev_body e1) = eb_sequence (ev_body e2) ∧
  eb_predecessors (ev_body e1) = eb_predecessors (ev_body e2).
Proof.
  intros (t1 & a1 & [_ _ A1 S1 P1 _ _ _] & _)%linear_Ok (t2 & a2 & [_ _ A2 S2 P2 _ _ _] & _)%linear_Ok Hne.
  pose proof (predecessors_same _ _ _ P1 P2) as Hp. split; [|split; [congruence|done]].
  unfold at_position, entry_sequence. cbn. rewrite A1, A2, S1, S2, Hp, N.eqb_refl.
  by rewrite !bool_decide_eq_true_2.
Qed.

(** The lineage after the first of them has its entry at the end, and no other with
    the identifier of either. *)
Lemma find_last id l t : event_id (en_event t) = Ok id → ¬ retained id l →
  list_find (λ t, has_event_id id (en_event t) = true) (l ++ [t]) = Some (length l, t).
Proof.
  intros Hid Hn. rewrite list_find_app_r.
  - cbn. rewrite decide_True by by apply has_event_id_true. cbn. repeat f_equal.
  - apply list_find_None, Forall_forall. intros x Hx Ht%has_event_id_true. apply Hn. by exists x.
Qed.

Lemma lineage_from_last id l t : event_id (en_event t) = Ok id → ¬ retained id l → lineage_from id (l ++ [t]) = Some [t].
Proof. intros Hid Hn. unfold lineage_from. rewrite find_last by done. by rewrite drop_app_length. Qed.

Lemma retained_suffix id l1 l2 : l1 `suffix_of` l2 → retained id l1 → retained id l2.
Proof. intros [k ->] (t & Hin & Hid). exists t. split; [|done]. apply elem_of_app. by right. Qed.

(** The fork that the second of two events opens. *)
Lemma fork_opened s e1 e2 s1 s2 f o1 o2 o : st_fork s = None →
  validate_and_apply_inner s e1 = Ok (s1, o1) → oc_disposition o1 = Applied →
  validate_and_apply_inner s e2 = Ok (s2, o2) → oc_disposition o2 = Applied →
  validate_and_apply_inner s1 e2 = Ok (f, o) → oc_disposition o = ForkDetected →
  st_required_through s1 = st_required_through s →
  ∃ i1 i2 ep1 ep2 branches ancestor, event_id e1 = Ok i1 ∧ event_id e2 = Ok i2 ∧ i1 ≠ i2 ∧
    expected_epoch (st_projection s) (eb_operation (ev_body e1)) = Ok ep1 ∧
    expected_epoch (st_projection s) (eb_operation (ev_body e2)) = Ok ep2 ∧
    eb_sequence (ev_body e1) = eb_sequence (ev_body e2) ∧
    eb_predecessors (ev_body e1) = eb_predecessors (ev_body e2) ∧
    sort_fork_branches [branch_of s s1 ep1 e1; branch_of s s2 ep2 e2] = Ok branches ∧
    ancestor_of (st_projection s) = Ok ancestor ∧
    forked_state (detached_snapshot s) ancestor e2 branches = Ok f.
Proof.
  intros Hf H1 D1 H2 D2 H D Hr.
  apply inner_applied in H1 as (i1 & Hi1 & Hn1 & _ & L1); [|done..].
  apply inner_applied in H2 as (i2 & Hi2 & Hn2 & Hc2 & L2); [|done..].
  apply apply_linear_Ok in L1 as (fx1 & ep1 & k1 & L1 & _). apply apply_linear_Ok in L2 as (fx2 & ep2 & k2 & L2 & _).
  apply inner_forked in H as (i2' & c & Hi2' & Hn & Hc & Ho); [|by destruct L1|done].
  rewrite Hi2 in Hi2'. apply Ok_injective in Hi2' as <-.
  unfold find_lineage_conflict in Hc, Hc2. apply conflict_None in Hc2.
  destruct (ls_lineage _ _ _ _ _ _ _ L1) as [[Hl _]|Hl].
  2: { exfalso. assert (Hnone : conflict_in e2 i2 (reverse (st_lineage s1)) = Ok None); [|by rewrite Hnone in Hc].
    apply conflict_None. rewrite Hl, Forall_forall in *. intros t Ht. rewrite elem_of_reverse in Ht. apply Hc2.
    rewrite elem_of_reverse. destruct (ls_kept _ _ _ _ _ _ _ L1) as [k ->]. apply elem_of_app. by right. }
  set (t1 := mkEntry (detached_snapshot s) None ep1 e1) in *.
  assert (Hne : i1 ≠ i2).
  { intros ->. apply Hn. exists t1. rewrite Hl. split; [apply elem_of_app; right; left|done]. }
  destruct (same_position s e1 e2 i1 i2 _ _ _ _ _ _ ep1 (ls_projection _ _ _ _ _ _ _ L1)
    (ls_projection _ _ _ _ _ _ _ L2) Hne) as (Hpos & Hseq & Hpred).
  rewrite Hl, reverse_snoc in Hc. rewrite (conflict_head e2 i2 t1 i1) in Hc by done.
  injection Hc as <-. apply open_fork_Ok in Ho as (cid & path & right' & o' & t & rs & branches & ancestor &
    Hcid & Hpath & Hlin & Htr & Hsort & Hanc & Hst); [|done].
  cbn [en_event t1] in Hcid. rewrite Hi1 in Hcid. apply Ok_injective in Hcid as <-.
  rewrite Hl, (lineage_from_last i1 k1 t1) in Hpath; [|done|].
  2: { intros Hk. by apply Hn1, (retained_suffix _ _ _ (ls_kept _ _ _ _ _ _ _ L1)). }
  injection Hpath as <-.
  rewrite (right_branch s e2 i2 right' o' t rs s2 fx2 ep2 k2) in Hsort by done.
  exists i1, i2, ep1, ep2, branches, ancestor. split_and!; try done; [apply L1|apply L2|].
  unfold branch_of at 1. rewrite <-Hr. exact Hsort.
Qed.

(** C5. Replicas converge on a fork: two events that both extend the same state, applied
    in one order or in the other, lead to the same forked state, unless entries were
    dropped from the lineage on the way. *)
Theorem fork_order_irrelevant : ∀ s e1 e2 s1 s2 f12 f21 o1 o2 o12 o21, st_fork s = None →
  validate_and_apply_inner s e1 = Ok (s1, o1) → oc_disposition o1 = Applied →
  validate_and_apply_inner s1 e2 = Ok (f12, o12) → oc_disposition o12 = ForkDetected →
  validate_and_apply_inner s e2 = Ok (s2, o2) → oc_disposition o2 = Applied →
  validate_and_apply_inner s2 e1 = Ok (f21, o21) → oc_disposition o21 = ForkDetected →
  st_required_through s1 = st_required_through s → st_required_through s2 = st_required_through s →
  f12 = f21.
Proof.
  intros s e1 e2 s1 s2 f12 f21 o1 o2 o12 o21 Hf H1 D1 H12 D12 H2 D2 H21 D21 R1 R2.
  destruct (fork_opened s e1 e2 s1 s2 f12 o1 o2 o12) as
    (i1 & i2 & ep1 & ep2 & bs & anc & Hi1 & Hi2 & Hne & He1 & He2 & Hs & Hp & Hb & Ha & Hf12); [done..|].
  destruct (fork_opened s e2 e1 s2 s1 f21 o2 o1 o21) as
    (j2 & j1 & eq2 & eq1 & bs' & anc' & Hj2 & Hj1 & _ & He2' & He1' & _ & _ & Hb' & Ha' & Hf21); [done..|].
  rewrite He1 in He1'. apply Ok_injective in He1' as <-. rewrite He2 in He2'. apply Ok_injective in He2' as <-.
  rewrite (sort_swap _ _ i2 i1) in Hb' by done. rewrite Hb in Hb'. apply Ok_injective in Hb' as <-.
  rewrite Ha in Ha'. apply Ok_injective in Ha' as <-. unfold forked_state in *. rewrite Hs, Hp in Hf21.
  rewrite Hf12 in Hf21. by apply Ok_injective in Hf21.
Qed.

(** ** The invariant *)

(** C3. Every state of a history, with the events its replicas see in any order and the
    conflicts they find in their stores, satisfies the invariant, and so do the states
    it retains: the states its lineage was validated against, the common state of a
    fork and the state of each of its two to [MAX_FORK_HEADS] branches.  The projection
    of a fork is the common one at the position and with the heads of the branches, and
    the lineage is within its bounds. *)
Theorem history_invariant : ∀ g s, genesis_built g → history g s → state_ok s.
Proof. exact history_state_ok. Qed.

(** ** Authority during a fork *)

(** The fork goes on: the authority of its common state stays. *)
Definition still_forked (s s' : AccountState) : Prop :=
  ∃ fork fork' position heads, st_fork s = Some fork ∧ st_fork s' = Some fork' ∧
    fk_common_state fork' = fk_common_state fork ∧
    fk_common_ancestor fork' = fk_common_ancestor fork ∧
    st_projection s' = set_position position (p_epoch (st_projection s)) heads (st_projection s).

Lemma same_position_forked s fork : st_fork s = Some fork → still_forked s s.
Proof.
  intros Hf. exists fork, fork, (p_sequence (st_projection s)), (p_heads (st_projection s)).
  by destruct (st_projection s).
Qed.

Lemma retain_all_same entries s s' : retain_all s entries = Ok s' →
  st_projection s' = st_projection s ∧ st_fork s' = st_fork s.
Proof.
  revert s. induction entries as [|t entries IH]; intros s H; cbn [retain_all] in H.
  { by apply Ok_injective in H as <-. }
  ok_step H. apply retain_Ok in Hy as (? & _ & <- & <- & _). by apply IH.
Qed.

Lemma replay_forked s e id s' o fork : try_replay s e id = Ok (Some (s', o)) → st_fork s = Some fork →
  still_forked s s'.
Proof.
  unfold try_replay. intros H Hf. destruct (list_find _ (st_lineage s)) as [[i t]|].
  - do 2 ok_step H. case_bool_decide; [injection H as <- _; by eapply same_position_forked|].
    ok_step H. injection H as <- _. apply retain_all_same in Hy1 as [Hp Hf']. cbn in Hp, Hf'.
    destruct (same_position_forked s fork Hf) as (? & ? & n & h & ? & ? & _ & _ & Hsame).
    exists fork, fork, n, h. rewrite Hp, Hf'. by split_and!.
  - rewrite Hf in H. destruct fork as [common ancestor sequence predecessors branches].
    destruct (fork_matches id branches); [done|]. ok_step H. destruct (existsb _ _).
    + cbv zeta in H. ok_step H. injection H as <- _.
      exists (mkFork common ancestor sequence predecessors branches). eexists _.
      exists (p_sequence (st_projection s)), (p_heads (st_projection s)). split_and!; [done..|].
      cbn. by destruct (st_projection s).
    + injection H as <- _. by eapply same_position_forked.
Qed.

Lemma while_forked_Ok s e id s' o fork : apply_while_forked s e id = Ok (s', o) → st_fork s = Some fork →
  (∃ resolution selected time resolved, resolution_step s e id s' resolution fork selected time resolved) ∨
  still_forked s s'.
Proof.
  unfold apply_while_forked. intros H Hf. cbv zeta in H. destruct (_ && _).
  - apply resolution_Ok in H as (resolution & fork' & selected & time & resolved & H). left.
    pose proof (rs_fork _ _ _ _ _ _ _ _ _ H) as Hf'. rewrite Hf in Hf'. injection Hf' as <-. by eexists _, _, _, _.
  - right. rewrite Hf in H. destruct fork as [common ancestor sequence predecessors branches].
    do 6 ok_step H. injection H as <- _.
    exists (mkFork common ancestor sequence predecessors branches). eexists _, _, _. by split_and!.
Qed.

(** C7. While an account is forked its authority is frozen: an event leaves the common
    state, the controllers, the devices, the policies and the epoch in force as they
    were, unless it resolves the fork.  A resolution names all heads, is authorized by
    the controllers and the policy of the common state, selects one of the branches and
    opens an epoch after those of all branches. *)
Theorem forked_authority_frozen : ∀ s e fork, st_fork s = Some fork →
  (∃ id resolution selected time resolved, event_id e = Ok id ∧
     resolution_step s e id (validate_and_apply s e).1 resolution fork selected time resolved) ∨
  still_forked s (validate_and_apply s e).1.
Proof.
  intros s e fork Hf. unfold validate_and_apply.
  destruct (validate_and_apply_inner s e) as [[s' o]|] eqn:H; [|right; by eapply same_position_forked].
  unfold validate_and_apply_inner in H. do 2 ok_step H. destruct y0 as [r|].
  - apply Ok_injective in H as ->. right. by eapply replay_forked.
  - unfold has_fork in H. rewrite Hf in H. eapply while_forked_Ok in H as [(re & se & ti & rd & H)|H]; [|by right|done].
    left. by exists y, re, se, ti, rd.
Qed.

(** ** Replays *)

Lemma approvals_merge_self a : approvals_wf a → approvals_merge a a = Ok a.
Proof.
  intros Ha. pose proof Ha as [_ H]. apply approvals_wf_Ok in Ha as [Hs _]. unfold approvals_merge.
  rewrite (merge_loop_complete a a a); [done..|]. naive_solver.
Qed.

Lemma merge_self e : approvals_wf (ev_approvals e) → merge_event_evidence e e = Ok e.
Proof.
  intros H. unfold merge_event_evidence. rewrite !bool_decide_eq_false_2 by (intros Hn; by apply Hn). cbn [orb].
  rewrite approvals_merge_self by done. cbn. by rewrite bool_decide_eq_true_2.
Qed.

(** An event whose entry is the last of the lineage. *)
Lemma replayed s e id kept t time : event_id e = Ok id → approvals_wf (ev_approvals e) →
  st_lineage s = kept ++ [t] → ¬ retained id kept → en_event t = e → validate_against t e = Ok time →
  validate_and_apply s e = (s, Ok (mkOutcome Replay id [])).
Proof.
  intros Hid Hwf Hl Hn He Hv. unfold validate_and_apply, validate_and_apply_inner. rewrite Hid. cbn [mbind result_bind].
  unfold try_replay. rewrite Hl, find_last by (rewrite ?He; done). rewrite Hv. cbn [mbind result_bind].
  rewrite He, merge_self by done. cbn [mbind result_bind]. by rewrite (bool_decide_eq_true_2 (e = e)).
Qed.

Lemma linear_replayed s e s' o id : st_fork s = None → validate_and_apply_inner s e = Ok (s', o) →
  oc_disposition o = Applied → event_id e = Ok id → retained id (st_lineage s') →
  ∃ kept t time, st_lineage s' = kept ++ [t] ∧ ¬ retained id kept ∧ en_event t = e ∧ validate_against t e = Ok time.
Proof.
  intros Hf H Ho Hid Hr. apply inner_applied in H as (id' & Hid' & Hn & _ & L); [|done..].
  rewrite Hid in Hid'. apply Ok_injective in Hid' as <-. apply apply_linear_Ok in L as (fx & ep & kept & L & _).
  destruct L as [Hl He _ Hk Hlin]. assert (Hkept : ¬ retained id kept) by (intros Hi; by apply Hn, (retained_suffix _ _ _ Hk)).
  destruct Hlin as [[Hlin _]|Hlin]; [|by rewrite Hlin in Hr].
  apply linear_Ok in Hl as (time & a & [_ Hep _ _ _ Hv _ _] & _). rewrite He in Hep. apply Ok_injective in Hep as ->.
  exists kept. eexists _, time. split_and!; [exact Hlin|done..].
Qed.

Lemma resolution_replayed s e s' o id fork : st_fork s = Some fork → validate_and_apply_inner s e = Ok (s', o) →
  oc_disposition o = Applied → event_id e = Ok id → retained id (st_lineage s') →
  ∃ kept t time, st_lineage s' = kept ++ [t] ∧ ¬ retained id kept ∧ en_event t = e ∧ validate_against t e = Ok time.
Proof.
  intros Hf H Ho Hid Hr. unfold validate_and_apply_inner in H. rewrite Hid in H. cbn [mbind result_bind] in H.
  ok_step H. destruct y as [r|].
  { apply Ok_injective in H as ->. apply replay_outcome in Hy. by destruct Hy as [Hy|Hy]; rewrite Hy in Ho. }
  unfold has_fork in H. rewrite Hf in H. unfold apply_while_forked in H. cbv zeta in H. destruct (_ && _).
  - apply resolution_Ok in H as (re & fork' & se & time & rd & [_ Hf' _ _ _ _ _ _ Hv _ Hret]).
    apply retain_Ok in Hret as (kept & Hk & _ & _ & Hl). apply suffix_nil_inv in Hk as ->.
    assert (Hn : ¬ retained id []) by (intros (t & Ht & _); by apply elem_of_nil in Ht).
    destruct Hl as [[Hl _]|Hl]; [|by rewrite Hl in Hr]. eexists [], _, time. split_and!; [exact Hl|done..].
  - rewrite Hf in H. destruct fork. do 6 ok_step H. by injection H as _ <-.
Qed.

(** C19. Applying an event again changes nothing: after an event was applied, as long as
    the lineage retains it, the same event is recognized as a replay, whatever the
    event did, and the state stays as it is. *)
Theorem replay_idempotent : ∀ s e s' o id, validate_and_apply s e = (s', Ok o) →
  oc_disposition o = Applied → event_id e = Ok id → retained id (st_lineage s') →
  approvals_wf (ev_approvals e) →
  validate_and_apply s' e = (s', Ok (mkOutcome Replay id [])).
Proof.
  intros s e s' o id H Ho Hid Hr Hwf. unfold validate_and_apply in H.
  destruct (validate_and_apply_inner s e) as [[s1 o1]|] eqn:Hi; [|done]. injection H as -> ->.
  assert (∃ kept t time, st_lineage s' = kept ++ [t] ∧ ¬ retained id kept ∧ en_event t = e ∧
    validate_against t e = Ok time) as (kept & t & time & ? & ? & ? & ?).
  { destruct (st_fork s) eqn:Hf; [by eapply resolution_replayed|by eapply linear_replayed]. }
  by eapply replayed.
Qed.

End Props.

(** ** A fork of the example account *)

Module ForkExample.
Import ExampleWire ProviderExample AccountExample.

#[export] Instance fork_wire : ForkWire := {
  wire_view := by_part (λ v, number (vw_sequence v));
  wire_ancestor := by_part (λ _, []);
  wire_predecessors := by_part (λ _, []);
}.

Definition initial : AccountState := mkState s0 [] 0 None None.
Definition apply (s : AccountState) (e : AuthorizedEvent) : AccountState := (validate_and_apply s e).1.

(** Two devices authorized at the same position. *)
Definition tablet : DeviceDescriptor :=
  mkDevice (mkSigningKey (key x41)) (mkAgreementKey (key x42)) (mkSigningKey (key x43)) [].
Definition tablet_id : Digest := ok (dig x00) (device_id tablet).
Definition rival : AuthorizedEvent := event_at s0 x05
  (AuthorizeDevice (mkDeviceAuthorization tablet_id tablet GeneralPurpose None [] 1 [])).

Definition left_state : AccountState := apply initial e1.
Definition right_state : AccountState := apply initial rival.
Definition forked : AccountState := apply left_state rival.

(** The branch of the phone is selected, and the phone and a controller are revoked. *)
Definition descriptor : ForkDescriptor :=
  mkForkDescriptor account (AncestorGenesis (p_genesis_anchor s0)) (p_heads (st_projection forked)) [].
Definition resolution : ResolveFork :=
  mkResolveFork (ok (dig x00) (fork_id descriptor)) descriptor (id_of_event e1) [id_of alice] [phone_id] [].
Definition resolve : AuthorizedEvent :=
  let body := mkEventBody account 2 2 (PredEvents (p_heads (st_projection forked)))
    (ResolveForkOp resolution) 5 [x06] [] in
  let evidence := admitted s0 body NoDelay in
  mkEvent body evidence [approve bob x12 body evidence].
Definition resolved : AccountState := apply forked resolve.

Definition disposition (s : AccountState) (e : AuthorizedEvent) : option ApplyDisposition :=
  match (validate_and_apply s e).2 with Ok o => Some (oc_disposition o) | Err _ => None end.

End ForkExample.

Import ExampleWire ProviderExample AccountExample ForkExample.

Definition outcome (s : AccountState) (e : AuthorizedEvent) : ApplyOutcome :=
  ok (mkOutcome Replay (dig x00) []) (validate_and_apply s e).2.

Lemma fork_order_irrelevant_witness : apply left_state rival = apply right_state e1.
Proof.
  apply (fork_order_irrelevant initial e1 rival left_state right_state (apply left_state rival)
    (apply right_state e1) (outcome initial e1) (outcome initial rival) (outcome left_state rival)
    (outcome right_state e1)); evaluate.
Defined.

Lemma fork_history : history genesis forked ∧ st_fork forked ≠ None.
Proof.
  split; [|evaluate]. apply history_event; [apply history_event|..].
  - apply history_genesis. evaluate.
  - split; evaluate.
  - exists [], true. evaluate.
  - split; evaluate.
  - exists [], true. evaluate.
Qed.

Lemma history_invariant_witness : state_ok forked ∧ st_fork forked ≠ None.
Proof.
  destruct fork_history as [Hh Hf]. split; [|done]. apply (history_invariant genesis); [apply example_built|done].
Defined.

Lemma forked_authority_frozen_witness : st_fork forked ≠ None ∧ st_fork resolved = None ∧
  ((∃ fork id resolution selected time projection,
      resolution_step forked resolve id resolved resolution fork selected time projection)
   ∨ still_forked forked resolved).
Proof.
  split_and!; [evaluate..|]. destruct (st_fork forked) as [fork|] eqn:Hf; [|exfalso; by revert Hf; evaluate].
  destruct (forked_authority_frozen forked resolve fork Hf) as [(id & re & se & ti & rd & _ & H)|H]; [left|by right].
  by exists fork, id, re, se, ti, rd.
Defined.

Lemma replay_idempotent_witness : apply left_state e1 = left_state ∧ apply resolved resolve = resolved.
Proof.
  assert (Hwf : ∀ e, ev_approvals e = ev_approvals e1 ∨ ev_approvals e = ev_approvals resolve → approvals_wf (ev_approvals e)).
  { intros e [->| ->]; (split; [repeat constructor; evaluate|evaluate]). }
  unfold apply. split.
  - rewrite (replay_idempotent initial e1 left_state (outcome initial e1) (id_of_event e1)); [done|evaluate..| |].
    + eexists. split; [left|evaluate].
    + apply Hwf. by left.
  - rewrite (replay_idempotent forked resolve resolved (outcome forked resolve) (id_of_event resolve)); [done|evaluate..| |].
    + eexists. split; [left|evaluate].
    + apply Hwf. by right.
Defined.
