(* ===== verification/IdCheckpoint.v ===== *)
(** * Checkpoints of an account (protocols/krikos-identity/src/checkpoint.rs, freshness.rs)

    A checkpoint commits the state of an account by three Merkle roots and is authorized
    by its controllers, or by the event that took their authority away.  It is trusted
    after a bounded chain of events from the genesis or from a prior checkpoint, if the
    providers of the account attest that it is recent. *)
From stdpp Require Import base tactics list gmap countable orders sorting strings.
From Stdlib Require Import ZArith Lia Strings.Byte.
From S2P Require Import Prelude Bytes IdTypes Merkle SortedVec IdKeys IdPolicy IdProviders IdApprovals IdGuardians IdCapability IdDevices IdEvidence IdRecovery IdMigration IdEvents IdAccount IdAccountOps IdVerifier IdForks.

Local Open Scope N_scope.

Definition CHECKPOINT_STATE_METADATA_TYPE_TAG : N := 1.
Definition CHECKPOINT_STATE_CONTROLLER_TYPE_TAG : N := 2.
Definition CHECKPOINT_STATE_DEVICE_TYPE_TAG : N := 3.
Definition CHECKPOINT_AUTHORIZED_DEVICE_TYPE_TAG : N := 4.
Definition CHECKPOINT_REVOKED_DEVICE_TYPE_TAG : N := 5.
Definition MAX_FUTURE_CLOCK_SKEW : N := 120000.

(** ** Data *)

Inductive AccountLifecycle : Type :=
| AccountActive
| AccountRecoveryPending
| AccountMigrationPending
| AccountMigrationDual
| AccountUpgradePending
| AccountIsRetired.

(** The version is always the first. *)
Record CheckpointBody : Type := mkCheckpointBody {
  cb_account_id : Digest;
  cb_account_epoch : N;
  cb_sequence : N;
  cb_event_head : Digest;
  cb_state_root : Digest;
  cb_authorized_set_root : Digest;
  cb_revoked_set_root : Digest;
  cb_control_policy_id : Digest;
  cb_recovery_policy_id : Digest;
  cb_provider_policy_id : Digest;
  cb_crypto_state_id : Digest;
  cb_lifecycle : AccountLifecycle;
  cb_issued_at : N;
  cb_extensions : Extensions;
}.

Inductive CheckpointTransitionKind : Type :=
| TransitionFinalizeRecovery
| TransitionRetireAccount.

Record TransitionCheckpointWitness : Type := mkTransitionWitness {
  tw_transition_kind : CheckpointTransitionKind;
  tw_event_id : Digest;
  tw_event_authorization_id : Digest;
}.

Inductive CheckpointAuthorization : Type :=
| ByControllers (approvals : list SignedControllerApproval)
| TransitionDerived (witness : TransitionCheckpointWitness).

Record SignedCheckpoint : Type := mkCheckpoint {
  ck_body : CheckpointBody;
  ck_authorization : CheckpointAuthorization;
}.

Record VerifiedCheckpoint : Type := mkVerified {
  vc_checkpoint : SignedCheckpoint;
  vc_checkpoint_id : Digest;
  vc_transition_event : option AuthorizedEvent;
}.

#[global] Instance AccountLifecycle_EqDecision : EqDecision AccountLifecycle.
Proof. solve_decision. Defined.
#[global] Instance CheckpointBody_EqDecision : EqDecision CheckpointBody.
Proof. solve_decision. Defined.
#[global] Instance CheckpointTransitionKind_EqDecision : EqDecision CheckpointTransitionKind.
Proof. solve_decision. Defined.
#[global] Instance TransitionCheckpointWitness_EqDecision : EqDecision TransitionCheckpointWitness.
Proof. solve_decision. Defined.
#[global] Instance CheckpointAuthorization_EqDecision : EqDecision CheckpointAuthorization.
Proof. solve_decision. Defined.
#[global] Instance SignedCheckpoint_EqDecision : EqDecision SignedCheckpoint.
Proof. solve_decision. Defined.

(** What the leaves and the identifier of the cryptographic state encode. *)

(** [CheckpointStateMaterial]. *)
Record CheckpointStateMaterial : Type := mkStateMaterial {
  sm_account_id : Digest;
  sm_genesis_anchor : Digest;
  sm_protocol_major : N;
  sm_sequence : N;
  sm_epoch : N;
  sm_heads : list Digest;
  sm_control_policy_id : Digest;
  sm_recovery_policy_id : Digest;
  sm_provider_policy_id : Digest;
  sm_pending_recovery : option PendingRecovery;
  sm_crypto_state_id : Digest;
  sm_lifecycle_code : N;
  sm_upgrade : option ProtocolUpgrade;
  sm_retirement : option RetirementProjection;
}.

(** [StableCryptoStateMaterial]. *)
Record StableCryptoStateMaterial : Type := mkStableMaterial {
  st_current_suite_id : Digest;
  st_migrated_keys : list MigrationKey;
  st_retired_suites : list RetiredCryptoSuite;
  st_key_tombstones : list AlgorithmPublicKey;
}.

(** [CryptoStateMaterial]. *)
Inductive CryptoStateMaterial : Type :=
| StableMaterial (stable : StableCryptoStateMaterial)
| CandidateMaterial (previous : StableCryptoStateMaterial) (migration_id candidate_suite_id begin_event_id : Digest)
| DualMaterial (previous : StableCryptoStateMaterial) (migration_id candidate_suite_id begin_event_id
                activation_event_id : Digest).

(** The values of the leaves of controllers and devices. *)
Definition ControllerLeaf : Type := Digest * ControllerDescriptor * bool.
Definition DeviceLeaf : Type :=
  Digest * DeviceDescriptor * DeviceClass * option BlindedMetadataCommitment * list CapabilityGrant * N * N.

Class CheckpointWire : Type := {
  wire_checkpoint_body :: WireFormat CheckpointBody;
  wire_state_material :: WireFormat CheckpointStateMaterial;
  wire_crypto_material :: WireFormat CryptoStateMaterial;
  wire_controller_leaf :: WireFormat ControllerLeaf;
  wire_device_leaf :: WireFormat DeviceLeaf;
}.

(** The lineage of a checkpoint that a provider serves, and what it retains for it. *)
Inductive ProviderCheckpointLineage : Type :=
| FromGenesis (genesis : AccountGenesis)
| FromPrior (checkpoint_id : Digest).

Record ProviderCheckpointBundle : Type := mkBundle {
  pb_lineage : ProviderCheckpointLineage;
  pb_events : list AuthorizedEvent;
  pb_verified_checkpoint : VerifiedCheckpoint;
}.

#[global] Instance AccountGenesis_EqDecision : EqDecision AccountGenesis.
Proof. solve_decision. Defined.
#[global] Instance ProviderCheckpointLineage_EqDecision : EqDecision ProviderCheckpointLineage.
Proof. solve_decision. Defined.

Section Checkpoints.
  Context `{HB : Blake3Hash} `{HC : Curve} `{HAW : !AccountWire} `{HFW : !ForkWire} `{HCW : !CheckpointWire}.

#[export] Instance checkpoint_codec : CanonicalCodec CheckpointBody :=
  wire_codec "account checkpoint body bytes".

Definition checkpoint_body_new (account_id : Digest) (account_epoch sequence : N)
    (event_head state_root authorized_set_root revoked_set_root control_policy_id recovery_policy_id
     provider_policy_id crypto_state_id : Digest) (lifecycle : AccountLifecycle) (issued_at : N)
    (extensions : Extensions) : result IdentityError CheckpointBody :=
  _ ← validate_critical [] extensions;
  Ok (mkCheckpointBody account_id account_epoch sequence event_head state_root authorized_set_root
        revoked_set_root control_policy_id recovery_policy_id provider_policy_id crypto_state_id
        lifecycle issued_at extensions).

Definition checkpoint_id (b : CheckpointBody) : result IdentityError Digest :=
  derive DomainAccountCheckpoint b.

(** ** Authorization *)

(** [AuthorizedEvent::event_authorization_id]. *)
Definition event_authorization_id (e : AuthorizedEvent) : result IdentityError Digest :=
  derive DomainEventAuthorization e.

(** [TransitionCheckpointWitness::from_authorized_event]. *)
Definition from_authorized_event (e : AuthorizedEvent) : result IdentityError TransitionCheckpointWitness :=
  kind ← match eb_operation (ev_body e) with
         | FinalizeRecoveryOp _ => Ok TransitionFinalizeRecovery
         | RetireAccountOp _ => Ok TransitionRetireAccount
         | _ => Err (InvalidRelationship "checkpoint transition witness operation")
         end;
  id ← event_id e;
  authorization_id ← event_authorization_id e;
  Ok (mkTransitionWitness kind id authorization_id).

(** An approval of another checkpoint is among them. *)
Definition other_subject (id : Digest) (approvals : list SignedControllerApproval) : bool :=
  existsb (λ a, bool_decide (body_checkpoint_id (sa_body a) ≠ Some id)) approvals.

(** [CheckpointAuthorization::controllers] and [CheckpointAuthorization::transition_derived]. *)
Definition authorization_controllers (id : Digest) (approvals : list SignedControllerApproval)
    : result IdentityError CheckpointAuthorization :=
  if other_subject id approvals
  then Err (InvalidRelationship "checkpoint controller approval subject")
  else Ok (ByControllers approvals).

Definition authorization_transition (e : AuthorizedEvent) : result IdentityError CheckpointAuthorization :=
  witness ← from_authorized_event e;
  Ok (TransitionDerived witness).

(** [SignedCheckpoint::new]. *)
Definition checkpoint_new (body : CheckpointBody) (authorization : CheckpointAuthorization)
    : result IdentityError SignedCheckpoint :=
  _ ← match authorization with
      | ByControllers approvals =>
          id ← checkpoint_id body;
          if other_subject id approvals
          then Err (InvalidRelationship "signed checkpoint approval subject") else Ok ()
      | TransitionDerived witness =>
          let lifecycle_matches :=
            match tw_transition_kind witness with
            | TransitionFinalizeRecovery => bool_decide (cb_lifecycle body = AccountActive)
            | TransitionRetireAccount => bool_decide (cb_lifecycle body = AccountIsRetired)
            end in
          if bool_decide (tw_event_id witness ≠ cb_event_head body) || negb lifecycle_matches
          then Err (InvalidRelationship "signed checkpoint transition witness") else Ok ()
      end;
  Ok (mkCheckpoint body authorization).

(** [SignedCheckpoint::merge]. *)
Definition checkpoint_merge (a b : SignedCheckpoint) : result IdentityError SignedCheckpoint :=
  if bool_decide (ck_body a ≠ ck_body b)
  then Err (InvalidRelationship "checkpoint authorization body") else
  authorization ← match ck_authorization a, ck_authorization b with
                  | ByControllers l, ByControllers r =>
                      id ← checkpoint_id (ck_body a);
                      merged ← approvals_merge l r;
                      authorization_controllers id merged
                  | TransitionDerived l, TransitionDerived r =>
                      if bool_decide (l = r) then Ok (TransitionDerived l)
                      else Err (InvalidRelationship "checkpoint transition witness")
                  | _, _ => Err (InvalidRelationship "checkpoint authorization mode")
                  end;
  checkpoint_new (ck_body a) authorization.

(** ** The state that is committed *)

(** [stable_crypto_state_material] (state.rs). *)
Definition stable_crypto_state_material (stable : StableCrypto)
    : result IdentityError StableCryptoStateMaterial :=
  id ← crypto_suite_id (sc_suite stable);
  Ok (mkStableMaterial id (sc_migrated_keys stable) (sc_retired_suites stable) (sc_key_tombstones stable)).

(** [AccountState::crypto_state_id] (state.rs). *)
Definition crypto_state_id (p : Projection) : result IdentityError Digest :=
  material ← match p_crypto p with
             | Stable stable => m ← stable_crypto_state_material stable; Ok (StableMaterial m)
             | Candidate previous migration begin_event_id =>
                 m ← stable_crypto_state_material previous;
                 migration_id ← crypto_migration_id migration;
                 suite_id ← crypto_suite_id (mg_to_suite migration);
                 Ok (CandidateMaterial m migration_id suite_id begin_event_id)
             | Dual previous migration begin_event_id activation_event_id =>
                 m ← stable_crypto_state_material previous;
                 migration_id ← crypto_migration_id migration;
                 suite_id ← crypto_suite_id (mg_to_suite migration);
                 Ok (DualMaterial m migration_id suite_id begin_event_id activation_event_id)
             end;
  bytes ← encode_wire material;
  Ok (hash_bytes DomainCryptoState bytes).

(** [AccountState::checkpoint_state_material] (state.rs). *)
Definition checkpoint_state_material (s : AccountState) : result IdentityError (list byte) :=
  let p := st_projection s in
  if has_fork s || bool_decide (p_lifecycle p = LifeForked) then Err AccountForked else
  crypto ← crypto_state_id p;
  encode_wire (mkStateMaterial (p_account_id p) (p_genesis_anchor p) (p_protocol_major p) (p_sequence p)
    (p_epoch p) (p_heads p) (p_control_policy_id p) (p_recovery_policy_id p) (p_provider_policy_id p)
    (p_pending_recovery p) crypto (projection_lifecycle_code (p_lifecycle p)) (p_upgrade p) (p_retirement p)).

Definition projected_device_lifecycle_code (l : ProjectedDeviceLifecycle) : N :=
  match l with DeviceIsActive => 1 | DeviceIsSuspended => 2 | DeviceIsRevoked => 3 end.

Definition controller_leaf (active : bool) (c : ProjectedController) : ControllerLeaf :=
  (pc_id c, pc_descriptor c, active).

Definition device_leaf (d : ProjectedDevice) : DeviceLeaf :=
  (dv_id d, dv_descriptor d, dv_class d, dv_metadata_commitment d, dv_capabilities d,
   dv_authorization_epoch d, projected_device_lifecycle_code (dv_lifecycle d)).

(** A leaf with the hash of its value in a domain. *)
Definition leaf_at (tag : N) (id : Digest) (domain : HashDomain) (value : list byte)
    : result IdentityError MerkleSetLeaf :=
  key ← MerkleSetKey_new tag id;
  Ok (mkMerkleSetLeaf key (hash_bytes domain value)).

Definition metadata_key_text : list byte := String.list_byte_of_string "checkpoint-state-metadata-key".

Definition controller_state_leaf (active : bool) (c : ProjectedController) : result IdentityError MerkleSetLeaf :=
  value ← encode_wire (controller_leaf active c);
  leaf_at CHECKPOINT_STATE_CONTROLLER_TYPE_TAG (pc_id c) DomainStateRoot value.

Definition device_state_leaf (d : ProjectedDevice) : result IdentityError MerkleSetLeaf :=
  value ← encode_wire (device_leaf d);
  leaf_at CHECKPOINT_STATE_DEVICE_TYPE_TAG (dv_id d) DomainStateRoot value.

(** The leaf of a device in the set of the active or of the revoked ones. *)
Definition device_set_leaf (tag : N) (domain : HashDomain) (d : ProjectedDevice)
    : result IdentityError MerkleSetLeaf :=
  value ← encode_wire (device_leaf d);
  leaf_at tag (dv_id d) domain value.

Record CheckpointMerkleSets : Type := mkMerkleSets {
  ms_state : MerkleSet;
  ms_authorized_devices : MerkleSet;
  ms_revoked_devices : MerkleSet;
}.

(** The loop over the devices: the leaves of the state, of the active and of the
    revoked devices. *)
Fixpoint device_leaves (devices : list ProjectedDevice)
    : result IdentityError (list MerkleSetLeaf * list MerkleSetLeaf * list MerkleSetLeaf) :=
  match devices with
  | [] => Ok ([], [], [])
  | device :: devices =>
      leaf ← device_state_leaf device;
      '(authorized, revoked) ←
        match dv_lifecycle device with
        | DeviceIsActive =>
            l ← device_set_leaf CHECKPOINT_AUTHORIZED_DEVICE_TYPE_TAG DomainAuthorizedSet device; Ok ([l], [])
        | DeviceIsSuspended => Ok ([], [])
        | DeviceIsRevoked =>
            l ← device_set_leaf CHECKPOINT_REVOKED_DEVICE_TYPE_TAG DomainRevokedSet device; Ok ([], [l])
        end;
      '(state, authorized', revoked') ← device_leaves devices;
      Ok (leaf :: state, authorized ++ authorized', revoked ++ revoked')
  end.

Definition build_checkpoint_merkle_sets (s : AccountState) : result IdentityError CheckpointMerkleSets :=
  let p := st_projection s in
  material ← checkpoint_state_material s;
  metadata ← leaf_at CHECKPOINT_STATE_METADATA_TYPE_TAG (hash_bytes DomainStateRoot metadata_key_text)
               DomainStateRoot material;
  active ← collect (controller_state_leaf true <$> p_active_controllers p);
  revoked ← collect (controller_state_leaf false <$> p_revoked_controllers p);
  '(devices, authorized, revoked_devices) ← device_leaves (p_devices p);
  state ← set_new (metadata :: active ++ revoked ++ devices);
  authorized ← set_new authorized;
  revoked_devices ← set_new revoked_devices;
  Ok (mkMerkleSets state authorized revoked_devices).

Definition checkpoint_roots (s : AccountState) : result IdentityError (Digest * Digest * Digest) :=
  sets ← build_checkpoint_merkle_sets s;
  state ← set_root (ms_state sets);
  authorized ← set_root (ms_authorized_devices sets);
  revoked ← set_root (ms_revoked_devices sets);
  Ok (state, authorized, revoked).

Definition checkpoint_lifecycle (l : ProjectionLifecycle) : result IdentityError AccountLifecycle :=
  match l with
  | LifeActive => Ok AccountActive
  | LifeRecoveryPending => Ok AccountRecoveryPending
  | LifeMigrationPending => Ok AccountMigrationPending
  | LifeMigrationDual => Ok AccountMigrationDual
  | LifeUpgradePending => Ok AccountUpgradePending
  | LifeRetired => Ok AccountIsRetired
  | LifeForked => Err AccountForked
  end.

Definition build_checkpoint_body (s : AccountState) (issued_at : N) : result IdentityError CheckpointBody :=
  let p := st_projection s in
  match p_heads p with
  | [event_head] =>
      lifecycle ← checkpoint_lifecycle (p_lifecycle p);
      '(state_root, authorized_root, revoked_root) ← checkpoint_roots s;
      crypto ← crypto_state_id p;
      checkpoint_body_new (p_account_id p) (p_epoch p) (p_sequence p) event_head state_root
        authorized_root revoked_root (p_control_policy_id p) (p_recovery_policy_id p)
        (p_provider_policy_id p) crypto lifecycle issued_at []
  | _ => Err (if bool_decide (p_lifecycle p = LifeForked) then AccountForked
              else InvalidRelationship "checkpoint single event head")
  end.

(** ** Verification *)

Definition is_replay (d : ApplyDisposition) : bool :=
  match d with Replay | ApprovalsMerged => true | _ => false end.

Definition verify_checkpoint (s : AccountState) (checkpoint : SignedCheckpoint)
    (transition_event : option AuthorizedEvent) : result IdentityError VerifiedCheckpoint :=
  let body := ck_body checkpoint in
  expected ← build_checkpoint_body s (cb_issued_at body);
  if bool_decide (body ≠ expected) then Err InvalidProof else
  id ← checkpoint_id body;
  retained ←
    match ck_authorization checkpoint with
    | ByControllers approvals =>
        if bool_decide (transition_event ≠ None)
        then Err (InvalidRelationship "direct checkpoint transition event")
        else if bool_decide (approvals = []) then Err AuthorizationDenied
        else if other_subject id approvals
        then Err (InvalidRelationship "verified checkpoint approval subject") else
        _ ← verify_checkpoint_approvals (st_projection s) approvals;
        Ok None
    | TransitionDerived witness =>
        match transition_event with
        | None => Err InvalidProof
        | Some event =>
            event_id ← event_id event;
            if bool_decide (event_id ≠ tw_event_id witness) then Err InvalidProof else
            authorization_id ← event_authorization_id event;
            if bool_decide (authorization_id ≠ tw_event_authorization_id witness)
               || bool_decide (eb_account_id (ev_body event) ≠ p_account_id (st_projection s))
               || bool_decide (event_id ≠ cb_event_head body)
            then Err InvalidProof else
            outcome ← (validate_and_apply s event).2;
            if is_replay (oc_disposition outcome) then Ok (Some event) else Err InvalidProof
        end
    end;
  Ok (mkVerified checkpoint id retained).

(** ** Freshness (freshness.rs) *)

Record FreshnessDecision : Type := mkFreshnessDecision {
  fx_context : AuthorizationContext;
  fx_provider_policy_id : Digest;
  fx_required_quorum : option N;
  fx_maximum_age : option N;
  fx_provider_observed_at : option N;
}.

Definition combine_requirements (account caller : FreshnessRequirement) : option (N * N) :=
  match account, caller with
  | LatestKnown, LatestKnown => None
  | RequireProviderQuorum r, LatestKnown | LatestKnown, RequireProviderQuorum r =>
      Some (pf_required r, pf_maximum_age r)
  | RequireProviderQuorum a, RequireProviderQuorum c =>
      Some (pf_required a `max` pf_required c, pf_maximum_age a `min` pf_maximum_age c)
  end.

(** The first provider with an identifier; one without an identifier has none. *)
Definition provider_with_id (providers : list ProviderDescriptor) (id : Digest) : option ProviderDescriptor :=
  List.find (λ p, match provider_id p with Ok i => bool_decide (i = id) | Err _ => false end) providers.

(** The loop over the receipts: those that count, and whether one of a configured
    provider does not. *)
Fixpoint recent_receipts (account_id : Digest) (providers : list ProviderDescriptor)
    (verified_at maximum_observation maximum_age : N) (receipts : ProviderReceipts)
    : result IdentityError (ProviderReceipts * bool) :=
  match receipts with
  | [] => Ok ([], false)
  | receipt :: receipts =>
      if bool_decide (le_account_id (ir_entry receipt) ≠ account_id) then Err AccountMismatch else
      match provider_with_id providers (receipt_provider_id receipt) with
      | None => recent_receipts account_id providers verified_at maximum_observation maximum_age receipts
      | Some provider =>
          _ ← receipt_verify receipt provider;
          '(valid, stale) ← recent_receipts account_id providers verified_at maximum_observation
                              maximum_age receipts;
          let entry_time := receipt_observed_at receipt in
          if (maximum_observation <? entry_time) || (maximum_observation <? receipt_head_time receipt)
             || (maximum_age <? verified_at - entry_time)
          then Ok (valid, true) else Ok (receipt :: valid, stale)
      end
  end.

Definition evaluate_freshness (context : AuthorizationContext) (policy : ProviderPolicy)
    (account_requirement caller_requirement : FreshnessRequirement) (evidence : FreshnessEvidence)
    (verified_at : N) : result IdentityError FreshnessDecision :=
  if bool_decide (freshness_checkpoint_id evidence ≠ ac_checkpoint_id context)
  then Err (InvalidRelationship "freshness decision checkpoint") else
  policy_id ← provider_policy_id policy;
  match combine_requirements account_requirement caller_requirement with
  | None => Ok (mkFreshnessDecision context policy_id None None None)
  | Some (requested_quorum, requested_maximum_age) =>
      match pp_mode policy with
      | LocalOnly => Err FreshnessUnavailable
      | Replicated replicated =>
          if bool_decide (freshness_policy_id evidence ≠ Some policy_id) then Err PolicyVersionMismatch else
          match freshness_receipts evidence with
          | None => Err FreshnessUnavailable
          | Some receipts =>
              let required := requested_quorum `max` rp_sufficient_threshold replicated in
              let maximum_age := requested_maximum_age `min` rp_maximum_evidence_age replicated in
              maximum_observation ← checked_add "timestamp milliseconds" verified_at MAX_FUTURE_CLOCK_SKEW;
              '(valid, stale) ← recent_receipts (ac_account_id context) (rp_providers replicated)
                                  verified_at maximum_observation maximum_age receipts;
              if len valid <? required
              then Err (if stale : bool then StaleEvidence else FreshnessUnavailable)
              else Ok (mkFreshnessDecision context policy_id (Some required) (Some maximum_age)
                         (Some (quorum_time required (receipt_observed_at <$> valid))))
          end
      end
  end.

(** ** Bootstrap *)

(** The loop of [validate_bootstrap_bounds] over the events. *)
Fixpoint proof_bytes (total : N) (events : list AuthorizedEvent) : result IdentityError () :=
  match events with
  | [] => Ok ()
  | event :: events =>
      bytes ← canonical_len event;
      total ← checked_add "checkpoint bootstrap proof bytes" total bytes;
      if MAX_HISTORY_PAGE_BYTES <? total
      then Err (limit "checkpoint bootstrap proof bytes" total MAX_HISTORY_PAGE_BYTES)
      else proof_bytes total events
  end.

Definition validate_bootstrap_bounds (events : list AuthorizedEvent) (known_conflicts : list Digest)
    : result IdentityError () :=
  if MAX_HISTORY_PAGE_EVENTS <? len events
  then Err (limit "checkpoint bootstrap events" (len events) MAX_HISTORY_PAGE_EVENTS)
  else if MAX_FORK_HEADS <? len known_conflicts
  then Err (limit "checkpoint bootstrap known conflicts" (len known_conflicts) MAX_FORK_HEADS)
  else proof_bytes 0 events.

(** The loop of [advance_checkpoint_lineage]. *)
Fixpoint apply_events (s : AccountState) (events : list AuthorizedEvent) : result IdentityError AccountState :=
  match events with
  | [] => Ok s
  | event :: events =>
      let '(s, r) := validate_and_apply s event in
      outcome ← r;
      if is_replay (oc_disposition outcome)
      then Err (InvalidRelationship "checkpoint lineage advancing event chain")
      else apply_events s events
  end.

Definition advance_checkpoint_lineage (s : AccountState) (events : list AuthorizedEvent)
    : result IdentityError AccountState :=
  _ ← validate_bootstrap_bounds events [];
  s ← apply_events s events;
  if bool_decide (p_lifecycle (st_projection s) = LifeForked) then Err AccountForked else Ok s.

Record TrustedCheckpointBootstrap : Type := mkTrusted {
  tb_state : AccountState;
  tb_checkpoint : VerifiedCheckpoint;
  tb_freshness : FreshnessDecision;
}.

(** What the policy of the account asks of the evidence. *)
Definition account_requirement (policy : ProviderPolicy) : result IdentityError FreshnessRequirement :=
  match pp_mode policy with
  | LocalOnly => Ok LatestKnown
  | Replicated r =>
      f ← freshness_new (rp_sufficient_threshold r) (rp_maximum_evidence_age r);
      Ok (RequireProviderQuorum f)
  end.

Definition bootstrap_checkpoint (s : AccountState) (events : list AuthorizedEvent)
    (checkpoint : SignedCheckpoint) (transition_event : option AuthorizedEvent)
    (evidence : FreshnessEvidence) (caller_requirement : FreshnessRequirement) (verified_at : N)
    (known_conflicts : list Digest) : result IdentityError TrustedCheckpointBootstrap :=
  if bool_decide (known_conflicts ≠ []) then
    _ ← validate_bootstrap_bounds events known_conflicts;
    Err AccountForked
  else
    s ← advance_checkpoint_lineage s events;
    verified ← verify_checkpoint s checkpoint transition_event;
    let p := st_projection s in
    let context := mkAuthContext (p_account_id p) (p_epoch p) (vc_checkpoint_id verified) in
    requirement ← account_requirement (p_provider_policy p);
    freshness ← evaluate_freshness context (p_provider_policy p) requirement caller_requirement
                  evidence verified_at;
    Ok (mkTrusted s verified freshness).

Definition bootstrap_checkpoint_from_genesis (genesis : AccountGenesis) (events : list AuthorizedEvent)
    (checkpoint : SignedCheckpoint) (transition_event : option AuthorizedEvent)
    (evidence : FreshnessEvidence) (caller_requirement : FreshnessRequirement) (verified_at : N)
    (known_conflicts : list Digest) : result IdentityError TrustedCheckpointBootstrap :=
  s ← state_from_genesis genesis;
  bootstrap_checkpoint s events checkpoint transition_event evidence caller_requirement verified_at
    known_conflicts.

(** The prior checkpoint is of the prior state. *)
Definition prior_matches (s : AccountState) (prior : VerifiedCheckpoint) : result IdentityError () :=
  let body := ck_body (vc_checkpoint prior) in
  expected ← build_checkpoint_body s (cb_issued_at body);
  if bool_decide (body ≠ expected) then Err InvalidProof else Ok ().

Definition bootstrap_checkpoint_from_prior (prior_state : AccountState) (prior : VerifiedCheckpoint)
    (events : list AuthorizedEvent) (checkpoint : SignedCheckpoint)
    (transition_event : option AuthorizedEvent) (evidence : FreshnessEvidence)
    (caller_requirement : FreshnessRequirement) (verified_at : N) (known_conflicts : list Digest)
    : result IdentityError TrustedCheckpointBootstrap :=
  _ ← prior_matches prior_state prior;
  bootstrap_checkpoint prior_state events checkpoint transition_event evidence caller_requirement
    verified_at known_conflicts.

(** ** Bundles of a provider *)

Definition build_provider_checkpoint_bundle_from_genesis (genesis : AccountGenesis)
    (events : list AuthorizedEvent) (checkpoint : SignedCheckpoint)
    (transition_event : option AuthorizedEvent) : result IdentityError ProviderCheckpointBundle :=
  s ← state_from_genesis genesis;
  s ← advance_checkpoint_lineage s events;
  verified ← verify_checkpoint s checkpoint transition_event;
  Ok (mkBundle (FromGenesis genesis) events verified).

Definition build_provider_checkpoint_bundle_from_prior (prior_state : AccountState)
    (prior : VerifiedCheckpoint) (events : list AuthorizedEvent) (checkpoint : SignedCheckpoint)
    (transition_event : option AuthorizedEvent) : result IdentityError ProviderCheckpointBundle :=
  _ ← prior_matches prior_state prior;
  s ← advance_checkpoint_lineage prior_state events;
  verified ← verify_checkpoint s checkpoint transition_event;
  Ok (mkBundle (FromPrior (vc_checkpoint_id prior)) events verified).

(** [ProviderCheckpointBundle::merge_approval_evidence]. *)
Definition merge_approval_evidence (a b : ProviderCheckpointBundle)
    : result IdentityError ProviderCheckpointBundle :=
  let va := pb_verified_checkpoint a in
  let vb := pb_verified_checkpoint b in
  if bool_decide (pb_lineage a ≠ pb_lineage b) || bool_decide (pb_events a ≠ pb_events b)
     || bool_decide (vc_transition_event va ≠ vc_transition_event vb)
  then Err (InvalidRelationship "provider checkpoint lineage merge") else
  checkpoint ← checkpoint_merge (vc_checkpoint va) (vc_checkpoint vb);
  id ← checkpoint_id (ck_body checkpoint);
  if bool_decide (id ≠ vc_checkpoint_id va) || bool_decide (id ≠ vc_checkpoint_id vb)
  then Err InvalidProof
  else Ok (mkBundle (pb_lineage a) (pb_events a) (mkVerified checkpoint id (vc_transition_event va))).

End Checkpoints.
