(* ===== verification/IdCheckpointProps.v ===== *)
(** * Checkpoints: what they commit and when they are trusted *)
From stdpp Require Import base tactics list gmap countable orders sorting strings.
From Stdlib Require Import ZArith Lia Strings.Byte.
From S2P Require Import Prelude Bytes IdTypes ExampleWire Merkle MerkleFacts MerkleSets MerkleProps SortedVec IdKeys IdFacts IdPolicy IdPolicyProps IdProviders IdApprovals IdGuardians IdCapability IdDevices IdEvidence IdRecovery IdMigration IdEvents IdAccount IdAccountOps IdVerifier IdAccountFacts IdAccountExample IdAccountHistory IdVerifierProps IdRecoveryProps IdForks IdForksHistory IdForksProps IdCheckpoint.

Local Open Scope N_scope.

(** A format reads back what it writes: the second of [WireLaws]. *)
Class TakesBack (A : Type) `{WireFormat A} : Prop :=
  takes_back (a : A) bytes rest : to_stdvec a = Some bytes → take_from_bytes (bytes ++ rest) = Some (a, rest).

Lemma written_inj `{TakesBack A} (a b : A) bytes : encode_wire a = Ok bytes → encode_wire b = Ok bytes → a = b.
Proof.
  unfold encode_wire. destruct (to_stdvec a) as [x|] eqn:Ha; [|done].
  destruct (to_stdvec b) as [y|] eqn:Hb; [|done]. intros [= ->] [= ->].
  apply (takes_back _ _ []) in Ha, Hb. congruence.
Qed.

Section Props.
  Context `{HB : Blake3Hash} `{HC : Curve} `{HAW : !AccountWire} `{HFW : !ForkWire} `{HCW : !CheckpointWire}.

#[local] Arguments event_id : simpl never.

(** ** The leaves *)

Lemma leaf_at_Ok tag id domain value leaf : leaf_at tag id domain value = Ok leaf →
  leaf = mkMerkleSetLeaf (mkMerkleSetKey tag id) (hash_bytes domain value).
Proof. unfold leaf_at, MerkleSetKey_new. destruct (tag =? 0); [done|]. by intros [= <-]. Qed.

(** The devices with a lifecycle, and their leaves. *)
Definition leaves_of (tag : N) (domain : HashDomain) (l : ProjectedDeviceLifecycle)
    (devices : list ProjectedDevice) (leaves : list MerkleSetLeaf) : Prop :=
  Forall2 (λ d leaf, device_set_leaf tag domain d = Ok leaf)
    (filter (λ d, dv_lifecycle d = l) devices) leaves.

Lemma device_leaves_Ok devices state authorized revoked :
  device_leaves devices = Ok (state, authorized, revoked) →
  Forall2 (λ d leaf, device_state_leaf d = Ok leaf) devices state ∧
  leaves_of CHECKPOINT_AUTHORIZED_DEVICE_TYPE_TAG DomainAuthorizedSet DeviceIsActive devices authorized ∧
  leaves_of CHECKPOINT_REVOKED_DEVICE_TYPE_TAG DomainRevokedSet DeviceIsRevoked devices revoked.
Proof.
  unfold leaves_of. revert state authorized revoked.
  induction devices as [|d devices IH]; intros state authorized revoked H; cbn [device_leaves] in H.
  { injection H as <- <- <-. by split_and!. }
  do 2 ok_step H. destruct y0 as [a r]. ok_step H. destruct y0 as [[st au] rv]. injection H as <- <- <-.
  destruct (IH _ _ _ Hy1) as (Hst & Hau & Hrv). rewrite !filter_cons.
  destruct (dv_lifecycle d) eqn:Hd; try ok_step Hy0; injection Hy0 as <- <-;
    repeat (rewrite decide_True by done || rewrite decide_False by done); split_and!; by repeat constructor.
Qed.

(** What the three sets of a checkpoint hold. *)
Record committed (s : AccountState) (metadata : list byte)
    (active revoked devices authorized gone : list MerkleSetLeaf) (sets : CheckpointMerkleSets) : Prop := {
  cm_fork : st_fork s = None ∧ p_lifecycle (st_projection s) ≠ LifeForked;
  cm_metadata : checkpoint_state_material s = Ok metadata;
  cm_active : Forall2 (λ c leaf, controller_state_leaf true c = Ok leaf)
                (p_active_controllers (st_projection s)) active;
  cm_revoked : Forall2 (λ c leaf, controller_state_leaf false c = Ok leaf)
                 (p_revoked_controllers (st_projection s)) revoked;
  cm_devices : Forall2 (λ d leaf, device_state_leaf d = Ok leaf) (p_devices (st_projection s)) devices;
  cm_authorized : leaves_of CHECKPOINT_AUTHORIZED_DEVICE_TYPE_TAG DomainAuthorizedSet DeviceIsActive
                    (p_devices (st_projection s)) authorized;
  cm_gone : leaves_of CHECKPOINT_REVOKED_DEVICE_TYPE_TAG DomainRevokedSet DeviceIsRevoked
              (p_devices (st_projection s)) gone;
  cm_state_set : set_new (mkMerkleSetLeaf
      (mkMerkleSetKey CHECKPOINT_STATE_METADATA_TYPE_TAG (hash_bytes DomainStateRoot metadata_key_text))
      (hash_bytes DomainStateRoot metadata) :: active ++ revoked ++ devices) = Ok (ms_state sets);
  cm_authorized_set : set_new authorized = Ok (ms_authorized_devices sets);
  cm_gone_set : set_new gone = Ok (ms_revoked_devices sets);
}.

Lemma merkle_sets_Ok s sets : build_checkpoint_merkle_sets s = Ok sets →
  ∃ metadata active revoked devices authorized gone,
    committed s metadata active revoked devices authorized gone sets.
Proof.
  unfold build_checkpoint_merkle_sets. cbv zeta.
  intros (material & Hm & (leaf & ->%leaf_at_Ok & (active & Ha%collect_fmap_Ok &
    (revoked & Hr%collect_fmap_Ok & ([[dv au] rv] & (? & ? & ?)%device_leaves_Ok &
    (st & Hst & (aset & Hau & (rset & Hrv & <-%Ok_injective)%bind_Ok)%bind_Ok)%bind_Ok)%bind_Ok)%bind_Ok)%bind_Ok)%bind_Ok)%bind_Ok.
  exists material, active, revoked, dv, au, rv. split; try done.
  unfold checkpoint_state_material in Hm. cbv zeta in Hm. ok_step Hm. bool_hyps.
  unfold has_fork in *. by destruct (st_fork s).
Qed.

(** A body has the fields of the projection and the roots of its sets. *)
Record body_of (s : AccountState) (sets : CheckpointMerkleSets) (body : CheckpointBody) : Prop := {
  bo_sets : build_checkpoint_merkle_sets s = Ok sets;
  bo_state_root : set_root (ms_state sets) = Ok (cb_state_root body);
  bo_authorized_root : set_root (ms_authorized_devices sets) = Ok (cb_authorized_set_root body);
  bo_revoked_root : set_root (ms_revoked_devices sets) = Ok (cb_revoked_set_root body);
  bo_account : cb_account_id body = p_account_id (st_projection s);
  bo_head : p_heads (st_projection s) = [cb_event_head body];
}.

Lemma build_body_Ok s issued body : build_checkpoint_body s issued = Ok body → ∃ sets, body_of s sets body.
Proof.
  intros H. unfold build_checkpoint_body in H. cbv zeta in H. destruct (p_heads _) as [|h [|]] eqn:Hh; try done.
  apply bind_Ok in H as (life & _ & ([[sr ar] rr] & Hroots & (crypto & _ & H)%bind_Ok)%bind_Ok).
  unfold checkpoint_body_new in H. apply bind_Ok in H as (u & _ & <-%Ok_injective).
  unfold checkpoint_roots in Hroots.
  apply bind_Ok in Hroots as (sets & Hs & (a & Ha & (b & Hb & (c & Hc & [= <- <- <-])%bind_Ok)%bind_Ok)%bind_Ok).
  by exists sets.
Qed.

Lemma verify_Ok s c t v : verify_checkpoint s c t = Ok v →
  build_checkpoint_body s (cb_issued_at (ck_body c)) = Ok (ck_body c) ∧
  checkpoint_id (ck_body c) = Ok (vc_checkpoint_id v) ∧ vc_checkpoint v = c.
Proof.
  intros H. unfold verify_checkpoint in H. cbv zeta in H. apply bind_Ok in H as (expected & He & H).
  ok_step H. bool_hyps. apply dec_stable in Hc.
  apply bind_Ok in H as (id & Hid & (retained & _ & <-%Ok_injective)%bind_Ok).
  split_and!; [by rewrite He, <-Hc|done|done].
Qed.

(** ** Devices *)

Section Merkle.
  Context `{HNL : !WireLaws (Digest * Digest)} `{HLL : !WireLaws (N * Digest * Digest)}.

Lemma leaves_member tag domain l devices leaves leaf : leaves_of tag domain l devices leaves →
  leaf ∈ leaves ↔ ∃ d, d ∈ devices ∧ dv_lifecycle d = l ∧ device_set_leaf tag domain d = Ok leaf.
Proof.
  unfold leaves_of. intros H. split.
  - intros Hin. apply list_elem_of_lookup in Hin as [i Hi].
    destruct (Forall2_lookup_r _ _ _ _ _ H Hi) as (d & Hd & Hl).
    apply list_elem_of_lookup_2, list_elem_of_filter in Hd as [??]. by exists d.
  - intros (d & Hin & Hl & Hd). assert (Hf : d ∈ filter (λ d, dv_lifecycle d = l) devices).
    { by apply list_elem_of_filter. }
    apply list_elem_of_lookup in Hf as [i Hi]. destruct (Forall2_lookup_l _ _ _ _ _ H Hi) as (leaf' & Hl' & Hd').
    rewrite Hd in Hd'. injection Hd' as <-. by eapply list_elem_of_lookup_2.
Qed.

(** Proofs against the root of one of the two sets of devices. *)
Lemma set_membership tag domain l devices leaves set r proof leaf :
  leaves_of tag domain l devices leaves → set_new leaves = Ok set → set_root set = Ok r →
  tree_size proof ≤ usize_max → inclusion_verify proof leaf r = Ok () →
  (∃ d, d ∈ devices ∧ dv_lifecycle d = l ∧ device_set_leaf tag domain d = Ok leaf) ∨ collision.
Proof.
  intros Hl [_ Hperm]%set_new_wf Hr Hsz Hv. destruct (inclusion_verify_member set proof leaf r Hr Hsz Hv); [left|by right].
  by apply (leaves_member tag domain l devices leaves leaf); [|rewrite <-Hperm].
Qed.

Lemma set_absence tag domain l devices leaves set r proof id :
  leaves_of tag domain l devices leaves → set_new leaves = Ok set → set_root set = Ok r →
  nm_tree_size proof ≤ usize_max → non_membership_verify proof (mkMerkleSetKey tag id) r = Ok () →
  (∀ d, d ∈ devices → dv_id d = id → dv_lifecycle d ≠ l) ∨ collision.
Proof.
  intros Hl [Hwf Hperm]%set_new_wf Hr Hsz Hv.
  destruct (non_membership_absent set proof _ r Hwf Hr Hsz Hv) as [Ha|]; [left|by right].
  intros d Hd Hid Hlife. assert (Hf : d ∈ filter (λ d, dv_lifecycle d = l) devices) by by apply list_elem_of_filter.
  apply list_elem_of_lookup in Hf as [i Hi]. destruct (Forall2_lookup_l _ _ _ _ _ Hl Hi) as (leaf & Hleaf & Hd').
  apply (Ha leaf); [rewrite Hperm; by eapply list_elem_of_lookup_2|].
  unfold device_set_leaf in Hd'. apply bind_Ok in Hd' as (value & _ & ->%leaf_at_Ok). cbn. by rewrite Hid.
Qed.

(** C10. What a device can prove of itself against a checkpoint is what it is: a leaf
    with an inclusion proof for the set of authorized devices is that of an active
    device of the account, one for the set of revoked devices that of a revoked device,
    and a proof of absence from either set means that no device with the identifier is
    in that state; unless two inputs of the hash collide. *)
Theorem checkpoint_device_status : ∀ s checkpoint transition verified proof absence leaf id,
  verify_checkpoint s checkpoint transition = Ok verified →
  tree_size proof ≤ usize_max → nm_tree_size absence ≤ usize_max →
  let body := ck_body checkpoint in
  let devices := p_devices (st_projection s) in
  (inclusion_verify proof leaf (cb_authorized_set_root body) = Ok () →
    (∃ d, d ∈ devices ∧ dv_lifecycle d = DeviceIsActive ∧
       device_set_leaf CHECKPOINT_AUTHORIZED_DEVICE_TYPE_TAG DomainAuthorizedSet d = Ok leaf) ∨ collision) ∧
  (inclusion_verify proof leaf (cb_revoked_set_root body) = Ok () →
    (∃ d, d ∈ devices ∧ dv_lifecycle d = DeviceIsRevoked ∧
       device_set_leaf CHECKPOINT_REVOKED_DEVICE_TYPE_TAG DomainRevokedSet d = Ok leaf) ∨ collision) ∧
  (non_membership_verify absence (mkMerkleSetKey CHECKPOINT_AUTHORIZED_DEVICE_TYPE_TAG id)
     (cb_authorized_set_root body) = Ok () →
    (∀ d, d ∈ devices → dv_id d = id → dv_lifecycle d ≠ DeviceIsActive) ∨ collision) ∧
  (non_membership_verify absence (mkMerkleSetKey CHECKPOINT_REVOKED_DEVICE_TYPE_TAG id)
     (cb_revoked_set_root body) = Ok () →
    (∀ d, d ∈ devices → dv_id d = id → dv_lifecycle d ≠ DeviceIsRevoked) ∨ collision).
Proof.
  intros s c t v proof absence leaf id (Hb & _ & _)%verify_Ok Hp Ha body devices.
  apply build_body_Ok in Hb as (sets & [Hs _ Har Hrr _ _]).
  apply merkle_sets_Ok in Hs as (m & ac & re & dv & au & gone & H).
  destruct H as [_ _ _ _ _ Hau Hgo _ Has Hrs]. split_and!; intros Hv.
  - by eapply set_membership.
  - by eapply set_membership.
  - by eapply set_absence.
  - by eapply set_absence.
Qed.

(** ** The state is determined *)

Section Binding.
  Context `{HBL : !TakesBack CheckpointBody} `{HSL : !TakesBack CheckpointStateMaterial}
    `{HCL : !TakesBack ControllerLeaf} `{HDL : !TakesBack DeviceLeaf}.

(** The identifier of a body determines it. *)
Lemma checkpoint_id_inj b1 b2 id : checkpoint_id b1 = Ok id → checkpoint_id b2 = Ok id → b1 = b2 ∨ collision.
Proof.
  unfold checkpoint_id, derive. intros (x & Hx & <-%Ok_injective)%bind_Ok (y & Hy & Heq%Ok_injective)%bind_Ok.
  apply hash_bytes_inj in Heq as [[_ ->]|]; [left|by right].
  unfold to_canonical_bytes in *. cbn in *. ok_step Hx. ok_step Hy. ok_step Hx. ok_step Hy.
  apply Ok_injective in Hx, Hy. subst. by eapply written_inj.
Qed.

(** A leaf of the state that encodes a value. *)
Definition encodes {A} `{WireFormat A} (tag : N) (id : Digest) (a : A) (leaf : MerkleSetLeaf) : Prop :=
  ∃ value, encode_wire a = Ok value ∧
    leaf = mkMerkleSetLeaf (mkMerkleSetKey tag id) (hash_bytes DomainStateRoot value).

Lemma encodes_inj {A} `{TakesBack A} tag1 tag2 id1 id2 (a b : A) leaf :
  encodes tag1 id1 a leaf → encodes tag2 id2 b leaf → a = b ∨ collision.
Proof.
  intros (x & Hx & ->) (y & Hy & [= _ _ Heq]). assert (hash_bytes DomainStateRoot x = hash_bytes DomainStateRoot y)
    as Hh by by unfold hash_bytes; f_equal.
  apply hash_bytes_inj in Hh as [[_ ->]|]; [left|by right]. by eapply written_inj.
Qed.

Lemma encodes_tag {A B} `{WireFormat A} `{WireFormat B} tag1 tag2 id1 id2 (a : A) (b : B) leaf :
  encodes tag1 id1 a leaf → encodes tag2 id2 b leaf → tag1 = tag2.
Proof. by intros (x & _ & ->) (y & _ & [= ? _ _]). Qed.

(** The leaves of a state, by what they encode. *)
Definition material_of (p : Projection) (crypto : Digest) : CheckpointStateMaterial :=
  mkStateMaterial (p_account_id p) (p_genesis_anchor p) (p_protocol_major p) (p_sequence p)
    (p_epoch p) (p_heads p) (p_control_policy_id p) (p_recovery_policy_id p) (p_provider_policy_id p)
    (p_pending_recovery p) crypto (projection_lifecycle_code (p_lifecycle p)) (p_upgrade p) (p_retirement p).

Definition metadata_id : Digest := hash_bytes DomainStateRoot metadata_key_text.

Definition leaf_of (p : Projection) (crypto : Digest) (leaf : MerkleSetLeaf) : Prop :=
  encodes CHECKPOINT_STATE_METADATA_TYPE_TAG metadata_id (material_of p crypto) leaf ∨
  (∃ c, c ∈ p_active_controllers p ∧
     encodes CHECKPOINT_STATE_CONTROLLER_TYPE_TAG (pc_id c) (controller_leaf true c) leaf) ∨
  (∃ c, c ∈ p_revoked_controllers p ∧
     encodes CHECKPOINT_STATE_CONTROLLER_TYPE_TAG (pc_id c) (controller_leaf false c) leaf) ∨
  (∃ d, d ∈ p_devices p ∧ encodes CHECKPOINT_STATE_DEVICE_TYPE_TAG (dv_id d) (device_leaf d) leaf).

Lemma controller_encodes active c leaf : controller_state_leaf active c = Ok leaf →
  encodes CHECKPOINT_STATE_CONTROLLER_TYPE_TAG (pc_id c) (controller_leaf active c) leaf.
Proof. intros (value & Hv & ->%leaf_at_Ok)%bind_Ok. by exists value. Qed.

Lemma device_encodes d leaf : device_state_leaf d = Ok leaf →
  encodes CHECKPOINT_STATE_DEVICE_TYPE_TAG (dv_id d) (device_leaf d) leaf.
Proof. intros (value & Hv & ->%leaf_at_Ok)%bind_Ok. by exists value. Qed.

Lemma forall2_member {A B} (R : A → B → Prop) l k b : Forall2 R l k → b ∈ k → ∃ a, a ∈ l ∧ R a b.
Proof.
  intros H Hb. apply list_elem_of_lookup in Hb as [i Hi]. destruct (Forall2_lookup_r _ _ _ _ _ H Hi) as (a & Ha & ?).
  exists a. split; [by eapply list_elem_of_lookup_2|done].
Qed.

Lemma forall2_image {A B} (R : A → B → Prop) l k a : Forall2 R l k → a ∈ l → ∃ b, b ∈ k ∧ R a b.
Proof.
  intros H Ha. apply list_elem_of_lookup in Ha as [i Hi]. destruct (Forall2_lookup_l _ _ _ _ _ H Hi) as (b & Hb & ?).
  exists b. split; [by eapply list_elem_of_lookup_2|done].
Qed.

(** The state set holds a leaf for each part of the state, and no other. *)
Record state_leaves (p : Projection) (crypto : Digest) (leaves : list MerkleSetLeaf) : Prop := {
  sl_crypto : crypto_state_id p = Ok crypto;
  sl_only : ∀ leaf, leaf ∈ leaves → leaf_of p crypto leaf;
  sl_metadata : ∃ leaf, leaf ∈ leaves ∧
    encodes CHECKPOINT_STATE_METADATA_TYPE_TAG metadata_id (material_of p crypto) leaf;
  sl_active : ∀ c, c ∈ p_active_controllers p → ∃ leaf, leaf ∈ leaves ∧
    encodes CHECKPOINT_STATE_CONTROLLER_TYPE_TAG (pc_id c) (controller_leaf true c) leaf;
  sl_revoked : ∀ c, c ∈ p_revoked_controllers p → ∃ leaf, leaf ∈ leaves ∧
    encodes CHECKPOINT_STATE_CONTROLLER_TYPE_TAG (pc_id c) (controller_leaf false c) leaf;
  sl_devices : ∀ d, d ∈ p_devices p → ∃ leaf, leaf ∈ leaves ∧
    encodes CHECKPOINT_STATE_DEVICE_TYPE_TAG (dv_id d) (device_leaf d) leaf;
}.

Lemma material_encodes s m : checkpoint_state_material s = Ok m →
  ∃ crypto, crypto_state_id (st_projection s) = Ok crypto ∧
    encode_wire (material_of (st_projection s) crypto) = Ok m.
Proof.
  unfold checkpoint_state_material. cbv zeta. intros H. ok_step H. apply bind_Ok in H as (crypto & ? & ?).
  by exists crypto.
Qed.

Lemma committed_leaves s m ac re dv au gone sets : committed s m ac re dv au gone sets →
  ∃ crypto, state_leaves (st_projection s) crypto (entries (ms_state sets)).
Proof.
  intros [_ (crypto & Hcr & Hm)%material_encodes Hac Hre Hdv _ _ [_ Hperm]%set_new_wf _ _]. exists crypto.
  split; [done|..].
  - intros leaf. rewrite Hperm, elem_of_cons, !elem_of_app. unfold leaf_of.
    intros [->|[Hin|[Hin|Hin]]]; [left; by exists m|right..].
    + left. destruct (forall2_member _ _ _ _ Hac Hin) as (c & ? & ?). exists c. by split; [|apply controller_encodes].
    + right. left. destruct (forall2_member _ _ _ _ Hre Hin) as (c & ? & ?). exists c. by split; [|apply controller_encodes].
    + right. right. destruct (forall2_member _ _ _ _ Hdv Hin) as (d & ? & ?). exists d. by split; [|apply device_encodes].
  - eexists. rewrite Hperm. split; [left|by exists m].
  - intros c Hc. destruct (forall2_image _ _ _ _ Hac Hc) as (leaf & ? & ?%controller_encodes). exists leaf. split; [|done].
    rewrite Hperm, elem_of_cons, !elem_of_app. auto.
  - intros c Hc. destruct (forall2_image _ _ _ _ Hre Hc) as (leaf & ? & ?%controller_encodes). exists leaf. split; [|done].
    rewrite Hperm, elem_of_cons, !elem_of_app. auto.
  - intros d Hd. destruct (forall2_image _ _ _ _ Hdv Hd) as (leaf & ? & ?%device_encodes). exists leaf. split; [|done].
    rewrite Hperm, elem_of_cons, !elem_of_app. auto.
Qed.

(** What a checkpoint commits of a projection. *)
Record same_authority (p q : Projection) : Prop := {
  sy_account : p_account_id p = p_account_id q ∧ p_genesis_anchor p = p_genesis_anchor q;
  sy_position : p_sequence p = p_sequence q ∧ p_epoch p = p_epoch q ∧ p_heads p = p_heads q;
  sy_controllers : p_active_controllers p = p_active_controllers q ∧
    p_revoked_controllers p = p_revoked_controllers q;
  sy_devices : p_devices p = p_devices q;
  sy_policies : p_control_policy_id p = p_control_policy_id q ∧
    p_recovery_policy_id p = p_recovery_policy_id q ∧ p_provider_policy_id p = p_provider_policy_id q;
  sy_crypto : crypto_state_id p = crypto_state_id q;
  sy_phase : p_protocol_major p = p_protocol_major q ∧ p_lifecycle p = p_lifecycle q ∧
    p_pending_recovery p = p_pending_recovery q ∧ p_upgrade p = p_upgrade q ∧
    p_retirement p = p_retirement q;
}.

Lemma forall_or {A} (P : A → Prop) (Q : Prop) (l : list A) : (∀ a, a ∈ l → P a ∨ Q) → (∀ a, a ∈ l → P a) ∨ Q.
Proof.
  intros H. induction l as [|a l IH]; [left; by intros a ?%not_elem_of_nil|].
  destruct (H a) as [Ha|]; [left| |by right]. destruct IH as [IH|]; [intros b Hb; apply H; by right| |by right].
  left. intros b [->|Hb]%elem_of_cons; auto.
Qed.

Lemma ascending_same {A} (key : A → Digest) l1 l2 : ascending digest_le key l1 → ascending digest_le key l2 →
  (∀ a, a ∈ l1 → a ∈ l2) → (∀ a, a ∈ l2 → a ∈ l1) → l1 = l2.
Proof.
  intros H1 H2 H12 H21. apply (ascending_unique digest_le key); [done..|]. apply NoDup_Permutation.
  - eapply NoDup_fmap_1, (ascending_NoDup digest_le key), H1.
  - eapply NoDup_fmap_1, (ascending_NoDup digest_le key), H2.
  - intros a. split; auto.
Qed.

(** A part of one state is a part of the other. *)
Lemma controller_shared p cp q cq leaves active c : state_leaves p cp leaves → state_leaves q cq leaves →
  c ∈ (if active : bool then p_active_controllers p else p_revoked_controllers p) →
  c ∈ (if active then p_active_controllers q else p_revoked_controllers q) ∨ collision.
Proof.
  intros Hp Hq Hc. assert (∃ leaf, leaf ∈ leaves ∧
    encodes CHECKPOINT_STATE_CONTROLLER_TYPE_TAG (pc_id c) (controller_leaf active c) leaf) as (leaf & Hin & He).
  { destruct active; [by apply (sl_active _ _ _ Hp)|by apply (sl_revoked _ _ _ Hp)]. }
  destruct (sl_only _ _ _ Hq leaf Hin) as [Hm|[(c' & Hc' & He')|[(c' & Hc' & He')|(d & _ & Hd)]]].
  - by pose proof (encodes_tag _ _ _ _ _ _ _ He Hm).
  - destruct (encodes_inj _ _ _ _ _ _ _ He He') as [[= Hi Hd ->]|]; [left|by right].
    by destruct c, c'; cbn in *; subst.
  - destruct (encodes_inj _ _ _ _ _ _ _ He He') as [[= Hi Hd ->]|]; [left|by right].
    by destruct c, c'; cbn in *; subst.
  - by pose proof (encodes_tag _ _ _ _ _ _ _ He Hd).
Qed.

Lemma lifecycle_code_inj l1 l2 : projected_device_lifecycle_code l1 = projected_device_lifecycle_code l2 → l1 = l2.
Proof. by destruct l1, l2. Qed.

Lemma device_shared p cp q cq leaves d : state_leaves p cp leaves → state_leaves q cq leaves →
  d ∈ p_devices p → d ∈ p_devices q ∨ collision.
Proof.
  intros Hp Hq Hd. destruct (sl_devices _ _ _ Hp d Hd) as (leaf & Hin & He).
  destruct (sl_only _ _ _ Hq leaf Hin) as [Hm|[(c & _ & Hc)|[(c & _ & Hc)|(d' & Hd' & He')]]].
  - by pose proof (encodes_tag _ _ _ _ _ _ _ He Hm).
  - by pose proof (encodes_tag _ _ _ _ _ _ _ He Hc).
  - by pose proof (encodes_tag _ _ _ _ _ _ _ He Hc).
  - destruct (encodes_inj _ _ _ _ _ _ _ He He') as [Heq|]; [left|by right].
    unfold device_leaf in Heq. injection Heq as Hi Hde Hcl Hme Hca Hep Hli%lifecycle_code_inj.
    by destruct d, d'; cbn in *; subst.
Qed.

Lemma metadata_shared p cp q cq leaves : state_leaves p cp leaves → state_leaves q cq leaves →
  material_of p cp = material_of q cq ∨ collision.
Proof.
  intros Hp Hq. destruct (sl_metadata _ _ _ Hp) as (leaf & Hin & He).
  destruct (sl_only _ _ _ Hq leaf Hin) as [Hm|[(c & _ & Hc)|[(c & _ & Hc)|(d & _ & Hd)]]].
  - by eapply encodes_inj.
  - by pose proof (encodes_tag _ _ _ _ _ _ _ He Hc).
  - by pose proof (encodes_tag _ _ _ _ _ _ _ He Hc).
  - by pose proof (encodes_tag _ _ _ _ _ _ _ He Hd).
Qed.

Lemma leaves_determine p cp q cq leaves : authority_ok p → authority_ok q →
  state_leaves p cp leaves → state_leaves q cq leaves → same_authority p q ∨ collision.
Proof.
  intros [[Hpa Hpr _ _ _ _ _] _ [Hpd _ _ _ _ _] _ _] [[Hqa Hqr _ _ _ _ _] _ [Hqd _ _ _ _ _] _ _] Hp Hq.
  destruct (metadata_shared p cp q cq leaves Hp Hq) as [Hm|]; [|by right].
  destruct (forall_or _ _ _ (λ c, controller_shared p cp q cq leaves true c Hp Hq)) as [A1|]; [|by right].
  destruct (forall_or _ _ _ (λ c, controller_shared q cq p cp leaves true c Hq Hp)) as [A2|]; [|by right].
  destruct (forall_or _ _ _ (λ c, controller_shared p cp q cq leaves false c Hp Hq)) as [R1|]; [|by right].
  destruct (forall_or _ _ _ (λ c, controller_shared q cq p cp leaves false c Hq Hp)) as [R2|]; [|by right].
  destruct (forall_or _ _ _ (λ d, device_shared p cp q cq leaves d Hp Hq)) as [D1|]; [|by right].
  destruct (forall_or _ _ _ (λ d, device_shared q cq p cp leaves d Hq Hp)) as [D2|]; [|by right].
  left. unfold material_of in Hm. injection Hm as ? ? ? ? ? ? ? ? ? ? Hcr Hli ? ?. split; try done.
  - split; by apply (ascending_same pc_id).
  - by apply (ascending_same dv_id).
  - rewrite (sl_crypto _ _ _ Hp), (sl_crypto _ _ _ Hq). by f_equal.
  - split_and!; try done. by destruct (p_lifecycle p), (p_lifecycle q).
Qed.


End Binding.

End Merkle.

(** ** Trust *)

(** Who authorized a checkpoint: controllers of the account with the weight that a
    change of the providers takes, or the last event of the account. *)
Definition authorized_by (s : Projection) (id : Digest) (checkpoint : SignedCheckpoint)
    (transition_event : option AuthorizedEvent) : Prop :=
  match ck_authorization checkpoint with
  | ByControllers approvals =>
      ∃ rule voters, rule_for (p_control_policy s) OpChangeProviderPolicy = Some rule ∧
        votes s (pr_eligible_controllers rule) OpChangeProviderPolicy approvals voters ∧
        NoDup (pc_id <$> voters) ∧ pr_required_weight rule ≤ sum_with weight_of voters ∧
        ∀ a, a ∈ approvals → body_checkpoint_id (sa_body a) = Some id
  | TransitionDerived witness =>
      ∃ event, transition_event = Some event ∧ event_id event = Ok (tw_event_id witness) ∧
        event_authorization_id event = Ok (tw_event_authorization_id witness) ∧
        p_heads s = [tw_event_id witness]
  end.

Definition checkpoint_built (checkpoint : SignedCheckpoint) : Prop :=
  match ck_authorization checkpoint with
  | ByControllers approvals => approvals_from_sorted approvals = Ok approvals
  | TransitionDerived _ => True
  end.

Lemma verify_authorized s c t v : authority_ok (st_projection s) → checkpoint_built c →
  verify_checkpoint s c t = Ok v → authorized_by (st_projection s) (vc_checkpoint_id v) c t.
Proof.
  intros Hs Hb H. destruct (verify_Ok _ _ _ _ H) as ((sets & Hbody)%build_body_Ok & Hid & _).
  unfold verify_checkpoint in H. cbv zeta in H. apply bind_Ok in H as (expected & _ & H). ok_step H.
  rewrite Hid in H. cbn [mbind result_bind] in H. apply bind_Ok in H as (kept & H & _).
  unfold authorized_by, checkpoint_built in *. destruct (ck_authorization c) as [approvals|w].
  - ok_step H. ok_step H. ok_step H. apply bind_Ok in H as (u & H & _). unfold verify_checkpoint_approvals in H.
    destruct (rule_for _ _) as [rule|]; [|done]. apply bind_Ok in H as (total & Ht & H). ok_step H. bool_hyps.
    apply approvals_weight_Ok in Ht as (voters & Hv & ->); [|done]. exists rule, voters.
    split_and!; [done..|by eapply votes_distinct|done|]. intros a Ha.
    unfold other_subject in *. rewrite existsb_false, Forall_forall in *. by apply bool_ne_false; auto.
  - destruct t as [event|]; [|done]. apply bind_Ok in H as (i & Hi & H). ok_step H.
    apply bind_Ok in H as (ai & Hai & H). ok_step H. bool_hyps. exists event.
    rewrite (bo_head _ _ _ Hbody). split_and!; [done|..]; repeat match goal with
      | Hn : ¬ (_ ≠ _) |- _ => apply dec_stable in Hn end; congruence.
Qed.

(** The providers and the times of the receipts that count. *)
Record recent (account : Digest) (providers : list ProviderDescriptor) (at_time age : N)
    (r : InclusionReceipt) : Prop := {
  rc_attested : attested account providers r;
  rc_entry : receipt_observed_at r ≤ at_time + MAX_FUTURE_CLOCK_SKEW;
  rc_head : receipt_head_time r ≤ at_time + MAX_FUTURE_CLOCK_SKEW;
  rc_age : at_time ≤ receipt_observed_at r + age;
}.

Lemma provider_with_id_Some providers id p : provider_with_id providers id = Some p →
  p ∈ providers ∧ provider_id p = Ok id.
Proof.
  intros [Hin%list_elem_of_In H]%List.find_some. split; [done|].
  destruct (provider_id p); [|done]. apply bool_decide_eq_true in H. by subst.
Qed.

Lemma recent_receipts_Ok account providers at_time age receipts valid stale :
  recent_receipts account providers at_time (at_time + MAX_FUTURE_CLOCK_SKEW) age receipts = Ok (valid, stale) →
  valid `sublist_of` receipts ∧ Forall (recent account providers at_time age) valid.
Proof.
  revert valid stale. induction receipts as [|r receipts IH]; intros valid stale H; cbn [recent_receipts] in H.
  { injection H as <- <-. by split. }
  ok_step H. apply bool_decide_eq_false, dec_stable in Hc.
  destruct (provider_with_id _ _) as [p|] eqn:Hp.
  - apply provider_with_id_Some in Hp as [Hin Hid].
    apply bind_Ok in H as ([] & Hv & ([valid' stale'] & [Hs Hall]%IH & H)%bind_Ok). cbv zeta in H.
    destruct (_ || _) eqn:Ht; injection H as <- <-; [by split; [apply sublist_cons|]|].
    bool_hyps. split; [by apply sublist_skip|]. constructor; [|done]. split; [|lia..]. split; [done|by exists p].
  - apply IH in H as [Hs Hall]. by split; [apply sublist_cons|].
Qed.

(** What the account and the caller ask of the evidence: a quorum and an age each. *)
Definition demands (mode : ProviderMode) (caller : FreshnessRequirement) : list (N * N) :=
  match mode with
  | LocalOnly => []
  | Replicated r => [(rp_sufficient_threshold r, rp_maximum_evidence_age r)]
  end ++ match caller with
         | LatestKnown => []
         | RequireProviderQuorum f => [(pf_required f, pf_maximum_age f)]
         end.

Definition evidence_built (evidence : FreshnessEvidence) : Prop :=
  match evidence with
  | FreshLocalKnown _ => True
  | FreshProviderQuorum id policy receipts =>
      freshness_provider_quorum id policy receipts = Ok evidence ∧
      receipts_from_sorted receipts = Ok receipts
  end.

(** A quorum of distinct providers has the checkpoint in its log, observed recently. *)
Record fresh_quorum (s : Projection) (id : Digest) (at_time quorum age : N)
    (policy : ReplicatedProviderPolicy) (receipts : ProviderReceipts) : Prop := {
  fq_policy : pp_mode (p_provider_policy s) = Replicated policy;
  fq_providers : NoDup (receipt_provider_id <$> receipts);
  fq_quorum : quorum ≤ len receipts;
  fq_subject : Forall (λ r, receipt_subject r = SubjectCheckpoint id) receipts;
  fq_recent : Forall (recent (p_account_id s) (rp_providers policy) at_time age) receipts;
}.

Lemma combined_demands policy caller requirement quorum age :
  account_requirement policy = Ok requirement → (quorum, age) ∈ demands (pp_mode policy) caller →
  ∃ required maximum, combine_requirements requirement caller = Some (required, maximum) ∧
    quorum ≤ required ∧ maximum ≤ age.
Proof.
  unfold account_requirement, demands. destruct (pp_mode policy) as [|r]; cbn; intros H Hin.
  - apply Ok_injective in H as <-. destruct caller as [|f]; cbn in *; [by apply not_elem_of_nil in Hin|].
    apply list_elem_of_singleton in Hin as [= -> ->]. by eexists _, _.
  - apply bind_Ok in H as (f & Hf & <-%Ok_injective). unfold freshness_new in Hf. ok_steps Hf. subst f.
    destruct caller as [|f]; cbn in *.
    + apply list_elem_of_singleton in Hin as [= -> ->]. by eexists _, _.
    + eexists _, _. split; [done|]. apply elem_of_cons in Hin as [[= -> ->]|[= -> ->]%list_elem_of_singleton]; lia.
Qed.

Lemma freshness_quorum s id context requirement caller evidence at_time decision quorum age :
  ac_account_id context = p_account_id s → ac_checkpoint_id context = id → evidence_built evidence →
  account_requirement (p_provider_policy s) = Ok requirement →
  evaluate_freshness context (p_provider_policy s) requirement caller evidence at_time = Ok decision →
  (quorum, age) ∈ demands (pp_mode (p_provider_policy s)) caller →
  ∃ policy receipts, fresh_quorum s id at_time quorum age policy receipts.
Proof.
  intros Ha Hi He Hr H Hd. destruct (combined_demands _ _ _ _ _ Hr Hd) as (required & maximum & Hc & Hq & Hm).
  unfold evaluate_freshness in H. cbv zeta in H. ok_step H. bool_hyps.
  apply bind_Ok in H as (policy_id & _ & H). rewrite Hc in H. destruct (pp_mode _) as [|policy] eqn:Hp; [done|].
  ok_step H. destruct evidence as [|cid pid receipts]; [done|]. cbn in H, Hc0.
  apply bind_Ok in H as (limit & [-> _]%checked_add_Ok & ([valid stale] & [Hs Hall]%recent_receipts_Ok & H)%bind_Ok).
  ok_step H. bool_hyps. destruct He as [Hf Hd'%receipts_distinct]. exists policy, valid.
  assert (Hsub : Forall (λ r, receipt_subject r = SubjectCheckpoint cid) receipts).
  { unfold freshness_provider_quorum in Hf. ok_step Hf. destruct (existsb _ receipts) eqn:Hx; [done|].
    eapply Forall_impl; [apply existsb_false, Hx|]. intros r Hr'. by apply bool_ne_false. }
  split; [done|..].
  - eapply sublist_NoDup; [exact Hd'|]. by apply fmap_sublist.
  - lia.
  - apply dec_stable in Hc0. rewrite <-Hi, <-Hc0. rewrite Forall_forall in *. intros r Hr'.
    apply Hsub. by eapply elem_of_sublist.
  - eapply Forall_impl; [exact Hall|]. intros r [Hat ???]. rewrite Ha in Hat. split; [done..|]. lia.
Qed.

Definition events_built (events : list AuthorizedEvent) : Prop :=
  Forall (λ e, event_built e ∧ operation_built (eb_operation (ev_body e))) events.

Lemma apply_events_history g events s s' : history g s → events_built events →
  apply_events s events = Ok s' → history g s'.
Proof.
  intros Hh Hb. revert s Hh. induction Hb as [|e events [He Ho] Hb IH]; intros s Hh H; cbn [apply_events] in H.
  { by apply Ok_injective in H as <-. }
  destruct (validate_and_apply s e) as [s1 r] eqn:Hv. apply bind_Ok in H as (o & _ & H). ok_step H.
  eapply IH; [|exact H]. replace s1 with (validate_and_apply s e).1 by by rewrite Hv. by apply history_event.
Qed.

(** C9. A checkpoint that is trusted from a genesis is one of the account: no conflict
    is known, the state was reached from the genesis by the events and is not forked,
    the body is the one that commits this state, controllers with the weight that a
    change of the providers takes have approved this checkpoint (or it is that of the
    last event of the account), and for every quorum and age that the provider policy of
    the account or the caller asks for, that many distinct providers of the policy have
    the checkpoint in their log, observed no earlier than the age allows and no later
    than the skew of clocks allows. *)
Theorem bootstrap_trusted : ∀ g events checkpoint transition evidence caller at_time conflicts trusted,
  genesis_built g → events_built events → checkpoint_built checkpoint → evidence_built evidence →
  bootstrap_checkpoint_from_genesis g events checkpoint transition evidence caller at_time conflicts
    = Ok trusted →
  let s := tb_state trusted in
  let id := vc_checkpoint_id (tb_checkpoint trusted) in
  conflicts = [] ∧ history g s ∧ st_fork s = None ∧
  checkpoint_id (ck_body checkpoint) = Ok id ∧
  build_checkpoint_body s (cb_issued_at (ck_body checkpoint)) = Ok (ck_body checkpoint) ∧
  authorized_by (st_projection s) id checkpoint transition ∧
  ∀ quorum age, (quorum, age) ∈ demands (pp_mode (p_provider_policy (st_projection s))) caller →
    ∃ policy receipts, fresh_quorum (st_projection s) id at_time quorum age policy receipts.
Proof.
  intros g events c t evidence caller at_time conflicts trusted Hg Hev Hcb He H s id.
  apply bind_Ok in H as (s0 & H0 & H). unfold bootstrap_checkpoint in H. case_bool_decide as Hk.
  { by apply bind_Ok in H as (u & _ & H). }
  apply bind_Ok in H as (s1 & Ha & (v & Hv & (requirement & Hr & (fresh & Hf & <-%Ok_injective)%bind_Ok)%bind_Ok)%bind_Ok).
  unfold advance_checkpoint_lineage in Ha. apply bind_Ok in Ha as (u & _ & (s2 & Ha & H)%bind_Ok). ok_step H.
  apply Ok_injective in H as ->. cbn in s, id. subst s id.
  assert (Hh : history g s1) by by eapply apply_events_history; [apply history_genesis|..].
  destruct (verify_Ok _ _ _ _ Hv) as (Hb & Hi & _).
  assert (Hfork : st_fork s1 = None).
  { apply build_body_Ok in Hb as (sets & (m & ac & re & dv & au & gone & K)%bo_sets%merkle_sets_Ok).
    by destruct (cm_fork _ _ _ _ _ _ _ _ K). }
  pose proof (ac_authority _ (linear_account s1 (history_state_ok g s1 Hg Hh) Hfork)) as Hs.
  split_and!; [done..|by apply verify_authorized|].
  intros quorum age Hd. eapply freshness_quorum; [| | | |exact Hf|]; done.
Qed.

End Props.

(** ** The example account *)

Module CheckpointExample.
Import ExampleWire ProviderExample AccountExample ForkExample.

(** A format that writes the place of a value in a table. *)
Definition table {A} `{EqDecision A} (l : list A) : WireFormat A := {|
  to_stdvec a := '(i, _) ← list_find (eq a) l; Some (put_nat i);
  take_from_bytes bytes := '(i, rest) ← take_nat bytes; a ← l !! i; Some (a, rest);
|}.

Lemma table_takes_back {A} `{EqDecision A} (l : list A) : @TakesBack A (table l).
Proof.
  intros a bytes rest. cbn. destruct (list_find (eq a) l) as [[i b]|] eqn:Hf; [|done].
  intros [= <-]. apply list_find_Some in Hf as (Hi & -> & _). cbn. rewrite take_put_nat. cbn. by rewrite Hi.
Qed.

(** The fields of a body without extensions. *)
Definition lifecycles : list AccountLifecycle :=
  [AccountActive; AccountRecoveryPending; AccountMigrationPending; AccountMigrationDual; AccountUpgradePending;
   AccountIsRetired].
Definition Fields : Type := Digest * N * N * Digest * Digest * Digest * Digest * Digest * Digest * Digest * Digest * N.
Definition fields (b : CheckpointBody) : Fields :=
  (cb_account_id b, cb_account_epoch b, cb_sequence b, cb_event_head b, cb_state_root b,
   cb_authorized_set_root b, cb_revoked_set_root b, cb_control_policy_id b, cb_recovery_policy_id b,
   cb_provider_policy_id b, cb_crypto_state_id b, cb_issued_at b).
Definition body_from (f : Fields) (l : AccountLifecycle) : CheckpointBody :=
  let '(a, e, s, h, sr, ar, rr, c, r, p, y, t) := f in mkCheckpointBody a e s h sr ar rr c r p y l t [].

#[local] Instance wire_Fields : WireFormat Fields := _.
#[local] Instance wire_Fields_laws : WireLaws Fields := _.

Definition body_wire : WireFormat CheckpointBody := {|
  to_stdvec b := if bool_decide (cb_extensions b = []) then
                   x ← to_stdvec (fields b);
                   y ← @to_stdvec _ (table lifecycles) (cb_lifecycle b);
                   Some (x ++ y)
                 else None;
  take_from_bytes bytes := '(f, rest) ← take_from_bytes bytes;
                           '(l, rest) ← @take_from_bytes _ (table lifecycles) rest;
                           Some (body_from f l, rest);
|}.

Lemma body_takes_back : @TakesBack CheckpointBody body_wire.
Proof.
  intros b bytes rest. unfold to_stdvec at 1, take_from_bytes at 1. cbn [body_wire].
  case_bool_decide as He; [|done]. destruct (to_stdvec (fields b)) as [x|] eqn:Hx; [|done].
  destruct (@to_stdvec _ (table lifecycles) _) as [y|] eqn:Hy; [|done]. intros [= <-].
  rewrite <-app_assoc, (law_takes_back _ _ _ Hx). cbn [mbind option_bind].
  rewrite (table_takes_back lifecycles _ _ _ Hy). cbn. destruct b. cbn in *. by subst.
Qed.

#[export] Instance CheckpointStateMaterial_EqDecision : EqDecision CheckpointStateMaterial.
Proof. solve_decision. Defined.
#[export] Instance DeviceLeaf_EqDecision : EqDecision DeviceLeaf.
Proof. unfold DeviceLeaf. apply _. Defined.
#[export] Instance ControllerLeaf_EqDecision : EqDecision ControllerLeaf.
Proof. unfold ControllerLeaf. apply _. Defined.

(** The account after its recovery, and what its leaves hold. *)
Definition recovered : AccountState := foldl apply initial [e1; e2; e3; e4].

Definition crypto_wire : WireFormat CryptoStateMaterial := by_part (λ _, []).
Definition without_materials : CheckpointWire :=
  Build_CheckpointWire body_wire (table []) crypto_wire (table []) (table []).
Definition crypto : Digest := ok (dig x00) (@crypto_state_id _ _ without_materials s4).

#[export] Instance checkpoint_wire : CheckpointWire := Build_CheckpointWire
  body_wire
  (table [material_of s4 crypto])
  crypto_wire
  (table ((controller_leaf true <$> p_active_controllers s4) ++ (controller_leaf false <$> p_revoked_controllers s4)))
  (table (device_leaf <$> p_devices s4)).

#[export] Instance checkpoint_body_takes_back : TakesBack CheckpointBody := body_takes_back.
#[export] Instance state_material_takes_back : TakesBack CheckpointStateMaterial := table_takes_back _.
#[export] Instance controller_leaf_takes_back : TakesBack ControllerLeaf := table_takes_back _.
#[export] Instance device_leaf_takes_back : TakesBack DeviceLeaf := table_takes_back _.

Definition nobody : CheckpointBody :=
  let d := dig x00 in mkCheckpointBody d 0 0 d d d d d d d d AccountActive 0 [].
Definition body_after (time : N) : CheckpointBody := ok nobody (build_checkpoint_body recovered time).
Definition no_transition : TransitionCheckpointWitness :=
  mkTransitionWitness TransitionRetireAccount (dig x00) (dig x00).

Definition checkpoint : SignedCheckpoint :=
  mkCheckpoint (body_after 41) (TransitionDerived (ok no_transition (from_authorized_event e4))).
Definition id_of_checkpoint : Digest := ok (dig x00) (checkpoint_id (ck_body checkpoint)).

(** The provider has logged the checkpoint. *)
Definition logged : InclusionReceipt :=
  let entry := mkLogEntry id_of_provider (dig x02) account (SubjectCheckpoint id_of_checkpoint) 45 [] in
  mkReceipt entry 0 [] (head (mkLog [ok (dig x00) (merkle_leaf_hash entry)]) 46).
Definition evidence : FreshnessEvidence :=
  FreshProviderQuorum id_of_checkpoint (p_provider_policy_id s4) [logged].

Definition bootstrap : result IdentityError TrustedCheckpointBootstrap :=
  bootstrap_checkpoint_from_genesis genesis [e1; e2; e3; e4] checkpoint (Some e4) evidence LatestKnown 60 [].

End CheckpointExample.

Import ExampleWire ProviderExample AccountExample ForkExample CheckpointExample.

Lemma example_events : events_built [e1; e2; e3; e4].
Proof.
  repeat constructor; try evaluate. exists [], true. evaluate.
Qed.

Definition trusted : TrustedCheckpointBootstrap :=
  ok (mkTrusted initial (mkVerified checkpoint (dig x00) None)
        (mkFreshnessDecision (mkAuthContext (dig x00) 0 (dig x00)) (dig x00) None None None)) bootstrap.

Lemma bootstrap_trusted_witness : history genesis recovered ∧
  p_heads (st_projection recovered) = [id_of_event e4] ∧
  ∃ policy receipts, fresh_quorum (st_projection recovered) id_of_checkpoint 60 1 50 policy receipts.
Proof.
  destruct (bootstrap_trusted genesis [e1; e2; e3; e4] checkpoint (Some e4) evidence LatestKnown 60 [] trusted)
    as (_ & Hh & _ & _ & _ & Ha & Hf).
  - apply example_built.
  - apply example_events.
  - done.
  - split; evaluate.
  - evaluate.
  - assert (Hs : tb_state trusted = recovered) by evaluate. rewrite Hs in *.
    assert (Hi : vc_checkpoint_id (tb_checkpoint trusted) = id_of_checkpoint) by evaluate. rewrite Hi in *.
    split_and!; [done|evaluate|]. apply (Hf 1 50). replace (demands _ _) with [(1, 50)] by evaluate. left.
Defined.

(** The phone is in the set of revoked devices, and not in that of the authorized. *)
Definition sets : CheckpointMerkleSets :=
  ok (mkMerkleSets (mkSet []) (mkSet []) (mkSet [])) (build_checkpoint_merkle_sets recovered).
Definition no_leaf : MerkleSetLeaf := mkMerkleSetLeaf (mkMerkleSetKey 0 (dig x00)) (dig x00).
Definition phone_leaf : MerkleSetLeaf :=
  match entries (ms_revoked_devices sets) with leaf :: _ => leaf | [] => no_leaf end.
Definition phone_inclusion : MerkleInclusionProof :=
  ok (mkInclusionProof 0 0 []) (set_inclusion_proof (ms_revoked_devices sets) (leaf_key phone_leaf)).
Definition phone_absence : MerkleNonMembershipProof :=
  ok (mkNonMembershipProof 0 None None) (non_membership_proof (ms_authorized_devices sets)
    (mkMerkleSetKey CHECKPOINT_AUTHORIZED_DEVICE_TYPE_TAG phone_id)).

Definition verified : VerifiedCheckpoint := tb_checkpoint trusted.

Lemma checkpoint_device_status_witness :
  ((∃ d, d ∈ p_devices s4 ∧ dv_lifecycle d = DeviceIsRevoked ∧
      device_set_leaf CHECKPOINT_REVOKED_DEVICE_TYPE_TAG DomainRevokedSet d = Ok phone_leaf) ∨ collision) ∧
  ((∀ d, d ∈ p_devices s4 → dv_id d = phone_id → dv_lifecycle d ≠ DeviceIsActive) ∨ collision).
Proof.
  destruct (checkpoint_device_status recovered checkpoint (Some e4) verified phone_inclusion phone_absence
    phone_leaf phone_id) as (_ & Hrev & Habs & _); [evaluate..|].
  replace (p_devices s4) with (p_devices (st_projection recovered)) by evaluate.
  split; [apply Hrev; evaluate|apply Habs; evaluate].
Defined.

